(* ===== verification/_CoqProject ===== *)
-Q . S2P
Prelude.v
Params.v
Probe.v
UniqueKey.v
LockList.v
BufTable.v
Bytes.v
JobBuf.v
RetBuf.v
StudentTuple.v
StudentTable.v
TableMap.v
Typing.v
Ring.v
CommitQueue.v
Channels.v
Prog.v
Locking.v
Counted.v
Worker.v
Length.v
References.v
Every.v
Private.v
WorkerLogic.v
Transaction.v
Requests.v
Commits.v
Reads.v
Upgrades.v
Replies.v
Trail.v
WorkerTable.v
ThreadManager.v
Serve.v
System.v
Isolation.v
Liveness.v
Server.v
Agreement.v
Refinement.v
Handover.v
Telling.v
Ownership.v
Answers.v
Stability.v
Store.v
Serial.v
Units.v
