(* ===== verification/Prelude.v ===== *)
(** * PawnDB: a verified model of the storage and transaction core

    PawnDB is a small in-memory transactional database in C++17.  Clients send
    datagrams; a socket thread ([ThreadManager]) puts each message into a
    pooled buffer, finds or starts the worker of its transaction and queues a
    job for it.  Every transaction runs in a [Worker] thread: it acquires
    shared and exclusive record locks in a growing phase, queues changes in a
    shrinking phase, and applies them when the client commits.  Workers meet
    in one [Database]: the student table, which keeps a lock word per record,
    and the buffer pool.

    This library models that core, definition by definition after the sources
    under [src/include/pawndb] and [src/src], and proves what the parts
    promise each other and what the whole keeps.  A definition has the name of
    the method it translates; [_] at the end of a name is the source's.

    ** Conventions

    - An integer is a [Z] with the wrap-around of its type written out ([u8],
      [u16], [u32], [u64], [s8] of this file); bytes are [Z]; slot numbers and
      array lengths are [nat].
    - A call returns an [outcome]: [Ret], [Hang] (an endless loop of the
      source) or [Undef] (undefined behaviour or [std::terminate]).
      [Result<T, E>] is the record [Params.Result] with both members.
    - References to slots are slot numbers.  A [buf_ref] is [None] or the slot
      it counts; each constructor, assignment and destructor that touches the
      count is written out, the pool being threaded through.
    - A function that runs under a mutex is one atomic action.  Where such a
      function waits on a condition variable, either the effect of the other
      threads is an argument ([env], in [StudentTable] and [Channels]), or the
      wait is a matter of scheduling ([Worker]).  What a worker that is being
      joined still does is an argument of the sequential model of the socket
      thread ([finish], in [WorkerTable] and [ThreadManager]); in the
      concurrent one ([Serve]) the joining thread waits for the worker's.
    - [process_commit] uses an entry of its queue through a reference to a copy
      that has been destroyed ([worker.cpp], line 87).  What such a copy reads as
      is a parameter of the handlers, [Worker.expiry]: nothing can be said of it
      ([Undefined]), or it is as its destructor has left it, with a null buffer
      reference ([Cleared]), or as it was ([Retained]).  The systems of threads
      choose it anew for each turn of a worker, so that what is proved of their
      executions holds whichever it is, turn by turn.  That a commit works is
      proved of entries that are [readable] ([Requests], [Commits]); that it is
      undefined otherwise, too ([Requests.commit_dangles]).
    - Sends to the socket append to a list of datagrams; what the socket
      delivers is an argument.

    ** Files, in dependency order

    - [Prelude]: integers, outcomes, waits and [for] loops, counting, lists.
      [Params]: [params.h], the enumerations, [result.h].
    - [Probe]: the probing loops and the theory of open addressing with
      tombstones that [lock_list], [StudentTable] and [WorkerTable] share.
      [Ring]: the ring arrays of [commit_queue], [job_channel] and
      [ret_channel], and the interface [Fifo] with its laws [FifoLaws];
      draining and sending in bulk are proved against the interface.
    - [UniqueKey] ([unique_key.cpp]), [LockList] ([lock.cpp],
      [lock_list.cpp]): keys and the lock list of a transaction.
    - [BufTable] ([buf_table.cpp], [buf_ref.cpp]): the pool and its counts.
    - [Bytes], [JobBuf] ([job_buf.cpp]), [RetBuf] ([ret_buf.cpp]),
      [StudentTuple] ([StudentTuple] of [student_table.cpp], [tools.h]): wire
      format and records.
    - [StudentTable] ([student_table.cpp]): records, lock words, availability
      counters.  [TableMap]: the same table as a finite map.  [Typing]: pool
      and records keep the sizes and ranges of their types.
    - [CommitQueue] ([commit.cpp], [commit_queue.cpp], [rollback.cpp],
      [rollback_stack.cpp]), [Channels] ([client_conn.cpp], [job.cpp],
      [ret.cpp], [job_channel.cpp], [ret_channel.cpp]).
    - [Prog]: programs as trees of atomic actions, their execution against an
      environment, and the rely-guarantee logic [ok] with its soundness
      theorem.  [Locking]: the invariant [Good] that relates the table's lock
      words to the claims of all threads.  [Worker] ([worker.cpp],
      [schema/demo.h], [table_types.h]): the handlers.  [WorkerLogic]: one
      proof rule per action.  [Transaction]: the guarantee of every handler, and
      where in a commit it may be stuck ([blocked]) or undefined ([dangling]).
    - [Counted]: a second logic over the same programs, for reference counts:
      what a thread holds in its local variables and what its objects hold.
      [References]: its rules for the actions of a worker, and every handler.
      [Private]: the same with a ghost stage that says which buffer a worker
      may write; what a worker does to the queued buffers and to the records.
    - [Requests]: the abstract database and what one request does to it.
      [Commits]: which commits end when other threads act in between.
      [Reads], [Upgrades]: what the two read requests, and what a yield and a
      promotion lock and reply.  [Replies]: a third instance of the logic, by
      which every request gets its reply.  [Every]: what all actions of a handler
      have in common.  [Trail]: a fourth instance, for the changes that are queued
      and applied.  [Length]: how many actions a turn can take.
    - [WorkerTable] ([worker_table.cpp]), [ThreadManager]
      ([thread_manager.cpp]): the socket thread as functions.  [Serve]: the
      same code as programs of atomic actions on the state it shares with the
      workers.
    - [System]: any number of workers interleaved, with a socket thread that
      may do anything to buffers, channels and flags.  [Isolation] and
      [Liveness] are about its executions.
    - [Server]: the socket thread of [Serve] and its workers as one transition
      system, from the start of the program.  [Agreement]: run alone, the
      socket thread does what the functions of [ThreadManager] say.
      [Refinement]: the executions of [Server] are executions of [System].
    - [Handover]: the stages of the socket thread, which gives each buffer to
      one channel.  [Telling]: [Private], [Replies] and [Trail] about the same
      turn of a worker.  [Ownership]: the two threads' stages together are an invariant
      of [Server].  [Answers], [Stability]: what follows for requests, for
      commits, and for the records a transaction has locked.  [Store]: the
      table of the server as a bag of records.  [Serial]: commits that run at
      the same time.
    - [Units]: the test cases of [tests/units], run on these definitions.

    ** What is proved

    - Whole system ([System]): mutual exclusion of exclusive locks; every
      listed lock is backed by the record's lock word; the table stays
      well-formed, and a worker runs into undefined behaviour only in a commit
      that uses a destroyed entry ([dangling]).  The executions
      considered start with a well-formed table and no workers and stay in
      states with [room], where the 8-bit lock words and keys have not run
      over ([StudentTable] states what happens at those limits), and where a
      job channel that says it holds a job has one at its head
      ([front_ready]; a refused read breaks that, see below).
    - The server ([Server], [Refinement]): in every state it reaches, without
      such bounds, the count of each buffer is the number of references to it
      and memory keeps its types; its executions are executions of [System],
      so that what is proved there holds of the code of both threads together.
      Every buffer in use belongs to one context, whose thread alone writes it
      ([Ownership]); what is queued is not written, and has key 0.  So a worker
      answers the message it took, as it was, whatever the others do, in every
      turn in which it finds one; each turn is over after at most 295 actions of its
      worker, which can take each of them, within the bounds above, unless a
      commit is stuck or undefined ([Answers]); a record with a key other than 0
      never changes while it is in the table, and, within the bounds, one that is
      locked is read again as it was ([Stability]).  Only commits change records: every step
      leaves them alone or applies the change at the front of the acting
      worker's queue, and a commit applies what its transaction has queued, in
      order and once, however the other threads run meanwhile ([Trail],
      [Ownership], [Answers]).  Within the bounds above, the server implements
      an abstract store whose changes are those commits ([Store]); additions and
      deletions of commits that take turns give the store that one commit after
      the other gives, up to which new key a record gets ([Serial]).
    - One transaction ([Requests], [Commits], [Reads], [Upgrades], [Replies]): a
      commit of readable entries applies the queued changes to an abstract database,
      in order (a refinement), when it runs alone, and a commit of others is
      undefined; outside the shrinking phase it applies nothing; two-phase
      discipline; every request but a commit ends, whatever other threads do
      within the bounds, and so does a commit of readable additions and of
      deletions of different, locked records while the table has room; leaving
      gives every lock back; what is queued, and what a read delivers;
      a waiting read gets a lock that is free when it looks; a request is
      answered once, to its sender, in its own header, two cases apart.
    - Components: functional behaviour of every operation on every branch,
      invariants and their preservation ([table_wf], [lock_list_wf],
      [pool_wf], [queue_wf], [workers_wf]), round trips of records, headers
      and strings, exact reference counts, routing and shutdown.
    - Where the code goes wrong the behaviour is stated as it is: keys
      no slot has make [remove] and [write] loop for ever, a released tombstone
      hides a held lock from [add_lock], [ret_channel] overwrites its oldest
      entry, 16-bit reference counts and string lengths wrap, a stopped
      manager reports that it runs.  A commit reads a destroyed entry
      ([Requests]).  A refused shared read is answered twice
      and makes the worker dereference a null buffer, if no other job waits
      ([Reads]); an UPDATE, where its entry can still be read,
      overwrites a record another transaction has locked ([Isolation]); 17
      transactions that end between two START_TXN requests hang the socket
      thread ([ThreadManager]).

    ** Fuel

    Probing loops run for [N] iterations, one per slot: [Probe] proves that
    a [while (true)] loop that has not ended by then never ends, which is
    [Hang].  [commit_loop] and [clear_commit_queue] have [QUEUE_FUEL = 17],
    one more than the 16 entries of a queue; the retries of a read or a
    promotion have [RETRY_FUEL = 9], one more than [MAX_TIMEOUT_RETRY];
    joining a worker drains its 16 jobs with [JOIN_FUEL = 17].  Workers go on
    announcing their end while [Serve.reap] collects the announcements, so its
    fuel is arbitrary, chosen anew each turn.  Running out of fuel is
    divergence in the model, and the totality theorems show that it does not
    happen.

    ** What is not modelled

    What the operating system does: the answers of the socket calls are
    arguments ([ThreadManager.os_answers]); [std::cout]; time, so a wait may
    time out or not, but never by the clock; the memory model below the
    granularity of a mutex; build files.  [Worker::start] and
    [ThreadManager::start_] loop until they are told to stop: one turn of each
    is modelled in full ([Worker.iteration], [ThreadManager.body],
    [Serve.turn]); [Server] runs them for any number of turns.

    ** What is left

    Commits with updates: every update is queued with key 0, so that it changes
    the record with key 0, or a slot that was never used, or loops for ever;
    which of them, and so whether the turn ends, depends on the other
    transactions ([Answers] says that a turn gets stuck in a commit only), and
    so does the order of two such commits.  [Server] and [System] have one
    [expiry] per turn of a worker; that a destroyed entry reads differently in
    one iteration of [commit_loop] and in the next is left out. *)
From stdpp Require Export base tactics relations list sets list_numbers numbers option.
From Stdlib Require Export ZArith Lia.

#[global] Open Scope Z_scope.
#[global] Set Default Goal Selector "!".
#[global] Arguments Nat.modulo : simpl never.
#[global] Arguments Z.modulo : simpl never.
#[global] Arguments Z.to_nat : simpl never.

(** ** Fixed-width integers

    A C++ integer is a [Z] in the range of its type; every arithmetic
    operation of the source that can leave the range is followed by the
    wrap-around of the type. *)

Definition u8 (z : Z) : Z := z `mod` 2 ^ 8.
Definition u16 (z : Z) : Z := z `mod` 2 ^ 16.
Definition u32 (z : Z) : Z := z `mod` 2 ^ 32.
Definition u64 (z : Z) : Z := z `mod` 2 ^ 64.

Lemma u32_add a b : u32 (u32 a + u32 b) = u32 (a + b).
Proof. unfold u32. by rewrite <- Zplus_mod. Qed.

(** Conversion to a signed 8-bit integer (two's complement). *)
Definition s8 (z : Z) : Z := (z + 2 ^ 7) `mod` 2 ^ 8 - 2 ^ 7.

(** A byte of memory. *)
Definition is_byte (b : Z) : Prop := 0 <= b < 256.

#[global] Instance is_byte_dec b : Decision (is_byte b).
Proof. unfold is_byte. apply _. Defined.

Lemma u8_small z : 0 <= z < 256 -> u8 z = z.
Proof. intros. unfold u8. apply Z.mod_small. lia. Qed.
Lemma u16_small z : 0 <= z < 65536 -> u16 z = z.
Proof. intros. unfold u16. apply Z.mod_small. lia. Qed.
Lemma u32_small z : 0 <= z < 2 ^ 32 -> u32 z = z.
Proof. intros. unfold u32. apply Z.mod_small. lia. Qed.
Lemma u64_small z : 0 <= z < 2 ^ 64 -> u64 z = z.
Proof. intros. unfold u64. apply Z.mod_small. lia. Qed.
Lemma s8_small z : -128 <= z < 128 -> s8 z = z.
Proof. intros. unfold s8. rewrite Z.mod_small; lia. Qed.

Create Rewrite HintDb word.
Create Rewrite HintDb pawn.
Create HintDb pawn.
#[export] Hint Rewrite u8_small u16_small u32_small u64_small s8_small
  using lia : word.

(** [word] removes the wrap-around where the value provably fits and closes
    the rest by linear arithmetic. *)
Ltac word_simpl := autorewrite with word in *.
Ltac word := word_simpl; lia.

(** ** Outcomes of a call

    A call of the program either returns a value, never returns (an endless
    loop, or a wait nobody ends), or runs into undefined behaviour
    (a null reference is used). *)

Inductive outcome (A : Type) : Type :=
  | Ret (a : A)
  | Hang
  | Undef.
Arguments Ret {A} a.
Arguments Hang {A}.
Arguments Undef {A}.

#[global] Instance outcome_ret : MRet outcome := fun A a => Ret a.
#[global] Instance outcome_bind : MBind outcome := fun A B f m =>
  match m with Ret a => f a | Hang => Hang | Undef => Undef end.

Lemma outcome_bind_ret {A B} (a : A) (f : A -> outcome B) :
  (Ret a ≫= f) = f a.
Proof. reflexivity. Qed.

Lemma outcome_bind_Ret_inv {A B} (m : outcome A) (f : A -> outcome B) b :
  m ≫= f = Ret b -> exists a, m = Ret a /\ f a = Ret b.
Proof. destruct m as [a| |]; simpl; intros; try discriminate. eauto. Qed.

(** [of_loop o]: an endless loop that found no exit hangs. *)
Definition of_loop {A} (o : option A) : outcome A :=
  match o with Some a => Ret a | None => Hang end.

(** ** Counting the entries of an array that satisfy a test *)

Section Count.
Context {A : Type}.
Implicit Types (p q : A -> bool) (l : list A).

Fixpoint cnt p l : Z :=
  match l with
  | [] => 0
  | x :: l' => Z.b2z (p x) + cnt p l'
  end.

Lemma cnt_nonneg p l : 0 <= cnt p l.
Proof. induction l as [|x l IH]; simpl; [lia|]. destruct (p x); simpl; lia. Qed.

Lemma cnt_le_length p l : cnt p l <= Z.of_nat (length l).
Proof. induction l as [|x l IH]; simpl; [lia|]. destruct (p x); simpl; lia. Qed.

Lemma cnt_app p l k : cnt p (l ++ k) = cnt p l + cnt p k.
Proof. induction l as [|x l IH]; simpl; lia. Qed.

Lemma cnt_insert p l i x y :
  l !! i = Some x ->
  cnt p (<[i := y]> l) = cnt p l - Z.b2z (p x) + Z.b2z (p y).
Proof.
  revert i; induction l as [|z l IH]; intros [|i] H; simplify_eq/=; [lia|].
  rewrite (IH i) by done. lia.
Qed.

Lemma cnt_lt_length p l i x :
  l !! i = Some x -> p x = false -> cnt p l < Z.of_nat (length l).
Proof.
  revert i; induction l as [|z l IH]; intros [|i] H Hx; simplify_eq/=.
  - rewrite Hx. pose proof (cnt_le_length p l). simpl. lia.
  - pose proof (IH i H Hx). destruct (p z); simpl; lia.
Qed.

(** Pigeonhole: fewer hits than slots leaves a slot that is not a hit. *)
Lemma cnt_lt_exists p l :
  cnt p l < Z.of_nat (length l) -> exists i x, l !! i = Some x /\ p x = false.
Proof.
  induction l as [|z l IH]; simpl; [lia|]. intros H.
  destruct (p z) eqn:E.
  - simpl in H. destruct IH as (i & x & Hi & Hx); [lia|]. by exists (S i), x.
  - by exists 0%nat, z.
Qed.

Lemma cnt_pos_exists p l :
  0 < cnt p l -> exists i x, l !! i = Some x /\ p x = true.
Proof.
  induction l as [|z l IH]; simpl; [lia|]. intros H.
  destruct (p z) eqn:E.
  - by exists 0%nat, z.
  - simpl in H. destruct IH as (i & x & Hi & Hx); [lia|]. by exists (S i), x.
Qed.

Lemma cnt_pos p l i x : l !! i = Some x -> p x = true -> 0 < cnt p l.
Proof.
  revert i; induction l as [|z l IH]; intros [|i] H Hx; simplify_eq/=.
  - rewrite Hx. pose proof (cnt_nonneg p l). simpl. lia.
  - pose proof (IH i H Hx). destruct (p z); simpl; lia.
Qed.

Lemma cnt_zero p l : (forall i x, l !! i = Some x -> p x = false) -> cnt p l = 0.
Proof.
  induction l as [|z l IH]; intros H; [done|]. simpl.
  rewrite (H 0%nat z eq_refl), IH; [done|]. intros i. apply (H (S i)).
Qed.

Lemma cnt_replicate p n x : cnt p (replicate n x) = Z.of_nat n * Z.b2z (p x).
Proof. induction n as [|n IH]; [done|]. cbn [replicate cnt]. lia. Qed.

Lemma cnt_ext p q l : (forall x, x ∈ l -> p x = q x) -> cnt p l = cnt q l.
Proof.
  induction l as [|x l IH]; intros H; [done|]. simpl.
  rewrite (H x), IH; [done| |set_solver]. intros; apply H; set_solver.
Qed.

Lemma cnt_mono p q l :
  (forall x, p x = true -> q x = true) -> cnt p l <= cnt q l.
Proof.
  intros H. induction l as [|x l IH]; simpl; [lia|].
  specialize (H x). destruct (p x), (q x); simpl; naive_solver lia.
Qed.
End Count.

(** ** The entries an array holds, as a multiset

    [omap f l] lists [f x] for the slots [x] of [l] that [f] selects; writing
    one slot adds or removes one element up to order. *)

Section Omap.
Context {A B : Type} (f : A -> option B).
Implicit Types l : list A.

Lemma omap_insert_add l i x y b :
  l !! i = Some x -> f x = None -> f y = Some b ->
  omap f (<[i := y]> l) ≡ₚ b :: omap f l.
Proof.
  revert i; induction l as [|z l IH]; intros [|i] Hi Hx Hy; simplify_eq/=.
  - by rewrite Hx, Hy.
  - destruct (f z); rewrite (IH i) by done; [by rewrite Permutation_swap|done].
Qed.

Lemma omap_insert_remove l i x y b :
  l !! i = Some x -> f x = Some b -> f y = None ->
  omap f l ≡ₚ b :: omap f (<[i := y]> l).
Proof.
  revert i; induction l as [|z l IH]; intros [|i] Hi Hx Hy; simplify_eq/=.
  - by rewrite Hx, Hy.
  - destruct (f z); rewrite (IH i) by done; [by rewrite Permutation_swap|done].
Qed.

Lemma omap_insert_replace l i x y a b :
  l !! i = Some x -> f x = Some a -> f y = Some b ->
  exists rest, omap f l ≡ₚ a :: rest /\ omap f (<[i := y]> l) ≡ₚ b :: rest.
Proof.
  revert i; induction l as [|z l IH]; intros [|i] Hi Hx Hy; simplify_eq/=.
  - rewrite Hx, Hy. eauto.
  - destruct (IH i) as (rest & H1 & H2); [done..|]. destruct (f z) as [c|]; [|eauto].
    exists (c :: rest). rewrite H1, H2. split; apply Permutation_swap.
Qed.

Lemma omap_insert_same l i x y :
  l !! i = Some x -> f x = f y -> omap f (<[i := y]> l) = omap f l.
Proof.
  revert i; induction l as [|z l IH]; intros [|i] Hi Hx; simplify_eq/=.
  - by rewrite Hx.
  - by rewrite (IH i).
Qed.

Lemma elem_of_omap l b :
  b ∈ omap f l <-> exists i x, l !! i = Some x /\ f x = Some b.
Proof.
  rewrite list_elem_of_omap. split.
  - intros (x & Hx & ?). apply list_elem_of_lookup in Hx as (i & ?). eauto.
  - intros (i & x & Hi & ?). exists x. split; [|done]. by eapply list_elem_of_lookup_2.
Qed.

Lemma omap_none l : (forall x, x ∈ l -> f x = None) -> omap f l = [].
Proof.
  induction l as [|x l IH]; intros H; [done|]. simpl. rewrite (H x) by set_solver.
  apply IH. set_solver.
Qed.
End Omap.

Lemma omap_if {A B} (p : A -> bool) (g : A -> B) (l : list A) :
  omap (fun x => if p x then Some (g x) else None) l = g <$> List.filter p l.
Proof. induction l as [|x l IH]; [done|]. csimpl. destruct (p x); csimpl; by rewrite IH. Qed.

Lemma insert_split {A} (l : list A) i x :
  l !! i = Some x -> exists rest, l ≡ₚ x :: rest /\ forall y, <[i := y]> l ≡ₚ y :: rest.
Proof.
  revert i; induction l as [|z l IH]; intros [|i] Hi; simplify_eq/=; [eauto|].
  destruct (IH i Hi) as (rest & H1 & H2). exists (z :: rest). split.
  - rewrite H1. apply Permutation_swap.
  - intros y. rewrite H2. apply Permutation_swap.
Qed.

Lemma insert_alter {A} (f : A -> A) (l : list A) i x :
  l !! i = Some x -> alter f i l = <[i := f x]> l.
Proof.
  intros Hi. rewrite list_insert_alter. apply list_alter_ext; [|done].
  intros y Hy. congruence.
Qed.

Lemma alter_none {A} (f : A -> A) (l : list A) i : l !! i = None -> alter f i l = l.
Proof.
  intros Hi. apply list_eq. intros j. destruct (decide (i = j)) as [<-|].
  - by rewrite list_lookup_alter_eq, Hi.
  - by rewrite list_lookup_alter_ne.
Qed.

#[export] Instance cnt_perm {A} (p : A -> bool) :
  Proper ((≡ₚ) ==> (=)) (cnt p).
Proof. induction 1; simpl; lia. Qed.

(** ** Waiting on a condition variable

    While a thread waits the mutex is released and other threads may change
    the shared state; [env] is their combined effect until the waiter runs
    again.  [wait(lock, pred)] returns only in a state where [pred] holds;
    [wait_for(lock, timeout, pred)] returns the value of [pred] in the state
    in which it stops waiting.  Neither waits when [pred] holds at once. *)

Definition wait {S} (env : S -> S) (pred : S -> bool) (s : S) : outcome S :=
  if pred s then Ret s
  else let s' := env s in if pred s' then Ret s' else Hang.

Definition wait_for {S} (env : S -> S) (pred : S -> bool) (s : S) : S * bool :=
  if pred s then (s, true) else let s' := env s in (s', pred s').

Lemma wait_for_cases {S} (env : S -> S) pred s s' b :
  wait_for env pred s = (s', b) -> b = pred s' /\ (s' = s \/ s' = env s).
Proof. unfold wait_for. destruct (pred s) eqn:E; intros; simplify_eq; auto. Qed.

(** [for (i = 0; i < n; i++) { if (...) return ...; }] *)
Fixpoint for_return {R} (fuel i : nat) (body : nat -> option R) : option R :=
  match fuel with
  | O => None
  | S f => match body i with Some r => Some r | None => for_return f (i + 1) body end
  end.

Lemma for_return_Some {R} fuel i (body : nat -> option R) r :
  for_return fuel i body = Some r ->
  exists j, (i <= j < i + fuel)%nat /\ body j = Some r /\
    forall k, (i <= k < j)%nat -> body k = None.
Proof.
  revert i; induction fuel as [|f IH]; intros i H; [done|]. simpl in H.
  destruct (body i) as [r'|] eqn:Eb.
  - injection H as ->. exists i. split_and!; [lia..|done|lia].
  - destruct (IH _ H) as (j & Hj & Hb & Hk). exists j. split_and!; [lia..|done|].
    intros k Hk'. destruct (decide (k = i)) as [->|]; [done|]. apply Hk. lia.
Qed.

Lemma for_return_None {R} fuel i (body : nat -> option R) :
  for_return fuel i body = None -> forall j, (i <= j < i + fuel)%nat -> body j = None.
Proof.
  revert i; induction fuel as [|f IH]; intros i H j Hj; [lia|]. simpl in H.
  destruct (body i) as [r'|] eqn:Eb; [done|].
  destruct (decide (j = i)) as [->|]; [done|]. apply (IH (i + 1)%nat); [done|lia].
Qed.

(** Several lists put together: one of them, and the others. *)
Lemma mjoin_cons {A} (g : list A) gs : mjoin (g :: gs) = g ++ mjoin gs.
Proof. done. Qed.

Lemma mjoin_split {A} (gs : list (list A)) i g :
  gs !! i = Some g -> exists O, mjoin gs ≡ₚ g ++ O /\
    forall g', mjoin (<[i := g']> gs) ≡ₚ g' ++ O.
Proof.
  revert i; induction gs as [|x gs IH]; intros [|i] Hi; simplify_eq/=; [eauto|].
  destruct (IH i Hi) as (O & H1 & H2). exists (x ++ O). split.
  - rewrite H1. rewrite !app_assoc. f_equiv. apply Permutation_app_comm.
  - intros g'. rewrite H2. rewrite !app_assoc. f_equiv. apply Permutation_app_comm.
Qed.

Lemma mjoin_all_nil {A} (gs : list (list A)) : (forall g, g ∈ gs -> g = []) -> mjoin gs = [].
Proof.
  induction gs as [|g gs IH]; intros H; [done|]. rewrite mjoin_cons, (H g) by set_solver.
  apply IH. set_solver.
Qed.
