(* ===== verification/Params.v ===== *)
(** * Parameters, enumerations and the result type

    [include/pawndb/params.h], the error enumerations of the component
    headers, and [include/pawndb/result.h].  Constructors carry the
    enumeration's name as a prefix because C++ scopes them ([enum class]). *)
From S2P Require Import Prelude.

(** ** Constants of [params.h] *)

Definition BUFFER_WIDTH : Z := 32768.
Definition BUFFER_ROWS : Z := 64.
Definition MAX_ITEM_PER_CHANNEL : Z := 16.
Definition MAX_TRANSACTIONS : Z := 64.
Definition MAX_LOCK_PER_TRANSACTION : Z := 16.
Definition MAX_COMMIT_PER_TRANSACTION : Z := 16.
Definition MAX_TIMEOUT_RETRY : Z := 8.

(** ** Enumerations *)

Inductive QueueError := QueueError_None | QueueError_Empty | QueueError_Full
  | QueueError_Timeout.

Inductive LockType := SHARED | EXCLUSIVE.

Inductive LockError := LockError_None | LockError_Full | LockError_NotFound
  | LockError_Conflict.

Inductive BufferError := BufferError_None | BufferError_Full.

Inductive StudentTableError := StudentTableError_None
  | StudentTableError_NotFound.

Inductive TupleTableError := TupleTableError_None | TupleTableError_Full
  | TupleTableError_Timeout | TupleTableError_NotFound.

Inductive SerializerError := SerializerError_None
  | SerializerError_ExceededWidth.

Inductive ParserError := ParserError_None | ParserError_ReadAfterEnd
  | ParserError_InvalidValue.

Inductive WorkerTableError := WorkerTableError_None | WorkerTableError_Full
  | WorkerTableError_NotFound.

Inductive OpType := START_TXN | ADD_TUPLE | SHARED_READ | EXCLUSIVE_READ
  | YIELD_READ | PROMOTE | UPDATE | DELETE | COMMIT_TXN | ABORT_TXN
  | MAX_OP_VALUE.

Inductive OpAck := SUCCESS | BUSY | BAD_OP | BAD_TABLE | BAD_TP | BAD_TXN
  | BAD_PHASE | BAD_DATA | BAD_ACCESS | COMMIT_FULL | TIMEOUT | ABORTED
  | DEAD_TXN.

#[export] Instance QueueError_eq_dec : EqDecision QueueError.
Proof. solve_decision. Defined.
#[export] Instance LockType_eq_dec : EqDecision LockType.
Proof. solve_decision. Defined.
#[export] Instance LockError_eq_dec : EqDecision LockError.
Proof. solve_decision. Defined.
#[export] Instance BufferError_eq_dec : EqDecision BufferError.
Proof. solve_decision. Defined.
#[export] Instance StudentTableError_eq_dec : EqDecision StudentTableError.
Proof. solve_decision. Defined.
#[export] Instance TupleTableError_eq_dec : EqDecision TupleTableError.
Proof. solve_decision. Defined.
#[export] Instance SerializerError_eq_dec : EqDecision SerializerError.
Proof. solve_decision. Defined.
#[export] Instance ParserError_eq_dec : EqDecision ParserError.
Proof. solve_decision. Defined.
#[export] Instance WorkerTableError_eq_dec : EqDecision WorkerTableError.
Proof. solve_decision. Defined.
#[export] Instance OpType_eq_dec : EqDecision OpType.
Proof. solve_decision. Defined.
#[export] Instance OpAck_eq_dec : EqDecision OpAck.
Proof. solve_decision. Defined.

(** The underlying values of [OpType] and [OpAck] (declaration order). *)
Definition OpType_value (o : OpType) : Z :=
  match o with
  | START_TXN => 0 | ADD_TUPLE => 1 | SHARED_READ => 2 | EXCLUSIVE_READ => 3
  | YIELD_READ => 4 | PROMOTE => 5 | UPDATE => 6 | DELETE => 7
  | COMMIT_TXN => 8 | ABORT_TXN => 9 | MAX_OP_VALUE => 10
  end.

Definition OpAck_value (a : OpAck) : Z :=
  match a with
  | SUCCESS => 0 | BUSY => 1 | BAD_OP => 2 | BAD_TABLE => 3 | BAD_TP => 4
  | BAD_TXN => 5 | BAD_PHASE => 6 | BAD_DATA => 7 | BAD_ACCESS => 8
  | COMMIT_FULL => 9 | TIMEOUT => 10 | ABORTED => 11 | DEAD_TXN => 12
  end.

(** [static_cast] to the enumeration; only applied to checked values. *)
Definition OpType_of (z : Z) : OpType :=
  nth (Z.to_nat z) [START_TXN; ADD_TUPLE; SHARED_READ; EXCLUSIVE_READ;
    YIELD_READ; PROMOTE; UPDATE; DELETE; COMMIT_TXN; ABORT_TXN] MAX_OP_VALUE.

Definition OpAck_of (z : Z) : OpAck :=
  nth (Z.to_nat z) [SUCCESS; BUSY; BAD_OP; BAD_TABLE; BAD_TP; BAD_TXN;
    BAD_PHASE; BAD_DATA; BAD_ACCESS; COMMIT_FULL; TIMEOUT; ABORTED] DEAD_TXN.

Lemma OpType_of_value o : OpType_of (OpType_value o) = o.
Proof. by destruct o. Qed.

Lemma OpAck_of_value a : OpAck_of (OpAck_value a) = a.
Proof. by destruct a. Qed.

Lemma OpType_value_bounds o : 0 <= OpType_value o <= 10.
Proof. destruct o; simpl; lia. Qed.

Lemma OpAck_value_bounds a : 0 <= OpAck_value a <= 12.
Proof. destruct a; simpl; lia. Qed.

#[export] Hint Resolve OpType_value_bounds OpAck_value_bounds : core.

(** ** [Result<T, E>] of [result.h]

    The class requires of [E] only that it has an enumerator [None]. *)

Class ErrorEnum (E : Type) := {
  err_none : E;
  err_eq_dec :: EqDecision E
}.

#[export] Instance QueueError_enum : ErrorEnum QueueError :=
  {| err_none := QueueError_None |}.
#[export] Instance LockError_enum : ErrorEnum LockError :=
  {| err_none := LockError_None |}.
#[export] Instance BufferError_enum : ErrorEnum BufferError :=
  {| err_none := BufferError_None |}.
#[export] Instance StudentTableError_enum : ErrorEnum StudentTableError :=
  {| err_none := StudentTableError_None |}.
#[export] Instance TupleTableError_enum : ErrorEnum TupleTableError :=
  {| err_none := TupleTableError_None |}.
#[export] Instance SerializerError_enum : ErrorEnum SerializerError :=
  {| err_none := SerializerError_None |}.
#[export] Instance ParserError_enum : ErrorEnum ParserError :=
  {| err_none := ParserError_None |}.
#[export] Instance WorkerTableError_enum : ErrorEnum WorkerTableError :=
  {| err_none := WorkerTableError_None |}.

Section Result.
Context {T E : Type} `{!ErrorEnum E}.

(** [value_] is [None] when the object was built from an error: the C++
    member is then default-initialised (or a null pointer). *)
Record Result := mkResult { value_ : option T; error_ : E }.

Definition Ok (v : T) : Result := mkResult (Some v) err_none.
Definition Err (e : E) : Result := mkResult None e.

(** [explicit operator bool] *)
Definition is_ok (r : Result) : bool := bool_decide (error_ r = err_none).

(** [unwrap] on an error reads an indeterminate value or dereferences a
    null pointer. *)
Definition unwrap (r : Result) : outcome T :=
  match value_ r with Some v => Ret v | None => Undef end.

Definition getError (r : Result) : E := error_ r.

Lemma is_ok_Ok v : is_ok (Ok v) = true.
Proof. by apply bool_decide_eq_true. Qed.

Lemma is_ok_Err e : e <> err_none -> is_ok (Err e) = false.
Proof. intros. by apply bool_decide_eq_false. Qed.
End Result.
Arguments Result : clear implicits.
