(* ===== verification/Probe.v ===== *)
(** * Linear probing

    The loops by which [lock_list], [StudentTable] and [WorkerTable] walk
    their slot arrays, and the theory of open addressing with tombstones the
    three tables share.  A slot is free when it was never used or its entry
    was deleted; a lookup stops at the first slot never used. *)
From S2P Require Import Prelude.

(** ** The two loop shapes

    [while (true) { body; idx = (idx + 1) % N; }] and
    [do { body; idx = (idx + 1) % N; } while (idx != start);], where [body]
    leaves the function with a result or falls through.  The state does not
    change before the loop is left, so the loops are functions of the
    starting state; [fuel] bounds the number of iterations. *)

Section Loops.
Context {R : Type} (N : nat) (body : nat -> option R).

Fixpoint while_true (fuel idx : nat) : option R :=
  match fuel with
  | O => None
  | S f =>
      match body idx with
      | Some r => Some r
      | None => while_true f ((idx + 1) mod N)
      end
  end.

Fixpoint do_while (fuel start idx : nat) : option R :=
  match fuel with
  | O => None
  | S f =>
      match body idx with
      | Some r => Some r
      | None =>
          let idx' := ((idx + 1) mod N)%nat in
          if (idx' =? start)%nat then None else do_while f start idx'
      end
  end.

(** The [j]-th slot a loop that starts at [h] looks at. *)
Definition slot (h j : nat) : nat := ((h + j) mod N)%nat.

Lemma slot_0 h : (h < N)%nat -> slot h 0 = h.
Proof. intros. unfold slot. rewrite Nat.add_0_r. by apply Nat.mod_small. Qed.

Lemma slot_lt h j : (0 < N)%nat -> (slot h j < N)%nat.
Proof. intros. unfold slot. apply Nat.mod_upper_bound. lia. Qed.

Lemma slot_S h j : slot ((h + 1) mod N) j = slot h (S j).
Proof.
  unfold slot. rewrite Nat.Div0.add_mod_idemp_l. f_equal. lia.
Qed.

Lemma while_true_Some fuel h r :
  (h < N)%nat ->
  while_true fuel h = Some r <->
  exists j, (j < fuel)%nat /\ body (slot h j) = Some r /\
    forall k, (k < j)%nat -> body (slot h k) = None.
Proof.
  revert h; induction fuel as [|f IH]; intros h Hh; simpl.
  { split; [done|]. intros (j & ? & _); lia. }
  destruct (body h) as [r'|] eqn:Eb.
  - split.
    + intros [= ->]. exists 0%nat. rewrite slot_0 by done. split_and!; [lia|done|lia].
    + intros ([|j] & _ & Hj & Hk).
      * rewrite slot_0 in Hj by done. congruence.
      * specialize (Hk 0%nat ltac:(lia)). rewrite slot_0 in Hk by done. congruence.
  - rewrite IH by (apply Nat.mod_upper_bound; lia). split.
    + intros (j & Hj & Hb & Hk). exists (S j). rewrite <- slot_S.
      split_and!; [lia|done|]. intros [|k] Hlt.
      * by rewrite slot_0.
      * rewrite <- slot_S. apply Hk. lia.
    + intros ([|j] & Hj & Hb & Hk).
      * rewrite slot_0 in Hb by done. congruence.
      * exists j. rewrite slot_S. split_and!; [lia|done|].
        intros k Hlt. rewrite slot_S. apply Hk. lia.
Qed.

Lemma while_true_None fuel h :
  (h < N)%nat ->
  while_true fuel h = None <-> forall j, (j < fuel)%nat -> body (slot h j) = None.
Proof.
  revert h; induction fuel as [|f IH]; intros h Hh; simpl; [split; [lia|done]|].
  destruct (body h) as [r'|] eqn:Eb.
  - split; [done|]. intros H. specialize (H 0%nat ltac:(lia)).
    rewrite slot_0 in H by done. congruence.
  - rewrite IH by (apply Nat.mod_upper_bound; lia). split.
    + intros H [|j] Hj; [by rewrite slot_0|]. rewrite <- slot_S. apply H. lia.
    + intros H j Hj. rewrite slot_S. apply H. lia.
Qed.

(** One turn around the array decides: if [N] iterations find no exit, no
    number of iterations does. *)
Lemma while_true_diverges h :
  (h < N)%nat -> while_true N h = None -> forall fuel, while_true fuel h = None.
Proof.
  intros Hh Hn fuel. apply while_true_None; [done|]. intros j _.
  rewrite while_true_None in Hn by done.
  assert (slot h j = slot h (j mod N)) as ->.
  { unfold slot. by rewrite Nat.Div0.add_mod_idemp_r. }
  apply Hn. apply Nat.mod_upper_bound. lia.
Qed.

(** More fuel never changes an answer. *)
Lemma while_true_mono h fuel fuel' r :
  (h < N)%nat -> (fuel <= fuel')%nat ->
  while_true fuel h = Some r -> while_true fuel' h = Some r.
Proof.
  intros Hh Hle. rewrite !while_true_Some by done.
  intros (j & ? & ?). exists j. split; [lia|done].
Qed.

Lemma do_while_step fuel start j :
  (start < N)%nat -> (N <= j + fuel)%nat -> (j < N)%nat ->
  do_while fuel start (slot start j) = while_true (N - j) (slot start j).
Proof.
  intros Hs. revert j; induction fuel as [|f IH]; intros j Hf Hj; [lia|].
  replace (N - j)%nat with (S (N - S j)) by lia. simpl.
  destruct (body (slot start j)) as [r|] eqn:Eb; [done|].
  assert (((slot start j + 1) mod N)%nat = slot start (S j)) as ->.
  { unfold slot. rewrite Nat.Div0.add_mod_idemp_l. f_equal. lia. }
  destruct (decide (S j = N)) as [Heq|Hne].
  - replace (slot start (S j)) with start.
    + rewrite Nat.eqb_refl. by replace (N - S j)%nat with 0%nat by lia.
    + unfold slot. replace (start + S j)%nat with (start + 1 * N)%nat by lia.
      rewrite Nat.Div0.mod_add. symmetry. by apply Nat.mod_small.
  - destruct (Nat.eqb_spec (slot start (S j)) start) as [E|_].
    + exfalso. unfold slot in E. destruct (decide (start + S j < N)%nat).
      * rewrite Nat.mod_small in E by done. lia.
      * replace (start + S j)%nat with ((start + S j - N) + 1 * N)%nat in E by lia.
        rewrite Nat.Div0.mod_add, Nat.mod_small in E by lia. lia.
    + apply IH; lia.
Qed.

(** The [do ... while (idx != start)] loop ends after at most one turn and
    agrees with [N] iterations of the unbounded loop. *)
Lemma do_while_while_true fuel h :
  (h < N)%nat -> (N <= fuel)%nat -> do_while fuel h h = while_true N h.
Proof.
  intros Hh Hf. pose proof (do_while_step fuel h 0) as H.
  rewrite slot_0, Nat.sub_0_r in H by done. apply H; lia.
Qed.
End Loops.

(** ** Open addressing

    [used], [deleted] read the flags of a slot, [key] its key and [hash] the
    home slot of a key.  [hit k] is the key comparison of the source. *)

Section OpenAddressing.
Context {E K : Type} (used deleted : E -> bool) (key : E -> K)
  (hash : K -> nat) (eqb : K -> K -> bool).
Context (eqb_spec : forall a b, eqb a b = true <-> a = b).
Context (N : nat) (hash_lt : forall k, (hash k < N)%nat).

Definition live (e : E) : bool := used e && negb (deleted e).

(** How far slot [i] is from [h] along the probe sequence. *)
Definition dist (h i : nat) : nat := ((i + N - h) mod N)%nat.

Lemma slot_dist h i : (h < N)%nat -> (i < N)%nat -> slot N h (dist h i) = i.
Proof.
  intros. unfold slot, dist. rewrite Nat.Div0.add_mod_idemp_r.
  replace (h + (i + N - h))%nat with (i + 1 * N)%nat by lia.
  rewrite Nat.Div0.mod_add. by apply Nat.mod_small.
Qed.

Lemma dist_lt h i : (h < N)%nat -> (dist h i < N)%nat.
Proof. intros. unfold dist. apply Nat.mod_upper_bound. lia. Qed.

Lemma dist_slot h j : (h < N)%nat -> (j < N)%nat -> dist h (slot N h j) = j.
Proof.
  intros Hh Hj. unfold dist, slot. destruct (decide (h + j < N)%nat).
  - rewrite (Nat.mod_small (h + j)) by done.
    replace (h + j + N - h)%nat with (j + 1 * N)%nat by lia.
    rewrite Nat.Div0.mod_add. by apply Nat.mod_small.
  - replace (h + j)%nat with (h + j - N + 1 * N)%nat by lia.
    rewrite Nat.Div0.mod_add, (Nat.mod_small (h + j - N)) by lia.
    replace (h + j - N + N - h)%nat with j by lia. by apply Nat.mod_small.
Qed.

(** The probe invariant: between the home slot of a live key and the slot
    that holds it there is no slot that was never used. *)
Definition chain (l : list E) : Prop :=
  forall i e, l !! i = Some e -> live e = true ->
  forall j, (j < dist (hash (key e)) i)%nat ->
  exists e', l !! slot N (hash (key e)) j = Some e' /\ used e' = true.

Lemma chain_no_live l : (forall i e, l !! i = Some e -> live e = false) -> chain l.
Proof. intros H i e Hi He. rewrite (H i e Hi) in He. done. Qed.

(** A write that does not clear the slot's [used] flag and keeps the key of a live
    entry in place keeps the invariant. *)
Lemma chain_update l i e e' :
  l !! i = Some e -> (used e = true -> used e' = true) ->
  (live e' = true -> live e = true /\ key e' = key e) ->
  chain l -> chain (<[i := e']> l).
Proof.
  intros Hi Hu Hk Hc i2 e2 H2 Hl j Hj.
  assert (exists e' : E, l !! slot N (hash (key e2)) j = Some e' /\ used e' = true)
    as (e3 & H3 & H3u).
  { destruct (decide (i = i2)) as [->|Hne].
    - rewrite list_lookup_insert_eq in H2 by (by eapply lookup_lt_Some).
      simplify_eq. destruct (Hk Hl) as [? Hkey]. rewrite Hkey in *. by apply (Hc i2 e).
    - rewrite list_lookup_insert_ne in H2 by done. by apply (Hc i2 e2). }
  destruct (decide (i = slot N (hash (key e2)) j)) as [Heq|Hne].
  - rewrite <- Heq in *. exists e'.
    rewrite list_lookup_insert_eq by (by eapply lookup_lt_Some).
    split; [done|]. apply Hu. rewrite Hi in H3. by injection H3 as ->.
  - exists e3. by rewrite list_lookup_insert_ne.
Qed.

(** A new live entry placed at the first free slot of its probe sequence. *)
Lemma chain_insert l e' j :
  length l = N -> (j < N)%nat -> used e' = true ->
  (forall k, (k < j)%nat ->
     exists e : E, l !! slot N (hash (key e')) k = Some e /\ used e = true) ->
  chain l -> chain (<[slot N (hash (key e')) j := e']> l).
Proof.
  intros Hlen Hj Hu Hpre Hc i2 e2 H2 Hl k Hk.
  assert (exists e : E, l !! slot N (hash (key e2)) k = Some e /\ (slot N (hash (key e2)) k = slot N (hash (key e')) j \/ used e = true))
    as (e & He & Hue).
  { destruct (decide (slot N (hash (key e')) j = i2)) as [<-|Hne].
    - rewrite list_lookup_insert_eq in H2.
      + simplify_eq. rewrite dist_slot in Hk by auto.
        destruct (Hpre k Hk) as (e & ? & ?). eauto.
      + rewrite Hlen. apply slot_lt. specialize (hash_lt (key e')). lia.
    - rewrite list_lookup_insert_ne in H2 by done.
      destruct (Hc i2 e2 H2 Hl k Hk) as (e & ? & ?). eauto. }
  destruct (decide (slot N (hash (key e')) j = slot N (hash (key e2)) k)) as [Heq|Hne].
  - exists e'. rewrite Heq, list_lookup_insert_eq by (by eapply lookup_lt_Some). done.
  - exists e. rewrite list_lookup_insert_ne by done. split; [done|]. by destruct Hue as [?|?].
Qed.

(** [holder l k i e]: the entry [e] in slot [i] is the live entry a probe
    for [k] reaches first. *)
Definition holder (l : list E) (k : K) (i : nat) (e : E) : Prop :=
  l !! i = Some e /\ live e = true /\ key e = k /\
  forall j, (j < dist (hash k) i)%nat ->
    exists e', l !! slot N (hash k) j = Some e' /\ used e' = true /\
               (eqb (key e') k && negb (deleted e')) = false.

Definition present (l : list E) (k : K) : Prop :=
  exists i e, l !! i = Some e /\ live e = true /\ key e = k.

Lemma holder_present l k i e : holder l k i e -> present l k.
Proof. intros (? & ? & ? & _). by exists i, e. Qed.

(** The test by which [remove], [write], [promote] and [release] recognise
    an entry: the key matches and the entry is not deleted.  It does not
    look at the [used] flag. *)
Definition hits (k : K) (e : E) : bool := eqb (key e) k && negb (deleted e).

Lemma hits_live k e : used e = true -> hits k e = true <-> live e = true /\ key e = k.
Proof.
  intros Hu. unfold hits, live. rewrite Hu, !andb_true_iff, eqb_spec. simpl. tauto.
Qed.

(** The loop of these functions: [act] is what they do at the slot found. *)
Definition grab {R} (l : list E) (k : K) (act : nat -> E -> R) (i : nat) : option R :=
  match l !! i with
  | Some e => if hits k e then Some (act i e) else None
  | None => None
  end.

(** The loop of [search]: it ends at a slot never used. *)
Definition seek {R} (l : list E) (k : K) (missing : R) (act : nat -> E -> R)
    (i : nat) : option R :=
  match l !! i with
  | Some e => if negb (used e) then Some missing
              else if hits k e then Some (act i e) else None
  | None => None
  end.

Lemma grab_holder {R} l k (act : nat -> E -> R) i e :
  length l = N -> holder l k i e ->
  while_true N (grab l k act) N (hash k) = Some (act i e).
Proof.
  intros Hlen (Hi & Hl & Hk & Hpre). apply while_true_Some; [apply hash_lt|].
  assert (i < N)%nat by (rewrite <- Hlen; by eapply lookup_lt_Some).
  exists (dist (hash k) i). split; [by apply dist_lt|].
  rewrite slot_dist by auto. unfold grab. split.
  - rewrite Hi. rewrite (proj2 (hits_live k e ltac:(unfold live in Hl; by destruct (used e)))); done.
  - intros j Hj. destruct (Hpre j Hj) as (e' & -> & _ & Hh). unfold hits. by rewrite Hh.
Qed.

Lemma seek_holder {R} l k (missing : R) act i e :
  length l = N -> holder l k i e ->
  while_true N (seek l k missing act) N (hash k) = Some (act i e).
Proof.
  intros Hlen (Hi & Hl & Hk & Hpre). apply while_true_Some; [apply hash_lt|].
  assert (i < N)%nat by (rewrite <- Hlen; by eapply lookup_lt_Some).
  assert (Hu : used e = true) by (unfold live in Hl; by destruct (used e)).
  exists (dist (hash k) i). split; [by apply dist_lt|].
  rewrite slot_dist by auto. unfold seek. split.
  - rewrite Hi, Hu, (proj2 (hits_live k e Hu)); done.
  - intros j Hj. destruct (Hpre j Hj) as (e' & -> & Hu' & Hh). unfold hits.
    by rewrite Hu', Hh.
Qed.

(** What [grab] finds has the key, whatever the flags say. *)
Lemma grab_Some {R} l k (act : nat -> E -> R) fuel r :
  while_true N (grab l k act) fuel (hash k) = Some r ->
  exists i e, l !! i = Some e /\ hits k e = true /\ r = act i e.
Proof.
  rewrite while_true_Some by apply hash_lt. intros (j & _ & Hb & _).
  unfold grab in Hb. destruct (l !! _) as [e|] eqn:He; [|done].
  destruct (hits k e) eqn:Hh; [|done]. simplify_eq. eauto.
Qed.

Lemma seek_Some_inv {R} l k (missing : R) act fuel r :
  length l = N ->
  while_true N (seek l k missing act) fuel (hash k) = Some r ->
  r = missing \/ exists i e, holder l k i e /\ r = act i e.
Proof.
  intros Hlen. rewrite while_true_Some by apply hash_lt. intros (j & _ & Hb & Hpre).
  unfold seek in Hb. destruct (l !! _) as [e|] eqn:He; [|done].
  destruct (used e) eqn:Hu; simpl in Hb; [|left; congruence].
  destruct (hits k e) eqn:Hh; [|done]. right.
  exists (slot N (hash k) j), e. simplify_eq.
  apply (hits_live k e Hu) in Hh as [Hl Hk]. split; [|done].
  split_and!; [done..|]. intros j' Hj'.
  assert (Hlt : (j' < j)%nat).
  { destruct (decide (j < N)%nat) as [Hj|Hj].
    - rewrite dist_slot in Hj' by auto. done.
    - assert ((dist (hash k) (slot N (hash k) j) < N)%nat) by (apply dist_lt, hash_lt). lia. }
  specialize (Hpre j' Hlt). unfold seek in Hpre.
  destruct (l !! slot N (hash k) j') as [e'|] eqn:He'.
  - exists e'. destruct (used e'); simpl in Hpre; [|done].
    unfold hits in Hpre. destruct (_ && _) eqn:?; [done|]. by split_and!.
  - exfalso. apply lookup_ge_None in He'.
    pose proof (slot_lt N (hash k) j'). specialize (hash_lt k). lia.
Qed.

Lemma present_holder l k :
  length l = N -> chain l -> present l k -> exists i e, holder l k i e.
Proof.
  intros Hlen Hc (i & e & Hi & Hl & Hk).
  assert (Hu : used e = true) by (unfold live in Hl; by destruct (used e)).
  assert (HiN : (i < N)%nat) by (rewrite <- Hlen; by eapply lookup_lt_Some).
  destruct (while_true N (seek l k None (fun i e => Some (i, e))) N (hash k))
    as [r|] eqn:Hw.
  2: { rewrite while_true_None in Hw by apply hash_lt.
       specialize (Hw (dist (hash k) i) (dist_lt _ _ (hash_lt k))).
       rewrite slot_dist in Hw by auto. unfold seek in Hw.
       by rewrite Hi, Hu, (proj2 (hits_live k e Hu)) in Hw. }
  pose proof Hw as Hw'.
  apply seek_Some_inv in Hw' as [->|(i' & e' & ? & ->)]; [|eauto|done].
  exfalso. apply while_true_Some in Hw as (j & Hj & Hb & Hpre); [|apply hash_lt].
  unfold seek in Hb. destruct (l !! slot N (hash k) j) as [e'|] eqn:He'; [|done].
  destruct (used e') eqn:Hu'; simpl in Hb; [by destruct (hits k e')|].
  destruct (decide (j < dist (hash k) i)%nat) as [Hlt|Hge].
  - subst k. destruct (Hc i e Hi Hl j Hlt) as (e2 & ? & ?). congruence.
  - destruct (decide (j = dist (hash k) i)) as [->|Hne].
    + rewrite slot_dist in He' by auto. congruence.
    + specialize (Hpre (dist (hash k) i) ltac:(lia)).
      rewrite slot_dist in Hpre by auto. unfold seek in Hpre.
      by rewrite Hi, Hu, (proj2 (hits_live k e Hu)) in Hpre.
Qed.

Lemma holder_unique l k i e i' e' :
  length l = N -> holder l k i e -> holder l k i' e' -> i = i' /\ e = e'.
Proof.
  intros Hlen H H'.
  pose proof (grab_holder l k pair i e Hlen H) as E1.
  rewrite (grab_holder l k pair i' e' Hlen H') in E1. by simplify_eq.
Qed.

(** [search] on a well-formed table: the live entry if there is one. *)
Lemma seek_absent {R} l k (missing : R) act fuel r :
  length l = N -> ~ present l k ->
  while_true N (seek l k missing act) fuel (hash k) = Some r -> r = missing.
Proof.
  intros Hlen Hno H. apply seek_Some_inv in H as [?|(i & e & Hh & _)]; [done| |done].
  by apply holder_present in Hh.
Qed.

(** The unbounded loops never end when no slot passes their test. *)
Lemma grab_diverges {R} l k (act : nat -> E -> R) :
  (forall i e, l !! i = Some e -> hits k e = false) ->
  forall fuel, while_true N (grab l k act) fuel (hash k) = None.
Proof.
  intros Hno fuel. apply while_true_None; [apply hash_lt|]. intros j _.
  unfold grab. destruct (l !! _) as [e|] eqn:He; [|done]. by rewrite (Hno _ _ He).
Qed.

(** The loop of [insert]: the first free slot is taken; [clash] is what the
    loop does at a slot in use ([None]: go on). *)
Definition claim {R} (l : list E) (clash : E -> option R) (act : nat -> E -> R)
    (i : nat) : option R :=
  match l !! i with
  | Some e => if negb (used e) || deleted e then Some (act i e) else clash e
  | None => None
  end.

Lemma not_live e : negb (used e) || deleted e = negb (live e).
Proof. unfold live. by destruct (used e), (deleted e). Qed.

Lemma claim_Some_inv {R} l clash (act : nat -> E -> R) k r :
  length l = N ->
  while_true N (claim l clash act) N (hash k) = Some r ->
  (exists j e, (j < N)%nat /\ l !! slot N (hash k) j = Some e /\ live e = false /\
     r = act (slot N (hash k) j) e /\
     forall j', (j' < j)%nat -> exists e', l !! slot N (hash k) j' = Some e' /\
       live e' = true /\ clash e' = None) \/
  (exists i e, l !! i = Some e /\ live e = true /\ clash e = Some r).
Proof.
  intros Hlen. rewrite while_true_Some by apply hash_lt. intros (j & Hj & Hb & Hpre).
  unfold claim in Hb. destruct (l !! _) as [e|] eqn:He; [|done].
  rewrite not_live in Hb. destruct (live e) eqn:Hl; simpl in Hb; [eauto 6|].
  left. injection Hb as <-. exists j, e. split_and!; [done..|]. intros j' Hj'.
  specialize (Hpre j' Hj'). unfold claim in Hpre.
  destruct (l !! slot N (hash k) j') as [e'|] eqn:He'.
  - rewrite not_live in Hpre. destruct (live e') eqn:Hl'; simpl in Hpre; [eauto|done].
  - apply lookup_ge_None in He'. pose proof (slot_lt N (hash k) j').
    specialize (hash_lt k). lia.
Qed.

(** The insertion loop ends as soon as some slot is free. *)
Lemma claim_ends {R} l clash (act : nat -> E -> R) k i e :
  length l = N -> l !! i = Some e -> live e = false ->
  exists r, while_true N (claim l clash act) N (hash k) = Some r.
Proof.
  intros Hlen Hi Hl.
  destruct (while_true _ _ _ _) as [r|] eqn:Hw; [eauto|].
  exfalso. rewrite while_true_None in Hw by apply hash_lt.
  specialize (Hw (dist (hash k) i) (dist_lt _ _ (hash_lt k))).
  rewrite slot_dist in Hw; [|auto|rewrite <- Hlen; by eapply lookup_lt_Some].
  unfold claim in Hw. by rewrite Hi, not_live, Hl in Hw.
Qed.

Lemma claim_diverges {R} l (act : nat -> E -> R) k :
  (forall i e, l !! i = Some e -> live e = true) ->
  forall fuel, while_true N (claim l (fun _ => None) act) fuel (hash k) = None.
Proof.
  intros Hfull fuel. apply while_true_None; [apply hash_lt|]. intros j _.
  unfold claim. destruct (l !! _) as [e|] eqn:He; [|done].
  by rewrite not_live, (Hfull _ _ He).
Qed.

Lemma live_used e : live e = true -> used e = true.
Proof. unfold live. by destruct (used e). Qed.

Lemma chain_claim l e' j :
  length l = N -> (j < N)%nat -> used e' = true ->
  (forall j', (j' < j)%nat -> exists e : E, l !! slot N (hash (key e')) j' = Some e /\
     live e = true) ->
  chain l -> chain (<[slot N (hash (key e')) j := e']> l).
Proof.
  intros Hlen Hj Hu Hpre. apply chain_insert; [done..|].
  intros j' Hj'. destruct (Hpre j' Hj') as (e & ? & ?). eauto using live_used.
Qed.
End OpenAddressing.
