(* ===== verification/UniqueKey.v ===== *)
(** * Composite keys

    [unique_key] of [include/pawndb/types/unique_key.h] and
    [src/unique_key.cpp]: a table id and a tuple key, one byte each.  The hash
    is the table id alone, so all locks of one table share a home slot. *)
From S2P Require Import Prelude.

Record unique_key := mkKey {
  table_id_ : Z;
  tuple_key_ : Z
}.

#[export] Instance unique_key_eq_dec : EqDecision unique_key.
Proof. solve_decision. Defined.

(** [unique_key()] *)
Definition unique_key_default : unique_key := mkKey 0 0.

(** [unique_key(tp_id_t, tbl_row_t)], whose arguments are bytes, and the copy
    constructor *)
Definition key_make (table_id tuple_key : Z) : unique_key :=
  mkKey (u8 table_id) (u8 tuple_key).
Definition key_copy (other : unique_key) : unique_key :=
  mkKey (table_id_ other) (tuple_key_ other).

(** The members are one-byte integers. *)
Definition key_wf (k : unique_key) : Prop :=
  is_byte (table_id_ k) /\ is_byte (tuple_key_ k).

(** [operator=(const unique_key&)] *)
Definition key_assign (this other : unique_key) : unique_key :=
  mkKey (table_id_ other) (tuple_key_ other).

Definition assemble_ (this : unique_key) (table_id tuple_key : Z) : unique_key :=
  mkKey table_id tuple_key.

Definition disassemble_ (this : unique_key) : Z * Z :=
  (table_id_ this, tuple_key_ this).

Definition hash_ (this : unique_key) : Z := table_id_ this.

Definition equals_ (this other : unique_key) : bool :=
  (table_id_ this =? table_id_ other) && (tuple_key_ this =? tuple_key_ other).

(** Unlike [operator=], this copies the tuple key only. *)
Definition copy_from_ (this other : unique_key) : unique_key :=
  mkKey (table_id_ this) (tuple_key_ other).

(** Moving a key copies it. *)
Definition copy_ (this : unique_key) : unique_key := key_copy this.
Definition move_ (this : unique_key) : unique_key := key_copy this.
Definition move_from_ (this other : unique_key) : unique_key := key_assign this other.

Lemma equals_spec k k' : equals_ k k' = true <-> k = k'.
Proof.
  unfold equals_. rewrite andb_true_iff, !Z.eqb_eq.
  destruct k, k'; simpl. split; [intros [-> ->] | intros [= -> ->]]; done.
Qed.

Lemma equals_refl k : equals_ k k = true.
Proof. by apply equals_spec. Qed.

Lemma assemble_disassemble k t r : disassemble_ (assemble_ k t r) = (t, r).
Proof. reflexivity. Qed.

(** What [copy_from_] does not copy: the result equals the source exactly
    when the two keys already agreed on the table. *)
Lemma copy_from_equals k k' :
  equals_ (copy_from_ k k') k' = (table_id_ k =? table_id_ k').
Proof. unfold equals_. simpl. rewrite Z.eqb_refl. by destruct (_ =? _). Qed.

(** The two ways to copy over a key differ: [move_from_] replaces the whole
    key, [copy_from_] keeps the table of the target. *)
Lemma move_from_equals k k' : equals_ (move_from_ k k') (copy_ k') = true.
Proof. by apply equals_spec. Qed.

Lemma key_make_wf t r : key_wf (key_make t r).
Proof. split; apply Z.mod_pos_bound; lia. Qed.

#[export] Hint Rewrite equals_refl : pawn.
