(* ===== verification/LockList.v ===== *)
(** * The lock list of a transaction

    [lock_entry] ([types/lock.h], [lock.cpp]) and [lock_list]
    ([types/lock_list.h], [lock_list.cpp]): a fixed hash table of 16 slots
    with linear probing and tombstones.  References to entries are slot
    numbers.  [Hang] is a loop of the source that never ends. *)
From S2P Require Import Prelude Params Probe UniqueKey.

(** ** Data *)

Record lock_entry := mkLock {
  key_ : unique_key;
  type_ : LockType;
  is_used_ : bool;
  is_deleted_ : bool
}.

(** [lock_entry()] *)
Definition lock_entry_default : lock_entry :=
  mkLock unique_key_default EXCLUSIVE false false.

(** [lock_entry(const unique_key&, LockType)] *)
Definition lock_entry_make (_key : unique_key) (_type : LockType) : lock_entry :=
  mkLock _key _type true false.

(** [operator=] copies the key and the type, not the flags. *)
Definition lock_entry_assign (this other : lock_entry) : lock_entry :=
  mkLock (key_ other) (type_ other) (is_used_ this) (is_deleted_ this).

(** [lock_entry(const lock_entry&)] and [copy()] do not initialise the flags:
    the two booleans stand for what the memory holds. *)
Definition lock_entry_copy (used deleted : bool) (other : lock_entry) : lock_entry :=
  mkLock (key_ other) (type_ other) used deleted.
Definition copy_from (this other : lock_entry) : lock_entry := lock_entry_assign this other.

Definition lock_type (this : lock_entry) : LockType := type_ this.
Definition key (this : lock_entry) : unique_key := key_ this.

Record lock_list := mkLockList {
  locks_ : list lock_entry;
  size_ : Z;
  next_ : unique_key
}.

Definition N : nat := Z.to_nat MAX_LOCK_PER_TRANSACTION.

(** [lock_list()] *)
Definition lock_list_default : lock_list :=
  mkLockList (replicate N lock_entry_default) 0 unique_key_default.

(** [_key.hash_() % N] *)
Definition home (k : unique_key) : nat := Z.to_nat (hash_ k `mod` Z.of_nat N).

(** ** Operations *)

Definition insert (this : lock_list) (_entry : lock_entry)
    : outcome (lock_list * Result nat LockError) :=
  of_loop (while_true N (fun idx =>
    match locks_ this !! idx with
    | Some e =>
        if negb (is_used_ e) || is_deleted_ e then
          let e1 := lock_entry_assign e _entry in
          let e2 := mkLock (key_ e1) (type_ e1) true false in
          Some (mkLockList (<[idx := e2]> (locks_ this)) (u64 (size_ this + 1))
                  (next_ this), Ok idx)
        else if equals_ (key_ e) (key_ _entry) then
          Some (this, Err LockError_Conflict)
        else None
    | None => None
    end) N (home (key_ _entry))).

Definition search (this : lock_list) (_key : unique_key) : Result nat LockError :=
  match do_while N (fun idx =>
    match locks_ this !! idx with
    | Some e =>
        if negb (is_used_ e) then Some (Err LockError_NotFound)
        else if equals_ (key_ e) _key && negb (is_deleted_ e) then Some (Ok idx)
        else None
    | None => None
    end) N (home _key) (home _key) with
  | Some r => r
  | None => Err LockError_NotFound
  end.

Definition remove (this : lock_list) (_key : unique_key)
    : outcome (lock_list * LockError) :=
  of_loop (while_true N (fun idx =>
    match locks_ this !! idx with
    | Some e =>
        if equals_ (key_ e) _key && negb (is_deleted_ e) then
          let e' := mkLock (key_ e) (type_ e) (is_used_ e) true in
          Some (mkLockList (<[idx := e']> (locks_ this)) (u64 (size_ this - 1))
                  (next_ this), LockError_None)
        else None
    | None => None
    end) N (home _key)).

Definition clear (this : lock_list) : lock_list :=
  mkLockList ((fun e => mkLock (key_ e) (type_ e) false (is_deleted_ e)) <$> locks_ this)
    0 (next_ this).

Definition add_lock (this : lock_list) (_key : unique_key) (_type : LockType)
    : outcome (lock_list * LockError) :=
  if Z.of_nat N <=? size_ this then Ret (this, LockError_Full)
  else
    '(this', insert_r) ← insert this (lock_entry_make _key _type);
    match getError insert_r with
    | LockError_Conflict => Ret (this', LockError_Conflict)
    | _ => Ret (this', LockError_None)
    end.

Definition rm_lock (this : lock_list) (_key : unique_key)
    : outcome (lock_list * LockError) :=
  '(this', _) ← remove this _key; Ret (this', LockError_None).

Definition promote_lock (this : lock_list) (_key : unique_key)
    : outcome (lock_list * LockError) :=
  idx ← unwrap (search this _key);
  Ret (mkLockList
         (alter (fun e => mkLock (key_ e) EXCLUSIVE (is_used_ e) (is_deleted_ e)) idx
            (locks_ this))
         (size_ this) (next_ this), LockError_None).

Definition get_lock (this : lock_list) (_key : unique_key)
    : Result LockType LockError :=
  let search_r := search this _key in
  match getError search_r, value_ search_r ≫= (locks_ this !!.) with
  | LockError_NotFound, _ => Err LockError_NotFound
  | _, Some e => Ok (type_ e)
  | _, None => Err LockError_NotFound
  end.

Definition empty (this : lock_list) : bool := size_ this =? 0.
Definition full (this : lock_list) : bool := Z.of_nat N <=? size_ this.
Definition size (this : lock_list) : Z := size_ this.

(** ** Iteration

    A [LockRecordIterator] over a list is a slot index. *)

Fixpoint advance_to_valid (fuel : nat) (table : lock_list) (idx : nat) : nat :=
  match fuel with
  | O => idx
  | S f =>
      match locks_ table !! idx with
      | Some e => if (idx <? N)%nat && (negb (is_used_ e) || is_deleted_ e)
                  then advance_to_valid f table (idx + 1) else idx
      | None => idx
      end
  end.

Definition begin (this : lock_list) : nat := advance_to_valid N this 0.
Definition end_ (this : lock_list) : nat := N.
Definition next (this : lock_list) (idx : nat) : nat :=
  advance_to_valid N this (idx + 1).
Definition deref (this : lock_list) (idx : nat) : option lock_entry :=
  locks_ this !! idx.

(** The class as a whole: the list it points to and the slot.  Two iterators
    are equal when their slots are, whatever their lists. *)
Record LockRecordIterator := mkIterator {
  list_ : lock_list;
  idx_ : nat
}.

Definition iterator_copy (other : LockRecordIterator) : LockRecordIterator :=
  mkIterator (list_ other) (idx_ other).
Definition iterator_assign (this other : LockRecordIterator) : LockRecordIterator :=
  mkIterator (list_ other) (idx_ other).
Definition iterator_copy_from (this other : LockRecordIterator) : LockRecordIterator :=
  mkIterator (list_ other) (idx_ other).
Definition iterator_equals (this other : LockRecordIterator) : bool :=
  (idx_ this =? idx_ other)%nat.
Definition iterator_next (this : LockRecordIterator) : LockRecordIterator :=
  mkIterator (list_ this) (next (list_ this) (idx_ this)).
Definition iterator_begin (this : lock_list) : LockRecordIterator := mkIterator this (begin this).
Definition iterator_end (this : lock_list) : LockRecordIterator := mkIterator this (end_ this).

(** The entries a loop [for (it = begin(); it != end(); it++)] sees. *)
Fixpoint iterate (fuel : nat) (this : lock_list) (idx : nat) : list lock_entry :=
  match fuel with
  | O => []
  | S f =>
      if (idx =? end_ this)%nat then []
      else match deref this idx with
           | Some e => e :: iterate f this (next this idx)
           | None => []
           end
  end.

Definition entries (this : lock_list) : list lock_entry :=
  iterate (S N) this (begin this).

(** ** The abstract lock list

    What a lock list promises: it is a multiset of (key, mode) pairs. *)

Abbreviation live_lock := (live is_used_ is_deleted_).
Abbreviation lock_chain := (chain is_used_ is_deleted_ key_ home N).
Abbreviation lock_holder := (holder is_used_ is_deleted_ key_ home equals_ N).
Abbreviation lock_present := (present is_used_ is_deleted_ key_).

Definition held (this : lock_list) : list (unique_key * LockType) :=
  omap (fun e => if live_lock e then Some (key_ e, type_ e) else None) (locks_ this).

(** Well-formedness: the array has its size, the counter counts the live
    entries, and probing never misses a live entry. *)
Record lock_list_wf (this : lock_list) : Prop := {
  wf_length : length (locks_ this) = N;
  wf_size : size_ this = cnt live_lock (locks_ this);
  wf_chain : lock_chain (locks_ this)
}.

Lemma home_lt k : (home k < N)%nat.
Proof.
  unfold home, N, MAX_LOCK_PER_TRANSACTION.
  pose proof (Z.mod_pos_bound (hash_ k) (Z.of_nat (Z.to_nat 16))). lia.
Qed.
#[export] Hint Resolve home_lt equals_spec : core.

Lemma lock_list_default_wf : lock_list_wf lock_list_default.
Proof.
  split; [done..|]. apply chain_no_live. intros i e Hi.
  apply lookup_replicate in Hi as [-> _]. done.
Qed.

(** Writing one slot of the array: how the three parts of the invariant and
    the multiset follow from what is written. *)
Section WriteSlot.
Context (this : lock_list) (i : nat) (e e' : lock_entry).
Context (Hwf : lock_list_wf this) (Hi : locks_ this !! i = Some e).

Lemma size_bounds : 0 <= size_ this <= 16.
Proof.
  rewrite (wf_size _ Hwf). pose proof (cnt_nonneg live_lock (locks_ this)).
  pose proof (cnt_le_length live_lock (locks_ this)) as H1.
  rewrite (wf_length _ Hwf) in H1. change (Z.of_nat N) with 16 in H1. lia.
Qed.

Lemma wf_write n k' :
  lock_chain (<[i := e']> (locks_ this)) ->
  n = size_ this - Z.b2z (live_lock e) + Z.b2z (live_lock e') ->
  lock_list_wf (mkLockList (<[i := e']> (locks_ this)) n k').
Proof.
  intros Hc ->. split; simpl; [|by rewrite (cnt_insert _ _ _ e), (wf_size _ Hwf)|done].
  rewrite length_insert. apply Hwf.
Qed.
End WriteSlot.

Lemma held_present this k t :
  (k, t) ∈ held this -> lock_present (locks_ this) k.
Proof.
  intros (i & e & Hi & Hf)%elem_of_omap. exists i, e.
  destruct (live_lock e) eqn:?; naive_solver.
Qed.

Lemma present_held this k :
  lock_present (locks_ this) k <-> exists t, (k, t) ∈ held this.
Proof.
  split; [|intros [t ?]; by eapply held_present].
  intros (i & e & Hi & Hl & <-). exists (type_ e). apply elem_of_omap.
  exists i, e. by rewrite Hl.
Qed.

(** ** Lookup *)

Lemma search_loop this k :
  search this k =
    match while_true N (seek is_used_ is_deleted_ key_ equals_ (locks_ this) k
            (Err LockError_NotFound) (fun i _ => Ok i)) N (home k) with
    | Some r => r | None => Err LockError_NotFound
    end.
Proof. unfold search. rewrite do_while_while_true; [done|auto|done]. Qed.

Lemma search_holder this k i e :
  lock_list_wf this -> lock_holder (locks_ this) k i e -> search this k = Ok i.
Proof.
  intros Hwf Hh. rewrite search_loop.
  by erewrite seek_holder by (eauto; apply Hwf).
Qed.

Lemma search_absent this k :
  lock_list_wf this -> ~ lock_present (locks_ this) k ->
  search this k = Err LockError_NotFound.
Proof.
  intros Hwf Hno. rewrite search_loop.
  destruct (while_true _ _ _ _) eqn:Hw; [|done].
  eapply seek_absent in Hw; eauto. apply Hwf.
Qed.

Lemma lock_present_dec this k :
  lock_list_wf this ->
  (exists i e, lock_holder (locks_ this) k i e) \/ ~ lock_present (locks_ this) k.
Proof.
  intros Hwf. rewrite present_held.
  destruct (decide (k ∈ (held this).*1)) as [Hin|Hout].
  - left. apply list_elem_of_fmap in Hin as ([k' t] & -> & Hin).
    apply held_present in Hin. apply present_holder; auto; apply Hwf.
  - right. intros [t Hin]. apply Hout. apply list_elem_of_fmap. by exists (k, t).
Qed.

Lemma get_lock_holder this k i e :
  lock_list_wf this -> lock_holder (locks_ this) k i e ->
  get_lock this k = Ok (type_ e) /\ (k, type_ e) ∈ held this.
Proof.
  intros Hwf Hh. unfold get_lock. rewrite (search_holder _ _ i e) by done.
  destruct Hh as (Hi & Hl & <- & _). simpl. rewrite Hi. split; [done|].
  apply elem_of_omap. exists i, e. by rewrite Hl.
Qed.

Lemma get_lock_absent this k :
  lock_list_wf this -> ~ lock_present (locks_ this) k ->
  get_lock this k = Err LockError_NotFound.
Proof. intros. unfold get_lock. by rewrite search_absent. Qed.

(** The slots never used are the ones they were. *)
Definition keeps_unused (this this' : lock_list) : Prop :=
  forall i e, locks_ this' !! i = Some e -> is_used_ e = false -> locks_ this !! i = Some e.

Lemma keeps_unused_write this i e' n k :
  is_used_ e' = true -> keeps_unused this (mkLockList (<[i := e']> (locks_ this)) n k).
Proof.
  intros Hu j e Hj He. simpl in Hj.
  apply list_lookup_insert_Some in Hj as [(_ & -> & _)|[_ Hj]]; [congruence|done].
Qed.

(** ** Acquisition *)

Lemma insert_loop this e :
  insert this e = of_loop (while_true N (claim is_used_ is_deleted_ (locks_ this)
    (fun e' => if equals_ (key_ e') (key_ e) then Some (this, Err LockError_Conflict) else None)
    (fun idx e0 => (mkLockList
       (<[idx := mkLock (key_ e) (type_ e) true false]> (locks_ this))
       (u64 (size_ this + 1)) (next_ this), Ok idx))) N (home (key_ e))).
Proof. reflexivity. Qed.

Lemma add_lock_cases this k t :
  lock_list_wf this -> size_ this < 16 ->
  (exists this', add_lock this k t = Ret (this', LockError_None) /\
     lock_list_wf this' /\ held this' ≡ₚ (k, t) :: held this /\
     size_ this' = size_ this + 1 /\ keeps_unused this this') \/
  (add_lock this k t = Ret (this, LockError_Conflict) /\ lock_present (locks_ this) k).
Proof.
  intros Hwf Hsz. pose proof (size_bounds _ Hwf) as Hb. unfold add_lock.
  destruct (Z.leb_spec (Z.of_nat N) (size_ this)) as [Hge|_].
  { change (Z.of_nat N) with 16 in Hge. lia. }
  destruct (cnt_lt_exists live_lock (locks_ this)) as (i0 & e0 & Hi0 & Hl0).
  { rewrite (wf_length _ Hwf), <- (wf_size _ Hwf). change (Z.of_nat N) with 16. lia. }
  rewrite insert_loop. simpl key_.
  match goal with |- context [claim _ _ _ ?c ?a] =>
    destruct (claim_ends is_used_ is_deleted_ home N home_lt (locks_ this) c a k i0 e0)
      as [r Hr]; [apply Hwf|done|done|] end.
  rewrite Hr. simpl.
  apply claim_Some_inv in Hr; [|auto|apply Hwf].
  destruct Hr as [(j & e & Hj & He & Hl & -> & Hpre)|(i & e & He & Hl & Hc)].
  - left. simpl. eexists. split; [done|].
    set (e' := mkLock k t true false).
    assert (Hsz' : u64 (size_ this + 1) = size_ this + 1) by word.
    split_and!; [| |done|by apply keeps_unused_write].
    + eapply wf_write; [done|done| |].
      * apply (chain_claim is_used_ is_deleted_ key_ home N home_lt (locks_ this) e' j);
          [apply Hwf|done|done| |apply Hwf].
        intros j' Hj'. destruct (Hpre j' Hj') as (e2 & ? & ? & _). eauto.
      * rewrite Hl. cbn [live_lock e' Z.b2z]. rewrite Hsz'. simpl. lia.
    + unfold held. simpl. apply (omap_insert_add _ _ _ e e'); [done| |done].
      by rewrite Hl.
  - right. destruct (equals_ (key_ e) k) eqn:Heq; [|done].
    apply equals_spec in Heq as <-. simplify_eq. simpl. split; [done|]. by exists i, e.
Qed.

Lemma add_lock_full this k t :
  16 <= size_ this -> add_lock this k t = Ret (this, LockError_Full).
Proof.
  intros H. unfold add_lock. destruct (Z.leb_spec (Z.of_nat N) (size_ this)); [done|].
  change (Z.of_nat N) with 16 in *. lia.
Qed.

(** ** Release and promotion *)

Lemma remove_loop this k :
  remove this k = of_loop (while_true N (grab is_deleted_ key_ equals_ (locks_ this) k
    (fun idx e => (mkLockList
       (<[idx := mkLock (key_ e) (type_ e) (is_used_ e) true]> (locks_ this))
       (u64 (size_ this - 1)) (next_ this), LockError_None))) N (home k)).
Proof. reflexivity. Qed.

Lemma rm_lock_holder this k i e :
  lock_list_wf this -> lock_holder (locks_ this) k i e ->
  exists this', rm_lock this k = Ret (this', LockError_None) /\ lock_list_wf this' /\
    held this ≡ₚ (k, type_ e) :: held this' /\ size_ this' = size_ this - 1 /\
    keeps_unused this this'.
Proof.
  intros Hwf Hh. pose proof (size_bounds _ Hwf) as Hb. unfold rm_lock.
  rewrite remove_loop.
  erewrite grab_holder by (eauto; apply Hwf). simpl.
  eexists. split; [done|].
  destruct Hh as (Hi & Hl & <- & _).
  assert (Hpos : 0 < size_ this).
  { rewrite (wf_size _ Hwf). by apply (cnt_pos _ _ i e). }
  assert (Hsz' : u64 (size_ this - 1) = size_ this - 1) by word.
  set (e' := mkLock (key_ e) (type_ e) (is_used_ e) true).
  assert (Hl' : live_lock e' = false) by (unfold live; simpl; by rewrite andb_false_r).
  split_and!; [| |done|by apply keeps_unused_write, (live_used _ _ e Hl)].
  - eapply wf_write; [done|done| |].
    + apply (chain_update _ _ _ _ _ _ _ e e'); [done| | |apply Hwf].
      * done.
      * by rewrite Hl'.
    + rewrite Hl, Hl', Hsz'. simpl. lia.
  - unfold held. simpl. apply (omap_insert_remove _ _ _ e e'); [done| |].
    + by rewrite Hl.
    + by rewrite Hl'.
Qed.

Lemma promote_lock_holder this k i e :
  lock_list_wf this -> lock_holder (locks_ this) k i e ->
  exists this' rest, promote_lock this k = Ret (this', LockError_None) /\
    lock_list_wf this' /\ held this ≡ₚ (k, type_ e) :: rest /\
    held this' ≡ₚ (k, EXCLUSIVE) :: rest /\ size_ this' = size_ this /\
    keeps_unused this this'.
Proof.
  intros Hwf Hh. unfold promote_lock. rewrite (search_holder _ _ i e) by done. simpl.
  destruct Hh as (Hi & Hl & <- & _).
  set (e' := mkLock (key_ e) EXCLUSIVE (is_used_ e) (is_deleted_ e)).
  assert (Halt : alter (fun e => mkLock (key_ e) EXCLUSIVE (is_used_ e) (is_deleted_ e)) i
            (locks_ this) = <[i := e']> (locks_ this)).
  { rewrite list_insert_alter. by apply list_alter_ext; intros; simplify_eq. }
  rewrite Halt. assert (Hl' : live_lock e' = true) by done.
  destruct (omap_insert_replace (fun e => if live_lock e then Some (key_ e, type_ e) else None)
    (locks_ this) i e e' (key_ e, type_ e) (key_ e, EXCLUSIVE)) as (rest & H1 & H2);
    [done|by rewrite Hl|by rewrite Hl'|].
  eexists _, rest. split; [done|].
  split_and!; [|done|done|done|by apply keeps_unused_write, (live_used _ _ e Hl)].
  eapply wf_write; [done|done| |].
  - apply (chain_update _ _ _ _ _ _ _ e e'); [done| | |apply Hwf].
    + done.
    + done.
  - rewrite Hl, Hl'. lia.
Qed.

(** ** Clearing *)

Lemma clear_no_live this i e :
  locks_ (clear this) !! i = Some e -> live_lock e = false.
Proof.
  simpl. rewrite list_lookup_fmap. intros H.
  destruct (locks_ this !! i); [|done]. simpl in H. by simplify_eq.
Qed.

Lemma clear_wf this :
  length (locks_ this) = N -> lock_list_wf (clear this) /\ held (clear this) = [].
Proof.
  intros Hlen. split; [split; simpl|].
  - by rewrite length_fmap.
  - symmetry. apply cnt_zero. apply clear_no_live.
  - apply chain_no_live. apply clear_no_live.
  - apply omap_none. intros e (i & Hi)%list_elem_of_lookup.
    by rewrite (clear_no_live _ _ _ Hi).
Qed.

(** ** Iteration sees each live entry once, in slot order *)

Lemma advance_spec this fuel idx :
  length (locks_ this) = N -> (idx <= N)%nat -> (N <= idx + fuel)%nat ->
  let idx' := advance_to_valid fuel this idx in
  (idx <= idx' <= N)%nat /\
  List.filter live_lock (drop idx (locks_ this)) =
    List.filter live_lock (drop idx' (locks_ this)) /\
  ((idx' < N)%nat -> exists e, locks_ this !! idx' = Some e /\ live_lock e = true).
Proof.
  intros Hlen. revert idx; induction fuel as [|f IH]; intros idx Hle Hf; simpl.
  { split_and!; [lia..|done|lia]. }
  destruct (locks_ this !! idx) as [e|] eqn:He.
  2: { apply lookup_ge_None in He. split_and!; [lia..|done|lia]. }
  pose proof (lookup_lt_Some _ _ _ He) as Hlt. rewrite not_live.
  destruct (Nat.ltb_spec idx N) as [HltN|]; [|lia]. simpl.
  destruct (live_lock e) eqn:Hl; simpl; [split_and!; [lia..|done|eauto]|].
  destruct (IH (idx + 1)%nat) as (? & Hfil & Hlv); [lia..|].
  split_and!; [lia..| |done]. rewrite <- Hfil, (drop_S _ e idx) by done. simpl.
  rewrite Hl. by replace (idx + 1)%nat with (S idx) by lia.
Qed.

Lemma iterate_spec this fuel idx :
  length (locks_ this) = N -> (idx <= N)%nat -> (N < idx + fuel)%nat ->
  ((idx < N)%nat -> exists e, locks_ this !! idx = Some e /\ live_lock e = true) ->
  iterate fuel this idx = List.filter live_lock (drop idx (locks_ this)).
Proof.
  intros Hlen. revert idx; induction fuel as [|f IH]; intros idx Hle Hf Hlv; [lia|].
  simpl. unfold end_, deref. destruct (Nat.eqb_spec idx N) as [->|Hne].
  { by rewrite drop_ge by lia. }
  destruct (Hlv ltac:(lia)) as (e & He & Hl). rewrite He.
  rewrite (drop_S _ e idx) by done. simpl. rewrite Hl. f_equal. unfold next.
  destruct (advance_spec this N (idx + 1)) as (? & Hfil & Hlv'); [done|lia..|].
  rewrite IH; [|lia..|done]. rewrite <- Hfil. f_equal. f_equal. lia.
Qed.

Lemma entries_held this :
  lock_list_wf this ->
  (fun e => (key_ e, type_ e)) <$> entries this = held this.
Proof.
  intros Hwf. pose proof (wf_length _ Hwf) as Hlen. unfold entries, begin.
  destruct (advance_spec this N 0) as (? & Hfil & Hlv); [done|lia..|].
  rewrite iterate_spec; [|done|lia|lia|done]. by rewrite <- Hfil, drop_0, <- omap_if.
Qed.

(** ** Conflict detection

    [insert] stops at the first free slot, so it only sees a lock already held
    when no tombstone precedes it. *)

Definition no_tombstones (this : lock_list) : Prop :=
  forall i e, locks_ this !! i = Some e -> is_used_ e = true -> is_deleted_ e = false.

Lemma add_lock_conflict this k t :
  lock_list_wf this -> no_tombstones this -> size_ this < 16 ->
  lock_present (locks_ this) k -> add_lock this k t = Ret (this, LockError_Conflict).
Proof.
  intros Hwf Hnt Hsz Hp.
  assert (HN : (Z.of_nat N <=? size_ this) = false).
  { apply Z.leb_gt. change (Z.of_nat N) with 16. lia. }
  unfold add_lock. rewrite HN, insert_loop. simpl key_.
  destruct (cnt_lt_exists live_lock (locks_ this)) as (i0 & e0 & Hi0 & Hl0).
  { rewrite (wf_length _ Hwf), <- (wf_size _ Hwf). change (Z.of_nat N) with 16. lia. }
  match goal with |- context [claim _ _ _ ?c ?a] =>
    destruct (claim_ends is_used_ is_deleted_ home N home_lt (locks_ this) c a k i0 e0)
      as [r Hr]; [apply Hwf|done|done|] end.
  rewrite Hr. apply claim_Some_inv in Hr; [|auto|apply Hwf].
  destruct Hr as [(j & e & Hj & He & Hl & -> & Hpre)|(i & e & He & Hl & Hc)].
  2: { destruct (equals_ (key_ e) k); [|done]. by simplify_eq. }
  exfalso. destruct Hp as (i & e1 & Hi & Hl1 & Hk).
  assert (HiN : (i < N)%nat).
  { rewrite <- (wf_length _ Hwf). by eapply lookup_lt_Some. }
  destruct (decide (j < dist N (home k) i)%nat) as [Hlt|Hge].
  - subst k. destruct (wf_chain _ Hwf i e1 Hi Hl1 j Hlt) as (e2 & He2 & Hu).
    simplify_eq. unfold live in Hl. rewrite Hu, (Hnt _ _ He Hu) in Hl. done.
  - pose proof (slot_dist N (home k) i (home_lt k) HiN) as Hs.
    destruct (decide (j = dist N (home k) i)) as [->|Hne].
    + rewrite Hs in He. congruence.
    + destruct (Hpre (dist N (home k) i) ltac:(lia)) as (e2 & He2 & _ & Hc).
      rewrite Hs in He2. simplify_eq. by rewrite equals_refl in Hc.
Qed.

Lemma add_lock_wf this k t this' r :
  lock_list_wf this -> add_lock this k t = Ret (this', r) -> lock_list_wf this'.
Proof.
  intros Hwf Ha. pose proof (size_bounds _ Hwf).
  destruct (decide (size_ this = 16)).
  { rewrite add_lock_full in Ha by lia. by simplify_eq. }
  destruct (add_lock_cases this k t Hwf) as [(l & E & ? & _)|[E _]]; [lia|..];
    rewrite E in Ha; by simplify_eq.
Qed.

Lemma rm_lock_wf this k t this' r :
  lock_list_wf this -> get_lock this k = Ok t -> rm_lock this k = Ret (this', r) ->
  lock_list_wf this'.
Proof.
  intros Hwf Hg Hr. destruct (lock_present_dec this k Hwf) as [(i & e & Hh)|Hno].
  - destruct (rm_lock_holder this k i e Hwf Hh) as (l & E & ? & _).
    rewrite E in Hr. by simplify_eq.
  - by rewrite get_lock_absent in Hg.
Qed.

(** A list with two locks, for the witnesses. *)
Definition after (o : outcome (lock_list * LockError)) : lock_list :=
  match o with Ret (l, _) => l | _ => lock_list_default end.
Definition sample1 : lock_list := after (add_lock lock_list_default (mkKey 1 3) SHARED).
Definition sample : lock_list := after (add_lock sample1 (mkKey 1 5) EXCLUSIVE).

(** The same list after the first lock was released. *)
Definition sample_rm : lock_list := after (rm_lock sample (mkKey 1 3)).

Lemma sample_wf : lock_list_wf sample.
Proof.
  apply (add_lock_wf sample1 (mkKey 1 5) EXCLUSIVE sample LockError_None);
    [|vm_compute; reflexivity].
  apply (add_lock_wf lock_list_default (mkKey 1 3) SHARED sample1 LockError_None);
    [apply lock_list_default_wf|vm_compute; reflexivity].
Qed.

Lemma sample_rm_wf : lock_list_wf sample_rm.
Proof.
  apply (rm_lock_wf sample (mkKey 1 3) SHARED sample_rm LockError_None);
    [apply sample_wf|vm_compute; reflexivity..].
Qed.

(** ** Properties *)

(** [get_lock] decides membership: it returns the mode of a held lock
    on the key, and [NotFound] exactly when no lock on the key is held. *)
Theorem get_lock_spec this k :
  lock_list_wf this ->
  (exists t, get_lock this k = Ok t /\ (k, t) ∈ held this) \/
  (get_lock this k = Err LockError_NotFound /\ forall t, (k, t) ∉ held this).
Proof.
  intros Hwf. destruct (lock_present_dec this k Hwf) as [(i & e & Hh)|Hno].
  - left. eauto using get_lock_holder.
  - right. split; [by apply get_lock_absent|]. intros t Hin. by apply held_present in Hin.
Qed.

(** On a well-formed list [add_lock] always returns; it refuses with
    [Full] exactly at 16 locks, reports [Conflict] only for a key already
    held and then changes nothing, and otherwise adds exactly one lock. *)
Theorem add_lock_spec this k t :
  lock_list_wf this ->
  (size_ this = 16 /\ add_lock this k t = Ret (this, LockError_Full)) \/
  (size_ this < 16 /\ add_lock this k t = Ret (this, LockError_Conflict) /\
     exists t', (k, t') ∈ held this) \/
  (size_ this < 16 /\ exists this', add_lock this k t = Ret (this', LockError_None) /\
     lock_list_wf this' /\ held this' ≡ₚ (k, t) :: held this).
Proof.
  intros Hwf. pose proof (size_bounds _ Hwf).
  destruct (decide (size_ this = 16)) as [Heq|Hne]; [left|right].
  { split; [done|]. apply add_lock_full. lia. }
  destruct (add_lock_cases this k t Hwf ltac:(lia)) as [(this' & ? & ? & ? & _)|[? Hp]].
  - right. split; [lia|]. eauto.
  - left. split_and!; [lia|done|]. by apply present_held.
Qed.

(** Releasing or promoting a lock that is held always returns [None],
    keeps the list well-formed, and removes one lock on the key, or replaces
    its mode by [EXCLUSIVE], leaving every other lock as it was. *)
Theorem rm_promote_spec this k t :
  lock_list_wf this -> get_lock this k = Ok t ->
  exists rest, held this ≡ₚ (k, t) :: rest /\
    (exists this', rm_lock this k = Ret (this', LockError_None) /\
       lock_list_wf this' /\ held this' ≡ₚ rest) /\
    (exists this', promote_lock this k = Ret (this', LockError_None) /\
       lock_list_wf this' /\ held this' ≡ₚ (k, EXCLUSIVE) :: rest).
Proof.
  intros Hwf Hg. destruct (lock_present_dec this k Hwf) as [(i & e & Hh)|Hno].
  2: { by rewrite get_lock_absent in Hg. }
  destruct (get_lock_holder this k i e Hwf Hh) as [Hg' _]. rewrite Hg' in Hg. simplify_eq.
  destruct (rm_lock_holder this k i e Hwf Hh) as (l1 & ? & ? & H1 & _ & _).
  destruct (promote_lock_holder this k i e Hwf Hh) as (l2 & rest & ? & ? & H2 & H3 & _ & _).
  exists (held l1). split_and!; [done|eauto|].
  exists l2. split_and!; [done..|]. rewrite H3. f_equiv.
  apply (Permutation_cons_inv (a := (k, type_ e))). by rewrite <- H1, <- H2.
Qed.

(** As long as no lock has been released since the list was last
    emptied, asking for a lock on a held key is refused with [Conflict];
    after a release the same request can succeed and put the key in the list
    twice. *)
Theorem conflict_detection :
  (forall this k t t', lock_list_wf this -> no_tombstones this -> size_ this < 16 ->
     (k, t') ∈ held this -> add_lock this k t = Ret (this, LockError_Conflict)) /\
  (exists this this' k, lock_list_wf this /\ (k, EXCLUSIVE) ∈ held this /\
     add_lock this k SHARED = Ret (this', LockError_None)).
Proof.
  split.
  - intros. eapply add_lock_conflict; eauto using held_present.
  - exists sample_rm. eexists _, (mkKey 1 5). split; [apply sample_rm_wf|].
    split; [|vm_compute; reflexivity].
    assert (held sample_rm = [(mkKey 1 5, EXCLUSIVE)]) as -> by (vm_compute; reflexivity).
    set_solver.
Qed.

(** [rm_lock] must only be called for a held key: when no slot
    carries the key it never returns, whatever number of iterations it is
    given, and on a fresh list a key equal to the default key is "found" in
    an unused slot and the counter wraps to 2^64 - 1. *)
Theorem rm_lock_absent :
  (forall this k,
     (forall i e, locks_ this !! i = Some e -> equals_ (key_ e) k && negb (is_deleted_ e) = false) ->
     rm_lock this k = Hang /\
     forall fuel, while_true N (grab is_deleted_ key_ equals_ (locks_ this) k (fun _ _ => tt))
                    fuel (home k) = None) /\
  (exists this', rm_lock lock_list_default unique_key_default = Ret (this', LockError_None) /\
     size_ this' = 2 ^ 64 - 1).
Proof.
  split.
  - intros this k Hno. split.
    + unfold rm_lock. rewrite remove_loop.
      by rewrite (grab_diverges _ _ _ _ N home_lt) by done.
    + by apply (grab_diverges _ _ _ _ N home_lt).
  - eexists. split; vm_compute; reflexivity.
Qed.

(** The iterator from [begin()] to [end()] visits exactly the held
    locks, each once, and a cleared list holds none and is well-formed. *)
Theorem iteration_spec this :
  lock_list_wf this ->
  (fun e => (key_ e, type_ e)) <$> entries this = held this /\
  lock_list_wf (clear this) /\ held (clear this) = [] /\ entries (clear this) = [].
Proof.
  intros Hwf. destruct (clear_wf this (wf_length _ Hwf)) as [Hc Hh].
  split_and!; [by apply entries_held|done|done|].
  apply entries_held in Hc. rewrite Hh in Hc. by apply fmap_nil_inv in Hc.
Qed.

(** ** Witnesses *)

Lemma get_lock_spec_witness :
  lock_list_wf sample /\
  ((exists t, get_lock sample (mkKey 1 5) = Ok t /\ (mkKey 1 5, t) ∈ held sample) \/
   (get_lock sample (mkKey 1 5) = Err LockError_NotFound /\
    forall t, (mkKey 1 5, t) ∉ held sample)).
Proof. split; [apply sample_wf|]. apply (get_lock_spec sample). apply sample_wf. Defined.

Lemma add_lock_spec_witness :
  exists this', add_lock sample (mkKey 1 4) SHARED = Ret (this', LockError_None) /\
    held this' ≡ₚ (mkKey 1 4, SHARED) :: held sample.
Proof.
  destruct (add_lock_spec sample (mkKey 1 4) SHARED sample_wf)
    as [[H _]|[(_ & H & _)|(_ & l & H & _ & Hh)]];
    [vm_compute in H; discriminate H|vm_compute in H; discriminate H|].
  exists l. split; [exact H|exact Hh].
Defined.

Lemma rm_promote_spec_witness :
  get_lock sample (mkKey 1 3) = Ok SHARED /\
  exists rest, held sample ≡ₚ (mkKey 1 3, SHARED) :: rest /\
    (exists this', rm_lock sample (mkKey 1 3) = Ret (this', LockError_None) /\
       lock_list_wf this' /\ held this' ≡ₚ rest) /\
    (exists this', promote_lock sample (mkKey 1 3) = Ret (this', LockError_None) /\
       lock_list_wf this' /\ held this' ≡ₚ (mkKey 1 3, EXCLUSIVE) :: rest).
Proof.
  split; [vm_compute; reflexivity|].
  apply (rm_promote_spec sample); [apply sample_wf|vm_compute; reflexivity].
Defined.

Lemma iteration_spec_witness :
  (fun e => (key_ e, type_ e)) <$> entries sample = held sample /\
  entries (clear sample) = [].
Proof.
  destruct (iteration_spec sample sample_wf) as (H1 & _ & _ & H2).
  split; [exact H1|exact H2].
Defined.
