(* ===== verification/BufTable.v ===== *)
(** * The buffer pool and its counted references

    [buf_table] ([types/buf_table.h], [buf_table.cpp]) and [buf_ref]
    ([types/buf_ref.h], [buf_ref.cpp]).  The mutex makes each table function
    atomic.  There is one pool, so a [buf_ref] is [None] for the null
    reference ([table_ == nullptr], [index_ == 0]) and [Some index_]
    otherwise. *)
From S2P Require Import Prelude Params Probe.

Record buf_table_entry := mkBuf {
  buffer_ : list Z;
  ref_count_ : Z
}.

Record buf_table := mkBufTable {
  buffers_ : list buf_table_entry;
  size_ : Z;
  next_ : nat
}.

Abbreviation buf_ref := (option nat).

Definition ROWS : nat := Z.to_nat BUFFER_ROWS.

(** [buf_table_entry()] and [buf_table()] *)
Definition buf_table_entry_default : buf_table_entry :=
  mkBuf (replicate (Z.to_nat BUFFER_WIDTH) 0) 0.
Definition buf_table_default : buf_table :=
  mkBufTable (replicate ROWS buf_table_entry_default) 0 0.

#[global] Arguments buf_table_entry_default : simpl never.
#[global] Arguments buf_table_default : simpl never.

(** ** Pool operations *)

Definition set_count (this : buf_table) (index : nat) (n : Z) : list buf_table_entry :=
  alter (fun e => mkBuf (buffer_ e) n) index (buffers_ this).

Definition request (this : buf_table) : outcome (buf_table * Result buf_ref BufferError) :=
  if BUFFER_ROWS <=? size_ this then Ret (this, Err BufferError_Full)
  else
    index ← of_loop (while_true ROWS (fun next =>
      match buffers_ this !! next with
      | Some e => if 0 <? ref_count_ e then None else Some next
      | None => None
      end) ROWS (next_ this));
    Ret (mkBufTable (set_count this index 1) (u64 (size_ this + 1))
           ((index + 1) mod ROWS), Ok (Some index)).

Definition empty (this : buf_table) : bool := size_ this =? 0.
Definition full (this : buf_table) : bool := BUFFER_ROWS <=? size_ this.
Definition size (this : buf_table) : Z := size_ this.

Definition retain_ref (this : buf_table) (index : nat) : buf_table :=
  match buffers_ this !! index with
  | Some entry =>
      mkBufTable (set_count this index (u16 (ref_count_ entry + 1)))
        (if ref_count_ entry =? 0 then u64 (size_ this + 1) else size_ this)
        (next_ this)
  | None => this
  end.

Definition release_ref (this : buf_table) (index : nat) : buf_table :=
  match buffers_ this !! index with
  | Some entry =>
      if ref_count_ entry =? 0 then this
      else
        let n := u16 (ref_count_ entry - 1) in
        mkBufTable (set_count this index n)
          (if (n =? 0) && (0 <? size_ this) then u64 (size_ this - 1) else size_ this)
          (next_ this)
  | None => this
  end.

(** ** Reference operations: each returns the table and the references *)

(** [buf_ref()] and [buf_ref(buf_table*, std::size_t)]: the reference that
    [request] has already counted. *)
Definition ref_null : buf_ref := None.
Definition ref_make (index : nat) : buf_ref := Some index.

(** [buf_ref(const buf_ref&)] *)
Definition ref_copy (T : buf_table) (other : buf_ref) : buf_table * buf_ref :=
  match other with
  | Some i => (retain_ref T i, Some i)
  | None => (T, None)
  end.

(** [buf_ref(buf_ref&&)]: (this, other) *)
Definition ref_move (other : buf_ref) : buf_ref * buf_ref := (other, None).

(** [operator=(const buf_ref&)] on two different objects: retain first. *)
Definition ref_assign (T : buf_table) (this other : buf_ref) : buf_table * buf_ref :=
  let T1 := match other with Some i => retain_ref T i | None => T end in
  let T2 := match this with Some i => release_ref T1 i | None => T1 end in
  (T2, other).

(** [operator=(buf_ref&&)]: (table, this, other) *)
Definition ref_move_assign (T : buf_table) (this other : buf_ref)
    : buf_table * buf_ref * buf_ref :=
  let T1 := match this with Some i => release_ref T i | None => T end in
  (T1, other, None).

(** [~buf_ref()] through [release_ref_()] *)
Definition ref_destroy (T : buf_table) (this : buf_ref) : buf_table * buf_ref :=
  match this with
  | Some i => (release_ref T i, None)
  | None => (T, None)
  end.

(** [buffer()]; a null reference must not be dereferenced. *)
Definition buffer (T : buf_table) (r : buf_ref) : list Z :=
  match r with
  | Some i => match buffers_ T !! i with Some e => buffer_ e | None => [] end
  | None => []
  end.

(** A write through [buffer()]. *)
Definition store (T : buf_table) (r : buf_ref) (bytes : list Z) : buf_table :=
  match r with
  | Some i => mkBufTable (alter (fun e => mkBuf bytes (ref_count_ e)) i (buffers_ T))
                (size_ T) (next_ T)
  | None => T
  end.

(** ** The bytes of the pool

    Copying and dropping references changes counts, not contents. *)

Definition same_bytes (T T' : buf_table) : Prop := forall r, buffer T' r = buffer T r.

#[export] Instance same_bytes_preorder : PreOrder same_bytes.
Proof. split; [by intros T r|]. intros T1 T2 T3 H1 H2 r. by rewrite H2. Qed.

Lemma set_count_bytes T i n sz nx : same_bytes T (mkBufTable (set_count T i n) sz nx).
Proof.
  intros [j|]; [|done]. unfold set_count. simpl. destruct (decide (i = j)) as [->|].
  - rewrite list_lookup_alter_eq. by destruct (buffers_ T !! j).
  - by rewrite list_lookup_alter_ne.
Qed.

Lemma ref_copy_bytes T r : same_bytes T (ref_copy T r).1.
Proof.
  destruct r as [i|]; [|reflexivity]. simpl. unfold retain_ref.
  destruct (buffers_ T !! i); [apply set_count_bytes|reflexivity].
Qed.

Lemma ref_destroy_bytes T r : same_bytes T (ref_destroy T r).1.
Proof.
  destruct r as [i|]; [|reflexivity]. simpl. unfold release_ref.
  destruct (buffers_ T !! i); [|reflexivity]. destruct (_ =? _); [reflexivity|].
  apply set_count_bytes.
Qed.

Lemma ref_assign_bytes T a b : same_bytes T (ref_assign T a b).1.
Proof.
  unfold ref_assign. cbn [fst]. set (T1 := match b with Some i => _ | None => _ end).
  assert (same_bytes T T1) as ->
    by (unfold T1; destruct b; [apply (ref_copy_bytes T (Some _))|reflexivity]).
  destruct a as [i|]; [apply (ref_destroy_bytes T1 (Some i))|reflexivity].
Qed.

(** ** The invariant: counts are exact

    [refs] lists every [buf_ref] object of the program. *)

Definition points_to (i : nat) (r : buf_ref) : bool := bool_decide (r = Some i).
Definition in_use (e : buf_table_entry) : bool := 0 <? ref_count_ e.

Record pool_wf (T : buf_table) (refs : list buf_ref) : Prop := {
  pool_length : length (buffers_ T) = ROWS;
  pool_count : forall i e, buffers_ T !! i = Some e ->
    ref_count_ e = cnt (points_to i) refs;
  pool_size : size_ T = cnt in_use (buffers_ T);
  pool_next : (next_ T < ROWS)%nat;
  pool_refs : Forall (fun r => forall i, r = Some i -> (i < ROWS)%nat) refs;
  pool_few : Z.of_nat (length refs) < 65536
}.

#[export] Instance pool_wf_perm : Proper ((=) ==> (≡ₚ) ==> iff) pool_wf.
Proof.
  assert (forall T r1 r2, r1 ≡ₚ r2 -> pool_wf T r1 -> pool_wf T r2) as Himp.
  { intros T r1 r2 Hp []. split; try done.
    - intros. rewrite <- Hp. by apply pool_count0.
    - by rewrite <- Hp.
    - by rewrite <- Hp. }
  intros T ? <- r1 r2 Hp. split; apply Himp; [done|by symmetry].
Qed.

Lemma pool_wf_default : pool_wf buf_table_default [].
Proof.
  assert (Hl : forall i e, buffers_ buf_table_default !! i = Some e -> ref_count_ e = 0).
  { intros i e [-> _]%lookup_replicate. done. }
  split.
  - apply length_replicate.
  - apply Hl.
  - symmetry. apply cnt_zero. intros i e He. unfold in_use. by rewrite (Hl i e).
  - simpl. unfold ROWS, BUFFER_ROWS. lia.
  - done.
  - simpl. lia.
Qed.

Lemma refs_bounds T refs i :
  pool_wf T refs -> 0 <= cnt (points_to i) refs < 65536.
Proof.
  intros H. pose proof (cnt_nonneg (points_to i) refs).
  pose proof (cnt_le_length (points_to i) refs). pose proof (pool_few _ _ H). lia.
Qed.

Lemma pool_size_bounds T refs : pool_wf T refs -> 0 <= size_ T <= 64.
Proof.
  intros H. rewrite (pool_size _ _ H). pose proof (cnt_nonneg in_use (buffers_ T)).
  pose proof (cnt_le_length in_use (buffers_ T)) as Hl.
  rewrite (pool_length _ _ H) in Hl. unfold ROWS, BUFFER_ROWS in Hl. lia.
Qed.

Lemma set_count_insert T i e n :
  buffers_ T !! i = Some e -> set_count T i n = <[i := mkBuf (buffer_ e) n]> (buffers_ T).
Proof. intros Hi. unfold set_count. by rewrite (insert_alter _ _ i e). Qed.

Lemma points_to_Some i j : points_to i (Some j) = bool_decide (i = j).
Proof. unfold points_to. apply bool_decide_ext. split; congruence. Qed.

(** The one lemma behind every operation: writing the count of slot [i] so
    that it matches the new set of references keeps the invariant. *)
Lemma pool_wf_set T refs refs' i e n nx :
  pool_wf T refs -> buffers_ T !! i = Some e -> (nx < ROWS)%nat ->
  n = cnt (points_to i) refs' ->
  (forall j, j <> i -> cnt (points_to j) refs' = cnt (points_to j) refs) ->
  Forall (fun r => forall k, r = Some k -> (k < ROWS)%nat) refs' ->
  Z.of_nat (length refs') < 65536 ->
  pool_wf (mkBufTable (set_count T i n)
             (size_ T - Z.b2z (in_use e) + Z.b2z (0 <? n)) nx) refs'.
Proof.
  intros Hwf Hi Hnx Hn Hoth Hrefs Hfew.
  rewrite (set_count_insert T i e n Hi). split; simpl.
  - rewrite length_insert. apply Hwf.
  - intros j e' Hj. destruct (decide (i = j)) as [<-|Hne].
    + rewrite list_lookup_insert_eq in Hj by (by eapply lookup_lt_Some). by simplify_eq.
    + rewrite list_lookup_insert_ne in Hj by done. rewrite Hoth by done.
      by apply (pool_count _ _ Hwf).
  - rewrite (cnt_insert _ _ _ e) by done. by rewrite (pool_size _ _ Hwf).
  - done.
  - done.
  - done.
Qed.

Lemma retain_wf T refs i :
  pool_wf T refs -> (i < ROWS)%nat -> Z.of_nat (length refs) < 65535 ->
  pool_wf (retain_ref T i) (Some i :: refs).
Proof.
  intros Hwf Hlt Hfew. unfold retain_ref.
  destruct (lookup_lt_is_Some_2 (buffers_ T) i) as [e He];
    [by rewrite (pool_length _ _ Hwf)|].
  rewrite He. pose proof (pool_count _ _ Hwf i e He) as Hc.
  pose proof (refs_bounds _ _ i Hwf). pose proof (pool_size_bounds _ _ Hwf).
  pose proof (cnt_le_length (points_to i) refs).
  rewrite u16_small by lia.
  assert (Hs : (if ref_count_ e =? 0 then u64 (size_ T + 1) else size_ T) =
    size_ T - Z.b2z (in_use e) + Z.b2z (0 <? ref_count_ e + 1)).
  { unfold in_use. destruct (Z.eqb_spec (ref_count_ e) 0) as [->|]; [simpl; word|].
    rewrite (proj2 (Z.ltb_lt 0 (ref_count_ e))), (proj2 (Z.ltb_lt 0 (ref_count_ e + 1))) by lia.
    simpl. lia. }
  rewrite Hs. apply (pool_wf_set _ refs); [done..|apply Hwf| | | |].
  - simpl. rewrite points_to_Some, bool_decide_true by done. simpl. lia.
  - intros j Hj. simpl. by rewrite points_to_Some, bool_decide_false.
  - constructor; [by intros k [= <-]|apply Hwf].
  - simpl. lia.
Qed.

Lemma release_wf T refs i :
  pool_wf T (Some i :: refs) -> pool_wf (release_ref T i) refs.
Proof.
  intros Hwf. unfold release_ref.
  pose proof (pool_refs _ _ Hwf) as Hr. apply Forall_cons_1 in Hr as [Hlt Hr].
  destruct (lookup_lt_is_Some_2 (buffers_ T) i) as [e He];
    [rewrite (pool_length _ _ Hwf); by apply Hlt|].
  rewrite He. pose proof (pool_count _ _ Hwf i e He) as Hc.
  pose proof (pool_few _ _ Hwf) as Hfew. simpl in Hfew.
  pose proof (pool_size_bounds _ _ Hwf). pose proof (refs_bounds _ _ i Hwf) as Hb.
  simpl in Hc, Hb. rewrite points_to_Some, bool_decide_true in Hc, Hb by done. simpl in Hc, Hb.
  pose proof (cnt_nonneg (points_to i) refs).
  destruct (Z.eqb_spec (ref_count_ e) 0) as [|_]; [lia|]. simpl.
  rewrite u16_small by lia.
  assert (Hin : in_use e = true) by (apply Z.ltb_lt; lia).
  assert (0 < size_ T).
  { rewrite (pool_size _ _ Hwf). by apply (cnt_pos _ _ i e). }
  assert (Hs : (if (ref_count_ e - 1 =? 0) && (0 <? size_ T)
                then u64 (size_ T - 1) else size_ T) =
    size_ T - Z.b2z (in_use e) + Z.b2z (0 <? ref_count_ e - 1)).
  { rewrite Hin, (proj2 (Z.ltb_lt 0 (size_ T))), andb_true_r by done.
    destruct (Z.eqb_spec (ref_count_ e - 1) 0) as [->|]; [simpl; word|].
    rewrite (proj2 (Z.ltb_lt 0 (ref_count_ e - 1))) by lia. simpl. lia. }
  rewrite Hs. apply (pool_wf_set _ (Some i :: refs)); [done..|apply Hwf|lia| |done|lia].
  intros j Hj. simpl. by rewrite points_to_Some, bool_decide_false.
Qed.

Lemma null_wf T refs :
  Z.of_nat (length refs) < 65535 -> pool_wf T (None :: refs) <-> pool_wf T refs.
Proof.
  intros Hlen. split; intros []; split; try assumption.
  - by apply Forall_cons_1 in pool_refs0 as [_ ?].
  - lia.
  - by constructor.
  - simpl. lia.
Qed.

(** ** Allocation *)

Lemma request_cases T refs :
  pool_wf T refs -> Z.of_nat (length refs) < 65535 ->
  (size_ T = 64 /\ request T = Ret (T, Err BufferError_Full)) \/
  ((size_ T < 64) /\ exists T' i, request T = Ret (T', Ok (Some i)) /\ (i < ROWS)%nat /\
     cnt (points_to i) refs = 0 /\ pool_wf T' (Some i :: refs)).
Proof.
  intros Hwf Hfew. pose proof (pool_size_bounds _ _ Hwf). unfold request, BUFFER_ROWS.
  destruct (Z.leb_spec 64 (size_ T)); [left; split; [lia|done]|right; split; [done|]].
  destruct (cnt_lt_exists in_use (buffers_ T)) as (i0 & e0 & Hi0 & He0).
  { rewrite (pool_length _ _ Hwf), <- (pool_size _ _ Hwf). unfold ROWS, BUFFER_ROWS. lia. }
  destruct (while_true _ _ _ _) as [i|] eqn:Hw.
  - cbn [of_loop mbind outcome_bind]. apply while_true_Some in Hw as (j & Hj & Hb & _); [|apply Hwf].
    destruct (buffers_ T !! slot ROWS (next_ T) j) as [e|] eqn:He; [|done].
    destruct (0 <? ref_count_ e) eqn:Hu; [done|]. injection Hb as <-.
    set (i := slot ROWS (next_ T) j) in *.
    pose proof (pool_count _ _ Hwf _ _ He) as Hc.
    pose proof (refs_bounds _ _ i Hwf). apply Z.ltb_ge in Hu.
    assert (Hlt : (i < ROWS)%nat) by (apply slot_lt; unfold ROWS, BUFFER_ROWS; lia).
    eexists _, i. split_and!; [done|done|lia|].
    replace (u64 (size_ T + 1)) with (size_ T - Z.b2z (in_use e) + Z.b2z (0 <? 1)).
    + apply (pool_wf_set _ refs); [done..| | | | |].
      * apply Nat.mod_upper_bound. unfold ROWS, BUFFER_ROWS. lia.
      * simpl. rewrite points_to_Some, bool_decide_true by done. simpl. lia.
      * intros k Hk. simpl. by rewrite points_to_Some, bool_decide_false.
      * constructor; [by intros k [= <-]|apply Hwf].
      * simpl. lia.
    + unfold in_use. rewrite (proj2 (Z.ltb_ge 0 (ref_count_ e))) by lia. simpl. word.
  - exfalso. rewrite while_true_None in Hw by apply Hwf.
    specialize (Hw (dist ROWS (next_ T) i0) (dist_lt _ _ _ (pool_next _ _ Hwf))).
    rewrite slot_dist in Hw; [|apply Hwf|rewrite <- (pool_length _ _ Hwf); by eapply lookup_lt_Some].
    rewrite Hi0 in Hw. unfold in_use in He0. by rewrite He0 in Hw.
Qed.

Lemma store_wf T refs r bytes : pool_wf T refs -> pool_wf (store T r bytes) refs.
Proof.
  intros Hwf. destruct r as [i|]; [|done]. unfold store.
  destruct (buffers_ T !! i) as [e|] eqn:He.
  2: { rewrite alter_none by done. by destruct T. }
  rewrite (insert_alter _ _ i e) by done. split; simpl; try apply Hwf.
  - rewrite length_insert. apply Hwf.
  - intros j e' Hj. destruct (decide (i = j)) as [<-|].
    + rewrite list_lookup_insert_eq in Hj by (by eapply lookup_lt_Some). simplify_eq.
      simpl. by apply (pool_count _ _ Hwf).
    + rewrite list_lookup_insert_ne in Hj by done. by apply (pool_count _ _ Hwf).
  - rewrite (cnt_insert _ _ _ e) by done. rewrite (pool_size _ _ Hwf). unfold in_use.
    simpl. lia.
Qed.

(** ** The life of references as a state machine

    A state is the pool and every [buf_ref] object that exists (a destroyed
    object counts as null, which is what [release_ref_] leaves).  Each step is
    one constructor, assignment or destructor of [buf_ref], a [request], or a
    write through a reference; any thread may take it. *)

Inductive pool_step : relation (buf_table * list buf_ref) :=
  | step_default T H : pool_step (T, H) (T, H ++ [None])
  | step_request T H T' r :
      request T = Ret (T', Ok r) -> pool_step (T, H) (T', H ++ [r])
  | step_copy T H h r T' r' :
      H !! h = Some r -> ref_copy T r = (T', r') ->
      pool_step (T, H) (T', H ++ [r'])
  | step_move T H h r r' s' :
      H !! h = Some r -> ref_move r = (r', s') ->
      pool_step (T, H) (T, <[h := s']> H ++ [r'])
  | step_assign T H h g r s T' r' :
      h <> g -> H !! h = Some r -> H !! g = Some s -> ref_assign T r s = (T', r') ->
      pool_step (T, H) (T', <[h := r']> H)
  | step_move_assign T H h g r s T' r' s' :
      h <> g -> H !! h = Some r -> H !! g = Some s ->
      ref_move_assign T r s = (T', r', s') ->
      pool_step (T, H) (T', <[g := s']> (<[h := r']> H))
  | step_destroy T H h r T' r' :
      H !! h = Some r -> ref_destroy T r = (T', r') ->
      pool_step (T, H) (T', <[h := r']> H)
  | step_store T H h r bytes :
      H !! h = Some r -> pool_step (T, H) (store T r bytes, H).

Definition pool_reachable (s : buf_table * list buf_ref) : Prop :=
  rtc pool_step (buf_table_default, []) s.

Lemma pool_step_length s s' : pool_step s s' -> (length s.2 <= length s'.2)%nat.
Proof. destruct 1; simpl; rewrite ?length_app, ?length_insert; simpl; lia. Qed.

Lemma refs_lookup_lt T H h i :
  pool_wf T H -> H !! h = Some (Some i) -> (i < ROWS)%nat.
Proof.
  intros Hwf Hh. pose proof (pool_refs _ _ Hwf) as Hf.
  rewrite Forall_lookup in Hf. by apply (Hf h _ Hh).
Qed.

(** Dropping a reference, whatever it is. *)
Lemma drop_wf T r rest :
  pool_wf T (r :: rest) -> pool_wf (match r with Some i => release_ref T i | None => T end) rest.
Proof.
  intros Hwf. destruct r as [i|]; [by apply release_wf|].
  apply null_wf; [|done]. pose proof (pool_few _ _ Hwf) as Hf. simpl in Hf. lia.
Qed.

(** Adding a copy of an existing reference. *)
Lemma dup_wf T H h r :
  pool_wf T H -> H !! h = Some r -> Z.of_nat (length H) < 65535 ->
  pool_wf (match r with Some i => retain_ref T i | None => T end) (r :: H).
Proof.
  intros Hwf Hh Hlen. destruct r as [i|]; [|by apply null_wf].
  apply retain_wf; [done| |done]. by eapply refs_lookup_lt.
Qed.

Lemma pool_step_wf T H T' H' :
  pool_step (T, H) (T', H') -> Z.of_nat (length H') < 65535 ->
  pool_wf T H -> pool_wf T' H'.
Proof.
  intros Hs Hlen Hwf. pose proof (pool_step_length _ _ Hs) as Hle. simpl in Hle.
  inversion Hs; simplify_eq.
  - rewrite <- Permutation_cons_append. apply null_wf; [lia|done].
  - rewrite <- Permutation_cons_append.
    destruct (request_cases T H Hwf ltac:(lia)) as [[_ E]|(_ & T2 & i & E & _ & _ & ?)];
      rewrite E in *; by simplify_eq.
  - rewrite <- Permutation_cons_append.
    pose proof (dup_wf T H h r Hwf ltac:(done) ltac:(lia)) as Hd.
    destruct r; simpl in *; by simplify_eq.
  - unfold ref_move in *. simplify_eq.
    destruct (insert_split H h r' ltac:(done)) as (rest & HH & Hins).
    rewrite <- Permutation_cons_append, Hins, Permutation_swap, <- HH.
    apply null_wf; [lia|done].
  - pose proof (dup_wf T H g s Hwf ltac:(done) ltac:(lia)) as Hd.
    destruct (insert_split H h r ltac:(done)) as (rest & HH & Hins).
    unfold ref_assign in *. simplify_eq. rewrite Hins.
    rewrite HH, Permutation_swap in Hd. by apply drop_wf.
  - unfold ref_move_assign in *. simplify_eq.
    destruct (insert_split H h r ltac:(done)) as (rest & HH & Hins).
    destruct (insert_split (<[h := r']> H) g r') as (rest2 & HH2 & Hins2).
    { by rewrite list_lookup_insert_ne. }
    rewrite Hins2. rewrite Hins in HH2.
    apply Permutation_cons_inv in HH2.
    rewrite HH in Hwf. pose proof (drop_wf _ _ _ Hwf) as Hd.
    rewrite <- HH2. apply null_wf; [|done].
    pose proof (pool_few _ _ Hwf) as Hf. simpl in Hf. lia.
  - destruct (insert_split H h r ltac:(done)) as (rest & HH & Hins).
    rewrite Hins. rewrite HH in Hwf. pose proof (drop_wf _ _ _ Hwf) as Hd.
    pose proof (pool_few _ _ Hwf) as Hf. simpl in Hf.
    destruct r; simpl in *; simplify_eq; apply null_wf; try done; lia.
  - by apply store_wf.
Qed.

Lemma pool_reachable_wf T H :
  pool_reachable (T, H) -> Z.of_nat (length H) < 65535 -> pool_wf T H.
Proof.
  enough (Hall : forall s, pool_reachable s -> Z.of_nat (length s.2) < 65535 ->
    pool_wf s.1 s.2) by (intros; by apply (Hall (T, H))).
  apply (rtc_ind_r (fun s => Z.of_nat (length s.2) < 65535 -> pool_wf s.1 s.2)
    (buf_table_default, [])).
  { intros _. apply pool_wf_default. }
  intros [T0 H0] [T1 H1] _ Hst IH Hlen. simpl in *.
  apply (pool_step_wf T0 H0); [done..|]. apply IH.
  apply pool_step_length in Hst. simpl in Hst. lia.
Qed.

Lemma cnt_points_to_zero i H : cnt (points_to i) H = 0 <-> Some i ∉ H.
Proof.
  split.
  - intros Hc (h & Hh)%list_elem_of_lookup.
    pose proof (cnt_pos (points_to i) H h (Some i) Hh) as Hp.
    rewrite points_to_Some, bool_decide_true in Hp by done. specialize (Hp eq_refl). lia.
  - intros Hn. apply cnt_zero. intros h r Hh. apply bool_decide_false. intros ->.
    apply Hn. by eapply list_elem_of_lookup_2.
Qed.

(** ** Properties *)

(** In every state reachable by constructing, copying, moving,
    assigning and destroying references (fewer than 65535 of them), the count
    of a slot is exactly the number of references to it, and the pool's size
    is the number of slots with a reference. *)
Theorem refcount_exact T H :
  pool_reachable (T, H) -> Z.of_nat (length H) < 65535 ->
  (forall i e, buffers_ T !! i = Some e ->
     ref_count_ e = cnt (points_to i) H /\ (ref_count_ e = 0 <-> Some i ∉ H)) /\
  size_ T = cnt in_use (buffers_ T) /\
  (empty T = true <-> forall r, r ∈ H -> r = None).
Proof.
  intros Hr Hlen. pose proof (pool_reachable_wf _ _ Hr Hlen) as Hwf.
  assert (Hcnt : forall i e, buffers_ T !! i = Some e ->
     ref_count_ e = cnt (points_to i) H /\ (ref_count_ e = 0 <-> Some i ∉ H)).
  { intros i e He. rewrite (pool_count _ _ Hwf i e He).
    split; [done|apply cnt_points_to_zero]. }
  split_and!; [done|apply Hwf|]. unfold empty. rewrite Z.eqb_eq, (pool_size _ _ Hwf). split.
  - intros Hz [i|] Hin; [exfalso|done].
    apply list_elem_of_lookup in Hin as (h & Hh).
    destruct (lookup_lt_is_Some_2 (buffers_ T) i) as [e He].
    { rewrite (pool_length _ _ Hwf). by eapply refs_lookup_lt. }
    destruct (Hcnt i e He) as [_ Hz']. assert (ref_count_ e <> 0).
    { rewrite Hz'. intros Hn. apply Hn. by eapply list_elem_of_lookup_2. }
    pose proof (refs_bounds _ _ i Hwf). pose proof (pool_count _ _ Hwf i e He).
    assert (0 < cnt in_use (buffers_ T)); [|lia].
    apply (cnt_pos _ _ i e He). apply Z.ltb_lt. lia.
  - intros Hno. apply cnt_zero. intros i e He. apply Z.ltb_ge.
    destruct (Hcnt i e He) as [_ Hz]. enough (ref_count_ e = 0) by lia.
    apply Hz. intros Hin. by specialize (Hno _ Hin).
Qed.

(** [request] always returns; it refuses exactly when all 64
    slots are referenced, and otherwise hands out a slot no existing
    reference points to, so two owners never share a buffer by accident. *)
Theorem request_fresh T H :
  pool_reachable (T, H) -> Z.of_nat (length H) < 65535 ->
  (full T = true /\ request T = Ret (T, Err BufferError_Full) /\
     (forall i, (i < ROWS)%nat -> Some i ∈ H)) \/
  (full T = false /\ exists T' i, request T = Ret (T', Ok (Some i)) /\
     (i < ROWS)%nat /\ (Some i ∉ H) /\ size_ T' = size_ T + 1 /\
     (forall r, r ∈ H -> buffer T' r = buffer T r)).
Proof.
  intros Hr Hlen. pose proof (pool_reachable_wf _ _ Hr Hlen) as Hwf.
  unfold full, BUFFER_ROWS.
  destruct (request_cases T H Hwf Hlen) as [[Hs E]|(Hs & T' & i & E & Hi & Hc & Hwf')].
  - left. split_and!; [apply Z.leb_le; lia|done|]. intros i Hi.
    destruct (decide (Some i ∈ H)) as [|Hn]; [done|exfalso].
    apply cnt_points_to_zero in Hn.
    destruct (lookup_lt_is_Some_2 (buffers_ T) i) as [e He];
      [by rewrite (pool_length _ _ Hwf)|].
    pose proof (pool_count _ _ Hwf i e He) as Hce.
    pose proof (cnt_lt_length in_use (buffers_ T) i e He) as Hl.
    rewrite (pool_length _ _ Hwf), <- (pool_size _ _ Hwf) in Hl.
    unfold ROWS, BUFFER_ROWS in Hl. unfold in_use in Hl.
    rewrite (proj2 (Z.ltb_ge _ _)) in Hl by lia. specialize (Hl eq_refl). lia.
  - right. split; [apply Z.leb_gt; lia|]. exists T', i.
    split_and!; [done|done|by apply cnt_points_to_zero| |].
    + pose proof E as E'. unfold request in E'.
      destruct (_ <=? _); [done|].
      destruct (while_true _ _ _ _); simpl in E'; simplify_eq. simpl.
      pose proof (pool_size_bounds _ _ Hwf). word.
    + intros r Hin. unfold request in E. destruct (_ <=? _); [done|].
      destruct (while_true _ _ _ _) as [i'|]; simpl in E; simplify_eq.
      destruct r as [j|]; [|done]. simpl. unfold set_count.
      destruct (decide (i = j)) as [<-|Hne].
      * rewrite list_lookup_alter_eq. by destruct (buffers_ T !! i).
      * by rewrite list_lookup_alter_ne.
Qed.

(** The bound on the number of references is needed: the
    count is 16 bits wide, so the 65536th reference to a slot makes the slot
    look free again. *)
Theorem retain_wraps T i e :
  buffers_ T !! i = Some e -> ref_count_ e = 65535 ->
  exists e', buffers_ (retain_ref T i) !! i = Some e' /\ ref_count_ e' = 0.
Proof.
  intros He Hc. unfold retain_ref. rewrite He, Hc. simpl. unfold set_count.
  rewrite list_lookup_alter_eq, He. simpl. by eexists.
Qed.

(** ** Witnesses *)

(** One buffer requested, then a second reference to it. *)
Definition pool1 : buf_table :=
  match request buf_table_default with Ret (T, _) => T | _ => buf_table_default end.
Definition pool2 : buf_table := retain_ref pool1 0.

Lemma pool2_reachable : pool_reachable (pool2, [Some 0%nat; Some 0%nat]).
Proof.
  apply (rtc_l _ _ (pool1, [Some 0%nat])).
  { apply (step_request _ [] pool1 (Some 0%nat)). reflexivity. }
  apply rtc_once. apply (step_copy pool1 [Some 0%nat] 0 (Some 0%nat)); reflexivity.
Qed.

Lemma refcount_exact_witness :
  pool_reachable (pool2, [Some 0%nat; Some 0%nat]) /\
  size_ pool2 = cnt in_use (buffers_ pool2).
Proof.
  split; [apply pool2_reachable|].
  apply (refcount_exact pool2 [Some 0%nat; Some 0%nat] pool2_reachable). simpl. lia.
Defined.

Lemma request_fresh_witness :
  full pool2 = false /\
  exists T' i, request pool2 = Ret (T', Ok (Some i)) /\ i <> 0%nat.
Proof.
  destruct (request_fresh pool2 [Some 0%nat; Some 0%nat] pool2_reachable)
    as [(Hf & _)|(Hf & T' & i & Hr & _ & Hn & _)]; [simpl; lia|discriminate Hf|].
  split; [exact Hf|]. exists T', i. split; [exact Hr|]. intros ->. apply Hn. set_solver.
Defined.

Lemma retain_wraps_witness :
  exists e', buffers_ (retain_ref (mkBufTable [mkBuf [] 65535] 1 0) 0) !! 0%nat = Some e' /\
    ref_count_ e' = 0.
Proof. apply (retain_wraps (mkBufTable [mkBuf [] 65535] 1 0) 0 (mkBuf [] 65535)); reflexivity. Defined.
