(* ===== verification/Bytes.v ===== *)
(** * Bytes in memory

    [memcpy] between an object and a [char] buffer: little-endian integers
    (the byte order of the x86-64, aarch64 and riscv64 targets the project is
    built for) and reads and writes of a range of bytes. *)
From S2P Require Import Prelude.

(** ** Little-endian integers *)

Fixpoint le_bytes (n : nat) (z : Z) : list Z :=
  match n with
  | O => []
  | S n' => z `mod` 256 :: le_bytes n' (z / 256)
  end.

Fixpoint le_value (bs : list Z) : Z :=
  match bs with
  | [] => 0
  | b :: bs' => b + 256 * le_value bs'
  end.

Lemma length_le_bytes n z : length (le_bytes n z) = n.
Proof. revert z; induction n as [|n IH]; intros z; simpl; [done|]. by rewrite IH. Qed.

Lemma le_bytes_byte n z : Forall is_byte (le_bytes n z).
Proof.
  revert z; induction n as [|n IH]; intros z; simpl; constructor; [|done].
  unfold is_byte. pose proof (Z.mod_pos_bound z 256). lia.
Qed.

Lemma le_value_bytes n z : 0 <= z < 256 ^ Z.of_nat n -> le_value (le_bytes n z) = z.
Proof.
  revert z; induction n as [|n IH]; intros z Hz.
  - simpl in *. lia.
  - simpl. rewrite IH.
    + pose proof (Z.div_mod z 256). lia.
    + rewrite Nat2Z.inj_succ, Z.pow_succ_r in Hz by lia. split.
      * apply Z.div_pos; lia.
      * apply Z.div_lt_upper_bound; lia.
Qed.

Lemma le_bytes_value bs : Forall is_byte bs -> le_bytes (length bs) (le_value bs) = bs.
Proof.
  induction 1 as [|b bs Hb _ IH]; [done|]. simpl. unfold is_byte in Hb.
  rewrite (Z.mul_comm 256), Z.mod_add, Z.div_add, Z.mod_small, Z.div_small by lia.
  rewrite Z.add_0_l. by rewrite IH.
Qed.

Lemma le_value_bounds bs :
  Forall is_byte bs -> 0 <= le_value bs < 256 ^ Z.of_nat (length bs).
Proof.
  induction 1 as [|b bs Hb _ IH]; [simpl; lia|].
  change (length (b :: bs)) with (S (length bs)). simpl le_value. unfold is_byte in Hb.
  rewrite Nat2Z.inj_succ, Z.pow_succ_r by lia. lia.
Qed.

(** ** Ranges of bytes *)

Definition read (buf : list Z) (off n : nat) : list Z := take n (drop off buf).
Definition write (buf : list Z) (off : nat) (bs : list Z) : list Z :=
  take off buf ++ bs ++ drop (off + length bs) buf.

Lemma read_lookup buf off n i :
  (i < n)%nat -> read buf off n !! i = buf !! (off + i)%nat.
Proof. intros. unfold read. by rewrite lookup_take_lt, lookup_drop. Qed.

Lemma read_length buf off n :
  (off + n <= length buf)%nat -> length (read buf off n) = n.
Proof. intros. unfold read. rewrite length_take, length_drop. lia. Qed.

Section Write.
Context (buf : list Z) (off : nat) (bs : list Z).
Context (Hfit : (off + length bs <= length buf)%nat).

Lemma write_length : length (write buf off bs) = length buf.
Proof. unfold write. rewrite !length_app, length_take, length_drop. lia. Qed.

Lemma write_lookup i :
  write buf off bs !! i =
    if decide (off <= i < off + length bs)%nat then bs !! (i - off)%nat else buf !! i.
Proof.
  unfold write. assert (Hl : length (take off buf) = off) by (rewrite length_take; lia).
  case_decide as Hd.
  - rewrite lookup_app_r, Hl, lookup_app_l by (rewrite ?Hl; lia). done.
  - destruct (decide (i < off)%nat) as [Hlt|Hge].
    + rewrite lookup_app_l by (rewrite Hl; lia). by rewrite lookup_take_lt.
    + rewrite lookup_app_r, Hl by (rewrite ?Hl; lia).
      rewrite lookup_app_r by lia. rewrite lookup_drop. f_equal. lia.
Qed.

Lemma read_write_same : read (write buf off bs) off (length bs) = bs.
Proof.
  apply list_eq. intros i. destruct (decide (i < length bs)%nat) as [Hi|Hi].
  - rewrite read_lookup, write_lookup, decide_True by lia. f_equal. lia.
  - rewrite (proj2 (lookup_ge_None bs i)) by lia. apply lookup_ge_None.
    unfold read. rewrite length_take. lia.
Qed.

Lemma read_write_other off' n :
  (off' + n <= off)%nat \/ (off + length bs <= off')%nat ->
  read (write buf off bs) off' n = read buf off' n.
Proof.
  intros Hd. apply list_eq. intros i. destruct (decide (i < n)%nat) as [Hi|Hi].
  - rewrite !read_lookup, write_lookup, decide_False by lia. done.
  - rewrite !(proj2 (lookup_ge_None _ i)); [done|..]; unfold read; rewrite length_take; lia.
Qed.
End Write.

Lemma write_byte buf off bs :
  Forall is_byte buf -> Forall is_byte bs -> Forall is_byte (write buf off bs).
Proof.
  intros. unfold write. repeat apply Forall_app_2; [by apply Forall_take|done|by apply Forall_drop].
Qed.

Lemma read_byte buf off n : Forall is_byte buf -> Forall is_byte (read buf off n).
Proof. intros. unfold read. by apply Forall_take, Forall_drop. Qed.
