(* ===== verification/JobBuf.v ===== *)
(** * The wire protocol

    [job_buf] ([types/job_buf.h], [job_buf.cpp]) parses requests and writes
    acknowledgements in place.  It is a [buf_ref] plus a message size, so every
    method reads or writes the pool [T] through the reference: two [job_buf]
    objects on one slot see each other's writes. *)
From S2P Require Import Prelude Params BufTable Bytes.

(** ** Message layout

    [| op (1) | op_id (1) | txn_id (4) | ack (1) | table_id (1) | tp_key (1) |
    data... |] *)

Inductive FieldOffset := OP | OP_ID | TXN | ACK | TBL | TP_KEY | TUPLE.

Definition offset (f : FieldOffset) : nat :=
  match f with
  | OP => 0 | OP_ID => 1 | TXN => 2 | ACK => 6 | TBL => 7 | TP_KEY => 8 | TUPLE => 9
  end.

Record job_buf := mkJobBuf {
  ref : buf_ref;
  buffer_size_ : Z
}.

(** [job_buf()] *)
Definition job_buf_default : job_buf := mkJobBuf None 0.

(** [job_buf(buf_ref, std::size_t)]: the parameter is a copy of the caller's
    reference and is moved into the object. *)
Definition job_buf_make (T : buf_table) (buf : buf_ref) (size : Z) : buf_table * job_buf :=
  let '(T', r) := ref_copy T buf in (T', mkJobBuf (ref_move r).1 size).

(** ** Field access

    [width] is [sizeof(T)]. *)

Definition parse_field (T : buf_table) (this : job_buf) (width : nat) (f : FieldOffset)
    : option Z :=
  let off := offset f in
  if buffer_size_ this <? Z.of_nat (off + width) then None
  else Some (le_value (read (buffer T (ref this)) off width)).

Definition set_field (T : buf_table) (this : job_buf) (width : nat) (value : Z)
    (f : FieldOffset) : buf_table :=
  store T (ref this) (write (buffer T (ref this)) (offset f) (le_bytes width value)).

(** ** Getters *)

Definition get_op (T : buf_table) (this : job_buf) : Result OpType ParserError :=
  match parse_field T this 1 OP with
  | None => Err ParserError_ReadAfterEnd
  | Some raw =>
      if OpType_value MAX_OP_VALUE <=? raw then Err ParserError_InvalidValue
      else Ok (OpType_of raw)
  end.

Definition get_raw (T : buf_table) (this : job_buf) (width : nat) (f : FieldOffset)
    : Result Z ParserError :=
  match parse_field T this width f with
  | None => Err ParserError_ReadAfterEnd
  | Some raw => Ok raw
  end.

Definition get_op_id (T : buf_table) (this : job_buf) := get_raw T this 1 OP_ID.
Definition get_txn (T : buf_table) (this : job_buf) := get_raw T this 4 TXN.
Definition get_tbl (T : buf_table) (this : job_buf) := get_raw T this 1 TBL.
Definition get_key (T : buf_table) (this : job_buf) := get_raw T this 1 TP_KEY.

Definition get_ack (T : buf_table) (this : job_buf) : Result OpAck ParserError :=
  match parse_field T this 1 ACK with
  | None => Err ParserError_ReadAfterEnd
  | Some raw =>
      if OpAck_value DEAD_TXN <? raw then Err ParserError_InvalidValue
      else Ok (OpAck_of raw)
  end.

(** A [std::string] is its list of bytes. *)
Definition get_string (T : buf_table) (this : job_buf) : list Z :=
  let buf := buffer T (ref this) in
  let tup_off := offset TUPLE in
  if buffer_size_ this <? Z.of_nat (tup_off + 2) then []
  else
    let length := le_value (read buf tup_off 2) in
    if buffer_size_ this <? Z.of_nat (tup_off + 2) + length then []
    else read buf (tup_off + 2) (Z.to_nat length).

Definition get_checksum (T : buf_table) (this : job_buf) : Z :=
  if buffer_size_ this <=? Z.of_nat (offset TUPLE) then 0
  else foldl (fun sum b => u32 (sum + b)) 0
         (read (buffer T (ref this)) 0 (Z.to_nat (buffer_size_ this))).

(** ** Setters *)

Definition set_ack (T : buf_table) (this : job_buf) (ack : OpAck) : buf_table :=
  set_field T this 1 (OpAck_value ack) ACK.
Definition set_txn (T : buf_table) (this : job_buf) (txn : Z) : buf_table :=
  set_field T this 4 txn TXN.
Definition set_key (T : buf_table) (this : job_buf) (key : Z) : buf_table :=
  set_field T this 1 key TP_KEY.
Definition set_buffer_size (this : job_buf) (size : Z) : job_buf :=
  mkJobBuf (ref this) size.
Definition get_buffer_size (this : job_buf) : Z := buffer_size_ this.
Definition get_tuple_offset (this : job_buf) : nat := offset TUPLE.

(** ** Memory lemmas *)

(** [r] refers to a slot of the pool that holds a whole buffer. *)
Definition valid_ref (T : buf_table) (r : buf_ref) : Prop :=
  Z.of_nat (length (buffer T r)) = BUFFER_WIDTH.

Lemma valid_ref_Some T r :
  valid_ref T r -> exists i e, r = Some i /\ buffers_ T !! i = Some e.
Proof.
  unfold valid_ref, buffer, BUFFER_WIDTH. destruct r as [i|]; [|simpl; lia].
  destruct (buffers_ T !! i) as [e|] eqn:He; [eauto|simpl; lia].
Qed.

Lemma buffer_store T r bytes : valid_ref T r -> buffer (store T r bytes) r = bytes.
Proof.
  intros (i & e & -> & He)%valid_ref_Some. simpl.
  by rewrite list_lookup_alter_eq, He.
Qed.

Lemma buffer_store_ne T r r' bytes : r <> r' -> buffer (store T r bytes) r' = buffer T r'.
Proof.
  intros Hne. destruct r as [i|], r' as [j|]; try done. simpl.
  by rewrite list_lookup_alter_ne by congruence.
Qed.

Section Fields.
Context (T : buf_table) (this : job_buf) (Hv : valid_ref T (ref this)).

Lemma field_fits w f v :
  (w <= 4)%nat ->
  (offset f + length (le_bytes w v) <= length (buffer T (ref this)))%nat.
Proof.
  intros. rewrite length_le_bytes. unfold valid_ref, BUFFER_WIDTH in Hv.
  destruct f; simpl; lia.
Qed.

Lemma buffer_set_field w v f :
  buffer (set_field T this w v f) (ref this) =
    write (buffer T (ref this)) (offset f) (le_bytes w v).
Proof. by apply buffer_store. Qed.

Lemma valid_set_field w v f :
  (w <= 4)%nat -> valid_ref (set_field T this w v f) (ref this).
Proof.
  intros. unfold valid_ref. rewrite buffer_set_field, write_length; [done|].
  by apply field_fits.
Qed.

(** A field reads back what was written to it. *)
Lemma parse_set_same w v f sz :
  (w <= 4)%nat -> 0 <= v < 256 ^ Z.of_nat w -> Z.of_nat (offset f + w) <= sz ->
  parse_field (set_field T this w v f) (mkJobBuf (ref this) sz) w f = Some v.
Proof.
  intros Hw Hv' Hsz. unfold parse_field. simpl.
  destruct (Z.ltb_spec sz (Z.of_nat (offset f + w))); [lia|].
  rewrite buffer_set_field. f_equal.
  replace w with (length (le_bytes w v)) at 2 by apply length_le_bytes.
  rewrite read_write_same by (by apply field_fits). by apply le_value_bytes.
Qed.

(** Writing one field leaves the others alone. *)
Lemma parse_set_other w v f w' f' sz :
  (w <= 4)%nat ->
  (offset f' + w' <= offset f)%nat \/ (offset f + w <= offset f')%nat ->
  parse_field (set_field T this w v f) (mkJobBuf (ref this) sz) w' f' =
    parse_field T (mkJobBuf (ref this) sz) w' f'.
Proof.
  intros Hw Hd. unfold parse_field. simpl. rewrite buffer_set_field.
  rewrite read_write_other; [done|by apply field_fits|]. by rewrite length_le_bytes.
Qed.
End Fields.

(** Two pools whose slots agree on the message. *)
Definition same_message (T T' : buf_table) (this : job_buf) : Prop :=
  forall n, Z.of_nat n <= buffer_size_ this ->
    read (buffer T (ref this)) 0 n = read (buffer T' (ref this)) 0 n.

Lemma read_within (buf buf' : list Z) off n :
  read buf 0 (off + n) = read buf' 0 (off + n) -> read buf off n = read buf' off n.
Proof.
  unfold read. rewrite !drop_0, !take_drop_commute. by intros ->.
Qed.

Lemma parse_field_ext T T' this w f :
  same_message T T' this -> parse_field T this w f = parse_field T' this w f.
Proof.
  intros H. unfold parse_field.
  destruct (Z.ltb_spec (buffer_size_ this) (Z.of_nat (offset f + w))); [done|].
  by rewrite (read_within _ _ _ _ (H (offset f + w)%nat ltac:(lia))).
Qed.

Lemma get_string_ext T T' this :
  same_message T T' this ->
  Forall is_byte (buffer T (ref this)) ->
  get_string T this = get_string T' this.
Proof.
  intros H Hb. unfold get_string.
  destruct (Z.ltb_spec (buffer_size_ this) (Z.of_nat (offset TUPLE + 2))); [done|].
  rewrite <- (read_within _ _ _ _ (H (offset TUPLE + 2)%nat ltac:(lia))).
  set (len := le_value _).
  destruct (Z.ltb_spec (buffer_size_ this) (Z.of_nat (offset TUPLE + 2) + len)); [done|].
  pose proof (le_value_bounds _ (read_byte _ (offset TUPLE) 2 Hb)) as Hlen.
  fold len in Hlen. apply read_within, H. lia.
Qed.

Lemma get_op_value T this raw :
  parse_field T this 1 OP = Some raw -> 0 <= raw < 256 ->
  (raw < 10 /\ exists o, get_op T this = Ok o /\ OpType_value o = raw) \/
  (10 <= raw /\ get_op T this = Err ParserError_InvalidValue).
Proof.
  intros Hp Hr. unfold get_op. rewrite Hp. simpl.
  destruct (Z.leb_spec 10 raw); [by right|left]. split; [done|].
  exists (OpType_of raw). split; [done|]. unfold OpType_of.
  assert (Hin : raw ∈ [0;1;2;3;4;5;6;7;8;9]) by (rewrite !elem_of_cons; lia).
  repeat (apply elem_of_cons in Hin as [->|Hin]; [reflexivity|]). by apply elem_of_nil in Hin.
Qed.

(** ** Properties *)

(** [get_op] reports [ReadAfterEnd] exactly on an empty message,
    [InvalidValue] exactly when the first byte is not an operation, and
    otherwise returns the operation with that value; it never returns the
    sentinel [MAX_OP_VALUE]. *)
Theorem get_op_spec T this b rest :
  buffer T (ref this) = b :: rest -> is_byte b ->
  (buffer_size_ this < 1 /\ get_op T this = Err ParserError_ReadAfterEnd) \/
  (1 <= buffer_size_ this /\ 10 <= b /\ get_op T this = Err ParserError_InvalidValue) \/
  (1 <= buffer_size_ this /\ exists o, get_op T this = Ok o /\ OpType_value o = b /\
     o <> MAX_OP_VALUE).
Proof.
  intros Hb Hbyte. destruct (Z.ltb_spec (buffer_size_ this) 1) as [Hs|Hs].
  - left. split; [done|]. unfold get_op, parse_field.
    destruct (Z.ltb_spec (buffer_size_ this) (Z.of_nat (offset OP + 1))); [done|simpl in *; lia].
  - right. destruct (get_op_value T this b) as [(Hlt & o & Ho & Hv)|[Hge Ho]];
      [|done|right|by left].
    + unfold parse_field.
      destruct (Z.ltb_spec (buffer_size_ this) (Z.of_nat (offset OP + 1))); [simpl in *; lia|].
      rewrite Hb. unfold read. simpl. f_equal. lia.
    + split; [done|]. exists o. split_and!; [done|done|]. intros ->. simpl in Hv. lia.
Qed.

(** C39.  A getter never looks behind the end of the message: on two
    pools that agree on its [buffer_size_] bytes all getters agree, whatever
    an earlier message left in the rest of the slot. *)
Theorem getters_within_message T T' this :
  same_message T T' this -> Forall is_byte (buffer T (ref this)) ->
  get_op T this = get_op T' this /\ get_op_id T this = get_op_id T' this /\
  get_txn T this = get_txn T' this /\ get_tbl T this = get_tbl T' this /\
  get_key T this = get_key T' this /\ get_ack T this = get_ack T' this /\
  get_string T this = get_string T' this.
Proof.
  intros H Hb. unfold get_op, get_op_id, get_txn, get_tbl, get_key, get_ack, get_raw.
  rewrite !(parse_field_ext T T' this _ _ H). split_and!; try done.
  by apply get_string_ext.
Qed.

(** Acknowledging a request in place changes the acknowledgement
    only: [get_ack] then reads the new value and every other header field
    reads as before. *)
Theorem set_ack_spec T this ack :
  valid_ref T (ref this) -> 7 <= buffer_size_ this ->
  let T' := set_ack T this ack in
  get_ack T' this = Ok ack /\ get_op T' this = get_op T this /\
  get_op_id T' this = get_op_id T this /\ get_txn T' this = get_txn T this /\
  get_tbl T' this = get_tbl T this /\ get_key T' this = get_key T this.
Proof.
  intros Hv Hs. destruct this as [r sz]. unfold set_ack. simpl in Hs.
  pose proof (OpAck_value_bounds ack) as Hab.
  unfold get_ack, get_op, get_op_id, get_txn, get_tbl, get_key, get_raw.
  split; [|by rewrite !parse_set_other by (auto; simpl; lia)].
  rewrite (parse_set_same T (mkJobBuf r sz)); [|done|simpl; lia..].
  simpl. destruct (Z.ltb_spec 12 (OpAck_value ack)); [lia|]. by rewrite OpAck_of_value.
Qed.

(** ** Witnesses *)

(** A pool with one slot that holds [bytes], padded to the full width. *)
Definition one_slot (bytes : list Z) : buf_table :=
  mkBufTable [mkBuf (bytes ++ replicate (Z.to_nat BUFFER_WIDTH - length bytes) 0) 1] 1 1.

Lemma one_slot_valid bytes :
  (length bytes <= Z.to_nat BUFFER_WIDTH)%nat -> valid_ref (one_slot bytes) (Some 0%nat).
Proof.
  intros. unfold valid_ref, one_slot. cbn [buffer buffers_ lookup list_lookup buffer_].
  rewrite length_app, length_replicate. unfold BUFFER_WIDTH in *. lia.
Qed.

Definition request_bytes : list Z := [0; 1; 2; 0; 0; 0; 0; 3; 4].

Lemma get_op_spec_witness :
  exists o, get_op (one_slot request_bytes) (mkJobBuf (Some 0%nat) 9) = Ok o /\
    OpType_value o = 0.
Proof.
  destruct (get_op_spec (one_slot request_bytes) (mkJobBuf (Some 0%nat) 9) 0
    (drop 1 request_bytes ++ replicate (Z.to_nat BUFFER_WIDTH - length request_bytes) 0))
    as [[H _]|[(_ & H & _)|(_ & o & Ho & Hv & _)]].
  - reflexivity.
  - unfold is_byte. lia.
  - simpl in H. lia.
  - lia.
  - exists o. split; [exact Ho|exact Hv].
Defined.

Lemma getters_within_message_witness :
  get_key (mkBufTable [mkBuf (request_bytes ++ [7; 7]) 1] 1 1) (mkJobBuf (Some 0%nat) 9) =
  get_key (mkBufTable [mkBuf (request_bytes ++ [9]) 1] 1 1) (mkJobBuf (Some 0%nat) 9).
Proof.
  apply (getters_within_message
    (mkBufTable [mkBuf (request_bytes ++ [7; 7]) 1] 1 1)
    (mkBufTable [mkBuf (request_bytes ++ [9]) 1] 1 1) (mkJobBuf (Some 0%nat) 9)).
  - intros n Hn. simpl in Hn. assert (Hle : (n <= 9)%nat) by lia.
    do 10 (destruct n as [|n]; [reflexivity|]). lia.
  - simpl. repeat constructor; unfold is_byte; lia.
Defined.

Lemma set_ack_spec_witness :
  get_ack (set_ack (one_slot request_bytes) (mkJobBuf (Some 0%nat) 9) BUSY)
    (mkJobBuf (Some 0%nat) 9) = Ok BUSY.
Proof.
  apply (set_ack_spec (one_slot request_bytes) (mkJobBuf (Some 0%nat) 9) BUSY);
    [apply one_slot_valid; apply Nat.leb_le; reflexivity|simpl; lia].
Defined.
