(* ===== verification/RetBuf.v ===== *)
(** * Composing replies

    [ret_buf] ([types/ret_buf.h], [ret_buf.cpp]): the reply side of the wire
    protocol.  The class repeats the getters of [job_buf] and adds the setters
    a reply needs.  The layout ([FieldOffset]) is shared with [JobBuf]. *)
From S2P Require Import Prelude Params BufTable Bytes.
From S2P Require JobBuf.
Import JobBuf(FieldOffset(..), offset, valid_ref).

Record ret_buf := mkRetBuf {
  ref : buf_ref;
  buffer_size_ : Z
}.

(** [ret_buf()] *)
Definition ret_buf_default : ret_buf := mkRetBuf None 0.

(** [ret_buf(buf_ref, std::size_t)], as for [job_buf] *)
Definition ret_buf_make (T : buf_table) (buf : buf_ref) (size : Z) : buf_table * ret_buf :=
  let '(T', r) := ref_copy T buf in (T', mkRetBuf (ref_move r).1 size).

Definition parse_field (T : buf_table) (this : ret_buf) (width : nat) (f : FieldOffset)
    : option Z :=
  let off := offset f in
  if buffer_size_ this <? Z.of_nat (off + width) then None
  else Some (le_value (read (buffer T (ref this)) off width)).

Definition set_field (T : buf_table) (this : ret_buf) (width : nat) (value : Z)
    (f : FieldOffset) : buf_table :=
  store T (ref this) (write (buffer T (ref this)) (offset f) (le_bytes width value)).

(** ** Getters *)

Definition get_op (T : buf_table) (this : ret_buf) : Result OpType ParserError :=
  match parse_field T this 1 JobBuf.OP with
  | None => Err ParserError_ReadAfterEnd
  | Some raw =>
      if OpType_value MAX_OP_VALUE <=? raw then Err ParserError_InvalidValue
      else Ok (OpType_of raw)
  end.

Definition get_raw (T : buf_table) (this : ret_buf) (width : nat) (f : FieldOffset)
    : Result Z ParserError :=
  match parse_field T this width f with
  | None => Err ParserError_ReadAfterEnd
  | Some raw => Ok raw
  end.

Definition get_op_id (T : buf_table) (this : ret_buf) := get_raw T this 1 JobBuf.OP_ID.
Definition get_txn (T : buf_table) (this : ret_buf) := get_raw T this 4 JobBuf.TXN.
Definition get_tbl (T : buf_table) (this : ret_buf) := get_raw T this 1 JobBuf.TBL.
Definition get_key (T : buf_table) (this : ret_buf) := get_raw T this 1 JobBuf.TP_KEY.

Definition get_ack (T : buf_table) (this : ret_buf) : Result OpAck ParserError :=
  match parse_field T this 1 JobBuf.ACK with
  | None => Err ParserError_ReadAfterEnd
  | Some raw =>
      if OpAck_value DEAD_TXN <? raw then Err ParserError_InvalidValue
      else Ok (OpAck_of raw)
  end.

Definition get_string (T : buf_table) (this : ret_buf) : list Z :=
  let buf := buffer T (ref this) in
  let tup_off := offset JobBuf.TUPLE in
  if buffer_size_ this <? Z.of_nat (tup_off + 2) then []
  else
    let length := le_value (read buf tup_off 2) in
    if buffer_size_ this <? Z.of_nat (tup_off + 2) + length then []
    else read buf (tup_off + 2) (Z.to_nat length).

Definition get_checksum (T : buf_table) (this : ret_buf) : Z :=
  if buffer_size_ this <=? Z.of_nat (offset JobBuf.TUPLE) then 0
  else foldl (fun sum b => u32 (sum + b)) 0
         (read (buffer T (ref this)) 0 (Z.to_nat (buffer_size_ this))).

(** ** Setters *)

Definition set_op (T : buf_table) (this : ret_buf) (op : OpType) : buf_table :=
  set_field T this 1 (OpType_value op) JobBuf.OP.
Definition set_op_id (T : buf_table) (this : ret_buf) (id : Z) : buf_table :=
  set_field T this 1 id JobBuf.OP_ID.
Definition set_ack (T : buf_table) (this : ret_buf) (ack : OpAck) : buf_table :=
  set_field T this 1 (OpAck_value ack) JobBuf.ACK.
Definition set_txn (T : buf_table) (this : ret_buf) (txn : Z) : buf_table :=
  set_field T this 4 txn JobBuf.TXN.
Definition set_tbl (T : buf_table) (this : ret_buf) (tbl : Z) : buf_table :=
  set_field T this 1 tbl JobBuf.TBL.
Definition set_key (T : buf_table) (this : ret_buf) (key : Z) : buf_table :=
  set_field T this 1 key JobBuf.TP_KEY.

(** The length is [static_cast<std::uint16_t>(str.size())]; a [std::string]
    is its list of bytes. *)
Definition set_string (T : buf_table) (this : ret_buf) (str : list Z)
    : buf_table * ret_buf :=
  let buf := buffer T (ref this) in
  let tup_off := offset JobBuf.TUPLE in
  let length := u16 (Z.of_nat (length str)) in
  if BUFFER_WIDTH <? Z.of_nat (tup_off + 2) + length then (T, this)
  else
    let buf1 := write buf tup_off (le_bytes 2 length) in
    let buf2 := write buf1 (tup_off + 2) (take (Z.to_nat length) str) in
    (store T (ref this) buf2, mkRetBuf (ref this) (Z.of_nat (tup_off + 2) + length)).

Definition set_buffer_size (this : ret_buf) (size : Z) : ret_buf :=
  mkRetBuf (ref this) size.
Definition get_buffer_size (this : ret_buf) : Z := buffer_size_ this.
Definition get_tuple_offset (this : ret_buf) : nat := offset JobBuf.TUPLE.

(** ** The two views of one message *)

(** What a client (or [job_buf]) sees of a reply. *)
Definition as_job (this : ret_buf) : JobBuf.job_buf :=
  JobBuf.mkJobBuf (ref this) (buffer_size_ this).

(** A header composed field by field. *)
Definition compose (T : buf_table) (this : ret_buf) (op : OpType) (id txn : Z)
    (ack : OpAck) (tbl key : Z) : buf_table :=
  let T1 := set_op T this op in
  let T2 := set_op_id T1 this id in
  let T3 := set_txn T2 this txn in
  let T4 := set_ack T3 this ack in
  let T5 := set_tbl T4 this tbl in
  set_key T5 this key.

Lemma set_field_job T this w v f :
  set_field T this w v f = JobBuf.set_field T (as_job this) w v f.
Proof. reflexivity. Qed.

#[local] Hint Resolve JobBuf.valid_set_field : core.

(** Reading a field through a stack of writes: skip the writes of other
    fields, then read the field's own write. *)
Ltac field_chain :=
  repeat (rewrite JobBuf.parse_set_other by (auto 10; simpl; lia));
  rewrite JobBuf.parse_set_same; [|auto 10|simpl; lia..].

(** A reply header composed with the setters of [ret_buf] parses,
    with the getters of [job_buf] and of [ret_buf] alike, to exactly the
    values written, for every operation, acknowledgement and in-range
    identifiers, once the message covers the header. *)
Theorem header_roundtrip T this op id txn ack tbl key :
  valid_ref T (ref this) -> 9 <= buffer_size_ this -> op <> MAX_OP_VALUE ->
  0 <= id < 256 -> 0 <= txn < 2 ^ 32 -> 0 <= tbl < 256 -> 0 <= key < 256 ->
  let T' := compose T this op id txn ack tbl key in
  (get_op T' this = Ok op /\ get_op_id T' this = Ok id /\ get_txn T' this = Ok txn /\
   get_ack T' this = Ok ack /\ get_tbl T' this = Ok tbl /\ get_key T' this = Ok key) /\
  (JobBuf.get_op T' (as_job this) = Ok op /\ JobBuf.get_op_id T' (as_job this) = Ok id /\
   JobBuf.get_txn T' (as_job this) = Ok txn /\ JobBuf.get_ack T' (as_job this) = Ok ack /\
   JobBuf.get_tbl T' (as_job this) = Ok tbl /\ JobBuf.get_key T' (as_job this) = Ok key).
Proof.
  intros Hv Hs Hop Hid Htxn Htbl Hkey T'.
  enough (H : JobBuf.get_op T' (as_job this) = Ok op /\
     JobBuf.get_op_id T' (as_job this) = Ok id /\ JobBuf.get_txn T' (as_job this) = Ok txn /\
     JobBuf.get_ack T' (as_job this) = Ok ack /\ JobBuf.get_tbl T' (as_job this) = Ok tbl /\
     JobBuf.get_key T' (as_job this) = Ok key) by (split; exact H).
  destruct this as [r sz]. unfold as_job. simpl in Hs |- *.
  change (valid_ref T (JobBuf.ref (JobBuf.mkJobBuf r sz))) in Hv.
  pose proof (OpType_value_bounds op). pose proof (OpAck_value_bounds ack).
  unfold T', compose, set_op, set_op_id, set_txn, set_ack, set_tbl, set_key.
  rewrite !set_field_job. unfold as_job. simpl ref. simpl buffer_size_.
  unfold JobBuf.get_op, JobBuf.get_op_id, JobBuf.get_txn, JobBuf.get_ack, JobBuf.get_tbl,
    JobBuf.get_key, JobBuf.get_raw.
  split_and!; field_chain.
  - destruct (Z.leb_spec (OpType_value MAX_OP_VALUE) (OpType_value op)).
    + destruct op; simpl in *; lia || done.
    + by rewrite OpType_of_value.
  - done.
  - done.
  - destruct (Z.ltb_spec (OpAck_value DEAD_TXN) (OpAck_value ack)); [simpl in *; lia|].
    by rewrite OpAck_of_value.
  - done.
  - done.
Qed.

(** [set_string] followed by [get_string] returns the string
    whenever it fits the buffer; a longer string is refused without touching
    anything, except that the 16-bit length field makes a string of 65536 or
    more bytes lose all but its first [length mod 65536] bytes. *)
Theorem string_roundtrip T this str :
  valid_ref T (ref this) ->
  let n := u16 (Z.of_nat (length str)) in
  let '(T', this') := set_string T this str in
  (BUFFER_WIDTH < 11 + n -> T' = T /\ this' = this) /\
  (11 + n <= BUFFER_WIDTH ->
     get_string T' this' = take (Z.to_nat n) str /\ buffer_size_ this' = 11 + n /\
     valid_ref T' (ref this')) /\
  (Z.of_nat (length str) < 65536 -> take (Z.to_nat n) str = str).
Proof.
  intros Hv n. unfold set_string. fold n.
  assert (Hn : 0 <= n < 65536) by (apply Z.mod_pos_bound; lia).
  assert (Hlong : Z.of_nat (length str) < 65536 -> take (Z.to_nat n) str = str).
  { intros. apply take_ge. unfold n. rewrite u16_small; lia. }
  change (Z.of_nat (offset JobBuf.TUPLE + 2)) with 11.
  destruct (Z.ltb_spec BUFFER_WIDTH (11 + n)) as [Hbig|Hfit].
  { split_and!; [done|lia|done]. }
  split_and!; [lia| |done]. intros _. cbn [ref buffer_size_].
  set (s := take (Z.to_nat n) str).
  assert (Hs : length s = Z.to_nat n).
  { unfold s. rewrite length_take. unfold n, u16.
    pose proof (Z.mod_le (Z.of_nat (length str)) (2 ^ 16) ltac:(lia) ltac:(lia)). lia. }
  pose proof Hv as Hw. unfold valid_ref in Hw.
  set (buf := buffer T (ref this)) in *.
  set (b1 := write buf (offset JobBuf.TUPLE) (le_bytes 2 n)).
  assert (H1 : length b1 = length buf).
  { apply write_length. rewrite length_le_bytes. unfold BUFFER_WIDTH in *. simpl. lia. }
  assert (H2 : (offset JobBuf.TUPLE + 2 + length s <= length b1)%nat).
  { rewrite H1, Hs. simpl. lia. }
  assert (Hr : read b1 (offset JobBuf.TUPLE) 2 = le_bytes 2 n).
  { apply (read_write_same buf (offset JobBuf.TUPLE) (le_bytes 2 n)).
    unfold BUFFER_WIDTH in *. simpl. lia. }
  split_and!; [|done|].
  - unfold get_string. cbn [ref buffer_size_]. rewrite JobBuf.buffer_store by done.
    change (Z.of_nat (offset JobBuf.TUPLE + 2)) with 11.
    destruct (Z.ltb_spec (11 + n) 11); [lia|].
    rewrite (read_write_other b1 _ s H2) by lia.
    rewrite Hr, le_value_bytes by (simpl; lia).
    destruct (Z.ltb_spec (11 + n) (11 + n)); [lia|]. rewrite <- Hs.
    apply read_write_same. exact H2.
  - unfold valid_ref. rewrite JobBuf.buffer_store by done. rewrite write_length by done. lia.
Qed.

(** ** Witnesses *)

Definition sample_ref : ret_buf := mkRetBuf (Some 0%nat) 20.

Lemma sample_valid : valid_ref (JobBuf.one_slot []) (ref sample_ref).
Proof. apply JobBuf.one_slot_valid. simpl. lia. Qed.

Lemma header_roundtrip_witness :
  JobBuf.get_txn (compose (JobBuf.one_slot []) sample_ref UPDATE 7 45678 BUSY 1 127)
    (as_job sample_ref) = Ok 45678.
Proof.
  apply (header_roundtrip (JobBuf.one_slot []) sample_ref UPDATE 7 45678 BUSY 1 127);
    [exact sample_valid|simpl; lia|discriminate|lia..].
Defined.

Lemma string_roundtrip_witness :
  let '(T', this') := set_string (JobBuf.one_slot []) sample_ref [72; 105] in
  get_string T' this' = [72; 105].
Proof.
  pose proof (string_roundtrip (JobBuf.one_slot []) sample_ref [72; 105] sample_valid) as H.
  cbv zeta in H. destruct (set_string (JobBuf.one_slot []) sample_ref [72; 105]) as [T' this'].
  destruct H as (_ & H & _). apply H. unfold BUFFER_WIDTH. vm_compute. discriminate.
Defined.
