(* ===== verification/StudentTuple.v ===== *)
(** * Student records

    [StudentTuple] ([types/student_table.h], [student_table.cpp]) and
    [array_cmp] ([tools.h]).  Whether [char] is signed depends on the target
    (it is on x86-64, not on aarch64 and riscv64), so the definitions that
    read a [char] as a number take that as a parameter. *)
From S2P Require Import Prelude Params Bytes.

Record StudentTuple := mkStudent {
  checksum_ : Z;
  tickstamp_ : Z;
  name_ : list Z;
  age_ : Z;
  key_ : Z
}.

Definition NAME_LENGTH : nat := 32.

(** [StudentTuple()] *)
Definition student_default : StudentTuple :=
  mkStudent 0 0 (replicate NAME_LENGTH 0) 0 0.

Record student_wf (t : StudentTuple) : Prop := {
  wf_checksum : 0 <= checksum_ t < 2 ^ 32;
  wf_tick : 0 <= tickstamp_ t < 2 ^ 32;
  wf_name : length (name_ t) = NAME_LENGTH;
  wf_name_bytes : Forall is_byte (name_ t);
  wf_age : is_byte (age_ t);
  wf_key : is_byte (key_ t)
}.

(** The copy constructor, [copy_from_] and [operator=]: member by member. *)
Definition student_copy (other : StudentTuple) : StudentTuple :=
  mkStudent (checksum_ other) (tickstamp_ other) (name_ other) (age_ other) (key_ other).
Definition copy_from_ (this other : StudentTuple) : StudentTuple :=
  mkStudent (checksum_ other) (tickstamp_ other) (name_ other) (age_ other) (key_ other).
Definition student_assign (this other : StudentTuple) : StudentTuple :=
  mkStudent (checksum_ other) (tickstamp_ other) (name_ other) (age_ other) (key_ other).

Section Char.
Context (char_signed : bool).

(** The value of a [char] whose byte is [c]. *)
Definition char_value (c : Z) : Z := if char_signed then s8 c else c.

Definition compute_checksum (this : StudentTuple) : Z :=
  let result := foldl (fun result c => u32 (result + u32 (char_value c))) 0 (name_ this) in
  u32 (result + u32 (age_ this)).

Definition set_checksum_ (this : StudentTuple) : StudentTuple :=
  mkStudent (compute_checksum this) (tickstamp_ this) (name_ this) (age_ this) (key_ this).

Definition val_checksum_ (this : StudentTuple) : bool :=
  checksum_ this =? compute_checksum this.

(** [StudentTuple(name, age, key)]: the [memcpy] of the name is undefined
    behaviour when the name is longer than the array. *)
Definition student_make (_name : list Z) (_age _key : Z) : outcome StudentTuple :=
  if (NAME_LENGTH <? length _name)%nat then Undef
  else Ret (set_checksum_
    (mkStudent 0 0 (write (replicate NAME_LENGTH 0) 0 _name) _age _key)).

(** [array_cmp] of [tools.h] on two arrays of the same length. *)
Fixpoint array_cmp (a b : list Z) : Z :=
  match a, b with
  | x :: a', y :: b' =>
      if negb (x =? y) then (if char_value x <? char_value y then -1 else 1)
      else if x =? 0 then 0
      else array_cmp a' b'
  | _, _ => 0
  end.

Definition student_equals_ (this other : StudentTuple) : bool :=
  (key_ this =? key_ other) && (array_cmp (name_ this) (name_ other) =? 0)
  && (age_ this =? age_ other).
End Char.

Definition set_tickstamp_ (this : StudentTuple) (_tickstamp : Z) : StudentTuple :=
  mkStudent (checksum_ this) _tickstamp (name_ this) (age_ this) (key_ this).
Definition read_tickstamp_ (this : StudentTuple) : Z := tickstamp_ this.
Definition student_key (this : StudentTuple) : Z := key_ this.
Definition student_hash_ (this : StudentTuple) : Z := key_ this.
Definition copy_ (this : StudentTuple) : StudentTuple := student_copy this.

Definition _test_age (this : StudentTuple) : Z := age_ this.

(** [std::string(name_.data())] reads up to the first zero byte; without one
    it reads past the array. *)
Definition _test_name (this : StudentTuple) : outcome (list Z) :=
  match list_find (fun c => c = 0) (name_ this) with
  | Some (n, _) => Ret (take n (name_ this))
  | None => Undef
  end.

(** What a name without zero bytes becomes: up to 31 bytes it is read back,
    with 32 it fills the array and the test accessor runs past it, and beyond
    that already the constructor writes out of bounds. *)
Lemma test_name_make char_signed ns age key :
  0 ∉ ns ->
  (t ← student_make char_signed ns age key; _test_name t) =
    if (length ns <? NAME_LENGTH)%nat then Ret ns else Undef.
Proof.
  intros Hz. unfold student_make. destruct (Nat.ltb_spec NAME_LENGTH (length ns)) as [H|H].
  { by rewrite (proj2 (Nat.ltb_ge _ _)) by lia. }
  rewrite outcome_bind_ret. unfold _test_name, set_checksum_. cbn [name_].
  assert (E : write (replicate NAME_LENGTH 0) 0 ns = ns ++ replicate (NAME_LENGTH - length ns) 0).
  { unfold write. rewrite take_0, drop_replicate. done. }
  rewrite E. destruct (Nat.ltb_spec (length ns) NAME_LENGTH) as [Hlt|Hge].
  - assert (list_find (fun c => c = 0) (ns ++ replicate (NAME_LENGTH - length ns) 0) =
      Some (length ns, 0)) as ->; [|by rewrite take_app_length].
    apply list_find_app_Some. right. split_and!; [lia| |].
    + apply list_find_None, list.Forall_forall. intros c Hc ->. by apply Hz.
    + rewrite Nat.sub_diag. destruct (NAME_LENGTH - length ns)%nat eqn:E2; [lia|done].
  - replace (NAME_LENGTH - length ns)%nat with 0%nat by lia. simpl. rewrite app_nil_r.
    assert (list_find (fun c => c = 0) ns = None) as ->; [|done].
    apply list_find_None, list.Forall_forall. intros c Hc ->. by apply Hz.
Qed.

(** ** Serialization: name, age, checksum *)

Definition SERIAL_SIZE : nat := 37.

Definition serialize_ (this : StudentTuple) (_buffer : list Z) (_offset : nat)
    : list Z * Result Z SerializerError :=
  let b1 := write _buffer _offset (take NAME_LENGTH (name_ this)) in
  let b2 := write b1 (_offset + NAME_LENGTH) (le_bytes 1 (age_ this)) in
  let b3 := write b2 (_offset + NAME_LENGTH + 1) (le_bytes 4 (checksum_ this)) in
  (b3, Ok (4 + Z.of_nat NAME_LENGTH + 1)).

Definition deserialize_ (this : StudentTuple) (_buffer : list Z) (_offset : nat)
    : StudentTuple * Result Z SerializerError :=
  (mkStudent (le_value (read _buffer (_offset + NAME_LENGTH + 1) 4))
             (tickstamp_ this)
             (read _buffer _offset NAME_LENGTH)
             (le_value (read _buffer (_offset + NAME_LENGTH) 1))
             (key_ this),
   Ok (4 + Z.of_nat NAME_LENGTH + 1)).

(** ** The object representation

    The worker parks a tuple in a buffer with [memcpy(&tuple,
    sizeof(tuple))].  The members are laid out in order at offsets 0, 4, 8, 40
    and 41; alignment 4 pads the size to 44.  The value of the two padding
    bytes is unspecified; zero stands for it. *)

Definition SIZEOF_STUDENT : nat := 44.

Definition object_bytes (t : StudentTuple) : list Z :=
  le_bytes 4 (checksum_ t) ++ le_bytes 4 (tickstamp_ t) ++ name_ t ++
  le_bytes 1 (age_ t) ++ le_bytes 1 (key_ t) ++ [0; 0].

Definition of_object_bytes (bs : list Z) : StudentTuple :=
  mkStudent (le_value (read bs 0 4)) (le_value (read bs 4 4)) (read bs 8 NAME_LENGTH)
    (le_value (read bs 40 1)) (le_value (read bs 41 1)).

(** ** Lemmas *)

Lemma student_default_wf : student_wf student_default.
Proof.
  split; simpl; try lia; try done; try (unfold is_byte; lia).
  repeat constructor; unfold is_byte; lia.
Qed.

Lemma object_bytes_length t : student_wf t -> length (object_bytes t) = SIZEOF_STUDENT.
Proof.
  intros Hwf. unfold object_bytes. rewrite !length_app, !length_le_bytes, (wf_name _ Hwf).
  done.
Qed.

(** [memcpy] out of the object and back is the identity. *)
Lemma of_object_bytes_spec t rest :
  student_wf t -> of_object_bytes (object_bytes t ++ rest) = t.
Proof.
  intros [Hc Ht Hn _ Ha Hk]. unfold is_byte in *. destruct t as [c tick n a k]. simpl in *.
  unfold of_object_bytes, object_bytes. simpl name_. rewrite <- !app_assoc.
  pose proof (le_value_bytes 4 c ltac:(lia)) as Hc'.
  pose proof (le_value_bytes 4 tick ltac:(lia)) as Ht'.
  pose proof (le_value_bytes 1 a ltac:(lia)) as Ha'.
  pose proof (le_value_bytes 1 k ltac:(lia)) as Hk'.
  unfold read. simpl checksum_. simpl tickstamp_. simpl age_. simpl key_.
  assert (Hd : forall l : list Z, drop 32 (n ++ l) = l) by (intros; by apply drop_app_length').
  assert (Htk : forall l : list Z, take NAME_LENGTH (n ++ l) = n)
    by (intros; by apply take_app_length').
  cbn [le_bytes app drop take] in *.
  change 40%nat with (8 + 32)%nat. change 41%nat with (8 + 33)%nat.
  cbn [Nat.add drop]. rewrite take_0, drop_0, Htk.
  replace (drop 32 (n ++ _)) with (a mod 256 :: k mod 256 :: 0 :: 0 :: rest) by (by rewrite Hd).
  replace (drop 33 (n ++ _)) with (k mod 256 :: 0 :: 0 :: rest).
  2: { change 33%nat with (32 + 1)%nat. by rewrite <- drop_drop, Hd. }
  cbn [take]. by rewrite Hc', Ht', Ha', Hk'.
Qed.

(** The image survives in the first 44 bytes of a buffer. *)
Lemma of_object_bytes_write t buf :
  student_wf t -> (SIZEOF_STUDENT <= length buf)%nat ->
  of_object_bytes (write buf 0 (object_bytes t)) = t.
Proof. intros Hwf Hlen. unfold write. simpl. by apply of_object_bytes_spec. Qed.

Section Serial.
Context (this : StudentTuple) (buf : list Z) (off : nat).
Context (Hwf : student_wf this) (Hfit : (off + SERIAL_SIZE <= length buf)%nat).

Let b1 := write buf off (take NAME_LENGTH (name_ this)).
Let b2 := write b1 (off + NAME_LENGTH) (le_bytes 1 (age_ this)).
Let b3 := write b2 (off + NAME_LENGTH + 1) (le_bytes 4 (checksum_ this)).

Lemma serial_name_take : take NAME_LENGTH (name_ this) = name_ this.
Proof. apply take_ge. by rewrite (wf_name _ Hwf). Qed.

Lemma serial_lengths :
  length b1 = length buf /\ length b2 = length buf /\ length b3 = length buf.
Proof.
  assert (H1 : length b1 = length buf).
  { apply write_length. rewrite serial_name_take, (wf_name _ Hwf).
    unfold NAME_LENGTH, SERIAL_SIZE in *. lia. }
  assert (H2 : length b2 = length buf).
  { rewrite <- H1. apply write_length. rewrite H1. unfold NAME_LENGTH, SERIAL_SIZE in *.
    simpl. lia. }
  split_and!; [done..|]. rewrite <- H2. apply write_length. rewrite H2.
  unfold NAME_LENGTH, SERIAL_SIZE in *. simpl. lia.
Qed.

Lemma serialize_eq : (serialize_ this buf off).1 = b3.
Proof. reflexivity. Qed.

Lemma serial_reads :
  read b3 off NAME_LENGTH = name_ this /\
  read b3 (off + NAME_LENGTH) 1 = le_bytes 1 (age_ this) /\
  read b3 (off + NAME_LENGTH + 1) 4 = le_bytes 4 (checksum_ this).
Proof.
  destruct serial_lengths as (H1 & H2 & H3).
  pose proof (wf_name _ Hwf) as Hn. unfold NAME_LENGTH, SERIAL_SIZE in *.
  assert (F2 : (off + 32 + length (le_bytes 1 (age_ this)) <= length b1)%nat)
    by (rewrite H1; simpl; lia).
  assert (F3 : (off + 32 + 1 + length (le_bytes 4 (checksum_ this)) <= length b2)%nat)
    by (rewrite H2; simpl; lia).
  split_and!.
  - unfold b3. rewrite read_write_other by (done || simpl; lia).
    unfold b2. rewrite read_write_other by (done || simpl; lia).
    unfold b1. rewrite take_ge by (rewrite Hn; done). rewrite <- Hn at 1.
    apply read_write_same. lia.
  - unfold b3. rewrite read_write_other by (done || simpl; lia).
    apply (read_write_same b1 (off + 32) (le_bytes 1 (age_ this)) F2).
  - apply (read_write_same b2 (off + 32 + 1) (le_bytes 4 (checksum_ this)) F3).
Qed.

Lemma serial_outside off' n :
  (off' + n <= off)%nat \/ (off + SERIAL_SIZE <= off')%nat ->
  read b3 off' n = read buf off' n.
Proof.
  destruct serial_lengths as (H1 & H2 & H3). intros Hd.
  pose proof (wf_name _ Hwf) as Hn. unfold NAME_LENGTH, SERIAL_SIZE in *.
  unfold b3. rewrite read_write_other by (rewrite ?H2; simpl; lia).
  unfold b2. rewrite read_write_other by (rewrite ?H1; simpl; lia).
  assert (L : length (take 32 (name_ this)) = 32%nat) by (rewrite length_take; lia).
  unfold b1, NAME_LENGTH. apply read_write_other; rewrite L; lia.
Qed.
End Serial.

(** ** The checksum as a sum modulo 2^32 *)

Section Checksum.
Context (char_signed : bool).

Definition char_sum (l : list Z) : Z := foldr (fun c acc => char_value char_signed c + acc) 0 l.

Lemma checksum_fold l acc :
  foldl (fun r c => u32 (r + u32 (char_value char_signed c))) (u32 acc) l =
  u32 (acc + char_sum l).
Proof.
  revert acc; induction l as [|c l IH]; intros acc; simpl.
  - f_equal. lia.
  - rewrite u32_add, IH. f_equal. lia.
Qed.

Lemma compute_checksum_sum t :
  compute_checksum char_signed t = u32 (char_sum (name_ t) + age_ t).
Proof.
  unfold compute_checksum. change 0 with (u32 0) at 1. rewrite checksum_fold.
  by rewrite u32_add, Z.add_0_l.
Qed.

Lemma char_value_diff c c' :
  is_byte c -> is_byte c' -> c <> c' ->
  char_value char_signed c <> char_value char_signed c' /\
  -256 < char_value char_signed c - char_value char_signed c' < 256.
Proof.
  unfold is_byte, char_value. intros. destruct char_signed; [|lia].
  unfold s8. pose proof (Z.mod_pos_bound (c + 2 ^ 7) (2 ^ 8)).
  pose proof (Z.mod_pos_bound (c' + 2 ^ 7) (2 ^ 8)).
  pose proof (Z.div_mod (c + 2 ^ 7) (2 ^ 8)). pose proof (Z.div_mod (c' + 2 ^ 7) (2 ^ 8)).
  split; [|lia]. lia.
Qed.

Lemma char_sum_insert l i c c' :
  l !! i = Some c ->
  char_sum (<[i := c']> l) = char_sum l - char_value char_signed c + char_value char_signed c'.
Proof.
  revert i; induction l as [|x l IH]; intros [|i] Hi; simplify_eq/=; [lia|].
  rewrite (IH i) by done. lia.
Qed.

Lemma u32_diff a b : u32 a = u32 b -> -256 < a - b < 256 -> a = b.
Proof.
  unfold u32. intros He Hd. pose proof (Z.div_mod a (2 ^ 32)).
  pose proof (Z.div_mod b (2 ^ 32)). lia.
Qed.
End Checksum.

(** ** Names as C strings *)

(** The characters before the terminating zero, if any. *)
Fixpoint c_str (l : list Z) : list Z :=
  match l with
  | [] => []
  | c :: l' => if c =? 0 then [] else c :: c_str l'
  end.

Lemma char_value_inj sg c c' :
  is_byte c -> is_byte c' -> char_value sg c = char_value sg c' -> c = c'.
Proof.
  intros H H' He. destruct (decide (c = c')) as [|Hne]; [done|].
  by destruct (char_value_diff sg c c' H H' Hne).
Qed.

Lemma array_cmp_c_str sg a b :
  length a = length b -> array_cmp sg a b = 0 <-> c_str a = c_str b.
Proof.
  revert b; induction a as [|x a IH]; intros [|y b] Hl; try done.
  injection Hl as Hl. simpl. destruct (Z.eqb_spec x y) as [<-|Hne]; simpl.
  - destruct (Z.eqb_spec x 0); [done|]. rewrite IH by done.
    split; [by intros ->|by intros [= ->]].
  - split.
    + by destruct (_ <? _).
    + destruct (Z.eqb_spec x 0), (Z.eqb_spec y 0); intros; simplify_eq; congruence.
Qed.

Lemma array_cmp_antisym sg a b :
  Forall is_byte a -> Forall is_byte b -> array_cmp sg b a = - array_cmp sg a b.
Proof.
  intros Ha. revert b; induction Ha as [|x a Hx Ha IH]; intros [|y b] Hb; try done.
  apply Forall_cons_1 in Hb as [Hy Hb]. simpl. rewrite (Z.eqb_sym y x).
  destruct (Z.eqb_spec x y) as [<-|Hne]; simpl.
  - destruct (x =? 0); [done|]. by apply IH.
  - pose proof (char_value_diff sg x y Hx Hy Hne) as [Hd _].
    destruct (Z.ltb_spec (char_value sg x) (char_value sg y)),
      (Z.ltb_spec (char_value sg y) (char_value sg x)); lia.
Qed.

(** ** Properties *)

Definition with_name (t : StudentTuple) (n : list Z) : StudentTuple :=
  mkStudent (checksum_ t) (tickstamp_ t) n (age_ t) (key_ t).
Definition with_age (t : StudentTuple) (a : Z) : StudentTuple :=
  mkStudent (checksum_ t) (tickstamp_ t) (name_ t) a (key_ t).

(** C38.  Serializing a record and deserializing it over any record gives
    back the name, the age and the checksum (37 bytes) but keeps the target's
    key and timestamp, so its checksum validates exactly when the original's
    did; bytes outside the 37 are not touched. *)
Theorem serialize_roundtrip sg this that buf off :
  student_wf this -> (off + SERIAL_SIZE <= length buf)%nat ->
  let '(buf', r) := serialize_ this buf off in
  let '(t', r') := deserialize_ that buf' off in
  r = Ok 37 /\ r' = Ok 37 /\
  t' = mkStudent (checksum_ this) (tickstamp_ that) (name_ this) (age_ this) (key_ that) /\
  val_checksum_ sg t' = val_checksum_ sg this /\
  length buf' = length buf /\
  (forall o n, (o + n <= off)%nat \/ (off + SERIAL_SIZE <= o)%nat ->
     read buf' o n = read buf o n).
Proof.
  intros Hwf Hfit.
  destruct (serial_reads this buf off Hwf Hfit) as (Rn & Ra & Rc).
  destruct (serial_lengths this buf off Hwf Hfit) as (_ & _ & L3).
  pose proof (serial_outside this buf off Hwf Hfit) as Hout.
  unfold serialize_, deserialize_. cbv beta iota zeta. rewrite Rn, Ra, Rc.
  pose proof (wf_checksum _ Hwf). pose proof (wf_age _ Hwf) as Hage. unfold is_byte in Hage.
  rewrite !le_value_bytes by (simpl; lia).
  split_and!; [reflexivity|reflexivity|done| |done|done].
  unfold val_checksum_. by rewrite !compute_checksum_sum.
Qed.

(** The checksum detects every corruption of a single character
    of the name and every corruption of the age, on targets with a signed and
    with an unsigned [char]. *)
Theorem checksum_detects sg t :
  student_wf t -> val_checksum_ sg t = true ->
  (forall i c c', name_ t !! i = Some c -> is_byte c' -> c <> c' ->
     val_checksum_ sg (with_name t (<[i := c']> (name_ t))) = false) /\
  (forall a, is_byte a -> a <> age_ t -> val_checksum_ sg (with_age t a) = false).
Proof.
  intros Hwf Hv. unfold val_checksum_ in *. apply Z.eqb_eq in Hv.
  rewrite compute_checksum_sum in Hv. pose proof (wf_age _ Hwf) as Hage.
  split.
  - intros i c c' Hi Hb Hne. apply Z.eqb_neq. simpl. rewrite Hv, compute_checksum_sum.
    simpl. rewrite (char_sum_insert _ _ _ c) by done. intros He.
    assert (is_byte c).
    { pose proof (wf_name_bytes _ Hwf) as Hf. rewrite Forall_lookup in Hf. eauto. }
    destruct (char_value_diff sg c c') as [Hd Hlt]; [done..|].
    apply u32_diff in He; lia.
  - intros a Ha Hne. apply Z.eqb_neq. simpl. rewrite Hv, compute_checksum_sum. simpl.
    unfold is_byte in *. intros He. apply u32_diff in He; lia.
Qed.

(** Records compare equal exactly when key, age and the names as
    C strings (up to the first zero) agree, and the sign of [array_cmp] is
    antisymmetric. *)
Theorem student_equals_spec sg t t' :
  student_wf t -> student_wf t' ->
  (student_equals_ sg t t' = true <->
     key_ t = key_ t' /\ c_str (name_ t) = c_str (name_ t') /\ age_ t = age_ t') /\
  array_cmp sg (name_ t') (name_ t) = - array_cmp sg (name_ t) (name_ t').
Proof.
  intros Hwf Hwf'. split; [|apply array_cmp_antisym; by apply wf_name_bytes].
  unfold student_equals_. rewrite !andb_true_iff, !Z.eqb_eq.
  rewrite array_cmp_c_str by (by rewrite (wf_name _ Hwf), (wf_name _ Hwf')). tauto.
Qed.

(** A record parked in a buffer as raw object bytes is read back
    unchanged, key and timestamp included. *)
Theorem object_image_roundtrip t buf :
  student_wf t -> (SIZEOF_STUDENT <= length buf)%nat ->
  of_object_bytes (write buf 0 (object_bytes t)) = t /\
  length (write buf 0 (object_bytes t)) = length buf.
Proof.
  intros Hwf Hlen. split; [by apply of_object_bytes_write|].
  apply write_length. rewrite object_bytes_length; done.
Qed.

(** ** Witnesses *)

(** "Brian", 25, key 42 *)
Definition brian : StudentTuple :=
  set_checksum_ true (mkStudent 0 0 ([66; 114; 105; 97; 110] ++ replicate 27 0) 25 42).

Lemma brian_wf : student_wf brian.
Proof.
  split; try (vm_compute; split; [discriminate|reflexivity]); [reflexivity|].
  repeat (constructor; [vm_compute; split; [discriminate|reflexivity]|]). constructor.
Qed.

Lemma serialize_roundtrip_witness :
  name_ (deserialize_ student_default (serialize_ brian (replicate 64 0) 9).1 9).1 =
    name_ brian.
Proof.
  pose proof (serialize_roundtrip true brian student_default (replicate 64 0) 9 brian_wf) as H.
  assert (Hfit : (9 + SERIAL_SIZE <= length (replicate 64 0))%nat)
    by (apply Nat.leb_le; reflexivity).
  specialize (H Hfit). destruct (serialize_ brian (replicate 64 0) 9) as [buf' r].
  simpl in *. destruct H as (_ & _ & H & _).
  exact (f_equal name_ H).
Defined.

Lemma checksum_detects_witness :
  val_checksum_ true brian = true /\
  val_checksum_ true (with_name brian (<[1%nat := 115]> (name_ brian))) = false.
Proof.
  split; [vm_compute; reflexivity|].
  destruct (checksum_detects true brian brian_wf) as [H _]; [vm_compute; reflexivity|].
  apply (H 1%nat 114 115); [reflexivity|unfold is_byte; lia|lia].
Defined.

Lemma student_equals_spec_witness :
  student_equals_ true brian brian = true <->
    key_ brian = key_ brian /\ c_str (name_ brian) = c_str (name_ brian) /\
    age_ brian = age_ brian.
Proof. apply (student_equals_spec true brian brian brian_wf brian_wf). Defined.

Lemma object_image_roundtrip_witness :
  of_object_bytes (write (replicate 64 7) 0 (object_bytes brian)) = brian.
Proof.
  apply (object_image_roundtrip brian (replicate 64 7) brian_wf).
  apply Nat.leb_le. reflexivity.
Defined.
