(* ===== verification/StudentTable.v ===== *)
(** * The student table

    [StudentTable] ([types/student_table.h], [student_table.cpp]): ten slots,
    linear probing by key, a lock word per record ([-1] exclusive, [n >= 0]
    shared holders) and counters of how many records can still be locked.
    Every function runs under the table's mutex; where it waits, the argument
    [env] is what other threads do to the table in the meantime.  References
    to records are slot numbers. *)
From S2P Require Import Prelude Params Probe StudentTuple.

Record Entry := mkEntry {
  tuple_ : StudentTuple;
  lock_ : Z;
  is_used_ : bool;
  is_deleted_ : bool
}.

Record StudentTable := mkTable {
  table_ : list Entry;
  s_avail_cnt_ : Z;
  x_avail_cnt_ : Z;
  entry_count_ : Z;
  next_key_ : Z
}.

Definition Rows : nat := 10.

(** [Entry()] and [StudentTable()] *)
Definition entry_default : Entry := mkEntry student_default 0 false false.
Definition table_default : StudentTable := mkTable (replicate Rows entry_default) 0 0 0 0.

Definition entry_key (e : Entry) : Z := key_ (tuple_ e).

(** [_key % Rows] *)
Definition home (k : Z) : nat := Z.to_nat (k `mod` Z.of_nat Rows).

Definition size_ (this : StudentTable) : Z := entry_count_ this.
Definition empty_ (this : StudentTable) : bool := entry_count_ this =? 0.
Definition full_ (this : StudentTable) : bool := entry_count_ this =? Z.of_nat Rows.

Definition set_table (this : StudentTable) (t : list Entry) : StudentTable :=
  mkTable t (s_avail_cnt_ this) (x_avail_cnt_ this) (entry_count_ this) (next_key_ this).

(** [tuple_.key_ = k] *)
Definition with_key (t : StudentTuple) (k : Z) : StudentTuple :=
  mkStudent (checksum_ t) (tickstamp_ t) (name_ t) (age_ t) k.

(** ** Records *)

Definition insert_ (env : StudentTable -> StudentTable) (this : StudentTable)
    (_tuple : StudentTuple) : outcome (StudentTable * Result nat StudentTableError) :=
  this ← wait env (fun t => negb (full_ t)) this;
  of_loop (while_true Rows (fun idx =>
    match table_ this !! idx with
    | Some e =>
        if negb (is_used_ e) || is_deleted_ e then
          let e' := mkEntry (with_key _tuple (next_key_ this)) 0 true false in
          Some (mkTable (<[idx := e']> (table_ this)) (u8 (s_avail_cnt_ this + 1))
                  (u8 (x_avail_cnt_ this + 1)) (u64 (entry_count_ this + 1))
                  (u8 (next_key_ this + 1)), Ok idx)
        else None
    | None => None
    end) Rows (home (next_key_ this))).

Definition search_ (this : StudentTable) (_key : Z) : Result nat StudentTableError :=
  match do_while Rows (fun idx =>
    match table_ this !! idx with
    | Some e =>
        if negb (is_used_ e) then Some (Err StudentTableError_NotFound)
        else if (entry_key e =? _key) && negb (is_deleted_ e) then Some (Ok idx)
        else None
    | None => None
    end) Rows (home _key) (home _key) with
  | Some r => r
  | None => Err StudentTableError_NotFound
  end.

(** The accessors for tests: the slot itself and the two counters. *)
Definition _test_get_entry (this : StudentTable) (_key : Z) : Result nat StudentTableError :=
  match do_while Rows (fun idx =>
    match table_ this !! idx with
    | Some e =>
        if negb (is_used_ e) then Some (Err StudentTableError_NotFound)
        else if (entry_key e =? _key) && negb (is_deleted_ e) then Some (Ok idx)
        else None
    | None => None
    end) Rows (home _key) (home _key) with
  | Some r => r
  | None => Err StudentTableError_NotFound
  end.
Definition _test_s_avail_cnt (this : StudentTable) : Z := s_avail_cnt_ this.
Definition _test_x_avail_cnt (this : StudentTable) : Z := x_avail_cnt_ this.

(** The loop shared by [remove_], [write_], [promote_] and [release_]: the
    slot whose record has the key and is not deleted. *)
Definition locate (this : StudentTable) (_key : Z) : outcome nat :=
  of_loop (while_true Rows (fun idx =>
    match table_ this !! idx with
    | Some e =>
        if (entry_key e =? _key) && negb (is_deleted_ e) then Some idx else None
    | None => None
    end) Rows (home _key)).

Definition update_slot (this : StudentTable) (idx : nat) (f : Entry -> Entry)
    : list Entry := alter f idx (table_ this).

Definition set_lock (l : Z) (e : Entry) : Entry :=
  mkEntry (tuple_ e) l (is_used_ e) (is_deleted_ e).

Definition remove_ (this : StudentTable) (_key : Z)
    : outcome (StudentTable * StudentTableError) :=
  idx ← locate this _key;
  Ret (mkTable (update_slot this idx
                  (fun e => mkEntry (tuple_ e) (lock_ e) (is_used_ e) true))
         (s_avail_cnt_ this) (x_avail_cnt_ this) (u64 (entry_count_ this - 1))
         (next_key_ this), StudentTableError_None).

Definition write_ (this : StudentTable) (_tuple : StudentTuple)
    : outcome (StudentTable * StudentTableError) :=
  idx ← locate this (key_ _tuple);
  Ret (set_table this (update_slot this idx
         (fun e => mkEntry _tuple (lock_ e) (is_used_ e) (is_deleted_ e))),
       StudentTableError_None).

Definition clear_ (this : StudentTable) : StudentTable :=
  mkTable ((fun e => mkEntry (tuple_ e) 0 false false) <$> table_ this) 0 0 0 0.

(** ** Locks *)

(** The loops over the slots: the first record the lock can be granted on. *)
Definition grant_shared (this : StudentTable)
    : option (StudentTable * Result nat TupleTableError) :=
  for_return Rows 0 (fun i =>
    match table_ this !! i with
    | Some e =>
        if is_used_ e && negb (is_deleted_ e) && (0 <=? lock_ e) then
          let l := s8 (lock_ e + 1) in
          Some (mkTable (update_slot this i (set_lock l)) (s_avail_cnt_ this)
                  (if l =? 1 then u8 (x_avail_cnt_ this - 1) else x_avail_cnt_ this)
                  (entry_count_ this) (next_key_ this), Ok i)
        else None
    | None => None
    end).

Definition grant_exclusive (this : StudentTable)
    : option (StudentTable * Result nat TupleTableError) :=
  for_return Rows 0 (fun i =>
    match table_ this !! i with
    | Some e =>
        if is_used_ e && negb (is_deleted_ e) && (lock_ e =? 0) then
          Some (mkTable (update_slot this i (set_lock (-1)))
                  (u8 (s_avail_cnt_ this - 1)) (u8 (x_avail_cnt_ this - 1))
                  (entry_count_ this) (next_key_ this), Ok i)
        else None
    | None => None
    end).

Definition wait_shared_ (env1 env2 : StudentTable -> StudentTable) (this : StudentTable)
    : StudentTable * Result nat TupleTableError :=
  let '(this, b1) := wait_for env1 (fun t => negb (empty_ t)) this in
  if b1 then
    let '(this, b2) := wait_for env2 (fun t => 0 <? s_avail_cnt_ t) this in
    if b2 then
      match grant_shared this with
      | Some r => r
      | None => (this, Err TupleTableError_NotFound)
      end
    else (this, Err TupleTableError_Timeout)
  else (this, Err TupleTableError_Timeout).

Definition wait_exclusive_ (env1 env2 : StudentTable -> StudentTable) (this : StudentTable)
    : StudentTable * Result nat TupleTableError :=
  let '(this, b1) := wait_for env1 (fun t => negb (empty_ t)) this in
  if b1 then
    let '(this, b2) := wait_for env2 (fun t => 0 <? x_avail_cnt_ t) this in
    if b2 then
      match grant_exclusive this with
      | Some r => r
      | None => (this, Err TupleTableError_NotFound)
      end
    else (this, Err TupleTableError_Timeout)
  else (this, Err TupleTableError_Timeout).

(** The lock word of slot [idx] (0 out of range, which does not occur). *)
Definition lock_at (this : StudentTable) (idx : nat) : Z :=
  match table_ this !! idx with Some e => lock_ e | None => 0 end.

Definition promote_ (env : StudentTable -> StudentTable) (this : StudentTable) (_key : Z)
    : outcome (StudentTable * TupleTableError) :=
  idx ← locate this _key;
  let '(this, b) := wait_for env (fun t => lock_at t idx =? 1) this in
  if b then
    Ret (mkTable (update_slot this idx (set_lock (-1))) (u8 (s_avail_cnt_ this - 1))
           (x_avail_cnt_ this) (entry_count_ this) (next_key_ this), TupleTableError_None)
  else Ret (this, TupleTableError_Timeout).

Definition release_ (this : StudentTable) (_key : Z) : outcome StudentTable :=
  idx ← locate this _key;
  if lock_at this idx =? -1 then
    Ret (mkTable (update_slot this idx (set_lock 0)) (u8 (s_avail_cnt_ this + 1))
           (u8 (x_avail_cnt_ this + 1)) (entry_count_ this) (next_key_ this))
  else
    let l := s8 (lock_at this idx - 1) in
    Ret (mkTable (update_slot this idx (set_lock l)) (s_avail_cnt_ this)
           (if l =? 0 then u8 (x_avail_cnt_ this + 1) else x_avail_cnt_ this)
           (entry_count_ this) (next_key_ this)).

(** The notifications leave the table alone; the result says whether a
    condition variable is signalled. *)
Definition notify_shared_ (this : StudentTable) : bool := 0 <? s_avail_cnt_ this.
Definition notify_exclusive_ (this : StudentTable) : bool := 0 <? x_avail_cnt_ this.
Definition notify_not_empty_ (this : StudentTable) : bool := true.
Definition notify_not_full_ (this : StudentTable) : bool := true.

(** ** The abstract table

    What the table promises: it is a multiset of (record, lock word) pairs. *)

Abbreviation live_entry := (live is_used_ is_deleted_).
Abbreviation table_chain := (chain is_used_ is_deleted_ entry_key home Rows).
Abbreviation table_holder := (holder is_used_ is_deleted_ entry_key home Z.eqb Rows).
Abbreviation table_present := (present is_used_ is_deleted_ entry_key).

Definition row (e : Entry) : option (StudentTuple * Z) :=
  if live_entry e then Some (tuple_ e, lock_ e) else None.
Definition rows (this : StudentTable) : list (StudentTuple * Z) :=
  omap row (table_ this).

(** A record a shared, respectively exclusive, lock can be granted on. *)
Definition s_avail (e : Entry) : bool := live_entry e && (0 <=? lock_ e).
Definition x_avail (e : Entry) : bool := live_entry e && (lock_ e =? 0).

(** The lock word of a live record fits its type: exclusively locked, or a
    number of shared holders. *)
Definition lock_ok (e : Entry) : Prop := live_entry e = true -> -1 <= lock_ e <= 127.

Record table_wf (this : StudentTable) : Prop := {
  wf_length : length (table_ this) = Rows;
  wf_count : entry_count_ this = cnt live_entry (table_ this);
  wf_shared : s_avail_cnt_ this = cnt s_avail (table_ this);
  wf_exclusive : x_avail_cnt_ this = cnt x_avail (table_ this);
  wf_lock : forall i e, table_ this !! i = Some e -> lock_ok e;
  wf_next_key : is_byte (next_key_ this);
  wf_chain : table_chain (table_ this)
}.

Lemma table_home_lt k : (home k < Rows)%nat.
Proof.
  unfold home, Rows. pose proof (Z.mod_pos_bound k (Z.of_nat 10)). lia.
Qed.
#[export] Hint Resolve table_home_lt Z.eqb_eq : core.

Lemma all_dead_wf l :
  length l = Rows -> (forall e, e ∈ l -> live_entry e = false) ->
  table_wf (mkTable l 0 0 0 0) /\ rows (mkTable l 0 0 0 0) = [].
Proof.
  intros Hlen Hd.
  assert (Hi : forall i e, l !! i = Some e -> live_entry e = false).
  { intros i e Hi. apply Hd. by eapply list_elem_of_lookup_2. }
  split; [split; simpl|].
  - done.
  - by rewrite cnt_zero.
  - rewrite cnt_zero; [done|]. intros i e He. unfold s_avail. by rewrite (Hi i e He).
  - rewrite cnt_zero; [done|]. intros i e He. unfold x_avail. by rewrite (Hi i e He).
  - intros i e He ?. by rewrite (Hi i e He) in *.
  - by unfold is_byte.
  - by apply chain_no_live.
  - apply omap_none. intros e He. unfold row. by rewrite Hd.
Qed.

Lemma table_default_wf : table_wf table_default.
Proof.
  apply all_dead_wf; [done|]. intros e He. apply elem_of_replicate in He as [-> _]. done.
Qed.

(** Writing one slot: how the parts of the invariant and the multiset follow
    from what is written. *)
Section WriteSlot.
Context (this : StudentTable) (i : nat) (e e' : Entry).
Context (Hwf : table_wf this) (Hi : table_ this !! i = Some e).

Lemma counters_bounds :
  0 <= entry_count_ this <= 10 /\ 0 <= s_avail_cnt_ this <= 10 /\
  0 <= x_avail_cnt_ this <= 10.
Proof.
  destruct Hwf as [Hlen -> -> -> _ _ _].
  assert (H : forall p, 0 <= cnt p (table_ this) <= 10); [|auto].
  intros p. pose proof (cnt_nonneg p (table_ this)).
  pose proof (cnt_le_length p (table_ this)) as H1. rewrite Hlen in H1.
  change (Z.of_nat Rows) with 10 in H1. lia.
Qed.

Lemma counters_pos :
  (live_entry e = true -> 0 < entry_count_ this) /\
  (s_avail e = true -> 0 < s_avail_cnt_ this) /\
  (x_avail e = true -> 0 < x_avail_cnt_ this).
Proof.
  destruct Hwf as [_ -> -> -> _ _ _]. split_and!; intros; by eapply cnt_pos.
Qed.

Lemma table_wf_write n s x k :
  table_chain (<[i := e']> (table_ this)) -> lock_ok e' -> is_byte k ->
  n = entry_count_ this - Z.b2z (live_entry e) + Z.b2z (live_entry e') ->
  s = s_avail_cnt_ this - Z.b2z (s_avail e) + Z.b2z (s_avail e') ->
  x = x_avail_cnt_ this - Z.b2z (x_avail e) + Z.b2z (x_avail e') ->
  table_wf (mkTable (<[i := e']> (table_ this)) s x n k).
Proof.
  destruct Hwf as [Hlen Hn Hs Hx Hl Hk Hc]. intros Hc' Hl' Hk' -> -> ->.
  split; simpl; try done.
  - by rewrite length_insert.
  - by rewrite (cnt_insert _ _ _ e), Hn.
  - by rewrite (cnt_insert _ _ _ e), Hs.
  - by rewrite (cnt_insert _ _ _ e), Hx.
  - intros j e0 [(_ & -> & _)|(_ & H)]%list_lookup_insert_Some; [done|by eapply Hl].
Qed.

Lemma rows_write s x n k r r' :
  row e = Some r -> row e' = Some r' ->
  exists rest, rows this ≡ₚ r :: rest /\
    rows (mkTable (<[i := e']> (table_ this)) s x n k) ≡ₚ r' :: rest.
Proof. intros. by apply (omap_insert_replace row (table_ this) i e e'). Qed.

(** A write that leaves the record's key and flags in place. *)
Lemma chain_keep :
  is_used_ e' = is_used_ e -> is_deleted_ e' = is_deleted_ e ->
  live_entry e = true -> entry_key e' = entry_key e ->
  table_chain (<[i := e']> (table_ this)).
Proof.
  intros Hu Hd Hl Hk. apply (chain_update _ _ _ _ _ _ _ e e'); [done| | |apply Hwf].
  - by rewrite Hu.
  - done.
Qed.
End WriteSlot.

(** ** Finding a record *)

Lemma holder_live this k i e :
  table_holder (table_ this) k i e ->
  table_ this !! i = Some e /\ live_entry e = true /\ entry_key e = k.
Proof. by intros (? & ? & ? & _). Qed.

Lemma locate_holder this k i e :
  table_wf this -> table_holder (table_ this) k i e -> locate this k = Ret i.
Proof.
  intros Hwf Hh.
  assert (E : locate this k = of_loop (while_true Rows (grab is_deleted_ entry_key Z.eqb
    (table_ this) k (fun i _ => i)) Rows (home k))) by reflexivity.
  rewrite E. by erewrite grab_holder by (eauto; apply Hwf).
Qed.

(** The loop does not end when no slot passes its test. *)
Lemma locate_hang this k :
  (forall i e, table_ this !! i = Some e -> hits is_deleted_ entry_key Z.eqb k e = false) ->
  locate this k = Hang.
Proof.
  intros Hno.
  assert (E : locate this k = of_loop (while_true Rows (grab is_deleted_ entry_key Z.eqb
    (table_ this) k (fun i _ => i)) Rows (home k))) by reflexivity.
  rewrite E. by rewrite (grab_diverges _ _ _ _ Rows table_home_lt).
Qed.

Lemma table_search_loop this k :
  search_ this k =
    match while_true Rows (seek is_used_ is_deleted_ entry_key Z.eqb (table_ this) k
            (Err StudentTableError_NotFound) (fun i _ => Ok i)) Rows (home k) with
    | Some r => r | None => Err StudentTableError_NotFound
    end.
Proof. unfold search_. rewrite do_while_while_true; [done|auto|done]. Qed.

Lemma table_search_holder this k i e :
  table_wf this -> table_holder (table_ this) k i e -> search_ this k = Ok i.
Proof.
  intros Hwf Hh. rewrite table_search_loop. by erewrite seek_holder by (eauto; apply Hwf).
Qed.

Lemma table_present_rows this k :
  table_present (table_ this) k <-> exists r, r ∈ rows this /\ key_ r.1 = k.
Proof.
  split.
  - intros (i & e & Hi & Hl & <-). exists (tuple_ e, lock_ e). split; [|done].
    apply elem_of_omap. exists i, e. unfold row. by rewrite Hl.
  - intros (r & (i & e & Hi & Hr)%elem_of_omap & <-). exists i, e.
    unfold row in Hr. destruct (live_entry e); [|done]. by simplify_eq.
Qed.

Lemma table_present_dec this k :
  table_wf this ->
  (exists i e, table_holder (table_ this) k i e) \/ ~ table_present (table_ this) k.
Proof.
  intros Hwf. rewrite table_present_rows.
  destruct (decide (Exists (fun r => key_ r.1 = k) (rows this))) as [Hex|Hno].
  - left. apply list.Exists_exists, table_present_rows in Hex.
    apply present_holder; auto; apply Hwf.
  - right. intros (r & ? & ?). apply Hno, list.Exists_exists. eauto.
Qed.

Lemma table_search_absent this k :
  table_wf this -> ~ table_present (table_ this) k ->
  search_ this k = Err StudentTableError_NotFound.
Proof.
  intros Hwf Hno. rewrite table_search_loop.
  destruct (while_true _ _ _ _) eqn:Hw; [|done].
  eapply seek_absent in Hw; eauto. apply Hwf.
Qed.

(** ** Changing a record in place *)

Lemma set_lock_wf this i e l s x :
  table_wf this -> table_ this !! i = Some e -> live_entry e = true -> -1 <= l <= 127 ->
  s = s_avail_cnt_ this - Z.b2z (0 <=? lock_ e) + Z.b2z (0 <=? l) ->
  x = x_avail_cnt_ this - Z.b2z (lock_ e =? 0) + Z.b2z (l =? 0) ->
  exists rest, rows this ≡ₚ (tuple_ e, lock_ e) :: rest /\
    let this' := mkTable (update_slot this i (set_lock l)) s x (entry_count_ this)
                   (next_key_ this) in
    table_wf this' /\ rows this' ≡ₚ (tuple_ e, l) :: rest.
Proof.
  intros Hwf Hi Hl Hb Hs Hx. unfold update_slot. rewrite (insert_alter _ _ _ e) by done.
  assert (Hl' : live_entry (set_lock l e) = true) by done.
  destruct (rows_write this i e (set_lock l e) Hi (entry_count_ this) s x (next_key_ this)
    (tuple_ e, lock_ e) (tuple_ e, l)) as (rest & H1 & H2).
  - unfold row. by rewrite Hl.
  - unfold row. by rewrite Hl'.
  - exists rest. split; [done|]. split; [|done].
    eapply table_wf_write; [done|done| | | | | |].
    + by eapply chain_keep.
    + by intros _.
    + apply Hwf.
    + rewrite Hl, Hl'. lia.
    + unfold s_avail. by rewrite Hl, Hl'.
    + unfold x_avail. by rewrite Hl, Hl'.
Qed.

Lemma holder_rows this k i e :
  table_holder (table_ this) k i e -> (tuple_ e, lock_ e) ∈ rows this /\ key_ (tuple_ e) = k.
Proof.
  intros (Hi & Hl & <- & _). split; [|done]. apply elem_of_omap. exists i, e.
  unfold row. by rewrite Hl.
Qed.

Lemma lock_at_holder this i e : table_ this !! i = Some e -> lock_at this i = lock_ e.
Proof. unfold lock_at. by intros ->. Qed.

(** [release_] of a held lock. *)
Lemma release_holder this k i e :
  table_wf this -> table_holder (table_ this) k i e -> lock_ e <> 0 ->
  exists this' rest, release_ this k = Ret this' /\ table_wf this' /\
    table_ this' = update_slot this i
      (set_lock (if lock_ e =? -1 then 0 else lock_ e - 1)) /\
    rows this ≡ₚ (tuple_ e, lock_ e) :: rest /\
    rows this' ≡ₚ (tuple_ e, if lock_ e =? -1 then 0 else lock_ e - 1) :: rest.
Proof.
  intros Hwf Hh Hnz. pose proof (counters_bounds this Hwf) as (_ & Hs & Hx).
  unfold release_. rewrite (locate_holder _ _ i e) by done. simpl.
  destruct (holder_live _ _ _ _ Hh) as (Hi & Hl & _).
  rewrite (lock_at_holder _ _ e) by done.
  pose proof (wf_lock _ Hwf i e Hi Hl) as Hb.
  destruct (Z.eqb_spec (lock_ e) (-1)) as [Hm|Hm].
  - destruct (set_lock_wf this i e 0 (u8 (s_avail_cnt_ this + 1)) (u8 (x_avail_cnt_ this + 1)))
      as (rest & ? & ? & ?); [done..|lia| | |eauto 9].
    + rewrite Hm. simpl. word.
    + rewrite Hm. simpl. word.
  - destruct (set_lock_wf this i e (lock_ e - 1) (s_avail_cnt_ this)
      (if lock_ e - 1 =? 0 then u8 (x_avail_cnt_ this + 1) else x_avail_cnt_ this))
      as (rest & ? & ? & ?); [done..|lia| | |].
    + rewrite !(proj2 (Z.leb_le _ _)) by lia. lia.
    + destruct (Z.eqb_spec (lock_ e) 0); [lia|].
      destruct (_ =? 0); simpl; [word|lia].
    + replace (s8 (lock_ e - 1)) with (lock_ e - 1) by word. eauto 9.
Qed.

(** ** Insertion *)

Definition new_entry (this : StudentTable) (t : StudentTuple) : Entry :=
  mkEntry (with_key t (next_key_ this)) 0 true false.

(** The wait that precedes an insertion. *)
Lemma insert_wait env this t :
  let s := if full_ this then env this else this in
  insert_ env this t = if full_ s then Hang else insert_ env s t.
Proof.
  intros s. unfold insert_. match goal with |- (_ ≫= ?f) = _ => generalize f end.
  intros f. unfold wait, s. destruct (full_ this) eqn:H1; cbn [negb].
  - by destruct (full_ (env this)) eqn:H2; cbn [negb].
  - rewrite H1. reflexivity.
Qed.

(** One insertion into a table with a free slot. *)
Lemma insert_free this env t :
  table_wf this -> full_ this = false ->
  exists this' i, insert_ env this t = Ret (this', Ok i) /\ table_wf this' /\
    table_ this' !! i = Some (new_entry this t) /\
    (exists e, table_ this !! i = Some e /\ live_entry e = false /\
       table_ this' = <[i := new_entry this t]> (table_ this)) /\
    rows this' ≡ₚ (with_key t (next_key_ this), 0) :: rows this /\
    next_key_ this' = u8 (next_key_ this + 1).
Proof.
  intros Hwf Hf. pose proof (counters_bounds this Hwf) as (Hn & Hs & Hx).
  unfold insert_, wait. rewrite Hf. simpl negb.
  rewrite (outcome_bind_ret this). cbv beta.
  set (k := next_key_ this). set (e' := new_entry this t).
  set (act := fun idx (_ : Entry) =>
    (mkTable (<[idx := e']> (table_ this)) (u8 (s_avail_cnt_ this + 1))
       (u8 (x_avail_cnt_ this + 1)) (u64 (entry_count_ this + 1)) (u8 (k + 1)),
     Ok (E := StudentTableError) idx)).
  assert (Hnf : entry_count_ this < 10).
  { unfold full_ in Hf. apply Z.eqb_neq in Hf. change (Z.of_nat Rows) with 10 in Hf. lia. }
  destruct (cnt_lt_exists live_entry (table_ this)) as (i0 & e0 & Hi0 & Hl0).
  { rewrite (wf_length _ Hwf), <- (wf_count _ Hwf). done. }
  destruct (claim_ends is_used_ is_deleted_ home Rows table_home_lt (table_ this)
    (fun _ => None) act k i0 e0) as [r Hr]; [apply Hwf|done|done|].
  match goal with |- context [of_loop ?o] =>
    change o with (while_true Rows (claim is_used_ is_deleted_ (table_ this)
      (fun _ => None) act) Rows (home k)) end.
  rewrite Hr. cbn [of_loop].
  apply claim_Some_inv in Hr; [|auto|apply Hwf].
  destruct Hr as [(j & e & Hj & He & Hl & -> & Hpre)|(i & e & _ & _ & [=])].
  unfold act. eexists _, _. split; [done|].
  assert (Hl' : live_entry e' = true) by done. split_and!.
  - eapply table_wf_write; [done|done| | | | | |].
    + apply (chain_claim is_used_ is_deleted_ entry_key home Rows table_home_lt (table_ this) e' j);
        [apply Hwf|done|done| |apply Hwf].
      intros j' Hj'. destruct (Hpre j' Hj') as (e2 & ? & ? & _). eauto.
    + intros _. simpl. lia.
    + unfold is_byte, u8. apply Z.mod_pos_bound. lia.
    + rewrite Hl, Hl'. simpl. word.
    + unfold s_avail. rewrite Hl, Hl'. simpl. word.
    + unfold x_avail. rewrite Hl, Hl'. simpl. word.
  - simpl. rewrite list_lookup_insert_eq; [done|]. by eapply lookup_lt_Some.
  - eauto.
  - apply (omap_insert_add row _ _ e e'); [done| |done]. unfold row. by rewrite Hl.
  - done.
Qed.

(** ** Removal and update *)

Lemma remove_holder this k i e :
  table_wf this -> table_holder (table_ this) k i e ->
  exists this', remove_ this k = Ret (this', StudentTableError_None) /\
    table_ this' = <[i := mkEntry (tuple_ e) (lock_ e) (is_used_ e) true]> (table_ this) /\
    rows this ≡ₚ (tuple_ e, lock_ e) :: rows this' /\
    entry_count_ this' = entry_count_ this - 1 /\
    (lock_ e = -1 -> table_wf this') /\
    (0 <= lock_ e -> ~ table_wf this').
Proof.
  intros Hwf Hh. pose proof (counters_bounds this Hwf) as (Hn & Hs & Hx).
  unfold remove_. rewrite (locate_holder _ _ i e) by done. simpl.
  destruct (holder_live _ _ _ _ Hh) as (Hi & Hl & _).
  destruct (counters_pos this i e Hwf Hi) as (Hpos & _ & _). specialize (Hpos Hl).
  unfold update_slot. rewrite (insert_alter _ _ _ e) by done.
  set (e' := mkEntry (tuple_ e) (lock_ e) (is_used_ e) true).
  assert (Hl' : live_entry e' = false) by (unfold live; apply andb_false_r).
  assert (Hu : u64 (entry_count_ this - 1) = entry_count_ this - 1) by word.
  rewrite Hu. eexists. split; [done|]. split_and!; [done|..].
  - apply (omap_insert_remove row _ _ e e'); [done| |].
    + unfold row. by rewrite Hl.
    + unfold row. by rewrite Hl'.
  - done.
  - intros Hm. eapply table_wf_write; [done|done| | | | | |].
    + apply (chain_update _ _ _ _ _ _ _ e e'); [done| | |apply Hwf].
      * done.
      * by rewrite Hl'.
    + unfold lock_ok. by rewrite Hl'.
    + apply Hwf.
    + rewrite Hl, Hl'. simpl. lia.
    + unfold s_avail. rewrite Hl', Hl, Hm. simpl. lia.
    + unfold x_avail. rewrite Hl', Hl, Hm. simpl. lia.
  - intros Hge Hwf'. pose proof (wf_shared _ Hwf') as Hs'. simpl in Hs'.
    rewrite (cnt_insert _ _ _ e), <- (wf_shared _ Hwf) in Hs' by done.
    unfold s_avail in Hs'. rewrite Hl', Hl, (proj2 (Z.leb_le _ _) Hge) in Hs'.
    simpl in Hs'. lia.
Qed.

Lemma write_holder this t i e :
  table_wf this -> table_holder (table_ this) (key_ t) i e ->
  exists this' rest, write_ this t = Ret (this', StudentTableError_None) /\
    table_wf this' /\ rows this ≡ₚ (tuple_ e, lock_ e) :: rest /\
    rows this' ≡ₚ (t, lock_ e) :: rest.
Proof.
  intros Hwf Hh. unfold write_. rewrite (locate_holder _ _ i e) by done. simpl.
  destruct (holder_live _ _ _ _ Hh) as (Hi & Hl & Hk).
  unfold update_slot. rewrite (insert_alter _ _ _ e) by done.
  set (e' := mkEntry t (lock_ e) (is_used_ e) (is_deleted_ e)).
  assert (Hl' : live_entry e' = live_entry e) by done.
  destruct (rows_write this i e e' Hi (entry_count_ this) (s_avail_cnt_ this)
    (x_avail_cnt_ this) (next_key_ this) (tuple_ e, lock_ e) (t, lock_ e)) as (rest & ? & ?).
  - unfold row. by rewrite Hl.
  - unfold row. by rewrite Hl', Hl.
  - eexists _, rest. split; [done|]. split_and!; [|done..].
    eapply table_wf_write; [done|done| | | | | |].
    + by eapply chain_keep.
    + unfold lock_ok; rewrite Hl'. by apply (wf_lock _ Hwf i e Hi).
    + apply Hwf.
    + rewrite Hl'. lia.
    + unfold s_avail. rewrite Hl'. simpl. lia.
    + unfold x_avail. rewrite Hl'. simpl. lia.
Qed.

(** ** Acquisition

    [granted ok l s s' i]: in [s] the slot [i] is the first one that passes
    [ok], and [s'] is [s] with [l] applied to the lock word of that slot;
    both tables are well-formed. *)

Definition granted (ok : Entry -> bool) (l : Z -> Z) (s s' : StudentTable) (i : nat) : Prop :=
  exists e rest, table_ s !! i = Some e /\ live_entry e = true /\ ok e = true /\
    (forall j e', (j < i)%nat -> table_ s !! j = Some e' -> ok e' = false) /\
    table_ s' = update_slot s i (set_lock (l (lock_ e))) /\
    rows s ≡ₚ (tuple_ e, lock_ e) :: rest /\
    rows s' ≡ₚ (tuple_ e, l (lock_ e)) :: rest.

Definition preserves (env : StudentTable -> StudentTable) : Prop :=
  forall t, table_wf t -> table_wf (env t).

Lemma preserves_id : preserves id.
Proof. by intros t. Qed.

(** The two waits of the acquisition functions end in a well-formed table. *)
Lemma waits_wf env p this s b :
  preserves env -> table_wf this -> wait_for env p this = (s, b) ->
  table_wf s /\ b = p s /\ (p this = true -> s = this).
Proof.
  intros He Hwf Hw. pose proof (wait_for_cases _ _ _ _ _ Hw) as [-> Hs].
  split_and!; [destruct Hs as [->| ->]; auto|done|].
  unfold wait_for in Hw. destruct (p this); congruence.
Qed.

(** The loop over the slots takes the first one that passes [p]. *)
Lemma first_slot {R} this p (act : nat -> Entry -> R) :
  table_wf this -> 0 < cnt p (table_ this) ->
  exists i e, table_ this !! i = Some e /\ p e = true /\
    (forall j e', (j < i)%nat -> table_ this !! j = Some e' -> p e' = false) /\
    for_return Rows 0 (fun i => match table_ this !! i with
      | Some e => if p e then Some (act i e) else None
      | None => None end) = Some (act i e).
Proof.
  intros Hwf Hp. destruct (for_return Rows 0 _) as [x|] eqn:Hf.
  - destruct (for_return_Some _ _ _ _ Hf) as (i & _ & Hb & Hpre). cbv beta in Hb.
    destruct (table_ this !! i) as [e|] eqn:Hi; [|done].
    destruct (p e) eqn:He; [|done]. injection Hb as <-. exists i, e.
    split_and!; [done..| |done]. intros j e' Hj He'. specialize (Hpre j ltac:(lia)).
    cbv beta in Hpre. rewrite He' in Hpre. by destruct (p e').
  - destruct (cnt_pos_exists p (table_ this)) as (j & e & Hj & He); [lia|].
    exfalso. pose proof (for_return_None _ _ _ Hf j) as H. cbv beta in H.
    rewrite Hj, He in H. apply lookup_lt_Some in Hj. rewrite (wf_length _ Hwf) in Hj.
    discriminate H. lia.
Qed.

Lemma grant_shared_spec this :
  table_wf this -> 0 < s_avail_cnt_ this ->
  exists i e this', table_ this !! i = Some e /\ s_avail e = true /\
    grant_shared this = Some (this', Ok i) /\
    (lock_ e < 127 -> table_wf this' /\ granted s_avail Z.succ this this' i).
Proof.
  intros Hwf Hp. rewrite (wf_shared _ Hwf) in Hp.
  destruct (first_slot this s_avail (fun i e => (mkTable
    (update_slot this i (set_lock (s8 (lock_ e + 1)))) (s_avail_cnt_ this)
    (if s8 (lock_ e + 1) =? 1 then u8 (x_avail_cnt_ this - 1) else x_avail_cnt_ this)
    (entry_count_ this) (next_key_ this), Ok (E := TupleTableError) i)) Hwf Hp)
    as (i & e & Hi & Ha & Hpre & Hg).
  exists i, e. eexists. split_and!; [done|done|exact Hg|]. intros Hlt.
  pose proof Ha as [Hl Hge%Z.leb_le]%andb_true_iff.
  pose proof (counters_bounds this Hwf) as (_ & _ & Hxb).
  destruct (counters_pos this i e Hwf Hi) as (_ & _ & Hxp).
  assert (Hs8 : s8 (lock_ e + 1) = Z.succ (lock_ e)) by word. rewrite Hs8.
  destruct (set_lock_wf this i e (Z.succ (lock_ e)) (s_avail_cnt_ this)
    (if Z.succ (lock_ e) =? 1 then u8 (x_avail_cnt_ this - 1) else x_avail_cnt_ this))
    as (rest & H1 & Hwf' & H2); [done|done|done|lia|..].
  { rewrite !(proj2 (Z.leb_le _ _)) by lia. lia. }
  { unfold x_avail in Hxp. rewrite Hl in Hxp. simpl in Hxp.
    destruct (Z.eqb_spec (lock_ e) 0) as [Hz|Hz].
    - rewrite Hz in *. specialize (Hxp eq_refl). simpl. word.
    - destruct (Z.eqb_spec (Z.succ (lock_ e)) 1), (Z.eqb_spec (Z.succ (lock_ e)) 0);
        simpl; lia. }
  split; [exact Hwf'|]. by exists e, rest.
Qed.

Lemma grant_exclusive_spec this :
  table_wf this -> 0 < x_avail_cnt_ this ->
  exists i this', grant_exclusive this = Some (this', Ok i) /\ table_wf this' /\
    granted x_avail (fun _ => -1) this this' i.
Proof.
  intros Hwf Hp. rewrite (wf_exclusive _ Hwf) in Hp.
  destruct (first_slot this x_avail (fun i e => (mkTable
    (update_slot this i (set_lock (-1))) (u8 (s_avail_cnt_ this - 1))
    (u8 (x_avail_cnt_ this - 1)) (entry_count_ this) (next_key_ this),
    Ok (E := TupleTableError) i)) Hwf Hp) as (i & e & Hi & Ha & Hpre & Hg).
  exists i. eexists. split; [exact Hg|].
  pose proof Ha as [Hl Hz%Z.eqb_eq]%andb_true_iff.
  pose proof (counters_bounds this Hwf) as (_ & Hsb & Hxb).
  destruct (counters_pos this i e Hwf Hi) as (_ & Hsp & Hxp).
  assert (s_avail e = true) as Hs%Hsp.
  { unfold s_avail. rewrite Hl, Hz. done. }
  specialize (Hxp Ha).
  destruct (set_lock_wf this i e (-1) (u8 (s_avail_cnt_ this - 1))
    (u8 (x_avail_cnt_ this - 1))) as (rest & H1 & Hwf' & H2); [done|done|done|lia|..].
  { rewrite Hz. simpl. word. }
  { rewrite Hz. simpl. word. }
  split; [exact Hwf'|]. by exists e, rest.
Qed.

(** A positive availability counter means the table is not empty. *)
Lemma avail_not_empty this p :
  table_wf this -> (forall e, p e = true -> live_entry e = true) ->
  0 < cnt p (table_ this) -> negb (empty_ this) = true.
Proof.
  intros Hwf Hp H. unfold empty_. rewrite (wf_count _ Hwf).
  pose proof (cnt_mono p live_entry (table_ this) Hp).
  destruct (Z.eqb_spec (cnt live_entry (table_ this)) 0); [lia|done].
Qed.

(** The states in which two waits in a row can end. *)
Definition settled (env1 env2 : StudentTable -> StudentTable) (this s : StudentTable) : Prop :=
  s = this \/ s = env1 this \/ s = env2 this \/ s = env2 (env1 this).

Lemma settled_id this s : settled id id this s -> s = this.
Proof. intros [H|[H|[H|H]]]; exact H. Qed.

(** The state [s] in which the two waits of an acquisition end: with the
    condition met, or timed out. *)
Lemma two_waits env1 env2 this p (c : StudentTable -> Z) :
  preserves env1 -> preserves env2 -> table_wf this ->
  (forall t, table_wf t -> c t = cnt p (table_ t)) ->
  (forall e, p e = true -> live_entry e = true) ->
  exists s1 b1 s b2, wait_for env1 (fun t => negb (empty_ t)) this = (s1, b1) /\
    wait_for env2 (fun t => 0 <? c t) s1 = (s, b2) /\
    table_wf s1 /\ table_wf s /\ settled env1 env2 this s1 /\ settled env1 env2 this s /\
    b1 = negb (empty_ s1) /\ b2 = (0 <? c s) /\
    (0 < c this -> s1 = this /\ s = this).
Proof.
  intros He1 He2 Hwf Hc Hp.
  destruct (wait_for env1 _ this) as [s1 b1] eqn:W1.
  destruct (waits_wf _ _ _ _ _ He1 Hwf W1) as (Hwf1 & -> & Hid1).
  destruct (wait_for env2 (fun t => 0 <? c t) s1) as [s2 b2] eqn:W2.
  assert (settled env1 env2 this s1 /\ settled env1 env2 this s2) as [? ?].
  { apply wait_for_cases in W1 as [_ H1]. apply wait_for_cases in W2 as [_ H2].
    unfold settled. destruct H1 as [H1|H1], H2 as [H2|H2]; rewrite H2, H1; auto. }
  destruct (waits_wf _ _ _ _ _ He2 Hwf1 W2) as (Hwf2 & -> & Hid2).
  eexists s1, _, s2, _. split_and!; [reflexivity|exact W2|done..|].
  intros Hpos. pose proof Hpos as Hpos'. rewrite Hc in Hpos by done.
  specialize (Hid1 (avail_not_empty this p Hwf Hp Hpos)). subst s1.
  split; [done|]. apply Hid2. by apply Z.ltb_lt.
Qed.

Lemma wait_shared_cases env1 env2 this :
  preserves env1 -> preserves env2 -> table_wf this ->
  exists s, table_wf s /\ settled env1 env2 this s /\ (0 < s_avail_cnt_ this -> s = this) /\
    ((wait_shared_ env1 env2 this = (s, Err TupleTableError_Timeout) /\
      s_avail_cnt_ s = 0) \/
     (exists i e s', wait_shared_ env1 env2 this = (s', Ok i) /\
        table_ s !! i = Some e /\ s_avail e = true /\
        (lock_ e < 127 -> table_wf s' /\ granted s_avail Z.succ s s' i))).
Proof.
  intros He1 He2 Hwf. unfold wait_shared_.
  destruct (two_waits env1 env2 this s_avail s_avail_cnt_)
    as (s1 & b1 & s & b2 & W1 & W2 & Hwf1 & Hwfs & Hset1 & Hset & -> & -> & Hid); [done..|apply wf_shared| |].
  { intros e. unfold s_avail. by destruct (live_entry e). }
  rewrite W1. destruct (empty_ s1) eqn:Hem; cbn [negb].
  { exists s1. split; [done|]. split; [done|]. split; [intros; by apply Hid|]. left. split; [done|].
    destruct (Z.eqb_spec (s_avail_cnt_ s1) 0) as [|Hnz]; [done|exfalso].
    pose proof (counters_bounds s1 Hwf1). rewrite (wf_shared _ Hwf1) in *.
    pose proof (avail_not_empty s1 s_avail Hwf1) as Hne. rewrite Hem in Hne.
    assert (false = true); [|done]. apply Hne; [|lia].
    intros e. unfold s_avail. by destruct (live_entry e). }
  rewrite W2. exists s. split; [done|]. split; [done|]. split; [intros; by apply Hid|].
  destruct (Z.ltb_spec 0 (s_avail_cnt_ s)) as [Hp|Hz].
  - right. destruct (grant_shared_spec s Hwfs Hp) as (i & e & s' & Hi & Ha & Hg & Hl).
    rewrite Hg. eauto 8.
  - left. split; [done|]. pose proof (counters_bounds s Hwfs). lia.
Qed.

Lemma wait_exclusive_cases env1 env2 this :
  preserves env1 -> preserves env2 -> table_wf this ->
  exists s, table_wf s /\ settled env1 env2 this s /\ (0 < x_avail_cnt_ this -> s = this) /\
    ((wait_exclusive_ env1 env2 this = (s, Err TupleTableError_Timeout) /\
      x_avail_cnt_ s = 0) \/
     (exists i s', wait_exclusive_ env1 env2 this = (s', Ok i) /\
        table_wf s' /\ granted x_avail (fun _ => -1) s s' i)).
Proof.
  intros He1 He2 Hwf. unfold wait_exclusive_.
  assert (Hlx : forall e, x_avail e = true -> live_entry e = true).
  { intros e. unfold x_avail. by destruct (live_entry e). }
  destruct (two_waits env1 env2 this x_avail x_avail_cnt_)
    as (s1 & b1 & s & b2 & W1 & W2 & Hwf1 & Hwfs & Hset1 & Hset & -> & -> & Hid);
    [done..|apply wf_exclusive|done|].
  rewrite W1. destruct (empty_ s1) eqn:Hem; cbn [negb].
  { exists s1. split; [done|]. split; [done|]. split; [intros; by apply Hid|]. left. split; [done|].
    destruct (Z.eqb_spec (x_avail_cnt_ s1) 0) as [|Hnz]; [done|exfalso].
    pose proof (counters_bounds s1 Hwf1). rewrite (wf_exclusive _ Hwf1) in *.
    pose proof (avail_not_empty s1 x_avail Hwf1 Hlx) as Hne. rewrite Hem in Hne.
    assert (false = true); [|done]. apply Hne. lia. }
  rewrite W2. exists s. split; [done|]. split; [done|]. split; [intros; by apply Hid|].
  destruct (Z.ltb_spec 0 (x_avail_cnt_ s)) as [Hp|Hz].
  - right. destruct (grant_exclusive_spec s Hwfs Hp) as (i & s' & Hg & Hl).
    rewrite Hg. eauto 8.
  - left. split; [done|]. pose proof (counters_bounds s Hwfs). lia.
Qed.

(** Promotion of a record with a single shared holder. *)
Lemma promote_holder this k i e env :
  table_wf this -> table_holder (table_ this) k i e -> lock_ e = 1 ->
  exists this' rest, promote_ env this k = Ret (this', TupleTableError_None) /\
    table_wf this' /\ table_ this' = update_slot this i (set_lock (-1)) /\
    rows this ≡ₚ (tuple_ e, 1) :: rest /\ rows this' ≡ₚ (tuple_ e, -1) :: rest.
Proof.
  intros Hwf Hh Hl. pose proof (counters_bounds this Hwf) as (_ & Hs & Hx).
  destruct (holder_live _ _ _ _ Hh) as (Hi & Hlv & _).
  destruct (counters_pos this i e Hwf Hi) as (_ & Hsp & _).
  assert (s_avail e = true) as Hp%Hsp by (unfold s_avail; by rewrite Hlv, Hl).
  unfold promote_. rewrite (locate_holder _ _ i e) by done. simpl. unfold wait_for.
  rewrite (lock_at_holder _ _ e), Hl by done. simpl.
  destruct (set_lock_wf this i e (-1) (u8 (s_avail_cnt_ this - 1)) (x_avail_cnt_ this))
    as (rest & H1 & Hwf' & H2); [done|done|done|lia|..].
  { rewrite Hl. simpl. word. }
  { rewrite Hl. simpl. lia. }
  rewrite Hl in H1. eauto 9.
Qed.

(** ** Distinct keys

    Keys are handed out by an 8-bit counter; while the counter does not run
    into a live key, keys identify records. *)

Lemma write_next this t this' r : write_ this t = Ret (this', r) -> next_key_ this' = next_key_ this.
Proof.
  unfold write_. destruct (locate _ _); simpl; [|done..]. by intros [= <- _].
Qed.

Lemma remove_next this k this' r : remove_ this k = Ret (this', r) -> next_key_ this' = next_key_ this.
Proof.
  unfold remove_. destruct (locate _ _); simpl; [|done..]. by intros [= <- _].
Qed.

Definition keys (this : StudentTable) : list Z := (fun r => key_ r.1) <$> rows this.
Definition distinct_keys (this : StudentTable) : Prop := NoDup (keys this).

Lemma keys_perm this this' : rows this ≡ₚ rows this' -> keys this ≡ₚ keys this'.
Proof. intros H. unfold keys. by rewrite H. Qed.

Lemma distinct_replace this this' r r' rest :
  rows this ≡ₚ r :: rest -> rows this' ≡ₚ r' :: rest -> key_ r.1 = key_ r'.1 ->
  distinct_keys this -> distinct_keys this'.
Proof.
  unfold distinct_keys, keys. intros H1 H2 Hk. rewrite H1, H2. csimpl. by rewrite Hk.
Qed.

Lemma rows_length this : table_wf this -> Z.of_nat (length (rows this)) = entry_count_ this.
Proof.
  intros Hwf. rewrite (wf_count _ Hwf). unfold rows. clear.
  induction (table_ this) as [|e l IH]; [done|]. csimpl. rewrite <- IH.
  unfold row. destruct (live_entry e); simpl; lia.
Qed.

(** With distinct keys every live record is the one its key leads to. *)
Lemma distinct_row this k r r' :
  distinct_keys this -> r ∈ rows this -> r' ∈ rows this -> key_ r.1 = k ->
  key_ r'.1 = k -> r = r'.
Proof.
  intros Hd [l1 H1]%elem_of_Permutation Hr' Hk Hk'. rewrite H1 in Hr'.
  apply elem_of_cons in Hr' as [->|Hin]; [done|exfalso].
  unfold distinct_keys, keys in Hd. rewrite H1 in Hd. csimpl in Hd.
  apply list.NoDup_cons in Hd as [Hno _]. apply Hno, list_elem_of_fmap. exists r'. naive_solver.
Qed.

Lemma row_holder this r :
  table_wf this -> distinct_keys this -> r ∈ rows this ->
  exists i e, table_holder (table_ this) (key_ r.1) i e /\ r = (tuple_ e, lock_ e).
Proof.
  intros Hwf Hd Hr.
  destruct (table_present_dec this (key_ r.1) Hwf) as [(i & e & Hh)|Hno].
  - exists i, e. split; [done|]. destruct (holder_rows _ _ _ _ Hh) as [Hin Hk].
    by apply (distinct_row this (key_ r.1)).
  - exfalso. apply Hno, table_present_rows. eauto.
Qed.

(** The record a returned reference points to. *)
Definition search_slot (this : StudentTable) (i : nat) : option StudentTuple :=
  tuple_ <$> table_ this !! i.

(** When a counter is zero no record is available. *)
Lemma none_avail this p r :
  cnt p (table_ this) = 0 -> r ∈ rows this ->
  exists e, r = (tuple_ e, lock_ e) /\ live_entry e = true /\ p e = false.
Proof.
  intros Hz (i & e & Hi & Hr)%elem_of_omap. unfold row in Hr.
  destruct (live_entry e) eqn:Hl; [|done]. exists e. split_and!; [congruence|done|].
  destruct (p e) eqn:Hp; [|done]. pose proof (cnt_pos p _ i e Hi Hp). lia.
Qed.

Lemma none_avail_shared this :
  table_wf this -> cnt s_avail (table_ this) = 0 -> forall r, r ∈ rows this -> r.2 = -1.
Proof.
  intros Hwf Hz r (i & e & Hi & Hr)%elem_of_omap. unfold row in Hr.
  destruct (live_entry e) eqn:Hl; [|done]. injection Hr as <-. simpl.
  pose proof (wf_lock _ Hwf i e Hi Hl). destruct (decide (lock_ e = -1)); [done|].
  assert (Ha : s_avail e = true) by (unfold s_avail; rewrite Hl; apply Z.leb_le; lia).
  pose proof (cnt_pos _ _ i e Hi Ha). lia.
Qed.

Lemma none_avail_exclusive this :
  cnt x_avail (table_ this) = 0 -> forall r, r ∈ rows this -> r.2 <> 0.
Proof.
  intros Hz r Hr H0. destruct (none_avail _ _ _ Hz Hr) as (e & -> & Hl & Hp).
  simpl in H0. unfold x_avail in Hp. by rewrite Hl, H0 in Hp.
Qed.

(** ** A table for the witnesses: two records, one of them locked. *)

Definition tuple_of (o : outcome (StudentTable * Result nat StudentTableError))
    : StudentTable := match o with Ret (t, _) => t | _ => table_default end.
Definition bob : StudentTuple := mkStudent 0 0 (replicate 32 66) 20 0.
Definition table1 : StudentTable := tuple_of (insert_ id table_default bob).
Definition table2 : StudentTable := tuple_of (insert_ id table1 bob).
Definition table3 : StudentTable := (wait_exclusive_ id id table2).1.

Lemma insert_wf t u : table_wf t -> full_ t = false -> table_wf (tuple_of (insert_ id t u)).
Proof.
  intros Hwf Hf. destruct (insert_free t id u Hwf Hf) as (t' & i & -> & ? & _). assumption.
Qed.

Lemma table2_wf : table_wf table2.
Proof.
  apply insert_wf; [|vm_compute; reflexivity].
  apply insert_wf; [|vm_compute; reflexivity]. apply table_default_wf.
Qed.

Lemma lock_exclusive_wf t : table_wf t -> table_wf (wait_exclusive_ id id t).1.
Proof.
  intros Hwf. destruct (wait_exclusive_cases id id t preserves_id preserves_id Hwf)
    as (s & Hs & _ & _ & [[-> _]|(i & s' & -> & ? & _)]); assumption.
Qed.

Lemma table3_wf : table_wf table3.
Proof. apply lock_exclusive_wf, table2_wf. Qed.

Lemma table3_distinct : distinct_keys table3.
Proof. apply (bool_decide_unpack _). vm_compute. reflexivity. Qed.

(** ** Properties *)

(** C26.  [insert_] waits for room and never gives up: it returns
    exactly when the table has a free slot (at once, or after what the other
    threads did), always with [Ok]; the record gets the next key, starts
    unlocked, every other record and its lock word is untouched, and the
    table stays well-formed.  Keys stay distinct exactly if the 8-bit counter
    has not run into a live key. *)
Theorem table_insert_spec env this t :
  preserves env -> table_wf this ->
  let s := if full_ this then env this else this in
  (full_ s = true /\ insert_ env this t = Hang) \/
  (exists this' i, insert_ env this t = Ret (this', Ok i) /\ table_wf this' /\
     search_slot this' i = Some (with_key t (next_key_ s)) /\
     rows this' ≡ₚ (with_key t (next_key_ s), 0) :: rows s /\
     next_key_ this' = u8 (next_key_ s + 1) /\
     (distinct_keys this' <-> distinct_keys s /\ next_key_ s ∉ keys s)).
Proof.
  intros He Hwf s. assert (Hs : table_wf s) by (unfold s; destruct (full_ this); auto).
  destruct (full_ s) eqn:Hf; [left|right].
  - split; [done|]. rewrite insert_wait. fold s. by rewrite Hf.
  - destruct (insert_free s env t Hs Hf) as (this' & i & E & Hwf' & Hi & _ & Hr & Hk).
    exists this', i. split_and!; [|done| |done|done|].
    + rewrite insert_wait. fold s. rewrite Hf. exact E.
    + unfold search_slot. by rewrite Hi.
    + unfold distinct_keys, keys. rewrite Hr. csimpl. rewrite list.NoDup_cons. tauto.
Qed.

(** [search_] finds a record exactly if its key is in the table; the
    record found is in the table under that key. *)
Theorem table_search_spec this k :
  table_wf this ->
  (exists i t l, search_ this k = Ok i /\ search_slot this i = Some t /\
     (t, l) ∈ rows this /\ key_ t = k) \/
  (search_ this k = Err StudentTableError_NotFound /\ k ∉ keys this).
Proof.
  intros Hwf. destruct (table_present_dec this k Hwf) as [(i & e & Hh)|Hno].
  - left. exists i, (tuple_ e), (lock_ e). rewrite (table_search_holder _ _ i e) by done.
    destruct (holder_rows _ _ _ _ Hh) as [? ?].
    unfold search_slot. destruct Hh as (-> & _). done.
  - right. split; [by apply table_search_absent|].
    intros (r & -> & Hr)%list_elem_of_fmap. apply Hno, table_present_rows. eauto.
Qed.

(** C30.  For a key of the table, [write_] replaces the record and keeps
    its lock word; [remove_] takes it out of the table, and leaves the
    availability counters right exactly when the caller holds the exclusive
    lock.  For a key no slot carries neither returns. *)
Theorem table_write_remove_spec this r :
  table_wf this -> distinct_keys this -> r ∈ rows this ->
  exists rest, rows this ≡ₚ r :: rest /\
    (forall t, key_ t = key_ r.1 -> exists this',
       write_ this t = Ret (this', StudentTableError_None) /\
       table_wf this' /\ rows this' ≡ₚ (t, r.2) :: rest) /\
    (exists this', remove_ this (key_ r.1) = Ret (this', StudentTableError_None) /\
       rows this' ≡ₚ rest /\ (table_wf this' <-> r.2 = -1)) /\
    (forall this k, (forall i e, table_ this !! i = Some e -> entry_key e <> k) ->
       remove_ this k = Hang /\ forall t, key_ t = k -> write_ this t = Hang).
Proof.
  intros Hwf Hd Hr. destruct (row_holder this r Hwf Hd Hr) as (i & e & Hh & ->).
  destruct (remove_holder this _ i e Hwf Hh) as (t1 & E1 & _ & H1 & _ & Hm & Hge).
  exists (rows t1). simpl in *. split_and!; [done| | |].
  - intros t Hk. rewrite <- Hk in Hh.
    destruct (write_holder this t i e Hwf Hh) as (t2 & rest & E2 & Hw & H2 & H3).
    exists t2. split_and!; [done..|]. rewrite H3. f_equiv.
    apply (Permutation_cons_inv (a := (tuple_ e, lock_ e))). by rewrite <- H1, <- H2.
  - exists t1. split_and!; [done..|]. split; [|done]. intros Hw.
    destruct (holder_live _ _ _ _ Hh) as (Hi & Hl & _).
    pose proof (wf_lock _ Hwf i e Hi Hl). destruct (decide (lock_ e = -1)); [done|].
    exfalso. apply Hge; [lia|done].
  - intros this' k Hno. assert (locate this' k = Hang) as HL.
    { apply locate_hang. intros j e' Hj. unfold hits.
      apply andb_false_iff. left. apply Z.eqb_neq. by apply (Hno j). }
    unfold remove_, write_. rewrite HL. split; [done|]. intros t ->. by rewrite HL.
Qed.

(** C25.  The two acquisitions never answer [NotFound]: they time out in a
    state where no record can be locked in the requested mode, or lock the
    first record that can, changing nothing but its lock word (one more
    shared holder; [-1]); that state is the initial one or what the other
    threads made of it.  They do not wait when a record is available.  A
    127th shared holder is the last one the 8-bit lock word can count. *)
Theorem acquire_spec env1 env2 this :
  preserves env1 -> preserves env2 -> table_wf this ->
  (exists s, table_wf s /\ settled env1 env2 this s /\ (0 < s_avail_cnt_ this -> s = this) /\
    ((wait_shared_ env1 env2 this = (s, Err TupleTableError_Timeout) /\
      forall r, r ∈ rows s -> r.2 = -1) \/
     (exists i e s', wait_shared_ env1 env2 this = (s', Ok i) /\
        table_ s !! i = Some e /\
        (lock_ e < 127 -> table_wf s' /\ granted s_avail Z.succ s s' i)))) /\
  (exists s, table_wf s /\ settled env1 env2 this s /\ (0 < x_avail_cnt_ this -> s = this) /\
    ((wait_exclusive_ env1 env2 this = (s, Err TupleTableError_Timeout) /\
      forall r, r ∈ rows s -> r.2 <> 0) \/
     (exists i s', wait_exclusive_ env1 env2 this = (s', Ok i) /\ table_wf s' /\
        granted x_avail (fun _ => -1) s s' i))).
Proof.
  intros He1 He2 Hwf. split.
  - destruct (wait_shared_cases env1 env2 this He1 He2 Hwf)
      as (s & Hs & Hset & Hid & [[E Hz]|(i & e & s' & E & Hi & _ & Hg)]); exists s; eauto 12.
    split_and!; [done..|left]. split; [done|].
    rewrite (wf_shared _ Hs) in Hz. by apply none_avail_shared.
  - destruct (wait_exclusive_cases env1 env2 this He1 He2 Hwf)
      as (s & Hs & Hset & Hid & [[E Hz]|(i & s' & E & Hg)]); exists s; eauto 12.
    split_and!; [done..|left]. split; [done|].
    rewrite (wf_exclusive _ Hs) in Hz. by apply none_avail_exclusive.
Qed.

(** [release_] of a locked record removes one shared holder, or
    the exclusive one, and [promote_] turns a single shared holder into the
    exclusive one without waiting; both keep the table well-formed and touch
    no other record.  Acquiring and then releasing gives back the same rows. *)
Theorem release_promote_spec this r :
  table_wf this -> distinct_keys this -> r ∈ rows this -> r.2 <> 0 ->
  exists rest, rows this ≡ₚ r :: rest /\
    (exists this', release_ this (key_ r.1) = Ret this' /\ table_wf this' /\
       distinct_keys this' /\
       rows this' ≡ₚ (r.1, if r.2 =? -1 then 0 else r.2 - 1) :: rest) /\
    (r.2 = 1 -> forall env, exists this' this'',
       promote_ env this (key_ r.1) = Ret (this', TupleTableError_None) /\
       table_wf this' /\ rows this' ≡ₚ (r.1, -1) :: rest /\
       release_ this' (key_ r.1) = Ret this'' /\ table_wf this'' /\
       rows this'' ≡ₚ (r.1, 0) :: rest).
Proof.
  intros Hwf Hd Hr Hnz. destruct (row_holder this r Hwf Hd Hr) as (i & e & Hh & ->).
  simpl in *. destruct (release_holder this _ i e Hwf Hh Hnz)
    as (t1 & rest & E1 & Hw1 & _ & H1 & H1').
  exists rest. split_and!; [done| |].
  - exists t1. split_and!; [done..| |done].
    by apply (distinct_replace this t1 _ _ rest H1 H1').
  - intros Hl env. destruct (promote_holder this _ i e env Hwf Hh Hl)
      as (t2 & rest2 & E2 & Hw2 & _ & H2 & H2').
    assert (rest2 ≡ₚ rest) as Hrest.
    { rewrite Hl, H2 in H1. by apply Permutation_cons_inv in H1. }
    assert (Hd2 : distinct_keys t2).
    { apply (distinct_replace this t2 (tuple_ e, 1) (tuple_ e, -1) rest2); done. }
    destruct (row_holder t2 (tuple_ e, -1) Hw2 Hd2) as (i2 & e2 & Hh2 & Heq).
    { rewrite H2'. set_solver. }
    injection Heq as Ht Hl2. simpl in Hh2.
    destruct (release_holder t2 _ i2 e2 Hw2 Hh2) as (t3 & rest3 & E3 & Hw3 & _ & H3 & H3');
      [lia|].
    rewrite <- Ht, <- Hl2 in H3, H3'. exists t2, t3. split_and!; [done..| |done|done|].
    + by rewrite H2', Hrest.
    + rewrite H3'. simpl. f_equiv. rewrite <- Hrest.
      rewrite H2' in H3. by apply Permutation_cons_inv in H3.
Qed.

(** ** Witnesses *)

Definition row0 : StudentTuple * Z := (with_key bob 0, -1).
Definition row1 : StudentTuple * Z := (with_key bob 1, 0).

Lemma table3_rows : rows table3 = [row0; row1].
Proof. vm_compute. reflexivity. Qed.

Lemma table_insert_spec_witness :
  preserves id /\ full_ table3 = false /\
  exists this', insert_ id table3 bob = Ret (this', Ok 2%nat) /\ table_wf this' /\
    distinct_keys this'.
Proof.
  split; [apply preserves_id|]. split; [vm_compute; reflexivity|].
  destruct (table_insert_spec id table3 bob preserves_id table3_wf)
    as [[H _]|(t & i & E & Hwf & _ & _ & _ & _ & Hd)]; [vm_compute in H; discriminate H|].
  assert (i = 2%nat) as ->.
  { assert (Ev : insert_ id table3 bob = Ret (tuple_of (insert_ id table3 bob), Ok 2%nat))
      by (vm_compute; reflexivity).
    rewrite Ev in E. injection E as _ <-. reflexivity. }
  exists t. split; [exact E|]. split; [exact Hwf|]. apply Hd. split; [apply table3_distinct|].
  apply (bool_decide_unpack _). vm_compute. reflexivity.
Defined.

Lemma table_search_spec_witness :
  (exists i t l, search_ table3 1 = Ok i /\ search_slot table3 i = Some t /\
     (t, l) ∈ rows table3 /\ key_ t = 1) \/
  (search_ table3 1 = Err StudentTableError_NotFound /\ 1 ∉ keys table3).
Proof. apply (table_search_spec table3 1 table3_wf). Defined.

Lemma table_write_remove_spec_witness :
  exists this', remove_ table3 0 = Ret (this', StudentTableError_None) /\
    table_wf this' /\ rows this' ≡ₚ [row1].
Proof.
  destruct (table_write_remove_spec table3 row0 table3_wf table3_distinct)
    as (rest & Hr & _ & (t & E & Hrt & Hw) & _).
  { rewrite table3_rows. set_solver. }
  exists t. split; [exact E|]. split; [by apply Hw|]. rewrite Hrt.
  rewrite table3_rows in Hr. by apply Permutation_cons_inv in Hr.
Defined.

Lemma acquire_spec_witness :
  preserves id /\ table_wf table3 /\
  exists s', wait_exclusive_ id id table3 = (s', Ok 1%nat) /\ table_wf s'.
Proof.
  split; [apply preserves_id|]. split; [apply table3_wf|].
  destruct (acquire_spec id id table3 preserves_id preserves_id table3_wf)
    as [_ (s & _ & _ & Hid & [[_ H]|(i & s' & E & Hw & _)])].
  - exfalso. rewrite Hid in H by (vm_compute; reflexivity).
    apply (H row1); [rewrite table3_rows; set_solver|reflexivity].
  - exists s'. split; [|exact Hw]. assert (i = 1%nat) as ->; [|exact E].
    assert (Ev : wait_exclusive_ id id table3 =
      ((wait_exclusive_ id id table3).1, Ok 1%nat)) by (vm_compute; reflexivity).
    rewrite Ev in E. injection E as _ <-. reflexivity.
Defined.

Lemma release_promote_spec_witness :
  exists this', release_ table3 0 = Ret this' /\ table_wf this' /\
    rows this' ≡ₚ [(with_key bob 0, 0); row1].
Proof.
  destruct (release_promote_spec table3 row0 table3_wf table3_distinct)
    as (rest & Hr & (t & E & Hw & _ & Hrt) & _).
  { rewrite table3_rows. set_solver. }
  { discriminate. }
  exists t. split; [exact E|]. split; [exact Hw|]. rewrite Hrt.
  rewrite table3_rows in Hr. apply Permutation_cons_inv in Hr. by rewrite <- Hr.
Defined.
