(* ===== verification/TableMap.v ===== *)
(** * The student table as a finite map

    A reference machine: a finite map from keys to records with their lock
    words, and the next key.  Sequences of calls on the hash table of
    [student_table.cpp] and on the map give the same answers. *)
From stdpp Require Import gmap.
From S2P Require Import Prelude Params Probe StudentTuple StudentTable.

(** ** The reference machine *)

Record rmap := mkMap {
  m_rows : gmap Z (StudentTuple * Z);
  m_next : Z
}.

Inductive call :=
  | Insert (u : StudentTuple)
  | Search (k : Z)
  | Write (u : StudentTuple)
  | Remove (k : Z)
  | Release (k : Z)
  | Promote (k : Z)
  | Size.

Inductive result :=
  | Record_ (u : StudentTuple)
  | NotFound
  | Done_
  | Timeout_
  | Count (n : Z).

(** [None]: a call the table does not answer, or that leaves its counters
    wrong: a full table, a key given out twice, a key that is not there, the
    removal of a record that is not exclusively locked, the release of a
    record that is not locked. *)
Definition apply_map (m : rmap) (c : call) : option (rmap * result) :=
  match c with
  | Insert u =>
      let k := m_next m in
      if (size (m_rows m) <? Rows)%nat && bool_decide (m_rows m !! k = None) then
        Some (mkMap (<[k := (with_key u k, 0)]> (m_rows m)) (u8 (k + 1)), Record_ (with_key u k))
      else None
  | Search k =>
      Some (m, match m_rows m !! k with Some r => Record_ r.1 | None => NotFound end)
  | Write u =>
      r ← m_rows m !! key_ u; Some (mkMap (<[key_ u := (u, r.2)]> (m_rows m)) (m_next m), Done_)
  | Remove k =>
      r ← m_rows m !! k;
      if r.2 =? -1 then Some (mkMap (delete k (m_rows m)) (m_next m), Done_) else None
  | Release k =>
      r ← m_rows m !! k;
      if r.2 =? 0 then None
      else Some (mkMap (<[k := (r.1, if r.2 =? -1 then 0 else r.2 - 1)]> (m_rows m)) (m_next m),
                 Done_)
  | Promote k =>
      r ← m_rows m !! k;
      if r.2 =? 1 then Some (mkMap (<[k := (r.1, -1)]> (m_rows m)) (m_next m), Done_)
      else Some (m, Timeout_)
  | Size => Some (m, Count (Z.of_nat (size (m_rows m))))
  end.

Fixpoint apply_maps (m : rmap) (cs : list call) : option (rmap * list result) :=
  match cs with
  | [] => Some (m, [])
  | c :: cs' =>
      '(m1, r) ← apply_map m c; '(m2, rs) ← apply_maps m1 cs'; Some (m2, r :: rs)
  end.

(** ** The same calls on the table, no other thread running *)

(** What a returned reference leads to. *)
Definition found (t : StudentTable) (r : Result nat StudentTableError) : outcome result :=
  match value_ r with
  | Some i => match search_slot t i with Some u => Ret (Record_ u) | None => Undef end
  | None => Ret NotFound
  end.

Definition apply_table (t : StudentTable) (c : call) : outcome (StudentTable * result) :=
  match c with
  | Insert u => '(t', r) ← insert_ id t u; x ← found t' r; Ret (t', x)
  | Search k => x ← found t (search_ t k); Ret (t, x)
  | Write u => '(t', _) ← write_ t u; Ret (t', Done_)
  | Remove k => '(t', _) ← remove_ t k; Ret (t', Done_)
  | Release k => t' ← release_ t k; Ret (t', Done_)
  | Promote k =>
      '(t', r) ← promote_ id t k;
      Ret (t', if bool_decide (r = TupleTableError_None) then Done_ else Timeout_)
  | Size => Ret (t, Count (size_ t))
  end.

Fixpoint apply_tables (t : StudentTable) (cs : list call)
    : outcome (StudentTable * list result) :=
  match cs with
  | [] => Ret (t, [])
  | c :: cs' =>
      '(t1, r) ← apply_table t c; '(t2, rs) ← apply_tables t1 cs'; Ret (t2, r :: rs)
  end.

(** ** Abstraction *)

Definition keyed (r : StudentTuple * Z) : Z * (StudentTuple * Z) := (key_ r.1, r).
Definition map_of (l : list (StudentTuple * Z)) : gmap Z (StudentTuple * Z) :=
  list_to_map (keyed <$> l).

(** The table stands for this map. *)
Record stands_for (t : StudentTable) (m : rmap) : Prop := {
  st_wf : table_wf t;
  st_distinct : distinct_keys t;
  st_rows : m_rows m = map_of (rows t);
  st_next : m_next m = next_key_ t
}.

Lemma keyed_keys l : (keyed <$> l).*1 = (fun r => key_ r.1) <$> l.
Proof. rewrite <- list_fmap_compose. done. Qed.

Lemma map_of_perm l l' :
  l ≡ₚ l' -> NoDup ((fun r => key_ r.1) <$> l) -> map_of l = map_of l'.
Proof.
  intros Hp Hn. apply list_to_map_proper; [by rewrite keyed_keys|]. by rewrite Hp.
Qed.

Lemma map_of_cons r l : map_of (r :: l) = <[key_ r.1 := r]> (map_of l).
Proof. done. Qed.

Lemma map_of_lookup l k r :
  NoDup ((fun r => key_ r.1) <$> l) -> map_of l !! k = Some r <-> r ∈ l /\ key_ r.1 = k.
Proof.
  intros Hn. unfold map_of. rewrite <- elem_of_list_to_map by by rewrite keyed_keys.
  rewrite list_elem_of_fmap. unfold keyed. split.
  - intros (r' & [= -> ->] & ?). done.
  - intros [? <-]. eauto.
Qed.

Lemma map_of_None l k : map_of l !! k = None <-> k ∉ (fun r => key_ r.1) <$> l.
Proof. unfold map_of. rewrite <- not_elem_of_list_to_map, keyed_keys. done. Qed.

Lemma map_of_size l :
  NoDup ((fun r => key_ r.1) <$> l) -> size (map_of l) = length l.
Proof.
  intros Hn. induction l as [|r l IH]; [apply map_size_empty|].
  csimpl in Hn. apply list.NoDup_cons in Hn as [Hno Hn].
  rewrite map_of_cons, map_size_insert_None; [by rewrite IH|]. by apply map_of_None.
Qed.

Section Step.
Context (t : StudentTable) (m : rmap) (Hs : stands_for t m).

Lemma stands_row k r :
  m_rows m !! k = Some r -> r ∈ rows t /\ key_ r.1 = k.
Proof.
  rewrite (st_rows _ _ Hs). intros H. apply map_of_lookup in H; [done|apply (st_distinct _ _ Hs)].
Qed.

Lemma stands_holder k r :
  m_rows m !! k = Some r -> exists i e, table_holder (table_ t) k i e /\ r = (tuple_ e, lock_ e).
Proof.
  intros [Hr <-]%stands_row. apply row_holder; [apply Hs|apply Hs|done].
Qed.

Lemma stands_replace t' r r' rest :
  rows t ≡ₚ r :: rest -> rows t' ≡ₚ r' :: rest -> key_ r'.1 = key_ r.1 -> table_wf t' ->
  next_key_ t' = next_key_ t ->
  stands_for t' (mkMap (<[key_ r.1 := r']> (m_rows m)) (m_next m)).
Proof.
  intros H1 H2 Hk Hwf Hn.
  assert (Hd : distinct_keys t') by (eapply distinct_replace; [exact H1|exact H2|done|apply Hs]).
  split; [done|done| |simpl; by rewrite Hn, (st_next _ _ Hs)]. cbn [m_rows].
  rewrite (st_rows _ _ Hs), (map_of_perm _ _ H1), (map_of_perm _ _ H2), !map_of_cons, Hk.
  - by rewrite insert_insert_eq.
  - exact Hd.
  - apply Hs.
Qed.

Lemma release_next k t' : release_ t k = Ret t' -> next_key_ t' = next_key_ t.
Proof.
  unfold release_. destruct (locate t k); simpl; [|done..]. by case_match; intros [= <-].
Qed.

Lemma promote_next k t' r : promote_ id t k = Ret (t', r) -> next_key_ t' = next_key_ t.
Proof.
  unfold promote_, wait_for. destruct (locate t k) as [i| |]; simpl; [|done..].
  by destruct (lock_at t i =? 1); simpl; intros [= <- _].
Qed.

Lemma insert_step u m' x :
  apply_map m (Insert u) = Some (m', x) ->
  exists t', apply_table t (Insert u) = Ret (t', x) /\ stands_for t' m'.
Proof.
  cbn [apply_map apply_table].
  destruct ((_ <? Rows)%nat && _) eqn:E; [|done]. intros [= <- <-].
  apply andb_true_iff in E as [Hsz%Nat.ltb_lt Hno%bool_decide_eq_true].
  assert (Hf : full_ t = false).
  { unfold full_. apply Z.eqb_neq. rewrite (st_rows _ _ Hs), map_of_size in Hsz by apply Hs.
    rewrite <- (rows_length t) by apply Hs. lia. }
  destruct (insert_free t id u (st_wf _ _ Hs) Hf) as (t' & i & -> & Hwf & Hi & _ & Hr & Hn).
  rewrite (outcome_bind_ret (t', Ok i)). unfold found, search_slot. cbn [value_ Ok]. rewrite Hi.
  simpl. rewrite (st_next _ _ Hs) in Hno |- *. exists t'. split; [done|].
  rewrite (st_rows _ _ Hs), map_of_None in Hno.
  assert (Hd : distinct_keys t').
  { unfold distinct_keys, keys. rewrite Hr. csimpl. apply list.NoDup_cons. split; [done|apply Hs]. }
  split; [done|done| |by rewrite Hn]. cbn [m_rows].
  rewrite (map_of_perm _ _ Hr Hd), map_of_cons, (st_rows _ _ Hs). done.
Qed.

Lemma search_step k m' x :
  apply_map m (Search k) = Some (m', x) ->
  exists t', apply_table t (Search k) = Ret (t', x) /\ stands_for t' m'.
Proof.
  cbn [apply_map apply_table]. intros [= <- <-]. exists t. split; [|done].
  destruct (m_rows m !! k) as [r|] eqn:E.
  - destruct (stands_holder k r E) as (i & e & Hh & ->).
    rewrite (table_search_holder t k i e) by (done || apply Hs). unfold found, search_slot.
    cbn [value_ Ok]. destruct (holder_live _ _ _ _ Hh) as (-> & _). done.
  - rewrite table_search_absent; [done|apply Hs|]. rewrite table_present_rows.
    rewrite (st_rows _ _ Hs), map_of_None in E. intros (r & Hr & <-). apply E.
    apply list_elem_of_fmap. eauto.
Qed.

Lemma write_step u m' x :
  apply_map m (Write u) = Some (m', x) ->
  exists t', apply_table t (Write u) = Ret (t', x) /\ stands_for t' m'.
Proof.
  cbn [apply_map apply_table]. destruct (m_rows m !! _) as [r|] eqn:E; [|done].
  simpl. intros [= <- <-]. destruct (stands_holder _ r E) as (i & e & Hh & ->).
  destruct (write_holder t u i e (st_wf _ _ Hs) Hh) as (t' & rest & Ew & Hwf & H1 & H2).
  rewrite Ew. exists t'. split; [done|].
  destruct (holder_live _ _ _ _ Hh) as (_ & _ & Hk). unfold entry_key in Hk.
  rewrite <- Hk. apply (stands_replace t' (tuple_ e, lock_ e) _ rest H1 H2); [done|done|].
  by eapply write_next.
Qed.

Lemma remove_step k m' x :
  apply_map m (Remove k) = Some (m', x) ->
  exists t', apply_table t (Remove k) = Ret (t', x) /\ stands_for t' m'.
Proof.
  cbn [apply_map apply_table]. destruct (m_rows m !! k) as [r|] eqn:E; [|done]. simpl.
  destruct (Z.eqb_spec r.2 (-1)) as [Hl|]; [|done]. intros [= <- <-].
  destruct (stands_holder k r E) as (i & e & Hh & ->). simpl in Hl.
  destruct (remove_holder t k i e (st_wf _ _ Hs) Hh) as (t' & Er & _ & H1 & _ & Hwf & _).
  rewrite Er. exists t'. split; [done|].
  pose proof (st_distinct _ _ Hs) as Hd. unfold distinct_keys, keys in Hd.
  pose proof (map_of_perm _ _ H1 Hd) as Em. rewrite H1 in Hd. csimpl in Hd.
  apply list.NoDup_cons in Hd as [Hno Hd].
  destruct (holder_live _ _ _ _ Hh) as (_ & _ & Hk). unfold entry_key in Hk. rewrite Hk in Hno.
  split; [by apply Hwf|done| |simpl; by rewrite (remove_next _ _ _ _ Er), (st_next _ _ Hs)].
  cbn [m_rows]. rewrite (st_rows _ _ Hs), Em, map_of_cons. simpl. rewrite Hk.
  rewrite delete_insert_id; [done|]. by apply map_of_None.
Qed.

Lemma release_step k m' x :
  apply_map m (Release k) = Some (m', x) ->
  exists t', apply_table t (Release k) = Ret (t', x) /\ stands_for t' m'.
Proof.
  cbn [apply_map apply_table]. destruct (m_rows m !! k) as [r|] eqn:E; [|done]. simpl.
  destruct (Z.eqb_spec r.2 0) as [|Hl]; [done|]. intros [= <- <-].
  destruct (stands_holder k r E) as (i & e & Hh & ->). simpl in Hl.
  destruct (release_holder t k i e (st_wf _ _ Hs) Hh Hl) as (t' & rest & Er & Hwf & _ & H1 & H2).
  rewrite Er. exists t'. split; [done|].
  destruct (holder_live _ _ _ _ Hh) as (_ & _ & Hk). unfold entry_key in Hk.
  rewrite <- Hk. apply (stands_replace t' (tuple_ e, lock_ e) _ rest H1 H2); [done|done|].
  by eapply release_next.
Qed.

Lemma promote_step k m' x :
  apply_map m (Promote k) = Some (m', x) ->
  exists t', apply_table t (Promote k) = Ret (t', x) /\ stands_for t' m'.
Proof.
  cbn [apply_map apply_table]. destruct (m_rows m !! k) as [r|] eqn:E; [|done]. simpl.
  destruct (stands_holder k r E) as (i & e & Hh & ->). simpl.
  destruct (holder_live _ _ _ _ Hh) as (Hi & _ & Hk). unfold entry_key in Hk.
  destruct (Z.eqb_spec (lock_ e) 1) as [Hl|Hl]; intros [= <- <-].
  - destruct (promote_holder t k i e id (st_wf _ _ Hs) Hh Hl) as (t' & rest & Ep & Hwf & _ & H1 & H2).
    rewrite Ep. exists t'. split; [done|]. rewrite <- Hk.
    apply (stands_replace t' (tuple_ e, 1) _ rest H1 H2); [done|done|by eapply promote_next].
  - exists t. split; [|done]. unfold promote_.
    rewrite (locate_holder t k i e (st_wf _ _ Hs) Hh). simpl. unfold wait_for.
    unfold id. rewrite (lock_at_holder t i e Hi), (proj2 (Z.eqb_neq _ _) Hl). cbv beta iota.
    done.
Qed.

Lemma call_step c m' x :
  apply_map m c = Some (m', x) ->
  exists t', apply_table t c = Ret (t', x) /\ stands_for t' m'.
Proof.
  destruct c; auto using insert_step, search_step, write_step, remove_step, release_step,
    promote_step. cbn [apply_map apply_table]. intros [= <- <-]. exists t. split; [|done].
  do 3 f_equal. unfold size_. rewrite (st_rows _ _ Hs), map_of_size by apply Hs.
  by rewrite rows_length by apply Hs.
Qed.
End Step.

(** ** Property *)

(** C32.  The hash table behaves like a finite map.  Whatever sequence of calls the
    map answers, the table, called alone, answers too, with the same results
    one by one, and stands for the resulting map afterwards: probing, the
    tombstones that removals leave and their reuse by insertions, and the
    availability counters cannot be observed. *)
Theorem table_equals_map cs t m m' rs :
  stands_for t m -> apply_maps m cs = Some (m', rs) ->
  exists t', apply_tables t cs = Ret (t', rs) /\ stands_for t' m'.
Proof.
  revert t m m' rs. induction cs as [|c cs IH]; intros t m m' rs Hs H; simpl in H.
  { injection H as <- <-. by exists t. }
  destruct (apply_map m c) as [[m1 x]|] eqn:E1; [|done]. simpl in H.
  destruct (apply_maps m1 cs) as [[m2 xs]|] eqn:E2; [|done]. injection H as <- <-.
  destruct (call_step t m Hs c m1 x E1) as (t1 & Et1 & Hs1).
  destruct (IH t1 m1 m2 xs Hs1 E2) as (t2 & Et2 & Hs2).
  exists t2. split; [|done]. cbn [apply_tables].
  by rewrite Et1, (outcome_bind_ret (t1, x)), Et2, (outcome_bind_ret (t2, xs)).
Qed.

Lemma default_stands : stands_for table_default (mkMap ∅ 0).
Proof. split; [apply table_default_wf|constructor|done|done]. Qed.

(** Two records; the first is read, the second changed and found again. *)
Definition calls : list call :=
  [Insert bob; Insert bob; Write (mkStudent 0 0 (replicate 32 65) 21 1); Search 1; Search 7;
   Promote 0; Size].

Lemma table_equals_map_witness :
  exists t', apply_tables table_default calls =
    Ret (t', [Record_ (with_key bob 0); Record_ (with_key bob 1); Done_;
              Record_ (mkStudent 0 0 (replicate 32 65) 21 1); NotFound; Timeout_; Count 2]).
Proof.
  destruct (apply_maps (mkMap ∅ 0) calls) as [[m' rs]|] eqn:E; [|vm_compute in E; discriminate].
  destruct (table_equals_map calls table_default (mkMap ∅ 0) m' rs default_stands E) as (t' & H & _).
  exists t'. rewrite H. f_equal. f_equal. vm_compute in E. injection E as _ <-. reflexivity.
Defined.
