(* ===== verification/Typing.v ===== *)
(** * The types of what is stored

    Buffers are arrays of 32768 bytes and records have members in the range of
    their types.  Every operation on the pool and on the student table keeps
    it so, and what is read out of a buffer as a record is a record. *)
From S2P Require Import Prelude Params Probe BufTable Bytes StudentTuple.
From S2P Require JobBuf StudentTable.

(** ** Buffers *)

Definition whole (bs : list Z) : Prop :=
  Z.of_nat (length bs) = BUFFER_WIDTH /\ Forall is_byte bs.

Definition pool_typed (T : buf_table) : Prop :=
  Forall (fun e => whole (buffer_ e)) (buffers_ T).

Create HintDb typed.

Lemma pool_typed_default : pool_typed buf_table_default.
Proof.
  apply Forall_replicate. split.
  - unfold buf_table_entry_default. cbn [buffer_]. by rewrite length_replicate, Z2Nat.id.
  - apply Forall_replicate. by unfold is_byte.
Qed.

(** The buffer a reference to the pool leads to. *)
Lemma buffer_whole T i : pool_typed T -> (i < length (buffers_ T))%nat -> whole (buffer T (Some i)).
Proof.
  intros HT Hi. destruct (lookup_lt_is_Some_2 _ _ Hi) as [e He]. simpl. rewrite He.
  by apply (Forall_lookup_1 _ _ _ _ HT He).
Qed.

Lemma buffer_bytes T r : pool_typed T -> Forall is_byte (buffer T r).
Proof.
  intros HT. destruct r as [i|]; [|constructor]. simpl.
  destruct (buffers_ T !! i) as [e|] eqn:He; [|constructor].
  by apply (Forall_lookup_1 _ _ _ _ HT He).
Qed.

Lemma set_count_typed T i n sz nx :
  pool_typed T -> pool_typed (mkBufTable (set_count T i n) sz nx).
Proof. intros HT. by apply Forall_alter. Qed.

Lemma request_typed T T' r : pool_typed T -> request T = Ret (T', r) -> pool_typed T'.
Proof.
  intros HT. unfold request. destruct (_ <=? _); [by intros [= <- _]|].
  destruct (while_true _ _ _ _); simpl; [|done]. intros [= <- _]. by apply set_count_typed.
Qed.

Lemma ref_copy_typed T r : pool_typed T -> pool_typed (ref_copy T r).1.
Proof.
  intros HT. destruct r as [i|]; [|done]. simpl. unfold retain_ref.
  destruct (buffers_ T !! i); [by apply set_count_typed|done].
Qed.

Lemma release_typed T i : pool_typed T -> pool_typed (release_ref T i).
Proof.
  intros HT. unfold release_ref. destruct (buffers_ T !! i); [|done].
  destruct (_ =? _); [done|by apply set_count_typed].
Qed.

Lemma ref_destroy_typed T r : pool_typed T -> pool_typed (ref_destroy T r).1.
Proof. intros HT. destruct r as [i|]; [by apply release_typed|done]. Qed.

Lemma ref_assign_typed T r s : pool_typed T -> pool_typed (ref_assign T r s).1.
Proof.
  intros HT. unfold ref_assign. pose proof (ref_copy_typed T s HT) as H.
  destruct r, s; simpl in *; auto using release_typed.
Qed.

Lemma store_typed T r bs : pool_typed T -> whole bs -> pool_typed (store T r bs).
Proof. intros HT Hb. destruct r as [i|]; [|done]. by apply Forall_alter. Qed.

(** Writing through a reference: one that leads nowhere writes nothing. *)
Lemma write_whole buf off bs :
  whole buf -> Forall is_byte bs -> Z.of_nat (off + length bs) <= BUFFER_WIDTH ->
  whole (write buf off bs).
Proof.
  intros [Hl Hb] Hbs Hfit. split; [rewrite write_length by lia; done|by apply write_byte].
Qed.

Lemma store_with T r f :
  pool_typed T -> (forall b, whole b -> whole (f b)) -> pool_typed (store T r (f (buffer T r))).
Proof.
  intros HT Hf. destruct r as [i|]; [|done].
  destruct (decide (i < length (buffers_ T))%nat) as [Hi|Hi].
  - apply store_typed; [done|]. by apply Hf, buffer_whole.
  - unfold store, pool_typed. cbn [buffers_]. by rewrite alter_none by (apply lookup_ge_None; lia).
Qed.

Lemma set_field_typed T p n v f :
  pool_typed T -> (n <= 32)%nat -> pool_typed (JobBuf.set_field T p n v f).
Proof.
  intros HT Hn. unfold JobBuf.set_field.
  apply (store_with T _ (fun b => write b (JobBuf.offset f) (le_bytes n v))); [done|].
  intros b Hb. apply write_whole; [done|apply le_bytes_byte|].
  rewrite length_le_bytes. unfold BUFFER_WIDTH. destruct f; simpl; lia.
Qed.

#[export] Hint Resolve pool_typed_default request_typed ref_copy_typed release_typed
  ref_destroy_typed ref_assign_typed store_typed : typed.

(** ** Records in buffers *)

Lemma le_value_read b off n :
  Forall is_byte b -> 0 <= le_value (read b off n) < 256 ^ Z.of_nat n.
Proof.
  intros Hb. pose proof (le_value_bounds (read b off n) (read_byte _ _ _ Hb)) as [H1 H2].
  split; [done|]. eapply Z.lt_le_trans; [exact H2|]. apply Z.pow_le_mono_r; [lia|].
  unfold read. rewrite length_take. lia.
Qed.

Lemma name_read b off :
  whole b -> Z.of_nat (off + NAME_LENGTH) <= BUFFER_WIDTH ->
  length (read b off NAME_LENGTH) = NAME_LENGTH /\ Forall is_byte (read b off NAME_LENGTH).
Proof. intros [Hl Hb] Hf. split; [apply read_length; lia|by apply read_byte]. Qed.

Lemma of_object_typed b : whole b -> student_wf (of_object_bytes b).
Proof.
  intros Hb. pose proof Hb as [_ Hby].
  destruct (name_read b 8 Hb ltac:(unfold BUFFER_WIDTH, NAME_LENGTH; lia)) as [Hn Hnb].
  pose proof (le_value_read b 0 4 Hby). pose proof (le_value_read b 4 4 Hby).
  pose proof (le_value_read b 40 1 Hby). pose proof (le_value_read b 41 1 Hby).
  by split.
Qed.

Lemma deserialize_typed t b off t' r :
  student_wf t -> whole b -> Z.of_nat (off + SERIAL_SIZE) <= BUFFER_WIDTH ->
  deserialize_ t b off = (t', r) -> student_wf t'.
Proof.
  intros Ht Hb Hf [= <- _]. pose proof Hb as [_ Hby]. unfold SERIAL_SIZE in Hf.
  destruct (name_read b off Hb ltac:(unfold NAME_LENGTH; lia)) as [Hn Hnb].
  pose proof (le_value_read b (off + NAME_LENGTH + 1) 4 Hby).
  pose proof (le_value_read b (off + NAME_LENGTH) 1 Hby).
  destruct Ht. by split.
Qed.

Lemma object_bytes_byte t : student_wf t -> Forall is_byte (object_bytes t).
Proof.
  intros Ht. unfold object_bytes.
  repeat apply Forall_app_2; try apply le_bytes_byte; [apply Ht|].
  repeat constructor; by unfold is_byte.
Qed.

Lemma object_store_typed T r t :
  pool_typed T -> student_wf t ->
  pool_typed (store T r (write (buffer T r) 0 (object_bytes t))).
Proof.
  intros HT Ht. apply (store_with T r (fun b => write b 0 (object_bytes t))); [done|].
  intros b Hb. apply write_whole; [done|by apply object_bytes_byte|].
  rewrite object_bytes_length by done. unfold SIZEOF_STUDENT, BUFFER_WIDTH. lia.
Qed.

Lemma serialize_store_typed T r t off :
  pool_typed T -> student_wf t -> Z.of_nat (off + SERIAL_SIZE) <= BUFFER_WIDTH ->
  pool_typed (store T r (serialize_ t (buffer T r) off).1).
Proof.
  intros HT Ht Hf. unfold SERIAL_SIZE in Hf.
  apply (store_with T r (fun b => (serialize_ t b off).1)); [done|].
  intros b Hb. cbn [serialize_ fst]. repeat apply write_whole; try apply le_bytes_byte; try done.
  - apply Forall_take, Ht.
  - rewrite length_take, (wf_name _ Ht). unfold NAME_LENGTH. lia.
  - rewrite length_le_bytes. unfold NAME_LENGTH. lia.
  - rewrite length_le_bytes. unfold NAME_LENGTH. lia.
Qed.

(** ** The student table *)

Record table_typed (t : StudentTable.StudentTable) : Prop := {
  tt_length : length (StudentTable.table_ t) = StudentTable.Rows;
  tt_records : Forall (fun e => student_wf (StudentTable.tuple_ e)) (StudentTable.table_ t);
  tt_next : is_byte (StudentTable.next_key_ t)
}.

Lemma table_typed_default : table_typed StudentTable.table_default.
Proof.
  split; [done| |by unfold is_byte]. apply Forall_replicate, student_default_wf.
Qed.

Lemma table_typed_alter t i f s x n :
  table_typed t ->
  (forall e, student_wf (StudentTable.tuple_ e) -> student_wf (StudentTable.tuple_ (f e))) ->
  table_typed (StudentTable.mkTable (StudentTable.update_slot t i f) s x n
    (StudentTable.next_key_ t)).
Proof.
  intros [Hl Hr Hk] Hf. unfold StudentTable.update_slot.
  split; cbn [StudentTable.table_ StudentTable.next_key_]; [by rewrite list.length_alter| |done].
  apply Forall_alter; [done|]. intros e _ He. by apply Hf.
Qed.

Section Table.
Context (t : StudentTable.StudentTable) (Ht : table_typed t).

Lemma insert_typed r t' x :
  student_wf r -> StudentTable.insert_ id t r = Ret (t', x) -> table_typed t'.
Proof.
  intros Hr. unfold StudentTable.insert_.
  destruct (wait id _ t) as [t0| |] eqn:Hw; [|done..].
  assert (t0 = t) as ->.
  { unfold wait, id in Hw. by destruct (StudentTable.full_ t); simplify_eq/=. }
  rewrite outcome_bind_ret. destruct (while_true _ _ _ _) as [[t1 x1]|] eqn:E; [|done].
  intros [= <- <-]. pose proof Ht as [Hl Hrs Hk].
  apply while_true_Some in E as (j & _ & E & _); [|apply StudentTable.table_home_lt].
  destruct (_ !! _) as [e|]; [|done]. destruct (_ || _); [|done]. injection E as <- _.
  split; simpl; [by rewrite length_insert| |].
  - apply Forall_insert; [done|]. destruct Hr. by split.
  - unfold is_byte, u8. apply Z.mod_pos_bound. lia.
Qed.

Lemma remove_typed k t' x : StudentTable.remove_ t k = Ret (t', x) -> table_typed t'.
Proof.
  unfold StudentTable.remove_. destruct (StudentTable.locate t k) as [i| |]; [|done..].
  intros [= <- _]. by apply table_typed_alter.
Qed.

Lemma write_typed r t' x :
  student_wf r -> StudentTable.write_ t r = Ret (t', x) -> table_typed t'.
Proof.
  intros Hr. unfold StudentTable.write_. destruct (StudentTable.locate _ _) as [i| |]; [|done..].
  intros [= <- _]. by apply table_typed_alter.
Qed.

Lemma release_typed_table k t' : StudentTable.release_ t k = Ret t' -> table_typed t'.
Proof.
  unfold StudentTable.release_. destruct (StudentTable.locate _ _) as [i| |]; [|done..].
  rewrite outcome_bind_ret. destruct (_ =? -1); intros [= <-]; by apply table_typed_alter.
Qed.

Lemma promote_typed k t' x : StudentTable.promote_ id t k = Ret (t', x) -> table_typed t'.
Proof.
  unfold StudentTable.promote_. destruct (StudentTable.locate _ _) as [i| |]; [|done..].
  rewrite outcome_bind_ret. unfold wait_for, id.
  destruct (_ =? 1); intros [= <- _]; [by apply table_typed_alter|done].
Qed.

Lemma grant_shared_typed t' x : StudentTable.grant_shared t = Some (t', x) -> table_typed t'.
Proof.
  unfold StudentTable.grant_shared. intros (i & _ & E & _)%for_return_Some.
  destruct (_ !! i) as [e|]; [|done]. destruct (_ && _ && _); [|done]. injection E as <- _.
  by apply table_typed_alter.
Qed.

Lemma grant_exclusive_typed t' x : StudentTable.grant_exclusive t = Some (t', x) -> table_typed t'.
Proof.
  unfold StudentTable.grant_exclusive. intros (i & _ & E & _)%for_return_Some.
  destruct (_ !! i) as [e|]; [|done]. destruct (_ && _ && _); [|done]. injection E as <- _.
  by apply table_typed_alter.
Qed.

Lemma wait_shared_typed : table_typed (StudentTable.wait_shared_ id id t).1.
Proof.
  unfold StudentTable.wait_shared_, wait_for, id.
  destruct (negb _); [|done]. destruct (0 <? _); [|done].
  destruct (StudentTable.grant_shared t) as [[t' x]|] eqn:E; [|done].
  by apply grant_shared_typed in E.
Qed.

Lemma wait_exclusive_typed : table_typed (StudentTable.wait_exclusive_ id id t).1.
Proof.
  unfold StudentTable.wait_exclusive_, wait_for, id.
  destruct (negb _); [|done]. destruct (0 <? _); [|done].
  destruct (StudentTable.grant_exclusive t) as [[t' x]|] eqn:E; [|done].
  by apply grant_exclusive_typed in E.
Qed.

Lemma slot_typed i r : StudentTable.search_slot t i = Some r -> student_wf r.
Proof.
  unfold StudentTable.search_slot. destruct (StudentTable.table_ t !! i) as [e|] eqn:He; [|done].
  simpl. intros [= <-]. by apply (Forall_lookup_1 _ _ _ _ (tt_records _ Ht) He).
Qed.
End Table.
