(* ===== verification/Ring.v ===== *)
(** * Circular buffers

    The theory of an array used as a ring, shared by [commit_queue],
    [job_channel] and [ret_channel], and the interface [Fifo] the three offer
    their clients: a bounded first-in first-out queue of items that hold
    counted references. *)
From S2P Require Import Prelude Params BufTable.

Section Ring.
Context {A : Type} (N : nat).
Implicit Types (l : list A).

(** The items of a ring that starts at [head] and holds [count] of them. *)
Fixpoint items l (head count : nat) : list A :=
  match count with
  | O => []
  | S c =>
      match l !! head with
      | Some x => x :: items l ((head + 1) mod N) c
      | None => []
      end
  end.

(** Two indices walk the ring: [head] is the next item out, [tail] the next
    slot to fill. *)
Record ring_wf l (head tail : nat) (size : Z) : Prop := {
  ring_length : length l = N;
  ring_head : (head < N)%nat;
  ring_tail : tail = ((head + Z.to_nat size) mod N)%nat;
  ring_size : 0 <= size <= Z.of_nat N
}.

Definition ring_items l head (size : Z) : list A := items l head (Z.to_nat size).

Lemma next_lt h : (h < N)%nat -> ((h + 1) mod N < N)%nat.
Proof. intros. apply Nat.mod_upper_bound. lia. Qed.

Lemma next_add h c : (((h + 1) mod N + c) mod N = (h + S c) mod N)%nat.
Proof. rewrite Nat.Div0.add_mod_idemp_l. f_equal. lia. Qed.

Lemma items_length l h c :
  length l = N -> (h < N)%nat -> length (items l h c) = c.
Proof.
  intros Hlen. revert h; induction c as [|c IH]; intros h Hh; simpl; [done|].
  destruct (lookup_lt_is_Some_2 l h) as [x ->]; [lia|]. simpl. rewrite IH; [done|].
  by apply next_lt.
Qed.

(** Writing a slot outside the occupied part changes nothing. *)
Lemma items_insert_out l h c i x :
  (forall j, (j < c)%nat -> ((h + j) mod N)%nat <> i) -> (h < N)%nat ->
  items (<[i := x]> l) h c = items l h c.
Proof.
  revert h; induction c as [|c IH]; intros h Hj Hh; simpl; [done|].
  assert (Hhi : h <> i).
  { specialize (Hj 0%nat ltac:(lia)). rewrite Nat.add_0_r, Nat.mod_small in Hj; done. }
  rewrite list_lookup_insert_ne by done. destruct (l !! h); [|done]. f_equal.
  apply IH; [|by apply next_lt]. intros j Hjc. rewrite next_add. apply Hj. lia.
Qed.

Lemma items_snoc l h c x :
  length l = N -> (h < N)%nat -> (c < N)%nat ->
  items (<[((h + c) mod N)%nat := x]> l) h (S c) = items l h c ++ [x].
Proof.
  intros Hlen. revert h; induction c as [|c IH]; intros h Hh Hc.
  - simpl. rewrite Nat.add_0_r, Nat.mod_small by done.
    by rewrite list_lookup_insert_eq by lia.
  - cbn [items]. fold (items (<[((h + S c) mod N)%nat:=x]> l) ((h + 1) mod N) (S c)).
    assert (Hne : ((h + S c) mod N)%nat <> h).
    { intros He. destruct (decide (h + S c < N)%nat).
      - rewrite Nat.mod_small in He by done. lia.
      - replace (h + S c)%nat with (h + S c - N + 1 * N)%nat in He by lia.
        rewrite Nat.Div0.mod_add, Nat.mod_small in He by lia. lia. }
    change (match <[((h + S c) mod N)%nat:=x]> l !! h with
      | Some x0 => x0 :: items (<[((h + S c) mod N)%nat:=x]> l) ((h + 1) mod N) (S c)
      | None => [] end = match l !! h with
      | Some x0 => x0 :: items l ((h + 1) mod N) c | None => [] end ++ [x]).
    rewrite list_lookup_insert_ne by done.
    destruct (lookup_lt_is_Some_2 l h) as [y ->]; [lia|]. simpl app. f_equal.
    rewrite <- next_add. apply IH; [by apply next_lt|lia].
Qed.

Lemma slots_distinct h i j :
  (i < N)%nat -> (j < N)%nat -> ((h + i) mod N = (h + j) mod N)%nat -> i = j.
Proof.
  intros Hi Hj He. pose proof (Nat.div_mod_eq (h + i) N) as H1.
  pose proof (Nat.div_mod_eq (h + j) N) as H2. rewrite He in H1.
  destruct (Nat.lt_trichotomy ((h + i) / N) ((h + j) / N)) as [Hl|[Heq|Hl]]; nia.
Qed.

(** The three transitions of a ring. *)

Lemma ring_empty l : length l = N -> (0 < N)%nat -> ring_wf l 0 0 0.
Proof. intros. split; [done|lia| |lia]. by rewrite Nat.add_0_r, Nat.mod_small. Qed.

Lemma ring_push l h t n x :
  ring_wf l h t n -> n < Z.of_nat N ->
  ring_wf (<[t := x]> l) h ((t + 1) mod N) (n + 1) /\
  ring_items (<[t := x]> l) h (n + 1) = ring_items l h n ++ [x].
Proof.
  intros [Hlen Hh -> Hn] Hlt. split; [split|].
  - by rewrite length_insert.
  - done.
  - rewrite Nat.Div0.add_mod_idemp_l. f_equal. lia.
  - lia.
  - unfold ring_items. replace (Z.to_nat (n + 1)) with (S (Z.to_nat n)) by lia.
    apply items_snoc; [done|done|lia].
Qed.

Lemma ring_front l h t n :
  ring_wf l h t n -> 0 < n -> exists x, l !! h = Some x /\
    ring_items l h n = x :: ring_items l ((h + 1) mod N) (n - 1).
Proof.
  intros [Hlen Hh _ Hn] Hp. destruct (lookup_lt_is_Some_2 l h) as [x Hx]; [lia|].
  exists x. split; [done|]. unfold ring_items.
  replace (Z.to_nat n) with (S (Z.to_nat (n - 1))) by lia. simpl. by rewrite Hx.
Qed.

(** Taking the front item out; what is left behind in its slot is
    irrelevant. *)
Lemma ring_pop l h t n y :
  ring_wf l h t n -> 0 < n ->
  ring_wf l ((h + 1) mod N) t (n - 1) /\
  ring_wf (<[h := y]> l) ((h + 1) mod N) t (n - 1) /\
  ring_items (<[h := y]> l) ((h + 1) mod N) (n - 1) =
    ring_items l ((h + 1) mod N) (n - 1).
Proof.
  intros [Hlen Hh -> Hn] Hp.
  assert (Ht : ((h + Z.to_nat n) mod N = ((h + 1) mod N + Z.to_nat (n - 1)) mod N)%nat).
  { rewrite next_add. do 2 f_equal. lia. }
  split; [split; [done|by apply next_lt|done|lia]|]. split.
  - split; [by rewrite length_insert|by apply next_lt|done|lia].
  - apply items_insert_out; [|by apply next_lt]. intros j Hj. rewrite next_add.
    intros He. assert (Hs : ((h + S j) mod N = (h + 0) mod N)%nat).
    { rewrite He, Nat.add_0_r, Nat.mod_small; done. }
    apply slots_distinct in Hs; lia.
Qed.

Lemma ring_items_nil l h t n : ring_wf l h t n -> ring_items l h n = [] <-> n = 0.
Proof.
  intros [Hlen Hh _ Hn]. unfold ring_items. split; [|by intros ->].
  intros He%(f_equal length). rewrite items_length in He by done. simpl in He. lia.
Qed.

Lemma ring_items_length l h t n :
  ring_wf l h t n -> Z.of_nat (length (ring_items l h n)) = n.
Proof.
  intros [Hlen Hh _ Hn]. unfold ring_items. rewrite items_length by done. lia.
Qed.
End Ring.

(** ** Slots that own references *)

Section SlotRefs.
Context {A : Type} (f : A -> buf_ref).
Implicit Types (l : list A).

(** Assigning to a slot an object whose reference is a copy of [s]. *)
Lemma assign_slot_wf T l i x y s R T' :
  l !! i = Some x -> f y = s -> ref_assign T (f x) s = (T', s) ->
  Z.of_nat (length ((f <$> l) ++ R)) < 65534 ->
  pool_wf T (s :: (f <$> l) ++ R) -> pool_wf T' (s :: (f <$> <[i := y]> l) ++ R).
Proof.
  intros Hi Hy Ha Hfew Hwf.
  destruct (insert_split (f <$> l) i (f x)) as (rest & H1 & H2).
  { by rewrite list_lookup_fmap, Hi. }
  rewrite list_fmap_insert, Hy, H2. rewrite H1 in Hwf.
  pose proof (dup_wf T _ 0%nat s Hwf eq_refl) as Hd.
  rewrite <- H1 in Hd. simpl in Hd. specialize (Hd ltac:(simpl in *; lia)).
  unfold ref_assign in Ha. rewrite H1 in Hd. injection Ha as <-.
  simpl in *. apply drop_wf.
  by rewrite (Permutation_swap s), (Permutation_swap s (f x)).
Qed.

(** Destroying the object in a slot, which nulls its reference. *)
Lemma destroy_slot_wf T l i x y R :
  l !! i = Some x -> f y = None -> pool_wf T ((f <$> l) ++ R) ->
  pool_wf (ref_destroy T (f x)).1 ((f <$> <[i := y]> l) ++ R).
Proof.
  intros Hi Hy Hwf.
  destruct (insert_split (f <$> l) i (f x)) as (rest & H1 & H2).
  { by rewrite list_lookup_fmap, Hi. }
  rewrite list_fmap_insert, Hy, H2. rewrite H1 in Hwf. simpl in *.
  pose proof (drop_wf _ _ _ Hwf) as Hd. pose proof (pool_few _ _ Hwf) as Hf. simpl in Hf.
  apply null_wf; [lia|]. by destruct (f x).
Qed.
End SlotRefs.

(** ** The queue interface

    A queue stores items that hold a counted reference, so its operations
    also change the pool.  [slot_refs] are the references the object owns, in
    live and in stale slots alike: they all count. *)

Class Fifo (Q A : Type) := {
  item_ref : A -> buf_ref;
  slot_refs : Q -> list buf_ref;
  queue_wf : Q -> Prop;
  contents : Q -> list A;
  capacity : nat;
  queue_send : buf_table -> Q -> A -> buf_table * Q * QueueError;
  queue_front : Q -> option A;
  queue_pop : buf_table -> Q -> buf_table * Q;
  queue_empty : Q -> bool
}.
#[global] Hint Mode Fifo ! - : typeclass_instances.

Arguments capacity Q {A _}.
Arguments item_ref Q {A _} _.

Class FifoLaws (Q A : Type) `{!Fifo Q A} := {
  send_spec : forall T (q : Q) (x : A), queue_wf q ->
    if (length (contents q) <? capacity Q)%nat
    then exists T' q', queue_send T q x = (T', q', QueueError_None) /\ queue_wf q' /\
      contents q' = contents q ++ [x]
    else queue_send T q x = (T, q, QueueError_Full);
  send_refs : forall T (q : Q) (x : A) T' q' r R, queue_wf q ->
    pool_wf T (item_ref Q x :: slot_refs q ++ R) ->
    Z.of_nat (length (slot_refs q ++ R)) < 65534 ->
    queue_send T q x = (T', q', r) -> pool_wf T' (item_ref Q x :: slot_refs q' ++ R);
  front_spec : forall q : Q, queue_wf q -> queue_front q = head (contents q);
  pop_spec : forall T (q : Q) (x : A) rest, queue_wf q -> contents q = x :: rest ->
    queue_wf (queue_pop T q).2 /\ contents (queue_pop T q).2 = rest;
  pop_refs : forall T (q : Q) R, queue_wf q -> contents q <> [] ->
    pool_wf T (slot_refs q ++ R) ->
    pool_wf (queue_pop T q).1 (slot_refs (queue_pop T q).2 ++ R);
  empty_spec : forall q : Q, queue_wf q -> queue_empty q = bool_decide (contents q = [])
}.

(** [while (!q.empty()) { auto x = q.get().unwrap(); ...; q.pop(); }]: the loop
    by which the jobs of a joined worker are answered.  [visit] is what is done
    to each front item, [leave] the destructors at the end of the round. *)
Section Drain.
Context {Q A W : Type} `{FQ : Fifo Q A} `{!FifoLaws Q A}.
Context (visit : buf_table -> W -> A -> buf_table * W) (leave : buf_table -> A -> buf_table).

Fixpoint drain (fuel : nat) (T : buf_table) (w : W) (q : Q)
    : option (buf_table * W * Q) :=
  match fuel with
  | O => None
  | S f =>
      if queue_empty q then Some (T, w, q)
      else match queue_front q with
           | Some x => let '(T1, w1) := visit T w x in
                       let '(T2, q2) := queue_pop T1 q in
                       drain f (leave T2 x) w1 q2
           | None => None
           end
  end.

(** The loop runs once per item and leaves an empty queue; what each round
    preserves holds at the end. *)
Lemma drain_spec (I : buf_table -> W -> Q -> Prop) :
  (forall T w q x rest, queue_wf q -> contents q = x :: rest -> I T w q ->
     I (leave (queue_pop (visit T w x).1 q).1 x) (visit T w x).2
       (queue_pop (visit T w x).1 q).2) ->
  forall fuel T w q, queue_wf q -> I T w q -> (length (contents q) < fuel)%nat ->
  exists T' w' q', drain fuel T w q = Some (T', w', q') /\ queue_wf q' /\
    contents q' = [] /\ I T' w' q'.
Proof.
  intros Hstep. induction fuel as [|f IH]; intros T w q Hwf HI Hlt; [lia|]. simpl.
  rewrite empty_spec by done. destruct (contents q) as [|x rest] eqn:Hc.
  - rewrite bool_decide_true by done. eauto 8.
  - rewrite bool_decide_false by done. rewrite front_spec, Hc by done. simpl.
    specialize (Hstep T w q x rest Hwf Hc HI).
    destruct (visit T w x) as [T1 w1] eqn:Hv. simpl in Hstep.
    pose proof (pop_spec T1 q x rest Hwf Hc) as [Hwf' Hc'].
    destruct (queue_pop T1 q) as [T2 q2] eqn:Hp. simpl in *.
    apply IH; [done|done|]. rewrite Hc'. lia.
Qed.
End Drain.

(** Sending a list of items and then draining the queue: everything comes out
    in the order it went in, up to the first refusal. *)
Section SendAll.
Context {Q A : Type} `{FQ : Fifo Q A} `{!FifoLaws Q A}.

Fixpoint send_all (T : buf_table) (q : Q) (xs : list A)
    : buf_table * Q * list QueueError :=
  match xs with
  | [] => (T, q, [])
  | x :: xs' =>
      let '(T1, q1, r) := queue_send T q x in
      let '(T2, q2, rs) := send_all T1 q1 xs' in (T2, q2, r :: rs)
  end.

Definition room (q : Q) : nat := capacity Q - length (contents q).

Lemma send_all_spec xs : forall T q, queue_wf q -> (length (contents q) <= capacity Q)%nat ->
  exists T' q', send_all T q xs = (T', q', replicate (min (room q) (length xs)) QueueError_None ++
      replicate (length xs - room q) QueueError_Full) /\
    queue_wf q' /\ contents q' = contents q ++ take (room q) xs.
Proof.
  induction xs as [|x xs IH]; intros T q Hwf Hle.
  - exists T, q. split_and!; [|done|by rewrite take_nil, app_nil_r].
    simpl length. by rewrite Nat.min_0_r.
  - simpl. pose proof (send_spec T q x Hwf) as Hs.
    destruct (Nat.ltb_spec (length (contents q)) (capacity Q)) as [Hlt|Hge].
    + destruct Hs as (T1 & q1 & -> & Hwf1 & Hc1).
      assert (Hr : room q = S (room q1)) by (unfold room; rewrite Hc1, length_app; simpl; lia).
      destruct (IH T1 q1 Hwf1) as (T2 & q2 & -> & Hwf2 & Hc2).
      { rewrite Hc1, length_app. simpl. lia. }
      exists T2, q2. rewrite Hr. split; [done|]. split; [done|].
      rewrite Hc2, Hc1, <- app_assoc. done.
    + assert (Hr : room q = 0%nat) by (unfold room; lia).
      rewrite Hs. destruct (IH T q Hwf Hle) as (T2 & q2 & -> & Hwf2 & Hc2).
      exists T2, q2. rewrite Hr in *. rewrite !Nat.sub_0_r. done.
Qed.

(** The sends keep the reference counts exact. *)
Lemma send_all_refs xs R : forall T q T' q' rs, queue_wf q ->
  (length (contents q) <= capacity Q)%nat ->
  (forall q0 : Q, queue_wf q0 ->
     Z.of_nat (length (slot_refs q0 ++ (item_ref Q <$> xs) ++ R)) < 65534) ->
  pool_wf T (slot_refs q ++ (item_ref Q <$> xs) ++ R) ->
  send_all T q xs = (T', q', rs) ->
  pool_wf T' (slot_refs q' ++ (item_ref Q <$> xs) ++ R).
Proof.
  revert R. induction xs as [|x xs IH]; intros R T q T' q' rs Hwf Hle Hfew Hp Hs;
    csimpl in *; [by simplify_eq|].
  destruct (queue_send T q x) as [[T1 q1] r] eqn:E1.
  destruct (send_all T1 q1 xs) as [[T2 q2] rs2] eqn:E2. simplify_eq.
  assert (Hfew' : Z.of_nat (length (slot_refs q ++ (item_ref Q <$> xs) ++ R)) < 65534).
  { specialize (Hfew q Hwf). rewrite length_app in Hfew |- *.
    cbn [length app] in Hfew. lia. }
  rewrite <- Permutation_middle in Hp.
  pose proof (send_refs T q x T1 q1 r _ Hwf Hp Hfew' E1) as Hp1.
  assert (Hwf1 : queue_wf q1 /\ (length (contents q1) <= capacity Q)%nat).
  { pose proof (send_spec T q x Hwf) as Hq. destruct (Nat.ltb_spec (length (contents q)) (capacity Q)).
    - destruct Hq as (? & ? & E & Hq & Hc). rewrite E in E1. simplify_eq.
      split; [done|]. rewrite Hc, length_app. simpl. lia.
    - rewrite Hq in E1. by simplify_eq. }
  destruct Hwf1 as [Hwf1 Hle1].
  assert (Hperm : forall q0 : Q, slot_refs q0 ++ (item_ref Q <$> xs) ++ item_ref Q x :: R ≡ₚ
    slot_refs q0 ++ item_ref Q x :: (item_ref Q <$> xs) ++ R).
  { intros q0. by rewrite Permutation_middle. }
  rewrite <- Hperm. apply (IH _ T1 q1 _ _ rs2); [done|done| | |done].
  - intros q0 Hq0. rewrite Hperm. by apply Hfew.
  - by rewrite Hperm, <- Permutation_middle.
Qed.
End SendAll.
