(* ===== verification/CommitQueue.v ===== *)
(** * The commit queue and the rollback stack of a transaction

    [commit], [commit_queue] ([types/commit.h], [types/commit_queue.h]) and
    [rollback], [rollback_stack].  Entries hold a counted buffer reference,
    so copying one changes the pool.  In [commit_queue] the code writes at
    [head_] and reads at [tail_]. *)
From S2P Require Import Prelude Params Probe BufTable UniqueKey Ring.

(** ** [commit] *)

Record commit := mkCommit {
  commit_buffer_ : buf_ref;
  commit_key_ : unique_key;
  commit_op_ : OpType
}.

Definition commit_default : commit := mkCommit None unique_key_default MAX_OP_VALUE.

(** [commit(const unique_key&, OpType, const buf_ref&)] *)
Definition commit_make (T : buf_table) (_key : unique_key) (_op : OpType) (_buffer : buf_ref)
    : buf_table * commit :=
  let '(T', r) := ref_copy T _buffer in (T', mkCommit r _key _op).

(** [commit(const commit&)] and [buf()], which returns by value *)
Definition commit_copy (T : buf_table) (other : commit) : buf_table * commit :=
  let '(T', r) := ref_copy T (commit_buffer_ other) in
  (T', mkCommit r (commit_key_ other) (commit_op_ other)).
Definition commit_buf (T : buf_table) (this : commit) : buf_table * buf_ref :=
  ref_copy T (commit_buffer_ this).

Definition commit_key (this : commit) : unique_key := commit_key_ this.
Definition commit_op (this : commit) : OpType := commit_op_ this.

(** [operator=(const commit&)] *)
Definition commit_assign (T : buf_table) (this other : commit) : buf_table * commit :=
  let '(T', r) := ref_assign T (commit_buffer_ this) (commit_buffer_ other) in
  (T', mkCommit r (commit_key_ other) (commit_op_ other)).

(** [~commit()] *)
Definition commit_destroy (T : buf_table) (this : commit) : buf_table :=
  (ref_destroy T (commit_buffer_ this)).1.

(** ** [commit_queue] *)

Record commit_queue := mkCommitQueue {
  commits_ : list commit;
  head_ : nat;
  tail_ : nat;
  size_ : Z
}.

Definition N : nat := Z.to_nat MAX_COMMIT_PER_TRANSACTION.
Definition commit_queue_default : commit_queue :=
  mkCommitQueue (replicate N commit_default) 0 0 0.

Definition size (this : commit_queue) : Z := size_ this.
Definition empty (this : commit_queue) : bool := size_ this =? 0.
Definition full (this : commit_queue) : bool := Z.of_nat N <=? size_ this.

(** The returned [Result] holds a copy of the entry. *)
Definition get (T : buf_table) (this : commit_queue)
    : outcome (buf_table * Result commit QueueError) :=
  match commits_ this !! tail_ this with
  | Some c => let '(T', c') := commit_copy T c in Ret (T', Ok c')
  | None => Undef
  end.

Definition send (T : buf_table) (this : commit_queue) (_entry : commit)
    : buf_table * commit_queue * QueueError :=
  if full this then (T, this, QueueError_Full)
  else
    match commits_ this !! head_ this with
    | Some c =>
        let '(T', c') := commit_assign T c _entry in
        (T', mkCommitQueue (<[head_ this := c']> (commits_ this))
               ((head_ this + 1) mod N) (tail_ this) (u64 (size_ this + 1)),
         QueueError_None)
    | None => (T, this, QueueError_None)
    end.

Definition pop (this : commit_queue) : commit_queue :=
  mkCommitQueue (commits_ this) (head_ this) ((tail_ this + 1) mod N)
    (u64 (size_ this - 1)).

Definition clear (this : commit_queue) : commit_queue :=
  mkCommitQueue (commits_ this) 0 0 0.

(** ** [rollback] and [rollback_stack] *)

Record rollback := mkRollback {
  rollback_buffer_ : buf_ref;
  rollback_key_ : unique_key;
  rollback_op_ : OpType
}.

Definition rollback_default : rollback := mkRollback None unique_key_default MAX_OP_VALUE.

Definition rollback_make (T : buf_table) (_key : unique_key) (_op : OpType)
    (_buffer : buf_ref) : buf_table * rollback :=
  let '(T', r) := ref_copy T _buffer in (T', mkRollback r _key _op).

Definition rollback_copy (T : buf_table) (other : rollback) : buf_table * rollback :=
  let '(T', r) := ref_copy T (rollback_buffer_ other) in
  (T', mkRollback r (rollback_key_ other) (rollback_op_ other)).

(** [buf()] returns a counted copy of the reference. *)
Definition rollback_buf (T : buf_table) (this : rollback) : buf_table * buf_ref :=
  ref_copy T (rollback_buffer_ this).
Definition rollback_key (this : rollback) : unique_key := rollback_key_ this.
Definition rollback_op (this : rollback) : OpType := rollback_op_ this.

Definition rollback_assign (T : buf_table) (this other : rollback) : buf_table * rollback :=
  let '(T', r) := ref_assign T (rollback_buffer_ this) (rollback_buffer_ other) in
  (T', mkRollback r (rollback_key_ other) (rollback_op_ other)).

Record rollback_stack := mkRollbackStack {
  rollbacks_ : list rollback;
  stack_size_ : Z
}.

Definition rollback_stack_default : rollback_stack :=
  mkRollbackStack (replicate N rollback_default) 0.

Definition stack_size (this : rollback_stack) : Z := stack_size_ this.
Definition stack_empty (this : rollback_stack) : bool := stack_size_ this =? 0.
Definition stack_full (this : rollback_stack) : bool := Z.of_nat N <=? stack_size_ this.

Definition push (T : buf_table) (this : rollback_stack) (entry : rollback)
    : buf_table * rollback_stack * QueueError :=
  if stack_full this then (T, this, QueueError_Full)
  else
    let i := Z.to_nat (stack_size_ this) in
    match rollbacks_ this !! i with
    | Some r =>
        let '(T', r') := rollback_assign T r entry in
        (T', mkRollbackStack (<[i := r']> (rollbacks_ this)) (u64 (stack_size_ this + 1)),
         QueueError_None)
    | None => (T, this, QueueError_None)
    end.

Definition top (T : buf_table) (this : rollback_stack)
    : buf_table * Result rollback QueueError :=
  if stack_empty this then (T, Err QueueError_Empty)
  else
    match rollbacks_ this !! Z.to_nat (stack_size_ this - 1) with
    | Some r => let '(T', r') := rollback_copy T r in (T', Ok r')
    | None => (T, Err QueueError_Empty)
    end.

Definition stack_pop (this : rollback_stack) : rollback_stack :=
  if stack_empty this then this
  else mkRollbackStack (rollbacks_ this) (u64 (stack_size_ this - 1)).

Definition stack_clear (this : rollback_stack) : rollback_stack :=
  mkRollbackStack (rollbacks_ this) 0.

(** ** The queue as a [Fifo] *)

Abbreviation commits_wf q := (ring_wf N (commits_ q) (tail_ q) (head_ q) (size_ q)).

#[global] Instance commit_fifo : Fifo commit_queue commit := {
  item_ref := commit_buffer_;
  slot_refs q := commit_buffer_ <$> commits_ q;
  queue_wf q := commits_wf q;
  contents q := ring_items N (commits_ q) (tail_ q) (size_ q);
  capacity := N;
  queue_send := send;
  queue_front q := commits_ q !! tail_ q ≫= (fun c => if empty q then None else Some c);
  queue_pop T q := (T, pop q);
  queue_empty := empty
}.

Lemma commit_queue_default_wf : queue_wf commit_queue_default.
Proof. apply ring_empty; vm_compute; lia. Qed.

Lemma commits_size_small q : commits_wf q -> 0 <= size_ q <= 16.
Proof. intros [_ _ _ Hs]. exact Hs. Qed.

Lemma commits_empty q : commits_wf q -> empty q = bool_decide (contents q = []).
Proof.
  intros Hwf. unfold empty. pose proof (ring_items_nil N _ _ _ _ Hwf) as Hn. simpl.
  destruct (Z.eqb_spec (size_ q) 0).
  - by rewrite bool_decide_true by tauto.
  - by rewrite bool_decide_false by tauto.
Qed.

Lemma commits_full q : commits_wf q -> full q = negb (length (contents q) <? N)%nat.
Proof.
  intros Hwf. unfold full. pose proof (ring_items_length N _ _ _ _ Hwf) as Hl. simpl.
  destruct (Nat.ltb_spec (length (ring_items N (commits_ q) (tail_ q) (size_ q))) N);
    [apply Z.leb_gt|apply Z.leb_le]; lia.
Qed.

(** A send into a queue with room. *)
Lemma send_room T q x :
  commits_wf q -> full q = false ->
  exists c T', commits_ q !! head_ q = Some c /\
    ref_assign T (commit_buffer_ c) (commit_buffer_ x) = (T', commit_buffer_ x) /\
    send T q x = (T', mkCommitQueue (<[head_ q := x]> (commits_ q))
      ((head_ q + 1) mod N) (tail_ q) (size_ q + 1), QueueError_None).
Proof.
  intros Hwf Hf. pose proof (commits_size_small q Hwf). unfold send. rewrite Hf.
  destruct (lookup_lt_is_Some_2 (commits_ q) (head_ q)) as [c Hc].
  { rewrite (ring_length _ _ _ _ _ Hwf), (ring_tail _ _ _ _ _ Hwf).
    apply Nat.mod_upper_bound. vm_compute. lia. }
  rewrite Hc. unfold commit_assign, ref_assign. eexists c, _. split_and!; [done..|].
  assert (u64 (size_ q + 1) = size_ q + 1) as -> by word. by destruct x.
Qed.

#[global] Instance commit_fifo_laws : FifoLaws commit_queue commit.
Proof.
  split.
  - intros T q x Hwf. pose proof (commits_full q Hwf) as Hf. simpl in *.
    destruct (_ <? N)%nat eqn:Hlt; simpl in Hf.
    + destruct (send_room T q x Hwf Hf) as (c & T' & _ & _ & ->).
      unfold full in Hf. apply Z.leb_gt in Hf.
      destruct (ring_push N _ _ _ _ x Hwf Hf). eauto 6.
    + unfold send. by rewrite Hf.
  - intros T q x T' q' r R Hwf Hp Hfew Hs. destruct (full q) eqn:Hf.
    { unfold queue_send, commit_fifo, send in Hs. rewrite Hf in Hs. by simplify_eq. }
    destruct (send_room T q x Hwf Hf) as (c & T2 & Hc & Ha & E).
    simpl in Hs. rewrite E in Hs. simplify_eq. simpl.
    by eapply assign_slot_wf.
  - intros q Hwf. simpl. destruct (empty q) eqn:He; unfold empty in He.
    + apply Z.eqb_eq in He. rewrite He. by destruct (commits_ q !! tail_ q).
    + pose proof (commits_size_small q Hwf). apply Z.eqb_neq in He.
      destruct (ring_front N _ _ _ _ Hwf ltac:(lia)) as (c & -> & ->). done.
  - intros T q x rest Hwf Hc. simpl in *. pose proof (commits_size_small q Hwf).
    assert (Hpos : 0 < size_ q).
    { destruct (decide (size_ q = 0)) as [E|]; [|lia].
      by rewrite (proj2 (ring_items_nil N _ _ _ _ Hwf)) in Hc. }
    assert (u64 (size_ q - 1) = size_ q - 1) as -> by word.
    destruct (ring_front N _ _ _ _ Hwf Hpos) as (c & _ & E). rewrite E in Hc.
    split; [by apply (ring_pop N _ _ _ _ x Hwf Hpos)|]. congruence.
  - done.
  - intros q Hwf. by apply commits_empty.
Qed.

(** [get] on a non-empty queue. *)
Lemma get_front T q x rest :
  commits_wf q -> contents q = x :: rest ->
  get T q = Ret ((ref_copy T (commit_buffer_ x)).1, Ok x).
Proof.
  intros Hwf Hc. simpl in Hc. pose proof (commits_size_small q Hwf).
  assert (Hpos : 0 < size_ q).
  { destruct (decide (size_ q = 0)) as [E|]; [|lia].
    by rewrite (proj2 (ring_items_nil N _ _ _ _ Hwf)) in Hc. }
  destruct (ring_front N _ _ _ _ Hwf Hpos) as (c & Hl & E).
  rewrite E in Hc. simplify_eq. unfold get. rewrite Hl.
  unfold commit_copy. destruct x as [[i|] k o]; done.
Qed.

(** ** The stack *)

Record stack_wf (s : rollback_stack) : Prop := {
  stack_length : length (rollbacks_ s) = N;
  stack_bounds : 0 <= stack_size_ s <= 16
}.

(** The entries, last pushed first. *)
Definition stack_items (s : rollback_stack) : list rollback :=
  reverse (take (Z.to_nat (stack_size_ s)) (rollbacks_ s)).

Lemma stack_default_wf : stack_wf rollback_stack_default.
Proof. split; [done|simpl; lia]. Qed.

Lemma stack_items_cons s r :
  rollbacks_ s !! Z.to_nat (stack_size_ s - 1) = Some r -> 0 < stack_size_ s ->
  stack_items s = r :: reverse (take (Z.to_nat (stack_size_ s - 1)) (rollbacks_ s)).
Proof.
  intros Hr Hp. unfold stack_items.
  replace (Z.to_nat (stack_size_ s)) with (S (Z.to_nat (stack_size_ s - 1))) by lia.
  rewrite (take_S_r _ _ r) by done. by rewrite reverse_snoc.
Qed.

Lemma stack_top s :
  stack_wf s -> 0 < stack_size_ s -> exists r rest, stack_items s = r :: rest /\
    stack_wf (stack_pop s) /\ stack_items (stack_pop s) = rest /\
    forall T, top T s = ((ref_copy T (rollback_buffer_ r)).1, Ok r).
Proof.
  intros [Hlen Hb] Hp.
  destruct (lookup_lt_is_Some_2 (rollbacks_ s) (Z.to_nat (stack_size_ s - 1))) as [r Hr].
  { rewrite Hlen. change N with 16%nat. lia. }
  exists r. eexists. split; [by apply stack_items_cons|].
  assert (He : stack_empty s = false) by (apply Z.eqb_neq; lia).
  assert (Hu : u64 (stack_size_ s - 1) = stack_size_ s - 1) by word.
  unfold stack_pop, top. rewrite He, Hu, Hr. split_and!; [split; simpl; [done|lia]|done|].
  intros T. unfold rollback_copy. by destruct r as [[i|] k o].
Qed.

(** ** Properties *)

(** The commit queue is first-in first-out and bounded: of a list of
    entries sent, the first ones that fit are accepted and every later one is
    refused with [Full] and changes nothing; draining the queue then yields
    the old entries followed by the accepted ones, in order, and leaves it
    empty; and the reference counts stay exact, stale slots included. *)
Theorem commit_queue_fifo T q xs R :
  queue_wf q -> pool_wf T (slot_refs q ++ (commit_buffer_ <$> xs) ++ R) ->
  Z.of_nat (N + length xs + length R) < 65534 ->
  exists T' q' q'',
    send_all T q xs = (T', q',
      replicate (min (room q) (length xs)) QueueError_None ++
      replicate (length xs - room q) QueueError_Full) /\
    pool_wf T' (slot_refs q' ++ (commit_buffer_ <$> xs) ++ R) /\
    drain (fun T seen c => (T, seen ++ [c])) (fun T _ => T) (S N) T' [] q' =
      Some (T', contents q ++ take (room q) xs, q'') /\
    queue_wf q'' /\ empty q'' = true.
Proof.
  intros Hwf Hp Hfew.
  assert (Hcap : forall q : commit_queue, queue_wf q -> (length (contents q) <= capacity commit_queue)%nat).
  { intros q0 Hq. pose proof (ring_items_length N _ _ _ _ Hq) as Hl. simpl in *.
    pose proof (ring_size _ _ _ _ _ Hq). lia. }
  destruct (send_all_spec xs T q Hwf (Hcap q Hwf)) as (T' & q' & E & Hwf' & Hc').
  exists T', q'.
  destruct (drain_spec (fun T seen c => (T, seen ++ [c])) (fun T _ => T)
    (fun T0 (seen : list commit) (q0 : commit_queue) => T0 = T' /\ seen ++ contents q0 = contents q') )
    with (fuel := S N) (T := T') (w := @nil commit) (q := q')
    as (T2 & seen & q'' & Ed & Hwf2 & Hc2 & -> & Hseen).
  - intros T0 seen q0 x rest Hq0 Hc0 [-> Hs]. split; [done|].
    destruct (pop_spec T' q0 x rest Hq0 Hc0) as [_ Hr].
    rewrite <- Hs, Hc0. simpl in Hr |- *. by rewrite Hr, <- app_assoc.
  - done.
  - done.
  - specialize (Hcap q' Hwf'). change (capacity commit_queue) with N in Hcap. lia.
  - exists q''. rewrite Hc2, app_nil_r, Hc' in Hseen. rewrite <- Hseen.
    split_and!; [done| |done|done|].
    + refine (send_all_refs xs R T q T' q' _ Hwf (Hcap q Hwf) _ Hp E).
      intros q0 Hq0. change (slot_refs q0) with (commit_buffer_ <$> commits_ q0).
      rewrite !length_app, !length_fmap, (ring_length _ _ _ _ _ Hq0). lia.
    + rewrite commits_empty by done. by rewrite bool_decide_true.
Qed.

(** The rollback stack is last-in first-out and bounded at 16:
    [push] on a stack with room puts the entry on top, where [top] finds it
    (one more reference to its buffer) and [pop] takes it off again, leaving
    what was there before; [push] on a full stack is refused, and [top] and
    [pop] on an empty one do nothing. *)
Theorem rollback_lifo T s e :
  stack_wf s ->
  (stack_size_ s < 16 -> exists T' s', push T s e = (T', s', QueueError_None) /\
     stack_wf s' /\ stack_items s' = e :: stack_items s /\
     (forall T, top T s' = ((ref_copy T (rollback_buffer_ e)).1, Ok e)) /\
     stack_wf (stack_pop s') /\ stack_items (stack_pop s') = stack_items s) /\
  (stack_size_ s = 16 -> push T s e = (T, s, QueueError_Full)) /\
  (stack_size_ s = 0 -> top T s = (T, Err QueueError_Empty) /\ stack_pop s = s).
Proof.
  intros [Hlen Hb]. split_and!.
  - intros Hlt. unfold push.
    assert (stack_full s = false) as -> by (apply Z.leb_gt; change (Z.of_nat N) with 16; lia).
    destruct (lookup_lt_is_Some_2 (rollbacks_ s) (Z.to_nat (stack_size_ s))) as [r Hr].
    { rewrite Hlen. change N with 16%nat. lia. }
    rewrite Hr. unfold rollback_assign, ref_assign.
    assert (u64 (stack_size_ s + 1) = stack_size_ s + 1) as -> by word.
    assert (mkRollback (rollback_buffer_ e) (rollback_key_ e) (rollback_op_ e) = e) as ->
      by (by destruct e).
    eexists _, (mkRollbackStack _ _). split; [done|].
    set (s' := mkRollbackStack _ _).
    assert (Hwf' : stack_wf s') by (split; simpl; [by rewrite length_insert|lia]).
    assert (Hi : stack_items s' = e :: stack_items s).
    { unfold s'. rewrite (stack_items_cons _ e); [|simpl..].
      - simpl. replace (stack_size_ s + 1 - 1) with (stack_size_ s) by lia.
        by rewrite take_insert_ge by done.
      - replace (stack_size_ s + 1 - 1) with (stack_size_ s) by lia.
        rewrite list_lookup_insert_eq; [done|]. by eapply lookup_lt_Some.
      - lia. }
    destruct (stack_top s' Hwf' ltac:(simpl; lia)) as (r' & rest & Hi' & Hw & Hr' & Ht).
    rewrite Hi in Hi'. injection Hi' as <- <-. done.
  - intros Hf. unfold push, stack_full. by rewrite Hf.
  - intros Hz. unfold top, stack_pop, stack_empty. by rewrite Hz.
Qed.

(** ** Witnesses *)

Definition sample_commit (n : Z) : commit := mkCommit None (mkKey 1 n) UPDATE.

Lemma null_pool_wf n : (n < 100)%nat -> pool_wf buf_table_default (replicate n None).
Proof.
  intros Hn. assert (n <= 100)%nat as Hle by lia. clear Hn.
  induction n as [|n IH]; [apply pool_wf_default|]. simpl. apply null_wf.
  - rewrite length_replicate. lia.
  - apply IH. lia.
Qed.

Lemma commit_queue_fifo_witness :
  exists T' q' q'',
    send_all buf_table_default commit_queue_default [sample_commit 1; sample_commit 2] =
      (T', q', [QueueError_None; QueueError_None]) /\
    drain (fun T seen c => (T, seen ++ [c])) (fun T _ => T) (S N) T' [] q' =
      Some (T', [sample_commit 1; sample_commit 2], q'').
Proof.
  destruct (commit_queue_fifo buf_table_default commit_queue_default
    [sample_commit 1; sample_commit 2] []) as (T' & q' & q'' & E & _ & D & _).
  - apply commit_queue_default_wf.
  - apply (null_pool_wf 18). lia.
  - vm_compute. reflexivity.
  - exists T', q', q''. split; [exact E|exact D].
Defined.

Lemma rollback_lifo_witness :
  exists T' s', push buf_table_default rollback_stack_default
      (mkRollback None (mkKey 1 2) UPDATE) = (T', s', QueueError_None) /\
    stack_items s' = [mkRollback None (mkKey 1 2) UPDATE].
Proof.
  destruct (rollback_lifo buf_table_default rollback_stack_default
    (mkRollback None (mkKey 1 2) UPDATE) stack_default_wf) as [H _].
  destruct H as (T' & s' & E & _ & Hi & _); [reflexivity|].
  exists T', s'. split; [exact E|exact Hi].
Defined.
