(* ===== verification/Channels.v ===== *)
(** * Messages and channels

    [client_conn], [job], [ret] and the channels that carry them between the
    socket thread and the workers: [job_channel] and [ret_channel]
    ([types/client_conn.h], [types/job.h], [types/ret.h],
    [types/job_channel.h], [types/ret_channel.h] and their [.cpp] files).
    Both channels are rings under a mutex, so each function is atomic; both
    write at [tail_] and read at [head_]. *)
From S2P Require Import Prelude Params Probe BufTable Ring.
From S2P Require JobBuf RetBuf.

(** ** [client_conn]

    A [sockaddr_storage] is 128 bytes.  [reply] hands a datagram to the
    operating system; the model returns the datagram. *)

Record client_conn := mkConn {
  addr_ : list Z;
  addr_len_ : Z
}.

Definition STORAGE : nat := 128.
Definition conn_default : client_conn := mkConn (replicate STORAGE 0) 0.

Definition conn_make (addr : list Z) (addr_len : Z) : client_conn :=
  mkConn (take (Z.to_nat addr_len) addr ++ drop (Z.to_nat addr_len) (replicate STORAGE 0))
    addr_len.

Definition datagram : Type := client_conn * list Z.

Definition conn_reply (this : client_conn) (data : list Z) (size : Z) : datagram :=
  (this, take (Z.to_nat size) data).

(** ** [job] and [ret] *)

Record job := mkJob {
  buf_ : JobBuf.job_buf;
  conn_ : client_conn
}.

Definition job_default : job := mkJob JobBuf.job_buf_default conn_default.

(** [job(buf_ref&&, std::size_t, client_conn)] takes over the reference. *)
Definition job_make (_buffer : buf_ref) (_buffer_size : Z) (_conn : client_conn) : job :=
  mkJob (JobBuf.mkJobBuf _buffer _buffer_size) _conn.

Definition job_ref (this : job) : buf_ref := JobBuf.ref (buf_ this).
Definition buf_sz (this : job) : Z := JobBuf.get_buffer_size (buf_ this).

Definition conn (this : job) : client_conn := conn_ this.

(** [job(const job&)] *)
Definition job_copy (T : buf_table) (other : job) : buf_table * job :=
  let '(T', r) := ref_copy T (job_ref other) in
  (T', mkJob (JobBuf.mkJobBuf r (buf_sz other)) (conn_ other)).

(** [operator=(const job&)] *)
Definition job_assign (T : buf_table) (this other : job) : buf_table * job :=
  let '(T', r) := ref_assign T (job_ref this) (job_ref other) in
  (T', mkJob (JobBuf.mkJobBuf r (buf_sz other)) (conn_ other)).

(** [~job()] leaves a null reference behind. *)
Definition job_destroy (T : buf_table) (this : job) : buf_table * job :=
  let '(T', r) := ref_destroy T (job_ref this) in
  (T', mkJob (JobBuf.mkJobBuf r (buf_sz this)) (conn_ this)).

Record ret := mkRet {
  ret_buf_ : RetBuf.ret_buf;
  ret_conn_ : client_conn
}.

Definition ret_default : ret := mkRet RetBuf.ret_buf_default conn_default.

Definition ret_make (_buffer : buf_ref) (_buffer_size : Z) (_conn : client_conn) : ret :=
  mkRet (RetBuf.mkRetBuf _buffer _buffer_size) _conn.

Definition ret_ref (this : ret) : buf_ref := RetBuf.ref (ret_buf_ this).

Definition ret_buf_sz (this : ret) : Z := RetBuf.get_buffer_size (ret_buf_ this).
Definition ret_conn (this : ret) : client_conn := ret_conn_ this.

Definition ret_assign (T : buf_table) (this other : ret) : buf_table * ret :=
  let '(T', r) := ref_assign T (ret_ref this) (ret_ref other) in
  (T', mkRet (RetBuf.mkRetBuf r (RetBuf.get_buffer_size (ret_buf_ other))) (ret_conn_ other)).

Definition ret_copy (T : buf_table) (other : ret) : buf_table * ret :=
  let '(T', r) := ref_copy T (ret_ref other) in
  (T', mkRet (RetBuf.mkRetBuf r (RetBuf.get_buffer_size (ret_buf_ other))) (ret_conn_ other)).

(** ** [job_channel] *)

Record job_channel := mkJobChannel {
  jobs_ : list job;
  head_ : nat;
  tail_ : nat;
  count_ : Z
}.

Definition MaxJobs : nat := Z.to_nat MAX_ITEM_PER_CHANNEL.
Definition job_channel_default : job_channel :=
  mkJobChannel (replicate MaxJobs job_default) 0 0 0.

Definition size (this : job_channel) : Z := count_ this.
Definition full (this : job_channel) : bool := Z.of_nat MaxJobs <=? count_ this.
Definition empty (this : job_channel) : bool := count_ this =? 0.

(** The front job, as the copy a returned [Result] holds. *)
Definition front_copy (T : buf_table) (this : job_channel)
    : buf_table * Result job QueueError :=
  match jobs_ this !! head_ this with
  | Some j => let '(T', j') := job_copy T j in (T', Ok j')
  | None => (T, Err QueueError_Empty)
  end.

Definition get (T : buf_table) (this : job_channel) : buf_table * Result job QueueError :=
  if negb (empty this) then front_copy T this else (T, Err QueueError_Empty).

Definition recv (env : buf_table * job_channel -> buf_table * job_channel)
    (T : buf_table) (this : job_channel)
    : buf_table * job_channel * Result job QueueError :=
  let '((T, this), w_r) := wait_for env (fun s => negb (empty s.2)) (T, this) in
  if w_r then let '(T', r) := front_copy T this in (T', this, r)
  else (T, this, Err QueueError_Timeout).

Definition send (T : buf_table) (this : job_channel) (_job : job)
    : buf_table * job_channel * QueueError :=
  if full this then (T, this, QueueError_Full)
  else
    match jobs_ this !! tail_ this with
    | Some j =>
        let '(T', j') := job_assign T j _job in
        (T', mkJobChannel (<[tail_ this := j']> (jobs_ this)) (head_ this)
               ((tail_ this + 1) mod MaxJobs) (u64 (count_ this + 1)), QueueError_None)
    | None => (T, this, QueueError_None)
    end.

Definition pop (T : buf_table) (this : job_channel) : buf_table * job_channel :=
  match jobs_ this !! head_ this with
  | Some j =>
      let '(T', j') := job_destroy T j in
      (T', mkJobChannel (<[head_ this := j']> (jobs_ this))
             ((head_ this + 1) mod MaxJobs) (tail_ this) (u64 (count_ this - 1)))
  | None => (T, this)
  end.

(** Leaves the channel alone; the result says whether the condition variable
    is signalled. *)
Definition notify_not_empty (this : job_channel) : bool := true.

Definition clear (this : job_channel) : job_channel := mkJobChannel (jobs_ this) 0 0 0.

(** ** [ret_channel]

    The header stores [ret] objects; the worker and the socket thread use the
    channel with transaction ids.  The ring is the same, so the item type and
    its assignment are arguments. *)

Section RetChannel.
Context {A : Type} (assign : buf_table -> A -> A -> buf_table * A).

Record ret_channel := mkRetChannel {
  rets_ : list A;
  ret_head_ : nat;
  ret_tail_ : nat;
  ret_count_ : Z
}.

Definition MaxRets : nat := Z.to_nat MAX_ITEM_PER_CHANNEL.
Definition ret_channel_make (x : A) : ret_channel :=
  mkRetChannel (replicate MaxRets x) 0 0 0.

Definition ret_size (this : ret_channel) : Z := ret_count_ this.
Definition ret_empty (this : ret_channel) : bool := ret_count_ this =? 0.
Definition ret_full (this : ret_channel) : bool := ret_count_ this =? Z.of_nat MaxRets.

(** [get] before the copy the returned [Result] makes. *)
Definition ret_get (this : ret_channel) : Result A QueueError :=
  if negb (ret_empty this) then
    match rets_ this !! ret_head_ this with
    | Some r => Ok r
    | None => Err QueueError_Empty
    end
  else Err QueueError_Empty.

(** There is no check for a full channel. *)
Definition ret_send (T : buf_table) (this : ret_channel) (_ret : A)
    : buf_table * ret_channel * QueueError :=
  match rets_ this !! ret_tail_ this with
  | Some r =>
      let '(T', r') := assign T r _ret in
      (T', mkRetChannel (<[ret_tail_ this := r']> (rets_ this)) (ret_head_ this)
             ((ret_tail_ this + 1) mod MaxRets) (u64 (ret_count_ this + 1)),
       QueueError_None)
  | None => (T, this, QueueError_None)
  end.

Definition ret_clear (this : ret_channel) : ret_channel :=
  mkRetChannel (rets_ this) 0 0 0.

Definition ret_pop (this : ret_channel) : ret_channel :=
  mkRetChannel (rets_ this) ((ret_head_ this + 1) mod MaxRets) (ret_tail_ this)
    (u64 (ret_count_ this - 1)).
End RetChannel.
Arguments ret_channel A : clear implicits.

(** Transaction ids are copied as they are. *)
Definition id_assign (T : buf_table) (this other : Z) : buf_table * Z := (T, other).

(** ** The job channel as a [Fifo] *)

Abbreviation jobs_wf q := (ring_wf MaxJobs (jobs_ q) (head_ q) (tail_ q) (count_ q)).

#[global] Instance job_fifo : Fifo job_channel job := {
  item_ref := job_ref;
  slot_refs q := job_ref <$> jobs_ q;
  queue_wf q := jobs_wf q;
  contents q := ring_items MaxJobs (jobs_ q) (head_ q) (count_ q);
  capacity := MaxJobs;
  queue_send := send;
  queue_front q := jobs_ q !! head_ q ≫= (fun j => if empty q then None else Some j);
  queue_pop := pop;
  queue_empty := empty
}.

Lemma job_channel_default_wf : queue_wf job_channel_default.
Proof. apply ring_empty; vm_compute; lia. Qed.

Lemma jobs_count_small q : jobs_wf q -> 0 <= count_ q <= 16.
Proof. intros [_ _ _ Hs]. exact Hs. Qed.

Lemma jobs_empty q : jobs_wf q -> empty q = bool_decide (contents q = []).
Proof.
  intros Hwf. unfold empty. pose proof (ring_items_nil MaxJobs _ _ _ _ Hwf) as Hn. simpl.
  destruct (Z.eqb_spec (count_ q) 0).
  - by rewrite bool_decide_true by tauto.
  - by rewrite bool_decide_false by tauto.
Qed.

Lemma jobs_full q : jobs_wf q -> full q = negb (length (contents q) <? MaxJobs)%nat.
Proof.
  intros Hwf. unfold full. pose proof (ring_items_length MaxJobs _ _ _ _ Hwf) as Hl. simpl.
  destruct (Nat.ltb_spec (length (ring_items MaxJobs (jobs_ q) (head_ q) (count_ q))) MaxJobs);
    [apply Z.leb_gt|apply Z.leb_le]; lia.
Qed.

Lemma jobs_positive q x rest : jobs_wf q -> contents q = x :: rest -> 0 < count_ q.
Proof.
  intros Hwf Hc. simpl in Hc. pose proof (jobs_count_small q Hwf).
  destruct (decide (count_ q = 0)) as [E|]; [|lia].
  by rewrite (proj2 (ring_items_nil MaxJobs _ _ _ _ Hwf)) in Hc.
Qed.

Lemma job_send_room T q x :
  jobs_wf q -> full q = false ->
  exists c T', jobs_ q !! tail_ q = Some c /\
    ref_assign T (job_ref c) (job_ref x) = (T', job_ref x) /\
    send T q x = (T', mkJobChannel (<[tail_ q := x]> (jobs_ q)) (head_ q)
      ((tail_ q + 1) mod MaxJobs) (count_ q + 1), QueueError_None).
Proof.
  intros Hwf Hf. pose proof (jobs_count_small q Hwf). unfold send. rewrite Hf.
  destruct (lookup_lt_is_Some_2 (jobs_ q) (tail_ q)) as [c Hc].
  { rewrite (ring_length _ _ _ _ _ Hwf), (ring_tail _ _ _ _ _ Hwf).
    apply Nat.mod_upper_bound. vm_compute. lia. }
  rewrite Hc. unfold job_assign, ref_assign. eexists c, _. split_and!; [done..|].
  assert (u64 (count_ q + 1) = count_ q + 1) as -> by word. by destruct x as [[] ?].
Qed.

(** The front job and what [pop] leaves. *)
Lemma pop_front T q x rest :
  jobs_wf q -> contents q = x :: rest ->
  exists y, jobs_ q !! head_ q = Some x /\ job_ref y = None /\
    pop T q = ((ref_destroy T (job_ref x)).1,
      mkJobChannel (<[head_ q := y]> (jobs_ q)) ((head_ q + 1) mod MaxJobs) (tail_ q)
        (count_ q - 1)).
Proof.
  intros Hwf Hc. pose proof (jobs_positive q x rest Hwf Hc) as Hpos.
  pose proof (jobs_count_small q Hwf).
  destruct (ring_front MaxJobs _ _ _ _ Hwf Hpos) as (c & Hl & E). simpl in Hc.
  rewrite E in Hc. injection Hc as -> _. unfold pop. rewrite Hl. unfold job_destroy.
  assert (u64 (count_ q - 1) = count_ q - 1) as -> by word.
  destruct (job_ref x) as [i|]; simpl; (eexists; split; [done|split; [|done]]; done).
Qed.

#[global] Instance job_fifo_laws : FifoLaws job_channel job.
Proof.
  split.
  - intros T q x Hwf. pose proof (jobs_full q Hwf) as Hf. simpl in *.
    destruct (_ <? MaxJobs)%nat eqn:Hlt; simpl in Hf.
    + destruct (job_send_room T q x Hwf Hf) as (c & T' & _ & _ & ->).
      unfold full in Hf. apply Z.leb_gt in Hf.
      destruct (ring_push MaxJobs _ _ _ _ x Hwf Hf). eauto 6.
    + unfold send. by rewrite Hf.
  - intros T q x T' q' r R Hwf Hp Hfew Hs. destruct (full q) eqn:Hf.
    { unfold queue_send, job_fifo, send in Hs. rewrite Hf in Hs. by simplify_eq. }
    destruct (job_send_room T q x Hwf Hf) as (c & T2 & Hc & Ha & E).
    simpl in Hs. rewrite E in Hs. simplify_eq. simpl.
    by eapply assign_slot_wf.
  - intros q Hwf. simpl. destruct (empty q) eqn:He; unfold empty in He.
    + apply Z.eqb_eq in He. rewrite He. by destruct (jobs_ q !! head_ q).
    + pose proof (jobs_count_small q Hwf). apply Z.eqb_neq in He.
      destruct (ring_front MaxJobs _ _ _ _ Hwf ltac:(lia)) as (c & -> & ->). done.
  - intros T q x rest Hwf Hc. pose proof (jobs_positive q x rest Hwf Hc) as Hpos.
    destruct (pop_front T q x rest Hwf Hc) as (y & _ & _ & E). simpl. rewrite E. simpl.
    destruct (ring_pop MaxJobs _ _ _ _ y Hwf Hpos) as (_ & Hw & ->). split; [done|].
    destruct (ring_front MaxJobs _ _ _ _ Hwf Hpos) as (c & _ & E2). simpl in Hc. congruence.
  - intros T q R Hwf Hc Hp. destruct (contents q) as [|x rest] eqn:E; [done|].
    destruct (pop_front T q x rest Hwf E) as (y & Hl & Hy & E2). simpl. rewrite E2. simpl.
    by apply (destroy_slot_wf job_ref).
  - intros q Hwf. by apply jobs_empty.
Qed.

Lemma front_copy_spec T q x rest :
  jobs_wf q -> contents q = x :: rest ->
  front_copy T q = ((ref_copy T (job_ref x)).1, Ok x).
Proof.
  intros Hwf Hc. destruct (pop_front T q x rest Hwf Hc) as (y & Hl & _).
  unfold front_copy, job_copy. rewrite Hl. by destruct x as [[[i|] s] c].
Qed.

(** ** Properties *)

(** C37.  The job channel delivers in order: sending to a well-formed
    channel appends the job, or answers [Full] at 16 jobs and changes
    nothing; [recv] answers [Timeout] exactly if the channel is empty when the
    wait ends and otherwise the oldest job, which stays in the channel; [pop]
    removes exactly that job and gives its buffer reference back, so the
    counts stay exact. *)
Theorem job_channel_spec T q x env R :
  queue_wf q -> queue_wf (env (T, q)).2 ->
  (if (length (contents q) <? 16)%nat
   then exists T' q', send T q x = (T', q', QueueError_None) /\ queue_wf q' /\
     contents q' = contents q ++ [x]
   else send T q x = (T, q, QueueError_Full)) /\
  (exists T' q', (contents q <> [] -> (T', q') = (T, q)) /\ queue_wf q' /\
     match contents q' with
     | [] => recv env T q = (T', q', Err QueueError_Timeout)
     | y :: rest =>
         recv env T q = ((ref_copy T' (job_ref y)).1, q', Ok y) /\
         queue_wf (pop T' q').2 /\ contents (pop T' q').2 = rest /\
         (pool_wf T' (slot_refs q' ++ R) ->
          pool_wf (pop T' q').1 (slot_refs (pop T' q').2 ++ R))
     end).
Proof.
  intros Hwf Henv. split; [exact (send_spec T q x Hwf)|].
  unfold recv. destruct (wait_for env _ (T, q)) as [[T' q'] b] eqn:W.
  pose proof (wait_for_cases _ _ _ _ _ W) as [-> Hs].
  assert (Hwf' : queue_wf q') by (destruct Hs as [E|E]; [by simplify_eq|by rewrite <- E in Henv]).
  exists T', q'. split.
  { intros Hne. unfold wait_for in W. cbn [snd] in W.
    rewrite (jobs_empty q Hwf), bool_decide_false in W by done. simpl in W. congruence. }
  split; [done|]. cbn [snd]. rewrite (jobs_empty q' Hwf').
  destruct (contents q') as [|y rest] eqn:Hc.
  - by rewrite bool_decide_true.
  - rewrite bool_decide_false by done. simpl negb. cbv iota.
    rewrite (front_copy_spec _ _ _ _ Hwf' Hc). split; [done|].
    destruct (pop_spec T' q' y rest Hwf' Hc) as [Hw Hr]. split_and!; [done..|].
    intros Hp. apply (pop_refs T' q' R Hwf'); [by rewrite Hc|done].
Qed.

(** The return channel has no check for a full ring: below 16
    entries [send] appends, but the 17th entry is accepted too, replaces the
    oldest one and leaves the channel believing it holds 17. *)
Theorem ret_send_overwrites {A} (assign : buf_table -> A -> A -> buf_table * A) T q x :
  (forall T a b, (assign T a b).2 = b) ->
  ring_wf MaxRets (rets_ q) (ret_head_ q) (ret_tail_ q) (ret_count_ q) ->
  exists T' q', ret_send assign T q x = (T', q', QueueError_None) /\
    (ret_count_ q < 16 ->
       ring_wf MaxRets (rets_ q') (ret_head_ q') (ret_tail_ q') (ret_count_ q') /\
       ring_items MaxRets (rets_ q') (ret_head_ q') (ret_count_ q') =
         ring_items MaxRets (rets_ q) (ret_head_ q) (ret_count_ q) ++ [x]) /\
    (ret_count_ q = 16 -> ret_get q' = Ok x /\ ret_count_ q' = 17).
Proof.
  intros Ha Hwf. pose proof (ring_size _ _ _ _ _ Hwf) as Hb.
  change (Z.of_nat MaxRets) with 16 in Hb. unfold ret_send.
  assert (Ht : (ret_tail_ q < MaxRets)%nat).
  { rewrite (ring_tail _ _ _ _ _ Hwf). apply Nat.mod_upper_bound. vm_compute. lia. }
  destruct (lookup_lt_is_Some_2 (rets_ q) (ret_tail_ q)) as [r Hr].
  { by rewrite (ring_length _ _ _ _ _ Hwf). }
  rewrite Hr. destruct (assign T r x) as [T' r'] eqn:E.
  pose proof (Ha T r x) as Hx. rewrite E in Hx. simpl in Hx. subst r'.
  assert (u64 (ret_count_ q + 1) = ret_count_ q + 1) as -> by word.
  eexists T', _. split; [done|]. split; simpl.
  - intros Hlt. by apply ring_push.
  - intros Hf. unfold ret_get, ret_empty. simpl. rewrite Hf. split; [|done].
    assert (ret_tail_ q = ret_head_ q) as Heq.
    { rewrite (ring_tail _ _ _ _ _ Hwf), Hf.
      replace (ret_head_ q + Z.to_nat 16)%nat with (ret_head_ q + 1 * MaxRets)%nat by done.
      rewrite Nat.Div0.mod_add. apply Nat.mod_small, Hwf. }
    rewrite Heq. rewrite Heq in Hr. simpl.
    rewrite list_lookup_insert_eq; [done|]. by eapply lookup_lt_Some.
Qed.

(** ** Witnesses *)

Definition sample_job : job := job_make None 7 conn_default.
Definition channel1 : job_channel := (send buf_table_default job_channel_default sample_job).1.2.

Lemma channel1_wf : queue_wf channel1.
Proof.
  destruct (send_spec buf_table_default job_channel_default sample_job job_channel_default_wf)
    as (T & q & E & Hwf & _).
  unfold channel1. change (send _ _ _) with
    (queue_send buf_table_default job_channel_default sample_job). by rewrite E.
Qed.

Lemma job_channel_spec_witness :
  queue_wf channel1 /\ contents channel1 = [sample_job] /\
  exists T', recv id buf_table_default channel1 = (T', channel1, Ok sample_job).
Proof.
  split; [apply channel1_wf|]. split; [vm_compute; reflexivity|].
  destruct (job_channel_spec buf_table_default channel1 sample_job id [] channel1_wf channel1_wf)
    as [_ (T' & q' & Hq & _ & H)].
  assert (Hc : contents channel1 = [sample_job]) by (vm_compute; reflexivity).
  assert (E : (T', q') = (buf_table_default, channel1)).
  { apply Hq. rewrite Hc. discriminate. }
  injection E as -> ->. rewrite Hc in H. destruct H as [H _]. eexists. exact H.
Defined.

Lemma ret_send_overwrites_witness :
  exists T' q', ret_send id_assign buf_table_default (ret_channel_make 0) 5 =
    (T', q', QueueError_None) /\
    ring_items MaxRets (rets_ q') (ret_head_ q') (ret_count_ q') = [5].
Proof.
  destruct (ret_send_overwrites id_assign buf_table_default (ret_channel_make 0) 5)
    as (T' & q' & E & H & _).
  - intros. reflexivity.
  - apply ring_empty; vm_compute; lia.
  - exists T', q'. split; [exact E|]. destruct H as [_ H]; [reflexivity|].
    rewrite H. vm_compute. reflexivity.
Defined.
