(* ===== verification/Prog.v ===== *)
(** * Programs of a thread and what they guarantee

    The code of a thread is a tree of atomic actions.  An action is one call
    that runs under a mutex, or one access to the thread's own data; it maps
    the shared state and the thread's local state to new ones.  Between two
    actions any other thread may run, so the tree says exactly where threads
    interleave.

    [run] executes a program against an environment [env]: [env n] is what
    the other threads do before the [n]-th action.  [ok] is the logic: every
    action of the program respects an invariant on the shared state, split
    into what the thread owns and what others own, and a guarantee. *)
From S2P Require Import Prelude.

Section Prog.
Context {S L : Type}.

Inductive prog (A : Type) : Type :=
  | Done (a : A)
  | Act {B : Type} (f : S -> L -> outcome (S * L * B)) (k : B -> prog A).
Arguments Done {A} a.
Arguments Act {A B} f k.

Fixpoint bind {A B} (p : prog A) (h : A -> prog B) : prog B :=
  match p with
  | Done a => h a
  | Act f k => Act f (fun b => bind (k b) h)
  end.

Definition act {B} (f : S -> L -> outcome (S * L * B)) : prog B := Act f (fun b => Done b).

(** An action that never returns: an endless loop. *)
Definition diverge {A} : prog A := act (fun _ _ => Hang).

Fixpoint run {A} (env : nat -> S -> L -> S * L) (n : nat) (p : prog A) (s : S) (l : L)
    : outcome (nat * S * L * A) :=
  match p with
  | Done a => Ret (n, s, l, a)
  | Act f k =>
      let '(s1, l1) := env n s l in
      match f s1 l1 with
      | Ret (s2, l2, b) => run env (n + 1) (k b) s2 l2
      | Hang => Hang
      | Undef => Undef
      end
  end.

(** No other thread is active. *)
Definition idle (n : nat) (s : S) (l : L) : S * L := (s, l).

Lemma run_bind {A B} env n (p : prog A) (h : A -> prog B) s l :
  run env n (bind p h) s l =
    match run env n p s l with
    | Ret (n', s', l', a) => run env n' (h a) s' l'
    | Hang => Hang
    | Undef => Undef
    end.
Proof.
  revert n s l. induction p as [a|C f k IH]; intros n s l; simpl; [done|].
  destruct (env n s l) as [s1 l1]. destruct (f s1 l1) as [[[s2 l2] b]| |]; auto.
Qed.

Lemma run_act {A B} env n (f : S -> L -> outcome (S * L * B)) (k : B -> prog A) s l :
  run env n (bind (act f) k) s l =
    (let '(s1, l1) := env n s l in
     match f s1 l1 with
     | Ret (s2, l2, b) => run env (n + 1) (k b) s2 l2
     | Hang => Hang
     | Undef => Undef
     end).
Proof. reflexivity. Qed.

(** [returns p s l s' l' a]: run alone, [p] returns [a] in these states. *)
Definition returns {A} (p : prog A) (s : S) (l : L) (s' : S) (l' : L) (a : A) : Prop :=
  forall n, exists n', run idle n p s l = Ret (n', s', l', a).

Lemma returns_done {A} (a : A) s l : returns (Done a) s l s l a.
Proof. intros n. by exists n. Qed.

Lemma returns_bind {A B} (p : prog A) (h : A -> prog B) s l s1 l1 a s2 l2 b :
  returns p s l s1 l1 a -> returns (h a) s1 l1 s2 l2 b -> returns (bind p h) s l s2 l2 b.
Proof.
  intros Hp Hh n. destruct (Hp n) as [n1 E1]. destruct (Hh n1) as [n2 E2].
  exists n2. by rewrite run_bind, E1.
Qed.

Lemma returns_act {B} (f : S -> L -> outcome (S * L * B)) s l s' l' b :
  f s l = Ret (s', l', b) -> returns (act f) s l s' l' b.
Proof. intros Hf n. exists (n + 1)%nat. simpl. by rewrite Hf. Qed.

(** ** The logic

    [core] is the part of the local state no other thread writes.  [g] is
    what the thread owns of the shared state, [O] what everybody else owns.
    [room] and [sane] bound the shared and the local states considered, and
    [quiet s s'] is the guarantee of each action.  [hang] and [undef] say
    whether the program may hang or run into undefined behaviour. *)

Section Logic.
Context {C R V : Type} (core : L -> C) (view : S -> V).
Context (Good : V -> list R -> Prop) (room : V -> Prop) (sane : L -> Prop).
Context (quiet : V -> V -> Prop).
Context (hang undef : Prop).

Fixpoint ok {A} (p : prog A) (Q : C -> list R -> A -> Prop) (c : C) (g : list R) : Prop :=
  match p with
  | Done a => Q c g a
  | Act f k =>
      forall s l, core l = c -> room (view s) -> sane l -> (exists O, Good (view s) (g ++ O)) ->
      match f s l with
      | Ret (s', l', b) =>
          quiet (view s) (view s') /\
          exists g', (forall O, Good (view s) (g ++ O) -> Good (view s') (g' ++ O)) /\
            ok (k b) Q (core l') g'
      | Hang => hang
      | Undef => undef
      end
  end.

Lemma ok_bind {A B} (p : prog A) (h : A -> prog B) Q c g :
  ok p (fun c g a => ok (h a) Q c g) c g -> ok (bind p h) Q c g.
Proof.
  revert c g. induction p as [a|D f k IH]; intros c g H; simpl in *; [done|].
  intros s l Hc Hr Hsn HO. specialize (H s l Hc Hr Hsn HO).
  destruct (f s l) as [[[s' l'] b]| |]; [|done|done].
  destruct H as (Hq & g' & Hg & Hk). eauto 6.
Qed.

(** The bounds hold at every action of a run. *)
Fixpoint roomy {A} (env : nat -> S -> L -> S * L) (n : nat) (p : prog A) (s : S) (l : L)
    : Prop :=
  match p with
  | Done _ => True
  | Act f k =>
      let '(s1, l1) := env n s l in
      room (view s1) /\ sane l1 /\
      match f s1 l1 with
      | Ret (s2, l2, b) => roomy env (n + 1) (k b) s2 l2
      | _ => True
      end
  end.

(** The same, decided along an execution. *)
Fixpoint roomyb {A} (roomb : V -> bool) (saneb : L -> bool) (env : nat -> S -> L -> S * L) (n : nat)
    (p : prog A) (s : S) (l : L) : bool :=
  match p with
  | Done _ => true
  | Act f k =>
      let '(s1, l1) := env n s l in
      roomb (view s1) && saneb l1 &&
      match f s1 l1 with
      | Ret (s2, l2, b) => roomyb roomb saneb env (n + 1) (k b) s2 l2
      | _ => true
      end
  end.

Lemma roomyb_roomy {A} roomb saneb env n (p : prog A) s l :
  (forall v, roomb v = true -> room v) -> (forall l, saneb l = true -> sane l) ->
  roomyb roomb saneb env n p s l = true ->
  roomy env n p s l.
Proof.
  intros Hb Hsb. revert n s l. induction p as [a|D f k IH]; intros n s l; simpl; [done|].
  destruct (env n s l) as [s1 l1]. intros [[H1 Hs1]%andb_true_iff H2]%andb_true_iff.
  split; [auto|]. split; [auto|].
  destruct (f s1 l1) as [[[s2 l2] b]| |]; auto.
Qed.

(** Other threads leave the core alone and respect what the thread owns.
    [others n] is what they own before they act for the [n]-th time: they may
    acquire and give up resources of their own. *)
Definition friendly (env : nat -> S -> L -> S * L) (others : nat -> list R) : Prop :=
  forall n s l, core (env n s l).2 = core l /\
    forall g, Good (view s) (g ++ others n) ->
      Good (view (env n s l).1) (g ++ others (n + 1)%nat).

Lemma friendly_idle O : friendly idle (fun _ => O).
Proof. by intros n s l. Qed.

(** What the logic proves holds of every run among friendly threads. *)
Lemma run_ok {A} (p : prog A) Q env others n s l g :
  PreOrder quiet -> friendly env others -> ok p Q (core l) g -> roomy env n p s l ->
  Good (view s) (g ++ others n) ->
  match run env n p s l with
  | Ret (n', s', l', a) =>
      exists g', Q (core l') g' a /\ Good (view s') (g' ++ others n') /\
        ((forall n s l, quiet (view s) (view (env n s l).1)) -> quiet (view s) (view s'))
  | Hang => hang
  | Undef => undef
  end.
Proof.
  intros Hpre Hf. revert n s l g. induction p as [a|D f k IH]; intros n s l g Hok Hr HO;
    simpl in *; [exists g; split_and!; [done..|reflexivity]|].
  destruct (Hf n s l) as [Hc HO']. specialize (HO' g HO).
  assert (Hq1 : (forall n s l, quiet (view s) (view (env n s l).1)) ->
    quiet (view s) (view (env n s l).1)) by auto.
  destruct (env n s l) as [s1 l1] eqn:He. simpl in *. destruct Hr as (Hr1 & Hr3 & Hr2).
  specialize (Hok s1 l1 Hc Hr1 Hr3 (ex_intro _ _ HO')).
  destruct (f s1 l1) as [[[s2 l2] b]| |]; [|done|done].
  destruct Hok as (Hq & g' & Hg & Hk).
  specialize (IH b (n + 1)%nat s2 l2 g' Hk Hr2 (Hg _ HO')).
  destruct (run env (n + 1) (k b) s2 l2) as [[[[n' s'] l'] a]| |]; [|done|done].
  destruct IH as (g2 & HQ & HO2 & Hq2). exists g2. split_and!; [done..|].
  intros Hall. etrans; [by apply Hq1|]. etrans; [done|]. by apply Hq2.
Qed.

Lemma ok_mono {A} (p : prog A) (Q Q' : C -> list R -> A -> Prop) c g :
  (forall c g a, Q c g a -> Q' c g a) -> ok p Q c g -> ok p Q' c g.
Proof.
  intros HQ. revert c g. induction p as [a|D f k IH]; intros c g H; simpl in *; [auto|].
  intros s l Hc Hr Hsn HO. specialize (H s l Hc Hr Hsn HO).
  destruct (f s l) as [[[s' l'] b]| |]; [|done|done].
  destruct H as (Hq & g' & Hg & Hk). eauto 6.
Qed.

(** An action, with what it owns and changes. *)
Lemma ok_act {A B} (f : S -> L -> outcome (S * L * B)) (k : B -> prog A) Q c g :
  (forall s l, core l = c -> room (view s) -> sane l -> (exists O, Good (view s) (g ++ O)) ->
    match f s l with
    | Ret (s', l', b) =>
        quiet (view s) (view s') /\
        exists g', (forall O, Good (view s) (g ++ O) -> Good (view s') (g' ++ O)) /\
          ok (k b) Q (core l') g'
    | Hang => hang
    | Undef => undef
    end) -> ok (bind (act f) k) Q c g.
Proof. done. Qed.

(** What the thread owns may be reordered, or given up. *)
Lemma ok_own {A} (p : prog A) Q c g g' :
  (forall v O, Good v (g ++ O) -> Good v (g' ++ O)) ->
  (forall a, p = Done a -> Q c g' a -> Q c g a) ->
  ok p Q c g' -> ok p Q c g.
Proof.
  intros Hg HQ. destruct p as [a|B f k]; simpl; intros H; [by apply (HQ a)|].
  intros s l Hc Hr Hsn (O & HO).
  specialize (H s l Hc Hr Hsn (ex_intro _ O (Hg _ _ HO))).
  destruct (f s l) as [[[s' l'] b]| |]; [|done|done].
  destruct H as (Hq & g2 & Hg2 & Hk). split; [done|]. eauto 6.
Qed.
End Logic.

Lemma ok_weaken {C R V} (core : L -> C) (view : S -> V) (Good : V -> list R -> Prop)
    room sane (quiet quiet' : V -> V -> Prop) (hang hang' undef undef' : Prop)
    {A} (p : prog A) Q c g :
  (forall v v', quiet v v' -> quiet' v v') -> (hang -> hang') -> (undef -> undef') ->
  ok core view Good room sane quiet hang undef p Q c g ->
  ok core view Good room sane quiet' hang' undef' p Q c g.
Proof.
  intros Hq Hh Hu. revert c g. induction p as [a|D f k IH]; intros c g H; simpl in *; [done|].
  intros s l Hc Hr Hsn HO. specialize (H s l Hc Hr Hsn HO).
  destruct (f s l) as [[[s' l'] b]| |]; [|auto|auto].
  destruct H as (Hqq & g' & Hg & Hk). split; [auto|]. eauto 6.
Qed.
End Prog.
Arguments prog S L A : clear implicits.
Arguments Done {S L A} a.
Arguments Act {S L A B} f k.

#[global] Instance prog_ret {S L} : MRet (prog S L) := fun A a => Done a.
#[global] Instance prog_bind {S L} : MBind (prog S L) := fun A B h p => bind p h.

(** ** What is left of a program *)

(** What is left of a program after one action. *)
Definition goes_on {S L A} (p q : prog S L A) : Prop :=
  exists B (f : S -> L -> outcome (S * L * B)) k b, p = Act f k /\ q = k b.

Lemma act_goes_on {S L A B} (f : S -> L -> outcome (S * L * B)) (k : B -> prog S L A) q :
  goes_on (Act f k) q -> exists b, q = k b.
Proof.
  intros (D & f' & k' & b & E & ->). revert b. pattern D, f', k'. refine (match E with eq_refl => _ end).
  intros b. by exists b.
Qed.

(** It takes finitely many actions. *)
Lemma goes_on_wf {S L A} (p : prog S L A) : Acc (fun q p => goes_on p q) p.
Proof.
  induction p as [a|B f k IH]; constructor; intros q Hq; [by destruct Hq as (? & ? & ? & ? & ? & _)|].
  by apply act_goes_on in Hq as [b ->].
Qed.

(** What is left of a program is never the program again. *)
Lemma goes_on_ne {S L A} (p : prog S L A) : ~ goes_on p p.
Proof. induction (goes_on_wf p) as [p _ IH]. intros Hp. by apply (IH p). Qed.

Lemma goes_on_bind {S L A B} (p q : prog S L A) (h : A -> prog S L B) :
  goes_on p q -> goes_on (p ≫= h) (q ≫= h).
Proof. intros (D & f & k & b & -> & ->). by exists D, f, (fun b => bind (k b) h), b. Qed.

(** ** The first action of a run among other threads *)

Section FirstAction.
Context {S L V A B : Type} (env : nat -> S -> L -> S * L) (n : nat).
Context (f : S -> L -> outcome (S * L * B)) (k : B -> prog S L A) (s s1 : S) (l l1 : L).
Context (Henv : env n s l = (s1, l1)).

Lemma run_first :
  run env n (act f ≫= k) s l =
    match f s1 l1 with
    | Ret (s2, l2, b) => run env (n + 1) (k b) s2 l2
    | Hang => Hang
    | Undef => Undef
    end.
Proof. change (act f ≫= k) with (bind (act f) k). rewrite run_act. by rewrite Henv. Qed.

Lemma roomy_first (view : S -> V) room sane :
  roomy view room sane env n (act f ≫= k) s l ->
  room (view s1) /\ sane l1 /\
  match f s1 l1 with
  | Ret (s2, l2, b) => roomy view room sane env (n + 1) (k b) s2 l2
  | _ => True
  end.
Proof. intros H. cbn [mbind prog_bind bind act roomy] in H. by rewrite Henv in H. Qed.
End FirstAction.
