(* ===== verification/Locking.v ===== *)
(** * Who holds which lock

    The invariant that relates the lock words of the student table to the
    locks the threads hold, and how each table function changes both.  A
    thread owns a list of claims; [Good t H] says that the claims [H] of all
    threads together are consistent with the table [t].  The table may count
    more shared holders than there are claims (a lock can leak), never
    fewer. *)
From S2P Require Import Prelude Params Probe UniqueKey StudentTuple StudentTable.

(** A claim: key, mode, and the slot of the record if the thread still uses a
    reference to it. *)
Definition claim : Type := unique_key * LockType * option nat.
Definition claim_key (c : claim) : unique_key := c.1.1.
Definition claim_mode (c : claim) : LockType := c.1.2.

Definition claims (k : unique_key) (m : LockType) (c : claim) : bool :=
  bool_decide (c.1 = (k, m)).

(** The key of a record as a lock key: the student table has id 1. *)
Definition record_key (k : Z) : unique_key := mkKey 1 k.

(** The lock word [l] of the record with key [k] covers the claims [H]. *)
Definition covers (l : Z) (k : unique_key) (H : list claim) : Prop :=
  (l = -1 -> cnt (claims k SHARED) H = 0 /\ cnt (claims k EXCLUSIVE) H <= 1) /\
  (0 <= l -> cnt (claims k EXCLUSIVE) H = 0 /\ cnt (claims k SHARED) H <= l).

(** A claim is on a record that exists, in the slot the claim names. *)
Definition placed (t : StudentTable) (c : claim) : Prop :=
  table_id_ (claim_key c) = 1 /\ tuple_key_ (claim_key c) ∈ keys t /\
  forall i, c.2 = Some i -> exists e, table_ t !! i = Some e /\ live_entry e = true /\
    entry_key e = tuple_key_ (claim_key c).

Record Good (t : StudentTable) (H : list claim) : Prop := {
  good_wf : table_wf t;
  good_distinct : distinct_keys t;
  good_placed : Forall (placed t) H;
  good_covers : forall r, r ∈ rows t -> covers r.2 (record_key (key_ r.1)) H
}.

#[export] Instance covers_perm l k : Proper ((≡ₚ) ==> iff) (covers l k).
Proof. intros H H' HH. unfold covers. by rewrite HH. Qed.

#[export] Instance Good_perm : Proper ((=) ==> (≡ₚ) ==> iff) Good.
Proof.
  assert (forall t H H', H ≡ₚ H' -> Good t H -> Good t H') as Himp.
  { intros t H H' HH []. split; try done; [by rewrite <- HH|].
    intros r Hr. rewrite <- HH. auto. }
  intros t ? <- H H' HH. split; apply Himp; [done|by symmetry].
Qed.

Lemma covers_le l k H H' :
  covers l k H -> (forall m, cnt (claims k m) H' <= cnt (claims k m) H) -> covers l k H'.
Proof.
  intros [H1 H2] Hle. pose proof (Hle SHARED). pose proof (Hle EXCLUSIVE).
  pose proof (cnt_nonneg (claims k SHARED) H'). pose proof (cnt_nonneg (claims k EXCLUSIVE) H').
  split; intros Hl; [specialize (H1 Hl)|specialize (H2 Hl)]; lia.
Qed.

Lemma claims_cons k m c H :
  cnt (claims k m) (c :: H) = Z.b2z (bool_decide (c.1 = (k, m))) + cnt (claims k m) H.
Proof. done. Qed.

(** A claim may be given up. *)
Lemma Good_drop t c H : Good t (c :: H) -> Good t H.
Proof.
  intros [Hw Hd Hp Hc]. split; [done..|by apply Forall_cons_1 in Hp as []|].
  intros r Hr. eapply covers_le; [by apply Hc|]. intros m. rewrite claims_cons.
  destruct (bool_decide _); simpl; lia.
Qed.

(** The slot of a claim may be forgotten. *)
Lemma Good_unpin t k m p H : Good t ((k, m, p) :: H) -> Good t ((k, m, None) :: H).
Proof.
  intros [Hw Hd Hp Hc]. split; [done..| |done].
  apply Forall_cons_1 in Hp as [(H1 & H2 & _) Hp]. constructor; [|done].
  split_and!; [done..|]. by intros i [=].
Qed.

(** The row a claim is about. *)
Lemma claim_row t k m p H :
  Good t ((k, m, p) :: H) -> exists i e, table_holder (table_ t) (tuple_key_ k) i e /\
    k = record_key (tuple_key_ k) /\
    match m with EXCLUSIVE => lock_ e = -1 | SHARED => 0 < lock_ e end.
Proof.
  intros [Hw Hd Hp Hc]. apply Forall_cons_1 in Hp as [(Hid & Hin & _) _].
  unfold claim_key in *. simpl in *.
  unfold keys in Hin. apply list_elem_of_fmap in Hin as (r & Hk & Hr).
  destruct (row_holder t r Hw Hd Hr) as (i & e & Hh & ->). simpl in *.
  assert (Hrk : k = record_key (tuple_key_ k)).
  { destruct k as [a b]. simpl in *. by subst a. }
  exists i, e. rewrite Hk. split; [done|]. split; [by rewrite Hk in Hrk|].
  specialize (Hc _ Hr). simpl in Hc. rewrite <- Hk, <- Hrk in Hc.
  destruct (holder_live _ _ _ _ Hh) as (Hi & Hl & _).
  pose proof (wf_lock _ Hw i e Hi Hl) as Hb. destruct Hc as [Hx Hs].
  rewrite !claims_cons in Hx, Hs. simpl in Hx, Hs.
  pose proof (cnt_nonneg (claims k SHARED) H). pose proof (cnt_nonneg (claims k EXCLUSIVE) H).
  destruct m.
  - rewrite (bool_decide_true (_ = _)), bool_decide_false in Hx, Hs by done.
    simpl in Hx, Hs. destruct (decide (lock_ e = -1)) as [E|]; [specialize (Hx E)|specialize (Hs ltac:(lia))]; lia.
  - rewrite (bool_decide_false ((k, EXCLUSIVE) = (k, SHARED))), bool_decide_true in Hx, Hs by done.
    simpl in Hx, Hs. destruct (decide (lock_ e = -1)) as [E|]; [done|specialize (Hs ltac:(lia))]; lia.
Qed.

(** Two claims on one record are both shared. *)
Lemma claims_exclude t k m m' p p' H :
  Good t ((k, m, p) :: (k, m', p') :: H) -> m = SHARED /\ m' = SHARED.
Proof.
  intros HG. destruct (claim_row t k m p _ HG) as (i & e & Hh & Hk & Hm).
  destruct (holder_rows _ _ _ _ Hh) as [Hr Hke].
  pose proof (good_covers _ _ HG _ Hr) as [Hx Hs]. cbn [fst snd] in Hx, Hs.
  rewrite Hke, <- Hk in Hx, Hs. rewrite !claims_cons in Hx, Hs. simpl in Hx, Hs.
  pose proof (cnt_nonneg (claims k SHARED) H). pose proof (cnt_nonneg (claims k EXCLUSIVE) H).
  destruct m, m'; [done|exfalso..]; repeat (case_bool_decide; try done); simpl in *; lia.
Qed.

(** ** Changing the lock word of one record *)

Definition same_slots (t t' : StudentTable) : Prop :=
  forall i e, table_ t !! i = Some e -> live_entry e = true ->
  exists e', table_ t' !! i = Some e' /\ live_entry e' = true /\ entry_key e' = entry_key e.

Lemma placed_mono t t' c :
  same_slots t t' -> (forall k, k ∈ keys t -> k ∈ keys t') -> placed t c -> placed t' c.
Proof.
  intros Hs Hk (H1 & H2 & H3). split_and!; [done|auto|].
  intros i Hi. destruct (H3 i Hi) as (e & He & Hl & Hke).
  destruct (Hs i e He Hl) as (e' & ? & ? & ?). exists e'. split_and!; congruence.
Qed.

Lemma same_slots_set_lock t t' i l :
  table_ t' = update_slot t i (set_lock l) -> same_slots t t'.
Proof.
  intros Ht j e Hj Hl. rewrite Ht. unfold update_slot.
  destruct (decide (i = j)) as [<-|Hne].
  - rewrite list_lookup_alter_eq, Hj. simpl. by exists (set_lock l e).
  - rewrite list_lookup_alter_ne by done. eauto.
Qed.

Lemma rows_keys t r rest : rows t ≡ₚ r :: rest -> keys t ≡ₚ key_ r.1 :: ((fun r => key_ r.1) <$> rest).
Proof. intros H. unfold keys. by rewrite H. Qed.

Section Relock.
Context (t t' : StudentTable) (u : StudentTuple) (l l' : Z) (rest : list (StudentTuple * Z)).
Context (Hrows : rows t ≡ₚ (u, l) :: rest) (Hrows' : rows t' ≡ₚ (u, l') :: rest).
Context (Hwf' : table_wf t') (Hslots : same_slots t t').

Lemma relock_keys : keys t' ≡ₚ keys t.
Proof. by rewrite (rows_keys t' _ _ Hrows'), (rows_keys t _ _ Hrows). Qed.

Lemma good_relock H H' :
  Good t H -> Forall (placed t) H' ->
  (forall k m, k <> record_key (key_ u) -> cnt (claims k m) H' <= cnt (claims k m) H) ->
  covers l' (record_key (key_ u)) H' -> Good t' H'.
Proof.
  intros [Hw Hd Hp Hc] Hpl Hle Hcov. split.
  - done.
  - unfold distinct_keys. by rewrite relock_keys.
  - eapply Forall_impl; [|exact Hpl]. intros c. apply placed_mono; [done|].
    intros k. by rewrite relock_keys.
  - intros r Hr. rewrite Hrows' in Hr. apply elem_of_cons in Hr as [->|Hr]; [done|].
    assert (Hne : key_ r.1 <> key_ u).
    { intros He. unfold distinct_keys in Hd. rewrite (rows_keys _ _ _ Hrows) in Hd.
      apply list.NoDup_cons in Hd as [Hno _]. apply Hno, list_elem_of_fmap. by exists r. }
    eapply covers_le; [apply Hc; rewrite Hrows; set_solver|].
    intros m. apply Hle. intros [= ?]. done.
Qed.
End Relock.

Lemma covers_row t H u l rest :
  Good t H -> rows t ≡ₚ (u, l) :: rest -> covers l (record_key (key_ u)) H.
Proof. intros HG Hr. apply (good_covers _ _ HG (u, l)). rewrite Hr. set_solver. Qed.

Lemma row_lock_range t H u l rest :
  Good t H -> rows t ≡ₚ (u, l) :: rest -> -1 <= l <= 127.
Proof.
  intros HG Hr. assert (Hin : (u, l) ∈ rows t) by (rewrite Hr; set_solver).
  apply elem_of_omap in Hin as (i & e & Hi & He). unfold row in He.
  destruct (live_entry e) eqn:Hl; [|done]. simplify_eq.
  by apply (wf_lock _ (good_wf _ _ HG) i e Hi).
Qed.

(** ** Acquisition *)

(** A granted lock becomes a claim of the caller. *)
Lemma good_grant t t' i ok f m e H :
  Good t H -> table_wf t' -> granted ok f t t' i -> table_ t !! i = Some e ->
  match m with
  | SHARED => 0 <= lock_ e /\ f (lock_ e) = lock_ e + 1
  | EXCLUSIVE => lock_ e = 0 /\ f (lock_ e) = -1
  end ->
  Good t' ((record_key (entry_key e), m, Some i) :: H).
Proof.
  intros HG Hwf' (e0 & rest & Hi & Hl & _ & _ & Ht & Hr & Hr') He Hm.
  rewrite Hi in He. injection He as ->.
  pose proof (covers_row _ _ _ _ _ HG Hr) as [Hx Hs].
  apply (good_relock t t' _ _ _ _ Hr Hr' Hwf' (same_slots_set_lock _ _ _ _ Ht) H); [done|..].
  - constructor; [|apply HG]. split_and!; [done| |].
    + rewrite (rows_keys _ _ _ Hr). apply elem_of_cons. by left.
    + intros j [= <-]. eauto.
  - intros k m' Hk. rewrite claims_cons. simpl.
    rewrite bool_decide_false by (unfold entry_key; congruence). simpl. lia.
  - unfold covers, entry_key. rewrite !claims_cons. simpl.
    pose proof (cnt_nonneg (claims (record_key (key_ (tuple_ e))) SHARED) H).
    pose proof (cnt_nonneg (claims (record_key (key_ (tuple_ e))) EXCLUSIVE) H).
    destruct m as [|]; destruct Hm as [Hm Hf]; rewrite Hf; specialize (Hs ltac:(lia)); split; intros ?;
      repeat (case_bool_decide; try congruence); simpl; lia.
Qed.

(** Acquiring: either nothing changed, or the record in the slot returned is
    now claimed. *)
Lemma granted_slot ok f t t' i :
  granted ok f t t' i -> exists e, table_ t !! i = Some e /\ ok e = true /\
    live_entry e = true /\ search_slot t' i = Some (tuple_ e).
Proof.
  intros (e & rest & Hi & Hl & Hok & _ & Ht & _). exists e. split_and!; [done..|].
  unfold search_slot. rewrite Ht. unfold update_slot. by rewrite list_lookup_alter_eq, Hi.
Qed.

Lemma row_of_slot t i e :
  table_ t !! i = Some e -> live_entry e = true -> (tuple_ e, lock_ e) ∈ rows t.
Proof. intros Hi Hl. apply elem_of_omap. exists i, e. unfold row. by rewrite Hl. Qed.

(** The records of the table, without their lock words. *)
Definition records (t : StudentTable) : list StudentTuple := fst <$> rows t.

Definition unchanged (t t' : StudentTable) : Prop := records t ≡ₚ records t'.

#[export] Instance unchanged_preorder : PreOrder unchanged.
Proof. split; unfold unchanged; [by intros t|]. intros t1 t2 t3 H1 H2. by etrans. Qed.

Lemma relock_unchanged t t' u l l' rest :
  rows t ≡ₚ (u, l) :: rest -> rows t' ≡ₚ (u, l') :: rest -> unchanged t t'.
Proof. unfold unchanged, records. intros H1 H2. rewrite H1, H2. csimpl. reflexivity. Qed.

Lemma granted_unchanged ok f t t' i : granted ok f t t' i -> unchanged t t'.
Proof. intros (e & rest & _ & _ & _ & _ & _ & H1 & H2). by eapply relock_unchanged. Qed.

Definition shared_room (t : StudentTable) : Prop := forall r, r ∈ rows t -> r.2 < 127.

Lemma good_wait_shared t t' r :
  table_wf t -> shared_room t -> wait_shared_ id id t = (t', r) ->
  (t' = t /\ r = Err TupleTableError_Timeout) \/
  exists i u, r = Ok i /\ search_slot t' i = Some u /\ unchanged t t' /\
    forall H, Good t H -> Good t' ((record_key (key_ u), SHARED, Some i) :: H).
Proof.
  intros Hwf Hroom Hw.
  destruct (wait_shared_cases id id t preserves_id preserves_id Hwf)
    as (s & _ & ->%settled_id & _ & [[E _]|(i & e & s' & E & Hi & Ha & Hg)]);
    rewrite Hw in E; injection E as -> ->; [by left|right].
  pose proof Ha as [Hl Hge%Z.leb_le]%andb_true_iff.
  destruct (Hg (Hroom _ (row_of_slot _ _ _ Hi Hl))) as [Hwf' Hgr].
  destruct (granted_slot _ _ _ _ _ Hgr) as (e0 & Hi0 & _ & _ & Hs').
  rewrite Hi in Hi0. injection Hi0 as <-.
  exists i, (tuple_ e). split_and!; [done..|by eapply granted_unchanged|]. intros H HG.
  by apply (good_grant t s' i _ _ SHARED e H HG Hwf' Hgr Hi).
Qed.

Lemma good_wait_exclusive t t' r :
  table_wf t -> wait_exclusive_ id id t = (t', r) ->
  (t' = t /\ r = Err TupleTableError_Timeout) \/
  exists i u, r = Ok i /\ search_slot t' i = Some u /\ unchanged t t' /\
    forall H, Good t H -> Good t' ((record_key (key_ u), EXCLUSIVE, Some i) :: H).
Proof.
  intros Hwf Hw.
  destruct (wait_exclusive_cases id id t preserves_id preserves_id Hwf)
    as (s & _ & ->%settled_id & _ & [[E _]|(i & s' & E & Hwf' & Hgr)]);
    rewrite Hw in E; injection E as -> ->; [by left|right].
  destruct (granted_slot _ _ _ _ _ Hgr) as (e & Hi & Ha & _ & Hs').
  apply andb_true_iff in Ha as [Hl Hz%Z.eqb_eq].
  exists i, (tuple_ e). split_and!; [done..|by eapply granted_unchanged|]. intros H HG.
  by apply (good_grant t s' i _ _ EXCLUSIVE e H HG Hwf' Hgr Hi).
Qed.

(** ** Release and promotion of a claim *)

Lemma good_release t k m p H :
  Good t ((k, m, p) :: H) -> exists t', release_ t (tuple_key_ k) = Ret t' /\
    unchanged t t' /\ forall H', Good t ((k, m, p) :: H') -> Good t' H'.
Proof.
  intros HG. destruct (claim_row t k m p H HG) as (i & e & Hh & Hk & Hm).
  destruct (holder_live _ _ _ _ Hh) as (Hi & Hl & Hke).
  assert (Hnz : lock_ e <> 0) by (destruct m; lia).
  destruct (release_holder t _ i e (good_wf _ _ HG) Hh Hnz)
    as (t' & rest & E & Hwf' & Ht & Hr & Hr').
  exists t'. split; [done|]. split; [by eapply relock_unchanged|]. intros H' HG'.
  pose proof (covers_row _ _ _ _ _ HG' Hr) as [Hx Hs].
  assert (Hkk : record_key (key_ (tuple_ e)) = k) by (rewrite Hk; unfold entry_key in Hke; by rewrite Hke).
  apply (good_relock t t' _ _ _ _ Hr Hr' Hwf' (same_slots_set_lock _ _ _ _ Ht) _ H' HG').
  - pose proof (good_placed _ _ HG') as Hp. by apply Forall_cons_1 in Hp as [].
  - intros k' m' _. rewrite claims_cons. destruct (bool_decide _); simpl; lia.
  - rewrite Hkk in *. unfold covers. rewrite !claims_cons in Hx, Hs. cbn [fst] in Hx, Hs.
    pose proof (cnt_nonneg (claims k SHARED) H'). pose proof (cnt_nonneg (claims k EXCLUSIVE) H').
    destruct m.
    + rewrite bool_decide_false, bool_decide_true in Hs by done. cbn [Z.b2z] in Hs.
      specialize (Hs ltac:(lia)). rewrite (proj2 (Z.eqb_neq _ _)) by lia. lia.
    + rewrite bool_decide_false, bool_decide_true in Hx by done. cbn [Z.b2z] in Hx.
      specialize (Hx Hm). rewrite Hm. simpl. lia.
Qed.

Lemma promote_busy t k i e :
  table_wf t -> table_holder (table_ t) k i e -> lock_ e <> 1 ->
  promote_ id t k = Ret (t, TupleTableError_Timeout).
Proof.
  intros Hwf Hh Hne. unfold promote_. rewrite (locate_holder _ _ i e) by done. simpl.
  destruct (holder_live _ _ _ _ Hh) as (Hi & _). unfold wait_for, id.
  rewrite (lock_at_holder _ _ e), (proj2 (Z.eqb_neq _ _)) by done. done.
Qed.

Lemma good_promote t k p H :
  Good t ((k, SHARED, p) :: H) -> exists t' r, promote_ id t (tuple_key_ k) = Ret (t', r) /\
    ((r = TupleTableError_Timeout /\ t' = t) \/
     (r = TupleTableError_None /\ unchanged t t' /\ forall H', Good t ((k, SHARED, p) :: H') ->
        Good t' ((k, EXCLUSIVE, p) :: H'))).
Proof.
  intros HG. destruct (claim_row t k SHARED p H HG) as (i & e & Hh & Hk & Hm).
  destruct (decide (lock_ e = 1)) as [Hl1|Hne].
  2: { exists t, TupleTableError_Timeout. split; [|by left].
       by eapply promote_busy; [apply HG|exact Hh|]. }
  destruct (holder_live _ _ _ _ Hh) as (Hi & Hl & Hke).
  destruct (promote_holder t _ i e id (good_wf _ _ HG) Hh Hl1)
    as (t' & rest & E & Hwf' & Ht & Hr & Hr').
  exists t', TupleTableError_None. split; [done|]. right. split; [done|].
  split; [by eapply relock_unchanged|]. intros H' HG'.
  pose proof (covers_row _ _ _ _ _ HG' Hr) as [Hx Hs].
  assert (Hkk : record_key (key_ (tuple_ e)) = k) by (rewrite Hk; unfold entry_key in Hke; by rewrite Hke).
  apply (good_relock t t' _ _ _ _ Hr Hr' Hwf' (same_slots_set_lock _ _ _ _ Ht) _ _ HG').
  - pose proof (good_placed _ _ HG') as Hp. apply Forall_cons_1 in Hp as [Hp1 Hp2].
    by constructor.
  - intros k' m' Hne. rewrite Hkk in Hne. rewrite !claims_cons. cbn [fst].
    rewrite !bool_decide_false by congruence. simpl. lia.
  - rewrite Hkk in *. unfold covers. rewrite !claims_cons in *. cbn [fst] in *.
    specialize (Hs ltac:(lia)).
    pose proof (cnt_nonneg (claims k SHARED) H'). pose proof (cnt_nonneg (claims k EXCLUSIVE) H').
    rewrite bool_decide_false, bool_decide_true in Hs by done. cbn [Z.b2z] in Hs.
    rewrite bool_decide_false, bool_decide_true by done. cbn [Z.b2z]. lia.
Qed.

(** ** The three changes a commit makes *)

Lemma claim_exclusive_alone t k p H c :
  Good t ((k, EXCLUSIVE, p) :: H) -> c ∈ H -> claim_key c <> k.
Proof.
  intros HG [H2 Hc]%elem_of_Permutation Hk. rewrite Hc in HG. destruct c as [[k' m'] p'].
  unfold claim_key in Hk. simpl in Hk. subst k'.
  apply claims_exclude in HG as [[=] _].
Qed.

(** Deleting a record whose exclusive lock the caller holds ends the claim. *)
Lemma good_remove t k p H :
  Good t ((k, EXCLUSIVE, p) :: H) -> exists t', remove_ t (tuple_key_ k) =
      Ret (t', StudentTableError_None) /\
    forall H', Good t ((k, EXCLUSIVE, p) :: H') -> Good t' H'.
Proof.
  intros HG. destruct (claim_row t k EXCLUSIVE p H HG) as (i & e & Hh & Hk & Hm).
  destruct (holder_live _ _ _ _ Hh) as (Hi & Hl & Hke).
  destruct (remove_holder t _ i e (good_wf _ _ HG) Hh) as (t' & E & Ht & Hr & _ & Hwf' & _).
  specialize (Hwf' Hm). exists t'. split; [done|]. intros H' HG'.
  pose proof (good_distinct _ _ HG') as Hd. unfold distinct_keys in Hd.
  assert (Hks : keys t ≡ₚ tuple_key_ k :: keys t').
  { rewrite (rows_keys _ _ _ Hr). simpl. unfold entry_key in Hke. by rewrite Hke. }
  split.
  - done.
  - unfold distinct_keys. rewrite Hks in Hd. by apply list.NoDup_cons in Hd as [].
  - apply list.Forall_forall. intros c Hc.
    pose proof (good_placed _ _ HG') as Hp. apply Forall_cons_1 in Hp as [_ Hp].
    rewrite list.Forall_forall in Hp. destruct (Hp c Hc) as (H1 & H2 & H3).
    assert (Hne : tuple_key_ (claim_key c) <> tuple_key_ k).
    { intros Heq. apply (claim_exclusive_alone t k p H' c HG' Hc).
      rewrite Hk. destruct (claim_key c) as [a b]. simpl in *. by subst. }
    split_and!; [done| |].
    + rewrite Hks in H2. by apply elem_of_cons in H2 as [|].
    + intros j Hj. destruct (H3 j Hj) as (e' & He' & Hl' & Hk'). exists e'.
      rewrite Ht, list_lookup_insert_ne; [done|]. intros <-. congruence.
  - intros r Hrr. eapply covers_le; [apply (good_covers _ _ HG'); rewrite Hr; set_solver|].
    intros m. rewrite claims_cons. destruct (bool_decide _); simpl; lia.
Qed.

(** Inserting under a fresh key. *)
Lemma good_insert t u H :
  Good t H -> full_ t = false -> next_key_ t ∉ keys t ->
  exists t' i, insert_ id t u = Ret (t', Ok i) /\ forall H', Good t H' -> Good t' H'.
Proof.
  intros HG Hf Hk. destruct (insert_free t id u (good_wf _ _ HG) Hf)
    as (t' & i & E & Hwf' & _ & (e & Hi & Hl & Ht) & Hr & _).
  exists t', i. split; [done|]. intros H' HG'.
  pose proof (good_placed _ _ HG') as Hpl. rewrite list.Forall_forall in Hpl.
  assert (Hks : keys t' ≡ₚ next_key_ t :: keys t) by (unfold keys; by rewrite Hr).
  split.
  - done.
  - unfold distinct_keys. rewrite Hks. apply list.NoDup_cons. split; [done|apply HG].
  - apply list.Forall_forall. intros c Hc. destruct (Hpl c Hc) as (H1 & H2 & H3).
    split_and!; [done|rewrite Hks; by apply elem_of_cons; right|].
    intros j Hj. destruct (H3 j Hj) as (e' & He' & Hl' & Hk'). exists e'.
    rewrite Ht, list_lookup_insert_ne; [done|]. intros <-. congruence.
  - intros r Hrr. rewrite Hr in Hrr. apply elem_of_cons in Hrr as [->|Hrr].
    2: { by apply (good_covers _ _ HG'). }
    simpl. assert (Hz : forall m, cnt (claims (record_key (next_key_ t)) m) H' = 0).
    { intros m. apply cnt_zero. intros j c Hj. apply bool_decide_eq_false. intros Heq.
      destruct (Hpl c) as (_ & H2 & _); [by eapply list_elem_of_lookup_2|].
      unfold claim_key in H2. rewrite Heq in H2. done. }
    unfold covers. rewrite !Hz. lia.
Qed.

Lemma locate_hit t k i :
  locate t k = Ret i ->
  exists e, table_ t !! i = Some e /\ hits is_deleted_ entry_key Z.eqb k e = true.
Proof.
  unfold locate. destruct (while_true _ _ _ _) as [i'|] eqn:Hwt; [|done].
  intros [= ->]. destruct (grab_Some is_deleted_ entry_key home Z.eqb Rows table_home_lt
    (table_ t) k (fun i _ => i) Rows i Hwt) as (i2 & e & ? & ? & ->). eauto.
Qed.

(** Writing keeps keys, lock words and positions, whatever the caller holds:
    if [write_] returns at all, only the contents of one record changed. *)
Lemma good_write t u t' r H :
  Good t H -> write_ t u = Ret (t', r) -> forall H', Good t H' -> Good t' H'.
Proof.
  intros HG Hw. unfold write_ in Hw.
  destruct (locate t (key_ u)) as [i| |] eqn:Hloc; try discriminate Hw.
  simpl in Hw. injection Hw as <- _.
  destruct (locate_hit _ _ _ Hloc) as (e & Hi & Hh).
  apply andb_true_iff in Hh as [Hk%Z.eqb_eq Hdel%negb_true_iff].
  set (e' := mkEntry u (lock_ e) (is_used_ e) (is_deleted_ e)).
  assert (Hl' : live_entry e' = live_entry e) by done.
  unfold set_table, update_slot. rewrite (insert_alter _ _ _ e) by done. fold e'.
  intros H' HG'. pose proof (good_wf _ _ HG') as Hwf.
  set (t' := mkTable _ _ _ _ _).
  assert (Hrows : (rows t' = rows t) \/ exists rest, rows t ≡ₚ (tuple_ e, lock_ e) :: rest /\
    rows t' ≡ₚ (u, lock_ e) :: rest).
  { destruct (live_entry e) eqn:Hl.
    - right. apply (rows_write t i e e' Hi).
      + unfold row. by rewrite Hl.
      + unfold row. by rewrite Hl'.
    - left. apply (omap_insert_same row _ _ e e'); [done|]. unfold row. by rewrite Hl', Hl. }
  assert (Hwf' : table_wf t').
  { eapply table_wf_write; [done|done| | | | | |].
    - apply (chain_update _ _ _ _ _ _ _ e e'); [done|done| |apply Hwf].
      rewrite Hl'. intros ?. unfold entry_key in *. by split.
    - unfold lock_ok. rewrite Hl'. by apply (wf_lock _ Hwf i e Hi).
    - apply Hwf.
    - rewrite Hl'. lia.
    - unfold s_avail. rewrite Hl'. simpl. lia.
    - unfold x_avail. rewrite Hl'. simpl. lia. }
  assert (Hkeys : keys t' ≡ₚ keys t).
  { unfold keys. destruct Hrows as [->|(rest & -> & ->)]; [done|]. csimpl.
    unfold entry_key in Hk. by rewrite Hk. }
  split; [done|unfold distinct_keys; rewrite Hkeys; apply HG'| |].
  - eapply Forall_impl; [|apply HG']. intros c. apply placed_mono.
    + intros j e0 Hj Hl. destruct (decide (i = j)) as [<-|Hne].
      * rewrite Hi in Hj. injection Hj as <-. exists e'. simpl.
        rewrite list_lookup_insert_eq by (by eapply lookup_lt_Some). by rewrite Hl'.
      * exists e0. simpl. by rewrite list_lookup_insert_ne.
    + intros k. by rewrite Hkeys.
  - destruct Hrows as [E|(rest & E1 & E2)]; intros r0 Hr0.
    + rewrite E in Hr0. by apply (good_covers _ _ HG').
    + rewrite E2 in Hr0. apply elem_of_cons in Hr0 as [->|Hr0].
      * pose proof (covers_row _ _ _ _ _ HG' E1) as Hc. unfold entry_key in Hk.
        by rewrite Hk in Hc.
      * apply (good_covers _ _ HG'). rewrite E1. set_solver.
Qed.
