(* ===== verification/Counted.v ===== *)
(** * Counting references through a program

    A second logic for the programs of [Prog]: which counted references a
    thread holds in its local variables.  [own] lists the references that sit
    in the objects a thread works on (the slots of a channel, of a commit
    queue), [g] those in its local variables, and the counts of the pool match
    both together with everybody else's. *)
From S2P Require Import Prelude Params BufTable Prog.

(** No function has more than eight local references at a time. *)
Definition LOCALS : nat := 8.

Section Counted.
Context {S L : Type} (pool : S -> buf_table) (own : S -> L -> list buf_ref).
(** What the states of the program look like besides, and what an action may
    do to the shared state. *)
Context (shape : S -> L -> Prop) (change : S -> S -> Prop).

(** The objects are few enough for a 16-bit count. *)
Definition OBJECTS : nat := 4096.
Definition small : Prop := forall s l, shape s l -> (length (own s l) <= OBJECTS)%nat.

(** So are the references of others. *)
Definition fits (R : list buf_ref) : Prop := Z.of_nat (length R) < 60000.

(** The counts are exact, the references [R] of others included. *)
Definition counts (s : S) (l : L) (g R : list buf_ref) : Prop :=
  pool_wf (pool s) (own s l ++ g ++ R).

(** A list of references stays clear of the 16-bit bound. *)
Lemma small_counts s l g R :
  small -> shape s l -> (length g <= LOCALS)%nat -> fits R ->
  Z.of_nat (length (own s l ++ g ++ R)) < 65000.
Proof.
  intros Hsm Hs Hg Hf. specialize (Hsm s l Hs). unfold OBJECTS, LOCALS, fits in *.
  rewrite !length_app. lia.
Qed.

(** After an action: the shape is kept, the change is one of those allowed, and
    the counts match the new local references. *)
Record after (s : S) (l : L) (g : list buf_ref) (s' : S) (l' : L) (g' : list buf_ref) : Prop := {
  after_shape : shape s' l';
  after_change : change s s';
  after_locals : (length g' <= LOCALS)%nat;
  after_counts : forall R, fits R -> counts s l g R -> counts s' l' g' R
}.

Fixpoint counted {A} (p : prog S L A) (Q : list buf_ref -> A -> Prop) (g : list buf_ref) : Prop :=
  match p with
  | Done a => Q g a
  | Act f k =>
      forall s l, shape s l -> (length g <= LOCALS)%nat -> (exists R, fits R /\ counts s l g R) ->
      match f s l with
      | Ret (s', l', b) => exists g', after s l g s' l' g' /\ counted (k b) Q g'
      | _ => True
      end
  end.

Lemma counted_bind {A B} (p : prog S L A) (h : A -> prog S L B) Q g :
  counted p (fun g a => counted (h a) Q g) g -> counted (p ≫= h) Q g.
Proof.
  revert g. induction p as [a|D f k IH]; intros g H; [done|].
  intros s l Hs Hg HR. specialize (H s l Hs Hg HR).
  destruct (f s l) as [[[s' l'] b]| |]; [|done|done].
  destruct H as (g' & Ha & Hk). exists g'. split; [done|]. by apply IH.
Qed.

Lemma counted_mono {A} (p : prog S L A) (Q Q' : list buf_ref -> A -> Prop) g :
  (forall g a, Q g a -> Q' g a) -> counted p Q g -> counted p Q' g.
Proof.
  intros HQ. revert g. induction p as [a|D f k IH]; intros g H; simpl in *; [auto|].
  intros s l Hs Hg HR. specialize (H s l Hs Hg HR).
  destruct (f s l) as [[[s' l'] b]| |]; [|done|done].
  destruct H as (g' & Ha & Hk). exists g'. split; [done|]. by apply IH.
Qed.

Lemma counted_act {B} (f : S -> L -> outcome (S * L * B)) (Q : list buf_ref -> B -> Prop) g :
  (forall s l, shape s l -> (length g <= LOCALS)%nat -> (exists R, fits R /\ counts s l g R) ->
    match f s l with
    | Ret (s', l', b) => exists g', after s l g s' l' g' /\ Q g' b
    | _ => True
    end) -> counted (act f) Q g.
Proof. done. Qed.

(** An action that leaves the pool and the objects alone. *)
Lemma after_same s l g s' l' :
  shape s' l' -> change s s' -> own s' l' = own s l -> (length g <= LOCALS)%nat ->
  (forall refs, pool_wf (pool s) refs -> pool_wf (pool s') refs) -> after s l g s' l' g.
Proof.
  intros Hs Hch Ho Hl Hp. split; [done..|].
  intros R _ HR. unfold counts. rewrite Ho. by apply Hp.
Qed.

(** A new local reference to a slot that already has one. *)
Lemma after_retain s l g s' l' r :
  small -> shape s l -> shape s' l' -> change s s' -> own s' l' = own s l ->
  (length g < LOCALS)%nat -> (r = None \/ r ∈ own s l ++ g) ->
  pool s' = (ref_copy (pool s) r).1 -> after s l g s' l' (r :: g).
Proof.
  intros Hsm Hs0 Hs Hch Ho Hl Hr Hp. split; [done|done|simpl; lia|].
  intros R Hf HR. unfold counts. rewrite Hp, Ho.
  change ((r :: g) ++ R) with (r :: g ++ R). rewrite <- Permutation_middle.
  pose proof (small_counts s l g R Hsm Hs0 ltac:(lia) Hf) as Hlen.
  assert (Z.of_nat (length (own s l ++ g ++ R)) < 65535) by lia.
  destruct Hr as [->|Hr]; [by apply null_wf|].
  apply list_elem_of_lookup in Hr as [h Hh].
  pose proof (dup_wf (pool s) (own s l ++ g ++ R) h r HR) as Hd.
  rewrite app_assoc, lookup_app_l in Hd by by eapply lookup_lt_Some.
  rewrite <- app_assoc in Hd. specialize (Hd Hh ltac:(lia)). by destruct r.
Qed.

(** A local reference goes away. *)
Lemma after_drop s l g s' l' r :
  shape s' l' -> change s s' -> own s' l' = own s l -> (length (r :: g) <= LOCALS)%nat ->
  pool s' = (ref_destroy (pool s) r).1 -> after s l (r :: g) s' l' g.
Proof.
  intros Hs Hch Ho Hl Hp. split; [done|done|simpl in *; lia|].
  intros R Hf HR. unfold counts in *. rewrite Hp, Ho.
  change ((r :: g) ++ R) with (r :: g ++ R) in HR. rewrite <- Permutation_middle in HR.
  apply drop_wf in HR. by destruct r.
Qed.

(** ** Executions *)

(** Others leave the objects' shape and what the thread holds alone; [others
    n] are the references they hold before they act for the [n]-th time. *)
Definition polite (env : nat -> S -> L -> S * L) (others : nat -> list buf_ref) : Prop :=
  forall n s l, shape s l ->
    let '(s', l') := env n s l in
    shape s' l' /\ fits (others n) /\
    forall g, counts s l g (others n) -> counts s' l' g (others (n + 1)%nat).

Lemma counted_run {A} (p : prog S L A) Q env others n s l g :
  polite env others -> counted p Q g -> shape s l -> (length g <= LOCALS)%nat ->
  counts s l g (others n) ->
  match run env n p s l with
  | Ret (n', s', l', a) => exists g', Q g' a /\ shape s' l' /\ counts s' l' g' (others n')
  | _ => True
  end.
Proof.
  intros Henv. revert n s l g. induction p as [a|D f k IH]; intros n s l g Hc Hs Hg HR;
    cbn [run]; [by exists g|].
  pose proof (Henv n s l Hs) as He. pose proof (Henv (n + 1)%nat s l Hs) as He1.
  destruct (env n s l) as [s1 l1], (env (n + 1)%nat s l) as [s2 l2].
  destruct He as (Hs1 & _ & HR1), He1 as (_ & Hf & _). specialize (HR1 g HR).
  specialize (Hc s1 l1 Hs1 Hg (ex_intro _ _ (conj Hf HR1))).
  destruct (f s1 l1) as [[[s3 l3] b]| |]; [|done|done].
  destruct Hc as (g' & [Hs3 _ Hl Hcnt] & Hk). apply (IH b _ _ _ g'); [done..|by apply Hcnt].
Qed.
End Counted.
