(* ===== verification/Worker.v ===== *)
(** * The worker: one transaction

    [Worker] ([types/worker.h], [worker.cpp]), with the [Database] of
    [schema/demo.h] and the table ids of [table_types.h].  Each handler is a
    program of atomic actions ([Prog]) over the state shared by all threads
    and the worker's own state.

    A wait inside a table function is a scheduling matter here: the action
    that waits is taken when the thread runs again, and either finds its
    condition true or times out, so the table functions are called with the
    identity as their environment. *)
From S2P Require Import Prelude Params Probe BufTable UniqueKey Prog.
From S2P Require Bytes JobBuf StudentTuple StudentTable LockList CommitQueue Channels.

(** ** State *)

Record Database := mkDatabase {
  students_ : StudentTable.StudentTable;
  tickstamp_ : Z;
  buffers_ : buf_table
}.

Definition get_current_tickstamp_ (this : Database) : Z := tickstamp_ this.
Definition increment_tickstamp_ (this : Database) : Database :=
  mkDatabase (students_ this) (u32 (tickstamp_ this + 1)) (buffers_ this).

(** [buf_table::clear_] has no definition in the sources. *)
Definition clear_ (buffers_clear : buf_table -> buf_table) (this : Database) : Database :=
  mkDatabase (StudentTable.clear_ (students_ this)) 0 (buffers_clear (buffers_ this)).

(** [tbl_id<StudentTable>()] *)
Definition tbl_id_StudentTable : Z := 1.

(** What all threads share. *)
Record shared := mkShared {
  db_ : Database;
  ret_ch_ : Channels.ret_channel Z
}.

Inductive TxnStatus := GROWING | SHRINKING | COMMITTED | TXN_ABORTED.

#[export] Instance TxnStatus_eq_dec : EqDecision TxnStatus.
Proof. solve_decision. Defined.

(** [running_] and [job_ch_] are references into the [WorkerContext], which
    the socket thread writes too.  [sent_] lists the datagrams the worker
    handed to the operating system. *)
Record Worker := mkWorker {
  running_ : bool;
  job_ch_ : Channels.job_channel;
  txn_id_ : Z;
  timeout_cnt_ : Z;
  commit_queue_ : CommitQueue.commit_queue;
  status_ : TxnStatus;
  lock_list_ : LockList.lock_list;
  sent_ : list Channels.datagram
}.

(** The constructor of [Worker] from its [WorkerContext]. *)
Definition worker_make (running : bool) (job_ch : Channels.job_channel) (txn_id : Z) : Worker :=
  mkWorker running job_ch txn_id 0 CommitQueue.commit_queue_default GROWING
    LockList.lock_list_default [].

Abbreviation wprog := (prog shared Worker).

Definition set_students (s : shared) (t : StudentTable.StudentTable) : shared :=
  mkShared (mkDatabase t (tickstamp_ (db_ s)) (buffers_ (db_ s))) (ret_ch_ s).
Definition set_buffers (s : shared) (T : buf_table) : shared :=
  mkShared (mkDatabase (students_ (db_ s)) (tickstamp_ (db_ s)) T) (ret_ch_ s).
Definition set_running (w : Worker) (b : bool) : Worker :=
  mkWorker b (job_ch_ w) (txn_id_ w) (timeout_cnt_ w) (commit_queue_ w) (status_ w)
    (lock_list_ w) (sent_ w).
Definition set_job_ch (w : Worker) (c : Channels.job_channel) : Worker :=
  mkWorker (running_ w) c (txn_id_ w) (timeout_cnt_ w) (commit_queue_ w) (status_ w)
    (lock_list_ w) (sent_ w).
Definition set_timeout_cnt (w : Worker) (n : Z) : Worker :=
  mkWorker (running_ w) (job_ch_ w) (txn_id_ w) n (commit_queue_ w) (status_ w)
    (lock_list_ w) (sent_ w).
Definition set_commit_queue (w : Worker) (q : CommitQueue.commit_queue) : Worker :=
  mkWorker (running_ w) (job_ch_ w) (txn_id_ w) (timeout_cnt_ w) q (status_ w)
    (lock_list_ w) (sent_ w).
Definition set_status (w : Worker) (st : TxnStatus) : Worker :=
  mkWorker (running_ w) (job_ch_ w) (txn_id_ w) (timeout_cnt_ w) (commit_queue_ w) st
    (lock_list_ w) (sent_ w).
Definition set_lock_list (w : Worker) (l : LockList.lock_list) : Worker :=
  mkWorker (running_ w) (job_ch_ w) (txn_id_ w) (timeout_cnt_ w) (commit_queue_ w)
    (status_ w) l (sent_ w).
Definition add_sent (w : Worker) (d : Channels.datagram) : Worker :=
  mkWorker (running_ w) (job_ch_ w) (txn_id_ w) (timeout_cnt_ w) (commit_queue_ w)
    (status_ w) (lock_list_ w) (sent_ w ++ [d]).

(** ** Atomic actions *)

Definition on_table {B} (f : StudentTable.StudentTable -> outcome (StudentTable.StudentTable * B))
    : wprog B :=
  act (fun s w => '(t, b) ← f (students_ (db_ s)); Ret (set_students s t, w, b)).

Definition on_buffers {B} (f : buf_table -> buf_table * B) : wprog B :=
  act (fun s w => let '(T, b) := f (buffers_ (db_ s)) in Ret (set_buffers s T, w, b)).

Definition read_buffers {B} (f : buf_table -> B) : wprog B := on_buffers (fun T => (T, f T)).

Definition on_locks {B} (f : LockList.lock_list -> outcome (LockList.lock_list * B)) : wprog B :=
  act (fun s w => '(l, b) ← f (lock_list_ w); Ret (s, set_lock_list w l, b)).

Definition get_status : wprog TxnStatus := act (fun s w => Ret (s, w, status_ w)).
Definition put_status (st : TxnStatus) : wprog unit :=
  act (fun s w => Ret (s, set_status w st, tt)).
Definition get_timeout_cnt : wprog Z := act (fun s w => Ret (s, w, timeout_cnt_ w)).
Definition put_timeout_cnt (n : Z) : wprog unit :=
  act (fun s w => Ret (s, set_timeout_cnt w n, tt)).
Definition get_txn_id : wprog Z := act (fun s w => Ret (s, w, txn_id_ w)).

(** [running_] is read by [test_and_set], and cleared again if it was clear. *)
Definition is_running : wprog bool := act (fun s w => Ret (s, w, running_ w)).

Definition reply (_ack : OpAck) (_parser : JobBuf.job_buf) (_size : Z) (_job : Channels.job)
    : wprog unit :=
  act (fun s w =>
    let T := JobBuf.set_ack (buffers_ (db_ s)) _parser _ack in
    let d := Channels.conn_reply (Channels.conn_ _job) (buffer T (JobBuf.ref _parser)) _size in
    Ret (set_buffers s T, add_sent w d, tt)).

(** [job_ch_.recv()]: the wait is a matter of scheduling, as for the table. *)
Definition job_recv : wprog (Result Channels.job QueueError) :=
  act (fun s w =>
    let '(T, c, r) := Channels.recv id (buffers_ (db_ s)) (job_ch_ w) in
    Ret (set_buffers s T, set_job_ch w c, r)).

Definition job_pop : wprog unit :=
  act (fun s w =>
    let '(T, c) := Channels.pop (buffers_ (db_ s)) (job_ch_ w) in
    Ret (set_buffers s T, set_job_ch w c, tt)).

(** [commit_queue_.send({_key, _op, _buf})]: the temporary entry is destroyed
    when the call has returned. *)
Definition commit_send (_key : unique_key) (_op : OpType) (_buf : buf_ref)
    : wprog QueueError :=
  act (fun s w =>
    let '(T1, c) := CommitQueue.commit_make (buffers_ (db_ s)) _key _op _buf in
    let '(T2, q, r) := CommitQueue.send T1 (commit_queue_ w) c in
    Ret (set_buffers s (CommitQueue.commit_destroy T2 c), set_commit_queue w q, r)).

Definition commit_empty : wprog bool :=
  act (fun s w => Ret (s, w, CommitQueue.empty (commit_queue_ w))).
Definition commit_get : wprog (Result CommitQueue.commit QueueError) :=
  act (fun s w => '(T, r) ← CommitQueue.get (buffers_ (db_ s)) (commit_queue_ w);
                  Ret (set_buffers s T, w, r)).
Definition commit_pop : wprog unit :=
  act (fun s w => Ret (s, set_commit_queue w (CommitQueue.pop (commit_queue_ w)), tt)).

(** [ret_ch_.send(txn_id_)] *)
Definition ret_send (_id : Z) : wprog unit :=
  act (fun s w =>
    let '(T, c, _) := Channels.ret_send Channels.id_assign (buffers_ (db_ s)) (ret_ch_ s) _id in
    Ret (mkShared (mkDatabase (students_ (db_ s)) (tickstamp_ (db_ s)) T) c, w, tt)).

(** Local [buf_ref] objects come and go. *)
Definition retain (r : buf_ref) : wprog buf_ref := on_buffers (fun T => ref_copy T r).
Definition drop_ref (r : buf_ref) : wprog unit := on_buffers (fun T => ((ref_destroy T r).1, tt)).

(** [buffer()] of a reference: a null one must not be dereferenced. *)
Definition deref (r : buf_ref) : wprog unit :=
  act (fun s w => match r with Some _ => Ret (s, w, tt) | None => Undef end).

(** [Result::unwrap] *)
Definition unwrap_ {A E} (r : Result A E) : wprog A :=
  act (fun s w => a ← unwrap r; Ret (s, w, a)).

(** The record a returned reference points to, when it is read. *)
Definition read_record (idx : nat) : wprog StudentTuple.StudentTuple :=
  on_table (fun t => match StudentTable.search_slot t idx with
                     | Some r => Ret (t, r)
                     | None => Undef
                     end).

(** The exit of a handler that refuses a request. *)
Definition reject (_ack : OpAck) (_parser : JobBuf.job_buf) (_job : Channels.job) : wprog unit :=
  reply _ack _parser 7 _job ≫= fun _ => job_pop.

(** ** Leaving *)

(** The loop [while (lock_it != lock_it_end)]; the lock list does not change
    before it ends. *)
Fixpoint release_loop (fuel : nat) (ll : LockList.lock_list) (idx : nat) : wprog unit :=
  match fuel with
  | O => diverge
  | S f =>
      if (idx =? LockList.end_ ll)%nat then Done tt
      else match LockList.deref ll idx with
           | Some lock =>
               let '(tbl, tp_key) := disassemble_ (LockList.key lock) in
               (if tbl =? tbl_id_StudentTable
                then on_table (fun t => t' ← StudentTable.release_ t tp_key; Ret (t', tt))
                else Done tt) ≫= fun _ =>
               release_loop f ll (LockList.next ll idx)
           | None => act (fun _ _ => Undef)
           end
  end.

Definition release_all_locks : wprog unit :=
  ll ← on_locks (fun l => Ret (l, l));
  release_loop (S LockList.N) ll (LockList.begin ll) ≫= fun _ =>
  on_locks (fun l => Ret (LockList.clear l, tt)).

Fixpoint clear_commit_queue (fuel : nat) : wprog unit :=
  match fuel with
  | O => diverge
  | S f =>
      e ← commit_empty;
      if e : bool then Done tt
      else
        r ← commit_get;
        commit ← unwrap_ r;
        commit_pop ≫= fun _ =>
        drop_ref (CommitQueue.commit_buffer_ commit) ≫= fun _ =>
        clear_commit_queue f
  end.

(** A commit queue holds at most 16 entries. *)
Definition QUEUE_FUEL : nat := S CommitQueue.N.

Definition worker_quit : wprog unit :=
  release_all_locks ≫= fun _ =>
  clear_commit_queue QUEUE_FUEL ≫= fun _ =>
  id ← get_txn_id; ret_send id.

(** ** Committing

    [auto& commit = commit_queue_.get().unwrap()] refers into the [Result] that
    [get()] returns, and this temporary is destroyed at the end of the statement,
    before [commit] is used.  C++ leaves it undefined what is read through such
    a reference ([Undefined]).  A compiled program reads the memory where the
    object was: it holds the entry as the destructor has left it, with a null
    buffer reference ([Cleared]), or still as it was, when the compiler has left
    out stores to an object whose life ends ([Retained]).  Which of the three it
    is is a parameter of the handlers, and nothing is assumed of it: the systems
    of threads choose it anew for each turn of a worker. *)

Inductive expiry := Undefined | Cleared | Retained.
Existing Class expiry.

(** The entry [c] of a temporary, read after its destruction. *)
Definition expired {mem : expiry} (c : CommitQueue.commit) : outcome CommitQueue.commit :=
  match mem with
  | Undefined => Undef
  | Cleared =>
      Ret (CommitQueue.mkCommit None (CommitQueue.commit_key_ c) (CommitQueue.commit_op_ c))
  | Retained => Ret c
  end.
Definition recall {mem : expiry} (c : CommitQueue.commit) : wprog CommitQueue.commit :=
  act (fun s w => c' ← expired c; Ret (s, w, c')).

(** [auto buffer = commit.buf()] copies the reference of the destroyed entry.
    The entry that is still in the queue counts the buffer; were it not so, the
    slot might be free or somebody else's, and the copy is undefined. *)
Definition copy_expired (r : buf_ref) : wprog buf_ref :=
  act (fun s w =>
    if bool_decide (r = None \/ r ∈ (CommitQueue.commit_buffer_ <$> CommitQueue.commits_ (commit_queue_ w)))
    then let '(T, r') := ref_copy (buffers_ (db_ s)) r in Ret (set_buffers s T, w, r')
    else Undef).

(** [std::memcpy(&new_tuple, buffer.buffer().data(), sizeof(new_tuple))] *)
Definition load_tuple (r : buf_ref) : wprog StudentTuple.StudentTuple :=
  act (fun s w =>
    match r with
    | Some _ => Ret (s, w, StudentTuple.of_object_bytes (buffer (buffers_ (db_ s)) r))
    | None => Undef
    end).

(** What one entry of the queue does. *)
Definition commit_entry (commit : CommitQueue.commit) : wprog unit :=
  match CommitQueue.commit_op_ commit with
  | ADD_TUPLE =>
      let '(table_id, _) := disassemble_ (CommitQueue.commit_key_ commit) in
      buffer_ref ← copy_expired (CommitQueue.commit_buffer_ commit);
      (if table_id =? tbl_id_StudentTable then
         new_tuple ← load_tuple buffer_ref;
         on_table (fun t => '(t', _) ← StudentTable.insert_ id t new_tuple; Ret (t', tt))
       else Done tt) ≫= fun _ => drop_ref buffer_ref
  | DELETE =>
      let '(table_id, tuple_key) := disassemble_ (CommitQueue.commit_key_ commit) in
      on_locks (fun l => LockList.rm_lock l (CommitQueue.commit_key_ commit)) ≫= fun _ =>
      if table_id =? tbl_id_StudentTable then
        on_table (fun t => '(t', _) ← StudentTable.remove_ t tuple_key; Ret (t', tt))
      else Done tt
  | UPDATE =>
      let '(table_id, _) := disassemble_ (CommitQueue.commit_key_ commit) in
      buffer_ref ← copy_expired (CommitQueue.commit_buffer_ commit);
      (if table_id =? tbl_id_StudentTable then
         new_tuple ← load_tuple buffer_ref;
         on_table (fun t => '(t', _) ← StudentTable.write_ t new_tuple; Ret (t', tt))
       else Done tt) ≫= fun _ => drop_ref buffer_ref
  | _ => Done tt
  end.

(** The temporary entry [get()] returns is destroyed before it is used. *)
Fixpoint commit_loop {mem : expiry} (fuel : nat) : wprog unit :=
  match fuel with
  | O => diverge
  | S f =>
      e ← commit_empty;
      if e : bool then Done tt
      else
        r ← commit_get;
        temporary ← unwrap_ r;
        drop_ref (CommitQueue.commit_buffer_ temporary) ≫= fun _ =>
        commit ← recall temporary;
        commit_entry commit ≫= fun _ =>
        commit_pop ≫= fun _ =>
        commit_loop f
  end.

Definition process_commit {mem : expiry} (_parser : JobBuf.job_buf) (_job : Channels.job) : wprog unit :=
  status ← get_status;
  if negb (bool_decide (status = SHRINKING)) then reject SUCCESS _parser _job
  else
    commit_loop QUEUE_FUEL ≫= fun _ =>
    reply SUCCESS _parser (JobBuf.get_buffer_size _parser) _job ≫= fun _ => job_pop.

(** ** Queueing changes *)

(** The phase check of the three operations that queue a change. *)
Definition enter_shrinking : wprog unit :=
  status ← get_status;
  if bool_decide (status = GROWING) then put_status SHRINKING else Done tt.

Definition process_add (_parser : JobBuf.job_buf) (_job : Channels.job) : wprog unit :=
  enter_shrinking ≫= fun _ =>
  table_id_r ← read_buffers (fun T => JobBuf.get_tbl T _parser);
  if negb (is_ok table_id_r) then reject BAD_TABLE _parser _job
  else
    table_id ← unwrap_ table_id_r;
    if table_id =? tbl_id_StudentTable then
      '(new_entry, bytes_read_r) ← read_buffers (fun T =>
         StudentTuple.deserialize_ StudentTuple.student_default
           (buffer T (Channels.job_ref _job)) (JobBuf.get_tuple_offset _parser));
      if negb (is_ok bytes_read_r) then
        reject BAD_DATA (JobBuf.set_buffer_size _parser 7) _job
      else
        reply SUCCESS _parser (JobBuf.get_buffer_size _parser) _job ≫= fun _ =>
        on_buffers (fun T => (store T (Channels.job_ref _job)
          (Bytes.write (buffer T (Channels.job_ref _job)) 0
             (StudentTuple.object_bytes new_entry)), tt)) ≫= fun _ =>
        commit_error ← commit_send (mkKey table_id 0) ADD_TUPLE (Channels.job_ref _job);
        if bool_decide (commit_error = QueueError_Full) then reject COMMIT_FULL _parser _job
        else job_pop
    else reject BAD_TABLE (JobBuf.set_buffer_size _parser 7) _job.

Definition process_update (_parser : JobBuf.job_buf) (_job : Channels.job) : wprog unit :=
  enter_shrinking ≫= fun _ =>
  table_id_r ← read_buffers (fun T => JobBuf.get_tbl T _parser);
  if negb (is_ok table_id_r) then reject BAD_TABLE _parser _job
  else
    tuple_key_r ← read_buffers (fun T => JobBuf.get_key T _parser);
    if negb (is_ok tuple_key_r) then reject BAD_TP _parser _job
    else
      table_id ← unwrap_ table_id_r;
      tuple_key ← unwrap_ tuple_key_r;
      lock_r ← on_locks (fun l => Ret (l, LockList.get_lock l (mkKey table_id tuple_key)));
      if negb (is_ok lock_r) || negb (bool_decide (value_ lock_r = Some EXCLUSIVE)) then
        reject BAD_ACCESS _parser _job
      else if table_id =? tbl_id_StudentTable then
        '(new_entry, bytes_read_r) ← read_buffers (fun T =>
           StudentTuple.deserialize_ StudentTuple.student_default
             (buffer T (Channels.job_ref _job)) (JobBuf.get_tuple_offset _parser));
        if negb (is_ok bytes_read_r) then reject BAD_DATA _parser _job
        else
          reply SUCCESS _parser 7 _job ≫= fun _ =>
          on_buffers (fun T => (store T (Channels.job_ref _job)
            (Bytes.write (buffer T (Channels.job_ref _job)) 0
               (StudentTuple.object_bytes new_entry)), tt)) ≫= fun _ =>
          commit_error ←
            commit_send (mkKey table_id tuple_key) UPDATE (Channels.job_ref _job);
          if bool_decide (commit_error = QueueError_Full) then
            reject COMMIT_FULL _parser _job
          else job_pop
      else reject BAD_TABLE _parser _job.

Definition process_rm (_parser : JobBuf.job_buf) (_job : Channels.job) : wprog unit :=
  enter_shrinking ≫= fun _ =>
  table_id_r ← read_buffers (fun T => JobBuf.get_tbl T _parser);
  if negb (is_ok table_id_r) then reject BAD_TABLE _parser _job
  else
    tuple_key_r ← read_buffers (fun T => JobBuf.get_key T _parser);
    if negb (is_ok tuple_key_r) then reject BAD_TP _parser _job
    else
      table_id ← unwrap_ table_id_r;
      tuple_key ← unwrap_ tuple_key_r;
      let lock_record_key := mkKey table_id tuple_key in
      lock_r ← on_locks (fun l => Ret (l, LockList.get_lock l lock_record_key));
      if negb (is_ok lock_r) || negb (bool_decide (value_ lock_r = Some EXCLUSIVE)) then
        reject BAD_ACCESS _parser _job
      else
        commit_error ← commit_send lock_record_key DELETE None;
        if bool_decide (commit_error = QueueError_Full) then reject COMMIT_FULL _parser _job
        else
          reply SUCCESS _parser (JobBuf.get_buffer_size _parser) _job ≫= fun _ => job_pop.

(** ** Reading and locking *)

(** The end of both read handlers: the record goes into the reply. *)
Definition send_record (_parser : JobBuf.job_buf) (_job : Channels.job) (idx : nat)
    : wprog unit :=
  student_entry ← read_record idx;
  on_buffers (fun T => (JobBuf.set_key T _parser (StudentTuple.key_ student_entry), tt)) ≫= fun _ =>
  offset_r ← on_buffers (fun T =>
    let '(b, r) := StudentTuple.serialize_ student_entry (buffer T (Channels.job_ref _job))
                     (JobBuf.get_tuple_offset _parser) in
    (store T (Channels.job_ref _job) b, r));
  offset ← unwrap_ offset_r;
  let _parser := JobBuf.set_buffer_size _parser
                   (Z.of_nat (JobBuf.get_tuple_offset _parser) + offset) in
  reply SUCCESS _parser (JobBuf.get_buffer_size _parser) _job ≫= fun _ => job_pop.

(** The [while (true)] loop of [process_shared_read].  After [BAD_ACCESS] the
    code goes on instead of returning. *)
Fixpoint shared_retry (fuel : nat) (timeout_cnt : Z) (table_id : Z)
    (_parser : JobBuf.job_buf) (_job : Channels.job) : wprog unit :=
  match fuel with
  | O => diverge
  | S f =>
      if MAX_TIMEOUT_RETRY <=? timeout_cnt then reject TIMEOUT _parser _job
      else
        r ← is_running;
        if negb r then
          reply ABORTED _parser 7 _job ≫= fun _ =>
          put_status TXN_ABORTED ≫= fun _ => job_pop
        else
          wait_r ← on_table (fun t => Ret (StudentTable.wait_shared_ id id t));
          if negb (is_ok wait_r) then shared_retry f (timeout_cnt + 1) table_id _parser _job
          else
            idx ← unwrap_ wait_r;
            rec ← read_record idx;
            add_lock_r ← on_locks (fun l =>
              LockList.add_lock l (mkKey table_id (StudentTuple.key_ rec)) SHARED);
            (if negb (bool_decide (add_lock_r = LockError_None))
             then reject BAD_ACCESS _parser _job else Done tt) ≫= fun _ =>
            send_record _parser _job idx
  end.

Fixpoint exclusive_retry (fuel : nat) (timeout_cnt : Z) (table_id : Z)
    (_parser : JobBuf.job_buf) (_job : Channels.job) : wprog unit :=
  match fuel with
  | O => diverge
  | S f =>
      if MAX_TIMEOUT_RETRY <=? timeout_cnt then reject TIMEOUT _parser _job
      else
        r ← is_running;
        if negb r then
          reply ABORTED _parser 7 _job ≫= fun _ =>
          put_status TXN_ABORTED ≫= fun _ => job_pop
        else
          wait_r ← on_table (fun t => Ret (StudentTable.wait_exclusive_ id id t));
          if negb (is_ok wait_r) then exclusive_retry f (timeout_cnt + 1) table_id _parser _job
          else
            idx ← unwrap_ wait_r;
            rec ← read_record idx;
            add_lock_r ← on_locks (fun l =>
              LockList.add_lock l (mkKey table_id (StudentTuple.key_ rec)) EXCLUSIVE);
            if negb (bool_decide (add_lock_r = LockError_None))
            then reject BAD_ACCESS _parser _job
            else send_record _parser _job idx
  end.

(** [MAX_TIMEOUT_RETRY] retries and the final test. *)
Definition RETRY_FUEL : nat := S (Z.to_nat MAX_TIMEOUT_RETRY).

Definition process_shared_read (_parser : JobBuf.job_buf) (_job : Channels.job) : wprog unit :=
  status ← get_status;
  if negb (bool_decide (status = GROWING)) then reject BAD_PHASE _parser _job
  else
    table_id_r ← read_buffers (fun T => JobBuf.get_tbl T _parser);
    if negb (is_ok table_id_r) then reject BAD_TABLE _parser _job
    else
      table_id ← unwrap_ table_id_r;
      if table_id =? tbl_id_StudentTable
      then shared_retry RETRY_FUEL 0 table_id _parser _job
      else reject BAD_TABLE _parser _job.

Definition process_exclusive_read (_parser : JobBuf.job_buf) (_job : Channels.job)
    : wprog unit :=
  status ← get_status;
  if negb (bool_decide (status = GROWING)) then reject BAD_PHASE _parser _job
  else
    table_id_r ← read_buffers (fun T => JobBuf.get_tbl T _parser);
    if negb (is_ok table_id_r) then reject BAD_TABLE _parser _job
    else
      table_id ← unwrap_ table_id_r;
      if table_id =? tbl_id_StudentTable
      then exclusive_retry RETRY_FUEL 0 table_id _parser _job
      else reject BAD_TABLE _parser _job.

Definition process_yield (_parser : JobBuf.job_buf) (_job : Channels.job) : wprog unit :=
  status ← get_status;
  if negb (bool_decide (status = GROWING)) then reject BAD_PHASE _parser _job
  else
    table_id_r ← read_buffers (fun T => JobBuf.get_tbl T _parser);
    if negb (is_ok table_id_r) then reject BAD_TABLE _parser _job
    else
      tuple_key_r ← read_buffers (fun T => JobBuf.get_key T _parser);
      if negb (is_ok tuple_key_r) then reject BAD_TP _parser _job
      else
        table_id ← unwrap_ table_id_r;
        tuple_key ← unwrap_ tuple_key_r;
        lock_r ← on_locks (fun l => Ret (l, LockList.get_lock l (mkKey table_id tuple_key)));
        if negb (is_ok lock_r) || negb (bool_decide (value_ lock_r = Some SHARED)) then
          reject BAD_ACCESS _parser _job
        else
          on_locks (fun l => LockList.rm_lock l (mkKey table_id tuple_key)) ≫= fun _ =>
          if table_id =? tbl_id_StudentTable then
            on_table (fun t => t' ← StudentTable.release_ t tuple_key; Ret (t', tt)) ≫= fun _ =>
            reply SUCCESS _parser (JobBuf.get_buffer_size _parser) _job ≫= fun _ => job_pop
          else reject BAD_TABLE _parser _job.

(** The retry loop of [process_promote]: [true] if the record was promoted,
    [false] if the request was answered inside the loop. *)
Fixpoint promote_retry (fuel : nat) (timeout_cnt : Z) (tuple_key : Z)
    (_parser : JobBuf.job_buf) (_job : Channels.job) : wprog bool :=
  match fuel with
  | O => diverge
  | S f =>
      if MAX_TIMEOUT_RETRY <=? timeout_cnt then
        reply TIMEOUT _parser 7 _job ≫= fun _ =>
        put_status TXN_ABORTED ≫= fun _ => job_pop ≫= fun _ => Done false
      else
        r ← is_running;
        if negb r then reject ABORTED _parser _job ≫= fun _ => Done false
        else
          wait_r ← on_table (fun t => StudentTable.promote_ id t tuple_key);
          if negb (bool_decide (wait_r = TupleTableError_None))
          then promote_retry f (timeout_cnt + 1) tuple_key _parser _job
          else Done true
  end.

Definition process_promote (_parser : JobBuf.job_buf) (_job : Channels.job) : wprog unit :=
  status ← get_status;
  if negb (bool_decide (status = GROWING)) then reject BAD_PHASE _parser _job
  else
    table_id_r ← read_buffers (fun T => JobBuf.get_tbl T _parser);
    if negb (is_ok table_id_r) then reject BAD_TABLE _parser _job
    else
      tuple_key_r ← read_buffers (fun T => JobBuf.get_key T _parser);
      if negb (is_ok tuple_key_r) then reject BAD_TP _parser _job
      else
        table_id ← unwrap_ table_id_r;
        tuple_key ← unwrap_ tuple_key_r;
        lock_r ← on_locks (fun l => Ret (l, LockList.get_lock l (mkKey table_id tuple_key)));
        if negb (is_ok lock_r) || negb (bool_decide (value_ lock_r = Some SHARED)) then
          reject BAD_ACCESS _parser _job
        else if table_id =? tbl_id_StudentTable then
          promoted ← promote_retry RETRY_FUEL 0 tuple_key _parser _job;
          if promoted : bool then
            on_locks (fun l => LockList.promote_lock l (mkKey table_id tuple_key)) ≫= fun _ =>
            reply SUCCESS _parser (JobBuf.get_buffer_size _parser) _job ≫= fun _ => job_pop
          else Done tt
        else reject BAD_TABLE _parser _job.

(** ** The main loop *)

(** The [switch (op)] of [start]: [true] if the worker has quit. *)
Definition dispatch {mem : expiry} (op : OpType) (_parser : JobBuf.job_buf) (_job : Channels.job)
    : wprog bool :=
  match op with
  | START_TXN =>
      id ← get_txn_id;
      on_buffers (fun T => (JobBuf.set_txn T _parser id, tt)) ≫= fun _ =>
      reject SUCCESS _parser _job ≫= fun _ => Done false
  | COMMIT_TXN =>
      process_commit _parser _job ≫= fun _ => worker_quit ≫= fun _ => Done true
  | ABORT_TXN =>
      reject SUCCESS _parser _job ≫= fun _ => worker_quit ≫= fun _ => Done true
  | ADD_TUPLE => process_add _parser _job ≫= fun _ => Done false
  | SHARED_READ => process_shared_read _parser _job ≫= fun _ => Done false
  | EXCLUSIVE_READ => process_exclusive_read _parser _job ≫= fun _ => Done false
  | YIELD_READ => process_yield _parser _job ≫= fun _ => Done false
  | PROMOTE => process_promote _parser _job ≫= fun _ => Done false
  | UPDATE => process_update _parser _job ≫= fun _ => Done false
  | DELETE => process_rm _parser _job ≫= fun _ => Done false
  | MAX_OP_VALUE => reject BAD_OP _parser _job ≫= fun _ => Done false
  end.

(** One request: [job_r], [job] and [parser] each hold a reference to the
    buffer until the end of the iteration.  Whatever the message, the handler
    goes through [parser] to the buffer, if only to acknowledge. *)
Definition handle {mem : expiry} (job_r : Channels.job) : wprog bool :=
  r1 ← retain (Channels.job_ref job_r);
  let job := Channels.job_make r1 (Channels.buf_sz job_r) (Channels.conn_ job_r) in
  r2 ← retain (Channels.job_ref job);
  let parser := JobBuf.mkJobBuf r2 (Channels.buf_sz job) in
  deref r2 ≫= fun _ =>
  op_r ← read_buffers (fun T => JobBuf.get_op T parser);
  quit ← (if negb (is_ok op_r) then reject BAD_OP parser job ≫= fun _ => Done false
          else op ← unwrap_ op_r; dispatch op parser job);
  drop_ref r2 ≫= fun _ =>
  drop_ref r1 ≫= fun _ =>
  drop_ref (Channels.job_ref job_r) ≫= fun _ => Done quit.

(** One turn of [while (is_running())]: [true] if the worker has quit. *)
Definition iteration {mem : expiry} : wprog bool :=
  r ← is_running;
  if negb r then worker_quit ≫= fun _ => Done true
  else
    job_r ← job_recv;
    if negb (is_ok job_r) then
      n ← get_timeout_cnt; put_timeout_cnt (u8 (n + 1)) ≫= fun _ => Done false
    else
      put_timeout_cnt 0 ≫= fun _ =>
      n ← get_timeout_cnt;
      if MAX_TIMEOUT_RETRY <=? n then
        job ← unwrap_ job_r;
        worker_quit ≫= fun _ => drop_ref (Channels.job_ref job) ≫= fun _ => Done true
      else
        job ← unwrap_ job_r;
        handle job.

(** [start()], cut off after [fuel] turns: the loop itself is unbounded. *)
Fixpoint start_ {mem : expiry} (fuel : nat) : wprog bool :=
  match fuel with
  | O => Done false
  | S f => quit ← iteration; if quit : bool then Done true else start_ f
  end.
