(* ===== verification/Length.v ===== *)
(** * How long a turn is

    An upper bound on the number of actions of every handler, whatever the
    actions return: the loops of the worker are bounded by the sizes of the lock
    list and of the commit queue, and by the number of retries. *)
From S2P Require Import Prelude Params Probe UniqueKey Ring Prog Worker.
From S2P Require Bytes JobBuf StudentTuple StudentTable LockList CommitQueue Channels.

(** [p] takes at most [n] actions. *)
Fixpoint within {A} (n : nat) (p : wprog A) {struct p} : Prop :=
  match p with
  | Done _ => True
  | Act f k => match n with O => False | S m => forall b, within m (k b) end
  end.

Lemma within_le {A} n m (p : wprog A) : within n p -> (n <= m)%nat -> within m p.
Proof.
  revert n m. induction p as [a|B f k IH]; intros [|n] [|m] H Hle; try done; [lia|].
  intros b. apply (IH b n m); [apply H|lia].
Qed.

Lemma within_bind {A B} n m (p : wprog A) (h : A -> wprog B) :
  within n p -> (forall a, within m (h a)) -> within (n + m) (p ≫= h).
Proof.
  intros Hp Hh. change (within (n + m) (bind p h)). revert n Hp.
  induction p as [a|C f k IH]; intros n Hp; [apply (within_le m); [apply Hh|lia]|].
  destruct n as [|n]; [done|]. intros c. apply IH, Hp.
Qed.

Lemma within_act {B} n (f : shared -> Worker -> outcome (shared * Worker * B)) : within (S n) (act f).
Proof. exact (fun b => I). Qed.

Lemma within_step {A B} n (p : wprog A) (h : A -> wprog B) :
  within 1 p -> (forall a, within n (h a)) -> within (S n) (p ≫= h).
Proof. apply (within_bind 1). Qed.

(** [count] goes through the actions and the branches of a program. *)
Ltac count :=
  repeat (lazymatch goal with
    | |- within _ (Done _) => exact I
    | |- within _ (reject _ _ _) => unfold reject
    | |- within _ (match ?x with _ => _ end) => destruct x
    | |- within (S _) (_ ≫= _) => apply within_step; [solve [apply (within_act 0)]|intros ?]
    | |- within (S _) _ => solve [apply (within_act _)]
    end).

(** ** Loops *)

Lemma within_release_loop f ll idx : within (S f) (release_loop f ll idx).
Proof.
  revert idx. induction f as [|f IH]; intros idx; cbn [release_loop]; [apply (within_act 0)|].
  destruct (_ =? _)%nat; [done|]. destruct (LockList.deref ll idx) as [lock|]; [|apply (within_act _)].
  destruct (disassemble_ _) as [tbl key]. destruct (tbl =? _).
  - apply within_step; [apply (within_act 0)|]. intros _. apply IH.
  - apply (within_le (S f)); [apply IH|lia].
Qed.

Lemma within_clear f : within (1 + 5 * f) (clear_commit_queue f).
Proof.
  induction f as [|f IH]; cbn [clear_commit_queue]; [apply (within_act 0)|].
  replace (1 + 5 * S f)%nat with (S (S (S (S (S (1 + 5 * f)))))) by lia. count; exact IH.
Qed.

Lemma within_quit : within 108 worker_quit.
Proof.
  unfold worker_quit, release_all_locks. apply (within_bind 20 88).
  - count. apply (within_bind 18 1); [apply (within_release_loop 17)|]. intros _. apply (within_act 0).
  - intros _. apply (within_bind 86 2); [apply (within_clear 17)|]. intros _. count.
Qed.

Lemma within_commit_entry c : within 4 (commit_entry c).
Proof.
  unfold commit_entry, disassemble_. destruct (CommitQueue.commit_op_ c); count.
  - apply (within_bind 2 1); [count|]. intros _. count.
  - apply (within_bind 2 1); [count|]. intros _. count.
Qed.

Lemma within_commit_loop {mem : expiry} f : within (1 + 10 * f) (commit_loop f).
Proof.
  induction f as [|f IH]; cbn [commit_loop]; [apply (within_act 0)|].
  replace (1 + 10 * S f)%nat with (5 + (4 + (1 + (1 + 10 * f))))%nat by lia. cbn [Nat.add]. count.
  apply (within_bind 4 (S (S (10 * f)))); [apply within_commit_entry|]. intros _. count. exact IH.
Qed.

(** ** Requests *)

Section Requests.
Context {mem : expiry} (p : JobBuf.job_buf) (j : Channels.job).

Lemma within_process_commit : within 174 (process_commit p j).
Proof.
  unfold process_commit. count. apply (within_bind 171 2); [apply (within_commit_loop 17)|]. intros _. count.
Qed.

Lemma within_enter : within 2 enter_shrinking.
Proof. unfold enter_shrinking. count. Qed.

Lemma within_process_add : within 14 (process_add p j).
Proof. unfold process_add. apply (within_bind 2 12); [apply within_enter|]. intros _. count. Qed.
Lemma within_process_update : within 14 (process_update p j).
Proof. unfold process_update. apply (within_bind 2 12); [apply within_enter|]. intros _. count. Qed.
Lemma within_process_rm : within 14 (process_rm p j).
Proof. unfold process_rm. apply (within_bind 2 12); [apply within_enter|]. intros _. count. Qed.

Lemma within_send_record i : within 6 (send_record p j i).
Proof. unfold send_record. count. Qed.

Lemma within_shared_retry f n id : within (13 + 2 * f) (shared_retry f n id p j).
Proof.
  revert n. induction f as [|f IH]; intros n; cbn [shared_retry]; [apply (within_act 12)|].
  replace (13 + 2 * S f)%nat with (2 + (13 + 2 * f))%nat by lia. cbn [Nat.add]. count; [exact (IH _)|].
  apply (within_bind 2 (8 + 2 * f)); [count|]. intros _.
  apply (within_le 6); [apply within_send_record|lia].
Qed.
Lemma within_exclusive_retry f n id : within (13 + 2 * f) (exclusive_retry f n id p j).
Proof.
  revert n. induction f as [|f IH]; intros n; cbn [exclusive_retry]; [apply (within_act 12)|].
  replace (13 + 2 * S f)%nat with (2 + (13 + 2 * f))%nat by lia. cbn [Nat.add]. count; [exact (IH _)|].
  apply (within_le 6); [apply within_send_record|lia].
Qed.
Lemma within_promote_retry f n k : within (4 + 2 * f) (promote_retry f n k p j).
Proof.
  revert n. induction f as [|f IH]; intros n; cbn [promote_retry]; [apply (within_act 3)|].
  replace (4 + 2 * S f)%nat with (2 + (4 + 2 * f))%nat by lia. cbn [Nat.add]. count; [|exact (IH _)].
  apply (within_bind 2 (3 + 2 * f)); [count|]. by intros _.
Qed.

Lemma within_process_shared_read : within 34 (process_shared_read p j).
Proof. unfold process_shared_read. count. exact (within_shared_retry 9 0 _). Qed.
Lemma within_process_exclusive_read : within 34 (process_exclusive_read p j).
Proof. unfold process_exclusive_read. count. exact (within_exclusive_retry 9 0 _). Qed.
Lemma within_process_yield : within 34 (process_yield p j).
Proof. unfold process_yield. count. Qed.
Lemma within_process_promote : within 34 (process_promote p j).
Proof.
  unfold process_promote. count. apply (within_bind 22 6); [exact (within_promote_retry 9 0 _)|]. intros b. count.
Qed.

(** A commit is the longest of them. *)
Lemma within_dispatch op : within 282 (dispatch op p j).
Proof.
  assert (Hh : forall n (h : wprog unit), within n h -> (n <= 282)%nat -> within 282 (h ≫= fun _ => Done false)).
  { intros n h H Hle. apply (within_le (n + 0)); [|lia]. apply within_bind; [exact H|]. by intros _. }
  destruct op; cbn [dispatch].
  - count. apply (within_bind 2 278); [count|]. by intros _.
  - apply (Hh 14%nat); [apply within_process_add|lia].
  - apply (Hh 34%nat); [apply within_process_shared_read|lia].
  - apply (Hh 34%nat); [apply within_process_exclusive_read|lia].
  - apply (Hh 34%nat); [apply within_process_yield|lia].
  - apply (Hh 34%nat); [apply within_process_promote|lia].
  - apply (Hh 14%nat); [apply within_process_update|lia].
  - apply (Hh 14%nat); [apply within_process_rm|lia].
  - apply (within_bind 174 108); [apply within_process_commit|]. intros _.
    apply (within_bind 108 0); [apply within_quit|]. by intros _.
  - apply (within_le (2 + 108)); [|lia]. apply within_bind; [count|]. intros _.
    apply (within_bind 108 0); [apply within_quit|]. by intros _.
  - apply (Hh 2%nat); [count|lia].
Qed.
End Requests.

(** ** A turn *)

Definition TURN_ACTIONS : nat := 295.

Lemma within_iteration {mem : expiry} : within TURN_ACTIONS iteration.
Proof.
  unfold TURN_ACTIONS, iteration. count.
  - apply (within_le (108 + 0)); [|lia]. apply within_bind; [apply within_quit|]. by intros _.
  - apply (within_le (108 + 1)); [|lia]. apply within_bind; [apply within_quit|]. intros _. count.
  - unfold handle. count. apply (within_bind 283 3); [|intros b; count].
    count; [|apply within_dispatch]. apply (within_bind 2 281); [count|]. by intros _.
Qed.
