(* ===== verification/References.v ===== *)
(** * The references of a worker

    The logic of [Counted] at the worker: one rule per action of [Worker],
    then every handler.  A worker keeps references in its job channel and in
    the slots of its commit queue, stale ones included; between two turns of
    its loop it has no others. *)
From S2P Require Import Prelude Params Probe BufTable UniqueKey Ring Prog Counted Typing Worker.
From S2P Require Bytes JobBuf StudentTuple StudentTable LockList CommitQueue Channels.

Definition pool_of (s : shared) : buf_table := buffers_ (db_ s).

(** What sits in the slots of the two queues. *)
Definition commit_refs (w : Worker) : list buf_ref :=
  CommitQueue.commit_buffer_ <$> CommitQueue.commits_ (commit_queue_ w).
Definition own_refs (s : shared) (w : Worker) : list buf_ref :=
  slot_refs (job_ch_ w) ++ commit_refs w.

(** A change to a record comes with a buffer. *)
Definition has_buffer (c : CommitQueue.commit) : Prop :=
  CommitQueue.commit_op_ c = ADD_TUPLE \/ CommitQueue.commit_op_ c = UPDATE ->
  CommitQueue.commit_buffer_ c <> None.

Definition stocked (q : CommitQueue.commit_queue) : Prop := Forall has_buffer (CommitQueue.commits_ q).

(** What is queued is in a slot of the queue. *)
Lemma items_elem (l : list CommitQueue.commit) h n c : c ∈ items CommitQueue.N l h n -> c ∈ l.
Proof.
  revert h. induction n as [|n IH]; intros h; cbn [items]; [by intros ?%elem_of_nil|].
  destruct (l !! h) as [x|] eqn:Hx; [|by intros ?%elem_of_nil].
  intros [->|Hc]%elem_of_cons; [by eapply list_elem_of_lookup_2|by eapply IH].
Qed.

Lemma queued_slot (q : CommitQueue.commit_queue) c : c ∈ contents q -> c ∈ CommitQueue.commits_ q.
Proof. apply items_elem. Qed.

Lemma queued_ref w c : c ∈ contents (commit_queue_ w) -> CommitQueue.commit_buffer_ c ∈ commit_refs w.
Proof. intros Hc. apply list_elem_of_fmap. exists c. split; [done|]. by apply queued_slot. Qed.

(** An array of a channel, whatever the counters say. *)
Record sized (q : Channels.job_channel) : Prop := {
  sz_jobs : length (Channels.jobs_ q) = Channels.MaxJobs;
  sz_head : (Channels.head_ q < Channels.MaxJobs)%nat;
  sz_tail : (Channels.tail_ q < Channels.MaxJobs)%nat
}.

Record commits_sized (q : CommitQueue.commit_queue) : Prop := {
  cs_length : length (CommitQueue.commits_ q) = CommitQueue.N;
  cs_head : (CommitQueue.head_ q < CommitQueue.N)%nat;
  cs_ready : stocked q
}.

(** Types of the shared state and of the worker's objects. *)
Definition typed (s : shared) : Prop :=
  pool_typed (pool_of s) /\ table_typed (students_ (db_ s)).

Record worker_shape (s : shared) (w : Worker) : Prop := {
  ws_typed : typed s;
  ws_jobs : sized (job_ch_ w);
  ws_commits : commits_sized (commit_queue_ w)
}.

(** A worker may change the shared state in any way. *)
Definition any_change (s s' : shared) : Prop := True.

Abbreviation wcounted := (counted pool_of own_refs worker_shape any_change).
Abbreviation wafter := (after pool_of own_refs worker_shape any_change).
Abbreviation wcounts := (counts pool_of own_refs).

Lemma channel_default_sized : sized Channels.job_channel_default.
Proof. split; vm_compute; lia. Qed.

Lemma commits_default_sized : commits_sized CommitQueue.commit_queue_default.
Proof.
  split; [done|vm_compute; lia|]. apply Forall_replicate. intros [H|H]; discriminate H.
Qed.

Lemma own_small : small own_refs worker_shape.
Proof.
  intros s w [_ [H1 _ _] [H2 _ _]]. unfold own_refs, commit_refs. simpl.
  rewrite length_app, !length_fmap, H1, H2. unfold OBJECTS. vm_compute. lia.
Qed.

(** A local reference leads to a buffer of the pool. *)
Lemma local_whole s w g i :
  typed s -> (exists R, fits R /\ wcounts s w g R) -> Some i ∈ g -> whole (buffer (pool_of s) (Some i)).
Proof.
  intros [HT _] (R & _ & HR) Hi. apply buffer_whole; [done|]. rewrite (pool_length _ _ HR).
  pose proof (pool_refs _ _ HR) as Hr. rewrite list.Forall_forall in Hr.
  apply (Hr (Some i)); [|done]. apply elem_of_app. right. apply elem_of_app. by left.
Qed.

(** ** Actions that keep the references *)

Section Rules.
Context {B : Type}.
Implicit Types (Q : list buf_ref -> B -> Prop) (g : list buf_ref).

Lemma counted_same (f : shared -> Worker -> outcome (shared * Worker * B)) Q g :
  (forall s w, worker_shape s w -> (exists R, fits R /\ wcounts s w g R) ->
    match f s w with
    | Ret (s', w', b) => typed s' /\ job_ch_ w' = job_ch_ w /\ commit_queue_ w' = commit_queue_ w /\
        (forall refs, pool_wf (pool_of s) refs -> pool_wf (pool_of s') refs) /\ Q g b
    | _ => True
    end) -> wcounted (act f) Q g.
Proof.
  intros Hf s w Hs Hg HR. specialize (Hf s w Hs HR).
  destruct (f s w) as [[[s' w'] b]| |]; [|done..]. destruct Hf as (Ht & Hj & Hc & Hp & HQ).
  exists g. split; [|done]. destruct Hs.
  apply after_same; [split; [done|by rewrite Hj|by rewrite Hc]|done| |done|done].
  unfold own_refs, commit_refs. by rewrite Hj, Hc.
Qed.

(** On the worker alone. *)
Lemma counted_local (f : Worker -> outcome (Worker * B)) h Q g :
  (forall s w, h s w = ('(w', b) ← f w; Ret (s, w', b))) ->
  (forall w w' b, f w = Ret (w', b) -> job_ch_ w' = job_ch_ w /\ commit_queue_ w' = commit_queue_ w) ->
  (forall b, Q g b) -> wcounted (act h) Q g.
Proof.
  intros Hh Hf HQ. apply counted_same. intros s w Hs _. rewrite Hh.
  destruct (f w) as [[w' b]| |] eqn:E; [|done..]. simpl.
  destruct (Hf _ _ _ E). split_and!; [apply Hs|done..].
Qed.

Lemma counted_unwrap {E} (r : Result B E) Q g :
  (forall a, value_ r = Some a -> Q g a) -> wcounted (unwrap_ r) Q g.
Proof.
  intros HQ. apply counted_same. intros s w Hs _. unfold unwrap.
  destruct (value_ r) as [a|] eqn:E1; [|done]. simpl. split_and!; [apply Hs|done..|by apply HQ].
Qed.

(** The table: a function that keeps its records typed. *)
Lemma counted_table (f : StudentTable.StudentTable -> outcome (StudentTable.StudentTable * B)) Q g :
  (forall t t' b, table_typed t -> f t = Ret (t', b) -> table_typed t' /\ Q g b) ->
  wcounted (on_table f) Q g.
Proof.
  intros Hf. apply counted_same. intros s w [[HT Ht] _ _] _.
  destruct (f (students_ (db_ s))) as [[t' b]| |] eqn:E; [|done..]. simpl.
  destruct (Hf _ _ _ Ht E). by split_and!.
Qed.

Lemma counted_on_locks (f : LockList.lock_list -> outcome (LockList.lock_list * B)) Q g :
  (forall b, Q g b) -> wcounted (on_locks f) Q g.
Proof.
  intros HQ. apply counted_same. intros s w Hs _. destruct (f _) as [[l b]| |]; [|done..]. simpl.
  split_and!; [apply Hs|done..].
Qed.

(** The bytes of the pool. *)
Lemma counted_buffers (f : buf_table -> buf_table * B) Q g :
  (forall T, pool_typed T -> (forall i, Some i ∈ g -> whole (buffer T (Some i))) ->
     pool_typed (f T).1 /\ (forall refs, pool_wf T refs -> pool_wf (f T).1 refs) /\ Q g (f T).2) ->
  wcounted (on_buffers f) Q g.
Proof.
  intros Hf. apply counted_same. intros s w Hs HR. pose proof (ws_typed _ _ Hs) as [HT Ht].
  specialize (Hf (pool_of s) HT). destruct Hf as (H1 & H2 & H3).
  { intros i Hi. eapply local_whole; [apply Hs|done..]. }
  unfold pool_of in *. destruct (f _) as [T b]. by split_and!.
Qed.

Lemma counted_read_buffers (f : buf_table -> B) Q g :
  (forall T, pool_typed T -> (forall i, Some i ∈ g -> whole (buffer T (Some i))) -> Q g (f T)) ->
  wcounted (read_buffers f) Q g.
Proof. intros Hf. apply counted_buffers. intros T HT Hw. split_and!; [done..|by apply Hf]. Qed.
End Rules.

Section WorkerRules.
Implicit Types (g : list buf_ref).

Lemma counted_done {A} (a : A) (Q : list buf_ref -> A -> Prop) g : Q g a -> wcounted (Done a) Q g.
Proof. done. Qed.

Lemma counted_get_status (Q : _ -> _ -> Prop) g : (forall st, Q g st) -> wcounted get_status Q g.
Proof. apply (counted_local (fun w => Ret (w, status_ w))); [done|]. by intros w w' b [= <- _]. Qed.
Lemma counted_put_status st (Q : _ -> _ -> Prop) g : Q g tt -> wcounted (put_status st) Q g.
Proof.
  intros HQ. apply (counted_local (fun w => Ret (set_status w st, tt))); [done| |by intros []].
  by intros w w' b [= <- _].
Qed.
Lemma counted_get_timeout_cnt (Q : _ -> _ -> Prop) g : (forall n, Q g n) -> wcounted get_timeout_cnt Q g.
Proof. apply (counted_local (fun w => Ret (w, timeout_cnt_ w))); [done|]. by intros w w' b [= <- _]. Qed.
Lemma counted_put_timeout_cnt n (Q : _ -> _ -> Prop) g : Q g tt -> wcounted (put_timeout_cnt n) Q g.
Proof.
  intros HQ. apply (counted_local (fun w => Ret (set_timeout_cnt w n, tt))); [done| |by intros []].
  by intros w w' b [= <- _].
Qed.
Lemma counted_get_txn_id (Q : _ -> _ -> Prop) g : (forall n, Q g n) -> wcounted get_txn_id Q g.
Proof. apply (counted_local (fun w => Ret (w, txn_id_ w))); [done|]. by intros w w' b [= <- _]. Qed.
Lemma counted_is_running (Q : _ -> _ -> Prop) g : (forall b, Q g b) -> wcounted is_running Q g.
Proof. apply (counted_local (fun w => Ret (w, running_ w))); [done|]. by intros w w' b [= <- _]. Qed.
Lemma counted_commit_empty (Q : _ -> _ -> Prop) g : (forall b, Q g b) -> wcounted commit_empty Q g.
Proof.
  apply (counted_local (fun w => Ret (w, CommitQueue.empty (commit_queue_ w)))); [done|].
  by intros w w' b [= <- _].
Qed.
Lemma counted_deref r (Q : _ -> _ -> Prop) g : (r <> None -> Q g tt) -> wcounted (deref r) Q g.
Proof.
  intros HQ. apply counted_same. intros s w Hs _. destruct r as [i|]; [|done].
  split_and!; [apply Hs|done..|by apply HQ].
Qed.

Lemma counted_load r (Q : _ -> _ -> Prop) g :
  r ∈ g -> (forall t, StudentTuple.student_wf t -> Q g t) -> wcounted (load_tuple r) Q g.
Proof.
  intros Hr HQ. apply counted_same. intros s w Hs HR. destruct r as [i|]; [|done].
  split_and!; [apply Hs|done..|]. apply HQ, of_object_typed. eapply local_whole; [apply Hs|done..].
Qed.

Lemma counted_recall {mem : expiry} c (Q : _ -> _ -> Prop) g :
  (forall c', expired c = Ret c' -> Q g c') -> wcounted (recall c) Q g.
Proof.
  intros HQ. apply counted_same. intros s w Hs _. destruct (expired c) as [c'| |] eqn:E; [|done..].
  simpl. split_and!; [apply Hs|done..|by apply HQ].
Qed.

Lemma counted_reply a p n j (Q : _ -> _ -> Prop) g : Q g tt -> wcounted (reply a p n j) Q g.
Proof.
  intros HQ. apply counted_same. intros s w [[HT Ht] _ _] _. split_and!; [split|..]; try done.
  - apply set_field_typed; [done|lia].
  - intros refs. apply store_wf.
Qed.

Lemma counted_ret_send n (Q : _ -> _ -> Prop) g : Q g tt -> wcounted (ret_send n) Q g.
Proof.
  intros HQ. apply counted_same. intros s w [[HT Ht] _ _] _.
  unfold Channels.ret_send, Channels.id_assign. by destruct (Channels.rets_ (ret_ch_ s) !! _).
Qed.

Lemma counted_commit_pop (Q : _ -> _ -> Prop) g : Q g tt -> wcounted commit_pop Q g.
Proof.
  intros HQ s w [Ht Hj [H1 H2 H3]] Hg HR. exists g. split; [|done]. by apply after_same.
Qed.
End WorkerRules.

(** ** Actions that move references *)

Section Moves.
Implicit Types (g : list buf_ref).

Lemma shape_pool s w T :
  worker_shape s w -> pool_typed T -> worker_shape (set_buffers s T) w.
Proof. intros [[_ Ht] Hj Hc] HT. by split. Qed.

Lemma counted_retain r (Q : _ -> _ -> Prop) g :
  (length g < LOCALS)%nat -> r = None \/ r ∈ g -> Q (r :: g) r -> wcounted (retain r) Q g.
Proof.
  intros Hlt Hr HQ s w Hs _ _. pose proof (ws_typed _ _ Hs) as [HT _].
  pose proof (ref_copy_typed (pool_of s) r HT) as HT'.
  assert (E : ref_copy (buffers_ (db_ s)) r = ((ref_copy (pool_of s) r).1, r)) by by destruct r.
  rewrite E. exists (r :: g). split; [|done].
  apply after_retain; [apply own_small|done|by apply shape_pool|done..| |done].
  destruct Hr; [by left|right]. apply elem_of_app. by right.
Qed.

Lemma counted_copy_expired r (Q : _ -> _ -> Prop) g :
  (length g < LOCALS)%nat -> Q (r :: g) r -> wcounted (copy_expired r) Q g.
Proof.
  intros Hlt HQ s w Hs _ _. pose proof (ws_typed _ _ Hs) as [HT _].
  pose proof (ref_copy_typed (pool_of s) r HT) as HT'. case_bool_decide as Hr; [|done].
  assert (E : ref_copy (buffers_ (db_ s)) r = ((ref_copy (pool_of s) r).1, r)) by by destruct r.
  rewrite E. exists (r :: g). split; [|done].
  apply after_retain; [apply own_small|done|by apply shape_pool|done..| |done].
  destruct Hr as [?|Hr]; [by left|right]. apply elem_of_app. left. apply elem_of_app. by right.
Qed.

Lemma counted_drop r (Q : _ -> _ -> Prop) g : Q g tt -> wcounted (drop_ref r) Q (r :: g).
Proof.
  intros HQ s w Hs Hg _. pose proof (ws_typed _ _ Hs) as [HT _].
  exists g. split; [|done]. apply after_drop; [|done..].
  apply shape_pool; [done|]. by apply ref_destroy_typed.
Qed.

Lemma counted_job_recv (Q : _ -> _ -> Prop) g :
  (length g < LOCALS)%nat -> (forall j, Q (Channels.job_ref j :: g) (Ok j)) ->
  (forall r, is_ok r = false -> Q g r) -> wcounted job_recv Q g.
Proof.
  intros Hlt HQ HE s w Hs Hg _. pose proof (ws_typed _ _ Hs) as [HT _].
  destruct (Channels.recv id _ _) as [[T q] r] eqn:E.
  unfold Channels.recv, wait_for, id in E. cbn [snd] in E.
  assert (Hsame : set_job_ch w (job_ch_ w) = w) by by destruct w.
  destruct (negb _).
  2: { injection E as <- <- <-. rewrite Hsame. exists g. split; [|by apply HE]. apply after_same; [by apply shape_pool|done..]. }
  unfold Channels.front_copy in E. destruct (Channels.jobs_ (job_ch_ w) !! _) as [j|] eqn:Hj.
  2: { injection E as <- <- <-. rewrite Hsame. exists g. split; [|by apply HE]. apply after_same; [by apply shape_pool|done..]. }
  unfold Channels.job_copy in E.
  assert (E2 : ref_copy (buffers_ (db_ s)) (Channels.job_ref j) =
    ((ref_copy (pool_of s) (Channels.job_ref j)).1, Channels.job_ref j)) by by destruct (Channels.job_ref j).
  rewrite E2 in E. injection E as <- <- <-. rewrite Hsame.
  exists (Channels.job_ref j :: g). split; [|specialize (HQ j); by destruct j as [[] ?]].
  apply after_retain; [apply own_small|done| |done..| |done].
  - apply shape_pool; [done|]. by apply ref_copy_typed.
  - right. apply elem_of_app. left. apply elem_of_app. left.
    apply list_elem_of_fmap. exists j. split; [done|]. by eapply list_elem_of_lookup_2.
Qed.

Lemma counted_job_pop (Q : _ -> _ -> Prop) g : Q g tt -> wcounted job_pop Q g.
Proof.
  intros HQ s w [[HT Ht] [H1 H2 H3] Hc] Hg _. unfold Channels.pop.
  destruct (lookup_lt_is_Some_2 (Channels.jobs_ (job_ch_ w)) (Channels.head_ (job_ch_ w))) as [j Hj];
    [by rewrite H1|].
  rewrite Hj. unfold Channels.job_destroy.
  assert (E : ref_destroy (buffers_ (db_ s)) (Channels.job_ref j) =
    ((ref_destroy (pool_of s) (Channels.job_ref j)).1, None)) by by destruct (Channels.job_ref j).
  rewrite E. exists g. split; [|done]. split; [split; [split|..]|done|done|].
  - by apply ref_destroy_typed.
  - done.
  - split; simpl; [by rewrite length_insert| |done]. apply Nat.mod_upper_bound. vm_compute. lia.
  - done.
  - intros R _ HR. unfold counts, own_refs in *. rewrite <- app_assoc in *.
    by apply (destroy_slot_wf Channels.job_ref).
Qed.

Lemma counted_commit_get (Q : _ -> _ -> Prop) g :
  (length g < LOCALS)%nat ->
  (forall c, has_buffer c -> Q (CommitQueue.commit_buffer_ c :: g) (Ok c)) ->
  wcounted commit_get Q g.
Proof.
  intros Hlt HQ s w Hs _ _. pose proof (ws_typed _ _ Hs) as [HT _]. unfold CommitQueue.get.
  destruct (CommitQueue.commits_ (commit_queue_ w) !! _) as [c|] eqn:Hc; [|done].
  unfold CommitQueue.commit_copy.
  assert (E : ref_copy (buffers_ (db_ s)) (CommitQueue.commit_buffer_ c) =
    ((ref_copy (pool_of s) (CommitQueue.commit_buffer_ c)).1, CommitQueue.commit_buffer_ c))
    by by destruct (CommitQueue.commit_buffer_ c).
  rewrite E. simpl. exists (CommitQueue.commit_buffer_ c :: g). split.
  - apply after_retain; [apply own_small|done| |done..| |done].
    + apply shape_pool; [done|]. by apply ref_copy_typed.
    + right. apply elem_of_app. left. apply elem_of_app. right.
      apply list_elem_of_fmap. exists c. split; [done|]. by eapply list_elem_of_lookup_2.
  - assert (Hb : has_buffer c) by exact (Forall_lookup_1 _ _ _ _ (cs_ready _ (ws_commits _ _ Hs)) Hc).
    specialize (HQ c Hb). by destruct c.
Qed.

(** The temporary entry of [commit_send] holds a reference of its own. *)
Lemma make_counts s w g r R :
  worker_shape s w -> (length g <= LOCALS)%nat -> r = None \/ r ∈ g ->
  fits R -> wcounts s w g R ->
  pool_wf (ref_copy (pool_of s) r).1 (r :: commit_refs w ++ slot_refs (job_ch_ w) ++ g ++ R).
Proof.
  intros Hs Hg Hr Hf HR. pose proof (small_counts _ _ s w g R own_small Hs Hg Hf) as Hlen.
  unfold counts, own_refs in *. rewrite <- app_assoc, Permutation_app_swap_app in HR, Hlen.
  assert (Z.of_nat (length (commit_refs w ++ slot_refs (job_ch_ w) ++ g ++ R)) < 65535) by lia.
  destruct Hr as [->|Hr]; [by apply null_wf|].
  apply list_elem_of_lookup in Hr as [h Hh].
  pose proof (dup_wf _ _ (length (commit_refs w) + (length (slot_refs (job_ch_ w)) + h)) r HR) as Hd.
  rewrite !lookup_app_r in Hd by lia.
  replace (length (commit_refs w) + (length (slot_refs (job_ch_ w)) + h) - length (commit_refs w)
    - length (slot_refs (job_ch_ w)))%nat with h in Hd by lia.
  rewrite lookup_app_l in Hd by by eapply lookup_lt_Some.
  specialize (Hd Hh ltac:(lia)). by destruct r.
Qed.

(** A queued change: the slot takes a reference of its own. *)
Lemma counted_commit_send k o r (Q : _ -> _ -> Prop) g :
  r = None \/ r ∈ g -> (o = ADD_TUPLE \/ o = UPDATE -> r <> None) ->
  (forall e, Q g e) -> wcounted (commit_send k o r) Q g.
Proof.
  intros Hr Ho HQ s w Hs Hg _. pose proof Hs as [[HT Ht] Hj [H1 H2 H3]]. unfold commit_send, CommitQueue.commit_make.
  assert (E : ref_copy (buffers_ (db_ s)) r = ((ref_copy (pool_of s) r).1, r)) by by destruct r.
  rewrite E. set (x := CommitQueue.mkCommit r k o).
  pose proof (ref_copy_typed (pool_of s) r HT) as HT1.
  pose proof (fun R => make_counts s w g r R Hs Hg Hr) as Hcnt.
  unfold CommitQueue.send. destruct (CommitQueue.full _).
  { exists g. split; [|by apply HQ]. split; [split; [split|..]|..]; try done.
    - by apply ref_destroy_typed.
    - intros R Hf HR. specialize (Hcnt R Hf HR). apply drop_wf in Hcnt. unfold counts, own_refs.
      rewrite <- app_assoc, Permutation_app_swap_app. by destruct r. }
  destruct (lookup_lt_is_Some_2 (CommitQueue.commits_ (commit_queue_ w))
    (CommitQueue.head_ (commit_queue_ w))) as [c Hc]; [by rewrite H1|].
  rewrite Hc. unfold CommitQueue.commit_assign. change (CommitQueue.commit_buffer_ x) with r.
  destruct (ref_assign (ref_copy (pool_of s) r).1 (CommitQueue.commit_buffer_ c) r) as [T2 r2] eqn:Ea.
  assert (r2 = r) as -> by (unfold ref_assign in Ea; congruence).
  exists g. split; [|by apply HQ]. split; [split; [split|..]|..]; try done.
  - apply ref_destroy_typed. pose proof (ref_assign_typed _ (CommitQueue.commit_buffer_ c) r HT1) as H.
    by rewrite Ea in H.
  - split; simpl; [by rewrite length_insert| |by apply Forall_insert].
    apply Nat.mod_upper_bound. vm_compute. lia.
  - intros R Hf HR. specialize (Hcnt R Hf HR). unfold counts, own_refs.
    rewrite <- app_assoc, Permutation_app_swap_app.
    eapply (assign_slot_wf _ _ _ _ _ x) in Hcnt; [|exact Hc|done|exact Ea|].
    + apply drop_wf in Hcnt. by destruct r.
    + pose proof (small_counts _ _ s w g R own_small Hs Hg Hf) as Hlen.
      unfold own_refs, commit_refs in *. rewrite !length_app in *. lia.
Qed.
End Moves.

(** ** Handlers

    [counting] runs through the actions that leave the local references as
    they are, both ways at every test. *)

Ltac count_step :=
  lazymatch goal with
  | |- counted _ _ _ _ (_ ≫= _) _ _ => apply counted_bind
  | |- counted _ _ _ _ (Done _) _ _ => apply counted_done
  | |- counted _ _ _ _ (reject _ _ _) _ _ => unfold reject
  | |- counted _ _ _ _ (reply _ _ _ _) _ _ => apply counted_reply
  | |- counted _ _ _ _ job_pop _ _ => apply counted_job_pop
  | |- counted _ _ _ _ (ret_send _) _ _ => apply counted_ret_send
  | |- counted _ _ _ _ (drop_ref _) _ _ => apply counted_drop
  | |- counted _ _ _ _ (deref _) _ _ => apply counted_deref; intros ?
  | |- counted _ _ _ _ get_status _ _ => apply counted_get_status; intros ?
  | |- counted _ _ _ _ (put_status _) _ _ => apply counted_put_status
  | |- counted _ _ _ _ get_txn_id _ _ => apply counted_get_txn_id; intros ?
  | |- counted _ _ _ _ get_timeout_cnt _ _ => apply counted_get_timeout_cnt; intros ?
  | |- counted _ _ _ _ (put_timeout_cnt _) _ _ => apply counted_put_timeout_cnt
  | |- counted _ _ _ _ is_running _ _ => apply counted_is_running; intros ?
  | |- counted _ _ _ _ commit_empty _ _ => apply counted_commit_empty; intros ?
  | |- counted _ _ _ _ commit_pop _ _ => apply counted_commit_pop
  | |- counted _ _ _ _ (on_locks _) _ _ => apply counted_on_locks; intros ?
  | |- counted _ _ _ _ (unwrap_ _) _ _ => apply counted_unwrap; intros ? ?
  | |- counted _ _ _ _ (if ?b then _ else _) _ _ => destruct b
  | |- counted _ _ _ _ diverge _ _ => done
  end.
Ltac counting := cbv beta; repeat (count_step; cbv beta).

Section Handlers.
Implicit Types (g : list buf_ref).
Context (p : JobBuf.job_buf) (j : Channels.job).

(** Reading a field of the message. *)
Lemma counted_field {A} (f : buf_table -> A) (Q : _ -> _ -> Prop) g :
  (forall a, Q g a) -> wcounted (read_buffers f) Q g.
Proof. intros HQ. by apply counted_read_buffers. Qed.

Lemma counted_locate {B} (f : StudentTable.StudentTable -> outcome (StudentTable.StudentTable * B))
    (Q : _ -> _ -> Prop) g :
  (forall t t' b, table_typed t -> f t = Ret (t', b) -> table_typed t') ->
  (forall b, Q g b) -> wcounted (on_table f) Q g.
Proof. intros Hf HQ. apply counted_table. intros t t' b Ht E. split; [by eapply Hf|done]. Qed.

Lemma counted_release k (Q : _ -> _ -> Prop) g :
  Q g tt -> wcounted (on_table (fun t => t' ← StudentTable.release_ t k; Ret (t', tt))) Q g.
Proof.
  intros HQ. apply counted_locate; [|by intros []]. intros t t' b Ht E.
  apply outcome_bind_Ret_inv in E as (t1 & E & [= <- _]). by eapply release_typed_table.
Qed.

Lemma counted_read_record i (Q : _ -> _ -> Prop) g :
  (forall r, StudentTuple.student_wf r -> Q g r) -> wcounted (read_record i) Q g.
Proof.
  intros HQ. apply counted_table. intros t t' b Ht E.
  destruct (StudentTable.search_slot t i) as [r|] eqn:Er; [|done]. injection E as <- <-.
  split; [done|]. by apply HQ, (slot_typed t Ht i).
Qed.

Lemma counted_send_record i (Q : _ -> _ -> Prop) g : Q g tt -> wcounted (send_record p j i) Q g.
Proof.
  intros HQ. unfold send_record. apply counted_bind, counted_read_record. intros r Hr.
  apply counted_bind, counted_buffers. intros T HT _.
  split_and!; [apply set_field_typed; [done|lia]|intros refs; apply store_wf|].
  apply counted_bind, counted_buffers. intros T2 HT2 _.
  pose proof (serialize_store_typed T2 (Channels.job_ref j) r (JobBuf.get_tuple_offset p) HT2 Hr) as Hs.
  destruct (StudentTuple.serialize_ _ _ _) as [b x].
  split_and!; [apply Hs; done|intros refs; apply store_wf|]. by counting.
Qed.

Lemma counted_wait {X} (w : StudentTable.StudentTable -> StudentTable.StudentTable * X)
    (Q : _ -> _ -> Prop) g :
  (forall t, table_typed t -> table_typed (w t).1) -> (forall x, Q g x) ->
  wcounted (on_table (fun t => Ret (w t))) Q g.
Proof.
  intros Hw HQ. apply counted_table. intros t t' b Ht [= E]. specialize (Hw t Ht).
  rewrite E in Hw. by split.
Qed.

Lemma counted_shared_retry fuel n id (Q : _ -> _ -> Prop) g :
  Q g tt -> wcounted (shared_retry fuel n id p j) Q g.
Proof.
  intros HQ. revert n. induction fuel as [|f IH]; intros n; [done|]. cbn [shared_retry].
  counting; try done. apply counted_wait; [intros t Ht; by apply wait_shared_typed|]. intros r.
  counting; [by apply IH|]. apply counted_read_record. intros rec _.
  counting; by apply counted_send_record.
Qed.

Lemma counted_exclusive_retry fuel n id (Q : _ -> _ -> Prop) g :
  Q g tt -> wcounted (exclusive_retry fuel n id p j) Q g.
Proof.
  intros HQ. revert n. induction fuel as [|f IH]; intros n; [done|]. cbn [exclusive_retry].
  counting; try done. apply counted_wait; [intros t Ht; by apply wait_exclusive_typed|]. intros r.
  counting; [by apply IH|]. apply counted_read_record. intros rec _.
  counting; [done|]. by apply counted_send_record.
Qed.

Lemma counted_promote_retry fuel n k (Q : _ -> _ -> Prop) g :
  (forall b, Q g b) -> wcounted (promote_retry fuel n k p j) Q g.
Proof.
  intros HQ. revert n. induction fuel as [|f IH]; intros n; [done|]. cbn [promote_retry].
  counting; try done. apply counted_locate; [|intros e].
  { intros t t' x Ht. by apply promote_typed. }
  counting; [apply IH|done].
Qed.
End Handlers.

(** The requests: [i] is the slot of the message, which the thread has a
    reference to. *)
Section Requests.
Implicit Types (g : list buf_ref).
Context (p : JobBuf.job_buf) (j : Channels.job) (i : nat) (Hj : Channels.job_ref j = Some i).

(** Parsing a record out of the message. *)
Lemma counted_parse (Q : _ -> _ -> Prop) g :
  Some i ∈ g -> (forall r x, StudentTuple.student_wf r -> Q g (r, x)) ->
  wcounted (read_buffers (fun T => StudentTuple.deserialize_ StudentTuple.student_default
    (buffer T (Channels.job_ref j)) (JobBuf.get_tuple_offset p))) Q g.
Proof.
  intros Hi HQ. apply counted_read_buffers. intros T HT Hw. rewrite Hj.
  destruct (StudentTuple.deserialize_ _ _ _) as [r x] eqn:E. apply HQ.
  eapply deserialize_typed; [apply StudentTuple.student_default_wf|by apply Hw| |exact E]. done.
Qed.

Context (g : list buf_ref) (Hg : Some i ∈ g).
Implicit Types (Q : list buf_ref -> unit -> Prop).

Lemma counted_enter_shrinking Q : Q g tt -> wcounted enter_shrinking Q g.
Proof. intros HQ. unfold enter_shrinking. by counting. Qed.

Lemma counted_process_add Q : Q g tt -> wcounted (process_add p j) Q g.
Proof.
  intros HQ. unfold process_add. apply counted_bind, counted_enter_shrinking.
  apply counted_bind, counted_field. intros tr. counting; try done.
  apply counted_parse; [done|]. intros r x Hr. counting; [done|].
  apply counted_buffers. intros T HT _.
  split_and!; [by apply object_store_typed|intros refs; apply store_wf|]. counting.
  apply counted_commit_send; [rewrite Hj; by right|by rewrite Hj|]. intros e. by counting.
Qed.

Lemma counted_process_update Q : Q g tt -> wcounted (process_update p j) Q g.
Proof.
  intros HQ. unfold process_update. apply counted_bind, counted_enter_shrinking.
  apply counted_bind, counted_field. intros tr. counting; try done.
  apply counted_field. intros kr. counting; try done.
  apply counted_parse; [done|]. intros r x Hr. counting; [done|].
  apply counted_buffers. intros T HT _.
  split_and!; [by apply object_store_typed|intros refs; apply store_wf|]. counting.
  apply counted_commit_send; [rewrite Hj; by right|by rewrite Hj|]. intros e. by counting.
Qed.

Lemma counted_process_rm Q : Q g tt -> wcounted (process_rm p j) Q g.
Proof.
  intros HQ. unfold process_rm. apply counted_bind, counted_enter_shrinking.
  apply counted_bind, counted_field. intros tr. counting; try done.
  apply counted_field. intros kr. counting; try done.
  apply counted_commit_send; [by left|by intros [?|?]|]. intros e. by counting.
Qed.

Lemma counted_process_shared_read Q : Q g tt -> wcounted (process_shared_read p j) Q g.
Proof.
  intros HQ. unfold process_shared_read. counting; try done.
  apply counted_field. intros tr. counting; try done. by apply counted_shared_retry.
Qed.

Lemma counted_process_exclusive_read Q : Q g tt -> wcounted (process_exclusive_read p j) Q g.
Proof.
  intros HQ. unfold process_exclusive_read. counting; try done.
  apply counted_field. intros tr. counting; try done. by apply counted_exclusive_retry.
Qed.

Lemma counted_process_yield Q : Q g tt -> wcounted (process_yield p j) Q g.
Proof.
  intros HQ. unfold process_yield. counting; try done.
  apply counted_field. intros tr. counting; try done.
  apply counted_field. intros kr. counting; try done.
  apply counted_release. by counting.
Qed.

Lemma counted_process_promote Q : Q g tt -> wcounted (process_promote p j) Q g.
Proof.
  intros HQ. unfold process_promote. counting; try done.
  apply counted_field. intros tr. counting; try done.
  apply counted_field. intros kr. counting; try done.
  apply counted_promote_retry. intros x. by counting.
Qed.
End Requests.

(** ** Committing and leaving *)

Section Leave.
Implicit Types (g : list buf_ref).

(** What is queued as a change is a record. *)
Lemma counted_commit_entry c (Q : _ -> _ -> Prop) g :
  (S (length g) < LOCALS)%nat -> Q g tt -> wcounted (commit_entry c) Q g.
Proof.
  intros Hlt HQ. unfold commit_entry. set (r := CommitQueue.commit_buffer_ c).
  destruct (CommitQueue.commit_op_ c); try exact HQ; destruct (disassemble_ _) as [tbl key].
  - apply counted_bind, counted_copy_expired; [lia|]. counting; [|done].
    apply counted_load; [left|]. intros t Ht. apply counted_table. intros t0 t' [] Ht0 E.
    apply outcome_bind_Ret_inv in E as ([t1 x] & E & [= <-]).
    split; [by eapply insert_typed|]. by counting.
  - apply counted_bind, counted_copy_expired; [lia|]. counting; [|done].
    apply counted_load; [left|]. intros t Ht. apply counted_table. intros t0 t' [] Ht0 E.
    apply outcome_bind_Ret_inv in E as ([t1 x] & E & [= <-]).
    split; [by eapply write_typed|]. by counting.
  - counting; [|done]. apply counted_table. intros t0 t' [] Ht0 E.
    apply outcome_bind_Ret_inv in E as ([t1 x] & E & [= <-]).
    split; [by eapply remove_typed|done].
Qed.

Lemma counted_commit_loop {mem : expiry} fuel (Q : _ -> _ -> Prop) g :
  (S (length g) < LOCALS)%nat -> Q g tt -> wcounted (commit_loop fuel) Q g.
Proof.
  intros Hlt HQ. induction fuel as [|f IH]; [done|]. cbn [commit_loop]. counting; [done|].
  apply counted_commit_get; [lia|]. intros c _.
  apply counted_bind, counted_unwrap. intros ? [= <-]. counting.
  apply counted_recall. intros c' _. apply counted_bind, counted_commit_entry; [done|].
  by counting.
Qed.

Lemma counted_clear_queue fuel (Q : _ -> _ -> Prop) g :
  (S (length g) < LOCALS)%nat -> Q g tt -> wcounted (clear_commit_queue fuel) Q g.
Proof.
  intros Hlt HQ. induction fuel as [|f IH]; [done|]. cbn [clear_commit_queue]. counting; [done|].
  apply counted_commit_get; [lia|]. intros c _.
  apply counted_bind, counted_unwrap. intros ? [= <-]. by counting.
Qed.

Lemma counted_release_loop fuel ll idx (Q : _ -> _ -> Prop) g :
  Q g tt -> wcounted (release_loop fuel ll idx) Q g.
Proof.
  intros HQ. revert idx. induction fuel as [|f IH]; intros idx; [done|]. cbn [release_loop].
  counting; [done|]. destruct (LockList.deref ll idx) as [lock|]; [|done].
  destruct (disassemble_ _) as [tbl key]. counting; [|apply IH].
  apply counted_release, IH.
Qed.

Lemma counted_quit (Q : _ -> _ -> Prop) g :
  (S (length g) < LOCALS)%nat -> Q g tt -> wcounted worker_quit Q g.
Proof.
  intros Hlt HQ. unfold worker_quit, release_all_locks. counting.
  apply counted_release_loop. counting. apply counted_clear_queue; [done|]. by counting.
Qed.
End Leave.

(** ** The main loop *)

Section Loop.
Implicit Types (g : list buf_ref).

Lemma counted_dispatch {mem : expiry} op p j i (Q : _ -> _ -> Prop) g :
  Channels.job_ref j = Some i -> Some i ∈ g -> (S (length g) < LOCALS)%nat ->
  (forall b, Q g b) -> wcounted (dispatch op p j) Q g.
Proof.
  intros Hj Hi Hlt HQ. destruct op; cbn [dispatch]; counting; try done.
  - apply counted_buffers. intros T HT _.
    split_and!; [apply set_field_typed; [done|lia]|intros refs; apply store_wf|]. by counting.
  - apply (counted_process_add p j i); [done..|]. by counting.
  - apply counted_process_shared_read. by counting.
  - apply counted_process_exclusive_read. by counting.
  - apply counted_process_yield. by counting.
  - apply counted_process_promote. by counting.
  - apply (counted_process_update p j i); [done..|]. by counting.
  - apply counted_process_rm. by counting.
  - unfold process_commit. counting.
    + apply counted_quit; [done|]. by counting.
    + apply counted_commit_loop; [done|]. counting. apply counted_quit; [done|]. by counting.
  - apply counted_quit; [done|]. by counting.
Qed.

Lemma counted_handle {mem : expiry} job (Q : _ -> _ -> Prop) g :
  (5 + length g < LOCALS)%nat -> (forall b, Q g b) ->
  wcounted (handle job) Q (Channels.job_ref job :: g).
Proof.
  intros Hlt HQ. unfold handle. cbn [Channels.job_ref Channels.job_make Channels.buf_ JobBuf.ref].
  apply counted_bind, counted_retain; [simpl; lia|right; left|]. cbv zeta beta.
  change (Channels.job_ref (Channels.job_make ?r _ _)) with r.
  apply counted_bind, counted_retain; [simpl; lia|right; left|].
  counting. destruct (Channels.job_ref job) as [i|] eqn:Hi; [|done].
  apply counted_field. intros op_r. counting; [done|].
  eapply counted_dispatch; [done|left|simpl; lia|]. intros b. by counting.
Qed.

Lemma counted_iteration {mem : expiry} (Q : _ -> _ -> Prop) g :
  (5 + length g < LOCALS)%nat -> (forall b, Q g b) -> wcounted iteration Q g.
Proof.
  intros Hlt HQ. unfold iteration. counting.
  - apply counted_quit; [lia|]. by counting.
  - apply counted_job_recv; [lia| |].
    + intros j. rewrite is_ok_Ok. cbn [negb].
      counting; match goal with H : value_ (Ok _) = Some _ |- _ => injection H as <- end.
      * apply counted_quit; [simpl; lia|]. by counting.
      * by apply counted_handle.
    + intros r Hr. rewrite Hr. cbn [negb]. by counting.
Qed.
End Loop.
