(* ===== verification/Every.v ===== *)
(** * Programs all of whose actions do a thing

    [every R p]: each action of [p] is a step of [R].  What follows of the
    actions of [Worker] holds of every [R] that allows an action to leave the
    queue, the phase and the records alone ([Lenient]); for the requests, of
    every [R] that also allows the phase to change and a change to be queued
    ([Gathering]). *)
From S2P Require Import Prelude Params Probe BufTable UniqueKey Ring Prog Worker References.
From S2P Require JobBuf StudentTuple StudentTable LockList CommitQueue Channels.

(** ** Records *)

(** A slot without its lock word. *)
Definition slot_record (e : StudentTable.Entry) : StudentTuple.StudentTuple * bool * bool :=
  (StudentTable.tuple_ e, StudentTable.is_used_ e, StudentTable.is_deleted_ e).

Definition same_records (t t' : StudentTable.StudentTable) : Prop :=
  slot_record <$> StudentTable.table_ t' = slot_record <$> StudentTable.table_ t /\
  StudentTable.next_key_ t' = StudentTable.next_key_ t.

#[export] Instance same_records_preorder : PreOrder same_records.
Proof.
  split; [by intros t|]. intros t1 t2 t3 [H1 N1] [H2 N2]. split; congruence.
Qed.

(** ** The functions of the table that change lock words only *)

Lemma same_alter t t' idx f :
  StudentTable.table_ t' = StudentTable.update_slot t idx f ->
  StudentTable.next_key_ t' = StudentTable.next_key_ t ->
  (forall e, slot_record (f e) = slot_record e) -> same_records t t'.
Proof.
  intros Ht Hn Hf. split; [|done]. rewrite Ht. unfold StudentTable.update_slot.
  apply list_eq. intros n. rewrite !list_lookup_fmap. destruct (decide (n = idx)) as [->|Hne].
  - rewrite list_lookup_alter_eq. destruct (StudentTable.table_ t !! idx); [|done]. csimpl. by rewrite Hf.
  - by rewrite list_lookup_alter_ne.
Qed.

Lemma same_wait_shared t : same_records t (StudentTable.wait_shared_ id id t).1.
Proof.
  unfold StudentTable.wait_shared_, wait_for, id. destruct (negb _); [|done]. destruct (0 <? _); [|done].
  destruct (StudentTable.grant_shared t) as [[t' x]|] eqn:E; [|done].
  unfold StudentTable.grant_shared in E. apply for_return_Some in E as (i & _ & E & _).
  destruct (_ !! i) as [e|]; [|done]. destruct (_ && _ && _); [|done]. injection E as <- _.
  by eapply same_alter.
Qed.

Lemma same_wait_exclusive t : same_records t (StudentTable.wait_exclusive_ id id t).1.
Proof.
  unfold StudentTable.wait_exclusive_, wait_for, id. destruct (negb _); [|done]. destruct (0 <? _); [|done].
  destruct (StudentTable.grant_exclusive t) as [[t' x]|] eqn:E; [|done].
  unfold StudentTable.grant_exclusive in E. apply for_return_Some in E as (i & _ & E & _).
  destruct (_ !! i) as [e|]; [|done]. destruct (_ && _ && _); [|done]. injection E as <- _.
  by eapply same_alter.
Qed.

Lemma same_promote t k t' x : StudentTable.promote_ id t k = Ret (t', x) -> same_records t t'.
Proof.
  unfold StudentTable.promote_, wait_for, id. intros (i & _ & E)%outcome_bind_Ret_inv. cbv iota beta in E.
  destruct (StudentTable.lock_at t i =? 1); injection E as <- _; [|done]. by eapply same_alter.
Qed.

Lemma same_release t k t' : StudentTable.release_ t k = Ret t' -> same_records t t'.
Proof.
  unfold StudentTable.release_. intros (i & _ & E)%outcome_bind_Ret_inv.
  destruct (_ =? -1); injection E as <-; by eapply same_alter.
Qed.

(** ** Programs all of whose actions do a thing *)

Fixpoint every {A} (R : shared -> Worker -> shared -> Worker -> Prop) (p : wprog A) : Prop :=
  match p with
  | Done _ => True
  | Act f k => (forall s w s' w' b, f s w = Ret (s', w', b) -> R s w s' w') /\ forall b, every R (k b)
  end.

(** Queue, phase and records stay. *)
Definition still (s : shared) (w : Worker) (s' : shared) (w' : Worker) : Prop :=
  commit_queue_ w' = commit_queue_ w /\ status_ w' = status_ w /\
  same_records (students_ (db_ s)) (students_ (db_ s')).

Class Lenient (R : shared -> Worker -> shared -> Worker -> Prop) : Prop :=
  lenient s w s' w' : still s w s' w' -> R s w s' w'.
#[export] Instance still_lenient : Lenient still.
Proof. by intros s w s' w'. Qed.

Create HintDb trail discriminated.
#[export] Hint Constants Opaque : trail.

Section Every.
Context {R : shared -> Worker -> shared -> Worker -> Prop}.

Lemma every_bind {A B} (p : wprog A) (h : A -> wprog B) :
  every R p -> (forall a, every R (h a)) -> every R (p ≫= h).
Proof.
  intros Hp Hh. change (every R (bind p h)). induction p as [a|D f k IH]; [apply Hh|].
  destruct Hp as [Hf Hk]. split; [exact Hf|]. intros d. by apply IH.
Qed.

Lemma every_act {B} (f : shared -> Worker -> outcome (shared * Worker * B)) :
  (forall s w s' w' b, f s w = Ret (s', w', b) -> R s w s' w') -> every R (act f).
Proof. done. Qed.

Context `{!Lenient R}.

(** An action on the worker's other data. *)
Lemma every_local {B} (f : shared -> Worker -> outcome (shared * Worker * B)) :
  (forall s w s' w' b, f s w = Ret (s', w', b) ->
     commit_queue_ w' = commit_queue_ w /\ status_ w' = status_ w /\ students_ (db_ s') = students_ (db_ s)) ->
  every R (act f).
Proof.
  intros Hf. apply every_act. intros s w s' w' b E. apply lenient. destruct (Hf _ _ _ _ _ E) as (H1 & H2 & H3).
  split_and!; [done..|]. by rewrite H3.
Qed.

Lemma every_table {B} (f : StudentTable.StudentTable -> outcome (StudentTable.StudentTable * B)) :
  (forall t t' b, f t = Ret (t', b) -> same_records t t') -> every R (on_table f).
Proof.
  intros Hf. apply every_act. intros s w s' w' b E. apply outcome_bind_Ret_inv in E as ([t x] & E & [= <- <- <-]).
  apply lenient. split_and!; [done..|]. by eapply Hf.
Qed.

Lemma every_buffers {B} (f : buf_table -> buf_table * B) : every R (on_buffers f).
Proof. apply every_local. intros s w s' w' b E. destruct (f _) as [T x]. by injection E as <- <- <-. Qed.
Lemma every_read {B} (f : buf_table -> B) : every R (read_buffers f).
Proof. apply every_buffers. Qed.
Lemma every_retain r : every R (retain r).
Proof. apply every_buffers. Qed.
Lemma every_drop r : every R (drop_ref r).
Proof. apply every_buffers. Qed.
Lemma every_locks {B} (f : LockList.lock_list -> outcome (LockList.lock_list * B)) : every R (on_locks f).
Proof.
  apply every_local. intros s w s' w' b E. by apply outcome_bind_Ret_inv in E as ([l x] & _ & [= <- <- <-]).
Qed.
Lemma every_unwrap {B E} (r : Result B E) : every R (unwrap_ r).
Proof.
  apply every_local. intros s w s' w' b E1. by apply outcome_bind_Ret_inv in E1 as (a & _ & [= <- <- <-]).
Qed.
Lemma every_get_status : every R get_status.
Proof. apply every_local. by intros s w s' w' b [= <- <- <-]. Qed.
Lemma every_get_timeout : every R get_timeout_cnt.
Proof. apply every_local. by intros s w s' w' b [= <- <- <-]. Qed.
Lemma every_put_timeout n : every R (put_timeout_cnt n).
Proof. apply every_local. by intros s w s' w' b [= <- <- <-]. Qed.
Lemma every_get_txn_id : every R get_txn_id.
Proof. apply every_local. by intros s w s' w' b [= <- <- <-]. Qed.
Lemma every_is_running : every R is_running.
Proof. apply every_local. by intros s w s' w' b [= <- <- <-]. Qed.
Lemma every_commit_empty : every R commit_empty.
Proof. apply every_local. by intros s w s' w' b [= <- <- <-]. Qed.
Lemma every_commit_get : every R commit_get.
Proof.
  apply every_local. intros s w s' w' b E. by apply outcome_bind_Ret_inv in E as ([T x] & _ & [= <- <- <-]).
Qed.
Lemma every_reply a p n j : every R (reply a p n j).
Proof. apply every_local. by intros s w s' w' b [= <- <- <-]. Qed.
Lemma every_deref r : every R (deref r).
Proof. apply every_local. intros s w s' w' b E. destruct r; [|done]. by injection E as <- <- <-. Qed.
Lemma every_job_recv : every R job_recv.
Proof.
  apply every_local. intros s w s' w' b E. unfold job_recv in E.
  destruct (Channels.recv _ _ _) as [[T c] r]. by injection E as <- <- <-.
Qed.
Lemma every_job_pop : every R job_pop.
Proof.
  apply every_local. intros s w s' w' b E. destruct (Channels.pop _ _) as [T c]. by injection E as <- <- <-.
Qed.
Lemma every_ret_send n : every R (ret_send n).
Proof.
  apply every_local. intros s w s' w' b E. destruct (Channels.ret_send _ _ _ _) as [[T c] x].
  by injection E as <- <- <-.
Qed.
Lemma every_read_record idx : every R (read_record idx).
Proof.
  apply every_table. intros t t' b E. destruct (StudentTable.search_slot t idx); [|done]. by injection E as <- _.
Qed.
Lemma every_diverge {A} : every R (diverge (A := A)).
Proof. by apply every_act. Qed.
End Every.

#[export] Hint Resolve every_read every_buffers every_retain every_drop every_locks every_unwrap every_get_status
  every_get_timeout every_put_timeout every_get_txn_id every_is_running every_commit_empty every_commit_get
  every_reply every_deref every_job_recv every_job_pop every_ret_send every_read_record every_diverge : trail.

#[export] Hint Extern 0 (Lenient _) => typeclasses eauto : trail.

(** [walk] goes through the binds and the branches of a program. *)
Ltac walk :=
  repeat (lazymatch goal with
    | |- every _ (_ ≫= _) => apply every_bind; [|intros ?]
    | |- every _ (Done _) => exact I
    | |- every _ (reject _ _ _) => unfold reject
    | |- every _ (match ?x with _ => _ end) => destruct x
    | |- every _ _ => solve [auto with trail]
    end).

(** ** The handlers *)

Section Handlers.
Context {R : shared -> Worker -> shared -> Worker -> Prop} `{!Lenient R}.

Lemma every_release k : every R (on_table (fun t => t' ← StudentTable.release_ t k; Ret (t', tt))).
Proof.
  apply every_table. intros t t' b E. apply outcome_bind_Ret_inv in E as (t1 & E & [= <- _]).
  by eapply same_release.
Qed.

Lemma every_release_loop fuel ll idx : every R (release_loop fuel ll idx).
Proof.
  revert idx. induction fuel as [|f IH]; intros idx; cbn [release_loop]; [auto with trail|].
  destruct (_ =? _)%nat; [done|]. destruct (LockList.deref ll idx) as [lock|]; [|by apply every_act].
  destruct (disassemble_ _) as [tbl key]. walk; first [apply every_release|apply IH].
Qed.

Lemma every_release_all : every R release_all_locks.
Proof. unfold release_all_locks. walk. apply every_release_loop. Qed.

Lemma every_send_record p j idx : every R (send_record p j idx).
Proof. unfold send_record. walk. Qed.
End Handlers.
#[export] Hint Resolve every_release every_release_all every_send_record : trail.

(** ** Requests *)

(** The phase may change, and a change may be queued: a deletion, or one with
    the buffer of the request. *)
Class Gathering (job : Channels.job) (R : shared -> Worker -> shared -> Worker -> Prop) : Prop := {
  gathering_lenient :: Lenient R;
  gathering_status st : every R (put_status st);
  every_send_change k o : every R (commit_send k o (Channels.job_ref job));
  gathering_delete k : every R (commit_send k DELETE None)
}.
#[export] Hint Resolve every_send_change : trail.
#[export] Hint Extern 0 (Gathering _ _) => typeclasses eauto : trail.

Section Requests.
Context {R : shared -> Worker -> shared -> Worker -> Prop} (p : JobBuf.job_buf) (j : Channels.job) `{!Gathering j R}.

Lemma every_put_status st : every R (put_status st).
Proof. by apply (gathering_status (job := j)). Qed.
Lemma every_send_delete k : every R (commit_send k DELETE None).
Proof. by apply (gathering_delete (job := j)). Qed.
#[local] Hint Resolve every_put_status every_send_delete : trail.

Lemma every_process_add : every R (process_add p j).
Proof. unfold process_add, enter_shrinking. walk. Qed.
Lemma every_process_update : every R (process_update p j).
Proof. unfold process_update, enter_shrinking. walk. Qed.
Lemma every_process_rm : every R (process_rm p j).
Proof. unfold process_rm, enter_shrinking. walk. Qed.

Lemma every_shared_retry fuel n id : every R (shared_retry fuel n id p j).
Proof.
  revert n. induction fuel as [|f IH]; intros n; cbn [shared_retry]; [auto with trail|].
  walk; try apply IH; apply every_table; intros t t' b [= E]; pose proof (same_wait_shared t) as H; by rewrite E in H.
Qed.
Lemma every_exclusive_retry fuel n id : every R (exclusive_retry fuel n id p j).
Proof.
  revert n. induction fuel as [|f IH]; intros n; cbn [exclusive_retry]; [auto with trail|].
  walk; try apply IH; apply every_table; intros t t' b [= E]; pose proof (same_wait_exclusive t) as H; by rewrite E in H.
Qed.
Lemma every_promote_retry fuel n k : every R (promote_retry fuel n k p j).
Proof.
  revert n. induction fuel as [|f IH]; intros n; cbn [promote_retry]; [auto with trail|].
  walk; try apply IH; apply every_table; intros t t' b; apply same_promote.
Qed.
#[local] Hint Resolve every_process_add every_process_update every_process_rm every_shared_retry
  every_exclusive_retry every_promote_retry : trail.

Lemma every_process_shared_read : every R (process_shared_read p j).
Proof. unfold process_shared_read. walk. Qed.
Lemma every_process_exclusive_read : every R (process_exclusive_read p j).
Proof. unfold process_exclusive_read. walk. Qed.
Lemma every_process_yield : every R (process_yield p j).
Proof. unfold process_yield. walk. Qed.
Lemma every_process_promote : every R (process_promote p j).
Proof. unfold process_promote. walk. Qed.
#[local] Hint Resolve every_process_shared_read every_process_exclusive_read every_process_yield
  every_process_promote : trail.

(** A commit and an abort end the worker. *)
Definition leaves (op : OpType) : bool :=
  match op with COMMIT_TXN | ABORT_TXN => true | _ => false end.

(** Every request but these. *)
Lemma every_dispatch {mem : expiry} op : leaves op = false -> every R (dispatch (mem := mem) op p j).
Proof.
  intros Hop. destruct op; try discriminate; cbn [dispatch]; walk.
Qed.
End Requests.

(** ** What is queued *)

(** Changes may be queued, and the phase may change. *)
Definition gathers (s : shared) (w : Worker) (s' : shared) (w' : Worker) : Prop :=
  same_records (students_ (db_ s)) (students_ (db_ s')) /\
  (queue_wf (commit_queue_ w) -> queue_wf (commit_queue_ w') /\
     contents (commit_queue_ w) `prefix_of` contents (commit_queue_ w')).

#[export] Instance gathers_lenient : Lenient gathers.
Proof. intros s w s' w' (Hq & _ & Ht). split; [done|]. by rewrite Hq. Qed.

#[export] Instance gathers_gathering j : Gathering j gathers.
Proof.
  assert (Hsend : forall k o r, every gathers (commit_send k o r)).
  { intros k o r. apply every_act. intros s w s' w' b E. unfold commit_send in E.
    destruct (CommitQueue.commit_make _ _ _ _) as [T1 c].
    destruct (CommitQueue.send T1 (commit_queue_ w) c) as [[T2 q] x] eqn:Es. injection E as <- <- <-.
    split; [done|]. intros Hwf. pose proof (send_spec T1 (commit_queue_ w) c Hwf) as Hs.
    simpl queue_send in Hs. rewrite Es in Hs. cbn [set_commit_queue commit_queue_]. destruct (_ <? _)%nat.
    - destruct Hs as (T' & q' & [= -> -> ->] & Hq & ->). split; [done|]. by apply prefix_app_r.
    - injection Hs as -> -> ->. by split. }
  split; [apply _| |auto..]. intros st. apply every_act. by intros s w s' w' b [= <- <- <-].
Qed.

(** The queue keeps to changes that come with their buffers. *)
Definition stocks (s : shared) (w : Worker) (s' : shared) (w' : Worker) : Prop :=
  stocked (commit_queue_ w) -> stocked (commit_queue_ w').

#[export] Instance stocks_lenient : Lenient stocks.
Proof. intros s w s' w' (Hq & _ & _). unfold stocks. by rewrite Hq. Qed.

Lemma stocks_commit_send k o r : (o = ADD_TUPLE \/ o = UPDATE -> r <> None) -> every stocks (commit_send k o r).
Proof.
  intros Hr. apply every_act. intros s w s' w' b E Hq. unfold commit_send in E.
  destruct (CommitQueue.commit_make _ _ _ _) as [T1 c] eqn:Em.
  assert (c = CommitQueue.mkCommit r k o) as ->.
  { unfold CommitQueue.commit_make in Em. destruct r; simpl in Em; congruence. }
  destruct (CommitQueue.send T1 (commit_queue_ w) _) as [[T2 q] x] eqn:Es. injection E as <- <- <-.
  unfold CommitQueue.send in Es. destruct (CommitQueue.full _); [by simplify_eq|].
  destruct (CommitQueue.commits_ (commit_queue_ w) !! _) as [c|]; [|by simplify_eq].
  unfold CommitQueue.commit_assign in Es. simpl in Es. injection Es as _ <- _. by apply Forall_insert.
Qed.

Lemma stocks_gathering j : Channels.job_ref j <> None -> Gathering j stocks.
Proof.
  intros Hj. split; [apply _| | |].
  - intros st. apply every_act. intros s w s' w' b [= <- <- <-] H. exact H.
  - intros k o. by apply stocks_commit_send.
  - intros k. by apply stocks_commit_send; intros [|].
Qed.

Lemma stocks_clear fuel : every stocks (clear_commit_queue fuel).
Proof.
  induction fuel as [|f IH]; cbn [clear_commit_queue]; [auto with trail|].
  walk. apply every_act. intros s w s' w' b [= <- <- <-] H. exact H.
Qed.
#[export] Hint Resolve stocks_clear : trail.

Lemma stocks_quit : every stocks worker_quit.
Proof. unfold worker_quit. walk. Qed.
#[export] Hint Resolve stocks_quit : trail.

(** The table stays as it is. *)
Definition same_table (s : shared) (w : Worker) (s' : shared) (w' : Worker) : Prop :=
  students_ (db_ s') = students_ (db_ s).

Lemma same_table_clear fuel : every same_table (clear_commit_queue fuel).
Proof.
  induction fuel as [|f IH]; cbn [clear_commit_queue]; [by apply every_act|].
  apply every_bind; [by apply every_act; intros s w s' w' b [= <- <- <-]|]. intros []; [done|].
  apply every_bind.
  { apply every_act. intros s w s' w' b E. by apply outcome_bind_Ret_inv in E as ([T x] & _ & [= <- <- <-]). }
  intros r. apply every_bind.
  { apply every_act. intros s w s' w' b E. by apply outcome_bind_Ret_inv in E as (a & _ & [= <- <- <-]). }
  intros c. apply every_bind; [by apply every_act; intros s w s' w' b [= <- <- <-]|]. intros _.
  apply every_bind; [by apply every_act; intros s w s' w' b [= <- <- <-]|]. by intros _.
Qed.

Lemma same_table_leave fuel :
  every same_table (clear_commit_queue fuel ≫= fun _ => id ← get_txn_id; ret_send id).
Proof.
  apply every_bind; [apply same_table_clear|]. intros _.
  apply every_bind; [by apply every_act; intros s w s' w' b [= <- <- <-]|]. intros n.
  apply every_act. intros s w s' w' b E. destruct (Channels.ret_send _ _ _ _) as [[T c] x].
  by injection E as <- <- <-.
Qed.

(** A run alone of a program all of whose actions are steps of [R]. *)
Lemma run_every {A} R (p : wprog A) n s w n' s' w' a :
  (forall s w, R s w s w) -> (forall s w s1 w1 s2 w2, R s w s1 w1 -> R s1 w1 s2 w2 -> R s w s2 w2) ->
  every R p -> run idle n p s w = Ret (n', s', w', a) -> R s w s' w'.
Proof.
  intros Hrefl Htrans. revert n s w. induction p as [b|B f k IH]; intros n s w Hp E; cbn in E.
  - injection E as <- <- <- _. apply Hrefl.
  - destruct Hp as [Hf Hk]. unfold idle at 1 in E. destruct (f s w) as [[[s1 w1] b]| |] eqn:Ef; [|done..].
    eapply Htrans; [by eapply Hf|by eapply IH].
Qed.
