(* ===== verification/Private.v ===== *)
(** * Who may write which buffer

    The logic of [Counted] with a ghost stage next to the local references:
    [tidy] says what holds of the state at a stage, [moves] what an action may
    do to it.  Its first instance is the worker: a buffer is in its channel
    until the request has been handled or in its commit queue, never in both
    between two turns, so that what is queued is not overwritten; and a buffer
    the queue refers to holds a record with key 0, because deserialization
    sets no key. *)
From S2P Require Import Prelude Params Probe BufTable UniqueKey Ring Prog Counted Typing Worker.
From S2P Require Import References.
From S2P Require Bytes JobBuf StudentTuple StudentTable LockList CommitQueue Channels.

(** ** The logic *)

Section Private.
Context {S L X : Type} (pool : S -> buf_table) (own : S -> L -> list buf_ref).
Context (shape : S -> L -> Prop) (change : S -> S -> Prop).
Context (tidy : S -> L -> list buf_ref -> X -> Prop).
Context (moves : S -> L -> list buf_ref -> X -> S -> L -> list buf_ref -> X -> Prop).

Abbreviation counts := (counts pool own).

Fixpoint private {A} (p : prog S L A) (Q : list buf_ref -> X -> A -> Prop) (g : list buf_ref) (x : X)
    : Prop :=
  match p with
  | Done a => Q g x a
  | Act f k =>
      forall s l, shape s l -> (length g <= LOCALS)%nat -> (exists R, fits R /\ counts s l g R) ->
      tidy s l g x ->
      match f s l with
      | Ret (s', l', b) => exists g' x', after pool own shape change s l g s' l' g' /\
          tidy s' l' g' x' /\ moves s l g x s' l' g' x' /\ private (k b) Q g' x'
      | _ => True
      end
  end.

Lemma private_bind {A B} (p : prog S L A) (h : A -> prog S L B) Q g x :
  private p (fun g x a => private (h a) Q g x) g x -> private (p ≫= h) Q g x.
Proof.
  revert g x. induction p as [a|D f k IH]; intros g x H; [done|].
  intros s l Hs Hg HR Ht. specialize (H s l Hs Hg HR Ht).
  destruct (f s l) as [[[s' l'] b]| |]; [|done|done].
  destruct H as (g' & x' & Ha & Hx & Hm & Hk). exists g', x'. split_and!; [done..|]. by apply IH.
Qed.

Lemma private_mono {A} (p : prog S L A) (Q Q' : list buf_ref -> X -> A -> Prop) g x :
  (forall g x a, Q g x a -> Q' g x a) -> private p Q g x -> private p Q' g x.
Proof.
  intros HQ. revert g x. induction p as [a|D f k IH]; intros g x H; simpl in *; [auto|].
  intros s l Hs Hg HR Ht. specialize (H s l Hs Hg HR Ht).
  destruct (f s l) as [[[s' l'] b]| |]; [|done|done].
  destruct H as (g' & x' & Ha & Hx & Hm & Hk). exists g', x'. split_and!; [done..|]. by apply IH.
Qed.

Lemma private_done {A} (a : A) (Q : list buf_ref -> X -> A -> Prop) g x : Q g x a -> private (Done a) Q g x.
Proof. done. Qed.

(** What [Counted] proves of an action, and what it does to the stage. *)
Lemma private_act {B} (f : S -> L -> outcome (S * L * B)) (P : list buf_ref -> B -> Prop)
    (Q : list buf_ref -> X -> B -> Prop) g x :
  counted pool own shape change (act f) P g ->
  (forall s l s' l' b g', shape s l -> (exists R, fits R /\ counts s l g R) -> tidy s l g x ->
     f s l = Ret (s', l', b) -> P g' b -> after pool own shape change s l g s' l' g' ->
     exists x', tidy s' l' g' x' /\ moves s l g x s' l' g' x' /\ Q g' x' b) ->
  private (act f) Q g x.
Proof.
  intros Hc Hx s l Hs Hg HR Ht. specialize (Hc s l Hs Hg HR). specialize (Hx s l).
  destruct (f s l) as [[[s' l'] b]| |]; [|done..]. destruct Hc as (g' & Ha & HP).
  destruct (Hx s' l' b g' Hs HR Ht eq_refl HP Ha) as (x' & H1 & H2 & H3).
  by exists g', x'.
Qed.
End Private.

(** ** The stages of a worker *)

(** Between turns; with a request in buffer [i] that is not queued; applying
    the queued change in [r]; with the record of a change in [i], to be
    queued; with [i] queued, but still in the channel. *)
Inductive stage :=
  | Idle
  | Reading (i : nat)
  | Applying (i : nat) (r : buf_ref)
  | Written (i : nat)
  | Kept (i : nat).

(** A record with key 0 lies at the start of buffer [b]. *)
Definition keyless (T : buf_table) (b : nat) : Prop :=
  StudentTuple.key_ (StudentTuple.of_object_bytes (buffer T (Some b))) = 0.

(** The buffer [i] is at the head of the channel if it is anywhere in it. *)
Definition only_head (ch : Channels.job_channel) (i : nat) : Prop :=
  forall n j, Channels.jobs_ ch !! n = Some j -> Channels.job_ref j = Some i -> n = Channels.head_ ch.

(** No buffer is in two slots. *)
Definition unshared (ch : Channels.job_channel) : Prop :=
  forall n1 n2 j1 j2 b, Channels.jobs_ ch !! n1 = Some j1 -> Channels.jobs_ ch !! n2 = Some j2 ->
    Channels.job_ref j1 = Some b -> Channels.job_ref j2 = Some b -> n1 = n2.

Definition current (x : stage) : option nat :=
  match x with Idle => None | Reading i | Applying i _ | Written i | Kept i => Some i end.

(** The buffers a worker may write at a stage. *)
Definition writable (x : stage) : option nat :=
  match x with Reading i | Applying i _ | Written i => Some i | _ => None end.

Record tidy (s : shared) (w : Worker) (g : list buf_ref) (x : stage) : Prop := {
  td_unshared : unshared (job_ch_ w);
  td_keyless : forall b, Some b ∈ commit_refs w -> keyless (pool_of s) b;
  td_apart : forall b, Some b ∈ slot_refs (job_ch_ w) -> Some b ∈ commit_refs w -> x = Kept b;
  td_writable : forall i, writable x = Some i -> (Some i ∉ commit_refs w) /\ (Some i ∈ g);
  td_head : forall i, current x = Some i -> only_head (job_ch_ w) i;
  td_applying : forall i b, x = Applying i (Some b) -> Some b ∈ commit_refs w;
  td_written : forall i, x = Written i -> keyless (pool_of s) i;
  td_kept : forall i, x = Kept i -> Some i ∈ commit_refs w
}.

(** A record stays in its slot unless its key is 0; if it is deleted, nothing
    else changes. *)
Definition records_kept (t t' : StudentTable.StudentTable) : Prop :=
  forall n e, StudentTable.table_ t !! n = Some e -> StudentTable.live_entry e = true ->
    StudentTable.entry_key e <> 0 ->
    exists e', StudentTable.table_ t' !! n = Some e' /\ StudentTable.tuple_ e' = StudentTable.tuple_ e /\
      StudentTable.is_used_ e' = true /\
      (StudentTable.is_deleted_ e' = true ->
         forall n', n' <> n -> StudentTable.table_ t' !! n' = StudentTable.table_ t !! n').

(** What an action of a worker may do: it acquires no buffer it had no
    reference to, writes only the buffer of its request, and takes jobs off
    its channel. *)
Record moves (s : shared) (w : Worker) (g : list buf_ref) (x : stage)
    (s' : shared) (w' : Worker) (g' : list buf_ref) (x' : stage) : Prop := {
  mv_refs : forall b, Some b ∈ (own_refs s' w' ++ g') -> Some b ∈ (own_refs s w ++ g);
  mv_bytes : forall b, writable x = Some b \/
    buffer (pool_of s') (Some b) = buffer (pool_of s) (Some b);
  mv_records : records_kept (students_ (db_ s)) (students_ (db_ s'))
}.

Abbreviation wprivate := (private pool_of own_refs worker_shape any_change tidy moves).

(** Besides, the worker may be known to keep certain local references
    throughout. *)
Class Keeping (keep : list buf_ref -> Prop) := keep_cons r g : keep g -> keep (r :: g).
#[export] Instance keeping_any : Keeping (fun _ => True).
Proof. done. Qed.
#[export] Instance keeping_ref r : Keeping (elem_of r).
Proof. intros r' g Hr. by right. Qed.

Abbreviation wkeeps keep :=
  (private pool_of own_refs worker_shape any_change (fun s w g x => tidy s w g x /\ keep g) moves).

Lemma private_weaken {A} keep (p : wprog A) Q g x : keep g -> wkeeps keep p Q g x -> wprivate p Q g x.
Proof.
  revert g x. induction p as [a|B f k IH]; intros g x Hg H; [done|].
  intros s w Hs Hl HR Ht. specialize (H s w Hs Hl HR (conj Ht Hg)).
  destruct (f s w) as [[[s' w'] b]| |]; [|done..].
  destruct H as (g' & x' & Ha & [Ht' Hg'] & Hm & Hk). exists g', x'. split_and!; [done..|]. by apply IH.
Qed.

Lemma keeps_act {B} keep (f : shared -> Worker -> outcome (shared * Worker * B)) (P : list buf_ref -> B -> Prop)
    (Q : list buf_ref -> stage -> B -> Prop) g x :
  wcounted (act f) P g -> (forall g' b, P g' b -> keep g -> keep g') ->
  (forall s w s' w' b g', worker_shape s w ->
     (exists R, fits R /\ counts pool_of own_refs s w g R) -> tidy s w g x ->
     f s w = Ret (s', w', b) -> P g' b -> after pool_of own_refs worker_shape any_change s w g s' w' g' ->
     exists x', tidy s' w' g' x' /\ moves s w g x s' w' g' x' /\ Q g' x' b) ->
  wkeeps keep (act f) Q g x.
Proof.
  intros Hc Hk Hx. eapply private_act; [exact Hc|]. intros s w s' w' b g' Hs HR [Ht Hg] E HP Ha.
  destruct (Hx s w s' w' b g' Hs HR Ht E HP Ha) as (x' & H1 & H2 & H3). exists x'.
  split; [|done]. split; [done|]. by eapply Hk.
Qed.

Lemma live_flags e :
  StudentTable.live_entry e = true -> StudentTable.is_used_ e = true /\ StudentTable.is_deleted_ e = false.
Proof.
  unfold StudentTable.live_entry, live. intros [? H]%andb_true_iff. split; [done|].
  by apply negb_true_iff in H.
Qed.

#[export] Instance records_kept_refl : Reflexive records_kept.
Proof. intros t n e Hn [Hu Hd]%live_flags _. exists e. by split_and!. Qed.

(** ** What the table functions do to the records *)

Section Records.
Implicit Types t : StudentTable.StudentTable.

(** Entries that change keep record and use. *)
Lemma kept_alter t t' idx f :
  StudentTable.table_ t' = StudentTable.update_slot t idx f ->
  (forall e, StudentTable.tuple_ (f e) = StudentTable.tuple_ e /\
     StudentTable.is_used_ (f e) = StudentTable.is_used_ e) -> records_kept t t'.
Proof.
  intros Ht Hf n e Hn [Hu Hd]%live_flags _. rewrite Ht. unfold StudentTable.update_slot.
  destruct (decide (n = idx)) as [->|Hne].
  - exists (f e). rewrite list_lookup_alter_eq, Hn. destruct (Hf e) as [H1 H2].
    split_and!; [done..|by rewrite H2|]. intros _ n' Hn'. by rewrite list_lookup_alter_ne.
  - exists e. rewrite list_lookup_alter_ne by done. split_and!; try done. congruence.
Qed.

Lemma kept_wait_shared t : records_kept t (StudentTable.wait_shared_ id id t).1.
Proof.
  unfold StudentTable.wait_shared_, wait_for, id. destruct (negb _); [|done]. destruct (0 <? _); [|done].
  destruct (StudentTable.grant_shared t) as [[t' x]|] eqn:E; [|done].
  unfold StudentTable.grant_shared in E. apply for_return_Some in E as (i & _ & E & _).
  destruct (_ !! i) as [e|]; [|done]. destruct (_ && _ && _); [|done]. injection E as <- _.
  by eapply kept_alter.
Qed.

Lemma kept_wait_exclusive t : records_kept t (StudentTable.wait_exclusive_ id id t).1.
Proof.
  unfold StudentTable.wait_exclusive_, wait_for, id. destruct (negb _); [|done]. destruct (0 <? _); [|done].
  destruct (StudentTable.grant_exclusive t) as [[t' x]|] eqn:E; [|done].
  unfold StudentTable.grant_exclusive in E. apply for_return_Some in E as (i & _ & E & _).
  destruct (_ !! i) as [e|]; [|done]. destruct (_ && _ && _); [|done]. injection E as <- _.
  by eapply kept_alter.
Qed.

Lemma kept_promote t k t' x : StudentTable.promote_ id t k = Ret (t', x) -> records_kept t t'.
Proof.
  unfold StudentTable.promote_, wait_for, id. intros (i & _ & E)%outcome_bind_Ret_inv. cbv iota beta in E.
  destruct (StudentTable.lock_at t i =? 1); injection E as <- _; [|done]. by eapply kept_alter.
Qed.

Lemma kept_release t k t' : StudentTable.release_ t k = Ret t' -> records_kept t t'.
Proof.
  unfold StudentTable.release_. intros (i & _ & E)%outcome_bind_Ret_inv.
  destruct (_ =? -1); injection E as <-; by eapply kept_alter.
Qed.

Lemma kept_remove t k t' x : StudentTable.remove_ t k = Ret (t', x) -> records_kept t t'.
Proof.
  unfold StudentTable.remove_. intros (i & _ & E)%outcome_bind_Ret_inv. injection E as <- _.
  by eapply kept_alter.
Qed.

(** A record is added where none lives. *)
Lemma kept_insert t u t' x : StudentTable.insert_ id t u = Ret (t', x) -> records_kept t t'.
Proof.
  unfold StudentTable.insert_, wait, id. intros E. destruct (StudentTable.full_ t) eqn:Hf; [done|].
  cbn [negb mbind outcome_bind] in E. destruct (while_true _ _ _ _) as [[t1 r]|] eqn:Hw; [|done].
  injection E as -> ->. apply while_true_Some in Hw as (j & _ & E & _);
    [|apply StudentTable.table_home_lt].
  set (idx := slot _ _ _) in E. destruct (StudentTable.table_ t !! idx) as [e|] eqn:He; [|done].
  destruct (negb _ || _) eqn:Hfree; [|done]. injection E as <- _.
  intros n e' Hn [Hu Hd]%live_flags _. simpl. exists e'.
  assert (Hne : idx <> n).
  { intros <-. rewrite He in Hn. injection Hn as <-. by rewrite Hu, Hd in Hfree. }
  rewrite list_lookup_insert_ne by done. split_and!; try done. congruence.
Qed.

(** An update overwrites the record that has the key it carries. *)
Lemma kept_write t u t' x :
  StudentTuple.key_ u = 0 -> StudentTable.write_ t u = Ret (t', x) -> records_kept t t'.
Proof.
  intros Hu. unfold StudentTable.write_. intros (i & Hl & E)%outcome_bind_Ret_inv. injection E as <- _.
  intros n e Hn [Hused Hd]%live_flags Hk. unfold StudentTable.set_table, StudentTable.update_slot. cbn [StudentTable.table_].
  assert (Hne : n <> i).
  { intros ->. unfold StudentTable.locate in Hl. destruct (while_true _ _ _ _) as [i'|] eqn:Hw; [|done].
    injection Hl as ->. apply while_true_Some in Hw as (j & _ & Hw & _);
      [|apply StudentTable.table_home_lt].
    destruct (_ !! _) as [e'|] eqn:He'; [|done]. destruct (_ && _) eqn:Hc; [|done]. injection Hw as Hw.
    rewrite Hw in He'. rewrite Hn in He'. injection He' as <-.
    apply andb_true_iff in Hc as [Hc%Z.eqb_eq _]. by rewrite Hu in Hc. }
  exists e. rewrite list_lookup_alter_ne by done. split_and!; try done. congruence.
Qed.
End Records.

(** ** Actions *)

Lemma keyless_bytes T T' b :
  buffer T' (Some b) = buffer T (Some b) -> keyless T b -> keyless T' b.
Proof. unfold keyless. by intros ->. Qed.

(** The same objects over the same bytes. *)
Lemma tidy_same s w g x s' w' :
  job_ch_ w' = job_ch_ w -> commit_queue_ w' = commit_queue_ w ->
  same_bytes (pool_of s) (pool_of s') -> tidy s w g x -> tidy s' w' g x.
Proof.
  intros Hj Hc Hb []. unfold commit_refs in *. split; unfold commit_refs; rewrite ?Hj, ?Hc; try done.
  - intros b Hbc. eapply keyless_bytes; [apply Hb|auto].
  - intros i Hi. eapply keyless_bytes; [apply Hb|auto].
Qed.

Lemma own_same s w s' w' :
  job_ch_ w' = job_ch_ w -> commit_queue_ w' = commit_queue_ w -> own_refs s' w' = own_refs s w.
Proof. intros Hj Hc. unfold own_refs, commit_refs. by rewrite Hj, Hc. Qed.

(** What others may do meanwhile: write other buffers, and put a job into the
    channel whose buffer the worker has no reference to. *)
Definition joined_by (refs : list buf_ref) (ch ch' : Channels.job_channel) : Prop :=
  ch' = ch \/ exists i n j, (Some i ∉ refs) /\ Channels.job_ref j = Some i /\
    Channels.jobs_ ch' = <[n := j]> (Channels.jobs_ ch) /\ Channels.head_ ch' = Channels.head_ ch.

(** A slot of the channel holds what it held, or the new job. *)
Lemma joined_slot i n j (l : list Channels.job) k jk b :
  Channels.job_ref j = Some i -> <[n := j]> l !! k = Some jk -> Channels.job_ref jk = Some b ->
  (k = n /\ b = i) \/ l !! k = Some jk.
Proof.
  intros Hj Hk Hb. apply list_lookup_insert_Some in Hk as [(-> & <- & _)|[_ Hk]]; [left|by right].
  split; [done|congruence].
Qed.

Lemma joined_unshared i n j ch ch' :
  Some i ∉ slot_refs ch -> Channels.job_ref j = Some i ->
  Channels.jobs_ ch' = <[n := j]> (Channels.jobs_ ch) -> unshared ch -> unshared ch'.
Proof.
  intros Hi Hj Hjs Hu n1 n2 j1 j2 b H1 H2 Hb1 Hb2. rewrite Hjs in H1, H2.
  assert (Hno : forall k jk, Channels.jobs_ ch !! k = Some jk -> Channels.job_ref jk = Some b -> b <> i).
  { intros k jk Hk Hb ->. apply Hi, list_elem_of_fmap. exists jk. split; [done|]. by eapply list_elem_of_lookup_2. }
  destruct (joined_slot _ _ _ _ _ _ _ Hj H1 Hb1) as [[-> ->]|H1'],
    (joined_slot _ _ _ _ _ _ _ Hj H2 Hb2) as [[-> Hb]|H2']; try done.
  - by destruct (Hno _ _ H2' Hb2).
  - subst b. by destruct (Hno _ _ H1' Hb1).
  - by eapply (Hu n1 n2).
Qed.

Lemma tidy_stable s w g x s' w' :
  tidy s w g x -> commit_queue_ w' = commit_queue_ w -> joined_by (own_refs s w ++ g) (job_ch_ w) (job_ch_ w') ->
  (forall b, Some b ∈ own_refs s w ++ g -> buffer (pool_of s') (Some b) = buffer (pool_of s) (Some b)) ->
  tidy s' w' g x.
Proof.
  intros Ht Hc Hch Hb.
  assert (Hcr : commit_refs w' = commit_refs w) by (unfold commit_refs; by rewrite Hc).
  assert (Hown : forall b, Some b ∈ commit_refs w -> Some b ∈ own_refs s w ++ g).
  { intros b Hbc. unfold own_refs. apply elem_of_app. left. apply elem_of_app. by right. }
  assert (Hcur : forall k, current x = Some k -> Some k ∈ own_refs s w ++ g).
  { intros k Hk. destruct Ht. destruct (writable x) as [k'|] eqn:Hw.
    - assert (k' = k) as -> by (destruct x; simpl in *; congruence). apply elem_of_app. right.
      by apply td_writable0.
    - destruct x; try done. injection Hk as ->. by apply Hown, td_kept0. }
  destruct Ht. split; rewrite ?Hcr; try done.
  - destruct Hch as [->|(i & n & j & Hi & Hj & Hjs & _)]; [done|].
    eapply joined_unshared; [|done..]. intros Hin. apply Hi. unfold own_refs. apply elem_of_app. left.
    apply elem_of_app. by left.
  - intros b Hbc. eapply keyless_bytes; [by apply Hb, Hown|auto].
  - intros b Hbs Hbc. destruct Hch as [Hch|(i & n & j & Hi & Hj & Hjs & _)];
      [rewrite Hch in Hbs; by apply td_apart0|].
    apply list_elem_of_fmap in Hbs as (jk & Hr & Hin). rewrite Hjs in Hin.
    apply list_elem_of_lookup in Hin as [k Hk]. symmetry in Hr.
    destruct (joined_slot _ _ _ _ _ _ _ Hj Hk Hr) as [[-> ->]|Hk']; [by destruct Hi; apply Hown|].
    apply td_apart0; [|done]. apply list_elem_of_fmap. exists jk. split; [done|]. by eapply list_elem_of_lookup_2.
  - intros k Hk n jk Hn Hr. destruct Hch as [Hch|(i & n' & j & Hi & Hj & Hjs & Hh)];
      [rewrite Hch in *; by apply (td_head0 k Hk n jk)|].
    rewrite Hh. rewrite Hjs in Hn.
    destruct (joined_slot _ _ _ _ _ _ _ Hj Hn Hr) as [[-> ->]|Hn']; [by destruct Hi; apply Hcur|].
    by apply (td_head0 k Hk n jk).
  - intros i ->. eapply keyless_bytes; [by apply Hb, Hcur|auto].
Qed.

Section Rules.
Context {keep : list buf_ref -> Prop} {Hkeep : Keeping keep}.
Context {B : Type}.
Implicit Types (Q : list buf_ref -> stage -> B -> Prop) (g : list buf_ref) (x : stage).

(** An action that leaves the objects and the bytes alone. *)
Lemma private_keep (f : shared -> Worker -> outcome (shared * Worker * B)) Q g x :
  wcounted (act f) (fun g' b => g' = g /\ Q g x b) g ->
  (forall s w s' w' b, f s w = Ret (s', w', b) ->
     job_ch_ w' = job_ch_ w /\ commit_queue_ w' = commit_queue_ w /\
     same_bytes (pool_of s) (pool_of s') /\ records_kept (students_ (db_ s)) (students_ (db_ s'))) ->
  wkeeps keep (act f) Q g x.
Proof.
  intros Hc Hf. eapply keeps_act; [exact Hc|by intros ? ? [-> _]|]. intros s w s' w' b g' _ _ Ht E [-> HQ] _.
  destruct (Hf _ _ _ _ _ E) as (H1 & H2 & H3 & H4). exists x.
  split; [by eapply tidy_same|]. split; [|done]. split; [|by right; apply H3|done].
  by rewrite (own_same s w s' w').
Qed.

(** On the worker alone. *)
Lemma private_local (f : Worker -> outcome (Worker * B)) h Q g x :
  (forall s w, h s w = ('(w', b) ← f w; Ret (s, w', b))) ->
  (forall w w' b, f w = Ret (w', b) -> job_ch_ w' = job_ch_ w /\ commit_queue_ w' = commit_queue_ w) ->
  (forall b, Q g x b) -> wkeeps keep (act h) Q g x.
Proof.
  intros Hh Hf HQ. apply private_keep.
  - eapply counted_local; [exact Hh|exact Hf|]. by intros b.
  - intros s w s' w' b E. rewrite Hh in E. apply outcome_bind_Ret_inv in E as ([w1 b1] & E & [= <- <- <-]).
    destruct (Hf _ _ _ E). by split_and!.
Qed.

Lemma private_unwrap {E} (r : Result B E) Q g x :
  (forall a, value_ r = Some a -> Q g x a) -> wkeeps keep (unwrap_ r) Q g x.
Proof.
  intros HQ. apply private_keep.
  - apply counted_unwrap. intros a Ha. split; [done|by apply HQ].
  - intros s w s' w' b E1. apply outcome_bind_Ret_inv in E1 as (a & _ & [= <- <- <-]). by split_and!.
Qed.

Lemma private_table (f : StudentTable.StudentTable -> outcome (StudentTable.StudentTable * B)) Q g x :
  (forall t t' b, table_typed t -> f t = Ret (t', b) -> table_typed t' /\ Q g x b) ->
  (forall t t' b, f t = Ret (t', b) -> records_kept t t') ->
  wkeeps keep (on_table f) Q g x.
Proof.
  intros Hf Hk. apply private_keep.
  - apply counted_table. intros t t' b Ht E. destruct (Hf _ _ _ Ht E). by split_and!.
  - intros s w s' w' b E. apply outcome_bind_Ret_inv in E as ([t b1] & E & [= <- <- <-]).
    split_and!; [done..|]. by eapply Hk.
Qed.

Lemma private_on_locks (f : LockList.lock_list -> outcome (LockList.lock_list * B)) Q g x :
  (forall b, Q g x b) -> wkeeps keep (on_locks f) Q g x.
Proof.
  intros HQ. apply private_keep; [by apply counted_on_locks|].
  intros s w s' w' b E. apply outcome_bind_Ret_inv in E as ([l b1] & _ & [= <- <- <-]). by split_and!.
Qed.

(** What is read may depend on the bytes of the queued buffers. *)
Lemma private_read (f : buf_table -> B) Q g x :
  (forall s w, worker_shape s w -> (forall i, Some i ∈ g -> whole (buffer (pool_of s) (Some i))) ->
     tidy s w g x -> Q g x (f (pool_of s))) ->
  wkeeps keep (read_buffers f) Q g x.
Proof.
  intros HQ. eapply keeps_act.
  - apply (counted_read_buffers f (fun g' b => g' = g)). by intros.
  - by intros ? ? ->.
  - intros s w s' w' b g' Hs HR Ht E -> _.
    unfold read_buffers, on_buffers in E. injection E as <- <- <-. exists x.
    split; [apply (tidy_same s w); done|]. split; [split; [done|by right|done]|].
    apply (HQ s w); [done| |done]. intros i Hi. by eapply local_whole; [apply Hs|..].
Qed.

(** Writing the buffer of the request. *)
Lemma private_write (f : buf_table -> buf_table * B) i y Q g x :
  writable x = Some i -> (y = Reading i \/ y = Written i) ->
  (forall T, pool_typed T -> (forall i, Some i ∈ g -> whole (buffer T (Some i))) ->
     pool_typed (f T).1 /\ (forall refs, pool_wf T refs -> pool_wf (f T).1 refs) /\
     (forall b, b <> i -> buffer (f T).1 (Some b) = buffer T (Some b)) /\
     (y = Written i -> keyless (f T).1 i) /\ Q g y (f T).2) ->
  wkeeps keep (on_buffers f) Q g x.
Proof.
  intros Hx Hy Hf. eapply keeps_act.
  - apply (counted_buffers f (fun g' b => g' = g)). intros T HT Hw.
    destruct (Hf T HT Hw) as (H1 & H2 & _). by split_and!.
  - by intros ? ? ->.
  - intros s w s' w' b g' Hs HR Ht E -> _. exists y.
    destruct (Hf (pool_of s)) as (_ & _ & H3 & H4 & H5); [apply (ws_typed _ _ Hs)| |].
    { intros k Hk. by eapply local_whole; [apply Hs|..]. }
    unfold pool_of in *. destruct (f (buffers_ (db_ s))) as [T b1] eqn:Ef. injection E as <- <- <-.
    cbn [fst snd] in *. destruct Ht. destruct (td_writable0 i Hx) as [Hic Hig].
    assert (Hcur : current x = Some i) by by destruct x.
    split; [|split; [|done]].
    + split; cbn [pool_of set_buffers db_ buffers_].
      * done.
      * intros k Hk. unfold pool_of. cbn [set_buffers db_ buffers_].
        eapply keyless_bytes; [apply H3; intros ->; done|auto].
      * intros k Hk1 Hk2. specialize (td_apart0 k Hk1 Hk2). by rewrite td_apart0 in Hx.
      * intros k Hk. by destruct Hy; subst y; injection Hk as <-.
      * intros k Hk. destruct Hy; subst y; injection Hk as <-; auto.
      * by intros k r ->; destruct Hy.
      * intros k ->. destruct Hy as [|[= <-]]; [done|]. by apply H4.
      * by intros k ->; destruct Hy.
    + split; [done| |done]. intros k. destruct (decide (k = i)) as [->|Hk]; [by left|right].
      unfold pool_of. cbn [set_buffers db_ buffers_]. by apply H3.
Qed.
End Rules.

Section WorkerRules.
Context {keep : list buf_ref -> Prop} {Hkeep : Keeping keep}.
Implicit Types (g : list buf_ref) (x : stage).

Lemma private_get_status (Q : _ -> _ -> _ -> Prop) g x : (forall st, Q g x st) -> wkeeps keep get_status Q g x.
Proof. apply (private_local (fun w => Ret (w, status_ w))); [done|]. by intros w w' b [= <- _]. Qed.
Lemma private_put_status st (Q : _ -> _ -> _ -> Prop) g x : Q g x tt -> wkeeps keep (put_status st) Q g x.
Proof.
  intros HQ. apply (private_local (fun w => Ret (set_status w st, tt))); [done| |by intros []].
  by intros w w' b [= <- _].
Qed.
Lemma private_get_timeout_cnt (Q : _ -> _ -> _ -> Prop) g x : (forall n, Q g x n) -> wkeeps keep get_timeout_cnt Q g x.
Proof. apply (private_local (fun w => Ret (w, timeout_cnt_ w))); [done|]. by intros w w' b [= <- _]. Qed.
Lemma private_put_timeout_cnt n (Q : _ -> _ -> _ -> Prop) g x : Q g x tt -> wkeeps keep (put_timeout_cnt n) Q g x.
Proof.
  intros HQ. apply (private_local (fun w => Ret (set_timeout_cnt w n, tt))); [done| |by intros []].
  by intros w w' b [= <- _].
Qed.
Lemma private_get_txn_id (Q : _ -> _ -> _ -> Prop) g x : (forall n, Q g x n) -> wkeeps keep get_txn_id Q g x.
Proof. apply (private_local (fun w => Ret (w, txn_id_ w))); [done|]. by intros w w' b [= <- _]. Qed.
Lemma private_is_running (Q : _ -> _ -> _ -> Prop) g x : (forall b, Q g x b) -> wkeeps keep is_running Q g x.
Proof. apply (private_local (fun w => Ret (w, running_ w))); [done|]. by intros w w' b [= <- _]. Qed.
Lemma private_commit_empty (Q : _ -> _ -> _ -> Prop) g x : (forall b, Q g x b) -> wkeeps keep commit_empty Q g x.
Proof.
  apply (private_local (fun w => Ret (w, CommitQueue.empty (commit_queue_ w)))); [done|].
  by intros w w' b [= <- _].
Qed.

Lemma private_deref r (Q : _ -> _ -> _ -> Prop) g x : (r <> None -> Q g x tt) -> wkeeps keep (deref r) Q g x.
Proof.
  intros HQ. apply private_keep.
  - apply counted_deref. intros Hr. split; [done|by apply HQ].
  - intros s w s' w' b E. destruct r; [|done]. injection E as <- <- <-. by split_and!.
Qed.

Lemma private_ret_send n (Q : _ -> _ -> _ -> Prop) g x : Q g x tt -> wkeeps keep (ret_send n) Q g x.
Proof.
  intros HQ. apply private_keep; [by apply counted_ret_send|].
  intros s w s' w' b E. unfold Channels.ret_send, Channels.id_assign in E.
  destruct (Channels.rets_ (ret_ch_ s) !! _); injection E as <- <- <-; by split_and!.
Qed.

Lemma private_reply a p n j i (Q : _ -> _ -> _ -> Prop) g x :
  JobBuf.ref p = Some i -> writable x = Some i -> Q g (Reading i) tt ->
  wkeeps keep (reply a p n j) Q g x.
Proof.
  intros Hp Hx HQ. eapply keeps_act.
  - apply (counted_reply a p n j (fun g' b => g' = g)). done.
  - by intros ? ? ->.
  - intros s w s' w' b g' Hs HR Ht [= <- <- <-] -> _. exists (Reading i). destruct Ht.
    destruct (td_writable0 i Hx) as [Hic Hig].
    assert (Hcur : current x = Some i) by by destruct x.
    assert (Hb : forall k, k <> i -> buffer (JobBuf.set_ack (buffers_ (db_ s)) p a) (Some k) =
      buffer (buffers_ (db_ s)) (Some k)).
    { intros k Hk. unfold JobBuf.set_ack, JobBuf.set_field. rewrite Hp.
      apply JobBuf.buffer_store_ne. congruence. }
    split; [split|split; [split|done]]; cbn [job_ch_ commit_refs commit_queue_ add_sent]; try done.
    + intros k Hk. eapply keyless_bytes; [apply Hb; intros ->; done|by apply td_keyless0].
    + intros k Hk1 Hk2. specialize (td_apart0 k Hk1 Hk2). by rewrite td_apart0 in Hx.
    + by intros k [= <-].
    + intros k [= <-]. by apply td_head0.
    + intros k. destruct (decide (k = i)) as [->|Hk]; [by left|right]. by apply Hb.
Qed.

Lemma private_retain r (Q : _ -> _ -> _ -> Prop) g x :
  (length g < LOCALS)%nat -> r = None \/ r ∈ g -> Q (r :: g) x r -> wkeeps keep (retain r) Q g x.
Proof.
  intros Hlt Hr HQ. eapply keeps_act.
  - apply (counted_retain r (fun g' b => g' = r :: g /\ b = r)); [done..|].  done.
  - intros ? ? [-> _]. apply keep_cons.
  - intros s w s' w' b g' Hs HR Ht E [-> ->] _. exists x.
    assert (E2 : ref_copy (buffers_ (db_ s)) r = ((ref_copy (pool_of s) r).1, r)) by by destruct r.
    unfold retain, on_buffers in E. rewrite E2 in E. injection E as <- <-.
    split; [|split; [split|done]].
    + destruct Ht. split; cbn; try done.
      * intros k Hk. eapply keyless_bytes; [apply ref_copy_bytes|by apply td_keyless0].
      * intros k Hk. destruct (td_writable0 k Hk). split; [done|by right].
      * intros k Hk. eapply keyless_bytes; [apply ref_copy_bytes|by apply td_written0].
    + intros k. rewrite !elem_of_app. intros [?|[Hk|?]%elem_of_cons]; [by left| |by right].
      right. by destruct Hr as [->|Hr]; [|rewrite Hk].
    + intros k. right. apply ref_copy_bytes.
    + done.
Qed.

(** At the end of a turn, or of the use of a queued change. *)
Definition ready (x : stage) : Prop := match x with Idle | Reading _ => True | _ => False end.

Lemma private_drop r (Q : _ -> _ -> _ -> Prop) g x :
  ready x -> keep g -> Q g Idle tt -> wkeeps keep (drop_ref r) Q (r :: g) x.
Proof.
  intros Hx Hkg HQ. eapply keeps_act.
  - apply (counted_drop r (fun g' b => g' = g)). done.
  - by intros ? ? ->.
  - intros s w s' w' b g' Hs HR Ht [= <- <- <-] -> _. exists Idle.
    split; [|split; [split|done]].
    + destruct Ht. split; cbn; try done.
      * intros k Hk. eapply keyless_bytes; [apply ref_destroy_bytes|by apply td_keyless0].
      * intros k Hk1 Hk2. specialize (td_apart0 k Hk1 Hk2). by rewrite td_apart0 in Hx.
    + intros k. rewrite !elem_of_app. intros [?|?]; [by left|right]. by right.
    + intros k. right. apply ref_destroy_bytes.
    + done.
Qed.

(** The buffer of the request has more references than the one dropped. *)
Lemma private_drop_other r i (Q : _ -> _ -> _ -> Prop) g x :
  x = Reading i \/ x = Applying i r -> Some i ∈ g -> keep g -> Q g (Reading i) tt ->
  wkeeps keep (drop_ref r) Q (r :: g) x.
Proof.
  intros Hx Hi Hkg HQ. assert (Hw : writable x = Some i) by by destruct Hx as [-> | ->].
  assert (Hcur : current x = Some i) by by destruct Hx as [-> | ->].
  eapply keeps_act.
  - apply (counted_drop r (fun g' b => g' = g)). done.
  - by intros ? ? ->.
  - intros s w s' w' b g' Hs HR Ht [= <- <- <-] -> _. exists (Reading i).
    split; [|split; [split|done]].
    + destruct Ht. split; cbn; try done.
      * intros k Hk. eapply keyless_bytes; [apply ref_destroy_bytes|by apply td_keyless0].
      * intros k Hk1 Hk2. specialize (td_apart0 k Hk1 Hk2). by rewrite td_apart0 in Hw.
      * intros k [= <-]. split; [by apply td_writable0|done].
      * intros k [= <-]. by apply td_head0.
    + intros k. rewrite !elem_of_app. intros [?|?]; [by left|right]. by right.
    + intros k. right. apply ref_destroy_bytes.
    + done.
Qed.
End WorkerRules.

(** ** Actions that move references *)

Section Moves.
Context {keep : list buf_ref -> Prop} {Hkeep : Keeping keep}.
Implicit Types (g : list buf_ref) (x : stage).

Definition arrived (r : buf_ref) : stage := match r with Some i => Reading i | None => Idle end.

Lemma front_copy_cases T ch T' r :
  Channels.front_copy T ch = (T', r) ->
  (T' = T /\ is_ok r = false) \/
  exists j, Channels.jobs_ ch !! Channels.head_ ch = Some j /\ r = Ok j /\
    T' = (ref_copy T (Channels.job_ref j)).1.
Proof.
  unfold Channels.front_copy. destruct (_ !! _) as [j|]; [|intros [= <- <-]; by left].
  unfold Channels.job_copy.
  assert (E : ref_copy T (Channels.job_ref j) = ((ref_copy T (Channels.job_ref j)).1, Channels.job_ref j))
    by by destruct (Channels.job_ref j).
  rewrite E. intros [= <- <-]. right. exists j. split_and!; [done| |done]. by destruct j as [[] ?].
Qed.

(** What [recv] finds in the channel. *)
Lemma recv_cases T ch T' ch' r :
  sized ch -> Channels.recv id T ch = (T', ch', r) ->
  ch' = ch /\
  ((is_ok r = false /\ Channels.empty ch = true /\ T' = T) \/
   (Channels.empty ch = false /\ exists j, Channels.jobs_ ch !! Channels.head_ ch = Some j /\ r = Ok j /\
      T' = (ref_copy T (Channels.job_ref j)).1)).
Proof.
  intros Hs. unfold Channels.recv, wait_for, id. cbn [snd].
  destruct (lookup_lt_is_Some_2 (Channels.jobs_ ch) (Channels.head_ ch)) as [j Hj];
    [rewrite (sz_jobs _ Hs); apply (sz_head _ Hs)|].
  destruct (Channels.empty ch) eqn:He; cbn [negb].
  - intros [= <- <- <-]. split; [done|by left].
  - destruct (Channels.front_copy T ch) as [T1 r1] eqn:Ef. intros [= <- <- <-]. split; [done|right].
    split; [done|]. destruct (front_copy_cases _ _ _ _ Ef) as [[-> Hr]|(j' & Hj' & -> & ->)]; [|by exists j'].
    exfalso. revert Ef Hr. unfold Channels.front_copy. rewrite Hj. destruct (Channels.job_copy T j).
    by intros [= _ <-].
Qed.

Lemma recv_bytes T ch T' ch' r : Channels.recv id T ch = (T', ch', r) -> same_bytes T T'.
Proof.
  unfold Channels.recv, wait_for, id. cbn [snd]. destruct (negb _); [|by intros [= <- _ _]].
  destruct (Channels.front_copy T ch) as [T1 r1] eqn:Ef. intros [= <- _ _].
  destruct (front_copy_cases _ _ _ _ Ef) as [[-> _]|(j & _ & _ & ->)]; [reflexivity|apply ref_copy_bytes].
Qed.

Lemma private_job_recv (Q : _ -> _ -> _ -> Prop) :
  (forall j, Q [Channels.job_ref j] (arrived (Channels.job_ref j)) (Ok j)) ->
  (forall r, is_ok r = false -> Q [] Idle r) -> wkeeps keep job_recv Q [] Idle.
Proof.
  intros HQ HE. eapply keeps_act.
  - apply (counted_job_recv (fun g' b =>
      (exists j, g' = [Channels.job_ref j] /\ b = Ok j) \/ g' = [] /\ is_ok b = false)).
    + unfold LOCALS. simpl. lia.
    + intros j. left. by exists j.
    + intros r Hr. by right.
  - intros ? ? [(j & -> & _)|[-> _]]; [apply keep_cons|done].
  - intros s w s' w' b g' Hs HR Ht E Hcase _. unfold job_recv in E.
    destruct (Channels.recv id _ _) as [[T q] r] eqn:Er. injection E as <- <- <-.
    destruct (recv_cases _ _ _ _ _ (ws_jobs _ _ Hs) Er) as (-> & Hq).
    assert (Hsame : set_job_ch w (job_ch_ w) = w) by by destruct w.
    rewrite Hsame. destruct Hq as [(Hr & _ & ->)|(_ & j & Hj & -> & ->)].
    + destruct Hcase as [(j & -> & ->)|[-> _]]; [done|]. exists Idle.
      split; [by apply (tidy_same s w)|]. split; [split; [done|by right|done]|by apply HE].
    + destruct Hcase as [(j' & -> & [= <-])|[_ Hr]]; [|done].
      exists (arrived (Channels.job_ref j)). destruct Ht. split; [|split; [split|done]].
      * assert (Hin : Channels.job_ref j ∈ slot_refs (job_ch_ w)).
        { apply list_elem_of_fmap. exists j. split; [done|]. by eapply list_elem_of_lookup_2. }
        split; cbn; try done.
        -- intros k Hk. eapply keyless_bytes; [apply ref_copy_bytes|by apply td_keyless0].
        -- intros k Hk1 Hk2. by specialize (td_apart0 k Hk1 Hk2).
        -- intros k Hk. destruct (Channels.job_ref j) as [i|] eqn:Ei; [|done]. injection Hk as <-.
           split; [|left]. intros Hc. by specialize (td_apart0 i Hin Hc).
        -- intros k Hk n j' Hn Hr. destruct (Channels.job_ref j) as [i|] eqn:Ei; [|done]. injection Hk as <-.
           by apply (td_unshared0 n (Channels.head_ (job_ch_ w)) j' j i).
        -- intros k r Hk. by destruct (Channels.job_ref j).
        -- intros k Hk. by destruct (Channels.job_ref j).
        -- intros k Hk. by destruct (Channels.job_ref j).
      * intros k. rewrite !elem_of_app. intros [?|Hk%list_elem_of_singleton]; [by left|].
        left. unfold own_refs. apply elem_of_app. left. rewrite Hk.
        apply list_elem_of_fmap. exists j. split; [done|]. by eapply list_elem_of_lookup_2.
      * intros k. right. apply ref_copy_bytes.
      * done.
Qed.

(** A job leaves the channel; a buffer that is queued is in the queue only. *)
Definition popped (x : stage) : stage := match x with Kept _ => Idle | _ => x end.

Lemma popped_refs T ch b :
  Some b ∈ slot_refs (Channels.pop T ch).2 -> Some b ∈ slot_refs ch /\
    (only_head ch b -> (Channels.head_ ch < length (Channels.jobs_ ch))%nat -> False).
Proof.
  unfold Channels.pop. destruct (Channels.jobs_ ch !! Channels.head_ ch) as [j|] eqn:Hj.
  2: { intros H. split; [done|]. intros _ Hl. apply lookup_ge_None in Hj. lia. }
  unfold Channels.job_destroy.
  destruct (ref_destroy T (Channels.job_ref j)) as [T' r] eqn:Er.
  assert (r = None) as -> by (unfold ref_destroy in Er; destruct (Channels.job_ref j); congruence).
  cbn [snd]. intros Hb. apply list_elem_of_fmap in Hb as (j' & Hr & Hb). cbn [Channels.jobs_] in Hb.
  apply list_elem_of_lookup in Hb as [n Hn].
  destruct (decide (n = Channels.head_ ch)) as [->|Hne].
  { rewrite list_lookup_insert_eq in Hn by by eapply lookup_lt_Some. by injection Hn as <-. }
  rewrite list_lookup_insert_ne in Hn by done. split.
  - apply list_elem_of_fmap. exists j'. split; [done|]. by eapply list_elem_of_lookup_2.
  - intros Ho _. by apply Hne, (Ho n j').
Qed.

Lemma pop_bytes T ch : same_bytes T (Channels.pop T ch).1.
Proof.
  unfold Channels.pop. destruct (Channels.jobs_ ch !! _) as [j|]; [|reflexivity].
  unfold Channels.job_destroy. pose proof (ref_destroy_bytes T (Channels.job_ref j)) as Hd.
  by destruct (ref_destroy T (Channels.job_ref j)) as [T1 r].
Qed.

Lemma popped_unshared T ch : unshared ch -> unshared (Channels.pop T ch).2.
Proof.
  intros Hu. unfold Channels.pop. destruct (Channels.jobs_ ch !! Channels.head_ ch) as [j|] eqn:Hj; [|done].
  unfold Channels.job_destroy. destruct (ref_destroy T (Channels.job_ref j)) as [T' r] eqn:Er.
  assert (r = None) as -> by (unfold ref_destroy in Er; destruct (Channels.job_ref j); congruence).
  assert (Hlt : (Channels.head_ ch < length (Channels.jobs_ ch))%nat) by by eapply lookup_lt_Some.
  assert (Hcase : forall n j' b, <[Channels.head_ ch := Channels.mkJob (JobBuf.mkJobBuf None (Channels.buf_sz j))
      (Channels.conn_ j)]> (Channels.jobs_ ch) !! n = Some j' -> Channels.job_ref j' = Some b ->
      Channels.jobs_ ch !! n = Some j').
  { intros n j' b Hn Hb. destruct (decide (n = Channels.head_ ch)) as [->|Hne].
    - rewrite list_lookup_insert_eq in Hn by done. by injection Hn as <-.
    - by rewrite list_lookup_insert_ne in Hn. }
  intros n1 n2 j1 j2 b H1 H2 Hb1 Hb2. apply (Hu n1 n2 j1 j2 b); [| |done|done].
  - by eapply Hcase.
  - by eapply Hcase.
Qed.

Lemma private_job_pop (Q : _ -> _ -> _ -> Prop) g x :
  (forall i r, x <> Applying i r) -> (forall i, x <> Written i) ->
  Q g (popped x) tt -> wkeeps keep job_pop Q g x.
Proof.
  intros Hx1 Hx2 HQ. eapply keeps_act.
  - apply (counted_job_pop (fun g' b => g' = g)). done.
  - by intros ? ? ->.
  - intros s w s' w' b g' Hs HR Ht E -> _. unfold job_pop in E.
    destruct (Channels.pop (buffers_ (db_ s)) (job_ch_ w)) as [T ch] eqn:Ep. injection E as <- <- <-.
    exists (popped x).
    assert (Hin : forall k, Some k ∈ slot_refs ch -> Some k ∈ slot_refs (job_ch_ w) /\
      (only_head (job_ch_ w) k -> False)).
    { intros k Hk. pose proof (popped_refs (buffers_ (db_ s)) (job_ch_ w) k) as Hp. rewrite Ep in Hp.
      destruct (Hp Hk) as [H1 H2]. split; [done|]. intros Ho. apply H2; [done|].
      pose proof (ws_jobs _ _ Hs) as []. lia. }
    pose proof (pop_bytes (buffers_ (db_ s)) (job_ch_ w)) as Hb. rewrite Ep in Hb.
    pose proof (popped_unshared (buffers_ (db_ s)) (job_ch_ w)) as Hu. rewrite Ep in Hu.
    assert (Hcur : forall k, current (popped x) = Some k -> current x = Some k) by by destruct x.
    split; [|split; [split|done]].
    + destruct Ht. split; cbn; try done.
      * by apply Hu.
      * intros k Hk. eapply keyless_bytes; [apply Hb|by apply td_keyless0].
      * intros k Hk1 Hk2. destruct (Hin k Hk1) as [H1 H2]. exfalso. apply H2, td_head0.
        by rewrite (td_apart0 k H1 Hk2).
      * intros k Hk. apply td_writable0. by destruct x.
      * intros k Hk n j Hn Hr. exfalso. destruct (Hin k) as [_ H2].
        { apply list_elem_of_fmap. exists j. split; [done|]. by eapply list_elem_of_lookup_2. }
        apply H2. by apply td_head0, Hcur.
      * intros i k Hk. destruct x; try done. by destruct (Hx1 i0 r).
      * intros k Hk. destruct x; try done. by destruct (Hx2 i).
      * intros k Hk. by destruct x.
    + intros k. unfold own_refs. rewrite !elem_of_app. cbn [job_ch_ set_job_ch].
      intros [[Hk|?]|?]; [|by left; right|by right]. left. left. by apply Hin.
    + intros k. right. apply Hb.
    + done.
Qed.

(** The copy of the entry at the front. *)
Lemma private_commit_get (Q : _ -> _ -> _ -> Prop) g x :
  (length g < LOCALS)%nat -> ready x -> (forall c, Q (CommitQueue.commit_buffer_ c :: g) x (Ok c)) ->
  wkeeps keep commit_get Q g x.
Proof.
  intros Hlt Hx HQ. eapply keeps_act.
  - apply (counted_commit_get (fun g' b => exists c, g' = CommitQueue.commit_buffer_ c :: g /\ b = Ok c));
      [done|]. intros c _. by exists c.
  - intros ? ? (c & -> & _). apply keep_cons.
  - intros s w s' w' b g' Hs HR Ht E (c & -> & ->) _.
    unfold commit_get, CommitQueue.get in E. cbn in E.
    destruct (CommitQueue.commits_ (commit_queue_ w) !! _) as [c0|] eqn:Hc0; [|done].
    unfold CommitQueue.commit_copy in E.
    assert (E2 : ref_copy (buffers_ (db_ s)) (CommitQueue.commit_buffer_ c0) =
      ((ref_copy (pool_of s) (CommitQueue.commit_buffer_ c0)).1, CommitQueue.commit_buffer_ c0))
      by by destruct (CommitQueue.commit_buffer_ c0).
    rewrite E2 in E. injection E as <- <- Eb.
    assert (Hr : CommitQueue.commit_buffer_ c = CommitQueue.commit_buffer_ c0) by by rewrite <- Eb.
    assert (Hin : CommitQueue.commit_buffer_ c ∈ commit_refs w).
    { apply list_elem_of_fmap. exists c0. split; [done|]. by eapply list_elem_of_lookup_2. }
    exists x. split; [|split; [split|by apply HQ]].
    + destruct Ht. split; cbn; try done.
      * intros k Hk. eapply keyless_bytes; [apply ref_copy_bytes|by apply td_keyless0].
      * intros k Hk. destruct (td_writable0 k Hk). split; [done|by right].
      * intros k ->. by destruct Hx.
    + intros k. rewrite !elem_of_app. intros [?|[Hk|?]%elem_of_cons]; [by left| |by right].
      left. unfold own_refs. apply elem_of_app. right. by rewrite Hk.
    + intros k. right. apply ref_copy_bytes.
    + done.
Qed.

(** The copy of the reference of an entry that is still in the queue. *)
Lemma private_copy_expired r i (Q : _ -> _ -> _ -> Prop) g :
  (length g < LOCALS)%nat -> Q (r :: g) (Applying i r) r -> wkeeps keep (copy_expired r) Q g (Reading i).
Proof.
  intros Hlt HQ. eapply keeps_act.
  - apply (counted_copy_expired r (fun g' b => g' = r :: g /\ b = r)); [done..|]. done.
  - intros ? ? [-> _]. apply keep_cons.
  - intros s w s' w' b g' Hs HR Ht E [-> ->] _. exists (Applying i r). unfold copy_expired in E.
    case_bool_decide as Hr; [|done]. change (r = None \/ r ∈ commit_refs w) in Hr.
    assert (E2 : ref_copy (buffers_ (db_ s)) r = ((ref_copy (pool_of s) r).1, r)) by by destruct r.
    rewrite E2 in E. injection E as <- <-. split; [|split; [split|done]].
    + destruct Ht. split; cbn; try done.
      * intros k Hk. eapply keyless_bytes; [apply ref_copy_bytes|by apply td_keyless0].
      * intros k Hk1 Hk2. by specialize (td_apart0 k Hk1 Hk2).
      * intros k [= <-]. destruct (td_writable0 i eq_refl). split; [done|by right].
      * intros k b [= <- ->]. by destruct Hr.
    + intros k. rewrite !elem_of_app. intros [?|[Hk|?]%elem_of_cons]; [by left| |by right].
      destruct Hr as [->|Hr]; [done|]. left. unfold own_refs. apply elem_of_app. right. by rewrite Hk.
    + intros k. right. apply ref_copy_bytes.
    + done.
Qed.

(** The record that is applied has key 0. *)
Lemma private_load r i (Q : _ -> _ -> _ -> Prop) g :
  r ∈ g ->
  (forall t, StudentTuple.student_wf t -> StudentTuple.key_ t = 0 -> Q g (Applying i r) t) ->
  wkeeps keep (load_tuple r) Q g (Applying i r).
Proof.
  intros Hr HQ. eapply keeps_act.
  - apply (counted_load r (fun g' t => g' = g /\ StudentTuple.student_wf t)); [done|]. by intros t.
  - by intros ? ? [-> _].
  - intros s w s' w' b g' Hs HR Ht E [-> Hb] _. unfold load_tuple in E. destruct r as [k|]; [|done].
    injection E as <- <- <-. exists (Applying i (Some k)). split; [done|]. split; [split; [done|by right|done]|].
    apply HQ; [done|]. apply (td_keyless _ _ _ _ Ht). by apply (td_applying _ _ _ _ Ht i).
Qed.

Lemma private_recall {mem : expiry} c (Q : _ -> _ -> _ -> Prop) g x :
  (forall c', expired c = Ret c' -> Q g x c') -> wkeeps keep (recall c) Q g x.
Proof.
  intros HQ. apply private_keep.
  - apply counted_recall. intros c' Hc. split; [done|by apply HQ].
  - intros s w s' w' b E. apply outcome_bind_Ret_inv in E as (c' & _ & [= <- <- <-]). by split_and!.
Qed.

Lemma private_commit_pop (Q : _ -> _ -> _ -> Prop) g x : Q g x tt -> wkeeps keep commit_pop Q g x.
Proof.
  intros HQ. eapply keeps_act.
  - apply (counted_commit_pop (fun g' b => g' = g)). done.
  - by intros ? ? ->.
  - intros s w s' w' b g' Hs HR Ht [= <- <- <-] -> _. exists x.
    split; [|split; [split; [done|by right|done]|done]]. destruct Ht. by split.
Qed.

(** A change is queued, unless the queue is full. *)
Lemma commit_send_cases k o r s w s' w' e :
  length (CommitQueue.commits_ (commit_queue_ w)) = CommitQueue.N ->
  (CommitQueue.head_ (commit_queue_ w) < CommitQueue.N)%nat ->
  (let '(T1, c) := CommitQueue.commit_make (buffers_ (db_ s)) k o r in
   let '(T2, q, x) := CommitQueue.send T1 (commit_queue_ w) c in
   Ret (set_buffers s (CommitQueue.commit_destroy T2 c), set_commit_queue w q, x)) = Ret (s', w', e) ->
  job_ch_ w' = job_ch_ w /\ students_ (db_ s') = students_ (db_ s) /\
  same_bytes (pool_of s) (pool_of s') /\
  ((e = QueueError_Full /\ commit_refs w' = commit_refs w) \/
   (e = QueueError_None /\ (forall b, b ∈ commit_refs w' -> b = r \/ b ∈ commit_refs w) /\ r ∈ commit_refs w')).
Proof.
  intros Hlen Hhead. unfold CommitQueue.commit_make.
  assert (E : ref_copy (buffers_ (db_ s)) r = ((ref_copy (pool_of s) r).1, r)) by by destruct r.
  rewrite E. pose proof (ref_copy_bytes (pool_of s) r) as Hb1.
  set (T1 := (ref_copy (pool_of s) r).1) in *. set (c := CommitQueue.mkCommit r k o).
  unfold CommitQueue.send. destruct (CommitQueue.full _).
  { intros [= <- <- <-]. split_and!; [done|done| |by left].
    etrans; [exact Hb1|]. apply ref_destroy_bytes. }
  destruct (lookup_lt_is_Some_2 (CommitQueue.commits_ (commit_queue_ w))
    (CommitQueue.head_ (commit_queue_ w))) as [c0 Hc0]; [by rewrite Hlen|].
  rewrite Hc0. unfold CommitQueue.commit_assign. change (CommitQueue.commit_buffer_ c) with r.
  pose proof (ref_assign_bytes T1 (CommitQueue.commit_buffer_ c0) r) as Hb2.
  destruct (ref_assign T1 (CommitQueue.commit_buffer_ c0) r) as [T2 r2] eqn:Ea.
  assert (r2 = r) as -> by (unfold ref_assign in Ea; congruence).
  intros [= <- <- <-]. split_and!; [done|done| |right; split_and!; [done| |]].
  - etrans; [exact Hb1|]. etrans; [exact Hb2|]. apply ref_destroy_bytes.
  - intros b. unfold commit_refs. cbn. rewrite list_fmap_insert. cbn. intros Hb.
    apply list_elem_of_lookup in Hb as [n Hn]. apply list_lookup_insert_Some in Hn as [(_ & <- & _)|[_ Hn]];
      [by left|right]. by eapply list_elem_of_lookup_2.
  - unfold commit_refs. cbn. rewrite list_fmap_insert. cbn.
    apply (list_elem_of_lookup_2 _ (CommitQueue.head_ (commit_queue_ w))).
    rewrite list_lookup_insert_eq; [done|]. by rewrite length_fmap, Hlen.
Qed.

Lemma private_commit_send k o i (Q : _ -> _ -> _ -> Prop) g :
  Some i ∈ g -> Q g (Reading i) QueueError_Full -> Q g (Kept i) QueueError_None ->
  wkeeps keep (commit_send k o (Some i)) Q g (Written i).
Proof.
  intros Hi HF HN. eapply keeps_act.
  - apply (counted_commit_send k o (Some i) (fun g' b => g' = g)); [by right|done|done].
  - by intros ? ? ->.
  - intros s w s' w' e g' Hs HR Ht E -> _. pose proof (ws_commits _ _ Hs) as [Hlen Hhead _].
    destruct (commit_send_cases k o (Some i) s w s' w' e Hlen Hhead E) as (Hj & Hst & Hb & Hcase).
    assert (Hrec : records_kept (students_ (db_ s)) (students_ (db_ s'))) by by rewrite Hst.
    destruct Ht. pose proof (td_written0 i eq_refl) as Hkey.
    destruct (td_writable0 i eq_refl) as [Hic _].
    destruct Hcase as [[-> Hc]|(-> & Hsub & Hin)].
    + exists (Reading i). split; [|split; [split|done]].
      * split; rewrite ?Hj, ?Hc; try done.
        -- intros b Hbc. eapply keyless_bytes; [apply Hb|by apply td_keyless0].
        -- intros b Hb1 Hb2. by specialize (td_apart0 b Hb1 Hb2).
      * intros b. unfold own_refs. by rewrite Hj, Hc.
      * intros b. right. apply Hb.
      * done.
    + exists (Kept i). split; [|split; [split|done]].
      * split; rewrite ?Hj; try done.
        -- intros b Hbc. eapply keyless_bytes; [apply Hb|].
           destruct (Hsub _ Hbc) as [[= ->]|]; [done|by apply td_keyless0].
        -- intros b Hb1 Hb2. destruct (Hsub _ Hb2) as [[= ->]|Hb3]; [done|].
           by specialize (td_apart0 b Hb1 Hb3).
        -- by intros b [= <-].
      * intros b. unfold own_refs. rewrite Hj, !elem_of_app. intros [[?|Hbc]|?]; [by left; left| |by right].
        destruct (Hsub _ Hbc) as [[= ->]|]; [by right|by left; right].
      * intros b. right. apply Hb.
      * done.
Qed.

Lemma private_commit_send_null k o (Q : _ -> _ -> _ -> Prop) g x :
  ready x -> o <> ADD_TUPLE -> o <> UPDATE -> (forall e, Q g x e) ->
  wkeeps keep (commit_send k o None) Q g x.
Proof.
  intros Hx Ho1 Ho2 HQ. eapply keeps_act.
  - apply (counted_commit_send k o None (fun g' b => g' = g)); [by left|by intros [?|?]|done].
  - by intros ? ? ->.
  - intros s w s' w' e g' Hs HR Ht E -> _. pose proof (ws_commits _ _ Hs) as [Hlen Hhead _].
    destruct (commit_send_cases k o None s w s' w' e Hlen Hhead E) as (Hj & Hst & Hb & Hcase).
    assert (Hsub : forall b, Some b ∈ commit_refs w' -> Some b ∈ commit_refs w).
    { intros b Hbc. destruct Hcase as [[_ <-]|(_ & Hsub & _)]; [done|]. by destruct (Hsub _ Hbc). }
    exists x. destruct Ht. split; [|split; [split|done]].
    + split; rewrite ?Hj; try done.
      * intros b Hbc. eapply keyless_bytes; [apply Hb|by apply td_keyless0, Hsub].
      * intros b Hb1 Hb2. by apply td_apart0, Hsub.
      * intros i Hi. destruct (td_writable0 i Hi) as [Hn ?]. split; [|done]. intros Hbc. by apply Hn, Hsub.
      * by intros i b ->.
      * by intros i ->.
      * by intros i ->.
    + intros b. unfold own_refs. rewrite Hj, !elem_of_app. intros [[?|Hbc]|?]; [by left; left| |by right].
      left. right. by apply Hsub.
    + intros b. right. apply Hb.
    + by rewrite Hst.
Qed.
End Moves.

(** ** Handlers *)

Lemma private_reject keep {Hkeep : Keeping keep} a p j i (Q : _ -> _ -> _ -> Prop) g :
  JobBuf.ref p = Some i -> Q g (Reading i) tt -> wkeeps keep (reject a p j) Q g (Reading i).
Proof.
  intros Hp HQ. unfold reject. apply private_bind, (private_reply _ _ _ _ i); [done..|].
  by apply private_job_pop.
Qed.

Ltac private_step :=
  lazymatch goal with
  | |- private _ _ _ _ _ _ (_ ≫= _) _ _ _ => apply private_bind
  | |- private _ _ _ _ _ _ (Done _) _ _ _ => apply private_done
  | |- private _ _ _ _ _ _ (reject _ _ _) _ _ (Reading ?i) => apply (private_reject _ _ _ _ i); [done|]
  | |- private _ _ _ _ _ _ (reply _ _ _ _) _ _ (Reading ?i) => apply (private_reply _ _ _ _ i); [done..|]
  | |- private _ _ _ _ _ _ job_pop _ _ _ => apply private_job_pop; [done..|]; cbn [popped]
  | |- private _ _ _ _ _ _ (ret_send _) _ _ _ => apply private_ret_send
  | |- private _ _ _ _ _ _ (deref _) _ _ _ => apply private_deref; intros ?
  | |- private _ _ _ _ _ _ get_status _ _ _ => apply private_get_status; intros ?
  | |- private _ _ _ _ _ _ (put_status _) _ _ _ => apply private_put_status
  | |- private _ _ _ _ _ _ get_txn_id _ _ _ => apply private_get_txn_id; intros ?
  | |- private _ _ _ _ _ _ get_timeout_cnt _ _ _ => apply private_get_timeout_cnt; intros ?
  | |- private _ _ _ _ _ _ (put_timeout_cnt _) _ _ _ => apply private_put_timeout_cnt
  | |- private _ _ _ _ _ _ is_running _ _ _ => apply private_is_running; intros ?
  | |- private _ _ _ _ _ _ commit_empty _ _ _ => apply private_commit_empty; intros ?
  | |- private _ _ _ _ _ _ commit_pop _ _ _ => apply private_commit_pop
  | |- private _ _ _ _ _ _ (on_locks _) _ _ _ => apply private_on_locks; intros ?
  | |- private _ _ _ _ _ _ (unwrap_ _) _ _ _ => apply private_unwrap; intros ? ?
  | |- private _ _ _ _ _ _ (if ?b then _ else _) _ _ _ => destruct b
  | |- private _ _ _ _ _ _ diverge _ _ _ => done
  end.
Ltac privately := cbv beta; repeat (private_step; cbv beta).

Section Handlers.
Context {keep : list buf_ref -> Prop} {Hkeep : Keeping keep}.
Context (p : JobBuf.job_buf) (j : Channels.job) (i : nat).
Context (Hp : JobBuf.ref p = Some i) (Hj : Channels.job_ref j = Some i).
Implicit Types (g : list buf_ref) (x : stage).

Lemma private_field {A} (f : buf_table -> A) (Q : _ -> _ -> _ -> Prop) g x :
  (forall a, Q g x a) -> wkeeps keep (read_buffers f) Q g x.
Proof. intros HQ. by apply private_read. Qed.

Lemma private_release k (Q : _ -> _ -> _ -> Prop) g x :
  Q g x tt -> wkeeps keep (on_table (fun t => t' ← StudentTable.release_ t k; Ret (t', tt))) Q g x.
Proof.
  intros HQ. apply private_table.
  - intros t t' [] Ht E. apply outcome_bind_Ret_inv in E as (t1 & E & [= <-]).
    split; [by eapply release_typed_table|done].
  - intros t t' b E. apply outcome_bind_Ret_inv in E as (t1 & E & [= <- _]). by eapply kept_release.
Qed.

Lemma private_read_record n (Q : _ -> _ -> _ -> Prop) g x :
  (forall r, StudentTuple.student_wf r -> Q g x r) -> wkeeps keep (read_record n) Q g x.
Proof.
  intros HQ. apply private_table.
  - intros t t' b Ht E. destruct (StudentTable.search_slot t n) as [r|] eqn:Er; [|done].
    injection E as <- <-. split; [done|]. by apply HQ, (slot_typed t Ht n).
  - intros t t' b E. destruct (StudentTable.search_slot t n); [|done]. by injection E as <- _.
Qed.

(** Writing a field of the reply. *)
Lemma private_set_field f n v (Q : _ -> _ -> _ -> Prop) g :
  (n <= 32)%nat -> Q g (Reading i) tt ->
  wkeeps keep (on_buffers (fun T => (JobBuf.set_field T p n v f, tt))) Q g (Reading i).
Proof.
  intros Hn HQ. apply (private_write _ i (Reading i)); [done|by left|]. intros T HT _.
  split_and!; [by apply set_field_typed|intros refs; apply store_wf| |done|done].
  intros b Hb. unfold JobBuf.set_field. cbn [fst]. rewrite Hp. apply JobBuf.buffer_store_ne. congruence.
Qed.

Lemma private_send_record n (Q : _ -> _ -> _ -> Prop) g :
  Q g (Reading i) tt -> wkeeps keep (send_record p j n) Q g (Reading i).
Proof.
  intros HQ. unfold send_record. apply private_bind, private_read_record. intros r Hr.
  apply private_bind. unfold JobBuf.set_key. apply private_set_field; [lia|].
  apply private_bind, (private_write _ i (Reading i)); [done|by left|]. intros T HT _.
  pose proof (serialize_store_typed T (Channels.job_ref j) r (JobBuf.get_tuple_offset p) HT Hr) as Hs.
  destruct (StudentTuple.serialize_ _ _ _) as [b x] eqn:E.
  split_and!; [apply Hs; done|intros refs; apply store_wf| |done|].
  - intros k Hk. cbn [fst]. rewrite Hj. apply JobBuf.buffer_store_ne. congruence.
  - privately. done.
Qed.

Lemma private_wait {X} (w : StudentTable.StudentTable -> StudentTable.StudentTable * X)
    (Q : _ -> _ -> _ -> Prop) g x :
  (forall t, table_typed t -> table_typed (w t).1) -> (forall t, records_kept t (w t).1) ->
  (forall r, Q g x r) -> wkeeps keep (on_table (fun t => Ret (w t))) Q g x.
Proof.
  intros Hw Hk HQ. apply private_table.
  - intros t t' b Ht [= E]. specialize (Hw t Ht). rewrite E in Hw. by split.
  - intros t t' b [= E]. specialize (Hk t). by rewrite E in Hk.
Qed.

Lemma private_shared_retry fuel n id (Q : _ -> _ -> _ -> Prop) g :
  Q g (Reading i) tt -> wkeeps keep (shared_retry fuel n id p j) Q g (Reading i).
Proof.
  intros HQ. revert n. induction fuel as [|f IH]; intros n; [done|]. cbn [shared_retry].
  privately; try done. apply private_wait; [apply wait_shared_typed|apply kept_wait_shared|].
  intros r. privately; [by apply IH|]. apply private_read_record. intros rec _.
  privately; by apply private_send_record.
Qed.

Lemma private_exclusive_retry fuel n id (Q : _ -> _ -> _ -> Prop) g :
  Q g (Reading i) tt -> wkeeps keep (exclusive_retry fuel n id p j) Q g (Reading i).
Proof.
  intros HQ. revert n. induction fuel as [|f IH]; intros n; [done|]. cbn [exclusive_retry].
  privately; try done. apply private_wait; [apply wait_exclusive_typed|apply kept_wait_exclusive|].
  intros r. privately; [by apply IH|]. apply private_read_record. intros rec _.
  privately; [done|]. by apply private_send_record.
Qed.

Lemma private_promote_retry fuel n k (Q : _ -> _ -> _ -> Prop) g :
  (forall b, Q g (Reading i) b) -> wkeeps keep (promote_retry fuel n k p j) Q g (Reading i).
Proof.
  intros HQ. revert n. induction fuel as [|f IH]; intros n; [done|]. cbn [promote_retry].
  privately; try done. apply private_table; [|intros t t' x; by apply kept_promote].
  intros t t' x Ht E. split; [by eapply promote_typed|]. privately; [apply IH|done].
Qed.

(** ** Requests *)

Context (g : list buf_ref) (Hg : Some i ∈ g).
Implicit Types (Q : list buf_ref -> stage -> unit -> Prop).

Lemma private_enter_shrinking Q x : Q g x tt -> wkeeps keep enter_shrinking Q g x.
Proof. intros HQ. unfold enter_shrinking. by privately. Qed.

(** Parsing sets no key. *)
Lemma private_parse (Q : list buf_ref -> stage -> _ -> Prop) x :
  (forall r e, StudentTuple.student_wf r -> StudentTuple.key_ r = 0 -> Q g x (r, e)) ->
  wkeeps keep (read_buffers (fun T => StudentTuple.deserialize_ StudentTuple.student_default
    (buffer T (Channels.job_ref j)) (JobBuf.get_tuple_offset p))) Q g x.
Proof.
  intros HQ. apply private_read. intros s w Hs Hw _. rewrite Hj.
  destruct (StudentTuple.deserialize_ _ _ _) as [r e] eqn:E. apply HQ.
  - eapply deserialize_typed; [apply StudentTuple.student_default_wf|by apply Hw| |exact E]. done.
  - by injection E as <- _.
Qed.

(** The record takes the place of the message. *)
Lemma private_park r Q :
  StudentTuple.student_wf r -> StudentTuple.key_ r = 0 -> Q g (Written i) tt ->
  wkeeps keep (on_buffers (fun T => (store T (Channels.job_ref j)
    (Bytes.write (buffer T (Channels.job_ref j)) 0 (StudentTuple.object_bytes r)), tt))) Q g (Reading i).
Proof.
  intros Hr Hk HQ. apply (private_write _ i (Written i)); [done|by right|]. intros T HT Hw. cbn [fst snd].
  split_and!; [by apply object_store_typed|intros refs; apply store_wf| | |done]; rewrite Hj.
  - intros b Hb. apply JobBuf.buffer_store_ne. congruence.
  - intros _. specialize (Hw i Hg) as [Hl _]. unfold keyless.
    rewrite JobBuf.buffer_store by done. rewrite StudentTuple.of_object_bytes_write; [done..|].
    unfold BUFFER_WIDTH, StudentTuple.SIZEOF_STUDENT in *. lia.
Qed.

(** Queued, or refused in the buffer the record was parked in. *)
Lemma private_queue k o (h : QueueError -> wprog unit) Q :
  (forall e, h e = if bool_decide (e = QueueError_Full) then reject COMMIT_FULL p j else job_pop) ->
  (forall y, ready y -> Q g y tt) ->
  wkeeps keep (commit_send k o (Channels.job_ref j) ≫= h) Q g (Written i).
Proof.
  intros Hh HQ. apply private_bind. rewrite Hj. apply private_commit_send; [done|..]; rewrite Hh.
  - rewrite bool_decide_true by done. privately. by apply HQ.
  - rewrite bool_decide_false by done. privately. by apply HQ.
Qed.

Lemma private_process_add Q : (forall y, ready y -> Q g y tt) -> wkeeps keep (process_add p j) Q g (Reading i).
Proof.
  intros HQ. assert (HR : Q g (Reading i) tt) by by apply HQ.
  unfold process_add. apply private_bind, private_enter_shrinking.
  apply private_bind, private_field. intros tr. privately; try done.
  apply private_parse. intros r x Hr Hk. privately; [done|]. apply private_park; [done..|].
  by apply private_queue.
Qed.

Lemma private_process_update Q : (forall y, ready y -> Q g y tt) -> wkeeps keep (process_update p j) Q g (Reading i).
Proof.
  intros HQ. assert (HR : Q g (Reading i) tt) by by apply HQ.
  unfold process_update. apply private_bind, private_enter_shrinking.
  apply private_bind, private_field. intros tr. privately; try done.
  apply private_field. intros kr. privately; try done.
  apply private_parse. intros r x Hr Hk. privately; [done|]. apply private_park; [done..|].
  by apply private_queue.
Qed.

Lemma private_process_rm Q : Q g (Reading i) tt -> wkeeps keep (process_rm p j) Q g (Reading i).
Proof.
  intros HQ. unfold process_rm. apply private_bind, private_enter_shrinking.
  apply private_bind, private_field. intros tr. privately; try done.
  apply private_field. intros kr. privately; try done.
  apply private_commit_send_null; [done..|]. intros e. by privately.
Qed.

Lemma private_process_shared_read Q : Q g (Reading i) tt -> wkeeps keep (process_shared_read p j) Q g (Reading i).
Proof.
  intros HQ. unfold process_shared_read. privately; try done.
  apply private_field. intros tr. privately; try done. by apply private_shared_retry.
Qed.

Lemma private_process_exclusive_read Q : Q g (Reading i) tt -> wkeeps keep (process_exclusive_read p j) Q g (Reading i).
Proof.
  intros HQ. unfold process_exclusive_read. privately; try done.
  apply private_field. intros tr. privately; try done. by apply private_exclusive_retry.
Qed.

Lemma private_process_yield Q : Q g (Reading i) tt -> wkeeps keep (process_yield p j) Q g (Reading i).
Proof.
  intros HQ. unfold process_yield. privately; try done.
  apply private_field. intros tr. privately; try done.
  apply private_field. intros kr. privately; try done.
  apply private_release. by privately.
Qed.

Lemma private_process_promote Q : Q g (Reading i) tt -> wkeeps keep (process_promote p j) Q g (Reading i).
Proof.
  intros HQ. unfold process_promote. privately; try done.
  apply private_field. intros tr. privately; try done.
  apply private_field. intros kr. privately; try done.
  apply private_promote_retry. intros x. by privately.
Qed.
End Handlers.

(** ** Committing and leaving *)

Section Leave.
Context {keep : list buf_ref -> Prop} {Hkeep : Keeping keep}.
Implicit Types (g : list buf_ref) (x : stage).

(** A reference that does not matter to the stage. *)
Lemma private_drop_keep r (Q : _ -> _ -> _ -> Prop) g x :
  (forall i, writable x = Some i -> Some i ∈ g) -> keep g -> Q g x tt -> wkeeps keep (drop_ref r) Q (r :: g) x.
Proof.
  intros Hi Hkg HQ. eapply keeps_act.
  - apply (counted_drop r (fun g' b => g' = g)). done.
  - by intros ? ? ->.
  - intros s w s' w' b g' Hs HR Ht [= <- <- <-] -> _. exists x.
    split; [|split; [split|done]].
    + destruct Ht. split; cbn; try done.
      * intros k Hk. eapply keyless_bytes; [apply ref_destroy_bytes|by apply td_keyless0].
      * intros k Hk. split; [by apply td_writable0|by apply Hi].
      * intros k Hk. eapply keyless_bytes; [apply ref_destroy_bytes|by apply td_written0].
    + intros k. rewrite !elem_of_app. intros [?|?]; [by left|right]. by right.
    + intros k. right. apply ref_destroy_bytes.
    + done.
Qed.

(** What the table functions of a commit do. *)
Lemma private_commit_table {E} (f : StudentTable.StudentTable -> outcome (StudentTable.StudentTable * E))
    (Q : _ -> _ -> _ -> Prop) g x :
  (forall t t' e, table_typed t -> f t = Ret (t', e) -> table_typed t') ->
  (forall t t' e, f t = Ret (t', e) -> records_kept t t') -> Q g x tt ->
  wkeeps keep (on_table (fun t => '(t', _) ← f t; Ret (t', tt))) Q g x.
Proof.
  intros Hf Hk HQ. apply private_table.
  - intros t t' [] Ht H. apply outcome_bind_Ret_inv in H as ([t1 e] & H & [= <-]).
    split; [by eapply Hf|done].
  - intros t t' [] H. apply outcome_bind_Ret_inv in H as ([t1 e] & H & [= <-]). by eapply Hk.
Qed.

Lemma private_commit_entry c i (Q : _ -> _ -> _ -> Prop) g :
  (S (length g) < LOCALS)%nat -> Some i ∈ g -> keep g -> Q g (Reading i) tt ->
  wkeeps keep (commit_entry c) Q g (Reading i).
Proof.
  intros Hlt Hi Hkg HQ. unfold commit_entry. set (r := CommitQueue.commit_buffer_ c).
  assert (Hdrop : wkeeps keep (drop_ref r) Q (r :: g) (Applying i r))
    by (apply (private_drop_other _ i); [by right|done..]).
  destruct (CommitQueue.commit_op_ c); try exact HQ; destruct (disassemble_ _) as [tbl key].
  - apply private_bind, private_copy_expired; [lia|]. privately; [|done].
    apply private_load; [left|]. intros t Ht _.
    apply private_commit_table; [intros t0 t' e Ht0; by apply insert_typed|intros t0 t' e; by apply kept_insert|done].
  - apply private_bind, private_copy_expired; [lia|]. privately; [|done].
    apply private_load; [left|]. intros t Ht Hkey.
    apply private_commit_table; [intros t0 t' e Ht0; by apply write_typed| |done].
    intros t0 t' e. by apply kept_write.
  - privately; [|done]. apply private_commit_table; [intros t0 t' e Ht0; by apply remove_typed|intros t0 t' e; by apply kept_remove|done].
Qed.

Lemma private_commit_loop {mem : expiry} fuel i (Q : _ -> _ -> _ -> Prop) g :
  (S (length g) < LOCALS)%nat -> Some i ∈ g -> keep g -> Q g (Reading i) tt ->
  wkeeps keep (commit_loop fuel) Q g (Reading i).
Proof.
  intros Hlt Hi Hkg HQ. induction fuel as [|f IH]; [done|]. cbn [commit_loop]. privately; [done|].
  apply private_commit_get; [lia|done|]. intros c.
  apply private_bind, private_unwrap. intros ? [= <-]. privately.
  apply (private_drop_other _ i); [by left|done|done|]. privately. apply private_recall. intros c' _.
  apply private_bind, private_commit_entry; [done..|]. by privately.
Qed.

Lemma private_clear_queue fuel (Q : _ -> _ -> _ -> Prop) g x :
  (S (length g) < LOCALS)%nat -> ready x -> (forall i, writable x = Some i -> Some i ∈ g) -> keep g -> Q g x tt ->
  wkeeps keep (clear_commit_queue fuel) Q g x.
Proof.
  intros Hlt Hx Hi Hkg HQ. induction fuel as [|f IH]; [done|]. cbn [clear_commit_queue]. privately; [done|].
  apply private_commit_get; [lia|done|]. intros c.
  apply private_bind, private_unwrap. intros ? [= <-]. privately. by apply private_drop_keep.
Qed.

Lemma private_release_loop fuel ll idx (Q : _ -> _ -> _ -> Prop) g x :
  Q g x tt -> wkeeps keep (release_loop fuel ll idx) Q g x.
Proof.
  intros HQ. revert idx. induction fuel as [|f IH]; intros idx; [done|]. cbn [release_loop].
  privately; [done|]. destruct (LockList.deref ll idx) as [lock|]; [|done].
  destruct (disassemble_ _) as [tbl key]. privately; [|apply IH].
  apply private_release, IH.
Qed.

Lemma private_quit (Q : _ -> _ -> _ -> Prop) g x :
  (S (length g) < LOCALS)%nat -> ready x -> (forall i, writable x = Some i -> Some i ∈ g) -> keep g -> Q g x tt ->
  wkeeps keep worker_quit Q g x.
Proof.
  intros Hlt Hx Hi Hkg HQ. unfold worker_quit, release_all_locks. privately.
  apply private_release_loop. privately. apply private_clear_queue; [done..|]. by privately.
Qed.
End Leave.

(** ** The main loop *)

(** Handling a message: its operation is read; it is answered; the local
    references are given back. *)
Definition opened (job_r : Channels.job) : wprog (buf_ref * buf_ref * Result OpType ParserError) :=
  r1 ← retain (Channels.job_ref job_r);
  r2 ← retain r1;
  deref r2 ≫= fun _ =>
  op_r ← read_buffers (fun T => JobBuf.get_op T (JobBuf.mkJobBuf r2 (Channels.buf_sz job_r)));
  Done (r1, r2, op_r).

Definition answering {mem : expiry} (job_r : Channels.job) (x : buf_ref * buf_ref * Result OpType ParserError)
    : wprog bool :=
  let job := Channels.job_make x.1.1 (Channels.buf_sz job_r) (Channels.conn_ job_r) in
  let parser := JobBuf.mkJobBuf x.1.2 (Channels.buf_sz job_r) in
  if negb (is_ok x.2) then reject BAD_OP parser job ≫= fun _ => Done false
  else op ← unwrap_ x.2; dispatch op parser job.

Definition closed (r r1 r2 : buf_ref) (quit : bool) : wprog bool :=
  drop_ref r2 ≫= fun _ => drop_ref r1 ≫= fun _ => drop_ref r ≫= fun _ => Done quit.

Definition answered_by {mem : expiry} (job_r : Channels.job) (x : buf_ref * buf_ref * Result OpType ParserError)
    : wprog bool :=
  quit ← answering job_r x;
  closed (Channels.job_ref job_r) x.1.1 x.1.2 quit.

Lemma handle_split {mem : expiry} job_r : handle job_r = (opened job_r ≫= answered_by job_r).
Proof. reflexivity. Qed.

Section Loop.
Context {mem : expiry} {keep : list buf_ref -> Prop} {Hkeep : Keeping keep}.
Implicit Types (g : list buf_ref).

Lemma private_dispatch op p j i (Q : _ -> _ -> _ -> Prop) g :
  JobBuf.ref p = Some i -> Channels.job_ref j = Some i -> Some i ∈ g -> (S (length g) < LOCALS)%nat -> keep g ->
  (forall y b, ready y -> Q g y b) -> wkeeps keep (dispatch op p j) Q g (Reading i).
Proof.
  intros Hp Hj Hi Hlt Hkg HQ. assert (HR : forall b, Q g (Reading i) b) by (intros b; by apply HQ).
  assert (Hw : forall k, writable (Reading i) = Some k -> Some k ∈ g) by by intros k [= <-].
  destruct op; cbn [dispatch]; privately; try done.
  - unfold JobBuf.set_txn. eapply private_set_field; [done|lia|]. by privately.
  - eapply private_process_add; [done..|]. intros y Hy. privately. by apply HQ.
  - eapply private_process_shared_read; [done..|]. by privately.
  - eapply private_process_exclusive_read; [done..|]. by privately.
  - eapply private_process_yield; [done..|]. by privately.
  - eapply private_process_promote; [done..|]. by privately.
  - eapply private_process_update; [done..|]. intros y Hy. privately. by apply HQ.
  - eapply private_process_rm; [done..|]. by privately.
  - unfold process_commit. privately.
    + apply private_quit; [done..|]. by privately.
    + apply private_commit_loop; [done..|]. privately. apply private_quit; [done..|]. by privately.
  - apply private_quit; [done..|]. by privately.
Qed.

Section Handle.
Context (job : Channels.job) (i : nat) (Hi : Channels.job_ref job = Some i).

Abbreviation three := [Some i; Some i; Some i].

Lemma private_opened (Q : _ -> _ -> _ -> Prop) :
  (forall op_r, Q three (Reading i) (Some i, Some i, op_r)) ->
  wkeeps keep (opened job) Q [Some i] (Reading i).
Proof using Hi Hkeep.
  intros HQ. unfold opened. rewrite Hi.
  apply private_bind, private_retain; [unfold LOCALS; simpl; lia|right; left|].
  apply private_bind, private_retain; [unfold LOCALS; simpl; lia|right; left|].
  privately. apply private_read. intros s w _ _ _. by privately.
Qed.

Lemma private_answering op_r (Q : _ -> _ -> _ -> Prop) :
  keep three -> (forall y b, ready y -> Q three y b) ->
  wkeeps keep (answering job (Some i, Some i, op_r)) Q three (Reading i).
Proof using Hkeep.
  intros Hk HQ. unfold answering. privately.
  - by apply HQ.
  - eapply private_dispatch; [done|done|left|unfold LOCALS; simpl; lia|done|done].
Qed.
End Handle.

Lemma private_closed r1 r2 r3 quit y (Q : _ -> _ -> _ -> Prop) :
  ready y -> keep [] -> Q [] Idle quit -> wkeeps keep (closed r3 r2 r1 quit) Q [r1; r2; r3] y.
Proof.
  intros Hy Hk HQ. unfold closed.
  apply private_bind, private_drop; [done|by do 2 apply keep_cons|].
  apply private_bind, private_drop; [done|by apply keep_cons|].
  apply private_bind, private_drop; [done..|]. by apply private_done.
Qed.

Lemma private_handle job (Q : _ -> _ -> _ -> Prop) :
  keep [] -> (forall b, Q [] Idle b) ->
  wkeeps keep (handle job) Q [Channels.job_ref job] (arrived (Channels.job_ref job)).
Proof.
  intros Hk HQ. rewrite handle_split. destruct (Channels.job_ref job) as [i|] eqn:Hi.
  - apply private_bind, (private_opened _ _ Hi). intros op_r. unfold answered_by. cbn [fst snd]. rewrite Hi.
    apply private_bind, private_answering; [by do 3 apply keep_cons|]. intros y b Hy. by apply private_closed.
  - unfold opened. rewrite Hi. apply private_bind.
    do 2 (apply private_bind, private_retain; [unfold LOCALS; simpl; lia|by left|]). by privately.
Qed.

Lemma private_keeps_iteration (Q : _ -> _ -> _ -> Prop) :
  keep [] -> (forall b, Q [] Idle b) -> wkeeps keep iteration Q [] Idle.
Proof.
  intros Hk HQ. unfold iteration. privately.
  - apply private_quit; [unfold LOCALS; simpl; lia|done..|]. by privately.
  - apply private_job_recv.
    + intros j. rewrite is_ok_Ok. cbn [negb].
      privately; match goal with H : value_ (Ok _) = Some _ |- _ => injection H as <- end.
      * apply private_quit; [unfold LOCALS; simpl; lia|by destruct (Channels.job_ref j)| |by apply keep_cons|].
        { intros i Hi. destruct (Channels.job_ref j); [injection Hi as <-; left|done]. }
        privately. apply private_drop; [by destruct (Channels.job_ref j)|done|]. by privately.
      * by apply private_handle.
    + intros r Hr. rewrite Hr. cbn [negb]. by privately.
Qed.
End Loop.

Lemma private_iteration {mem : expiry} (Q : _ -> _ -> _ -> Prop) :
  (forall b, Q [] Idle b) -> wprivate iteration Q [] Idle.
Proof. intros HQ. by apply (private_weaken (fun _ => True)), private_keeps_iteration. Qed.
