(* ===== verification/WorkerLogic.v ===== *)
(** * Proof rules for the actions of a worker

    The logic of [Prog] at the worker: the shared view is the student table
    with the claims of [Locking], the core is what no other thread writes.
    One rule per action of [Worker]; the tactic [steps] applies them. *)
From S2P Require Import Prelude Params Probe UniqueKey Ring Prog Locking Worker.
From S2P Require StudentTuple StudentTable LockList CommitQueue Channels BufTable JobBuf.

(** The part of a worker's state that only the worker writes. *)
Record core := mkCore {
  c_locks : LockList.lock_list;
  c_queue : CommitQueue.commit_queue;
  c_status : TxnStatus
}.

Definition core_of (w : Worker) : core :=
  mkCore (lock_list_ w) (commit_queue_ w) (status_ w).
Definition view_of (s : shared) : StudentTable.StudentTable := students_ (db_ s).

(** The bounds within which the 8-bit counters of the table are exact: no
    record has 127 shared holders, and the next key is free. *)
Definition room (t : StudentTable.StudentTable) : Prop :=
  shared_room t /\ StudentTable.next_key_ t ∉ StudentTable.keys t.

Definition roomb (t : StudentTable.StudentTable) : bool :=
  bool_decide (Forall (fun r => r.2 < 127) (StudentTable.rows t)) &&
  negb (bool_decide (StudentTable.next_key_ t ∈ StudentTable.keys t)).

Lemma roomb_room t : roomb t = true -> room t.
Proof.
  unfold roomb. intros [H1%bool_decide_eq_true H2%negb_true_iff]%andb_true_iff.
  apply bool_decide_eq_false in H2. split; [|done]. intros r Hr.
  rewrite list.Forall_forall in H1. by apply H1.
Qed.

(** The job at the front of a worker's channel has a buffer. *)
Definition front_ready (w : Worker) : Prop :=
  Channels.empty (job_ch_ w) = false -> forall j,
  Channels.jobs_ (job_ch_ w) !! Channels.head_ (job_ch_ w) = Some j -> Channels.job_ref j <> None.

Definition front_readyb (w : Worker) : bool :=
  Channels.empty (job_ch_ w) ||
  match Channels.jobs_ (job_ch_ w) !! Channels.head_ (job_ch_ w) with
  | Some j => bool_decide (Channels.job_ref j <> None)
  | None => true
  end.

Lemma front_readyb_ready w : front_readyb w = true -> front_ready w.
Proof.
  unfold front_readyb, front_ready. intros H He j Hj. rewrite He, Hj in H. simpl in H.
  by apply bool_decide_eq_true in H.
Qed.

(** No assumption on the worker's own state. *)
Definition any_worker (w : Worker) : Prop := True.

Section Rules.
Context (quiet : StudentTable.StudentTable -> StudentTable.StudentTable -> Prop).
Context (sane : Worker -> Prop) (hang : Prop) `{!Reflexive quiet}.

Abbreviation wok := (ok core_of view_of Good room sane quiet hang False).
Implicit Types (c : core) (g : list claim).

Lemma wok_bind {A B} (p : wprog A) (h : A -> wprog B) (Q : core -> list claim -> B -> Prop) c g :
  wok p (fun c g a => wok (h a) Q c g) c g -> wok (p ≫= h) Q c g.
Proof. apply ok_bind. Qed.

Lemma wok_done {A} (a : A) (Q : core -> list claim -> A -> Prop) c g : Q c g a -> wok (Done a) Q c g.
Proof. done. Qed.

(** An action that leaves the table and the core alone. *)
Lemma wok_frame {B} (f : shared -> Worker -> outcome (shared * Worker * B))
    (Q : core -> list claim -> B -> Prop) c g :
  (forall s w, exists s' w' b, f s w = Ret (s', w', b) /\ view_of s' = view_of s /\
     core_of w' = core_of w) ->
  (forall b, Q c g b) -> wok (act f) Q c g.
Proof.
  intros Hf HQ s w <- _ _ HO. destruct (Hf s w) as (s' & w' & b & -> & -> & ->).
  split; [done|]. exists g. split; [done|]. apply HQ.
Qed.

(** An action on the core. *)
Lemma wok_core {B} (f : core -> outcome (core * B)) h (Q : core -> list claim -> B -> Prop) c g :
  (forall s w, match f (core_of w) with
     | Ret (c', b) => exists s' w', h s w = Ret (s', w', b) /\ view_of s' = view_of s /\ core_of w' = c'
     | Hang => h s w = Hang
     | Undef => h s w = Undef
     end) ->
  (forall t, (exists O, Good t (g ++ O)) ->
     match f c with Ret (c', b) => Q c' g b | Hang => hang | Undef => False end) ->
  wok (act h) Q c g.
Proof.
  intros Hf HQ s w <- _ _ HO. specialize (HQ _ HO). specialize (Hf s w).
  destruct (f (core_of w)) as [[c' b]| |]; [|by rewrite Hf..].
  destruct Hf as (s' & w' & -> & -> & <-). split; [done|]. exists g. by split.
Qed.

(** An action on the table. *)
Lemma wok_table {B} (f : StudentTable.StudentTable -> outcome (StudentTable.StudentTable * B))
    (Q : core -> list claim -> B -> Prop) c g :
  (forall t, room t -> (exists O, Good t (g ++ O)) ->
     match f t with
     | Ret (t', b) => quiet t t' /\ exists g',
         (forall O, Good t (g ++ O) -> Good t' (g' ++ O)) /\ Q c g' b
     | Hang => hang | Undef => False
     end) ->
  wok (on_table f) Q c g.
Proof.
  intros HQ s w <- Hr _ HO. specialize (HQ _ Hr HO). unfold view_of in HQ.
  destruct (f (students_ (db_ s))) as [[t' b]| |]; [|done..]. exact HQ.
Qed.

Section Actions.
Context {B : Type}.
Implicit Types (Q : core -> list claim -> B -> Prop).

(** What is read is what some state of the pool holds. *)
Lemma wok_buffers (f : BufTable.buf_table -> BufTable.buf_table * B) Q c g :
  (forall T, Q c g (f T).2) -> wok (on_buffers f) Q c g.
Proof.
  intros HQ s w <- _ _ _. specialize (HQ (buffers_ (db_ s))).
  destruct (f _) as [T b]. split; [done|]. exists g. by split.
Qed.

Lemma wok_read_buffers (f : BufTable.buf_table -> B) Q c g :
  (forall T, Q c g (f T)) -> wok (read_buffers f) Q c g.
Proof. intros HQ. by apply wok_buffers. Qed.

Lemma wok_unwrap {E} (r : Result B E) (b : B) Q c g :
  value_ r = Some b -> Q c g b -> wok (unwrap_ r) Q c g.
Proof.
  intros Hr HQ. apply (wok_core (fun c => a ← unwrap r; Ret (c, a))).
  - intros s w. unfold unwrap. destruct (value_ r) as [a|]; [|done]. simpl. eauto 6.
  - intros _ _. unfold unwrap. by rewrite Hr.
Qed.

Lemma wok_locks (f : LockList.lock_list -> outcome (LockList.lock_list * B)) Q c g :
  (forall t, (exists O, Good t (g ++ O)) ->
     match f (c_locks c) with
     | Ret (l, b) => Q (mkCore l (c_queue c) (c_status c)) g b
     | Hang => hang | Undef => False
     end) ->
  wok (on_locks f) Q c g.
Proof.
  intros HQ. apply (wok_core (fun c => '(l, b) ← f (c_locks c);
    Ret (mkCore l (c_queue c) (c_status c), b))).
  - intros s w. simpl. destruct (f (lock_list_ w)) as [[l b]| |]; simpl; eauto 6.
  - intros t HO. specialize (HQ t HO). by destruct (f (c_locks c)) as [[l b]| |].
Qed.
End Actions.

Lemma wok_get_status Q c g : Q c g (c_status c) -> wok get_status Q c g.
Proof.
  intros HQ. apply (wok_core (fun c => Ret (c, c_status c))); [|done].
  intros s w. eauto 6.
Qed.

Lemma wok_put_status st Q c g :
  Q (mkCore (c_locks c) (c_queue c) st) g tt -> wok (put_status st) Q c g.
Proof.
  intros HQ. apply (wok_core (fun c => Ret (mkCore (c_locks c) (c_queue c) st, tt))); [|done].
  intros s w. eauto 6.
Qed.

Lemma wok_get_timeout_cnt Q c g : (forall n, Q c g n) -> wok get_timeout_cnt Q c g.
Proof. apply wok_frame. eauto 6. Qed.
Lemma wok_put_timeout_cnt n Q c g : Q c g tt -> wok (put_timeout_cnt n) Q c g.
Proof. intros HQ. apply wok_frame; [|by intros []]. eauto 6. Qed.
Lemma wok_get_txn_id Q c g : (forall n, Q c g n) -> wok get_txn_id Q c g.
Proof. apply wok_frame. eauto 6. Qed.
Lemma wok_is_running Q c g : (forall b, Q c g b) -> wok is_running Q c g.
Proof. apply wok_frame. eauto 6. Qed.
Lemma wok_reply a p n j Q c g : Q c g tt -> wok (reply a p n j) Q c g.
Proof. intros HQ. apply wok_frame; [|by intros []]. eauto 6. Qed.
Lemma wok_job_pop Q c g : Q c g tt -> wok job_pop Q c g.
Proof.
  intros HQ. apply wok_frame; [|by intros []]. intros s w.
  destruct (Channels.pop _ _) as [T q]. eauto 6.
Qed.
Lemma wok_job_recv Q c g :
  (forall w, sane w -> front_ready w) ->
  (forall r, (is_ok r = true -> exists j, value_ r = Some j /\ Channels.job_ref j <> None) ->
     Q c g r) ->
  wok job_recv Q c g.
Proof.
  intros Hready HQ s w <- _ Hs _. specialize (Hready w Hs).
  destruct (Channels.recv _ _ _) as [[T q] r] eqn:Hr.
  split; [done|]. exists g. split; [done|]. apply HQ. unfold front_ready in Hready.
  unfold Channels.recv, Channels.front_copy, wait_for in Hr. simpl in Hr.
  destruct (Channels.empty (job_ch_ w)); simpl in Hr; [by simplify_eq|].
  destruct (Channels.jobs_ (job_ch_ w) !! _) as [j|]; [|by simplify_eq].
  specialize (Hready eq_refl j eq_refl).
  unfold Channels.job_copy in Hr. destruct (Channels.job_ref j) as [i|] eqn:Hj; [|done].
  simpl in Hr. simplify_eq. simpl. eauto.
Qed.
Lemma wok_ret_send n Q c g : Q c g tt -> wok (ret_send n) Q c g.
Proof.
  intros HQ. apply wok_frame; [|by intros []]. intros s w.
  destruct (Channels.ret_send _ _ _ _) as [[T q] r]. eauto 6.
Qed.
Lemma wok_retain r Q c g : Q c g r -> wok (retain r) Q c g.
Proof. intros HQ. apply wok_buffers. intros T. by destruct r. Qed.
Lemma wok_deref r Q c g : r <> None -> Q c g tt -> wok (deref r) Q c g.
Proof. intros Hr HQ. apply wok_frame; [|by intros []]. intros s w. destruct r; [eauto 6|done]. Qed.
Lemma wok_drop_ref r Q c g : Q c g tt -> wok (drop_ref r) Q c g.
Proof. intros HQ. by apply wok_buffers. Qed.
Lemma wok_reject a p j Q c g : Q c g tt -> wok (reject a p j) Q c g.
Proof. intros HQ. unfold reject. apply wok_bind, wok_reply, wok_job_pop, HQ. Qed.

(** A copy of the reference of a destroyed entry, which the queue still has. *)
Lemma wok_copy_expired r Q c g :
  (r = None \/ r ∈ (CommitQueue.commit_buffer_ <$> CommitQueue.commits_ (c_queue c))) ->
  Q c g r -> wok (copy_expired r) Q c g.
Proof.
  intros Hr HQ s w <- _ _ _. unfold copy_expired. rewrite bool_decide_true by exact Hr.
  destruct (BufTable.ref_copy (buffers_ (db_ s)) r) as [T r'] eqn:E.
  assert (r' = r) as -> by (destruct r; simpl in E; congruence).
  split; [done|]. by exists g.
Qed.

Lemma wok_load r Q c g :
  r <> None -> (forall u, Q c g u) -> wok (load_tuple r) Q c g.
Proof.
  intros Hr HQ. apply wok_frame; [|done]. intros s w. destruct r; [eauto 6|done].
Qed.

Lemma wok_recall {mem : expiry} x x' Q c g :
  expired x = Ret x' -> Q c g x' -> wok (recall x) Q c g.
Proof. intros Hx HQ s w <- _ _ _. unfold recall, act. rewrite Hx. split; [done|]. by exists g. Qed.

(** ** The commit queue *)

Lemma wok_commit_send k o r Q c g :
  queue_wf (c_queue c) -> Q c g QueueError_Full ->
  (forall q, queue_wf q ->
     contents q = contents (c_queue c) ++ [CommitQueue.mkCommit r k o] ->
     Q (mkCore (c_locks c) q (c_status c)) g QueueError_None) ->
  wok (commit_send k o r) Q c g.
Proof.
  intros Hwf HF HN s w <- _ _ _. unfold commit_send.
  destruct (CommitQueue.commit_make (buffers_ (db_ s)) k o r) as [T1 x] eqn:Em.
  assert (x = CommitQueue.mkCommit r k o) as ->.
  { unfold CommitQueue.commit_make in Em. destruct r; simpl in Em; congruence. }
  pose proof (send_spec T1 (commit_queue_ w) (CommitQueue.mkCommit r k o) Hwf) as Hs.
  simpl queue_send in Hs. destruct (_ <? _)%nat.
  - destruct Hs as (T2 & q' & -> & Hq & Hc). split; [done|]. exists g. split; [done|].
    by apply HN.
  - rewrite Hs. split; [done|]. exists g. split; [done|]. by destruct w.
Qed.

Lemma wok_commit_empty Q c g :
  queue_wf (c_queue c) -> Q c g (bool_decide (contents (c_queue c) = [])) ->
  wok commit_empty Q c g.
Proof.
  intros Hwf HQ. apply (wok_core (fun c => Ret (c, CommitQueue.empty (c_queue c)))).
  - intros s w. eauto 6.
  - intros _ _. by rewrite CommitQueue.commits_empty.
Qed.

Lemma wok_commit_get x rest Q c g :
  queue_wf (c_queue c) -> contents (c_queue c) = x :: rest -> Q c g (Ok x) ->
  wok commit_get Q c g.
Proof.
  intros Hwf Hc HQ s w <- _ _ _. rewrite (CommitQueue.get_front _ _ _ _ Hwf Hc). simpl.
  split; [done|]. by exists g.
Qed.

Lemma wok_commit_pop_slots x rest Q c g :
  queue_wf (c_queue c) -> contents (c_queue c) = x :: rest ->
  (forall q, queue_wf q -> contents q = rest -> CommitQueue.commits_ q = CommitQueue.commits_ (c_queue c) ->
     Q (mkCore (c_locks c) q (c_status c)) g tt) ->
  wok commit_pop Q c g.
Proof.
  intros Hwf Hc HQ s w <- _ _ _. split; [done|]. exists g. split; [done|].
  destruct (pop_spec (buffers_ (db_ s)) _ _ _ Hwf Hc) as [Hq Hr]. by apply HQ.
Qed.

Lemma wok_commit_pop x rest Q c g :
  queue_wf (c_queue c) -> contents (c_queue c) = x :: rest ->
  (forall q, queue_wf q -> contents q = rest -> Q (mkCore (c_locks c) q (c_status c)) g tt) ->
  wok commit_pop Q c g.
Proof. intros Hwf Hc HQ. apply (wok_commit_pop_slots x rest); [done..|]. auto. Qed.
End Rules.

(** [steps] runs through the actions that leave table and core alone, up to
    the first case distinction or action on the table, the locks or the
    queue. *)
Ltac step :=
  lazymatch goal with
  | |- ok _ _ _ _ _ _ _ _ (_ ≫= _) _ _ _ => apply wok_bind
  | |- ok _ _ _ _ _ _ _ _ (Done _) _ _ _ => apply wok_done
  | |- ok _ _ _ _ ?sn ?qt _ _ (reject _ _ _) _ _ _ => apply (wok_reject qt sn _)
  | |- ok _ _ _ _ ?sn ?qt _ _ (reply _ _ _ _) _ _ _ => apply (wok_reply qt sn _)
  | |- ok _ _ _ _ ?sn ?qt _ _ job_pop _ _ _ => apply (wok_job_pop qt sn _)
  | |- ok _ _ _ _ ?sn ?qt _ _ (ret_send _) _ _ _ => apply (wok_ret_send qt sn _)
  | |- ok _ _ _ _ ?sn ?qt _ _ (drop_ref _) _ _ _ => apply (wok_drop_ref qt sn _)
  | |- ok _ _ _ _ ?sn ?qt _ _ (retain _) _ _ _ => apply (wok_retain qt sn _)
  | |- ok _ _ _ _ ?sn ?qt _ _ (read_buffers _) _ _ _ => apply (wok_read_buffers qt sn _); intros ?
  | |- ok _ _ _ _ ?sn ?qt _ _ (on_buffers _) _ _ _ => apply (wok_buffers qt sn _); intros ?
  | |- ok _ _ _ _ ?sn ?qt _ _ get_status _ _ _ => apply (wok_get_status qt sn _)
  | |- ok _ _ _ _ ?sn ?qt _ _ (put_status _) _ _ _ => apply (wok_put_status qt sn _)
  | |- ok _ _ _ _ ?sn ?qt _ _ get_txn_id _ _ _ => apply (wok_get_txn_id qt sn _); intros ?
  | |- ok _ _ _ _ ?sn ?qt _ _ get_timeout_cnt _ _ _ => apply (wok_get_timeout_cnt qt sn _); intros ?
  | |- ok _ _ _ _ ?sn ?qt _ _ (put_timeout_cnt _) _ _ _ => apply (wok_put_timeout_cnt qt sn _)
  | |- ok _ _ _ _ ?sn ?qt _ _ is_running _ _ _ => apply (wok_is_running qt sn _); intros []
  end.
Ltac steps := repeat (step; cbv beta; cbn [negb]); cbn [c_locks c_queue c_status].

