(* ===== verification/Transaction.v ===== *)
(** * What a worker guarantees to the others

    The local invariant of a transaction and, for every handler of [Worker],
    what it guarantees: it keeps every other transaction's locks,
    respects the two phases, and changes records only when it commits; it runs
    into undefined behaviour only where a commit uses an entry of its queue after
    its destruction ([dangling]), and an action that does not return is one of a
    commit, too ([blocked]). *)
From S2P Require Import Prelude Params Probe UniqueKey Ring Prog Locking Worker References Every WorkerLogic.
From S2P Require StudentTuple StudentTable LockList CommitQueue Channels BufTable JobBuf.

(** ** Locks of the list as claims *)

Definition claims_of (ll : LockList.lock_list) : list claim :=
  (fun kt => (kt, None)) <$> LockList.held ll.

Lemma claims_of_elem ll k m :
  (k, m) ∈ LockList.held ll -> exists rest, claims_of ll ≡ₚ (k, m, None) :: rest.
Proof.
  intros [rest Hr]%elem_of_Permutation. exists ((fun kt => (kt, None)) <$> rest).
  unfold claims_of. by rewrite Hr.
Qed.

(** Slots never used keep the default key, so that no lock is "found" in
    one. *)
Definition unused_default (ll : LockList.lock_list) : Prop :=
  forall i e, LockList.locks_ ll !! i = Some e -> LockList.is_used_ e = false ->
  LockList.key_ e = unique_key_default.

Definition locks_ok (ll : LockList.lock_list) : Prop :=
  LockList.lock_list_wf ll /\ unused_default ll.

Lemma locks_ok_default : locks_ok LockList.lock_list_default.
Proof.
  split; [apply LockList.lock_list_default_wf|].
  intros i e Hi _. by apply lookup_replicate in Hi as [-> _].
Qed.

Lemma keeps_unused_default ll ll' :
  unused_default ll -> LockList.keeps_unused ll ll' -> unused_default ll'.
Proof. intros Hu Hk i e Hi He. eapply Hu; eauto. Qed.

Lemma locks_add ll k t :
  locks_ok ll -> exists ll' r, LockList.add_lock ll k t = Ret (ll', r) /\ locks_ok ll' /\
    ((r = LockError_None /\ LockList.held ll' ≡ₚ (k, t) :: LockList.held ll) \/
     (r <> LockError_None /\ ll' = ll)).
Proof.
  intros [Hwf Hu]. destruct (decide (LockList.size_ ll < 16)) as [Hlt|Hge].
  - destruct (LockList.add_lock_cases ll k t Hwf Hlt)
      as [(ll' & -> & ? & ? & _ & Hk)|[-> _]].
    + exists ll', LockError_None. split_and!; [done|split; [done|]|auto].
      by eapply keeps_unused_default.
    + exists ll, LockError_Conflict. split_and!; [done|by split|by right].
  - rewrite LockList.add_lock_full by lia. exists ll, LockError_Full.
    split_and!; [done|by split|by right].
Qed.

Lemma locks_get ll k :
  locks_ok ll ->
  (exists t, LockList.get_lock ll k = Ok t /\ (k, t) ∈ LockList.held ll /\
     (exists ll' rest, LockList.rm_lock ll k = Ret (ll', LockError_None) /\ locks_ok ll' /\
        LockList.held ll ≡ₚ (k, t) :: rest /\ LockList.held ll' ≡ₚ rest) /\
     (exists ll' rest, LockList.promote_lock ll k = Ret (ll', LockError_None) /\ locks_ok ll' /\
        LockList.held ll ≡ₚ (k, t) :: rest /\ LockList.held ll' ≡ₚ (k, EXCLUSIVE) :: rest)) \/
  (LockList.get_lock ll k = Err LockError_NotFound /\
   (forall t, (k, t) ∉ LockList.held ll) /\
   forall ll' r, LockList.rm_lock ll k = Ret (ll', r) -> k = unique_key_default).
Proof.
  intros [Hwf Hu]. destruct (LockList.lock_present_dec ll k Hwf) as [(i & e & Hh)|Hno].
  - left. exists (LockList.type_ e).
    destruct (LockList.get_lock_holder ll k i e Hwf Hh) as [-> ?]. split_and!; [done..| |].
    + destruct (LockList.rm_lock_holder ll k i e Hwf Hh) as (ll' & -> & ? & ? & _ & Hk).
      exists ll', (LockList.held ll'). split_and!; [done|split; [done|]|done|done].
      by eapply keeps_unused_default.
    + destruct (LockList.promote_lock_holder ll k i e Hwf Hh)
        as (ll' & rest & -> & ? & ? & ? & _ & Hk).
      exists ll', rest. split_and!; [done|split; [done|]|done|done].
      by eapply keeps_unused_default.
  - right. split; [by apply LockList.get_lock_absent|].
    split; [by intros t Hin%LockList.held_present|]. intros ll' r Hr.
    unfold LockList.rm_lock in Hr. apply outcome_bind_Ret_inv in Hr as ([l1 r1] & Hr & _).
    rewrite LockList.remove_loop in Hr.
    destruct (while_true _ _ _ _) as [x|] eqn:Hw; [|done].
    apply (grab_Some _ _ _ _ _ LockList.home_lt) in Hw as (i & e & Hi & Hh & _).
    apply andb_true_iff in Hh as [Hk%equals_spec Hd%negb_true_iff]. subst k.
    destruct (LockList.is_used_ e) eqn:Hue; [|by apply (Hu i e)].
    exfalso. apply Hno. exists i, e. split_and!; [done| |done]. unfold live. by rewrite Hue, Hd.
Qed.

(** ** The local invariant *)

(** Whoever has [g] also has [g']. *)
Definition entails (g g' : list claim) : Prop :=
  forall t O, Good t (g ++ O) -> Good t (g' ++ O).

Lemma entails_refl g : entails g g.
Proof. by intros t O. Qed.
Lemma entails_trans g1 g2 g3 : entails g1 g2 -> entails g2 g3 -> entails g1 g3.
Proof. intros H1 H2 t O H. auto. Qed.
Lemma entails_perm g g' : g ≡ₚ g' -> entails g g'.
Proof. intros H t O. by rewrite H. Qed.
Lemma entails_drop x g g' : entails g g' -> entails (x :: g) g'.
Proof. intros H t O HG. apply H. simpl in HG. by apply Good_drop in HG. Qed.
Lemma entails_unpin k m p g g' : entails g g' -> entails ((k, m, p) :: g) ((k, m, None) :: g').
Proof.
  intros H t O HG. simpl in HG. apply Good_unpin in HG.
  change (((k, m, p) :: g) ++ O) with ((k, m, p) :: g ++ O) in HG.
  assert (Hp : forall l : list claim, (k, m, None) :: l ++ O ≡ₚ l ++ (k, m, None) :: O)
    by (intros l; by rewrite Permutation_middle).
  change (((k, m, None) :: g') ++ O) with ((k, m, None) :: g' ++ O).
  rewrite Hp in HG |- *. by apply H.
Qed.

Definition is_delete (x : CommitQueue.commit) : bool :=
  bool_decide (CommitQueue.commit_op_ x = DELETE).

(** A queued deletion is of a record of the student table on which the
    transaction has no shared lock. *)
Definition delete_ok (ll : LockList.lock_list) (x : CommitQueue.commit) : Prop :=
  CommitQueue.commit_op_ x = DELETE ->
  table_id_ (CommitQueue.commit_key_ x) = 1 /\
  (CommitQueue.commit_key_ x, SHARED) ∉ LockList.held ll.

Record linv (c : core) (g : list claim) : Prop := {
  l_locks : locks_ok (c_locks c);
  l_queue : queue_wf (c_queue c);
  l_own : entails g (claims_of (c_locks c));
  l_growing : c_status c = GROWING -> contents (c_queue c) = [];
  l_delete : Forall (delete_ok (c_locks c)) (contents (c_queue c))
}.

(** Phases only move forward, and locks are acquired in the first one. *)
Definition phase_le (a b : TxnStatus) : Prop :=
  a = b \/ (a = GROWING /\ (b = SHRINKING \/ b = TXN_ABORTED)).

#[export] Instance phase_le_preorder : PreOrder phase_le.
Proof.
  split; [by left|]. intros a b c [->|[-> Hb]] [->|[-> Hc]]; try (by left); right; auto.
Qed.

Record post (c0 c : core) (g : list claim) : Prop := {
  p_inv : linv c g;
  p_phase : phase_le (c_status c0) (c_status c);
  p_held : c_status c0 <> GROWING ->
    LockList.held (c_locks c) ⊆+ LockList.held (c_locks c0)
}.

Lemma post_refl c g : linv c g -> post c c g.
Proof. intros H. split; [done|reflexivity|]. intros _. reflexivity. Qed.

Lemma post_trans c0 c1 c2 g1 g2 : post c0 c1 g1 -> post c1 c2 g2 -> post c0 c2 g2.
Proof.
  intros [_ Hp1 Hh1] [Hi Hp2 Hh2]. split; [done|by etrans|]. intros Hne.
  etrans; [apply Hh2|by apply Hh1].
  destruct Hp1 as [Heq|[Heq _]]; congruence.
Qed.

(** ** Parsed fields *)

Lemma get_raw_parsed T p w f :
  is_ok (JobBuf.get_raw T p w f) = true -> exists v, value_ (JobBuf.get_raw T p w f) = Some v.
Proof. unfold JobBuf.get_raw. destruct (JobBuf.parse_field T p w f); [eauto|done]. Qed.

Lemma get_op_parsed T p :
  is_ok (JobBuf.get_op T p) = true -> exists v, value_ (JobBuf.get_op T p) = Some v.
Proof.
  unfold JobBuf.get_op. destruct (JobBuf.parse_field T p 1 JobBuf.OP); [|done].
  destruct (_ <=? _); [done|eauto].
Qed.

(** Case distinction on a parsed field: refused, or unwrapped. *)
Ltac field :=
  match goal with
  | |- context [is_ok ?r] =>
      let E := fresh "E" in
      destruct (is_ok r) eqn:E; cbn [negb];
      [first [apply get_raw_parsed in E as [? ?] | apply get_op_parsed in E as [? ?]]|]
  end.

(** Unwrapping a result known to hold a value. *)
Ltac unwrap_value :=
  lazymatch goal with
  | H : value_ ?r = Some ?v |- ok _ _ _ _ ?sn ?qt _ _ (unwrap_ ?r) _ _ _ =>
      apply (wok_unwrap qt sn _ r v); [exact H|]
  end.
Ltac go := repeat (first [step | unwrap_value]; cbv beta; cbn [negb]); cbn [c_locks c_queue c_status].

Section Handlers.
Context (sane : Worker -> Prop) (hang : Prop) (p : JobBuf.job_buf) (j : Channels.job).

Abbreviation wok := (ok core_of view_of Good room sane unchanged hang False).
Abbreviation keeps c0 := (fun c g (_ : unit) => post c0 c g).

(** Entering the second phase. *)
Lemma enter_shrinking_ok c g (Q : core -> list claim -> unit -> Prop) :
  linv c g ->
  (forall c', linv c' g -> c_status c' <> GROWING -> c_locks c' = c_locks c ->
     phase_le (c_status c) (c_status c') -> Q c' g tt) ->
  wok enter_shrinking Q c g.
Proof.
  intros Hl HQ. unfold enter_shrinking. steps.
  destruct (decide (c_status c = GROWING)) as [Hs|Hs];
    [rewrite bool_decide_true by done|rewrite bool_decide_false by done]; steps.
  - apply HQ; [|done|done|rewrite Hs; right; by auto].
    destruct Hl. by split.
  - apply HQ; [done|done|done|reflexivity].
Qed.

Lemma post_locks c c' g : linv c' g -> c_locks c' = c_locks c ->
  phase_le (c_status c) (c_status c') -> post c c' g.
Proof. intros Hl He Hp. split; [done|done|]. intros _. by rewrite He. Qed.

(** A queued change that deletes nothing. *)
Lemma linv_enqueue c g q x :
  linv c g -> c_status c <> GROWING -> queue_wf q ->
  contents q = contents (c_queue c) ++ [x] -> delete_ok (c_locks c) x ->
  linv (mkCore (c_locks c) q (c_status c)) g.
Proof.
  intros [] Hs Hq Hc Hx. split; cbn [c_locks c_queue c_status]; try done.
  rewrite Hc. apply Forall_app. by split; [|constructor].
Qed.

Lemma process_add_ok c g : linv c g -> wok (process_add p j) (keeps c) c g.
Proof.
  intros Hl. unfold process_add. step. apply enter_shrinking_ok; [done|].
  intros c' Hl' Hs Hlocks Hp. assert (Hpost : post c c' g) by by apply post_locks.
  go. field; [|by go]. go.
  case_match; [|by go]. go.
  match goal with |- context [StudentTuple.deserialize_ ?a ?b ?d] =>
    destruct (StudentTuple.deserialize_ a b d) as [e r] end.
  destruct (is_ok r); cbn [negb]; [|by go]. go.
  apply (wok_commit_send unchanged _ _); [apply Hl'| |].
  - rewrite bool_decide_true by done. by go.
  - intros q Hq Hc. rewrite bool_decide_false by done. go. apply post_locks; [|done|done].
    eapply linv_enqueue; [done..|]. by intros [=].
Qed.

Lemma held_claim t c g O k m :
  linv c g -> Good t (g ++ O) -> (k, m) ∈ LockList.held (c_locks c) ->
  exists rest, LockList.held (c_locks c) ≡ₚ (k, m) :: rest /\
    Good t ((k, m, None) :: ((fun kt => (kt, None)) <$> rest) ++ O).
Proof.
  intros Hl HG [rest Hr]%elem_of_Permutation. exists rest. split; [done|].
  pose proof (l_own _ _ Hl _ _ HG) as HG'. clear HG. rename HG' into HG. unfold claims_of in HG. by rewrite Hr in HG.
Qed.

Lemma exclusive_only t c g O k :
  linv c g -> Good t (g ++ O) -> (k, EXCLUSIVE) ∈ LockList.held (c_locks c) ->
  table_id_ k = 1 /\ (k, SHARED) ∉ LockList.held (c_locks c).
Proof.
  intros Hl HG Hx. destruct (held_claim t c g O k EXCLUSIVE Hl HG Hx) as (rest & Hr & HG').
  split.
  - pose proof (good_placed _ _ HG') as Hp. by apply Forall_cons_1 in Hp as [[? _] _].
  - rewrite Hr. intros [[=]|Hs]%elem_of_cons.
    apply elem_of_Permutation in Hs as [rest2 Hr2]. rewrite Hr2 in HG'.
    by apply (claims_exclude t k _ _ None None) in HG' as [[=] _].
Qed.

(** The exclusive-lock check of updates and deletions. *)
Lemma check_exclusive c g k (Q : core -> list claim -> Result LockType LockError -> Prop) :
  linv c g ->
  (forall r, (value_ r = Some EXCLUSIVE -> table_id_ k = 1 /\
      (k, EXCLUSIVE) ∈ LockList.held (c_locks c) /\
      (k, SHARED) ∉ LockList.held (c_locks c)) -> Q c g r) ->
  wok (on_locks (fun l => Ret (l, LockList.get_lock l k))) Q c g.
Proof.
  intros Hl HQ. apply (wok_locks unchanged _ _). intros t (O & HO). destruct c as [ll q st].
  apply HQ. simpl. intros Hv. destruct (locks_get ll k (l_locks _ _ Hl))
    as [(m & Hg & Hin & _)|[Hg _]]; rewrite Hg in Hv; [|done].
  simpl in Hv. injection Hv as ->.
  destruct (exclusive_only t _ g O k Hl HO Hin). done.
Qed.

Lemma process_update_ok c g : linv c g -> wok (process_update p j) (keeps c) c g.
Proof.
  intros Hl. unfold process_update. step. apply enter_shrinking_ok; [done|].
  intros c' Hl' Hs Hlocks Hp. assert (Hpost : post c c' g) by by apply post_locks.
  go. field; [|by go]. go. field; [|by go]. go.
  apply check_exclusive; [done|]. intros r _. case_match; [by go|].
  case_match; [|by go]. go.
  match goal with |- context [StudentTuple.deserialize_ ?a ?b ?d] =>
    destruct (StudentTuple.deserialize_ a b d) as [e r2] end.
  destruct (is_ok r2); cbn [negb]; [|by go]. go.
  apply (wok_commit_send unchanged _ _); [apply Hl'| |].
  - rewrite bool_decide_true by done. by go.
  - intros q Hq Hc. rewrite bool_decide_false by done. go. apply post_locks; [|done|done].
    eapply linv_enqueue; [done..|]. by intros [=].
Qed.

Lemma process_rm_ok c g : linv c g -> wok (process_rm p j) (keeps c) c g.
Proof.
  intros Hl. unfold process_rm. step. apply enter_shrinking_ok; [done|].
  intros c' Hl' Hs Hlocks Hp. assert (Hpost : post c c' g) by by apply post_locks.
  go. field; [|by go]. go. field; [|by go]. go.
  apply check_exclusive; [done|]. intros r Hr.
  destruct (is_ok r); cbn [negb orb]; [|by go].
  case_bool_decide as Hv; cbn [negb]; [|by go]. go. destruct (Hr Hv) as (Hid & _ & Hns).
  apply (wok_commit_send unchanged _ _); [apply Hl'| |].
  - rewrite bool_decide_true by done. by go.
  - intros q Hq Hc. rewrite bool_decide_false by done. go. apply post_locks; [|done|done].
    eapply linv_enqueue; [done..|]. intros _. done.
Qed.

(** ** Locking handlers: the transaction is still growing. *)

(** The lock list after a release. *)
Lemma linv_locks c g ll :
  linv c g -> locks_ok ll -> c_status c = GROWING -> forall g', entails g' (claims_of ll) ->
  linv (mkCore ll (c_queue c) (c_status c)) g'.
Proof.
  intros [] Hll Hs g' He. split; cbn [c_locks c_queue c_status]; try done.
  rewrite l_growing0 by done. constructor.
Qed.

Lemma post_growing c c' g : c_status c = GROWING -> c_status c' = GROWING -> linv c' g ->
  post c c' g.
Proof. intros H H' Hl. split; [done|left; congruence|done]. Qed.

Lemma entails_claims ll rest k m g :
  entails g (claims_of ll) -> LockList.held ll ≡ₚ (k, m) :: rest ->
  entails g ((k, m, None) :: ((fun kt => (kt, None)) <$> rest)).
Proof.
  intros He Hr. eapply entails_trans; [done|]. apply entails_perm.
  unfold claims_of. by rewrite Hr.
Qed.

Lemma process_yield_ok c g : linv c g -> wok (process_yield p j) (keeps c) c g.
Proof.
  intros Hl. unfold process_yield. pose proof (post_refl c g Hl) as Hpost.
  go. case_bool_decide as Hs; cbn [negb]; [|by go].
  go. field; [|by go]. go. field; [|by go]. go.
  apply (wok_locks unchanged _ _). intros t HO. destruct c as [ll q st]. simpl in Hs.
  cbn [c_locks c_queue c_status]. set (k := mkKey _ _).
  destruct (locks_get ll k (l_locks _ _ Hl))
    as [(m & Hg & Hin & (ll' & rest & Hrm & Hll' & Hh & Hh') & _)|[Hg _]]; rewrite Hg;
    [|rewrite is_ok_Err by done; cbn [negb orb]; by go].
  rewrite is_ok_Ok. cbn [negb orb Ok value_].
  destruct m; [rewrite bool_decide_true by done|rewrite bool_decide_false by done; cbn [negb]; by go].
  cbn [negb]. go. apply (wok_locks unchanged _ _). intros _ _. cbn [c_locks]. rewrite Hrm.
  assert (He : entails g ((k, SHARED, None) :: claims_of ll')).
  { eapply entails_trans; [by eapply entails_claims; [apply Hl|]|].
    apply entails_perm. unfold claims_of. by rewrite Hh'. }
  assert (Hl' : forall g', entails g' (claims_of ll') -> post (mkCore ll q st)
      (mkCore ll' q st) g').
  { intros g' Hg'. apply post_growing; [done..|].
    by apply (linv_locks _ g ll' Hl Hll' Hs). }
  cbn [c_queue c_status]. case_match.
  - go. apply (wok_table unchanged _ _). intros t2 _ (O & HO2). pose proof (He _ _ HO2) as HG2.
    destruct (good_release t2 k SHARED None _ HG2) as (t3 & Hrel & Hun & HG3).
    simpl in Hrel. rewrite Hrel, (outcome_bind_ret t3). split; [done|]. exists (claims_of ll'). split.
    + intros O' HO'. apply HG3. exact (He _ _ HO').
    + go. apply (Hl' (claims_of ll')). intros t' O'. done.
  - go. apply (Hl' g). eapply entails_trans; [exact He|]. apply entails_drop. intros t' O'. done.
Qed.
(** A reference to a claimed record still leads to it. *)
Lemma read_record_ok i k m g c (Q : core -> list claim -> StudentTuple.StudentTuple -> Prop) :
  (forall u, StudentTuple.key_ u = tuple_key_ k -> Q c ((k, m, Some i) :: g) u) ->
  wok (read_record i) Q c ((k, m, Some i) :: g).
Proof.
  intros HQ. apply (wok_table unchanged _ _).
  intros t _ (O & HO). pose proof (good_placed _ _ HO) as Hp.
  apply Forall_cons_1 in Hp as [(_ & _ & Hpin) _].
  destruct (Hpin i eq_refl) as (e & Hi & _ & Hk).
  unfold StudentTable.search_slot. rewrite Hi.
  cbn [fmap option_fmap option_map]. split; [reflexivity|].
  exists ((k, m, Some i) :: g). split; [done|]. by apply HQ.
Qed.

(** The end of the read handlers; nothing of the table changes. *)
Lemma send_record_ok i k m g c (Q : core -> list claim -> unit -> Prop) :
  Q c ((k, m, Some i) :: g) tt -> wok (send_record p j i) Q c ((k, m, Some i) :: g).
Proof.
  intros HQ. unfold send_record. step. apply read_record_ok. intros u _. go.
  cbn [snd StudentTuple.serialize_].
  apply (wok_unwrap unchanged _ _ _ (4 + Z.of_nat StudentTuple.NAME_LENGTH + 1));
    [reflexivity|]. by go.
Qed.

Lemma linv_status c g st :
  linv c g -> st <> GROWING -> linv (mkCore (c_locks c) (c_queue c) st) g.
Proof. intros [] Hst. by split. Qed.

Lemma post_abort c g :
  linv c g -> c_status c = GROWING ->
  post c (mkCore (c_locks c) (c_queue c) TXN_ABORTED) g.
Proof.
  intros Hl Hs. split; [by apply linv_status|right; rewrite Hs; auto|]. by rewrite Hs.
Qed.

(** A granted lock that the list accepts, or refuses. *)
Lemma add_lock_ok c g k m i (Q : core -> list claim -> LockError -> Prop) :
  linv c g -> c_status c = GROWING ->
  (forall c' r, post c c' ((k, m, Some i) :: g) -> Q c' ((k, m, Some i) :: g) r) ->
  wok (on_locks (fun l => LockList.add_lock l k m)) Q c ((k, m, Some i) :: g).
Proof.
  intros Hl Hs HQ. apply (wok_locks unchanged _ _). intros _ _.
  destruct (locks_add (c_locks c) k m (l_locks _ _ Hl))
    as (ll' & r & -> & Hll' & Hcase).
  apply HQ. apply post_growing; [done..|].
  apply (linv_locks _ g ll' Hl Hll' Hs). destruct Hcase as [[-> Hh]|[_ ->]].
  - unfold claims_of. eapply entails_trans; [apply entails_unpin, (l_own _ _ Hl)|].
    apply entails_perm. unfold claims_of. by rewrite Hh.
  - apply entails_drop, Hl.
Qed.

Lemma shared_retry_ok c g fuel cnt :
  linv c g -> c_status c = GROWING -> 0 <= cnt -> 8 < cnt + Z.of_nat fuel -> cnt <= 8 ->
  wok (shared_retry fuel cnt 1 p j) (keeps c) c g.
Proof.
  intros Hl Hs. revert cnt. induction fuel as [|f IH]; intros cnt H0 Hf Hc; [lia|].
  cbn [shared_retry]. unfold MAX_TIMEOUT_RETRY. pose proof (post_refl c g Hl).
  destruct (Z.leb_spec 8 cnt); [by go|]. go; [|by go; apply post_abort].
  apply (wok_table unchanged _ _). intros t [Hroom _] (O & HO).
  destruct (StudentTable.wait_shared_ id id t) as [t' r] eqn:Hw.
  destruct (good_wait_shared t t' r (good_wf _ _ HO) Hroom Hw)
    as [[-> ->]|(i & u & -> & _ & Hun & HG)].
  - split; [reflexivity|]. exists g. split; [done|]. rewrite is_ok_Err by done.
    apply IH; lia.
  - split; [done|]. exists ((record_key (StudentTuple.key_ u), SHARED, Some i) :: g).
    split; [intros O' HO'; by apply HG|]. rewrite is_ok_Ok. cbn [negb]. step.
    apply (wok_unwrap unchanged _ _ _ i); [reflexivity|]. step.
    apply read_record_ok. intros u2 Hu2. rewrite Hu2. step. apply add_lock_ok; [done..|].
    intros c' e Hpost. step. destruct (negb _); go; by apply send_record_ok.
Qed.

Lemma exclusive_retry_ok c g fuel cnt :
  linv c g -> c_status c = GROWING -> 0 <= cnt -> 8 < cnt + Z.of_nat fuel -> cnt <= 8 ->
  wok (exclusive_retry fuel cnt 1 p j) (keeps c) c g.
Proof.
  intros Hl Hs. revert cnt. induction fuel as [|f IH]; intros cnt H0 Hf Hc; [lia|].
  cbn [exclusive_retry]. unfold MAX_TIMEOUT_RETRY. pose proof (post_refl c g Hl).
  destruct (Z.leb_spec 8 cnt); [by go|]. go; [|by go; apply post_abort].
  apply (wok_table unchanged _ _). intros t _ (O & HO).
  destruct (StudentTable.wait_exclusive_ id id t) as [t' r] eqn:Hw.
  destruct (good_wait_exclusive t t' r (good_wf _ _ HO) Hw)
    as [[-> ->]|(i & u & -> & _ & Hun & HG)].
  - split; [reflexivity|]. exists g. split; [done|]. rewrite is_ok_Err by done.
    apply IH; lia.
  - split; [done|]. exists ((record_key (StudentTuple.key_ u), EXCLUSIVE, Some i) :: g).
    split; [intros O' HO'; by apply HG|]. rewrite is_ok_Ok. cbn [negb]. step.
    apply (wok_unwrap unchanged _ _ _ i); [reflexivity|]. step.
    apply read_record_ok. intros u2 Hu2. rewrite Hu2. step. apply add_lock_ok; [done..|].
    intros c' e Hpost. destruct (negb _); go; [done|by apply send_record_ok].
Qed.

Lemma process_shared_read_ok c g : linv c g -> wok (process_shared_read p j) (keeps c) c g.
Proof.
  intros Hl. unfold process_shared_read. pose proof (post_refl c g Hl) as Hpost.
  go. case_bool_decide as Hs; cbn [negb]; [|by go].
  go. field; [|by go]. go. case_match eqn:Ht; [|by go]. apply Z.eqb_eq in Ht as ->.
  apply shared_retry_ok; [done|done|lia|vm_compute; done|lia].
Qed.

Lemma process_exclusive_read_ok c g :
  linv c g -> wok (process_exclusive_read p j) (keeps c) c g.
Proof.
  intros Hl. unfold process_exclusive_read. pose proof (post_refl c g Hl) as Hpost.
  go. case_bool_decide as Hs; cbn [negb]; [|by go].
  go. field; [|by go]. go. case_match eqn:Ht; [|by go]. apply Z.eqb_eq in Ht as ->.
  apply exclusive_retry_ok; [done|done|lia|vm_compute; done|lia].
Qed.
(** Promotion: the claim is exclusive from the moment the table says so. *)
Lemma promote_retry_ok c g rest k fuel cnt (Q : core -> list claim -> bool -> Prop) :
  linv c g -> c_status c = GROWING -> 0 <= cnt -> 8 < cnt + Z.of_nat fuel -> cnt <= 8 ->
  entails g ((k, SHARED, None) :: rest) ->
  (forall c', post c c' g -> Q c' g false) ->
  Q c ((k, EXCLUSIVE, None) :: rest) true ->
  wok (promote_retry fuel cnt (tuple_key_ k) p j) Q c g.
Proof.
  intros Hl Hs H0 Hf Hc He HF HT. revert cnt H0 Hf Hc.
  induction fuel as [|f IH]; intros cnt H0 Hf Hc; [lia|].
  cbn [promote_retry]. unfold MAX_TIMEOUT_RETRY.
  destruct (Z.leb_spec 8 cnt); [go; by apply HF, post_abort|].
  go; [|by go; apply HF, post_refl].
  apply (wok_table unchanged _ _). intros t _ (O & HO). pose proof (He _ _ HO) as HG.
  destruct (good_promote t k None _ HG)
    as (t' & r & -> & [[-> ->]|(-> & Hun & HG')]).
  - split; [reflexivity|]. exists g. split; [done|]. rewrite bool_decide_false by done.
    apply IH; lia.
  - split; [done|]. exists ((k, EXCLUSIVE, None) :: rest).
    split; [intros O' HO'; apply (HG' (rest ++ O')), (He _ _ HO')|].
    rewrite bool_decide_true by done. by go.
Qed.

Lemma process_promote_ok c g : linv c g -> wok (process_promote p j) (keeps c) c g.
Proof.
  intros Hl. unfold process_promote. pose proof (post_refl c g Hl) as Hpost.
  go. case_bool_decide as Hs; cbn [negb]; [|by go].
  go. field; [|by go]. go. field; [|by go]. go.
  apply (wok_locks unchanged _ _). intros _ _. destruct c as [ll q st]. simpl in Hs.
  cbn [c_locks c_queue c_status]. set (k := mkKey _ _).
  destruct (locks_get ll k (l_locks _ _ Hl))
    as [(m & Hg & _ & _ & (ll' & rest & Hpr & Hll' & Hh & Hh'))|[Hg _]]; rewrite Hg;
    [|rewrite is_ok_Err by done; cbn [negb orb]; by go].
  rewrite is_ok_Ok. cbn [negb orb Ok value_].
  destruct m; [rewrite bool_decide_true by done|rewrite bool_decide_false by done; cbn [negb]; by go].
  cbn [negb]. case_match; [|by go]. step.
  apply (promote_retry_ok _ g ((fun kt => (kt, None)) <$> rest) k);
    [done|done|lia|vm_compute; done|lia| | |].
  - by eapply entails_claims; [apply Hl|].
  - intros c' Hc'. by go.
  - step. apply (wok_locks unchanged _ _). intros _ _. cbn [c_locks]. rewrite Hpr.
    go. apply post_growing; [done..|]. apply (linv_locks _ g ll' Hl Hll' Hs).
    apply entails_perm. unfold claims_of. by rewrite Hh'.
Qed.
End Handlers.

(** ** Quitting *)

Section Quit.
Context (quiet : StudentTable.StudentTable -> StudentTable.StudentTable -> Prop).
Context (sane : Worker -> Prop) (hang : Prop) `{!PreOrder quiet}.
Context (quiet_unchanged : forall t t', unchanged t t' -> quiet t t').

Abbreviation wok := (ok core_of view_of Good room sane quiet hang False).

Abbreviation live_lock := (live LockList.is_used_ LockList.is_deleted_).
Abbreviation claims_at ll idx :=
  ((fun e => (LockList.key_ e, LockList.type_ e, @None nat)) <$>
     List.filter live_lock (drop idx (LockList.locks_ ll))).

(** The loop releases what the iterator still has to visit. *)
Lemma release_loop_ok ll fuel idx c (Q : core -> list claim -> unit -> Prop) :
  length (LockList.locks_ ll) = LockList.N -> (idx <= LockList.N)%nat ->
  (LockList.N < idx + fuel)%nat ->
  ((idx < LockList.N)%nat -> exists e, LockList.locks_ ll !! idx = Some e /\
     live_lock e = true) ->
  (forall g, entails g [] -> Q c g tt) ->
  forall g, entails g (claims_at ll idx) -> wok (release_loop fuel ll idx) Q c g.
Proof.
  intros Hlen Hle Hf Hlv HQ. revert idx Hle Hf Hlv.
  induction fuel as [|f IH]; intros idx Hle Hf Hlv g He; [lia|].
  cbn [release_loop]. unfold LockList.end_, LockList.deref.
  destruct (Nat.eqb_spec idx LockList.N) as [->|Hne].
  { rewrite drop_ge in He by lia. go. by apply HQ. }
  destruct (Hlv ltac:(lia)) as (e & Hi & Hl). rewrite Hi.
  destruct (LockList.advance_spec ll LockList.N (idx + 1)) as (Hnext & Hfil & Hlv');
    [done|lia..|].
  rewrite (drop_S _ e idx Hi) in He. cbn [List.filter] in He. rewrite Hl in He.
  replace (S idx) with (idx + 1)%nat in He by lia. rewrite Hfil, fmap_cons in He.
  change (LockList.advance_to_valid LockList.N ll (idx + 1)) with (LockList.next ll idx) in *.
  assert (IH' : forall g, entails g (claims_at ll (LockList.next ll idx)) ->
    wok (release_loop f ll (LockList.next ll idx)) Q c g).
  { intros g' Hg'. apply IH; [apply Hnext|lia|exact Hlv'|done]. }
  unfold disassemble_, LockList.key. step. destruct (_ =? _).
  - apply (wok_table quiet _ _). intros t _ (O & HO). pose proof (He _ _ HO) as HG.
    destruct (good_release t _ _ _ _ HG) as (t' & -> & Hun & HG').
    rewrite (outcome_bind_ret t'). split; [by apply quiet_unchanged|].
    exists (claims_at ll (LockList.next ll idx)).
    split; [intros O' HO'; apply HG', (He _ _ HO')|]. apply IH'. by intros t2 O'.
  - step. apply IH'. eapply entails_trans; [exact He|]. apply entails_drop. by intros t2 O'.
Qed.

Lemma held_filter ll :
  claims_of ll = (fun e => (LockList.key_ e, LockList.type_ e, @None nat)) <$>
    List.filter live_lock (LockList.locks_ ll).
Proof. unfold claims_of, LockList.held. rewrite omap_if, <- list_fmap_compose. done. Qed.

Lemma release_all_locks_ok c g (Q : core -> list claim -> unit -> Prop) :
  locks_ok (c_locks c) -> entails g (claims_of (c_locks c)) ->
  (forall g, entails g [] -> Q (mkCore (LockList.clear (c_locks c)) (c_queue c) (c_status c)) g tt) ->
  wok release_all_locks Q c g.
Proof.
  intros [Hwf _] He HQ. destruct c as [ll q st]. simpl in Hwf, He.
  pose proof (LockList.wf_length _ Hwf) as Hlen.
  unfold release_all_locks. step. apply (wok_locks quiet _ _). intros _ _. step.
  destruct (LockList.advance_spec ll LockList.N 0) as (Hnext & Hfil & Hlv); [done|lia..|].
  unfold LockList.begin. apply release_loop_ok.
  - done.
  - apply Hnext.
  - lia.
  - exact Hlv.
  - intros g' Hg'. apply (wok_locks quiet _ _). intros _ _. by apply HQ.
  - cbn [c_locks]. rewrite <- Hfil, drop_0, <- held_filter. exact He.
Qed.

Lemma clear_commit_queue_ok fuel c g (Q : core -> list claim -> unit -> Prop) :
  queue_wf (c_queue c) -> (length (contents (c_queue c)) < fuel)%nat ->
  (forall q, queue_wf q -> contents q = [] -> Q (mkCore (c_locks c) q (c_status c)) g tt) ->
  wok (clear_commit_queue fuel) Q c g.
Proof.
  revert c. induction fuel as [|f IH]; intros [ll q st] Hwf Hlt HQ; [lia|].
  cbn [clear_commit_queue c_queue c_locks c_status] in *. step.
  apply (wok_commit_empty quiet _ _); [done|]. cbn [c_queue].
  destruct (contents q) as [|x rest] eqn:Hc.
  - rewrite bool_decide_true by done. step. by apply HQ.
  - rewrite bool_decide_false by done. step.
    apply (wok_commit_get quiet _ _ x rest); [done..|]. step.
    apply (wok_unwrap quiet _ _ _ x); [done|]. step.
    apply (wok_commit_pop quiet _ _ x rest); [done..|]. intros q' Hq' Hc'. cbn [c_locks c_status].
    go. apply IH; cbn [c_queue c_locks c_status]; [done|rewrite Hc'; simpl in Hlt; lia|done].
Qed.

Lemma queue_fits (q : CommitQueue.commit_queue) :
  queue_wf q -> (length (contents q) < QUEUE_FUEL)%nat.
Proof.
  intros Hwf. pose proof (ring_items_length CommitQueue.N _ _ _ _ Hwf) as Hl.
  pose proof (ring_size _ _ _ _ _ Hwf).
  unfold QUEUE_FUEL. simpl contents. lia.
Qed.

Lemma worker_quit_ok c g (Q : core -> list claim -> unit -> Prop) :
  linv c g -> (forall c' g', LockList.held (c_locks c') = [] ->
    contents (c_queue c') = [] -> phase_le (c_status c) (c_status c') -> Q c' g' tt) ->
  wok worker_quit Q c g.
Proof.
  intros Hl HQ. unfold worker_quit. step.
  apply release_all_locks_ok; [apply Hl..|]. intros g' _. step.
  apply clear_commit_queue_ok; [apply Hl|apply queue_fits, Hl|].
  intros q Hq Hc. go. apply HQ; [|done|reflexivity]. cbn [c_locks].
  apply LockList.clear_wf, LockList.wf_length, (l_locks _ _ Hl).
Qed.
End Quit.

(** ** Committing

    Only a commit changes records.  It can hang: an insertion waits for room,
    and an update of a record that is gone never returns.  And it can run into
    undefined behaviour: where it reads the entry that is already destroyed,
    and where it reads through the null reference that such an entry has. *)

Definition anything (t t' : StudentTable.StudentTable) : Prop := True.

#[export] Instance anything_preorder : PreOrder anything.
Proof. by split. Qed.

(** The next action waits for room in a full table, looks for a record that is
    in none of the table's slots, or for a lock that the list [ll] does not
    hold. *)
Inductive blocked {A} (t : StudentTable.StudentTable) (ll : LockList.lock_list) : wprog A -> Prop :=
  | blocked_insert u (k : unit -> wprog A) :
      StudentTable.full_ t = true ->
      blocked t ll (on_table (fun t => '(t', _) ← StudentTable.insert_ id t u; Ret (t', tt)) ≫= k)
  | blocked_write u (k : unit -> wprog A) :
      (forall i e, ~ StudentTable.table_holder (StudentTable.table_ t) (StudentTuple.key_ u) i e) ->
      blocked t ll (on_table (fun t => '(t', _) ← StudentTable.write_ t u; Ret (t', tt)) ≫= k)
  | blocked_unlock x (k : LockError -> wprog A) :
      (forall m, (x, m) ∉ LockList.held ll) ->
      blocked t ll (on_locks (fun l => LockList.rm_lock l x) ≫= k).

(** The next action reads what is left of a destroyed entry. *)
Inductive dangling {A} : expiry -> wprog A -> Prop :=
  | dangling_entry x (k : CommitQueue.commit -> wprog A) :
      dangling Undefined (recall (mem := Undefined) x ≫= k)
  | dangling_buffer (k : StudentTuple.StudentTuple -> wprog A) :
      dangling Cleared (load_tuple None ≫= k).

Lemma dangling_lost {A} m (p : wprog A) : dangling m p -> m <> Retained.
Proof. by intros []. Qed.

Lemma blocked_bind {A B} t ll (p : wprog A) (h : A -> wprog B) :
  blocked t ll p -> blocked t ll (p ≫= h).
Proof.
  intros [u k Hf|u k Hn|x k Hn].
  - exact (blocked_insert t ll u (fun b => bind (k b) h) Hf).
  - exact (blocked_write t ll u (fun b => bind (k b) h) Hn).
  - exact (blocked_unlock t ll x (fun b => bind (k b) h) Hn).
Qed.

Lemma dangling_bind {A B} m (p : wprog A) (h : A -> wprog B) : dangling m p -> dangling m (p ≫= h).
Proof.
  intros [x k|k].
  - exact (dangling_entry x (fun b => bind (k b) h)).
  - exact (dangling_buffer (fun b => bind (k b) h)).
Qed.

Lemma rm_lock_defined ll k : LockList.rm_lock ll k <> Undef.
Proof.
  unfold LockList.rm_lock. rewrite LockList.remove_loop. by destruct (while_true _ _ _ _) as [[]|].
Qed.

(** As [ok], for programs that may carry out a commit: where they hang they are
    [blocked], and where they run into undefined behaviour they are [dangling],
    provided ([full]) that the changes in the queue come with their buffers. *)
Section Ends.
Context (sane : Worker -> Prop) {mem : expiry} (full : Prop).

Fixpoint cok {A} (p : wprog A) (Q : core -> list claim -> A -> Prop) (c : core) (g : list claim) : Prop :=
  match p with
  | Done a => Q c g a
  | Act f k =>
      forall s w, core_of w = c -> room (view_of s) -> sane w -> (exists O, Good (view_of s) (g ++ O)) ->
      match f s w with
      | Ret (s', w', b) =>
          exists g', (forall O, Good (view_of s) (g ++ O) -> Good (view_of s') (g' ++ O)) /\
            cok (k b) Q (core_of w') g'
      | Hang => blocked (view_of s) (lock_list_ w) p
      | Undef => full -> dangling mem p
      end
  end.

Abbreviation sok := (ok core_of view_of Good room sane anything False False).

(** What neither hangs nor is undefined, and then the rest. *)
Lemma cok_sok {A B} (p : wprog A) (h : A -> wprog B) (Q : core -> list claim -> B -> Prop) c g :
  sok p (fun c g a => cok (h a) Q c g) c g -> cok (p ≫= h) Q c g.
Proof.
  intros H. change (cok (bind p h) Q c g). revert c g H.
  induction p as [a|D f k IH]; intros c g H; simpl in *; [done|].
  intros s w Hc Hr Hw HO. specialize (H s w Hc Hr Hw HO).
  destruct (f s w) as [[[s' w'] b]| |]; [|done..]. destruct H as (_ & g' & Hg & Hk). eauto.
Qed.

Lemma cok_all {A} (p : wprog A) (Q : core -> list claim -> A -> Prop) c g : sok p Q c g -> cok p Q c g.
Proof.
  revert c g. induction p as [a|D f k IH]; intros c g H; simpl in *; [done|].
  intros s w Hc Hr Hw HO. specialize (H s w Hc Hr Hw HO).
  destruct (f s w) as [[[s' w'] b]| |]; [|done..]. destruct H as (_ & g' & Hg & Hk). eauto.
Qed.

Lemma cok_bind {A B} (p : wprog A) (h : A -> wprog B) (Q : core -> list claim -> B -> Prop) c g :
  cok p (fun c g a => cok (h a) Q c g) c g -> cok (p ≫= h) Q c g.
Proof.
  intros H. change (cok (bind p h) Q c g). revert c g H.
  induction p as [a|D f k IH]; intros c g H; simpl in *; [done|].
  intros s w Hc Hr Hw HO. specialize (H s w Hc Hr Hw HO).
  destruct (f s w) as [[[s' w'] b]| |].
  - destruct H as (g' & Hg & Hk). eauto.
  - exact (blocked_bind _ _ _ h H).
  - intros Hf. exact (dangling_bind _ _ h (H Hf)).
Qed.

Lemma cok_mono {A} (p : wprog A) (Q Q' : core -> list claim -> A -> Prop) c g :
  (forall c g a, Q c g a -> Q' c g a) -> cok p Q c g -> cok p Q' c g.
Proof.
  intros HQ. revert c g. induction p as [a|D f k IH]; intros c g H; simpl in *; [auto|].
  intros s w Hc Hr Hw HO. specialize (H s w Hc Hr Hw HO).
  destruct (f s w) as [[[s' w'] b]| |]; [|done..]. destruct H as (g' & Hg & Hk). eauto.
Qed.

(** The logic of [Prog], which does not say where a program stops. *)
Lemma cok_ok {A} (p : wprog A) (Q : core -> list claim -> A -> Prop) c g :
  cok p Q c g -> ok core_of view_of Good room sane anything True True p Q c g.
Proof.
  revert c g. induction p as [a|D f k IH]; intros c g H; simpl in *; [done|].
  intros s w Hc Hr Hw HO. specialize (H s w Hc Hr Hw HO).
  destruct (f s w) as [[[s' w'] b]| |]; [|done..]. destruct H as (g' & Hg & Hk). split; [done|]. eauto.
Qed.
End Ends.

Section Commit.
Context (sane : Worker -> Prop) {mem : expiry} (full : Prop).
Abbreviation cok := (cok sane full).
Abbreviation sok := (ok core_of view_of Good room sane anything False False).

Lemma insert_keeps u t t' b H :
  room t -> Good t H -> StudentTable.insert_ id t u = Ret (t', b) ->
  forall H', Good t H' -> Good t' H'.
Proof.
  intros [_ Hk] HG E. destruct (StudentTable.full_ t) eqn:Hf.
  - rewrite StudentTable.insert_wait, Hf in E. unfold id in E. by rewrite Hf in E.
  - destruct (good_insert t u H HG Hf Hk) as (t2 & i & E2 & HG2).
    rewrite E2 in E. injection E as <- _. exact HG2.
Qed.

(** The insertion of a new record. *)
Lemma cok_insert u (Q : core -> list claim -> unit -> Prop) c g :
  Q c g tt -> cok (on_table (fun t => '(t', _) ← StudentTable.insert_ id t u; Ret (t', tt))) Q c g.
Proof.
  intros HQ s w <- Hr _ (O & HO). unfold view_of in *.
  destruct (StudentTable.full_ (students_ (db_ s))) eqn:Hf.
  - rewrite StudentTable.insert_wait, Hf. unfold id at 1. rewrite Hf. cbn [mbind outcome_bind].
    by apply (blocked_insert _ _ u (fun b => Done b)).
  - destruct Hr as [Hr Hk]. destruct (good_insert _ u _ HO Hf Hk) as (t2 & i & E & HG).
    rewrite E. cbn [mbind outcome_bind]. exists g. split; [|done]. intros O' HO'. by apply HG.
Qed.

(** The replacement of a record. *)
Lemma cok_write u (Q : core -> list claim -> unit -> Prop) c g :
  Q c g tt -> cok (on_table (fun t => '(t', _) ← StudentTable.write_ t u; Ret (t', tt))) Q c g.
Proof.
  intros HQ s w <- Hr _ (O & HO). unfold view_of in *.
  destruct (StudentTable.write_ (students_ (db_ s)) u) as [[t' b]| |] eqn:E; cbn [mbind outcome_bind].
  - exists g. split; [|done]. intros O' HO'. by eapply good_write.
  - apply (blocked_write _ _ u (fun b => Done b)). intros i e Hh.
    destruct (StudentTable.write_holder _ u i e (good_wf _ _ HO) Hh) as (t2 & rest & E2 & _). congruence.
  - unfold StudentTable.write_, StudentTable.locate in E. by destruct (while_true _ _ _ _).
Qed.

(** The release of the lock on a deleted record. *)
Lemma cok_rm_lock k (Q : core -> list claim -> LockError -> Prop) c g :
  locks_ok (c_locks c) -> k <> unique_key_default ->
  (forall m ll' rest, LockList.held (c_locks c) ≡ₚ (k, m) :: rest -> LockList.held ll' ≡ₚ rest -> locks_ok ll' ->
     Q (mkCore ll' (c_queue c) (c_status c)) g LockError_None) ->
  cok (on_locks (fun l => LockList.rm_lock l k)) Q c g.
Proof.
  intros Hl Hk HQ s w <- _ _ HO. cbn [core_of c_locks c_queue c_status] in *.
  destruct (locks_get _ k Hl) as [(m & _ & _ & (ll' & rest & -> & Hll & Hh & Hh') & _)|(_ & Hno & Hd)].
  - cbn [mbind outcome_bind]. exists g. split; [done|]. by apply (HQ m ll' rest).
  - pose proof (rm_lock_defined (lock_list_ w) k) as Hu.
    destruct (LockList.rm_lock (lock_list_ w) k) as [[l r]| |]; [by destruct (Hk (Hd _ _ eq_refl))| |done].
    cbn [mbind outcome_bind]. by apply (blocked_unlock _ _ k (fun b => Done b)).
Qed.

(** A record is read from the buffer of an entry of the queue. *)
Lemma cok_load r (Q : core -> list claim -> StudentTuple.StudentTuple -> Prop) c g :
  (full -> r = None -> mem = Cleared) -> (forall u, Q c g u) -> cok (load_tuple r) Q c g.
Proof.
  intros Hr HQ s w <- _ _ HO. destruct r as [i|]; cbn.
  { exists g. split; [done|]. apply HQ. }
  intros Hf. rewrite (Hr Hf eq_refl). apply (dangling_buffer (fun b => Done b)).
Qed.

Lemma cok_recall x (Q : core -> list claim -> CommitQueue.commit -> Prop) c g :
  (forall x', expired x = Ret x' -> Q c g x') -> cok (recall x) Q c g.
Proof.
  intros HQ s w <- _ _ HO. unfold recall, act. destruct mem; cbn [expired mbind outcome_bind].
  - intros _. apply (dangling_entry x (fun b => Done b)).
  - exists g. split; [done|]. by apply HQ.
  - exists g. split; [done|]. by apply HQ.
Qed.

(** Dropping a claim from the lock list keeps the deletions valid. *)
Lemma linv_release c g ll k m g' :
  linv c g -> locks_ok ll -> LockList.held (c_locks c) ≡ₚ (k, m) :: LockList.held ll ->
  c_status c <> GROWING -> entails g' (claims_of ll) ->
  linv (mkCore ll (c_queue c) (c_status c)) g'.
Proof.
  intros [] Hll Hh Hs He. split; cbn [c_locks c_queue c_status]; try done.
  eapply Forall_impl; [|exact l_delete0]. intros x Hx Hop.
  destruct (Hx Hop) as [? Hno]. split; [done|]. intros Hin. apply Hno. rewrite Hh. set_solver.
Qed.

(** What the code sees of an entry it has destroyed. *)
Lemma expired_entry x x' :
  expired x = Ret x' ->
  CommitQueue.commit_key_ x' = CommitQueue.commit_key_ x /\ CommitQueue.commit_op_ x' = CommitQueue.commit_op_ x /\
  (CommitQueue.commit_buffer_ x' = CommitQueue.commit_buffer_ x \/
   mem = Cleared /\ CommitQueue.commit_buffer_ x' = None).
Proof. unfold expired. destruct mem; intros [= <-]; auto. Qed.

(** The record of an addition or an update. *)
Lemma cok_copy_load c g x x' rest (h : StudentTuple.StudentTuple -> wprog unit) (b : bool)
    (Q : core -> list claim -> unit -> Prop) :
  contents (c_queue c) = x :: rest -> (full -> stocked (c_queue c)) -> expired x = Ret x' ->
  CommitQueue.commit_op_ x' = ADD_TUPLE \/ CommitQueue.commit_op_ x' = UPDATE ->
  (forall u, cok (h u) Q c g) -> Q c g tt ->
  (forall c' g' r, Q c' g' tt -> cok (drop_ref r) Q c' g') ->
  cok (buffer_ref ← copy_expired (CommitQueue.commit_buffer_ x');
       (if b then load_tuple buffer_ref ≫= h else Done tt) ≫= fun _ => drop_ref buffer_ref) Q c g.
Proof.
  intros Hc Hfull Hx Hop Hh HQ Hdrop.
  assert (Hin : x ∈ CommitQueue.commits_ (c_queue c)) by (apply queued_slot; rewrite Hc; left).
  destruct (expired_entry _ _ Hx) as (_ & Ho & Hb). rewrite Ho in Hop.
  apply cok_sok, (wok_copy_expired anything _ _).
  { destruct Hb as [->|[_ ->]]; [right|by left]. by apply list_elem_of_fmap_2. }
  apply cok_bind. apply (cok_mono _ _ _ Q); [intros c' g' [] HQ'; by apply Hdrop|].
  destruct b; [|exact HQ]. apply cok_bind, cok_load; [|apply Hh].
  intros Hf Hnone. destruct Hb as [Hb|[? _]]; [|done].
  exfalso. apply (proj1 (list.Forall_forall _ _) (Hfull Hf) x Hin Hop). congruence.
Qed.

Lemma commit_entry_cok c g x x' rest :
  linv c g -> c_status c <> GROWING -> contents (c_queue c) = x :: rest ->
  (full -> stocked (c_queue c)) -> expired x = Ret x' ->
  cok (commit_entry x') (fun c' g' _ => post c c' g' /\ c_queue c' = c_queue c) c g.
Proof.
  intros Hl Hs Hc Hfull Hx. pose proof (post_refl c g Hl) as Hpost.
  destruct (expired_entry _ _ Hx) as (Hkey & Ho & _).
  assert (Hdrop : forall c' g' r, post c c' g' /\ c_queue c' = c_queue c ->
    cok (drop_ref r) (fun c' g' _ => post c c' g' /\ c_queue c' = c_queue c) c' g').
  { intros c' g' r H. by apply cok_all, (wok_drop_ref anything _ _). }
  unfold commit_entry.
  destruct (CommitQueue.commit_op_ x') eqn:Hop; unfold disassemble_; try (by split).
  - eapply cok_copy_load; [done|done|done|by left| |done|exact Hdrop]. intros u. by apply cok_insert.
  - eapply cok_copy_load; [done|done|done|by right| |done|exact Hdrop]. intros u. by apply cok_write.
  - pose proof (l_delete _ _ Hl) as Hd. rewrite Hc in Hd. apply Forall_cons_1 in Hd as [Hd _].
    destruct (Hd ltac:(congruence)) as [Hid Hns]. rewrite <- Hkey in Hid, Hns.
    set (k := CommitQueue.commit_key_ x') in *. apply cok_bind, cok_rm_lock; [apply Hl| |].
    { intros E. rewrite E in Hid. discriminate Hid. }
    intros m ll' rest' Hh Hh' Hll'.
    assert (m = EXCLUSIVE) as -> by (destruct m; [|done]; destruct Hns; rewrite Hh; left).
    rewrite <- Hh' in Hh. rewrite Hid. cbn [Z.eqb tbl_id_StudentTable Pos.eqb]. apply cok_all.
    apply (wok_table anything _ _). intros t _ (O & HO).
    assert (He : entails g ((k, EXCLUSIVE, None) :: claims_of ll')).
    { eapply entails_trans; [by eapply entails_claims; [apply Hl|]|].
      by apply entails_perm. }
    destruct (good_remove t k None _ (He _ _ HO)) as (t' & -> & HG').
    rewrite (outcome_bind_ret (t', StudentTableError_None)). split; [done|].
    exists (claims_of ll'). split; [intros O' HO'; apply HG', (He _ _ HO')|].
    split; [|done]. split; [|reflexivity|].
    + eapply linv_release; [done..|]. by intros t2 O'.
    + intros _. cbn [c_locks]. rewrite Hh. by apply submseteq_cons.
Qed.

(** An entry is taken out of the queue. *)
Lemma post_pop c0 c g q x rest :
  post c0 c g -> contents (c_queue c) = x :: rest -> c_status c0 <> GROWING ->
  queue_wf q -> contents q = rest -> post c0 (mkCore (c_locks c) q (c_status c)) g.
Proof.
  intros [[] Hph Hh] Hc Hs Hq Hqc. split; [|done..]. split; cbn [c_locks c_queue c_status]; try done.
  - intros Hg. exfalso. apply Hs. destruct Hph as [?|[? _]]; congruence.
  - rewrite Hc in l_delete0. rewrite Hqc. by apply Forall_cons_1 in l_delete0 as [].
Qed.

Lemma commit_loop_cok fuel c g :
  linv c g -> c_status c <> GROWING -> (length (contents (c_queue c)) < fuel)%nat ->
  (full -> stocked (c_queue c)) ->
  cok (commit_loop fuel) (fun c' g' _ => post c c' g' /\ (full -> stocked (c_queue c'))) c g.
Proof.
  revert c g. induction fuel as [|f IH]; intros c g Hl Hs Hlt Hfull; [lia|].
  cbn [commit_loop]. apply cok_sok, (wok_commit_empty anything _ _); [apply Hl|].
  destruct (contents (c_queue c)) as [|x rest] eqn:Hc.
  - rewrite bool_decide_true by done. split; [by apply post_refl|done].
  - rewrite bool_decide_false by done.
    apply cok_sok, (wok_commit_get anything _ _ x rest); [apply Hl|done|].
    apply cok_sok, (wok_unwrap anything _ _ _ x); [done|].
    apply cok_sok, (wok_drop_ref anything _ _).
    apply cok_bind, cok_recall. intros x' Hx. apply cok_bind.
    eapply cok_mono; [|by eapply commit_entry_cok].
    intros c1 g1 [] [Hp1 Hq1]. rewrite <- Hq1 in Hc, Hfull.
    apply cok_sok, (wok_commit_pop_slots anything _ _ x rest); [apply Hp1|done|].
    intros q Hq Hqc Hslots.
    pose proof (post_pop c c1 g1 q x rest Hp1 Hc Hs Hq Hqc) as Hp2.
    eapply cok_mono; [|apply IH; [apply Hp2| |cbn [c_queue]; rewrite Hqc; simpl in Hlt; lia|]].
    + intros c3 g3 [] [Hp3 Hr3]. split; [by eapply post_trans|done].
    + pose proof (p_phase _ _ _ Hp2) as [?|[? _]]; congruence.
    + unfold stocked. cbn [c_queue]. by rewrite Hslots.
Qed.

Lemma process_commit_cok p j c g :
  linv c g -> (full -> stocked (c_queue c)) ->
  cok (process_commit p j) (fun c' g' _ => post c c' g' /\ (full -> stocked (c_queue c'))) c g.
Proof.
  intros Hl Hfull. unfold process_commit. pose proof (post_refl c g Hl).
  apply cok_sok, (wok_get_status anything _ _).
  destruct (decide (c_status c = SHRINKING)) as [Hs|Hs];
    [rewrite bool_decide_true by done|rewrite bool_decide_false by done]; cbn [negb].
  - apply cok_bind.
    eapply cok_mono; [|apply commit_loop_cok; [done|congruence|apply queue_fits, Hl|done]].
    intros c' g' [] Hp. apply cok_all. by go.
  - apply cok_all. by go.
Qed.
End Commit.

(** ** One request, one turn *)

(** What holds after a turn of the main loop: the worker goes on, with its
    invariant, or has quit and holds nothing. *)
Definition turn_post (c c' : core) (g : list claim) (quit : bool) : Prop :=
  phase_le (c_status c) (c_status c') /\
  if quit then LockList.held (c_locks c') = [] /\ contents (c_queue c') = []
  else post c c' g.

Lemma post_turn c c' g : post c c' g -> turn_post c c' g false.
Proof. intros Hp. split; [apply Hp|done]. Qed.

Lemma turn_trans c0 c1 c2 g1 g2 quit :
  post c0 c1 g1 -> turn_post c1 c2 g2 quit -> turn_post c0 c2 g2 quit.
Proof.
  intros Hp [Hph Hq]. split; [etrans; [apply Hp|done]|].
  destruct quit; [done|by eapply post_trans].
Qed.

Section Turn.
Context {mem : expiry} (sane : Worker -> Prop) (p : JobBuf.job_buf) (j : Channels.job).

(** Every operation but a commit returns and leaves the records alone. *)
Lemma dispatch_quiet op c g :
  op <> COMMIT_TXN -> linv c g ->
  ok core_of view_of Good room sane unchanged False False (dispatch op p j) (turn_post c) c g.
Proof.
  intros Hop Hl. pose proof (post_turn c c g (post_refl c g Hl)) as Hpost.
  assert (Hh : forall pr : wprog unit,
    ok core_of view_of Good room sane unchanged False False pr (fun c' g' _ => post c c' g') c g ->
    ok core_of view_of Good room sane unchanged False False (pr ≫= fun _ => Done false)
      (turn_post c) c g).
  { intros pr Hpr. step. eapply ok_mono; [|exact Hpr]. intros c' g' [] Hp. step.
    by apply post_turn. }
  destruct op; cbn [dispatch]; try done; try (by go).
  - by apply Hh, (process_add_ok _ False).
  - by apply Hh, (process_shared_read_ok _ False).
  - by apply Hh, (process_exclusive_read_ok _ False).
  - by apply Hh, (process_yield_ok _ False).
  - by apply Hh, (process_promote_ok _ False).
  - by apply Hh, (process_update_ok _ False).
  - by apply Hh, (process_rm_ok _ False).
  - go. apply (worker_quit_ok unchanged _ _); [done..|].
    intros c' g' Hnil Hq Hp. go. by split.
Qed.

End Turn.

(** The queue is still stocked with buffers after a program that only stocks it. *)
Lemma ok_stocks {A} sane (full : Prop) (p : wprog A) (Q : core -> list claim -> A -> Prop) c g :
  (full -> every stocks p) -> (full -> stocked (c_queue c)) ->
  ok core_of view_of Good room sane anything False False p Q c g ->
  ok core_of view_of Good room sane anything False False p
    (fun c g a => Q c g a /\ (full -> stocked (c_queue c))) c g.
Proof.
  revert c g. induction p as [a|B f k IH]; intros c g Hp Hr H; [by split|].
  intros s w Hc Hroom Hw HO. specialize (H s w Hc Hroom Hw HO).
  destruct (f s w) as [[[s' w'] b]| |] eqn:E; [|done..]. destruct H as (Hq & g' & Hg & Hk).
  split; [done|]. exists g'. split; [done|]. apply IH; [intros Hf; by apply (Hp Hf)| |done].
  intros Hf. apply (proj1 (Hp Hf) s w s' w' b E). rewrite <- Hc in Hr. by apply Hr.
Qed.

Section Iteration.
Context {mem : expiry} (sane : Worker -> Prop) (full : Prop).
Abbreviation cok := (cok sane full).
Abbreviation sok := (ok core_of view_of Good room sane anything False False).

(** What holds after a turn, the buffers of the queue included. *)
Definition turn_end (c c' : core) (g : list claim) (quit : bool) : Prop :=
  turn_post c c' g quit /\ (full -> stocked (c_queue c')).

Lemma sok_quit c0 c g (Q : core -> list claim -> unit -> Prop) :
  post c0 c g -> (full -> stocked (c_queue c)) ->
  (forall c' g', turn_end c0 c' g' true -> Q c' g' tt) -> sok worker_quit Q c g.
Proof.
  intros Hp Hr HQ.
  apply (ok_mono core_of view_of Good room sane anything False False worker_quit
    (fun c' g' u => turn_post c0 c' g' true /\ (full -> stocked (c_queue c')))).
  - intros c' g' []. apply HQ.
  - apply ok_stocks; [intros _; apply stocks_quit|exact Hr|].
    apply (worker_quit_ok anything _ _); [done|apply Hp|].
    intros c' g' Hh Hq Hph. by eapply turn_trans; [|split].
Qed.

Lemma dispatch_cok op p j c g :
  linv c g -> (full -> stocked (c_queue c)) -> (full -> Channels.job_ref j <> None) ->
  cok (dispatch op p j) (turn_end c) c g.
Proof.
  intros Hl Hr Hj. destruct (decide (op = COMMIT_TXN)) as [->|Hop].
  - apply cok_bind. eapply cok_mono; [|by apply process_commit_cok].
    intros c1 g1 [] [Hp Hr1]. apply cok_all, wok_bind. eapply sok_quit; [done..|]. done.
  - apply cok_all, ok_stocks; [|done|by eapply ok_weaken; [..|apply dispatch_quiet]].
    intros Hf. pose proof (stocks_gathering j (Hj Hf)) as HG.
    destruct (leaves op) eqn:Hlv; [|by apply every_dispatch].
    destruct op; try discriminate; [done|]. cbn [dispatch]. walk.
Qed.

Lemma handle_cok r c g :
  linv c g -> (full -> stocked (c_queue c)) -> Channels.job_ref r <> None ->
  cok (handle r) (turn_end c) c g.
Proof.
  intros Hl Hr Hj. unfold handle. apply cok_sok. go. apply cok_sok. go.
  apply cok_sok, (wok_deref anything _ _); [done|]. apply cok_sok. go.
  pose proof (conj (post_turn c c g (post_refl c g Hl)) Hr : turn_end c c g false) as Hpost.
  apply cok_bind. field.
  - apply cok_sok, (wok_unwrap anything _ _ _ x); [done|].
    eapply cok_mono; [|by apply dispatch_cok]. intros c' g' quit Hq. apply cok_all. by go.
  - apply cok_all. go. apply cok_all. by go.
Qed.

Lemma iteration_cok c g :
  (forall w, sane w -> front_ready w) -> linv c g -> (full -> stocked (c_queue c)) ->
  cok iteration (turn_end c) c g.
Proof.
  intros Hsane Hl Hr. unfold iteration.
  pose proof (conj (post_turn c c g (post_refl c g Hl)) Hr : turn_end c c g false) as Hpost.
  assert (Hquit : forall Q, (forall c' g', turn_end c c' g' true -> Q c' g' tt) -> sok worker_quit Q c g).
  { intros Q. apply sok_quit; [by apply post_refl|done]. }
  apply cok_sok. go; [|apply cok_all; step; apply Hquit; intros; by go].
  apply cok_sok, (wok_job_recv anything _ _); [done|]. intros r Hj.
  destruct (is_ok r); cbn [negb]; [|apply cok_all; by go].
  destruct (Hj eq_refl) as (jb & Hjb & Hn). apply cok_sok. go. apply cok_sok. go.
  destruct (MAX_TIMEOUT_RETRY <=? _).
  - apply cok_all. go. apply Hquit. intros. by go.
  - apply cok_sok, (wok_unwrap anything _ _ _ jb); [done|]. by apply handle_cok.
Qed.
End Iteration.

(** A new worker. *)
Lemma linv_start r ch id : linv (core_of (worker_make r ch id)) [].
Proof.
  split; simpl.
  - apply locks_ok_default.
  - apply CommitQueue.commit_queue_default_wf.
  - by intros t O.
  - done.
  - constructor.
Qed.
