(* ===== verification/Requests.v ===== *)
(** * What requests do to the database

    The abstract database is the bag of records with their lock words, the
    next key, and the locks the transaction holds; [apply_log] applies a list
    of queued changes to it, oldest first.  [process_commit], run while no
    other thread is active, implements [apply_log] if the entries of the queue
    can be read after their destruction, and is undefined at the first that
    cannot.  Every other request
    leaves the records alone, whatever other threads do meanwhile. *)
From S2P Require Import Prelude Params Probe BufTable UniqueKey Ring Prog Locking Worker.
From S2P Require Import References Every WorkerLogic Transaction.
From S2P Require Bytes StudentTuple StudentTable LockList CommitQueue Channels JobBuf.

(** ** The abstract database *)

Record adb := mkAdb {
  a_records : list (StudentTuple.StudentTuple * Z);
  a_next : Z;
  a_locks : list (unique_key * LockType)
}.

Definition a_keys (a : adb) : list Z := (fun r => StudentTuple.key_ r.1) <$> a_records a.

(** The record a queued change carries in its buffer. *)
Definition carried (T : buf_table) (x : CommitQueue.commit) : StudentTuple.StudentTuple :=
  StudentTuple.of_object_bytes (buffer T (CommitQueue.commit_buffer_ x)).

(** A change the database cannot take: no room, a used-up key, a record that
    is not there, or not locked. *)
Definition apply_commit (T : buf_table) (a : adb) (x : CommitQueue.commit) : option adb :=
  let k := CommitQueue.commit_key_ x in
  match CommitQueue.commit_op_ x with
  | ADD_TUPLE =>
      if table_id_ k =? tbl_id_StudentTable then
        if bool_decide ((length (a_records a) < StudentTable.Rows)%nat /\ a_next a ∉ a_keys a)
        then Some (mkAdb ((StudentTable.with_key (carried T x) (a_next a), 0) :: a_records a)
                     (u8 (a_next a + 1)) (a_locks a))
        else None
      else Some a
  | DELETE =>
      if bool_decide ((k, EXCLUSIVE) ∈ a_locks a)
      then Some (mkAdb (filter (fun r => StudentTuple.key_ r.1 <> tuple_key_ k) (a_records a))
                   (a_next a) (filter (fun l => l <> (k, EXCLUSIVE)) (a_locks a)))
      else None
  | UPDATE =>
      if table_id_ k =? tbl_id_StudentTable then
        let t := carried T x in
        if bool_decide (StudentTuple.key_ t ∈ a_keys a)
        then Some (mkAdb ((fun r => if StudentTuple.key_ r.1 =? StudentTuple.key_ t
                                    then (t, r.2) else r) <$> a_records a)
                     (a_next a) (a_locks a))
        else None
      else Some a
  | _ => Some a
  end.

Fixpoint apply_log (T : buf_table) (a : adb) (xs : list CommitQueue.commit) : option adb :=
  match xs with
  | [] => Some a
  | x :: xs' => a' ← apply_commit T a x; apply_log T a' xs'
  end.

(** The changes that read their record from a buffer. *)
Definition loads (x : CommitQueue.commit) : bool :=
  (table_id_ (CommitQueue.commit_key_ x) =? tbl_id_StudentTable) &&
  bool_decide (CommitQueue.commit_op_ x = ADD_TUPLE \/ CommitQueue.commit_op_ x = UPDATE).

(** What the code needs of a change, seen through a destroyed copy of its entry. *)
Definition readable {mem : expiry} (x : CommitQueue.commit) : Prop :=
  match mem with
  | Undefined => False
  | Cleared => loads x = false
  | Retained => loads x = true -> CommitQueue.commit_buffer_ x <> None
  end.

Lemma readable_seen {mem : expiry} x : readable x -> exists x', expired x = Ret x'.
Proof. unfold readable, expired. destruct mem; [done|eauto..]. Qed.

Lemma readable_loads {mem : expiry} x x' :
  readable x -> expired x = Ret x' -> loads x = true ->
  CommitQueue.commit_buffer_ x' = CommitQueue.commit_buffer_ x /\ CommitQueue.commit_buffer_ x' <> None.
Proof.
  unfold readable, expired. destruct mem; [done|congruence|]. intros Hr [= <-] Hl. auto.
Qed.

(** The concrete state shows the abstract database, up to order. *)
Record shows (t : StudentTable.StudentTable) (ll : LockList.lock_list) (a : adb) : Prop := {
  sh_records : StudentTable.rows t ≡ₚ a_records a;
  sh_next : StudentTable.next_key_ t = a_next a;
  sh_locks : LockList.held ll ≡ₚ a_locks a
}.

(** ** One change *)

(** The state between two changes of a commit. *)
Record committing (T : buf_table) (s : shared) (w : Worker) (a : adb) : Prop := {
  cm_locks : locks_ok (lock_list_ w);
  cm_good : exists O, Good (view_of s) (claims_of (lock_list_ w) ++ O);
  cm_bytes : same_bytes T (buffers_ (db_ s));
  cm_shows : shows (view_of s) (lock_list_ w) a
}.

Lemma shows_keys t ll a : shows t ll a -> StudentTable.keys t ≡ₚ a_keys a.
Proof. intros Hs. unfold StudentTable.keys, a_keys. by rewrite (sh_records _ _ _ Hs). Qed.

Lemma shows_room t ll a :
  StudentTable.table_wf t -> shows t ll a ->
  (length (a_records a) < StudentTable.Rows)%nat -> StudentTable.full_ t = false.
Proof.
  intros Hwf Hs Hlt. unfold StudentTable.full_. rewrite (StudentTable.wf_count _ Hwf).
  apply Z.eqb_neq. assert (length (StudentTable.rows t) = length (a_records a)) as Hl
    by by rewrite (sh_records _ _ _ Hs).
  unfold StudentTable.rows in Hl. enough (cnt StudentTable.live_entry (StudentTable.table_ t) =
    Z.of_nat (length (omap StudentTable.row (StudentTable.table_ t)))) by lia.
  clear. induction (StudentTable.table_ t) as [|e l IH]; [done|]. csimpl.
  rewrite IH. unfold StudentTable.row at 2. destruct (StudentTable.live_entry e); simpl; lia.
Qed.

(** Replacing the record with a key, deleting it: on the list, and on the
    list split at that record. *)
Lemma replace_split (rs : list (StudentTuple.StudentTuple * Z)) r rest t :
  rs ≡ₚ r :: rest -> NoDup ((fun r => StudentTuple.key_ r.1) <$> rs) ->
  StudentTuple.key_ r.1 = StudentTuple.key_ t ->
  (fun r => if StudentTuple.key_ r.1 =? StudentTuple.key_ t then (t, r.2) else r) <$> rs
    ≡ₚ (t, r.2) :: rest.
Proof.
  intros Hp Hd Hk. rewrite Hp in Hd |- *. csimpl in *. rewrite Hk in Hd |- *.
  rewrite Z.eqb_refl. f_equiv. apply list.NoDup_cons in Hd as [Hd _].
  match goal with |- ?l ≡ₚ _ => enough (l = rest) as -> by done end.
  rewrite <- (list_fmap_id rest) at 2. apply list_fmap_ext.
  intros i r' Hr'.
  destruct (Z.eqb_spec (StudentTuple.key_ r'.1) (StudentTuple.key_ t)); [|done].
  exfalso. apply Hd, list_elem_of_fmap. exists r'. split; [done|]. by eapply list_elem_of_lookup_2.
Qed.

Lemma filter_split {A} (P : A -> Prop) `{!forall x, Decision (P x)} (l : list A) x rest :
  l ≡ₚ x :: rest -> ~ P x -> (forall y, y ∈ rest -> P y) -> filter P l ≡ₚ rest.
Proof.
  intros Hp Hx Hr. rewrite Hp, filter_cons_False by done.
  clear Hp. induction rest as [|y rest IH]; [done|].
  rewrite filter_cons_True by (apply Hr; set_solver). f_equiv. apply IH. set_solver.
Qed.

(** The three changes on the table. *)
Section Steps.
Context (t : StudentTable.StudentTable) (ll : LockList.lock_list) (a : adb) (H : list claim).
Context (HG : Good t H) (Hs : shows t ll a).

Lemma insert_shows u :
  (length (a_records a) < StudentTable.Rows)%nat -> a_next a ∉ a_keys a ->
  exists t' i, StudentTable.insert_ id t u = Ret (t', Ok i) /\ Good t' H /\
    shows t' ll (mkAdb ((StudentTable.with_key u (a_next a), 0) :: a_records a)
                   (u8 (a_next a + 1)) (a_locks a)).
Proof.
  intros Hlt Hk. pose proof (shows_room t ll a (good_wf _ _ HG) Hs Hlt) as Hf.
  rewrite <- (shows_keys _ _ _ Hs), <- (sh_next _ _ _ Hs) in Hk.
  destruct (good_insert t u H HG Hf Hk) as (t' & i & E & HG').
  destruct (StudentTable.insert_free t id u (good_wf _ _ HG) Hf)
    as (t2 & i2 & E2 & _ & _ & _ & Hr & Hn).
  rewrite E in E2. injection E2 as <- <-. exists t', i. split; [done|]. split; [auto|].
  destruct Hs as [H1 H2 H3]. split; simpl; [by rewrite Hr, H1, H2|by rewrite Hn, H2|done].
Qed.

Lemma write_shows u :
  StudentTuple.key_ u ∈ a_keys a ->
  exists t', StudentTable.write_ t u = Ret (t', StudentTableError_None) /\ Good t' H /\
    shows t' ll (mkAdb ((fun r => if StudentTuple.key_ r.1 =? StudentTuple.key_ u
                                  then (u, r.2) else r) <$> a_records a)
                   (a_next a) (a_locks a)).
Proof.
  intros Hk. rewrite <- (shows_keys _ _ _ Hs) in Hk.
  apply list_elem_of_fmap in Hk as (r & Hkr & Hr).
  destruct (StudentTable.row_holder t r (good_wf _ _ HG) (good_distinct _ _ HG) Hr)
    as (i & e & Hh & ->). rewrite <- Hkr in Hh.
  destruct (StudentTable.write_holder t u i e (good_wf _ _ HG) Hh)
    as (t' & rest & E & _ & Hr1 & Hr2).
  exists t'. split; [done|]. split; [by eapply good_write|].
  pose proof (good_distinct _ _ HG) as Hd. unfold StudentTable.distinct_keys, StudentTable.keys in Hd.
  destruct Hs as [H1 H2 H3]. split; simpl; [|by rewrite <- H2; eapply StudentTable.write_next|done].
  rewrite Hr2. symmetry. rewrite H1 in Hr1, Hd.
  by apply (replace_split (a_records a) (StudentTable.tuple_ e, StudentTable.lock_ e)).
Qed.
End Steps.

Lemma remove_shows t ll ll' a k O :
  Good t ((k, EXCLUSIVE, None) :: O) -> shows t ll a ->
  LockList.held ll ≡ₚ (k, EXCLUSIVE) :: LockList.held ll' ->
  (k, EXCLUSIVE) ∉ LockList.held ll' ->
  exists t', StudentTable.remove_ t (tuple_key_ k) = Ret (t', StudentTableError_None) /\
    Good t' O /\
    shows t' ll' (mkAdb (filter (fun r => StudentTuple.key_ r.1 <> tuple_key_ k) (a_records a))
       (a_next a) (filter (fun l => l <> (k, EXCLUSIVE)) (a_locks a))).
Proof.
  intros HG Hs Hh Hno. destruct (claim_row t k EXCLUSIVE None O HG) as (i & e & Hho & _ & _).
  destruct (good_remove t k None O HG) as (t' & E & HG').
  destruct (StudentTable.remove_holder t _ i e (good_wf _ _ HG) Hho)
    as (t2 & E2 & _ & Hr & _). rewrite E in E2. injection E2 as <-.
  exists t'. split; [done|]. split; [auto|].
  destruct (StudentTable.holder_rows _ _ _ _ Hho) as [_ Hke].
  pose proof (good_distinct _ _ HG) as Hd.
  unfold StudentTable.distinct_keys, StudentTable.keys in Hd.
  rewrite Hr in Hd. csimpl in Hd. apply list.NoDup_cons in Hd as [Hd _].
  destruct Hs as [H1 H2 H3]. rewrite H1 in Hr. rewrite H3 in Hh. split; simpl.
  - symmetry. eapply filter_split; [exact Hr|by intros []|]. intros y Hy Hky.
    apply Hd, list_elem_of_fmap. exists y. split; [|done]. simpl. congruence.
  - rewrite <- H2. by eapply StudentTable.remove_next.
  - symmetry. eapply filter_split; [exact Hh|by intros []|]. by intros y Hy ->.
Qed.

(** ** One entry of the queue *)

Section Entry.
Context (T : buf_table).

Lemma committing_bytes s w a T' :
  committing T s w a -> same_bytes (buffers_ (db_ s)) T' -> committing T (set_buffers s T') w a.
Proof. intros [] Hb. split; try done. by etrans. Qed.

(** An insertion or an update: [f] writes the carried record. *)
Let carry (f : StudentTable.StudentTable -> StudentTuple.StudentTuple ->
    outcome (StudentTable.StudentTable * unit)) (table_id : Z) (r : buf_ref) : wprog unit :=
  buffer_ref ← copy_expired r;
  (if table_id =? tbl_id_StudentTable then
    new_tuple ← load_tuple buffer_ref;
    on_table (fun t => f t new_tuple)
  else Done tt) ≫= fun _ => drop_ref buffer_ref.

Lemma carry_returns f s w a a' x r :
  committing T s w a -> r = None \/ r ∈ commit_refs w ->
  (if table_id_ (CommitQueue.commit_key_ x) =? tbl_id_StudentTable then
     r = CommitQueue.commit_buffer_ x /\ r <> None /\
     forall t O, Good t (claims_of (lock_list_ w) ++ O) -> shows t (lock_list_ w) a ->
     exists t', f t (carried T x) = Ret (t', tt) /\ Good t' (claims_of (lock_list_ w) ++ O) /\
       shows t' (lock_list_ w) a'
   else a' = a) ->
  exists s' w', committing T s' w' a' /\ (exists ll, w' = set_lock_list w ll) /\
    returns (carry f (table_id_ (CommitQueue.commit_key_ x)) r) s w s' w' tt.
Proof.
  intros Hc Hr Hf. set (T1 := (ref_copy (buffers_ (db_ s)) r).1).
  assert (Hc1 : committing T (set_buffers s T1) w a).
  { apply committing_bytes; [done|apply ref_copy_bytes]. }
  set (s1 := set_buffers s T1) in *.
  enough (exists s2, committing T s2 w a' /\
    returns (if table_id_ (CommitQueue.commit_key_ x) =? tbl_id_StudentTable then
      new_tuple ← load_tuple r; on_table (fun t => f t new_tuple) else Done tt) s1 w s2 w tt) as (s2 & Hc2 & Hr2).
  { exists (set_buffers s2 (ref_destroy (buffers_ (db_ s2)) r).1), w.
    split; [apply committing_bytes; [done|apply ref_destroy_bytes]|].
    split; [exists (lock_list_ w); by destruct w|]. unfold carry.
    apply (returns_bind _ _ _ _ s1 w r).
    - apply returns_act. rewrite bool_decide_true by exact Hr. unfold s1, T1. by destruct r.
    - eapply returns_bind; [exact Hr2|by apply returns_act]. }
  destruct (_ =? _); [|subst a'; exists s1; split; [done|apply returns_done]].
  destruct Hf as (-> & Hne & Hf). destruct (CommitQueue.commit_buffer_ x) as [i|] eqn:Hi; [|done].
  destruct (cm_good _ _ _ _ Hc1) as [O HO].
  destruct (Hf _ _ HO (cm_shows _ _ _ _ Hc1)) as (t' & E & HG & Hs).
  exists (set_students s1 t'). split.
  - destruct Hc1. split; [done|by exists O|done|done].
  - apply (returns_bind _ _ _ _ s1 w (carried T x)); apply returns_act.
    + unfold carried. by rewrite Hi, (cm_bytes _ _ _ _ Hc1).
    + change (students_ (db_ s1)) with (view_of s1). by rewrite E.
Qed.

Lemma delete_returns s w a k :
  committing T s w a -> (k, EXCLUSIVE) ∈ a_locks a ->
  exists s' w', committing T s' w' (mkAdb
      (filter (fun r => StudentTuple.key_ r.1 <> tuple_key_ k) (a_records a)) (a_next a)
      (filter (fun l => l <> (k, EXCLUSIVE)) (a_locks a))) /\
    (exists ll, w' = set_lock_list w ll) /\
    returns (on_locks (fun l => LockList.rm_lock l k) ≫= fun _ =>
      if table_id_ k =? tbl_id_StudentTable then
        on_table (fun t => '(t', _) ← StudentTable.remove_ t (tuple_key_ k); Ret (t', tt))
      else Done tt) s w s' w' tt.
Proof.
  intros Hc Hin. destruct (cm_good _ _ _ _ Hc) as [O HO].
  rewrite <- (sh_locks _ _ _ (cm_shows _ _ _ _ Hc)) in Hin.
  destruct (locks_get _ k (cm_locks _ _ _ _ Hc))
    as [(m & _ & _ & (ll & rest & Hrm & Hll & Hh & Hh') & _)|(_ & Hno & _)];
    [|by apply Hno in Hin].
  unfold claims_of in HO. rewrite Hh in HO. simpl in HO.
  assert (Hx : ((k, EXCLUSIVE) ∉ rest) /\ m = EXCLUSIVE).
  { rewrite Hh in Hin. apply elem_of_cons in Hin as [[= <-]|Hin].
    - split; [|done]. intros [r2 E]%elem_of_Permutation. rewrite E in HO.
      by apply claims_exclude in HO as [[=] _].
    - apply elem_of_Permutation in Hin as [r2 E]. rewrite E in HO.
      by apply claims_exclude in HO as [_ [=]]. }
  destruct Hx as [Hnr ->]. rewrite <- Hh' in Hh, HO, Hnr.
  destruct (remove_shows _ _ ll a k _ HO (cm_shows _ _ _ _ Hc) Hh Hnr) as (t' & E & HG & Hs).
  exists (set_students s t'), (set_lock_list w ll). split; [|split; [by exists ll|]].
  - destruct Hc. split; [done|by exists O|done|done].
  - eapply returns_bind.
    { apply (returns_act _ _ _ s (set_lock_list w ll) LockError_None). by rewrite Hrm. }
    pose proof (good_placed _ _ HO) as Hp. apply Forall_cons_1 in Hp as [[Hid _] _].
    unfold claim_key in Hid. simpl in Hid. rewrite Hid. apply returns_act.
    change (students_ (db_ s)) with (view_of s). by rewrite E.
Qed.

(** One entry does what [apply_commit] says. *)
Lemma commit_entry_returns {mem : expiry} s w a a' x x' :
  committing T s w a -> x ∈ contents (commit_queue_ w) -> readable x -> expired x = Ret x' ->
  apply_commit T a x = Some a' ->
  exists s' w', committing T s' w' a' /\ (exists ll, w' = set_lock_list w ll) /\
    returns (commit_entry x') s w s' w' tt.
Proof.
  intros Hc Hin Hrd Hx Ha. assert (Hsame : set_lock_list w (lock_list_ w) = w) by by destruct w.
  destruct (expired_entry _ _ Hx) as (Hk & Hop & Hb).
  assert (Hslot : CommitQueue.commit_buffer_ x' = None \/ CommitQueue.commit_buffer_ x' ∈ commit_refs w).
  { destruct Hb as [->|[_ ->]]; [right; by apply queued_ref|by left]. }
  pose proof (readable_loads x x' Hrd Hx) as Hload.
  unfold loads in Hload.
  unfold apply_commit in Ha. unfold commit_entry, disassemble_. rewrite Hk, Hop.
  destruct (CommitQueue.commit_op_ x);
    try (injection Ha as <-; exists s, w; split; [done|]; split; [by exists (lock_list_ w)|];
         apply returns_done).
  - rewrite bool_decide_true, andb_true_r in Hload by by left.
    apply (carry_returns (fun t u => '(t', _) ← StudentTable.insert_ id t u; Ret (t', tt))
      s w a a' x _ Hc Hslot).
    destruct (_ =? _); [|by injection Ha].
    case_bool_decide as Hd; [|done]. injection Ha as <-. destruct Hd as [Hlt Hfree].
    destruct (Hload eq_refl) as [-> Hne]. split; [done|]. split; [done|].
    intros t O HO Hs. destruct (insert_shows t _ a _ HO Hs (carried T x) Hlt Hfree)
      as (t' & i & -> & HG & Hs'). by exists t'.
  - rewrite bool_decide_true, andb_true_r in Hload by by right.
    apply (carry_returns (fun t u => '(t', _) ← StudentTable.write_ t u; Ret (t', tt))
      s w a a' x _ Hc Hslot).
    destruct (_ =? _); [|by injection Ha].
    case_bool_decide as Hfree; [|done]. injection Ha as <-.
    destruct (Hload eq_refl) as [-> Hne]. split; [done|]. split; [done|].
    intros t O HO Hs. destruct (write_shows t _ a _ HO Hs (carried T x) Hfree)
      as (t' & -> & HG & Hs'). by exists t'.
  - clear Hload. case_bool_decide as Hl; [|done]. injection Ha as <-. by apply delete_returns.
Qed.
End Entry.

(** ** The loop *)

(** What a commit may change of the worker. *)
Definition drained (w w' : Worker) : Prop :=
  exists ll q, w' = set_commit_queue (set_lock_list w ll) q /\ queue_wf q /\ contents q = [].

Lemma drained_trans w1 w2 w3 ll :
  w2 = set_lock_list w1 ll -> drained (set_commit_queue w2 (CommitQueue.pop (commit_queue_ w2))) w3 ->
  drained w1 w3.
Proof. intros -> (ll' & q & -> & Hq). by exists ll', q. Qed.

(** One action of a program that runs alone. *)
Lemma run_alone {A B} (f : shared -> Worker -> outcome (shared * Worker * B)) (k : B -> wprog A) n s w s' w' b :
  f s w = Ret (s', w', b) -> run idle n (act f ≫= k) s w = run idle (n + 1) (k b) s' w'.
Proof. intros E. rewrite (run_first _ _ _ _ s s w w); [by rewrite E|done]. Qed.
Lemma undef_alone {A B} (f : shared -> Worker -> outcome (shared * Worker * B)) (k : B -> wprog A) n s w :
  f s w = Undef -> run idle n (act f ≫= k) s w = Undef.
Proof. intros E. rewrite (run_first _ _ _ _ s s w w); [by rewrite E|done]. Qed.

(** The entry at the front is copied, and the copy destroyed. *)
Lemma run_temporary {A} x xs (h : wprog A) (k : CommitQueue.commit -> wprog A) n s w :
  queue_wf (commit_queue_ w) -> contents (commit_queue_ w) = x :: xs ->
  let s1 := set_buffers s (ref_copy (buffers_ (db_ s)) (CommitQueue.commit_buffer_ x)).1 in
  let s2 := set_buffers s1 (ref_destroy (buffers_ (db_ s1)) (CommitQueue.commit_buffer_ x)).1 in
  exists n', run idle n (
    e ← commit_empty;
    if e : bool then h
    else
      r ← commit_get;
      temporary ← unwrap_ r;
      drop_ref (CommitQueue.commit_buffer_ temporary) ≫= fun _ => k temporary) s w = run idle n' (k x) s2 w.
Proof.
  intros Hwf Hq s1 s2. eexists. etrans; [apply (run_alone _ _ _ _ _ s w false)|].
  { by rewrite (CommitQueue.commits_empty _ Hwf), bool_decide_false by (by rewrite Hq). }
  etrans; [apply (run_alone _ _ _ _ _ s1 w (Ok x))|].
  { by rewrite (CommitQueue.get_front _ _ _ _ Hwf Hq). }
  etrans; [by apply (run_alone _ _ _ _ _ s1 w x)|]. cbv beta.
  by apply (run_alone _ (fun _ : unit => k x) _ _ _ s2 w tt).
Qed.

(** A readable change is applied, and then the rest of the queue. *)
Lemma commit_loop_step {mem : expiry} T x xs f s w a a1 :
  committing T s w a -> queue_wf (commit_queue_ w) -> contents (commit_queue_ w) = x :: xs ->
  readable x -> apply_commit T a x = Some a1 ->
  exists s1 w1 ll, committing T s1 w1 a1 /\
    w1 = set_commit_queue (set_lock_list w ll) (CommitQueue.pop (commit_queue_ w)) /\
    queue_wf (commit_queue_ w1) /\ contents (commit_queue_ w1) = xs /\
    forall n, exists n', run idle n (commit_loop (S f)) s w = run idle n' (commit_loop f) s1 w1.
Proof.
  intros Hc Hwf Hq Hrd Ha1.
  set (s1 := set_buffers s (ref_copy (buffers_ (db_ s)) (CommitQueue.commit_buffer_ x)).1).
  set (s2 := set_buffers s1 (ref_destroy (buffers_ (db_ s1)) (CommitQueue.commit_buffer_ x)).1).
  destruct (readable_seen x Hrd) as [x' Hx].
  destruct (commit_entry_returns T s2 w a a1 x x') as (s3 & w2 & Hc2 & (ll & Hw2) & Hr2); [| |done..|].
  { apply committing_bytes; [|apply ref_destroy_bytes].
    apply committing_bytes; [done|apply ref_copy_bytes]. }
  { rewrite Hq. left. }
  destruct (pop_spec (buffers_ (db_ s3)) _ _ _ Hwf Hq) as [Hwf' Hq'].
  exists s3, (set_commit_queue w2 (CommitQueue.pop (commit_queue_ w2))), ll.
  assert (Hqw : commit_queue_ w2 = commit_queue_ w) by by rewrite Hw2.
  split; [by destruct Hc2|]. split; [by rewrite Hw2|].
  split; [simpl commit_queue_; by rewrite Hqw|]. split; [simpl commit_queue_; by rewrite Hqw|].
  set (w3 := set_commit_queue w2 (CommitQueue.pop (commit_queue_ w2))).
  intros n. cbn [commit_loop].
  destruct (run_temporary x xs (Done tt) (fun temporary => commit ← recall temporary;
    commit_entry commit ≫= fun _ => commit_pop ≫= fun _ => commit_loop f) n s w Hwf Hq) as [n1 ->].
  fold s1 s2. destruct (Hr2 (n1 + 1)%nat) as [n2 E2]. eexists.
  etrans; [apply (run_alone _ _ _ _ _ s2 w x'); by rewrite Hx|]. cbv beta.
  etrans; [apply (run_bind idle _ (commit_entry x'))|]. rewrite E2.
  by apply (run_alone _ (fun _ : unit => commit_loop f) _ _ _ s3 (set_commit_queue w2 (CommitQueue.pop (commit_queue_ w2))) tt).
Qed.

Lemma commit_loop_returns {mem : expiry} T xs fuel s w a a' :
  committing T s w a -> queue_wf (commit_queue_ w) -> contents (commit_queue_ w) = xs ->
  Forall readable xs -> apply_log T a xs = Some a' -> (length xs < fuel)%nat ->
  exists s' w', committing T s' w' a' /\ drained w w' /\
    returns (commit_loop fuel) s w s' w' tt.
Proof.
  revert fuel s w a. induction xs as [|x xs IH]; intros fuel s w a Hc Hwf Hq Hrd Ha Hlt;
    (destruct fuel as [|f]; [simpl in Hlt; lia|]).
  - injection Ha as <-. exists s, w. split; [done|]. split.
    { exists (lock_list_ w), (commit_queue_ w). split; [by destruct w|done]. }
    apply (returns_bind _ _ _ _ s w true).
    + apply returns_act. by rewrite (CommitQueue.commits_empty _ Hwf), bool_decide_true.
    + apply returns_done.
  - cbn [apply_log] in Ha. destruct (apply_commit T a x) as [a1|] eqn:Ha1; [|done].
    apply Forall_cons_1 in Hrd as [Hx Hrd].
    destruct (commit_loop_step T x xs f s w a a1) as (s1 & w1 & ll & Hc1 & Hw1 & Hwf1 & Hq1 & Hrun); [done..|].
    destruct (IH f s1 w1 a1) as (s' & w' & Hc' & (ll' & q' & Hw' & Hq2) & Hr'); [done..|simpl in Hlt; lia|].
    exists s', w'. split; [done|]. split; [exists ll', q'; by rewrite Hw', Hw1|].
    intros n. destruct (Hrun n) as [n1 ->]. apply Hr'.
Qed.

(** An entry that is not readable is undefined when its buffer is read. *)
Lemma unreadable_entry {mem : expiry} x x' n s w :
  expired x = Ret x' -> ~ readable x ->
  run idle n (commit_entry x') s w = Undef.
Proof.
  intros Hx Hrd. destruct (expired_entry _ _ Hx) as (Hk & Hop & _).
  assert (loads x = true /\ CommitQueue.commit_buffer_ x' = None) as [Hl Hnone].
  { unfold readable in Hrd. unfold expired in Hx. destruct mem; [done| |]; injection Hx as <-.
    - by destruct (loads x).
    - destruct (loads x); [|by destruct Hrd]. split; [done|].
      destruct (CommitQueue.commit_buffer_ x); [by destruct Hrd|done]. }
  apply andb_true_iff in Hl as [Ht Ho%bool_decide_eq_true].
  unfold commit_entry, disassemble_. rewrite Hk, Hop, Hnone. simpl in Ht. rewrite Ht.
  assert (Hcopy : forall k : buf_ref -> wprog unit, exists n', run idle n (copy_expired None ≫= k) s w = run idle n' (k None) s w).
  { intros k. eexists. apply (run_alone _ _ _ _ _ s w None). rewrite bool_decide_true by (by left).
    by destruct s as [[? ? ?] ?]. }
  by destruct Ho as [-> | ->]; edestruct Hcopy as [n1 ->].
Qed.

(** A change that is not readable is as far as it goes. *)
Lemma commit_loop_dangles {mem : expiry} T xs x ys fuel s w a a' n :
  committing T s w a -> queue_wf (commit_queue_ w) -> contents (commit_queue_ w) = xs ++ x :: ys ->
  Forall readable xs -> apply_log T a xs = Some a' -> ~ readable x -> (length xs < fuel)%nat ->
  run idle n (commit_loop fuel) s w = Undef.
Proof.
  revert fuel s w a n. induction xs as [|y xs IH]; intros fuel s w a n Hc Hwf Hq Hrd Ha Hx Hlt;
    (destruct fuel as [|f]; [simpl in Hlt; lia|]).
  - cbn [commit_loop app] in *.
    destruct (run_temporary x ys (Done tt) (fun temporary => commit ← recall temporary;
      commit_entry commit ≫= fun _ => commit_pop ≫= fun _ => commit_loop f) n s w Hwf Hq) as [n1 ->].
    destruct (expired x) as [x'| |] eqn:Ex; [|by unfold expired in Ex; destruct mem|].
    + etrans; [eapply run_alone; by rewrite Ex|]. cbv beta.
      etrans; [apply (run_bind idle _ (commit_entry x'))|]. by rewrite (unreadable_entry x x').
    + apply undef_alone. by rewrite Ex.
  - cbn [apply_log] in Ha. destruct (apply_commit T a y) as [a1|] eqn:Ha1; [|done].
    apply Forall_cons_1 in Hrd as [Hy Hrd].
    destruct (commit_loop_step T y (xs ++ x :: ys) f s w a a1) as (s1 & w1 & ll & Hc1 & Hw1 & Hwf1 & Hq1 & Hrun); [done..|].
    destruct (Hrun n) as [n1 ->]. eapply IH; [done..|simpl in Hlt; lia].
Qed.

(** ** Replies *)

(** The datagram that answers a request in place. *)
Definition answer (a : OpAck) (T : buf_table) (p : JobBuf.job_buf) (size : Z) (j : Channels.job)
    : Channels.datagram :=
  Channels.conn_reply (Channels.conn_ j) (buffer (JobBuf.set_ack T p a) (JobBuf.ref p)) size.

(** A handler that only answers: the database and the transaction are as
    before, one datagram is sent, one job is taken off the channel. *)
Record answered (d : Channels.datagram) (s : shared) (w : Worker) (s' : shared) (w' : Worker)
    : Prop := {
  an_table : view_of s' = view_of s;
  an_core : core_of w' = core_of w;
  an_sent : sent_ w' = sent_ w ++ [d];
  an_popped : exists T, job_ch_ w' = (Channels.pop T (job_ch_ w)).2;
  an_running : running_ w' = running_ w
}.

Lemma finish_returns a p n j s w :
  exists s' w', returns (reply a p n j ≫= fun _ => job_pop) s w s' w' tt /\
    answered (answer a (buffers_ (db_ s)) p n j) s w s' w'.
Proof.
  set (T1 := JobBuf.set_ack (buffers_ (db_ s)) p a).
  set (w1 := add_sent w (answer a (buffers_ (db_ s)) p n j)).
  destruct (Channels.pop T1 (job_ch_ w)) as [T2 q] eqn:Hp.
  exists (set_buffers (set_buffers s T1) T2), (set_job_ch w1 q). split.
  - apply (returns_bind _ _ _ _ (set_buffers s T1) w1 tt); apply returns_act; [done|].
    simpl. fold T1. by rewrite Hp.
  - split; [done..| |done]. exists T1. simpl. by rewrite Hp.
Qed.

(** [set_ack] writes the acknowledgement into the reply, on any pool with the
    same bytes. *)
Lemma answer_bytes a T T' p n j :
  JobBuf.valid_ref T (JobBuf.ref p) -> same_bytes T T' -> answer a T' p n j = answer a T p n j.
Proof.
  intros Hv Hb. unfold answer, JobBuf.set_ack, JobBuf.set_field. f_equal.
  rewrite !JobBuf.buffer_store; [by rewrite Hb|done|]. unfold JobBuf.valid_ref in *. by rewrite Hb.
Qed.

(** A state between two requests. *)
Definition sound (s : shared) (w : Worker) : Prop :=
  exists g, linv (core_of w) g /\ exists O, Good (view_of s) (g ++ O).

(** The same, where the claims of all other threads are [O]. *)
Definition sound_among (O : list claim) (s : shared) (w : Worker) : Prop :=
  exists g, linv (core_of w) g /\ Good (view_of s) (g ++ O).

Lemma sound_some s w : sound s w -> exists O, sound_among O s w.
Proof. intros (g & Hl & O & HG). by exists O, g. Qed.

(** Only an abort makes the worker quit. *)
Lemma run_then {A} env n (pr : wprog unit) (a : A) s w n' s' w' b :
  run env n (pr ≫= fun _ => Done a) s w = Ret (n', s', w', b) -> b = a.
Proof.
  change (pr ≫= fun _ => Done a) with (bind pr (fun _ => Done a)). rewrite run_bind.
  destruct (run env n pr s w) as [[[[n1 s1] w1] x]| |]; [|done..]. by intros [= _ _ _ ->].
Qed.

Lemma bind_assoc {A B C} (p : wprog A) (h : A -> wprog B) (k : B -> wprog C) :
  forall env n s w, run env n (p ≫= fun a => h a ≫= k) s w = run env n ((p ≫= h) ≫= k) s w.
Proof.
  intros env n s w. change (run env n (bind p (fun a => bind (h a) k)) s w =
    run env n (bind (bind p h) k) s w). rewrite !run_bind.
  destruct (run env n p s w) as [[[[n1 s1] w1] x]| |]; [|done..]. by rewrite run_bind.
Qed.

Lemma dispatch_quits {mem : expiry} env n op p j s w :
  op <> COMMIT_TXN -> forall n' s' w' quit,
  run env n (dispatch op p j) s w = Ret (n', s', w', quit) -> quit = true <-> op = ABORT_TXN.
Proof.
  intros Hop n' s' w' quit Hr.
  assert (quit = bool_decide (op = ABORT_TXN)) as ->; [|apply bool_decide_eq_true].
  destruct op; try done; cbn [dispatch] in Hr; rewrite ?bind_assoc in Hr; by apply run_then in Hr.
Qed.

(** ** Parking a record in the request's buffer *)

Lemma commit_send_returns k o r s w :
  queue_wf (commit_queue_ w) -> (length (contents (commit_queue_ w)) < CommitQueue.N)%nat ->
  exists T' q, same_bytes (buffers_ (db_ s)) T' /\ queue_wf q /\
    contents q = contents (commit_queue_ w) ++ [CommitQueue.mkCommit r k o] /\
    returns (commit_send k o r) s w (set_buffers s T') (set_commit_queue w q) QueueError_None.
Proof.
  intros Hwf Hlt. set (x := CommitQueue.mkCommit r k o).
  set (T1 := (ref_copy (buffers_ (db_ s)) r).1).
  assert (Em : CommitQueue.commit_make (buffers_ (db_ s)) k o r = (T1, x))
    by (unfold CommitQueue.commit_make, T1; by destruct r).
  destruct (CommitQueue.send_room T1 (commit_queue_ w) x Hwf) as (c & T2 & Hc & Ha & Es).
  { rewrite (CommitQueue.commits_full _ Hwf). apply negb_false_iff. by apply Nat.ltb_lt. }
  pose proof (send_spec T1 (commit_queue_ w) x Hwf) as Hs.
  change (capacity CommitQueue.commit_queue) with CommitQueue.N in Hs.
  rewrite (proj2 (Nat.ltb_lt _ _) Hlt) in Hs. destruct Hs as (T3 & q & E3 & Hq & Hcq).
  simpl queue_send in E3. assert (T3 = T2) as -> by congruence.
  exists (CommitQueue.commit_destroy T2 x), q. split_and!; [|done|done|].
  - etrans; [apply (ref_copy_bytes _ r)|]. fold T1. unfold CommitQueue.commit_destroy.
    etrans; [|apply ref_destroy_bytes]. rewrite <- (f_equal fst Ha : _ = T2).
    apply ref_assign_bytes.
  - apply returns_act. by rewrite Em, E3.
Qed.

Lemma job_pop_returns s w :
  exists T' ch, same_bytes (buffers_ (db_ s)) T' /\
    returns job_pop s w (set_buffers s T') (set_job_ch w ch) tt /\
    ch = (Channels.pop (buffers_ (db_ s)) (job_ch_ w)).2.
Proof.
  destruct (Channels.pop (buffers_ (db_ s)) (job_ch_ w)) as [T' ch] eqn:Hp.
  exists T', ch. split; [|split; [apply returns_act; by rewrite Hp|done]].
  unfold Channels.pop in Hp. destruct (Channels.jobs_ (job_ch_ w) !! _) as [j|];
    [|injection Hp as <- _; reflexivity].
  unfold Channels.job_destroy in Hp.
  destruct (ref_destroy (buffers_ (db_ s)) (Channels.job_ref j)) as [T1 r] eqn:E.
  injection Hp as <- _. rewrite <- (f_equal fst E : _ = T1). apply ref_destroy_bytes.
Qed.

(** The end of [process_add] and [process_update]: reply, put the record in
    the buffer, queue the change, take the job off the channel. *)
Definition park (n : Z) (p : JobBuf.job_buf) (j : Channels.job) (k : unique_key) (o : OpType)
    (t : StudentTuple.StudentTuple) : wprog unit :=
  reply SUCCESS p n j ≫= fun _ =>
  on_buffers (fun T => (store T (Channels.job_ref j)
    (Bytes.write (buffer T (Channels.job_ref j)) 0 (StudentTuple.object_bytes t)), tt)) ≫= fun _ =>
  commit_error ← commit_send k o (Channels.job_ref j);
  if bool_decide (commit_error = QueueError_Full) then reject COMMIT_FULL p j else job_pop.

(** A change is queued: what the worker and the database look like then. *)
Record queued (d : Channels.datagram) (k : unique_key) (o : OpType) (t : StudentTuple.StudentTuple)
    (s : shared) (w : Worker) (s' : shared) (w' : Worker) : Prop := {
  qd_table : view_of s' = view_of s;
  qd_locks : lock_list_ w' = lock_list_ w;
  qd_status : status_ w' = match status_ w with GROWING => SHRINKING | st => st end;
  qd_queue : queue_wf (commit_queue_ w');
  qd_change : exists x, contents (commit_queue_ w') = contents (commit_queue_ w) ++ [x] /\
    CommitQueue.commit_key_ x = k /\ CommitQueue.commit_op_ x = o /\
    carried (buffers_ (db_ s')) x = t;
  qd_sent : sent_ w' = sent_ w ++ [d]
}.

Lemma park_returns n p j k o t s w :
  queue_wf (commit_queue_ w) -> (length (contents (commit_queue_ w)) < CommitQueue.N)%nat ->
  status_ w <> GROWING -> JobBuf.ref p = Channels.job_ref j ->
  JobBuf.valid_ref (buffers_ (db_ s)) (Channels.job_ref j) -> StudentTuple.student_wf t ->
  exists s' w', returns (park n p j k o t) s w s' w' tt /\
    queued (answer SUCCESS (buffers_ (db_ s)) p n j) k o t s w s' w'.
Proof.
  intros Hwf Hlt Hst Hp Hv Ht. set (r := Channels.job_ref j) in *.
  set (T1 := JobBuf.set_ack (buffers_ (db_ s)) p SUCCESS).
  set (w1 := add_sent w (answer SUCCESS (buffers_ (db_ s)) p n j)).
  set (T2 := store T1 r (Bytes.write (buffer T1 r) 0 (StudentTuple.object_bytes t))).
  set (s2 := set_buffers (set_buffers s T1) T2).
  destruct (commit_send_returns k o r s2 w1 Hwf Hlt) as (T3 & q & Hb3 & Hq & Hcq & Hr3).
  set (s3 := set_buffers s2 T3). set (w3 := set_commit_queue w1 q) in *.
  destruct (job_pop_returns s3 w3) as (T4 & ch & Hb4 & Hr4 & _).
  exists (set_buffers s3 T4), (set_job_ch w3 ch). split.
  - apply (returns_bind _ _ _ _ (set_buffers s T1) w1 tt); [by apply returns_act|].
    apply (returns_bind _ _ _ _ s2 w1 tt); [by apply returns_act|].
    eapply returns_bind; [exact Hr3|]. exact Hr4.
  - assert (Hv1 : JobBuf.valid_ref T1 r).
    { unfold T1, JobBuf.set_ack. rewrite <- Hp in Hv |- *. apply JobBuf.valid_set_field; [done|lia]. }
    split; [done|done|simpl; by destruct (status_ w)|done| |done].
    exists (CommitQueue.mkCommit r k o). split_and!; [done..|]. unfold carried. simpl.
    change (buffers_ (db_ s3)) with T3 in Hb4. change (buffers_ (db_ s2)) with T2 in Hb3.
    rewrite Hb4, Hb3. unfold T2. rewrite JobBuf.buffer_store by done.
    apply StudentTuple.of_object_bytes_write; [done|].
    unfold JobBuf.valid_ref, BUFFER_WIDTH in Hv1. unfold StudentTuple.SIZEOF_STUDENT. lia.
Qed.

Definition after_phase (st : TxnStatus) : TxnStatus :=
  match st with GROWING => SHRINKING | st => st end.

Lemma enter_shrinking_returns s w :
  returns enter_shrinking s w s (set_status w (after_phase (status_ w))) tt.
Proof.
  unfold enter_shrinking. apply (returns_bind _ _ _ _ s w (status_ w)); [by apply returns_act|].
  destruct (decide (status_ w = GROWING)) as [E|E];
    [rewrite bool_decide_true by done|rewrite bool_decide_false by done].
  - rewrite E. by apply returns_act.
  - destruct w as [? ? ? ? ? st ? ?]. simpl in *. destruct st; [done|apply returns_done..].
Qed.

Lemma queued_phase d k o t s w s' w' :
  queued d k o t s (set_status w (after_phase (status_ w))) s' w' -> queued d k o t s w s' w'.
Proof.
  intros []. split; try done. rewrite qd_status0. simpl. by destruct (status_ w).
Qed.

Lemma read_returns {B} (f : buf_table -> B) s w b :
  f (buffers_ (db_ s)) = b -> returns (read_buffers f) s w s w b.
Proof. intros <-. apply returns_act. by destruct s as [[? ? ?] ?]. Qed.

Lemma unwrap_returns {A E} (r : Result A E) (a : A) s w :
  value_ r = Some a -> returns (unwrap_ r) s w s w a.
Proof. intros Hr. apply returns_act. unfold unwrap. by rewrite Hr. Qed.

(** The record a request carries, and the deserialization of any bytes. *)
Definition sent_record (T : buf_table) (j : Channels.job) : StudentTuple.StudentTuple :=
  (StudentTuple.deserialize_ StudentTuple.student_default (buffer T (Channels.job_ref j)) 9).1.

Lemma sent_record_wf T j :
  JobBuf.valid_ref T (Channels.job_ref j) -> Forall is_byte (buffer T (Channels.job_ref j)) ->
  StudentTuple.student_wf (sent_record T j) /\ StudentTuple.key_ (sent_record T j) = 0.
Proof.
  intros Hv Hb. unfold JobBuf.valid_ref, BUFFER_WIDTH in Hv. split; [|done].
  set (buf := buffer T (Channels.job_ref j)) in *.
  assert (Hr : forall o n, Forall is_byte (Bytes.read buf o n)).
  { intros o n. unfold Bytes.read. by apply Forall_take, Forall_drop. }
  assert (Hl : forall o n, (o + n <= 100)%nat -> length (Bytes.read buf o n) = n).
  { intros o n Hn. apply Bytes.read_length. lia. }
  unfold sent_record, StudentTuple.deserialize_. fold buf. cbn [fst].
  split; cbn [StudentTuple.checksum_ StudentTuple.tickstamp_ StudentTuple.name_
    StudentTuple.age_ StudentTuple.key_]; simpl Nat.add; try done.
  - pose proof (Bytes.le_value_bounds _ (Hr 42%nat 4%nat)) as H. by rewrite Hl in H by lia.
  - apply Hl. unfold StudentTuple.NAME_LENGTH. lia.
  - pose proof (Bytes.le_value_bounds _ (Hr 41%nat 1%nat)) as H. by rewrite Hl in H by lia.
Qed.

(** ** Leaving, alone *)

(** The lock word [l] of the record with key [k], once the locks [ls] are given
    back. *)
Definition given_back (ls : list (unique_key * LockType)) (k l : Z) : Z :=
  fold_left (fun l lock => if bool_decide (lock.1 = record_key k)
                           then match lock.2 with EXCLUSIVE => 0 | SHARED => l - 1 end else l) ls l.

Definition give_back (ls : list (unique_key * LockType)) (r : StudentTuple.StudentTuple * Z)
    : StudentTuple.StudentTuple * Z :=
  (r.1, given_back ls (StudentTuple.key_ r.1) r.2).

Lemma give_back_release t k m p H ls :
  Good t ((k, m, p) :: H) -> exists t', StudentTable.release_ t (tuple_key_ k) = Ret t' /\ Good t' H /\
    give_back ls <$> StudentTable.rows t' ≡ₚ give_back ((k, m) :: ls) <$> StudentTable.rows t.
Proof.
  intros HG. destruct (good_release t k m p H HG) as (t' & E & _ & HG').
  exists t'. split; [done|]. split; [by apply HG'|].
  destruct (claim_row t k m p H HG) as (i & e & Hh & Hk & Hm).
  destruct (StudentTable.release_holder t _ i e (good_wf _ _ HG) Hh) as (t2 & rest & E2 & _ & _ & Hr & Hr');
    [by destruct m; lia|].
  rewrite E in E2. injection E2 as <-. rewrite Hr, Hr'. csimpl.
  destruct (StudentTable.holder_rows _ _ _ _ Hh) as [_ Hke].
  pose proof (good_distinct _ _ HG) as Hd. unfold StudentTable.distinct_keys, StudentTable.keys in Hd.
  rewrite Hr in Hd. csimpl in Hd. apply list.NoDup_cons in Hd as [Hd _].
  assert (give_back ls <$> rest = give_back ((k, m) :: ls) <$> rest) as <-.
  { apply list_fmap_ext. intros n r Hn. unfold give_back, given_back. cbn [fold_left fst snd].
    rewrite bool_decide_false; [done|]. intros Hkr. apply Hd, list_elem_of_fmap.
    exists r. split; [|by eapply list_elem_of_lookup_2]. rewrite Hke, Hkr. done. }
  f_equiv. unfold give_back, given_back. cbn [fold_left fst snd]. rewrite Hke, <- Hk, bool_decide_true by done.
  destruct m; [|by rewrite Hm]. rewrite (proj2 (Z.eqb_neq _ _)) by lia. done.
Qed.

Lemma release_loop_returns ll fuel idx s w O :
  length (LockList.locks_ ll) = LockList.N -> (idx <= LockList.N)%nat -> (LockList.N < idx + fuel)%nat ->
  ((idx < LockList.N)%nat -> exists e, LockList.locks_ ll !! idx = Some e /\
     live LockList.is_used_ LockList.is_deleted_ e = true) ->
  let es := List.filter (live LockList.is_used_ LockList.is_deleted_) (drop idx (LockList.locks_ ll)) in
  Good (view_of s) (((fun e => (LockList.key_ e, LockList.type_ e, @None nat)) <$> es) ++ O) ->
  exists t', returns (release_loop fuel ll idx) s w (set_students s t') w tt /\ Good t' O /\
    StudentTable.rows t' ≡ₚ
      give_back ((fun e => (LockList.key_ e, LockList.type_ e)) <$> es) <$> StudentTable.rows (view_of s).
Proof.
  intros Hlen Hle Hf Hlv. revert idx s Hle Hf Hlv.
  induction fuel as [|f IH]; intros idx s Hle Hf Hlv es HG; [lia|]. unfold es in *. clear es.
  cbn [release_loop]. unfold LockList.end_, LockList.deref.
  destruct (Nat.eqb_spec idx LockList.N) as [->|Hne].
  { rewrite !drop_ge in HG |- * by lia. exists (view_of s). split.
    { assert (set_students s (view_of s) = s) as -> by by destruct s as [[? ? ?] ?]. apply returns_done. }
    split; [exact HG|]. csimpl. rewrite (list_fmap_ext _ id) by by intros ? []. by rewrite list_fmap_id. }
  destruct (Hlv ltac:(lia)) as (e & Hi & Hl). rewrite Hi.
  destruct (LockList.advance_spec ll LockList.N (idx + 1)) as (Hnext & Hfil & Hlv'); [done|lia..|].
  rewrite (drop_S _ e idx Hi) in HG |- *. cbn [List.filter] in HG |- *. rewrite Hl in HG |- *.
  replace (S idx) with (idx + 1)%nat in HG |- * by lia.
  rewrite Hfil in HG |- *.
  rewrite fmap_cons in HG.
  change (LockList.advance_to_valid LockList.N ll (idx + 1)) with (LockList.next ll idx) in *.
  rewrite fmap_cons. cbn [app] in HG.
  destruct (give_back_release _ _ _ _ _ ((fun e => (LockList.key_ e, LockList.type_ e)) <$>
    List.filter (live LockList.is_used_ LockList.is_deleted_) (drop (LockList.next ll idx) (LockList.locks_ ll))) HG)
    as (t1 & E & HG1 & Hrows).
  destruct (IH (LockList.next ll idx) (set_students s t1)) as (t' & Hr & HG' & Hr'); [by apply Hnext|lia|exact Hlv'|exact HG1|].
  exists t'. split; [|split; [exact HG'|by rewrite Hr', <- Hrows]].
  unfold disassemble_, LockList.key.
  pose proof (good_placed _ _ HG) as Hp. apply Forall_cons_1 in Hp as [[Hid _] _].
  unfold claim_key in Hid. cbn [fst] in Hid. rewrite Hid. cbn [Z.eqb tbl_id_StudentTable Pos.eqb].
  eapply returns_bind; [|exact Hr]. apply returns_act. change (students_ (db_ s)) with (view_of s). by rewrite E.
Qed.

Lemma quit_alone n s w O n' s' w' :
  sound_among O s w -> run idle n worker_quit s w = Ret (n', s', w', tt) ->
  StudentTable.rows (view_of s') ≡ₚ give_back (LockList.held (lock_list_ w)) <$> StudentTable.rows (view_of s).
Proof.
  intros (g & Hl & HO) E. unfold worker_quit, release_all_locks in E. 
  apply (l_own _ _ Hl) in HO. pose proof (l_locks _ _ Hl) as [Hwf _]. simpl in HO, Hwf.
  pose proof (LockList.wf_length _ Hwf) as Hlen.
  destruct (LockList.advance_spec (lock_list_ w) LockList.N 0) as (Hnext & Hfil & Hlv); [done|lia..|].
  destruct (release_loop_returns (lock_list_ w) (S LockList.N) (LockList.begin (lock_list_ w)) s w O)
    as (t' & Hr & _ & Hrows); [done|apply Hnext|lia|exact Hlv| |].
  { unfold LockList.begin. rewrite <- Hfil, drop_0, <- held_filter. exact HO. }
  assert (Hra : returns release_all_locks s w (set_students s t')
    (set_lock_list w (LockList.clear (lock_list_ w))) tt).
  { unfold release_all_locks. apply (returns_bind _ _ _ _ s w (lock_list_ w)).
    { apply returns_act. by destruct w. }
    eapply returns_bind; [exact Hr|by apply returns_act]. }
  destruct (Hra n) as [n1 E1]. unfold worker_quit in E.
  match type of E with run _ _ (_ ≫= ?h) _ _ = _ =>
    rewrite (run_bind idle n release_all_locks h s w : run idle n (release_all_locks ≫= h) s w = _), E1 in E end.
  apply (run_every same_table) in E; [|done|by intros ??????; unfold same_table; congruence|apply same_table_leave].
  unfold view_of at 1. rewrite E. etrans; [exact Hrows|]. f_equiv. unfold LockList.begin.
  rewrite <- Hfil, drop_0. unfold LockList.held. by rewrite omap_if.
Qed.

(** ** Properties *)

(** C15.  Refinement.  A commit in the shrinking phase that no other thread
    disturbs, of changes the database can take.  Let every queued change be
    readable through a destroyed copy of its entry: the compiler keeps what such
    a copy holds and the additions and updates have buffers, or it clears the
    buffer reference and there are none.  Then the commit returns; the records,
    the next key and the transaction's locks are what applying the queue in
    order to the abstract database gives, the queue is empty, and the one
    datagram sent is the request acknowledged with [SUCCESS]. *)
Theorem commit_applies_log {mem : expiry} p j s w a a' :
  sound s w -> status_ w = SHRINKING -> JobBuf.valid_ref (buffers_ (db_ s)) (JobBuf.ref p) ->
  shows (view_of s) (lock_list_ w) a ->
  Forall readable (contents (commit_queue_ w)) ->
  apply_log (buffers_ (db_ s)) a (contents (commit_queue_ w)) = Some a' ->
  exists s' w', returns (process_commit p j) s w s' w' tt /\
    shows (view_of s') (lock_list_ w') a' /\ contents (commit_queue_ w') = [] /\
    status_ w' = SHRINKING /\
    sent_ w' = sent_ w ++
      [answer SUCCESS (buffers_ (db_ s)) p (JobBuf.get_buffer_size p) j].
Proof.
  intros (g & Hl & O & HO) Hst Hv Hsh Hrd Ha.
  destruct (commit_loop_returns (buffers_ (db_ s)) _ QUEUE_FUEL s w a a'
    ltac:(split; [apply Hl|exists O; by apply (l_own _ _ Hl)|reflexivity|done])
    (l_queue _ _ Hl) eq_refl Hrd Ha (queue_fits _ (l_queue _ _ Hl)))
    as (s1 & w1 & Hc1 & (ll & q & Hw1 & _ & Hq) & Hr1).
  destruct (finish_returns SUCCESS p (JobBuf.get_buffer_size p) j s1 w1)
    as (s2 & w2 & Hr2 & [Ht Hco Hse _]).
  exists s2, w2. injection Hco as El Eq Es. split_and!.
  - unfold process_commit. apply (returns_bind _ _ _ _ s w (status_ w)); [by apply returns_act|].
    rewrite Hst, bool_decide_true by done. cbn [negb].
    eapply returns_bind; [exact Hr1|exact Hr2].
  - rewrite Ht, El. apply Hc1.
  - by rewrite Eq, Hw1.
  - by rewrite Es, Hw1.
  - rewrite Hse, (answer_bytes _ _ _ _ _ _ Hv (cm_bytes _ _ _ _ Hc1)). by rewrite Hw1.
Qed.

(** C35.  The reference of [process_commit] dangles.  [get()] returns an entry by
    value, and the entry is destroyed before it is used.  Consider a commit in the
    shrinking phase, run alone.  If nothing can be said of what is read through
    the reference that is left, it is undefined as soon as one change is queued.
    If the destructor's work is seen, the commit is undefined at the first
    addition or update of a record, whose contents it reads through a null
    reference, provided that the changes queued before it can be applied. *)
Theorem commit_dangles {mem : expiry} p j s w a a' xs x ys n :
  sound s w -> status_ w = SHRINKING -> shows (view_of s) (lock_list_ w) a ->
  contents (commit_queue_ w) = xs ++ x :: ys ->
  (mem = Undefined /\ xs = [] \/ mem = Cleared /\ loads x = true /\ Forall (fun y => loads y = false) xs) ->
  apply_log (buffers_ (db_ s)) a xs = Some a' ->
  run idle n (process_commit p j) s w = Undef.
Proof.
  intros (g & Hl & O & HO) Hst Hsh Hq Hmem Ha.
  assert (Hrd : Forall readable xs /\ ~ readable x).
  { unfold readable. destruct Hmem as [[-> ->]|(-> & Hx & Hxs)]; [split; [by apply list.Forall_nil|tauto]|].
    split; [exact Hxs|congruence]. }
  destruct Hrd as [Hrd Hx]. unfold process_commit.
  etrans; [by apply (run_alone _ _ _ _ _ s w (status_ w))|].
  rewrite Hst, bool_decide_true by done. cbn [negb]. etrans; [apply (run_bind idle _ (commit_loop QUEUE_FUEL))|].
  rewrite (commit_loop_dangles (buffers_ (db_ s)) xs x ys QUEUE_FUEL s w a a'); [done| |apply Hl|done..|].
  - split; [apply Hl|exists O; by apply (l_own _ _ Hl)|reflexivity|done].
  - pose proof (queue_fits _ (l_queue _ _ Hl)) as Hlt. simpl c_queue in Hlt. rewrite Hq, length_app in Hlt.
    simpl in Hlt. lia.
Qed.

(** A commit in any other phase acknowledges with [SUCCESS] too, but
    applies nothing: the table and the queue are as before, and the
    [worker_quit] that follows drops the queue.  A transaction that only read
    has nothing to apply; one that aborted loses its changes. *)
Theorem commit_out_of_phase {mem : expiry} p j s w :
  status_ w <> SHRINKING ->
  exists s' w', returns (process_commit p j) s w s' w' tt /\
    answered (answer SUCCESS (buffers_ (db_ s)) p 7 j) s w s' w'.
Proof.
  intros Hst. destruct (finish_returns SUCCESS p 7 j s w) as (s' & w' & Hr & Han).
  exists s', w'. split; [|done]. unfold process_commit.
  apply (returns_bind _ _ _ _ s w (status_ w)); [by apply returns_act|].
  by rewrite bool_decide_false.
Qed.

Definition locking_op (op : OpType) : bool :=
  match op with SHARED_READ | EXCLUSIVE_READ | YIELD_READ | PROMOTE => true | _ => false end.

(** C21.  Two-phase locking.  Once a transaction has left the growing
    phase, each of the four operations that acquire, promote or give up a
    lock only answers [BAD_PHASE]: the table, the lock list, the queue and
    the phase stay as they are. *)
Theorem phase_discipline {mem : expiry} op p j s w :
  status_ w <> GROWING -> locking_op op = true ->
  exists s' w', returns (dispatch op p j) s w s' w' false /\
    answered (answer BAD_PHASE (buffers_ (db_ s)) p 7 j) s w s' w'.
Proof.
  intros Hst Hop. destruct (finish_returns BAD_PHASE p 7 j s w) as (s' & w' & Hr & Han).
  exists s', w'. split; [|done].
  destruct op; try done; cbn [dispatch]; eapply returns_bind; try apply returns_done;
    (eapply returns_bind; [by apply returns_act|]; rewrite bool_decide_false by done; exact Hr).
Qed.

(** C19.  Every request but a commit comes to an end, whatever the other
    threads do in between (they may acquire and release locks of their own, as
    long as they leave this transaction's data alone and the 8-bit counters
    have room): no undefined behaviour once the request's buffer has been
    reached, and no endless loop.  The phase only moves forward; outside the
    growing phase no lock is acquired; if nobody else changes the records,
    they are as before.  After [ABORT_TXN], and only then, the worker has quit, holding no
    lock and with an empty queue; otherwise the transaction is again in a
    sound state. *)
Theorem request_total {mem : expiry} env others n op p j s w :
  friendly core_of view_of Good env others -> sound_among (others n) s w -> op <> COMMIT_TXN ->
  roomy view_of room any_worker env n (dispatch op p j) s w ->
  exists n' s' w' quit, run env n (dispatch op p j) s w = Ret (n', s', w', quit) /\
    phase_le (status_ w) (status_ w') /\
    (quit = true -> LockList.held (lock_list_ w') = [] /\ contents (commit_queue_ w') = []) /\
    (quit = false -> sound_among (others n') s' w' /\
       (status_ w <> GROWING -> LockList.held (lock_list_ w') ⊆+ LockList.held (lock_list_ w))) /\
    ((forall n s w, unchanged (view_of s) (view_of (env n s w).1)) ->
       unchanged (view_of s) (view_of s')) /\
    (quit = true <-> op = ABORT_TXN).
Proof.
  intros Hf (g & Hl & HO) Hop Hroom.
  pose proof (run_ok core_of view_of Good room any_worker unchanged False False (dispatch op p j)
    (turn_post (core_of w)) env others n s w g _ Hf (dispatch_quiet any_worker p j op _ g Hop Hl) Hroom HO) as H.
  pose proof (dispatch_quits env n op p j s w Hop) as Hq.
  destruct (run env n (dispatch op p j) s w) as [[[[n' s'] w'] quit]| |]; [|done..].
  destruct H as (g' & [Hph Hpost] & HO' & Hun). exists n', s', w', quit.
  split_and!; [done|exact Hph| | |exact Hun|by apply (Hq n' s' w')].
  - intros ->. exact Hpost.
  - intros ->. split; [exists g'; split; [apply Hpost|done]|apply Hpost].
Qed.

(** C22.  Queueing changes.  A well-formed [ADD_TUPLE], or an [UPDATE] of
    a record on which the transaction holds the exclusive lock, is answered
    with [SUCCESS] and queued as long as the queue has room: the queue gains
    exactly this change, carrying the record the request sent; a growing
    transaction is now shrinking; table and locks stay as they are.  The
    carried record has key 0 whatever record was locked, because
    deserialization does not set the key; a commit writes it there. *)
Theorem changes_queued {mem : expiry} op p j s w k :
  let T := buffers_ (db_ s) in
  sound s w -> JobBuf.ref p = Channels.job_ref j ->
  JobBuf.valid_ref T (Channels.job_ref j) -> Forall is_byte (buffer T (Channels.job_ref j)) ->
  (length (contents (commit_queue_ w)) < CommitQueue.N)%nat ->
  JobBuf.get_tbl T p = Ok tbl_id_StudentTable ->
  (op = ADD_TUPLE /\ k = 0) \/
  (op = UPDATE /\ JobBuf.get_key T p = Ok k /\
   LockList.get_lock (lock_list_ w) (record_key k) = Ok EXCLUSIVE) ->
  exists s' w' n, returns (dispatch op p j) s w s' w' false /\
    queued (answer SUCCESS T p n j) (record_key k) op (sent_record T j) s w s' w' /\
    StudentTuple.key_ (sent_record T j) = 0.
Proof.
  intros T Hs Hp Hv Hb Hlt Ht Hop.
  destruct (sent_record_wf T j Hv Hb) as [Hwf Hk0].
  set (w1 := set_status w (after_phase (status_ w))).
  assert (Hst : status_ w1 <> GROWING) by (simpl; by destruct (status_ w)).
  assert (Hq : queue_wf (commit_queue_ w1)) by (destruct Hs as (g & Hl & _); apply Hl).
  destruct Hop as [[-> ->]|(-> & Hk & Hlock)].
  - destruct (park_returns (JobBuf.get_buffer_size p) p j (record_key 0) ADD_TUPLE
      (sent_record T j) s w1 Hq Hlt Hst Hp Hv Hwf) as (s' & w' & Hr & Hqd).
    exists s', w', (JobBuf.get_buffer_size p). split; [|split; [by apply queued_phase|done]].
    cbn [dispatch]. eapply returns_bind; [|apply returns_done]. unfold process_add.
    eapply returns_bind; [apply enter_shrinking_returns|]. fold w1.
    apply (returns_bind _ _ _ _ s w1 (Ok tbl_id_StudentTable)); [by apply read_returns|].
    rewrite is_ok_Ok. cbn [negb].
    eapply returns_bind; [by apply unwrap_returns|]. rewrite Z.eqb_refl.
    eapply returns_bind; [by apply read_returns|]. exact Hr.
  - destruct (park_returns 7 p j (record_key k) UPDATE
      (sent_record T j) s w1 Hq Hlt Hst Hp Hv Hwf) as (s' & w' & Hr & Hqd).
    exists s', w', 7. split; [|split; [by apply queued_phase|done]].
    cbn [dispatch]. eapply returns_bind; [|apply returns_done]. unfold process_update.
    eapply returns_bind; [apply enter_shrinking_returns|]. fold w1.
    apply (returns_bind _ _ _ _ s w1 (Ok tbl_id_StudentTable)); [by apply read_returns|].
    rewrite is_ok_Ok. cbn [negb].
    apply (returns_bind _ _ _ _ s w1 (Ok k)); [by apply read_returns|].
    rewrite is_ok_Ok. cbn [negb].
    eapply returns_bind; [by apply unwrap_returns|].
    eapply returns_bind; [by apply unwrap_returns|].
    apply (returns_bind _ _ _ _ s w1 (Ok EXCLUSIVE)).
    { apply returns_act. unfold w1. cbn [lock_list_ set_status].
      change (mkKey tbl_id_StudentTable k) with (record_key k). rewrite Hlock. by destruct w. }
    rewrite is_ok_Ok, bool_decide_true by done. cbn [negb orb]. rewrite Z.eqb_refl.
    eapply returns_bind; [by apply read_returns|]. exact Hr.
Qed.

(** C36.  Leaving always comes to an end, too.  The other threads may do what
    respects this transaction's claims and its own data, and the 8-bit counters
    have room at every action; then [worker_quit] returns without undefined
    behaviour, the list of locks and the queue are empty, and no record has
    changed unless the others changed it.  Every lock is given back: if no other
    thread acts in between, the lock word of a record the transaction had locked
    exclusively is 0, one it had locked in shared mode counts one holder less,
    and all others are as they were. *)
Theorem quit_total env others n s w :
  friendly core_of view_of Good env others -> sound_among (others n) s w ->
  roomy view_of room any_worker env n worker_quit s w ->
  exists n' s' w', run env n worker_quit s w = Ret (n', s', w', tt) /\
    LockList.held (lock_list_ w') = [] /\ contents (commit_queue_ w') = [] /\
    ((forall n s w, unchanged (view_of s) (view_of (env n s w).1)) ->
       unchanged (view_of s) (view_of s')) /\
    (env = idle -> StudentTable.rows (view_of s') ≡ₚ
       give_back (LockList.held (lock_list_ w)) <$> StudentTable.rows (view_of s)).
Proof.
  intros Hf Hsound Hroom. pose proof Hsound as (g & Hl & HO).
  assert (Hok : ok core_of view_of Good room any_worker unchanged False False worker_quit
    (fun c _ _ => LockList.held (c_locks c) = [] /\ contents (c_queue c) = []) (core_of w) g)
    by (apply (worker_quit_ok unchanged _ _); [done..|auto]).
  pose proof (run_ok core_of view_of Good room any_worker unchanged False False worker_quit _
    env others n s w g _ Hf Hok Hroom HO) as H.
  destruct (run env n worker_quit s w) as [[[[n' s'] w'] []]| |] eqn:E; [|done..].
  destruct H as (g' & [Hh Hq] & _ & Hun). exists n', s', w'. split_and!; [done..|].
  intros ->. by eapply quit_alone.
Qed.

(** ** A transaction, for the witnesses

    One worker reads the only record under an exclusive lock, queues an
    update of it and a new record, and commits. *)

Definition request_of (op key : Z) : list Z := [op; 0; 0; 0; 0; 0; 0; 1; key].
Definition request_with (op key : Z) (t : StudentTuple.StudentTuple) : list Z :=
  (StudentTuple.serialize_ t (request_of op key ++ replicate 37 0) 9).1.

(** The socket thread hands a request to the worker. *)
Definition submit (bytes : list Z) (sw : shared * Worker) : shared * Worker :=
  let '(s, w) := sw in
  match request (buffers_ (db_ s)) with
  | Ret (T, {| value_ := Some r |}) =>
      let T1 := store T r (bytes ++ replicate (Z.to_nat BUFFER_WIDTH - length bytes) 0) in
      let j := Channels.job_make r (Z.of_nat (length bytes)) Channels.conn_default in
      let '(T2, ch, _) := Channels.send T1 (job_ch_ w) j in
      (set_buffers s (Channels.job_destroy T2 j).1, set_job_ch w ch)
  | _ => sw
  end.

Lemma submit_sound bytes s w : sound s w -> sound (submit bytes (s, w)).1 (submit bytes (s, w)).2.
Proof.
  intros H. unfold submit. destruct (request _) as [[T [[r|]]]| |]; [|done..].
  destruct (Channels.send _ _ _) as [[T2 ch] e]. exact H.
Qed.

(** One turn of the worker, alone. *)
Definition turn_alone (sw : shared * Worker) : shared * Worker :=
  if roomyb view_of roomb front_readyb idle 0 (iteration (mem := Retained)) sw.1 sw.2 then
    match run idle 0 (iteration (mem := Retained)) sw.1 sw.2 with
    | Ret (_, s, w, false) => (s, w)
    | _ => sw
    end
  else sw.

Lemma turn_sound sw : sound sw.1 sw.2 -> sound (turn_alone sw).1 (turn_alone sw).2.
Proof.
  intros (g & Hl & O & HO). unfold turn_alone. set (p := iteration (mem := Retained)).
  destruct (roomyb view_of roomb front_readyb idle 0 p sw.1 sw.2) eqn:Hr; [|by exists g; eauto].
  apply (roomyb_roomy view_of room front_ready) in Hr; [|apply roomb_room|apply front_readyb_ready].
  pose proof (run_ok core_of view_of Good room front_ready anything True True p
    (turn_end False (core_of sw.2)) idle (fun _ => O) 0 sw.1 sw.2 g _ (friendly_idle _ _ _ O)
    (cok_ok front_ready False p _ _ _ (iteration_cok front_ready False _ g (fun _ H => H) Hl
      (fun H : False => match H with end))) Hr HO) as H.
  destruct (run idle 0 p sw.1 sw.2) as [[[[n' s'] w'] []]| |]; [by exists g; eauto| |by exists g; eauto..].
  destruct H as (g' & [[_ Hpost] _] & HO' & _). exists g'. split; [apply Hpost|eauto].
Qed.

Definition serve (bytes : list Z) (sw : shared * Worker) : shared * Worker :=
  turn_alone (submit bytes sw).

Lemma serve_sound bytes sw : sound sw.1 sw.2 -> sound (serve bytes sw).1 (serve bytes sw).2.
Proof. intros H. apply turn_sound. destruct sw. by apply submit_sound. Qed.

Definition start0 : shared * Worker :=
  (mkShared (mkDatabase StudentTable.table1 0 buf_table_default) (Channels.ret_channel_make 0),
   worker_make true Channels.job_channel_default 5).

Definition alice : StudentTuple.StudentTuple :=
  StudentTuple.mkStudent 0 0 (replicate 32 65) 21 0.

(** After the exclusive read, and after the two changes are queued. *)
Definition locked1 : shared * Worker := serve (request_with 3 0 alice) start0.
Definition changed1 : shared * Worker :=
  serve (request_with 1 0 alice) (serve (request_with 6 0 alice) locked1).
Definition commit1 : shared * Worker := submit (request_of 8 0) changed1.
Definition parser1 : JobBuf.job_buf := JobBuf.mkJobBuf (Some 3%nat) 9.
Definition job1 : Channels.job := Channels.job_make (Some 3%nat) 9 Channels.conn_default.

Lemma start0_sound : sound start0.1 start0.2.
Proof.
  exists []. split; [apply linv_start|]. exists []. split.
  - apply StudentTable.insert_wf; [apply StudentTable.table_default_wf|vm_compute; reflexivity].
  - apply (bool_decide_unpack _). vm_compute. reflexivity.
  - constructor.
  - intros r Hr. split; intros ?; simpl; lia.
Qed.

Lemma locked1_sound : sound locked1.1 locked1.2.
Proof. apply serve_sound, start0_sound. Qed.

Lemma commit1_sound : sound commit1.1 commit1.2.
Proof.
  unfold commit1. rewrite (surjective_pairing changed1). apply submit_sound.
  apply serve_sound, serve_sound, locked1_sound.
Qed.

Definition shown1 : adb :=
  mkAdb (StudentTable.rows (view_of commit1.1)) (StudentTable.next_key_ (view_of commit1.1))
    (LockList.held (lock_list_ commit1.2)).

Definition committed1 : adb :=
  mkAdb [(StudentTable.with_key alice 1, 0); (StudentTable.with_key alice 0, -1)] 2
    [(record_key 0, EXCLUSIVE)].

#[export] Instance readable_dec {mem : expiry} x : Decision (readable x).
Proof. destruct mem; unfold readable; solve_decision. Defined.

Lemma commit_applies_log_witness :
  exists s' w', returns (process_commit (mem := Retained) parser1 job1) commit1.1 commit1.2 s' w' tt /\
    shows (view_of s') (lock_list_ w') committed1 /\ contents (commit_queue_ w') = [].
Proof.
  destruct (commit_applies_log (mem := Retained) parser1 job1 commit1.1 commit1.2 shown1 committed1
    commit1_sound) as (s' & w' & H1 & H2 & H3 & _).
  - vm_compute. reflexivity.
  - vm_compute. reflexivity.
  - split; reflexivity.
  - apply (bool_decide_unpack _). vm_compute. reflexivity.
  - vm_compute. reflexivity.
  - exists s', w'. split; [exact H1|]. split; [exact H2|exact H3].
Defined.

Lemma commit_dangles_witness :
  run idle 0 (process_commit (mem := Cleared) parser1 job1) commit1.1 commit1.2 = Undef.
Proof.
  apply (commit_dangles (mem := Cleared) parser1 job1 commit1.1 commit1.2 shown1 shown1 []
    (default CommitQueue.commit_default (head (contents (commit_queue_ commit1.2))))
    (tail (contents (commit_queue_ commit1.2))) 0 commit1_sound).
  - vm_compute. reflexivity.
  - split; reflexivity.
  - vm_compute. reflexivity.
  - right. split; [reflexivity|]. split; [vm_compute; reflexivity|constructor].
  - reflexivity.
Defined.

Lemma commit_out_of_phase_witness :
  status_ locked1.2 = GROWING /\
  exists s' w', returns (process_commit (mem := Retained) parser1 job1) locked1.1 locked1.2 s' w' tt /\
    view_of s' = view_of locked1.1.
Proof.
  split; [vm_compute; reflexivity|].
  destruct (commit_out_of_phase (mem := Retained) parser1 job1 locked1.1 locked1.2) as (s' & w' & H1 & H2).
  - vm_compute. discriminate.
  - exists s', w'. split; [exact H1|apply H2].
Defined.

Lemma phase_discipline_witness :
  exists s' w', returns (dispatch (mem := Retained) SHARED_READ parser1 job1) changed1.1 changed1.2 s' w' false /\
    view_of s' = view_of changed1.1.
Proof.
  destruct (phase_discipline (mem := Retained) SHARED_READ parser1 job1 changed1.1 changed1.2) as (s' & w' & H1 & H2).
  - vm_compute. discriminate.
  - reflexivity.
  - exists s', w'. split; [exact H1|apply H2].
Defined.

Lemma request_total_witness :
  exists n' s' w', run idle 0 (dispatch (mem := Retained) EXCLUSIVE_READ parser1 job1) start0.1 start0.2 =
      Ret (n', s', w', false) /\
    unchanged (view_of start0.1) (view_of s').
Proof.
  destruct (sound_some _ _ start0_sound) as (O & HO).
  destruct (request_total (mem := Retained) idle (fun _ => O) 0 EXCLUSIVE_READ parser1 job1 start0.1 start0.2)
    as (n' & s' & w' & quit & H1 & _ & _ & _ & H2 & H3).
  - apply friendly_idle.
  - exact HO.
  - discriminate.
  - apply (roomyb_roomy view_of room any_worker roomb (fun _ => true)); [apply roomb_room|done|].
    vm_compute. reflexivity.
  - exists n', s', w'. split; [|apply H2; reflexivity].
    rewrite H1. destruct quit; [discriminate (proj1 H3 eq_refl)|reflexivity].
Defined.

Lemma quit_total_witness :
  exists n' s' w', run idle 0 worker_quit commit1.1 commit1.2 = Ret (n', s', w', tt) /\
    LockList.held (lock_list_ w') = [] /\ contents (commit_queue_ w') = [].
Proof.
  destruct (sound_some _ _ commit1_sound) as (O & HO).
  destruct (quit_total idle (fun _ => O) 0 commit1.1 commit1.2) as (n' & s' & w' & H1 & H2 & H3 & _).
  - apply friendly_idle.
  - exact HO.
  - apply (roomyb_roomy view_of room any_worker roomb (fun _ => true)); [apply roomb_room|done|].
    vm_compute. reflexivity.
  - exists n', s', w'. split; [exact H1|]. split; [exact H2|exact H3].
Defined.

Definition update1 : shared * Worker := submit (request_with 6 0 alice) locked1.
Definition parser_u : JobBuf.job_buf := JobBuf.mkJobBuf (Some 1%nat) 46.
Definition job_u : Channels.job := Channels.job_make (Some 1%nat) 46 Channels.conn_default.

Lemma update1_sound : sound update1.1 update1.2.
Proof.
  unfold update1. rewrite (surjective_pairing locked1). apply submit_sound, locked1_sound.
Qed.

Lemma changes_queued_witness :
  exists s' w' n, returns (dispatch (mem := Retained) UPDATE parser_u job_u) update1.1 update1.2 s' w' false /\
    queued (answer SUCCESS (buffers_ (db_ update1.1)) parser_u n job_u) (record_key 0) UPDATE
      (sent_record (buffers_ (db_ update1.1)) job_u) update1.1 update1.2 s' w' /\
    StudentTuple.key_ (sent_record (buffers_ (db_ update1.1)) job_u) = 0.
Proof.
  apply (changes_queued (mem := Retained) UPDATE parser_u job_u update1.1 update1.2 0).
  - exact update1_sound.
  - reflexivity.
  - vm_compute. lia.
  - apply (bool_decide_unpack _). vm_compute. reflexivity.
  - vm_compute. lia.
  - vm_compute. reflexivity.
  - right. split; [reflexivity|]. split; vm_compute; reflexivity.
Defined.
