(* ===== verification/Commits.v ===== *)
(** * Commits among other transactions

    [Requests] follows a commit that nobody disturbs.  Here other threads act
    between any two of its actions.  A commit waits for room in the table when
    it adds a record, and never returns when it writes a record that is not
    there or deletes one twice; without these it always ends. *)
From S2P Require Import Prelude Params Probe BufTable UniqueKey Ring Prog Locking Worker.
From S2P Require Import References WorkerLogic Transaction Requests.
From S2P Require StudentTuple StudentTable LockList CommitQueue Channels JobBuf.

(** The logic with other bounds on the shared state. *)
Lemma ok_room {S L C R V A} (core : L -> C) (view : S -> V) (Good : V -> list R -> Prop)
    (room room' : V -> Prop) sane quiet hang undef (p : prog S L A) Q c g :
  (forall v, room' v -> room v) ->
  ok core view Good room sane quiet hang undef p Q c g ->
  ok core view Good room' sane quiet hang undef p Q c g.
Proof.
  intros Hr. revert c g. induction p as [a|B f k IH]; intros c g H; simpl in *; [done|].
  intros s l Hc Hv Hsn HO. specialize (H s l Hc (Hr _ Hv) Hsn HO).
  destruct (f s l) as [[[s' l'] b]| |]; [|done|done].
  destruct H as (Hq & g' & Hg & Hk). split; [done|]. eauto 6.
Qed.

(** One more record fits into the table. *)
Definition roomier (t : StudentTable.StudentTable) : Prop := room t /\ StudentTable.full_ t = false.

Definition roomierb (t : StudentTable.StudentTable) : bool := roomb t && negb (StudentTable.full_ t).

Lemma roomierb_roomier t : roomierb t = true -> roomier t.
Proof. intros [H1%roomb_room H2%negb_true_iff]%andb_true_iff. by split. Qed.

(** The records a queue deletes, and the queues whose commit ends: additions,
    and deletions of different records under exclusive locks. *)
Definition deletes (xs : list CommitQueue.commit) : list unique_key :=
  CommitQueue.commit_key_ <$> filter (fun x => CommitQueue.commit_op_ x = DELETE) xs.

Definition ending (held : list (unique_key * LockType)) (xs : list CommitQueue.commit) : Prop :=
  Forall (fun x => CommitQueue.commit_op_ x <> UPDATE) xs /\ NoDup (deletes xs) /\
  Forall (fun k => (k, EXCLUSIVE) ∈ held) (deletes xs).

Definition exclusively (ks : list unique_key) : list (unique_key * LockType) :=
  (fun k => (k, EXCLUSIVE)) <$> ks.

Lemma deletes_cons x xs :
  deletes (x :: xs) =
    if bool_decide (CommitQueue.commit_op_ x = DELETE) then CommitQueue.commit_key_ x :: deletes xs
    else deletes xs.
Proof.
  unfold deletes. destruct (decide (CommitQueue.commit_op_ x = DELETE)) as [H|H].
  - by rewrite bool_decide_true, filter_cons_True by done.
  - by rewrite bool_decide_false, filter_cons_False by done.
Qed.

Section Commit.
Context {mem : expiry}.
Abbreviation eok := (ok core_of view_of Good roomier any_worker anything False False).

(** An action for which there is a rule. *)
Local Ltac known := apply (ok_room core_of view_of Good room roomier); [by intros ? []|].
Local Ltac go1 := apply ok_bind; known.

(** Adding a record that fits. *)
Lemma insert_ends u c g (Q : core -> list claim -> unit -> Prop) :
  Q c g tt -> eok (on_table (fun t => '(t', _) ← StudentTable.insert_ id t u; Ret (t', tt))) Q c g.
Proof.
  intros HQ s w <- [[_ Hk] Hf] _ (O & HO). unfold view_of in *.
  destruct (good_insert _ u _ HO Hf Hk) as (t' & i & E & HG). cbn. rewrite E. cbn.
  split; [done|]. exists g. split; [|done]. intros O' HO'. by apply HG.
Qed.

(** Deleting a record under its exclusive lock. *)
Lemma delete_ends k c g ll (Q : core -> list claim -> unit -> Prop) :
  entails g ((k, EXCLUSIVE, None) :: claims_of ll) ->
  Q c (claims_of ll) tt ->
  eok (on_table (fun t => '(t', _) ← StudentTable.remove_ t (tuple_key_ k); Ret (t', tt))) Q c g.
Proof.
  intros He HQ. known. apply (wok_table anything _ _). intros t _ (O & HO).
  destruct (good_remove t k None _ (He _ _ HO)) as (t' & -> & HG').
  rewrite (outcome_bind_ret (t', StudentTableError_None)). split; [done|].
  exists (claims_of ll). split; [|done]. intros O' HO'. apply HG', (He _ _ HO').
Qed.

(** One change: additions keep the locks, a deletion drops its own. *)
Lemma entry_ends c g x x' rest :
  linv c g -> c_status c <> GROWING -> contents (c_queue c) = x :: rest ->
  ending (LockList.held (c_locks c)) (x :: rest) -> readable x -> expired x = Ret x' ->
  eok (commit_entry x') (fun c' g' _ => linv c' g' /\ c_queue c' = c_queue c /\ c_status c' = c_status c /\
    LockList.held (c_locks c) ≡ₚ exclusively (deletes [x]) ++ LockList.held (c_locks c')) c g.
Proof.
  intros Hl Hs Hc ([Hnu _]%Forall_cons_1 & _ & Hex) Hrd Hx. rewrite deletes_cons in Hex |- *.
  destruct (expired_entry _ _ Hx) as (Hkey & Ho & Hb). pose proof (readable_loads x x' Hrd Hx) as Hload.
  assert (Hslot : x ∈ CommitQueue.commits_ (c_queue c)) by (apply queued_slot; rewrite Hc; left).
  unfold commit_entry, disassemble_. rewrite Hkey, Ho. unfold loads in Hload.
  destruct (CommitQueue.commit_op_ x) eqn:Hop; try done;
    rewrite ?bool_decide_false by done; try (simpl; done).
  - rewrite bool_decide_true, andb_true_r in Hload by by left.
    go1. apply (wok_copy_expired anything _ _).
    { destruct Hb as [->|[_ ->]]; [right; by apply list_elem_of_fmap_2|by left]. }
    apply ok_bind.
    destruct (_ =? _); [|known; apply wok_done; known; by apply (wok_drop_ref anything _ _)].
    go1. apply (wok_load anything _ _); [by apply Hload|]. intros u. apply insert_ends. known.
    by apply (wok_drop_ref anything _ _).
  - rewrite bool_decide_true in Hex |- * by done. apply Forall_cons_1 in Hex as [Hex _].
    pose proof (l_delete _ _ Hl) as Hd. rewrite Hc in Hd. apply Forall_cons_1 in Hd as [Hd _].
    destruct (Hd Hop) as [Hid Hns]. set (k := CommitQueue.commit_key_ x) in *. go1. apply (wok_locks anything _ _). intros _ _.
    destruct (locks_get (c_locks c) k (l_locks _ _ Hl))
      as [(m & _ & Hin & (ll' & rest' & -> & Hll' & Hh & Hh') & _)|(_ & Hno & _)];
      [|by destruct (Hno EXCLUSIVE)].
    rewrite <- Hh' in Hh. assert (m = EXCLUSIVE) as -> by (destruct m; [|done]; destruct Hns; rewrite Hh; left).
    rewrite Hid. cbn [Z.eqb tbl_id_StudentTable Pos.eqb].
    assert (He : entails g ((k, EXCLUSIVE, None) :: claims_of ll')).
    { eapply entails_trans; [by eapply entails_claims; [apply Hl|]|]. by apply entails_perm. }
    eapply delete_ends; [exact He|]. split_and!; [|done..|exact Hh].
    eapply linv_release; [done..|]. by intros t2 O'.
Qed.

Lemma deletes_head x xs : deletes (x :: xs) = deletes [x] ++ deletes xs.
Proof. rewrite !(deletes_cons x). by destruct (bool_decide _). Qed.

(** The rest of the queue still ends, with the locks that are left. *)
Lemma ending_tail held held' x xs :
  held ≡ₚ exclusively (deletes [x]) ++ held' -> ending held (x :: xs) -> ending held' xs.
Proof.
  intros Hh (Hnu & Hnd & Hex).
  apply Forall_cons_1 in Hnu as [_ Hnu].
  rewrite deletes_head in Hnd, Hex. apply list.NoDup_app in Hnd as (_ & Hnot & Hnd).
  apply list.Forall_app in Hex as [_ Hex]. split_and!; [done..|].
  rewrite !list.Forall_forall in Hex |- *. intros k Hk. specialize (Hex k Hk). rewrite Hh in Hex.
  apply elem_of_app in Hex as [Hin|]; [|done]. exfalso.
  apply list_elem_of_fmap in Hin as (k' & [= <-] & Hk'). by apply (Hnot k).
Qed.

Definition committed (c c' : core) (g' : list claim) : Prop :=
  linv c' g' /\ contents (c_queue c') = [] /\ c_status c' = c_status c /\
  LockList.held (c_locks c) ≡ₚ
    exclusively (deletes (contents (c_queue c))) ++ LockList.held (c_locks c').

Lemma linv_pop c g x rest q :
  linv c g -> c_status c <> GROWING -> contents (c_queue c) = x :: rest -> queue_wf q ->
  contents q = rest -> linv (mkCore (c_locks c) q (c_status c)) g.
Proof.
  intros [] Hs Hc Hq Hqc. split; cbn [c_locks c_queue c_status]; try done.
  rewrite Hc in l_delete. rewrite Hqc. by apply Forall_cons_1 in l_delete as [].
Qed.

Lemma loop_ends fuel c g :
  linv c g -> c_status c <> GROWING -> (length (contents (c_queue c)) < fuel)%nat ->
  ending (LockList.held (c_locks c)) (contents (c_queue c)) -> Forall readable (contents (c_queue c)) ->
  eok (commit_loop fuel) (fun c' g' _ => committed c c' g') c g.
Proof.
  revert c g. induction fuel as [|f IH]; intros c g Hl Hs Hlt He Hrd; [lia|].
  cbn [commit_loop]. go1. apply (wok_commit_empty anything _ _); [apply Hl|].
  destruct (contents (c_queue c)) as [|x rest] eqn:Hc.
  - rewrite bool_decide_true by done. known. apply wok_done.
    split_and!; [done..|]. by rewrite Hc.
  - rewrite bool_decide_false by done. go1.
    apply (wok_commit_get anything _ _ x rest); [apply Hl|done|]. go1.
    apply (wok_unwrap anything _ _ _ x); [done|]. go1. apply (wok_drop_ref anything _ _).
    apply Forall_cons_1 in Hrd as [Hx Hrd]. destruct (readable_seen x Hx) as [x' Hx'].
    go1. apply (wok_recall anything _ _ x x'); [done|]. apply ok_bind.
    eapply ok_mono; [|by eapply entry_ends]. intros c1 g1 [] (Hl1 & Hq1 & Hs1 & Hh1). go1.
    apply (wok_commit_pop anything _ _ x rest); [apply Hl1|by rewrite Hq1|].
    intros q Hq Hqc. eapply ok_mono; [|apply IH].
    + intros c3 g3 [] (Hl3 & Hq3 & Hs3 & Hh3). cbn [c_locks c_queue c_status] in *.
      split_and!; [done..|congruence|]. rewrite Hh1, Hh3, Hqc, Hc, (deletes_head x rest).
      unfold exclusively. rewrite fmap_app, <- app_assoc. done.
    + eapply linv_pop; [done|congruence| |done..]. by rewrite Hq1.
    + cbn [c_status]. congruence.
    + cbn [c_queue]. rewrite Hqc. simpl in Hlt. lia.
    + cbn [c_locks c_queue]. rewrite Hqc. by eapply ending_tail.
    + cbn [c_queue]. by rewrite Hqc.
Qed.

Lemma commit_ends p j c g :
  linv c g ->
  (c_status c = SHRINKING -> ending (LockList.held (c_locks c)) (contents (c_queue c)) /\
     Forall readable (contents (c_queue c))) ->
  eok (process_commit p j) (fun c' g' _ => linv c' g' /\
    (c_status c = SHRINKING -> committed c c' g')) c g.
Proof.
  intros Hl He. unfold process_commit. go1. apply (wok_get_status anything _ _).
  destruct (decide (c_status c = SHRINKING)) as [Hs|Hs];
    [rewrite bool_decide_true by done|rewrite bool_decide_false by done]; cbn [negb].
  - apply ok_bind. eapply ok_mono; [|apply loop_ends; [done|congruence|apply queue_fits, Hl|by apply He..]].
    intros c' g' [] Hc. go1. apply (wok_reply anything _ _). known. apply (wok_job_pop anything _ _).
    split; [apply Hc|done].
  - known. by apply (wok_reject anything _ _).
Qed.
End Commit.


(** ** An execution

    The worker deletes the only record, which it has locked, and adds another
    one; the witness runs the commit. *)

Definition emptied1 : shared * Worker :=
  submit (request_of 8 0) (serve (request_with 1 0 alice) (serve (request_of 7 0) locked1)).

Lemma emptied1_sound : sound emptied1.1 emptied1.2.
Proof.
  unfold emptied1. rewrite (surjective_pairing (serve (request_with 1 0 alice) _)).
  apply submit_sound, serve_sound, serve_sound, locked1_sound.
Qed.

#[export] Instance ending_dec held xs : Decision (ending held xs).
Proof. unfold ending. apply _. Defined.

