(* ===== verification/Reads.v ===== *)
(** * What a read delivers

    The reply of [process_shared_read] and [process_exclusive_read]
    ([worker.cpp]) for one worker alone: which record is locked, what the
    datagram holds, and what happens when the transaction's lock list does
    not take the lock. *)
From S2P Require Import Prelude Params Probe UniqueKey BufTable Bytes Ring Prog Locking.
From S2P Require Import Worker WorkerLogic Transaction Requests.
From S2P Require LockList StudentTuple StudentTable CommitQueue Channels JobBuf RetBuf.

(** ** The datagram that carries a record *)

(** [d] answers job [j], whose request is [buf], with the record [u]. *)
Record delivers (u : StudentTuple.StudentTuple) (j : Channels.job) (buf : list Z)
    (d : Channels.datagram) : Prop := {
  dl_conn : d.1 = Channels.conn_ j;
  dl_length : length d.2 = 46%nat;
  dl_ack : Bytes.read d.2 (JobBuf.offset JobBuf.ACK) 1 = [OpAck_value SUCCESS];
  dl_key : Bytes.read d.2 (JobBuf.offset JobBuf.TP_KEY) 1 = [StudentTuple.key_ u];
  dl_echo : Bytes.read d.2 0 6 = Bytes.read buf 0 6 /\ Bytes.read d.2 7 1 = Bytes.read buf 7 1;
  dl_record : forall that, (StudentTuple.deserialize_ that d.2 9).1 =
    StudentTuple.mkStudent (StudentTuple.checksum_ u) (StudentTuple.tickstamp_ that)
      (StudentTuple.name_ u) (StudentTuple.age_ u) (StudentTuple.key_ that)
}.

Lemma read_take (l : list Z) m o n : (o + n <= m)%nat -> Bytes.read (take m l) o n = Bytes.read l o n.
Proof.
  intros H. unfold Bytes.read. rewrite skipn_firstn_comm, take_take. f_equal. lia.
Qed.

Section Compose.
Context (u : StudentTuple.StudentTuple) (j : Channels.job) (buf : list Z).
Context (Hu : StudentTuple.student_wf u) (Hlen : Z.of_nat (length buf) = BUFFER_WIDTH).

Let b1 := Bytes.write buf 8 (Bytes.le_bytes 1 (StudentTuple.key_ u)).
Let b2 := (StudentTuple.serialize_ u b1 9).1.
Let b3 := Bytes.write b2 6 (Bytes.le_bytes 1 (OpAck_value SUCCESS)).

Lemma compose_lengths : length b1 = length buf /\ length b2 = length buf /\ length b3 = length buf.
Proof.
  assert (H1 : length b1 = length buf)
    by (apply Bytes.write_length; simpl; unfold BUFFER_WIDTH in *; lia).
  assert (H2 : length b2 = length buf).
  { rewrite <- H1. apply (StudentTuple.serial_lengths u b1 9 Hu).
    rewrite H1. unfold StudentTuple.SERIAL_SIZE, BUFFER_WIDTH in *. lia. }
  split_and!; [done..|]. rewrite <- H2. apply Bytes.write_length. rewrite H2. simpl.
  unfold BUFFER_WIDTH in *. lia.
Qed.

(** The acknowledgement is written over byte 6 only. *)
Lemma compose_reads :
  Bytes.read b3 6 1 = [OpAck_value SUCCESS] /\ Bytes.read b3 8 1 = [StudentTuple.key_ u] /\
  Bytes.read b3 0 6 = Bytes.read buf 0 6 /\ Bytes.read b3 7 1 = Bytes.read buf 7 1 /\
  (forall o n, (9 <= o)%nat -> Bytes.read b3 o n = Bytes.read b2 o n).
Proof.
  destruct compose_lengths as (L1 & L2 & L3).
  assert (F1 : (9 + StudentTuple.SERIAL_SIZE <= length b1)%nat)
    by (rewrite L1; unfold StudentTuple.SERIAL_SIZE, BUFFER_WIDTH in *; lia).
  pose proof (StudentTuple.wf_key _ Hu) as Hk. unfold is_byte in Hk.
  assert (Ho : forall o n, (o + n <= 6)%nat \/ (7 <= o)%nat ->
    Bytes.read b3 o n = Bytes.read b2 o n).
  { intros o n Hd. apply Bytes.read_write_other; [|simpl; lia].
    rewrite L2. simpl. unfold BUFFER_WIDTH in *. lia. }
  assert (Hs : forall o n, (o + n <= 9)%nat -> Bytes.read b2 o n = Bytes.read b1 o n)
    by (intros o n Hd; apply (StudentTuple.serial_outside u b1 9 Hu F1); by left).
  assert (H1 : forall o n, (o + n <= 8)%nat -> Bytes.read b1 o n = Bytes.read buf o n)
    by (intros o n Hd; apply Bytes.read_write_other; [simpl; unfold BUFFER_WIDTH in *; lia|by left]).
  split_and!.
  - assert (Hf : (6 + length (Bytes.le_bytes 1 (OpAck_value SUCCESS)) <= length b2)%nat)
      by (rewrite L2; simpl; unfold BUFFER_WIDTH in *; lia).
    exact (Bytes.read_write_same b2 6 _ Hf).
  - rewrite Ho, Hs by lia.
    assert (Hf : (8 + length (Bytes.le_bytes 1 (StudentTuple.key_ u)) <= length buf)%nat)
      by (simpl; unfold BUFFER_WIDTH in *; lia).
    pose proof (Bytes.read_write_same buf 8 _ Hf) as H. simpl length in H. unfold b1.
    rewrite H. simpl. by rewrite Z.mod_small.
  - by rewrite Ho, Hs, H1 by lia.
  - by rewrite Ho, Hs, H1 by lia.
  - intros o n Hd. apply Ho. lia.
Qed.

Lemma compose_delivers : delivers u j buf (Channels.conn_reply (Channels.conn_ j) b3 46).
Proof.
  destruct compose_lengths as (L1 & L2 & L3).
  destruct compose_reads as (Ra & Rk & R0 & R7 & R9).
  assert (F1 : (9 + StudentTuple.SERIAL_SIZE <= length b1)%nat)
    by (rewrite L1; unfold StudentTuple.SERIAL_SIZE, BUFFER_WIDTH in *; lia).
  pose proof (StudentTuple.serial_reads u b1 9 Hu F1) as (Sn & Sa & Sc).
  split; [done| | | | |]; cbn [Channels.conn_reply snd]; change (Z.to_nat 46) with 46%nat.
  - rewrite length_take. unfold BUFFER_WIDTH in *. lia.
  - rewrite read_take by (simpl; lia). exact Ra.
  - rewrite read_take by (simpl; lia). exact Rk.
  - rewrite !read_take by lia. by split.
  - intros that. change (Bytes.read b2 9 32 = StudentTuple.name_ u) in Sn.
    change (Bytes.read b2 41 1 = Bytes.le_bytes 1 (StudentTuple.age_ u)) in Sa.
    change (Bytes.read b2 42 4 = Bytes.le_bytes 4 (StudentTuple.checksum_ u)) in Sc.
    unfold StudentTuple.deserialize_, StudentTuple.NAME_LENGTH. cbn [fst Nat.add].
    rewrite !read_take, !R9, Sn, Sa, Sc by lia.
    pose proof (StudentTuple.wf_checksum _ Hu). pose proof (StudentTuple.wf_age _ Hu) as Ha.
    unfold is_byte in Ha. by rewrite !Bytes.le_value_bytes by (simpl; lia).
Qed.
End Compose.

(** ** The handlers, run alone *)

Definition nothing_else (s : shared) (w : Worker) (s' : shared) (w' : Worker) : Prop :=
  view_of s' = view_of s /\ lock_list_ w' = lock_list_ w /\
  commit_queue_ w' = commit_queue_ w /\ status_ w' = status_ w /\ running_ w' = running_ w.

Lemma send_record_returns p j i u s w :
  StudentTable.search_slot (view_of s) i = Some u -> StudentTuple.student_wf u ->
  JobBuf.ref p = Channels.job_ref j ->
  JobBuf.valid_ref (buffers_ (db_ s)) (Channels.job_ref j) ->
  exists s' w' d, returns (send_record p j i) s w s' w' tt /\ nothing_else s w s' w' /\
    sent_ w' = sent_ w ++ [d] /\
    delivers u j (buffer (buffers_ (db_ s)) (Channels.job_ref j)) d /\
    exists T, job_ch_ w' = (Channels.pop T (job_ch_ w)).2.
Proof.
  intros Hi Hu Hp Hv. set (r := Channels.job_ref j) in *. set (T := buffers_ (db_ s)) in *.
  set (T1 := JobBuf.set_key T p (StudentTuple.key_ u)).
  set (T2 := store T1 r (StudentTuple.serialize_ u (buffer T1 r) 9).1).
  assert (Hv1 : JobBuf.valid_ref T1 r).
  { unfold T1, JobBuf.set_key. rewrite <- Hp in Hv |- *. apply JobBuf.valid_set_field; [done|lia]. }
  assert (E1 : buffer T1 r = Bytes.write (buffer T r) 8 (Bytes.le_bytes 1 (StudentTuple.key_ u))).
  { unfold T1, JobBuf.set_key. rewrite <- Hp in Hv |- *. by apply JobBuf.buffer_set_field. }
  assert (E2 : buffer T2 r = (StudentTuple.serialize_ u (buffer T1 r) 9).1)
    by (by apply JobBuf.buffer_store).
  assert (Hv2 : JobBuf.valid_ref T2 r).
  { unfold JobBuf.valid_ref. rewrite E2.
    destruct (compose_lengths u (buffer T r) Hu Hv) as (_ & L2 & _). rewrite E1, L2. exact Hv. }
  destruct (finish_returns SUCCESS (JobBuf.set_buffer_size p 46) 46 j (set_buffers s T2) w)
    as (s' & w' & Hr & [Ht Hco Hs Hpop Hrun]).
  exists s', w', (answer SUCCESS T2 (JobBuf.set_buffer_size p 46) 46 j).
  injection Hco as El Eq Est. split_and!; [|by split_and!|exact Hs| |exact Hpop].
  - unfold send_record. apply (returns_bind _ _ _ _ s w u).
    { apply returns_act. unfold view_of in Hi. rewrite Hi. by destruct s as [[? ? ?] ?]. }
    apply (returns_bind _ _ _ _ (set_buffers s T1) w tt); [by apply returns_act|].
    apply (returns_bind _ _ _ _ (set_buffers s T2) w (Ok 37)); [by apply returns_act|].
    apply (returns_bind _ _ _ _ (set_buffers s T2) w 37); [by apply unwrap_returns|].
    exact Hr.
  - pose proof (compose_delivers u j (buffer T r) Hu Hv) as Hd.
    assert (Hb : buffer (JobBuf.set_ack T2 (JobBuf.set_buffer_size p 46) SUCCESS)
        (JobBuf.ref p) = Bytes.write (buffer T2 r) 6 (Bytes.le_bytes 1 (OpAck_value SUCCESS))).
    { rewrite Hp. unfold JobBuf.set_ack. rewrite <- Hp in Hv2 |- *.
      by apply (JobBuf.buffer_set_field T2 (JobBuf.set_buffer_size p 46)). }
    unfold answer. cbn [JobBuf.ref JobBuf.set_buffer_size]. rewrite Hb, E2, E1. exact Hd.
Qed.

(** ** Acquiring a record, alone *)

Definition acquire (m : LockType) (t : StudentTable.StudentTable) :=
  match m with
  | SHARED => StudentTable.wait_shared_ id id t
  | EXCLUSIVE => StudentTable.wait_exclusive_ id id t
  end.

(** A lock word [l] admits mode [m], and becomes [taken m l]. *)
Definition available (m : LockType) (l : Z) : Prop :=
  match m with SHARED => 0 <= l | EXCLUSIVE => l = 0 end.
Definition taken (m : LockType) (l : Z) : Z :=
  match m with SHARED => l + 1 | EXCLUSIVE => -1 end.

(** Every lock word can count one more holder. *)
Definition countable (t : StudentTable.StudentTable) : Prop :=
  forall r, r ∈ StudentTable.rows t -> -1 <= r.2 < 127.

Lemma granted_record ok l s s' i :
  StudentTable.granted ok l s s' i -> exists e rest,
    ok e = true /\ StudentTable.live_entry e = true /\
    StudentTable.search_slot s' i = Some (StudentTable.tuple_ e) /\
    StudentTable.rows s ≡ₚ (StudentTable.tuple_ e, StudentTable.lock_ e) :: rest /\
    StudentTable.rows s' ≡ₚ (StudentTable.tuple_ e, l (StudentTable.lock_ e)) :: rest.
Proof.
  intros (e & rest & Hi & Hl & Hok & _ & Ht & H1 & H2). exists e, rest. split_and!; [done..| |done|done].
  unfold StudentTable.search_slot. rewrite Ht. unfold StudentTable.update_slot.
  by rewrite list_lookup_alter_eq, Hi.
Qed.

Lemma acquire_alone m t :
  StudentTable.table_wf t -> countable t ->
  (acquire m t = (t, Err TupleTableError_Timeout) /\
   forall r, r ∈ StudentTable.rows t -> ~ available m r.2) \/
  (exists i u l rest t', acquire m t = (t', Ok i) /\
   StudentTable.search_slot t' i = Some u /\ available m l /\
   StudentTable.rows t ≡ₚ (u, l) :: rest /\ StudentTable.rows t' ≡ₚ (u, taken m l) :: rest).
Proof.
  intros Hwf Hc. pose proof StudentTable.preserves_id as Hid. destruct m; simpl.
  - destruct (StudentTable.wait_shared_cases id id t Hid Hid Hwf)
      as (s & Hs & ->%StudentTable.settled_id & _ & [[E Hz]|(i & e & s' & E & Hi & Ha & Hg)]).
    + left. split; [done|]. intros r Hr. rewrite (StudentTable.wf_shared _ Hwf) in Hz.
      rewrite (StudentTable.none_avail_shared t Hwf Hz r Hr). lia.
    + right. assert (Hl : StudentTable.lock_ e < 127).
      { apply andb_prop in Ha as [Hl _]. apply (Hc (StudentTable.tuple_ e, StudentTable.lock_ e)).
        apply elem_of_omap. exists i, e. split; [done|]. unfold StudentTable.row. by rewrite Hl. }
      destruct (Hg Hl) as [_ (e' & rest & Hok & _ & Hi' & H1 & H2)%granted_record].
      exists i, (StudentTable.tuple_ e'), (StudentTable.lock_ e'), rest, s'.
      split_and!; [done..| |done|done].
      apply andb_prop in Hok as [_ Hok]. by apply Z.leb_le.
  - destruct (StudentTable.wait_exclusive_cases id id t Hid Hid Hwf)
      as (s & Hs & ->%StudentTable.settled_id & _ & [[E Hz]|(i & s' & E & _ & Hg)]).
    + left. split; [done|]. intros r Hr. rewrite (StudentTable.wf_exclusive _ Hwf) in Hz.
      by apply (StudentTable.none_avail_exclusive t Hz r Hr).
    + right. apply granted_record in Hg as (e & rest & Hok & _ & Hi' & H1 & H2).
      exists i, (StudentTable.tuple_ e), (StudentTable.lock_ e), rest, s'.
      split_and!; [done..| |done|done].
      apply andb_prop in Hok as [_ Hok]. by apply Z.eqb_eq.
Qed.

(** ** The retry loops *)

Definition retry (m : LockType) : nat -> Z -> Z -> JobBuf.job_buf -> Channels.job -> wprog unit :=
  match m with SHARED => shared_retry | EXCLUSIVE => exclusive_retry end.
Definition process_read (m : LockType) : JobBuf.job_buf -> Channels.job -> wprog unit :=
  match m with SHARED => process_shared_read | EXCLUSIVE => process_exclusive_read end.

(** What follows the acquisition of slot [i]. *)
Definition after_acquire (m : LockType) (p : JobBuf.job_buf) (j : Channels.job) (i : nat)
    : wprog unit :=
  rec ← read_record i;
  r ← on_locks (fun l => LockList.add_lock l (record_key (StudentTuple.key_ rec)) m);
  match m with
  | SHARED =>
      (if negb (bool_decide (r = LockError_None)) then reject BAD_ACCESS p j else Done tt)
        ≫= fun _ => send_record p j i
  | EXCLUSIVE =>
      if negb (bool_decide (r = LockError_None)) then reject BAD_ACCESS p j
      else send_record p j i
  end.

Section Retry.
Context (m : LockType) (p : JobBuf.job_buf) (j : Channels.job).

(** An attempt that gets a record, and one that times out. *)
Lemma retry_granted f n t' i s w s2 w2 :
  n < MAX_TIMEOUT_RETRY -> running_ w = true -> acquire m (view_of s) = (t', Ok i) ->
  returns (after_acquire m p j i) (set_students s t') w s2 w2 tt ->
  returns (retry m (S f) n tbl_id_StudentTable p j) s w s2 w2 tt.
Proof.
  intros Hn Hrun Ha Hr. apply Z.leb_gt in Hn.
  assert (Hw : forall B (k : _ -> wprog B) b s3 w3,
    returns (k (Ok i)) (set_students s t') w s3 w3 b ->
    returns (on_table (fun t => Ret (acquire m t)) ≫= k) s w s3 w3 b).
  { intros B k b s3 w3. apply returns_bind, returns_act. unfold view_of in Ha. by rewrite Ha. }
  destruct m; cbn [acquire retry shared_retry exclusive_retry] in Hw |- *; rewrite Hn;
    (apply (returns_bind _ _ _ _ s w true); [by apply returns_act; rewrite Hrun|]; cbn [negb];
     apply Hw; rewrite is_ok_Ok; cbn [negb]; eapply returns_bind; [by apply unwrap_returns|];
     exact Hr).
Qed.

Lemma retry_timeout s w :
  running_ w = true -> acquire m (view_of s) = (view_of s, Err TupleTableError_Timeout) ->
  forall f n, 0 <= MAX_TIMEOUT_RETRY - n < Z.of_nat f ->
  exists s' w', returns (retry m f n tbl_id_StudentTable p j) s w s' w' tt /\
    answered (answer TIMEOUT (buffers_ (db_ s)) p 7 j) s w s' w'.
Proof.
  intros Hrun Ha. destruct (finish_returns TIMEOUT p 7 j s w) as (s' & w' & Hr & Han).
  assert (Hw : forall B (k : _ -> wprog B) b s3 w3,
    returns (k (Err TupleTableError_Timeout)) s w s3 w3 b ->
    returns (on_table (fun t => Ret (acquire m t)) ≫= k) s w s3 w3 b).
  { intros B k b s3 w3. apply returns_bind, returns_act. unfold view_of in Ha. rewrite Ha.
    by destruct s as [[? ? ?] ?]. }
  intros f n Hf. exists s', w'. split; [|done]. revert n Hf.
  induction f as [|f IH]; intros n Hf; [lia|].
  destruct (MAX_TIMEOUT_RETRY <=? n) eqn:En.
  - destruct m; cbn [retry shared_retry exclusive_retry]; rewrite En; exact Hr.
  - apply Z.leb_gt in En as Hn. specialize (IH (n + 1) ltac:(lia)).
    destruct m; cbn [acquire retry shared_retry exclusive_retry] in Hw, IH |- *; rewrite En;
      (apply (returns_bind _ _ _ _ s w true); [by apply returns_act; rewrite Hrun|]; cbn [negb];
       apply Hw; rewrite is_ok_Err by done; cbn [negb]; exact IH).
Qed.
End Retry.

(** [set_ack] leaves the bytes a reply echoes. *)
Lemma delivers_after_ack u j T p a d :
  JobBuf.valid_ref T (JobBuf.ref p) ->
  delivers u j (buffer (JobBuf.set_ack T p a) (JobBuf.ref p)) d ->
  delivers u j (buffer T (JobBuf.ref p)) d.
Proof.
  intros Hv [H1 H2 H3 H4 [H5 H6] H7]. split; [done..| |done].
  unfold JobBuf.set_ack in H5, H6. rewrite JobBuf.buffer_set_field in H5, H6 by done.
  unfold JobBuf.valid_ref, BUFFER_WIDTH in Hv.
  rewrite Bytes.read_write_other in H5, H6 by (simpl; lia). by split.
Qed.

(** The replies of a read: with the lock in the list, the record; otherwise
    [BAD_ACCESS], which a shared read follows up with the record all the
    same. *)
Definition replies (m : LockType) (granted : bool) (refusal d : Channels.datagram)
    : list Channels.datagram :=
  if granted then [d] else match m with SHARED => [refusal; d] | EXCLUSIVE => [refusal] end.

Lemma after_acquire_returns m p j i u s w :
  locks_ok (lock_list_ w) ->
  StudentTable.search_slot (view_of s) i = Some u -> StudentTuple.student_wf u ->
  JobBuf.ref p = Channels.job_ref j ->
  JobBuf.valid_ref (buffers_ (db_ s)) (Channels.job_ref j) ->
  exists s' w' granted d, returns (after_acquire m p j i) s w s' w' tt /\
    view_of s' = view_of s /\ commit_queue_ w' = commit_queue_ w /\ status_ w' = status_ w /\
    (granted = true -> LockList.held (lock_list_ w') ≡ₚ
       (record_key (StudentTuple.key_ u), m) :: LockList.held (lock_list_ w)) /\
    (granted = false -> lock_list_ w' = lock_list_ w) /\
    sent_ w' = sent_ w ++
      replies m granted (answer BAD_ACCESS (buffers_ (db_ s)) p 7 j) d /\
    delivers u j (buffer (buffers_ (db_ s)) (Channels.job_ref j)) d /\
    running_ w' = running_ w /\
    (granted = true -> exists ll,
       LockList.add_lock (lock_list_ w) (record_key (StudentTuple.key_ u)) m = Ret (ll, LockError_None)) /\
    (granted = false -> m = SHARED -> exists T1 T2,
       job_ch_ w' = (Channels.pop T2 (Channels.pop T1 (job_ch_ w)).2).2).
Proof.
  intros Hok Hi Hu Hp Hv. unfold after_acquire.
  destruct (locks_add _ (record_key (StudentTuple.key_ u)) m Hok) as (ll' & r & Hadd & _ & Hcase).
  set (w1 := set_lock_list w ll').
  assert (Hrd : forall (h : LockError -> wprog unit) s2 w2, returns (h r) s w1 s2 w2 tt ->
    returns (rec ← read_record i; r ← on_locks (fun l =>
      LockList.add_lock l (record_key (StudentTuple.key_ rec)) m); h r) s w s2 w2 tt).
  { intros h s2 w2 Hh. apply (returns_bind _ _ _ _ s w u).
    { apply returns_act. unfold view_of in Hi. rewrite Hi. by destruct s as [[? ? ?] ?]. }
    apply (returns_bind _ _ _ _ s w1 r); [apply returns_act; by rewrite Hadd|exact Hh]. }
  destruct Hcase as [[-> Hheld]|[Hne ->]].
  - destruct (send_record_returns p j i u s w1 Hi Hu Hp Hv)
      as (s2 & w2 & d & H1 & (H2 & H3 & H4 & H5 & H8) & H6 & H7 & _).
    exists s2, w2, true, d. rewrite H3, H4, H5, H6. split_and!; try done; [|by exists ll'].
    apply Hrd. by destruct m.
  - destruct w as [? ? ? ? q st ll sn]. set (w := mkWorker _ _ _ _ q st ll sn) in *.
    assert (w1 = w) as E1 by reflexivity. rewrite E1 in Hrd. clear E1 w1.
    set (T := buffers_ (db_ s)) in *. set (T1 := JobBuf.set_ack T p BAD_ACCESS).
    set (s1 := set_buffers s T1). set (w1 := add_sent w (answer BAD_ACCESS T p 7 j)).
    destruct (job_pop_returns s1 w1) as (T2 & ch & Hb & Hpop & Hch).
    set (s2 := set_buffers s1 T2) in *. set (w2 := set_job_ch w1 ch) in *.
    assert (Hrej : returns (reject BAD_ACCESS p j) s w s2 w2 tt).
    { apply (returns_bind _ _ _ _ s1 w1 tt); [by apply returns_act|exact Hpop]. }
    destruct m.
    + assert (Hb2 : buffer T2 (Channels.job_ref j) = buffer T1 (Channels.job_ref j))
        by apply Hb.
      assert (Hv2 : JobBuf.valid_ref T2 (Channels.job_ref j)).
      { unfold JobBuf.valid_ref. rewrite Hb2. unfold T1, JobBuf.set_ack. rewrite <- Hp in Hv |- *.
        apply JobBuf.valid_set_field; [done|lia]. }
      destruct (send_record_returns p j i u s2 w2 Hi Hu Hp Hv2)
        as (s3 & w3 & d & H1 & (H2 & H3 & H4 & H5 & H8) & H6 & H7 & T3 & H9).
      exists s3, w3, false, d. rewrite H3, H4, H5, H6. split_and!; try done.
      * apply Hrd. rewrite bool_decide_false by done. eapply returns_bind; [exact Hrej|exact H1].
      * cbn [sent_ w2 w1 set_job_ch add_sent]. unfold w2, w1. cbn. by rewrite <- app_assoc.
      * change (buffers_ (db_ s2)) with T2 in H7. rewrite Hb2, <- Hp in H7. rewrite <- Hp in Hv |- *.
        by apply (delivers_after_ack _ _ _ _ BAD_ACCESS).
      * intros _ _. exists (buffers_ (db_ s1)), T3. rewrite H9. change (Worker.job_ch_ w2) with ch. by rewrite Hch.
    + exists s2, w2, false. eexists. split_and!; try done;
        [apply Hrd; by rewrite bool_decide_false|by apply (compose_delivers u j)].
Qed.

(** ** Properties *)

(** C16.  A read, from the request to the reply.  If no record can be locked
    in the requested mode, it is answered with [TIMEOUT] after the eight
    retries and nothing changes.  Otherwise one such record is locked in the
    table, and its lock added to the transaction's list: then the only reply
    is a datagram of 46 bytes that echoes the request, says [SUCCESS] and
    carries the record's key and fields.  If the list refuses the lock, the
    record stays locked in the table with no entry in the list; the reply is
    [BAD_ACCESS], and for a shared read the record follows in a second
    reply. *)
Theorem read_delivers m p j s w :
  let T := buffers_ (db_ s) in
  sound s w -> status_ w = GROWING -> running_ w = true ->
  JobBuf.ref p = Channels.job_ref j -> JobBuf.valid_ref T (Channels.job_ref j) ->
  JobBuf.get_tbl T p = Ok tbl_id_StudentTable -> countable (view_of s) ->
  (forall r, r ∈ StudentTable.rows (view_of s) -> StudentTuple.student_wf r.1) ->
  exists s' w', returns (process_read m p j) s w s' w' tt /\
  (((forall r, r ∈ StudentTable.rows (view_of s) -> ~ available m r.2) /\
    answered (answer TIMEOUT T p 7 j) s w s' w') \/
   (exists u l rest granted d, available m l /\
    StudentTable.rows (view_of s) ≡ₚ (u, l) :: rest /\
    StudentTable.rows (view_of s') ≡ₚ (u, taken m l) :: rest /\
    commit_queue_ w' = commit_queue_ w /\ status_ w' = GROWING /\
    (granted = true -> LockList.held (lock_list_ w') ≡ₚ
       (record_key (StudentTuple.key_ u), m) :: LockList.held (lock_list_ w)) /\
    (granted = false -> lock_list_ w' = lock_list_ w) /\
    sent_ w' = sent_ w ++ replies m granted (answer BAD_ACCESS T p 7 j) d /\
    delivers u j (buffer T (Channels.job_ref j)) d)).
Proof.
  intros T (g & Hl & O & HG) Hst Hrun Hp Hv Ht Hc Hrw.
  pose proof (good_wf _ _ HG) as Hwf. pose proof (l_locks _ _ Hl) as Hlo.
  assert (Hent : forall s' w', returns (retry m RETRY_FUEL 0 tbl_id_StudentTable p j) s w s' w' tt ->
    returns (process_read m p j) s w s' w' tt).
  { intros s' w' Hr. destruct m; cbn [process_read];
    (apply (returns_bind _ _ _ _ s w GROWING); [by apply returns_act; rewrite Hst|];
     rewrite bool_decide_true by done; cbn [negb];
     apply (returns_bind _ _ _ _ s w (Ok tbl_id_StudentTable)); [by apply read_returns|];
     rewrite is_ok_Ok; cbn [negb];
     eapply returns_bind; [by apply unwrap_returns|]; rewrite Z.eqb_refl; exact Hr). }
  destruct (acquire_alone m (view_of s) Hwf Hc)
    as [[Ha Hno]|(i & u & l & rest & t' & Ha & Hi & Hav & H1 & H2)].
  - destruct (retry_timeout m p j s w Hrun Ha RETRY_FUEL 0) as (s' & w' & Hr & Han);
      [unfold RETRY_FUEL, MAX_TIMEOUT_RETRY; simpl; lia|].
    exists s', w'. split; [by apply Hent|]. by left.
  - assert (Hu : StudentTuple.student_wf u).
    { apply (Hrw (u, l)). rewrite H1. apply elem_of_cons. by left. }
    destruct (after_acquire_returns m p j i u (set_students s t') w Hlo Hi Hu Hp Hv)
      as (s' & w' & granted & d & Hr & Hview & Hq & Hs' & Hg & Hng & Hsent & Hd & _).
    exists s', w'. split.
    + by apply Hent, (retry_granted m p j _ 0 t' i).
    + right. exists u, l, rest, granted, d. rewrite Hview, <- Hst. by split_and!.
Qed.

(** ** Witnesses *)

Definition read1 : shared * Worker := submit (request_of 3 0) start0.
Definition parser_r : JobBuf.job_buf := JobBuf.mkJobBuf (Some 0%nat) 9.
Definition job_r : Channels.job := Channels.job_make (Some 0%nat) 9 Channels.conn_default.

Lemma read1_sound : sound read1.1 read1.2.
Proof. unfold read1. rewrite (surjective_pairing start0). apply submit_sound, start0_sound. Qed.

Lemma read1_rows : StudentTable.rows (view_of read1.1) = [(StudentTable.with_key StudentTable.bob 0, 0)].
Proof. vm_compute. reflexivity. Qed.

Lemma bob_wf : StudentTuple.student_wf (StudentTable.with_key StudentTable.bob 0).
Proof.
  split; simpl; try lia; try done; try (unfold is_byte; lia).
  repeat constructor; unfold is_byte; lia.
Qed.

Lemma read_delivers_witness :
  exists s' w', returns (process_read EXCLUSIVE parser_r job_r) read1.1 read1.2 s' w' tt /\
    StudentTable.rows (view_of s') ≡ₚ [(StudentTable.with_key StudentTable.bob 0, -1)].
Proof.
  destruct (read_delivers EXCLUSIVE parser_r job_r read1.1 read1.2) as (s' & w' & Hr & Hcase).
  - exact read1_sound.
  - vm_compute. reflexivity.
  - vm_compute. reflexivity.
  - reflexivity.
  - vm_compute. reflexivity.
  - vm_compute. reflexivity.
  - intros r. rewrite read1_rows. intros ->%list_elem_of_singleton. simpl. lia.
  - intros r. rewrite read1_rows. intros ->%list_elem_of_singleton. exact bob_wf.
  - exists s', w'. split; [exact Hr|].
    destruct Hcase as [[Hno _]|(u & l & rest & granted & d & _ & H1 & H2 & _)].
    + exfalso. apply (Hno (StudentTable.with_key StudentTable.bob 0, 0)); [|reflexivity].
      rewrite read1_rows. by left.
    + rewrite read1_rows in H1. apply Permutation_singleton_l in H1.
      injection H1 as <- <- <-. exact H2.
Defined.

(** ** A refused shared read *)

(** The slots of a channel are a ring of more than two. *)
Lemma ring_next h : (h < Channels.MaxJobs)%nat ->
  let h1 := ((h + 1) mod Channels.MaxJobs)%nat in let h2 := ((h1 + 1) mod Channels.MaxJobs)%nat in
  (h1 < Channels.MaxJobs)%nat /\ (h2 < Channels.MaxJobs)%nat /\ h1 <> h /\ h2 <> h /\ h2 <> h1.
Proof.
  change Channels.MaxJobs with 16%nat. intros Hh h1 h2.
  pose proof (Nat.div_mod_eq (h + 1) 16) as E1. pose proof (Nat.mod_upper_bound (h + 1) 16) as B1.
  pose proof (Nat.div_mod_eq (h1 + 1) 16) as E2. pose proof (Nat.mod_upper_bound (h1 + 1) 16) as B2.
  change ((h + 1) mod 16)%nat with h1 in E1, B1. change ((h1 + 1) mod 16)%nat with h2 in E2, B2.
  clearbody h2. clearbody h1. lia.
Qed.

(** What taking a job off does to the array and the counters. *)
Lemma popped T (c : Channels.job_channel) j :
  Channels.jobs_ c !! Channels.head_ c = Some j ->
  exists j', (Channels.pop T c).2 = Channels.mkJobChannel (<[Channels.head_ c := j']> (Channels.jobs_ c))
    ((Channels.head_ c + 1) mod Channels.MaxJobs) (Channels.tail_ c) (u64 (Channels.count_ c - 1)).
Proof.
  intros Hj. unfold Channels.pop. rewrite Hj. destruct (Channels.job_destroy T j) as [T' j']. by exists j'.
Qed.

(** A channel with one job, and no references to buffers in its other slots. *)
Record lone_job (c : Channels.job_channel) : Prop := {
  lone_length : length (Channels.jobs_ c) = Channels.MaxJobs;
  lone_head : (Channels.head_ c < Channels.MaxJobs)%nat;
  lone_count : Channels.count_ c = 1;
  lone_rest : forall n j, Channels.jobs_ c !! n = Some j -> n <> Channels.head_ c -> Channels.job_ref j = None
}.

(** Taking two jobs off it. *)
Lemma popped_twice T1 T2 c :
  lone_job c -> let c' := (Channels.pop T2 (Channels.pop T1 c).2).2 in
  Channels.count_ c' = 2 ^ 64 - 1 /\
  exists j, Channels.jobs_ c' !! Channels.head_ c' = Some j /\ Channels.job_ref j = None.
Proof.
  intros [Hlen Hh Hc Hrest] c'. unfold c'. destruct (ring_next _ Hh) as (Hh1 & Hh2 & Hne1 & Hne2 & Hne3).
  destruct (lookup_lt_is_Some_2 (Channels.jobs_ c) (Channels.head_ c)) as [j1 H1]; [by rewrite Hlen|].
  destruct (popped T1 c j1 H1) as [x1 ->].
  edestruct (lookup_lt_is_Some_2 (Channels.jobs_ c)) as [j2 H2]; [rewrite Hlen; exact Hh1|].
  destruct (popped T2 (Channels.mkJobChannel (<[Channels.head_ c := x1]> (Channels.jobs_ c))
    ((Channels.head_ c + 1) mod Channels.MaxJobs) (Channels.tail_ c) (u64 (Channels.count_ c - 1))) j2) as [x2 ->].
  { cbn [Channels.jobs_ Channels.head_]. by rewrite list_lookup_insert_ne. }
  cbn [Channels.jobs_ Channels.head_ Channels.count_]. rewrite Hc. split; [reflexivity|].
  edestruct (lookup_lt_is_Some_2 (Channels.jobs_ c)) as [j3 H3]; [rewrite Hlen; exact Hh2|].
  exists j3. rewrite !list_lookup_insert_ne by done. split; [exact H3|]. by eapply Hrest.
Qed.

(** The next turn of a worker whose next job has no buffer. *)
Lemma null_job_crashes {mem : expiry} n s w j :
  running_ w = true -> Channels.empty (job_ch_ w) = false ->
  Channels.jobs_ (job_ch_ w) !! Channels.head_ (job_ch_ w) = Some j -> Channels.job_ref j = None ->
  run idle n iteration s w = Undef.
Proof.
  intros Hrun He Hj Hn. unfold iteration.
  etrans; [apply (run_alone _ _ _ _ _ s w true); by rewrite Hrun|]. cbv beta. cbn [negb].
  assert (Hrecv : Channels.recv id (buffers_ (db_ s)) (job_ch_ w) = (buffers_ (db_ s), job_ch_ w, Ok j)).
  { unfold Channels.recv, wait_for, id. cbn [snd]. rewrite He. cbn [negb].
    unfold Channels.front_copy. rewrite Hj. unfold Channels.job_copy. rewrite Hn. cbn.
    f_equal. f_equal. destruct j as [[r sz] cn]. unfold Channels.job_ref in Hn. cbn in Hn. by subst r. }
  etrans; [apply (run_alone _ _ _ _ _ s w (Ok j))|].
  { rewrite Hrecv. by destruct s as [[? ? ?] ?], w. }
  cbv beta. rewrite is_ok_Ok. cbn [negb].
  etrans; [by apply (run_alone _ _ _ _ _ s (set_timeout_cnt w 0) tt)|].
  etrans; [by apply (run_alone _ _ _ _ _ s (set_timeout_cnt w 0) 0)|]. cbv beta.
  change (MAX_TIMEOUT_RETRY <=? 0) with false. cbv iota.
  etrans; [by apply (run_alone _ _ _ _ _ s (set_timeout_cnt w 0) j)|]. unfold handle. rewrite Hn.
  reflexivity.
Qed.

(** C34.  A refused shared read brings its worker down.  Let a growing transaction
    ask for a shared read; some record admits a shared lock, the list refuses the
    lock (it holds one on the record already, or it is full), and the request is
    the only job in the channel, whose other slots are empty.  Run alone, the
    handler answers [BAD_ACCESS] and then once more, with the record, and takes
    two jobs off the channel, which now claims to hold 2^64 - 1; and the next turn
    of the worker dereferences the null reference of a job that is not there. *)
Theorem refused_read_crashes {mem : expiry} p j s w t' i u ll e :
  let T := buffers_ (db_ s) in
  sound s w -> status_ w = GROWING -> running_ w = true ->
  JobBuf.ref p = Channels.job_ref j -> JobBuf.valid_ref T (Channels.job_ref j) ->
  JobBuf.get_tbl T p = Ok tbl_id_StudentTable ->
  StudentTable.wait_shared_ id id (view_of s) = (t', Ok i) ->
  StudentTable.search_slot t' i = Some u -> StudentTuple.student_wf u ->
  LockList.add_lock (lock_list_ w) (record_key (StudentTuple.key_ u)) SHARED = Ret (ll, e) -> e <> LockError_None ->
  lone_job (job_ch_ w) ->
  exists s' w' d, returns (process_shared_read p j) s w s' w' tt /\
    sent_ w' = sent_ w ++ [answer BAD_ACCESS T p 7 j; d] /\ delivers u j (buffer T (Channels.job_ref j)) d /\
    Channels.count_ (job_ch_ w') = 2 ^ 64 - 1 /\
    forall n, run idle n iteration s' w' = Undef.
Proof.
  intros T (g & Hl & _) Hst Hrun Hp Hv Ht Ha Hi Hu Hadd He Hlone. pose proof (l_locks _ _ Hl) as Hlo.
  destruct (after_acquire_returns SHARED p j i u (set_students s t') w Hlo Hi Hu Hp Hv)
    as (s' & w' & granted & d & Hr & _ & _ & _ & _ & _ & Hsent & Hd & Hrun' & Hg & Hch).
  destruct granted; [destruct (Hg eq_refl) as [ll2 E]; simpl in E, Hadd; congruence|].
  destruct (Hch eq_refl eq_refl) as (T1 & T2 & Hch'). clear Hg Hch.
  destruct (popped_twice T1 T2 _ Hlone) as (Hc & j2 & Hj & Hn). rewrite <- Hch' in Hc, Hj.
  exists s', w', d. split_and!; [|exact Hsent|exact Hd|exact Hc|].
  - apply (returns_bind _ _ _ _ s w GROWING); [by apply returns_act; rewrite Hst|].
    rewrite bool_decide_true by done. cbn [negb].
    apply (returns_bind _ _ _ _ s w (Ok tbl_id_StudentTable)); [by apply read_returns|].
    rewrite is_ok_Ok. cbn [negb]. eapply returns_bind; [by apply unwrap_returns|]. rewrite Z.eqb_refl.
    by apply (retry_granted SHARED p j _ 0 t' i).
  - intros n. apply (null_job_crashes n s' w' j2); [congruence| |exact Hj|exact Hn].
    unfold Channels.empty. by rewrite Hc.
Qed.

(** The second of two shared reads of the only record. *)
Definition read_again : shared * Worker := submit (request_of 2 0) (serve (request_of 2 0) start0).
Definition parser_again : JobBuf.job_buf := JobBuf.mkJobBuf (Some 1%nat) 9.
Definition job_again : Channels.job := Channels.job_make (Some 1%nat) 9 Channels.conn_default.

Lemma read_again_sound : sound read_again.1 read_again.2.
Proof.
  unfold read_again. rewrite (surjective_pairing (serve _ start0)).
  apply submit_sound, serve_sound, start0_sound.
Qed.

Definition lone_jobb (c : Channels.job_channel) : bool :=
  bool_decide (length (Channels.jobs_ c) = Channels.MaxJobs) && bool_decide (Channels.head_ c < Channels.MaxJobs)%nat &&
  bool_decide (Channels.count_ c = 1) &&
  forallb (fun n => bool_decide (n = Channels.head_ c) ||
    bool_decide ((Channels.jobs_ c !! n) ≫= Channels.job_ref = None)) (seq 0 (length (Channels.jobs_ c))).

Lemma lone_jobb_lone c : lone_jobb c = true -> lone_job c.
Proof.
  intros [[[H1%bool_decide_eq_true H2%bool_decide_eq_true]%andb_true_iff H3%bool_decide_eq_true]%andb_true_iff
    H4]%andb_true_iff. split; [done..|]. intros n j Hn Hne. rewrite forallb_forall in H4.
  assert (Hin : In n (seq 0 (length (Channels.jobs_ c)))).
  { apply in_seq. apply lookup_lt_Some in Hn. lia. }
  specialize (H4 n Hin). rewrite bool_decide_false in H4 by done. cbn [orb] in H4.
  apply bool_decide_eq_true in H4. by rewrite Hn in H4.
Qed.

Lemma refused_read_crashes_witness :
  exists s' w' d, returns (process_shared_read parser_again job_again) read_again.1 read_again.2 s' w' tt /\
    sent_ w' = sent_ read_again.2 ++ [answer BAD_ACCESS (buffers_ (db_ read_again.1)) parser_again 7 job_again; d] /\
    Channels.count_ (job_ch_ w') = 2 ^ 64 - 1 /\
    run idle 0 (iteration (mem := Retained)) s' w' = Undef.
Proof.
  destruct (refused_read_crashes (mem := Retained) parser_again job_again read_again.1 read_again.2
    (StudentTable.wait_shared_ id id (view_of read_again.1)).1 0%nat (StudentTable.with_key StudentTable.bob 0)
    (lock_list_ read_again.2) LockError_Conflict) as (s' & w' & d & H1 & H2 & _ & H3 & H4).
  - exact read_again_sound.
  - vm_compute. reflexivity.
  - vm_compute. reflexivity.
  - reflexivity.
  - vm_compute. reflexivity.
  - vm_compute. reflexivity.
  - vm_compute. reflexivity.
  - vm_compute. reflexivity.
  - exact bob_wf.
  - vm_compute. reflexivity.
  - discriminate.
  - apply lone_jobb_lone. vm_compute. reflexivity.
  - exists s', w', d. split; [exact H1|]. split; [exact H2|]. split; [exact H3|]. apply H4.
Defined.
