(* ===== verification/Upgrades.v ===== *)
(** * Yielding and promoting a lock

    The two requests that change a lock the transaction holds, run while no
    other thread is active: what becomes of the record's lock word, of the
    transaction's list, and what the client is told. *)
From S2P Require Import Prelude Params Probe BufTable UniqueKey Ring Prog Locking Worker.
From S2P Require Import WorkerLogic Transaction Requests.
From S2P Require StudentTuple StudentTable LockList CommitQueue Channels JobBuf.

Section Upgrade.
Context (p : JobBuf.job_buf) (j : Channels.job) (s : shared) (w : Worker) (k : Z).
Implicit Types (ll : LockList.lock_list) (t : StudentTable.StudentTable).

(** The lock word of a record whose shared lock is listed. *)
Lemma shared_row O rest :
  Good (view_of s) ((record_key k, SHARED, None) :: rest ++ O) ->
  exists i e, StudentTable.table_holder (StudentTable.table_ (view_of s)) k i e /\
    0 < StudentTable.lock_ e.
Proof.
  intros HG. destruct (claim_row _ _ _ _ _ HG) as (i & e & Hh & _ & Hl). by exists i, e.
Qed.

(** The list answers [SHARED] exactly if it holds the shared lock. *)
Lemma listed_shared g O :
  linv (core_of w) g -> Good (view_of s) (g ++ O) ->
  (LockList.get_lock (lock_list_ w) (record_key k) = Ok SHARED /\
   exists locks ll1 ll2, LockList.held (lock_list_ w) ≡ₚ (record_key k, SHARED) :: locks /\
     LockList.rm_lock (lock_list_ w) (record_key k) = Ret (ll1, LockError_None) /\
     LockList.held ll1 ≡ₚ locks /\
     LockList.promote_lock (lock_list_ w) (record_key k) = Ret (ll2, LockError_None) /\
     LockList.held ll2 ≡ₚ (record_key k, EXCLUSIVE) :: locks) \/
  ((record_key k, SHARED) ∉ LockList.held (lock_list_ w) /\
   (is_ok (LockList.get_lock (lock_list_ w) (record_key k)) = false \/
    LockList.get_lock (lock_list_ w) (record_key k) = Ok EXCLUSIVE)).
Proof.
  intros Hl HO. pose proof (l_own _ _ Hl _ _ HO) as HG.
  destruct (locks_get (lock_list_ w) (record_key k) (l_locks _ _ Hl))
    as [(m & Hg & _ & (ll1 & r1 & Hrm & _ & Hh1 & Hr1) & (ll2 & r2 & Hpr & _ & Hh2 & Hr2))|(Hg & Hno & _)].
  - destruct m.
    + left. split; [done|]. exists r1, ll1, ll2. split_and!; [done..|].
      rewrite Hr2. f_equiv. rewrite Hh1 in Hh2. by apply Permutation_cons_inv in Hh2.
    + right. split; [|by right]. intros Hin. rewrite Hh1 in Hin.
      apply elem_of_cons in Hin as [[=]|[r3 E]%elem_of_Permutation].
      rewrite E in Hh1. unfold claims_of in HG. simpl in HG. rewrite Hh1 in HG.
      by apply claims_exclude in HG as [[=] _].
  - right. split; [apply Hno|]. left. rewrite Hg. by apply is_ok_Err.
Qed.

(** [test] is the common beginning of the two handlers: the phase, the fields
    of the request, the lock. *)
Definition tested (h : Z -> Z -> wprog unit) : wprog unit :=
  status ← get_status;
  if negb (bool_decide (status = GROWING)) then reject BAD_PHASE p j
  else
    table_id_r ← read_buffers (fun T => JobBuf.get_tbl T p);
    if negb (is_ok table_id_r) then reject BAD_TABLE p j
    else
      tuple_key_r ← read_buffers (fun T => JobBuf.get_key T p);
      if negb (is_ok tuple_key_r) then reject BAD_TP p j
      else
        table_id ← unwrap_ table_id_r;
        tuple_key ← unwrap_ tuple_key_r;
        lock_r ← on_locks (fun l => Ret (l, LockList.get_lock l (mkKey table_id tuple_key)));
        if negb (is_ok lock_r) || negb (bool_decide (value_ lock_r = Some SHARED)) then
          reject BAD_ACCESS p j
        else h table_id tuple_key.

(** Promotion that times out. *)
Lemma promote_timeout :
  running_ w = true ->
  StudentTable.promote_ id (view_of s) k = Ret (view_of s, TupleTableError_Timeout) ->
  forall f n, 0 <= MAX_TIMEOUT_RETRY - n < Z.of_nat f ->
  exists s' w', returns (promote_retry f n k p j) s w s' w' false /\
    answered (answer TIMEOUT (buffers_ (db_ s)) p 7 j) s (set_status w TXN_ABORTED) s' w'.
Proof.
  intros Hrun Hpr. induction f as [|f IH]; intros n Hn; [lia|]. cbn [promote_retry].
  destruct (Z.leb_spec MAX_TIMEOUT_RETRY n).
  - set (T1 := JobBuf.set_ack (buffers_ (db_ s)) p TIMEOUT).
    set (d := answer TIMEOUT (buffers_ (db_ s)) p 7 j).
    set (w1 := set_status (add_sent w d) TXN_ABORTED).
    destruct (Channels.pop T1 (job_ch_ w)) as [T2 q] eqn:Hp.
    exists (set_buffers (set_buffers s T1) T2), (set_job_ch w1 q). split.
    + apply (returns_bind _ _ _ _ (set_buffers s T1) (add_sent w d) tt); [by apply returns_act|].
      apply (returns_bind _ _ _ _ (set_buffers s T1) w1 tt); [by apply returns_act|].
      eapply returns_bind; [|apply returns_done]. apply returns_act. simpl. fold T1. by rewrite Hp.
    + split; [done..| |done]. exists T1. simpl. by rewrite Hp.
  - destruct (IH (n + 1) ltac:(lia)) as (s' & w' & Hr & Ha). exists s', w'. split; [|done].
    apply (returns_bind _ _ _ _ s w true); [by apply returns_act; rewrite Hrun|]. cbn [negb].
    apply (returns_bind _ _ _ _ s w TupleTableError_Timeout).
    { apply returns_act. unfold view_of in Hpr. rewrite Hpr. by destruct s as [[? ? ?] ?]. }
    rewrite bool_decide_false by done. exact Hr.
Qed.
Context (Hst : status_ w = GROWING).
Context (Ht : JobBuf.get_tbl (buffers_ (db_ s)) p = Ok tbl_id_StudentTable).
Context (Hk : JobBuf.get_key (buffers_ (db_ s)) p = Ok k).

Lemma tested_returns h s' w' :
  (let lock_r := LockList.get_lock (lock_list_ w) (record_key k) in
   returns (if negb (is_ok lock_r) || negb (bool_decide (value_ lock_r = Some SHARED)) then
              reject BAD_ACCESS p j
            else h tbl_id_StudentTable k) s w s' w' tt) ->
  returns (tested h) s w s' w' tt.
Proof.
  intros Hr. unfold tested. apply (returns_bind _ _ _ _ s w (status_ w)); [by apply returns_act|].
  rewrite Hst, bool_decide_true by done. cbn [negb].
  apply (returns_bind _ _ _ _ s w (Ok tbl_id_StudentTable)); [by apply read_returns|].
  rewrite is_ok_Ok. cbn [negb].
  apply (returns_bind _ _ _ _ s w (Ok k)); [by apply read_returns|].
  rewrite is_ok_Ok. cbn [negb].
  eapply returns_bind; [by apply unwrap_returns|].
  eapply returns_bind; [by apply unwrap_returns|].
  apply (returns_bind _ _ _ _ s w (LockList.get_lock (lock_list_ w) (record_key k))); [|exact Hr].
  apply returns_act. by destruct w.
Qed.

End Upgrade.

(** ** Property *)

(** What a yield and a promotion make of the lock word [l] of the record and
    of the transaction's other locks. *)
Definition word_after (op : OpType) (l : Z) : Z :=
  match op with YIELD_READ => l - 1 | _ => -1 end.
Definition locks_after (op : OpType) (k : unique_key) (locks : list (unique_key * LockType)) :=
  match op with YIELD_READ => locks | _ => (k, EXCLUSIVE) :: locks end.

(** The two handlers behind their common beginning. *)
Definition change (op : OpType) (p : JobBuf.job_buf) (j : Channels.job) (tbl k : Z) : wprog unit :=
  match op with
  | YIELD_READ =>
      on_locks (fun l => LockList.rm_lock l (mkKey tbl k)) ≫= fun _ =>
      if tbl =? tbl_id_StudentTable then
        on_table (fun t => t' ← StudentTable.release_ t k; Ret (t', tt)) ≫= fun _ =>
        reply SUCCESS p (JobBuf.get_buffer_size p) j ≫= fun _ => job_pop
      else reject BAD_TABLE p j
  | _ =>
      if tbl =? tbl_id_StudentTable then
        promoted ← promote_retry RETRY_FUEL 0 k p j;
        if promoted : bool then
          on_locks (fun l => LockList.promote_lock l (mkKey tbl k)) ≫= fun _ =>
          reply SUCCESS p (JobBuf.get_buffer_size p) j ≫= fun _ => job_pop
        else Done tt
      else reject BAD_TABLE p j
  end.

Lemma dispatch_tested {mem : expiry} op p j s w s' w' :
  op = YIELD_READ \/ op = PROMOTE -> returns (tested p j (change op p j)) s w s' w' tt ->
  returns (dispatch op p j) s w s' w' false.
Proof. intros [-> | ->] Hr; (eapply returns_bind; [exact Hr|apply returns_done]). Qed.

(** What a yield and a promotion that is granted do, once the lock has been
    found. *)
Lemma yield_returns p j s w k ll t :
  LockList.rm_lock (lock_list_ w) (record_key k) = Ret (ll, LockError_None) ->
  StudentTable.release_ (view_of s) k = Ret t ->
  exists s' w', returns (on_locks (fun l => LockList.rm_lock l (mkKey tbl_id_StudentTable k)) ≫= fun _ =>
      on_table (fun t => t' ← StudentTable.release_ t k; Ret (t', tt)) ≫= fun _ =>
      reply SUCCESS p (JobBuf.get_buffer_size p) j ≫= fun _ => job_pop) s w s' w' tt /\
    answered (answer SUCCESS (buffers_ (db_ s)) p (JobBuf.get_buffer_size p) j)
      (set_students s t) (set_lock_list w ll) s' w'.
Proof.
  intros Hrm Hrel.
  destruct (finish_returns SUCCESS p (JobBuf.get_buffer_size p) j (set_students s t) (set_lock_list w ll))
    as (s' & w' & Hr & Ha). exists s', w'. split; [|exact Ha].
  apply (returns_bind _ _ _ _ s (set_lock_list w ll) LockError_None).
  { apply returns_act. change (mkKey tbl_id_StudentTable k) with (record_key k). by rewrite Hrm. }
  apply (returns_bind _ _ _ _ (set_students s t) (set_lock_list w ll) tt); [|exact Hr].
  apply returns_act. unfold view_of in Hrel. by rewrite Hrel.
Qed.

Lemma promoted_returns p j s w k ll t :
  running_ w = true -> StudentTable.promote_ id (view_of s) k = Ret (t, TupleTableError_None) ->
  LockList.promote_lock (lock_list_ w) (record_key k) = Ret (ll, LockError_None) ->
  exists s' w', returns (promoted ← promote_retry RETRY_FUEL 0 k p j;
      if promoted : bool then
        on_locks (fun l => LockList.promote_lock l (mkKey tbl_id_StudentTable k)) ≫= fun _ =>
        reply SUCCESS p (JobBuf.get_buffer_size p) j ≫= fun _ => job_pop
      else Done tt) s w s' w' tt /\
    answered (answer SUCCESS (buffers_ (db_ s)) p (JobBuf.get_buffer_size p) j)
      (set_students s t) (set_lock_list w ll) s' w'.
Proof.
  intros Hrun Hpr Hll.
  destruct (finish_returns SUCCESS p (JobBuf.get_buffer_size p) j (set_students s t) (set_lock_list w ll))
    as (s' & w' & Hr & Ha). exists s', w'. split; [|exact Ha].
  apply (returns_bind _ _ _ _ (set_students s t) w true).
  { unfold RETRY_FUEL. cbn [promote_retry Z.to_nat]. change (MAX_TIMEOUT_RETRY <=? 0) with false.
    apply (returns_bind _ _ _ _ s w true); [by apply returns_act; rewrite Hrun|]. cbn [negb].
    apply (returns_bind _ _ _ _ (set_students s t) w TupleTableError_None).
    { apply returns_act. unfold view_of in Hpr. by rewrite Hpr. }
    rewrite bool_decide_true by done. apply returns_done. }
  apply (returns_bind _ _ _ _ (set_students s t) (set_lock_list w ll) LockError_None); [|exact Hr].
  apply returns_act. change (mkKey tbl_id_StudentTable k) with (record_key k). by rewrite Hll.
Qed.

(** The table's answer to a promotion of a record with other readers. *)
Lemma promote_shared t i e k :
  StudentTable.table_wf t -> StudentTable.table_holder (StudentTable.table_ t) k i e ->
  StudentTable.lock_ e <> 1 ->
  StudentTable.promote_ id t k = Ret (t, TupleTableError_Timeout).
Proof.
  intros Hwf Hh Hl. unfold StudentTable.promote_.
  rewrite (StudentTable.locate_holder _ _ i e) by done. rewrite (outcome_bind_ret i). unfold wait_for.
  destruct (StudentTable.holder_live _ _ _ _ Hh) as (Hi & _ & _).
  rewrite (StudentTable.lock_at_holder _ _ e) by done. rewrite (proj2 (Z.eqb_neq _ _) Hl). simpl.
  rewrite (StudentTable.lock_at_holder _ _ e) by done. by rewrite (proj2 (Z.eqb_neq _ _) Hl).
Qed.

(** The change of a lock that is held. *)
Lemma held_change op p j s w k g O locks ll1 ll2 :
  linv (core_of w) g -> Good (view_of s) (g ++ O) -> running_ w = true ->
  op = YIELD_READ \/ op = PROMOTE ->
  LockList.held (lock_list_ w) ≡ₚ (record_key k, SHARED) :: locks ->
  LockList.rm_lock (lock_list_ w) (record_key k) = Ret (ll1, LockError_None) ->
  LockList.held ll1 ≡ₚ locks ->
  LockList.promote_lock (lock_list_ w) (record_key k) = Ret (ll2, LockError_None) ->
  LockList.held ll2 ≡ₚ (record_key k, EXCLUSIVE) :: locks ->
  exists s' w', returns (change op p j tbl_id_StudentTable k) s w s' w' tt /\
  exists u l rest locks,
    LockList.held (lock_list_ w) ≡ₚ (record_key k, SHARED) :: locks /\
    StudentTable.rows (view_of s) ≡ₚ (u, l) :: rest /\ StudentTuple.key_ u = k /\ 0 < l /\
    if bool_decide (op = PROMOTE) && negb (l =? 1)
    then answered (answer TIMEOUT (buffers_ (db_ s)) p 7 j) s (set_status w TXN_ABORTED) s' w'
    else exists t ll,
      answered (answer SUCCESS (buffers_ (db_ s)) p (JobBuf.get_buffer_size p) j)
        (set_students s t) (set_lock_list w ll) s' w' /\
      StudentTable.rows t ≡ₚ (u, word_after op l) :: rest /\
      LockList.held ll ≡ₚ locks_after op (record_key k) locks.
Proof.
  intros Hl HG Hrun Hop Hh Hrm Hh1 Hpr Hh2. pose proof (good_wf _ _ HG) as Hwf.
  assert (HG1 : Good (view_of s) ((record_key k, SHARED, None) :: ((fun kt => (kt, None)) <$> locks) ++ O)).
  { pose proof (l_own _ _ Hl _ _ HG) as H. unfold claims_of in H. simpl in H. by rewrite Hh in H. }
  destruct (shared_row s k O _ HG1) as (i & e & Hho & Hpos).
  destruct (StudentTable.holder_rows _ _ _ _ Hho) as [Hin Hke].
  destruct Hop as [-> | ->]; [|destruct (decide (StudentTable.lock_ e = 1)) as [H1|H1]].
  - destruct (StudentTable.release_holder _ _ i e Hwf Hho ltac:(lia))
      as (t & rest & Hrel & _ & _ & Hr1 & Hr2).
    destruct (yield_returns p j s w k ll1 t Hrm Hrel) as (s' & w' & Hr & Ha).
    exists s', w'. split; [exact Hr|]. exists (StudentTable.tuple_ e), (StudentTable.lock_ e), rest, locks.
    split_and!; [done..|]. rewrite bool_decide_false by done. cbn [andb]. exists t, ll1.
    rewrite (proj2 (Z.eqb_neq (StudentTable.lock_ e) (-1))) in Hr2 by lia. by split_and!.
  - destruct (StudentTable.promote_holder _ _ i e id Hwf Hho H1) as (t & rest & Hp1 & _ & _ & Hr1 & Hr2).
    destruct (promoted_returns p j s w k ll2 t Hrun Hp1 Hpr) as (s' & w' & Hr & Ha).
    exists s', w'. split; [exact Hr|]. exists (StudentTable.tuple_ e), 1, rest, locks.
    split_and!; [done..|]. rewrite bool_decide_true by done. cbn [andb negb Z.eqb]. exists t, ll2.
    by split_and!.
  - destruct (promote_timeout p j s w k Hrun (promote_shared _ i e k Hwf Hho H1) RETRY_FUEL 0)
      as (s' & w' & Hr & Ha); [vm_compute; split; [discriminate|reflexivity]|].
    apply elem_of_Permutation in Hin as [rest Hrest].
    exists s', w'. split; [by eapply returns_bind; [exact Hr|apply returns_done]|].
    exists (StudentTable.tuple_ e), (StudentTable.lock_ e), rest, locks. split_and!; [done..|].
    rewrite bool_decide_true by done. by rewrite (proj2 (Z.eqb_neq _ _) H1).
Qed.

(** C23.  Giving up a lock and promoting it.  In the growing phase a
    [YIELD_READ] or [PROMOTE] of a record whose shared lock the transaction
    does not hold is answered [BAD_ACCESS] and changes nothing.  Otherwise a
    yield takes one holder off the record's lock word and the lock off the
    list; a promotion makes the word exclusive and the listed lock with it, if
    the transaction is the only holder; both are answered [SUCCESS], and no
    other record or lock changes.  A promotion of a record with other readers
    is answered [TIMEOUT] after eight retries, and aborts the transaction. *)
Theorem lock_changes_deliver {mem : expiry} op p j s w k :
  let T := buffers_ (db_ s) in
  sound s w -> status_ w = GROWING -> running_ w = true -> op = YIELD_READ \/ op = PROMOTE ->
  JobBuf.get_tbl T p = Ok tbl_id_StudentTable -> JobBuf.get_key T p = Ok k ->
  exists s' w', returns (dispatch op p j) s w s' w' false /\
  (((record_key k, SHARED) ∉ LockList.held (lock_list_ w) /\
    answered (answer BAD_ACCESS T p 7 j) s w s' w') \/
   exists u l rest locks,
     LockList.held (lock_list_ w) ≡ₚ (record_key k, SHARED) :: locks /\
     StudentTable.rows (view_of s) ≡ₚ (u, l) :: rest /\ StudentTuple.key_ u = k /\ 0 < l /\
     if bool_decide (op = PROMOTE) && negb (l =? 1)
     then answered (answer TIMEOUT T p 7 j) s (set_status w TXN_ABORTED) s' w'
     else exists t ll,
       answered (answer SUCCESS T p (JobBuf.get_buffer_size p) j)
         (set_students s t) (set_lock_list w ll) s' w' /\
       StudentTable.rows t ≡ₚ (u, word_after op l) :: rest /\
       LockList.held ll ≡ₚ locks_after op (record_key k) locks).
Proof.
  intros T (g & Hl & O & HG) Hst Hrun Hop Ht Hk. set (lk := LockList.get_lock (lock_list_ w) (record_key k)).
  assert (Hd : forall s' w', returns (if negb (is_ok lk) || negb (bool_decide (value_ lk = Some SHARED))
      then reject BAD_ACCESS p j else change op p j tbl_id_StudentTable k) s w s' w' tt ->
    returns (dispatch op p j) s w s' w' false).
  { intros s' w' Hr. apply dispatch_tested; [done|]. by apply (tested_returns p j s w k). }
  destruct (listed_shared s w k g O Hl HG)
    as [(Hg & locks & ll1 & ll2 & Hh & Hrm & Hh1 & Hpr & Hh2)|(Hno & Hg)].
  - destruct (held_change op p j s w k g O locks ll1 ll2 Hl HG Hrun Hop Hh Hrm Hh1 Hpr Hh2)
      as (s' & w' & Hr & Hcase). exists s', w'. split; [|by right].
    apply Hd. unfold lk. rewrite Hg, is_ok_Ok, bool_decide_true by done. exact Hr.
  - destruct (finish_returns BAD_ACCESS p 7 j s w) as (s' & w' & Hr & Ha).
    exists s', w'. split; [|by left]. apply Hd. unfold lk.
    destruct Hg as [-> | ->]; [exact Hr|]. rewrite is_ok_Ok, bool_decide_false by done. exact Hr.
Qed.

(** ** Witness: a reader promotes its lock *)

Definition shared1 : shared * Worker := serve (request_with 2 0 alice) start0.
Definition promote1 : shared * Worker := submit (request_of 5 0) shared1.
Definition parser_p : JobBuf.job_buf := JobBuf.mkJobBuf (Some 1%nat) 9.
Definition job_p : Channels.job := Channels.job_make (Some 1%nat) 9 Channels.conn_default.

Lemma promote1_sound : sound promote1.1 promote1.2.
Proof.
  unfold promote1. rewrite (surjective_pairing shared1). apply submit_sound, serve_sound, start0_sound.
Qed.

Lemma promote1_rows :
  (fun r => (StudentTuple.key_ r.1, r.2)) <$> StudentTable.rows (view_of promote1.1) = [(0, 1)].
Proof. vm_compute. reflexivity. Qed.

Lemma lock_changes_deliver_witness :
  exists s' w', returns (dispatch (mem := Retained) PROMOTE parser_p job_p) promote1.1 promote1.2 s' w' false /\
    LockList.held (lock_list_ promote1.2) = [(record_key 0, SHARED)] /\
    LockList.held (lock_list_ w') ≡ₚ [(record_key 0, EXCLUSIVE)] /\
    exists u, StudentTable.rows (view_of s') ≡ₚ [(u, -1)].
Proof.
  destruct (lock_changes_deliver (mem := Retained) PROMOTE parser_p job_p promote1.1 promote1.2 0)
    as (s' & w' & Hr & Hcase).
  - exact promote1_sound.
  - vm_compute. reflexivity.
  - vm_compute. reflexivity.
  - right. reflexivity.
  - vm_compute. reflexivity.
  - vm_compute. reflexivity.
  - exists s', w'. split; [exact Hr|].
    assert (Hh : LockList.held (lock_list_ promote1.2) = [(record_key 0, SHARED)])
      by (vm_compute; reflexivity).
    split; [exact Hh|]. rewrite Hh in Hcase.
    destruct Hcase as [[Hno _]|(u & l & rest & locks & H1 & H2 & H3 & _ & H4)].
    + exfalso. apply Hno. left.
    + pose proof promote1_rows as Hrows.
      assert (Hp : (fun r : StudentTuple.StudentTuple * Z => (StudentTuple.key_ r.1, r.2)) <$>
        ((u, l) :: rest) ≡ₚ [(0, 1)]) by (rewrite <- Hrows; apply fmap_Permutation; symmetry; exact H2).
      apply Permutation_singleton_r in Hp. injection Hp as _ Hl Hrest.
      apply fmap_nil_inv in Hrest as ->. rewrite Hl in H4. cbn in H4.
      destruct H4 as (t & ll & [Ht Hc _ _] & H5 & H6).
      apply Permutation_cons_inv in H1. apply Permutation_nil_l in H1 as <-.
      apply (f_equal c_locks) in Hc. change (lock_list_ w' = ll) in Hc.
      split; [rewrite Hc; exact H6|]. exists u. rewrite Ht. exact H5.
Defined.
