(* ===== verification/Replies.v ===== *)
(** * One reply per request

    The logic of [Prog] once more, with what a worker says to its client in
    place of the records: the core is what the worker has sent and where it
    reads its job channel, and what it owns is the buffer of the request, in
    which it writes the reply.  Every handler answers the request it was
    given, to the sender, in the header of the request. *)
From S2P Require Import Prelude Params Probe BufTable UniqueKey Ring Prog Locking Worker.
From S2P Require Import WorkerLogic Transaction Requests References Private.
From S2P Require Bytes StudentTuple StudentTable LockList CommitQueue Channels JobBuf.

(** ** What a request may be answered with *)

(** The acknowledgements of each operation, as the handlers give them. *)
Definition acks (op : OpType) : list OpAck :=
  match op with
  | START_TXN | COMMIT_TXN | ABORT_TXN => [SUCCESS]
  | ADD_TUPLE => [SUCCESS; BAD_TABLE; BAD_DATA]
  | SHARED_READ | EXCLUSIVE_READ =>
      [SUCCESS; BAD_PHASE; BAD_TABLE; BAD_ACCESS; TIMEOUT; ABORTED]
  | YIELD_READ => [SUCCESS; BAD_PHASE; BAD_TABLE; BAD_TP; BAD_ACCESS]
  | PROMOTE => [SUCCESS; BAD_PHASE; BAD_TABLE; BAD_TP; BAD_ACCESS; TIMEOUT; ABORTED]
  | UPDATE => [SUCCESS; BAD_TABLE; BAD_TP; BAD_ACCESS; BAD_DATA]
  | DELETE => [SUCCESS; BAD_TABLE; BAD_TP; BAD_ACCESS; COMMIT_FULL]
  | MAX_OP_VALUE => [BAD_OP]
  end.

(** The bytes in front of the acknowledgement. *)
Definition HEADER : nat := JobBuf.offset JobBuf.ACK.

(** [d] goes to [conn] and starts with the header [hdr] and the
    acknowledgement [a]. *)
Definition acknowledges (conn : Channels.client_conn) (hdr : list Z) (a : OpAck)
    (d : Channels.datagram) : Prop :=
  d.1 = conn /\ take (HEADER + 1) d.2 = hdr ++ [OpAck_value a].

(** The answer to a commit is as long as the request: the acknowledgement is cut
    off if that was no longer than a header. *)
Definition cut_short (conn : Channels.client_conn) (hdr : list Z) (a : OpAck) (d : Channels.datagram) : Prop :=
  d.1 = conn /\ take (HEADER + 1) d.2 `prefix_of` hdr ++ [OpAck_value a].

(** What is sent for one request, and how many jobs leave the channel.  A
    shared read that is refused is answered twice, and the job behind it is
    dropped; a change that finds the queue full is acknowledged first, and
    refused in a header that the change itself has overwritten. *)
Inductive exchange (op : OpType) (conn : Channels.client_conn) (hdr : list Z) :
    list Channels.datagram -> nat -> Prop :=
  | answered_once a d :
      a ∈ acks op -> acknowledges conn hdr a d -> exchange op conn hdr [d] 1
  | answered_twice d1 d2 :
      op = SHARED_READ -> acknowledges conn hdr BAD_ACCESS d1 -> acknowledges conn hdr SUCCESS d2 ->
      exchange op conn hdr [d1; d2] 2
  | answered_full d1 d2 t :
      op = ADD_TUPLE \/ op = UPDATE -> acknowledges conn hdr SUCCESS d1 ->
      acknowledges conn (take HEADER (StudentTuple.object_bytes t)) COMMIT_FULL d2 ->
      exchange op conn hdr [d1; d2] 1
  | answered_commit d :
      op = COMMIT_TXN -> cut_short conn hdr SUCCESS d -> exchange op conn hdr [d] 1.

(** The header of the reply: [START_TXN] hands out the transaction's id. *)
Definition reply_header (op : OpType) (txn : Z) (req : list Z) : list Z :=
  match op with
  | START_TXN => take HEADER (Bytes.write req (JobBuf.offset JobBuf.TXN) (Bytes.le_bytes 4 txn))
  | _ => take HEADER req
  end.

(** ** The logic *)

(** What only the worker writes, as far as its client can tell. *)
Record voice := mkVoice {
  v_sent : list Channels.datagram;
  v_head : nat;
  v_txn : Z;
  v_timeout : Z
}.

Definition voice_of (w : Worker) : voice :=
  mkVoice (sent_ w) (Channels.head_ (job_ch_ w)) (txn_id_ w) (timeout_cnt_ w).

(** What has been said since [c]. *)
Definition said (c : voice) (ds : list Channels.datagram) (k : nat) : voice :=
  mkVoice (v_sent c ++ ds) (slot Channels.MaxJobs (v_head c) k) (v_txn c) (v_timeout c).

(** Buffers are owned by one thread each. *)
Definition Owns (T : buf_table) (g : list (nat * list Z)) : Prop :=
  NoDup g.*1 /\ Forall (fun c => JobBuf.valid_ref T (Some c.1) /\ buffer T (Some c.1) = c.2) g.

Definition steady (w : Worker) : Prop := sized (job_ch_ w).

Lemma owns_bytes T T' g : same_bytes T T' -> Owns T g -> Owns T' g.
Proof.
  intros Hb [Hd Hg]. split; [done|]. eapply list.Forall_impl; [exact Hg|].
  intros [i b]. unfold JobBuf.valid_ref. by rewrite Hb.
Qed.

Lemma owns_store T i b b' O :
  length b' = length b -> Owns T ((i, b) :: O) -> Owns (store T (Some i) b') ((i, b') :: O).
Proof.
  unfold Owns, JobBuf.valid_ref. intros Hl [Hd [[Hv Hb] Hg]%Forall_cons_1].
  cbn [fst snd] in Hv, Hb. split; [done|].
  apply Forall_cons_2; cbn [fst snd].
  - rewrite JobBuf.buffer_store by done. rewrite Hb in Hv. by rewrite Hl.
  - apply list.NoDup_cons in Hd as [Hi _]. apply list.Forall_forall. intros [j x] Hj.
    rewrite list.Forall_forall in Hg. specialize (Hg _ Hj). cbn [fst snd] in *.
    rewrite JobBuf.buffer_store_ne; [done|]. intros [= <-]. apply Hi.
    apply list_elem_of_fmap. by exists (i, x).
Qed.

Section Rules.
Context (i : nat).
Implicit Types (c : voice) (b : list Z).

(** [p], given the buffer [i] with the bytes [b], keeps it and ends in [Q]. *)
Definition replies {A} (p : wprog A) (Q : voice -> list Z -> A -> Prop) c b : Prop :=
  ok voice_of pool_of Owns (fun _ => True) steady (fun _ _ => True) True True p
    (fun c g a => exists b', g = [(i, b')] /\ Q c b' a) c [(i, b)].

Lemma replies_bind {A B} (p : wprog A) (h : A -> wprog B) (Q : voice -> list Z -> B -> Prop) c b :
  replies p (fun c b a => replies (h a) Q c b) c b -> replies (p ≫= h) Q c b.
Proof.
  intros H. apply ok_bind. eapply ok_mono; [|exact H]. by intros c' g a (b' & -> & Hh).
Qed.

Lemma replies_done {A} (a : A) (Q : voice -> list Z -> A -> Prop) c b : Q c b a -> replies (Done a) Q c b.
Proof. intros H. by exists b. Qed.

Lemma replies_mono {A} (p : wprog A) (Q Q' : voice -> list Z -> A -> Prop) c b :
  (forall c b a, Q c b a -> Q' c b a) -> replies p Q c b -> replies p Q' c b.
Proof. intros HQ. apply ok_mono. intros c' g a (b' & -> & H). exists b'. auto. Qed.

(** An action that leaves the bytes of the pool alone. *)
Lemma replies_act {B} (f : shared -> Worker -> outcome (shared * Worker * B))
    (Q : voice -> list Z -> B -> Prop) c b :
  (forall s w, voice_of w = c -> steady w -> JobBuf.valid_ref (pool_of s) (Some i) ->
     buffer (pool_of s) (Some i) = b ->
     match f s w with
     | Ret (s', w', x) => same_bytes (pool_of s) (pool_of s') /\ Q (voice_of w') b x
     | _ => True
     end) -> replies (act f) Q c b.
Proof.
  intros Hf s w Hc _ Hs (O & HO). pose proof HO as [_ [[Hv Hb] _]%Forall_cons_1]. cbn [fst snd] in Hv, Hb.
  specialize (Hf s w Hc Hs Hv Hb). destruct (f s w) as [[[s' w'] x]| |]; [|done..].
  destruct Hf as [Hsb HQ]. split; [done|]. exists [(i, b)].
  split; [intros O'; by apply owns_bytes|]. by apply replies_done.
Qed.

(** One that also leaves the worker silent. *)
Lemma replies_frame {B} (f : shared -> Worker -> outcome (shared * Worker * B))
    (Q : voice -> list Z -> B -> Prop) c b :
  (forall s w, match f s w with
     | Ret (s', w', _) => same_bytes (pool_of s) (pool_of s') /\ voice_of w' = voice_of w
     | _ => True
     end) -> (forall x, Q c b x) -> replies (act f) Q c b.
Proof.
  intros Hf HQ. apply replies_act. intros s w <- _ _ _. specialize (Hf s w).
  destruct (f s w) as [[[s' w'] x]| |]; [|done..]. by destruct Hf as [? ->].
Qed.

(** An action that writes the buffer. *)
Lemma replies_write {B} (f : shared -> Worker -> outcome (shared * Worker * B)) b'
    (Q : voice -> list Z -> B -> Prop) c b :
  (forall s w, voice_of w = c -> JobBuf.valid_ref (pool_of s) (Some i) -> buffer (pool_of s) (Some i) = b ->
     exists s' w' x, f s w = Ret (s', w', x) /\ pool_of s' = store (pool_of s) (Some i) b' /\
       length b' = length b /\ Q (voice_of w') b' x) -> replies (act f) Q c b.
Proof.
  intros Hf s w Hc _ Hs (O & HO). pose proof HO as [_ [[Hv Hb] _]%Forall_cons_1]. cbn [fst snd] in Hv, Hb.
  destruct (Hf s w Hc Hv Hb) as (s' & w' & x & -> & Hs' & Hl & HQ). split; [done|].
  exists [(i, b')]. rewrite Hs'. split; [intros O'; by apply owns_store|]. by apply replies_done.
Qed.

(** ** The actions *)

Section Actions.
Context {B : Type} (c : voice) (b : list Z) (Q : voice -> list Z -> B -> Prop).

Lemma replies_on_buffers (f : buf_table -> buf_table * B) :
  (forall T, buffer T (Some i) = b -> same_bytes T (f T).1 /\ Q c b (f T).2) ->
  replies (on_buffers f) Q c b.
Proof.
  intros Hf. apply replies_act. intros s w <- _ _ Hb. specialize (Hf _ Hb). unfold pool_of in Hf.
  destruct (f (buffers_ (db_ s))) as [T x]. exact Hf.
Qed.

Lemma replies_read (f : buf_table -> B) :
  (forall T, buffer T (Some i) = b -> Q c b (f T)) -> replies (read_buffers f) Q c b.
Proof. intros Hf. apply replies_on_buffers. intros T Hb. split; [reflexivity|by apply Hf]. Qed.

Lemma replies_on_table (f : StudentTable.StudentTable -> outcome (StudentTable.StudentTable * B)) :
  (forall x, Q c b x) -> replies (on_table f) Q c b.
Proof.
  apply replies_frame. intros s w. destruct (f (students_ (db_ s))) as [[t x]| |]; [|done..].
  by split.
Qed.

Lemma replies_on_locks (f : LockList.lock_list -> outcome (LockList.lock_list * B)) :
  (forall x, Q c b x) -> replies (on_locks f) Q c b.
Proof.
  apply replies_frame. intros s w. destruct (f (lock_list_ w)) as [[t x]| |]; [|done..]. by split.
Qed.

Lemma replies_unwrap {E} (r : Result B E) :
  (forall x, value_ r = Some x -> Q c b x) -> replies (unwrap_ r) Q c b.
Proof.
  intros HQ. apply replies_act. intros s w <- _ _ _. unfold unwrap.
  destruct (value_ r) as [x|]; [|done]. split; [reflexivity|by apply HQ].
Qed.
End Actions.

Lemma replies_drop r (Q : voice -> list Z -> unit -> Prop) c b : Q c b tt -> replies (drop_ref r) Q c b.
Proof. intros HQ. apply replies_on_buffers. intros T _. split; [apply ref_destroy_bytes|done]. Qed.

Lemma replies_pop (Q : voice -> list Z -> unit -> Prop) c b :
  Q (mkVoice (v_sent c) (slot Channels.MaxJobs (v_head c) 1) (v_txn c) (v_timeout c)) b tt ->
  replies job_pop Q c b.
Proof.
  intros HQ. apply replies_act. intros s w <- Hs _ _. unfold Channels.pop.
  destruct (lookup_lt_is_Some_2 (Channels.jobs_ (job_ch_ w)) (Channels.head_ (job_ch_ w)))
    as [j Hj]; [rewrite (sz_jobs _ Hs); apply (sz_head _ Hs)|].
  rewrite Hj. unfold Channels.job_destroy.
  pose proof (ref_destroy_bytes (buffers_ (db_ s)) (Channels.job_ref j)) as Hb.
  destruct (ref_destroy (buffers_ (db_ s)) (Channels.job_ref j)) as [T r]. by split.
Qed.

(** The buffer with the acknowledgement, and what is sent of it. *)
Definition acked (a : OpAck) (b : list Z) : list Z :=
  Bytes.write b HEADER (Bytes.le_bytes 1 (OpAck_value a)).

Lemma acked_front a b :
  (HEADER < length b)%nat -> take (HEADER + 1) (acked a b) = take HEADER b ++ [OpAck_value a].
Proof.
  intros Hl. unfold acked, Bytes.write. assert (Ht : length (take HEADER b) = HEADER) by (rewrite length_take; lia).
  assert (Hv : Bytes.le_bytes 1 (OpAck_value a) = [OpAck_value a]).
  { simpl. f_equal. apply Z.mod_small. by destruct a. }
  rewrite Hv, take_app, Ht. rewrite take_ge by lia. by replace (HEADER + 1 - HEADER)%nat with 1%nat by lia.
Qed.

Lemma acked_header a b : (HEADER < length b)%nat -> take HEADER (acked a b) = take HEADER b.
Proof.
  intros Hl. pose proof (acked_front a b Hl) as H. apply (f_equal (take HEADER)) in H.
  rewrite take_take, Nat.min_l in H by lia. rewrite H. apply take_app_length'.
  rewrite length_take. lia.
Qed.

Lemma replies_reply_raw a p n j (Q : voice -> list Z -> unit -> Prop) c b :
  JobBuf.ref p = Some i ->
  ((HEADER < length b)%nat -> length (acked a b) = length b ->
     Q (mkVoice (v_sent c ++ [Channels.conn_reply (Channels.conn_ j) (acked a b) n]) (v_head c) (v_txn c)
          (v_timeout c)) (acked a b) tt) ->
  replies (reply a p n j) Q c b.
Proof.
  intros Hp HQ. apply (replies_write _ (acked a b)). intros s w <- Hv Hb.
  assert (Hl : Z.of_nat (length b) = BUFFER_WIDTH) by by rewrite <- Hb.
  assert (HH : (HEADER < length b)%nat) by (unfold BUFFER_WIDTH in Hl; change HEADER with 6%nat; lia).
  assert (Hlb : length (acked a b) = length b)
    by (apply Bytes.write_length; rewrite Bytes.length_le_bytes; lia).
  assert (E : JobBuf.set_ack (buffers_ (db_ s)) p a = store (pool_of s) (Some i) (acked a b))
    by (unfold JobBuf.set_ack, JobBuf.set_field; rewrite Hp; unfold acked; rewrite <- Hb; done).
  eexists _, _, tt. split; [reflexivity|]. cbn [pool_of db_ buffers_ set_buffers].
  split; [exact E|]. split; [done|]. rewrite E, Hp, JobBuf.buffer_store by done. by apply HQ.
Qed.

Lemma replies_reply a p n j (Q : voice -> list Z -> unit -> Prop) c b :
  JobBuf.ref p = Some i -> Z.of_nat HEADER < n ->
  (forall d b', acknowledges (Channels.conn_ j) (take HEADER b) a d ->
     take HEADER b' = take HEADER b -> length b' = length b ->
     Q (mkVoice (v_sent c ++ [d]) (v_head c) (v_txn c) (v_timeout c)) b' tt) ->
  replies (reply a p n j) Q c b.
Proof.
  intros Hp Hn HQ. apply replies_reply_raw; [done|]. intros HH Hlb.
  apply HQ; [|by apply acked_header|done]. split; [done|]. cbn [Channels.conn_reply snd].
  rewrite take_take, Nat.min_l by lia. by apply acked_front.
Qed.

Lemma replies_reply_cut a p n j (Q : voice -> list Z -> unit -> Prop) c b :
  JobBuf.ref p = Some i ->
  (forall d b', cut_short (Channels.conn_ j) (take HEADER b) a d ->
     Q (mkVoice (v_sent c ++ [d]) (v_head c) (v_txn c) (v_timeout c)) b' tt) ->
  replies (reply a p n j) Q c b.
Proof.
  intros Hp HQ. apply replies_reply_raw; [done|]. intros HH Hlb. apply HQ. split; [done|].
  cbn [Channels.conn_reply snd]. rewrite take_take, Nat.min_comm, <- take_take, acked_front by done.
  apply prefix_take.
Qed.
End Rules.

(** ** The handlers *)

Section Handlers.
Context (i : nat) (j : Channels.job) (Hj : Channels.job_ref j = Some i).
Implicit Types (p : JobBuf.job_buf) (c : voice) (b : list Z) (op : OpType) (hdr : list Z).

(** The request of [op] has been answered since [c]. *)
Definition settled {A} op hdr c (c' : voice) (_ : list Z) (_ : A) : Prop :=
  exists ds k, c' = said c ds k /\ exchange op (Channels.conn_ j) hdr ds k.

Lemma finish_replies a p n (Q : voice -> list Z -> unit -> Prop) c b :
  JobBuf.ref p = Some i -> Z.of_nat HEADER < n ->
  (forall d b', acknowledges (Channels.conn_ j) (take HEADER b) a d ->
     take HEADER b' = take HEADER b -> Q (said c [d] 1) b' tt) ->
  replies i (reply a p n j ≫= fun _ => job_pop) Q c b.
Proof.
  intros Hp Hn HQ. apply replies_bind, replies_reply; [done..|]. intros d b' Hd Hb _.
  apply replies_pop. by apply HQ.
Qed.

Lemma settled_once op hdr a p n c b :
  JobBuf.ref p = Some i -> Z.of_nat HEADER < n -> take HEADER b = hdr -> a ∈ acks op ->
  replies i (reply a p n j ≫= fun _ => job_pop) (settled op hdr c) c b.
Proof.
  intros Hp Hn Hb Ha. apply finish_replies; [done..|]. intros d b' Hd _. exists [d], 1%nat.
  split; [done|]. apply (answered_once _ _ _ a); [done|]. by rewrite <- Hb.
Qed.

Lemma settled_reject op hdr a p c b :
  JobBuf.ref p = Some i -> take HEADER b = hdr -> a ∈ acks op ->
  replies i (reject a p j) (settled op hdr c) c b.
Proof. intros. by apply settled_once. Qed.

(** A parsed table id shows that the message reaches behind the header. *)
Lemma tbl_size T p : is_ok (JobBuf.get_tbl T p) = true -> Z.of_nat HEADER < JobBuf.get_buffer_size p.
Proof.
  unfold JobBuf.get_tbl, JobBuf.get_raw, JobBuf.parse_field, JobBuf.get_buffer_size.
  destruct (Z.ltb_spec (JobBuf.buffer_size_ p) (Z.of_nat (JobBuf.offset JobBuf.TBL + 1)))
    as [Hlt|Hge]; [done|]. intros _. change HEADER with 6%nat. change (JobBuf.offset _) with 7%nat in Hge.
  lia.
Qed.

(** Writing behind the header. *)
Lemma header_write b off bs :
  (HEADER <= off)%nat -> (off <= length b)%nat -> take HEADER (Bytes.write b off bs) = take HEADER b.
Proof.
  intros Ho Hl. unfold Bytes.write. rewrite take_app_le by (rewrite length_take; lia).
  rewrite take_take. by rewrite Nat.min_l by lia.
Qed.

Lemma store_replies {B} (f : buf_table -> buf_table * B) b' (Q : voice -> list Z -> B -> Prop) c b :
  (forall T, buffer T (Some i) = b -> (f T).1 = store T (Some i) b') ->
  (Z.of_nat (length b) = BUFFER_WIDTH -> length b' = length b /\
     forall T, buffer T (Some i) = b -> Q c b' (f T).2) ->
  replies i (on_buffers f) Q c b.
Proof.
  intros Hf HQ. apply (replies_write i _ b'). intros s w <- Hv Hb.
  destruct HQ as [Hl HQ]; [by rewrite <- Hb|]. specialize (Hf _ Hb). specialize (HQ _ Hb).
  unfold pool_of in Hf, HQ |- *. destruct (f (buffers_ (db_ s))) as [T x] eqn:E.
  eexists _, _, x. by split_and!.
Qed.

Lemma send_record_replies p idx (Q : voice -> list Z -> unit -> Prop) c b :
  JobBuf.ref p = Some i ->
  (forall d b', acknowledges (Channels.conn_ j) (take HEADER b) SUCCESS d -> Q (said c [d] 1) b' tt) ->
  replies i (send_record p j idx) Q c b.
Proof.
  intros Hp HQ. unfold send_record. apply replies_bind, replies_on_table. intros t.
  apply replies_bind, (store_replies _ (Bytes.write b 8 (Bytes.le_bytes 1 (StudentTuple.key_ t)))).
  { intros T <-. unfold JobBuf.set_key, JobBuf.set_field. by rewrite Hp. }
  intros Hl. unfold BUFFER_WIDTH in Hl. set (b1 := Bytes.write b 8 _).
  assert (Hl1 : length b1 = length b) by (apply Bytes.write_length; rewrite Bytes.length_le_bytes; lia).
  split; [done|]. intros _ _.
  apply replies_bind, (store_replies _ (StudentTuple.serialize_ t b1 9).1).
  { intros T <-. by rewrite Hj. }
  intros _. unfold StudentTuple.serialize_. cbn [fst].
  assert (Hn : (length (take StudentTuple.NAME_LENGTH (StudentTuple.name_ t)) <= 32)%nat)
    by (rewrite length_take; unfold StudentTuple.NAME_LENGTH; lia).
  set (nm := take StudentTuple.NAME_LENGTH (StudentTuple.name_ t)) in *.
  change StudentTuple.NAME_LENGTH with 32%nat. set (b2 := Bytes.write b1 9 nm).
  set (b3 := Bytes.write b2 _ _). set (b4 := Bytes.write b3 _ _).
  assert (Hl2 : length b2 = length b) by (unfold b2; rewrite Bytes.write_length; lia).
  assert (Hl3 : length b3 = length b)
    by (unfold b3; rewrite Bytes.write_length; rewrite ?Bytes.length_le_bytes; lia).
  assert (Hl4 : length b4 = length b)
    by (unfold b4; rewrite Bytes.write_length; rewrite ?Bytes.length_le_bytes; lia).
  assert (Hh : take HEADER b4 = take HEADER b).
  { unfold b4. rewrite header_write by (change HEADER with 6%nat; lia).
    unfold b3. rewrite header_write by (change HEADER with 6%nat; lia).
    unfold b2. rewrite header_write by (change HEADER with 6%nat; lia).
    apply header_write; change HEADER with 6%nat; lia. }
  split; [by rewrite Hl4, Hl1|]. intros T _. rewrite Hj. cbn [snd].
  apply replies_bind, replies_unwrap. intros x [= <-].
  apply finish_replies; [done|cbn; lia|]. intros d b' Hd _. apply (HQ d b'). by rewrite <- Hh.
Qed.

(** One step through a handler; a refusal ends it. *)
Local Ltac hush :=
  first [ apply replies_bind, replies_frame; [by intros ? ?; split|]; intros ?
        | apply replies_bind, replies_on_locks; intros ?
        | apply replies_bind, replies_on_table; intros ?
        | apply replies_bind, replies_unwrap; intros ? ? ].
Local Ltac refuse := apply settled_reject; [done|done|set_solver].

Lemma enter_shrinking_replies (Q : voice -> list Z -> unit -> Prop) c b :
  Q c b tt -> replies i enter_shrinking Q c b.
Proof.
  intros HQ. unfold enter_shrinking. hush. destruct (bool_decide _); [|by apply replies_done].
  apply replies_frame; [by intros ? ?; split|]. by intros [].
Qed.

(** Parking a change: [SUCCESS], unless the queue is full. *)
Lemma commit_send_replies k o r (Q : voice -> list Z -> QueueError -> Prop) c b :
  (forall e, Q c b e) -> replies i (commit_send k o r) Q c b.
Proof.
  apply replies_frame. intros s w. unfold CommitQueue.commit_make.
  pose proof (ref_copy_bytes (buffers_ (db_ s)) r) as H1.
  destruct (ref_copy (buffers_ (db_ s)) r) as [T1 r1]. cbn [fst] in H1.
  assert (H2 : forall x, same_bytes T1 (CommitQueue.send T1 (commit_queue_ w) x).1.1).
  { intros x. unfold CommitQueue.send, CommitQueue.commit_assign.
    destruct (CommitQueue.full _); [reflexivity|].
    destruct (CommitQueue.commits_ _ !! _) as [y|]; [|reflexivity].
    pose proof (ref_assign_bytes T1 (CommitQueue.commit_buffer_ y) (CommitQueue.commit_buffer_ x)) as H.
    by destruct (ref_assign _ _ _). }
  specialize (H2 (CommitQueue.mkCommit (ref_move r1).1 k o)).
  change (ref_move r1).1 with r1 in H2.
  destruct (CommitQueue.send T1 _ _) as [[T2 q] e] eqn:E. cbn [fst] in H2.
  split; [|done].
  etrans; [exact H1|]. etrans; [exact H2|]. apply ref_destroy_bytes.
Qed.

Lemma object_header t bs :
  take HEADER (Bytes.write bs 0 (StudentTuple.object_bytes t)) = take HEADER (StudentTuple.object_bytes t).
Proof.
  unfold Bytes.write. rewrite take_0, app_nil_l. rewrite take_app_le; [done|].
  unfold StudentTuple.object_bytes. rewrite length_app, Bytes.length_le_bytes.
  rewrite length_app, Bytes.length_le_bytes. change HEADER with 6%nat. lia.
Qed.

Lemma park_replies op n p k o t c b :
  op = ADD_TUPLE \/ op = UPDATE -> JobBuf.ref p = Some i -> Z.of_nat HEADER < n ->
  (length (StudentTuple.object_bytes t) <= 64)%nat ->
  replies i (park n p j k o t) (settled op (take HEADER b) c) c b.
Proof.
  intros Hop Hp Hn Hl. unfold park. apply replies_bind, replies_reply; [done..|].
  intros d b' Hd Hb Hlb.
  apply replies_bind, (store_replies _ (Bytes.write b' 0 (StudentTuple.object_bytes t))).
  { intros T <-. by rewrite Hj. }
  intros Hw. unfold BUFFER_WIDTH in Hw. split; [apply Bytes.write_length; lia|]. intros _ _.
  apply replies_bind, commit_send_replies. intros e. destruct (bool_decide _).
  - apply finish_replies; [done..|]. intros d2 b2 Hd2 _. rewrite object_header in Hd2.
    exists [d; d2], 1%nat. split; [unfold said; simpl; by rewrite <- app_assoc|].
    by apply (answered_full _ _ _ _ _ t).
  - apply replies_pop. exists [d], 1%nat. split; [done|].
    apply (answered_once _ _ _ SUCCESS); [|done]. by destruct Hop as [-> | ->]; set_solver.
Qed.

Lemma sent_object buf off :
  (length (StudentTuple.object_bytes
     (StudentTuple.deserialize_ StudentTuple.student_default buf off).1) <= 64)%nat.
Proof.
  unfold StudentTuple.object_bytes, StudentTuple.deserialize_. cbn [fst StudentTuple.name_].
  rewrite !length_app, !Bytes.length_le_bytes. unfold Bytes.read. rewrite length_take.
  change StudentTuple.NAME_LENGTH with 32%nat. simpl length. lia.
Qed.

(** The test for the table id, and for the key. *)
Local Ltac field :=
  apply replies_bind, replies_read; intros ? _;
  destruct (is_ok _) eqn:?Hok; cbn [negb]; [|refuse].

Lemma process_add_replies p c b :
  JobBuf.ref p = Some i ->
  replies i (process_add p j) (settled ADD_TUPLE (take HEADER b) c) c b.
Proof.
  intros Hp. unfold process_add. apply replies_bind, enter_shrinking_replies.
  field. apply tbl_size in Hok. hush. destruct (_ =? _); [|refuse].
  apply replies_bind, replies_read. intros T2 _.
  pose proof (sent_object (buffer T2 (Channels.job_ref j)) (JobBuf.get_tuple_offset p)) as Hl.
  destruct (StudentTuple.deserialize_ _ _ _) as [t r].
  destruct (is_ok r); cbn [negb]; [|refuse]. apply park_replies; [by auto|done..].
Qed.

Lemma process_update_replies p c b :
  JobBuf.ref p = Some i ->
  replies i (process_update p j) (settled UPDATE (take HEADER b) c) c b.
Proof.
  intros Hp. unfold process_update. apply replies_bind, enter_shrinking_replies.
  field. apply tbl_size in Hok. field. hush. hush. hush. destruct (_ || _); [refuse|].
  destruct (_ =? _); [|refuse].
  apply replies_bind, replies_read. intros T2 _.
  pose proof (sent_object (buffer T2 (Channels.job_ref j)) (JobBuf.get_tuple_offset p)) as Hl.
  destruct (StudentTuple.deserialize_ _ _ _) as [t r].
  destruct (is_ok r); cbn [negb]; [|refuse]. apply park_replies; [by auto|done..].
Qed.

Lemma process_rm_replies p c b :
  JobBuf.ref p = Some i ->
  replies i (process_rm p j) (settled DELETE (take HEADER b) c) c b.
Proof.
  intros Hp. unfold process_rm. apply replies_bind, enter_shrinking_replies.
  field. apply tbl_size in Hok. field. hush. hush. hush. destruct (_ || _); [refuse|].
  apply replies_bind, commit_send_replies. intros e. destruct (bool_decide _); [refuse|].
  apply settled_once; [done..|set_solver].
Qed.

(** A worker that has been stopped. *)
Lemma aborted_replies op p c b :
  JobBuf.ref p = Some i -> ABORTED ∈ acks op ->
  replies i (reply ABORTED p 7 j ≫= fun _ => put_status TXN_ABORTED ≫= fun _ => job_pop)
    (settled op (take HEADER b) c) c b.
Proof.
  intros Hp Ha. apply replies_bind, replies_reply; [done..|]. intros d b' Hd _ _. hush.
  apply replies_pop. exists [d], 1%nat. split; [done|]. by apply (answered_once _ _ _ ABORTED).
Qed.

Lemma shared_retry_replies f n tbl p c b :
  JobBuf.ref p = Some i ->
  replies i (shared_retry f n tbl p j) (settled SHARED_READ (take HEADER b) c) c b.
Proof.
  intros Hp. revert n. induction f as [|f IH]; intros n; cbn [shared_retry].
  { by apply replies_act. }
  destruct (_ <=? _); [refuse|]. hush. destruct (negb _); [apply aborted_replies; [done|set_solver]|].
  hush. destruct (negb _); [apply IH|]. hush. hush. hush.
  destruct (negb _); [|apply replies_bind, replies_done].
  - apply replies_bind, finish_replies; [done..|]. intros d b' Hd Hb.
    apply send_record_replies; [done|]. intros d2 b2 Hd2. rewrite Hb in Hd2.
    exists [d; d2], 2%nat. split; [|by apply answered_twice].
    unfold said. cbn [v_sent v_head v_txn v_timeout]. rewrite <- app_assoc. f_equal. apply slot_S.
  - apply send_record_replies; [done|]. intros d b' Hd. exists [d], 1%nat.
    split; [done|]. apply (answered_once _ _ _ SUCCESS); [set_solver|done].
Qed.

Lemma exclusive_retry_replies f n tbl p c b :
  JobBuf.ref p = Some i ->
  replies i (exclusive_retry f n tbl p j) (settled EXCLUSIVE_READ (take HEADER b) c) c b.
Proof.
  intros Hp. revert n. induction f as [|f IH]; intros n; cbn [exclusive_retry].
  { by apply replies_act. }
  destruct (_ <=? _); [refuse|]. hush. destruct (negb _); [apply aborted_replies; [done|set_solver]|].
  hush. destruct (negb _); [apply IH|]. hush. hush. hush. destruct (negb _); [refuse|].
  apply send_record_replies; [done|]. intros d b' Hd. exists [d], 1%nat.
  split; [done|]. apply (answered_once _ _ _ SUCCESS); [set_solver|done].
Qed.

Lemma process_shared_read_replies p c b :
  JobBuf.ref p = Some i ->
  replies i (process_shared_read p j) (settled SHARED_READ (take HEADER b) c) c b.
Proof.
  intros Hp. unfold process_shared_read. hush. destruct (negb _); [refuse|]. field. hush.
  destruct (_ =? _); [by apply shared_retry_replies|refuse].
Qed.

Lemma process_exclusive_read_replies p c b :
  JobBuf.ref p = Some i ->
  replies i (process_exclusive_read p j) (settled EXCLUSIVE_READ (take HEADER b) c) c b.
Proof.
  intros Hp. unfold process_exclusive_read. hush. destruct (negb _); [refuse|]. field. hush.
  destruct (_ =? _); [by apply exclusive_retry_replies|refuse].
Qed.

Lemma process_yield_replies p c b :
  JobBuf.ref p = Some i ->
  replies i (process_yield p j) (settled YIELD_READ (take HEADER b) c) c b.
Proof.
  intros Hp. unfold process_yield. hush. destruct (negb _); [refuse|]. field. apply tbl_size in Hok.
  field. hush. hush. hush. destruct (_ || _); [refuse|]. hush. destruct (_ =? _); [|refuse].
  hush. apply settled_once; [done..|set_solver].
Qed.

Lemma promote_retry_replies f n k p c b :
  JobBuf.ref p = Some i ->
  replies i (promote_retry f n k p j) (fun c' b' (promoted : bool) =>
    if promoted then c' = c /\ b' = b else settled PROMOTE (take HEADER b) c c' b' tt) c b.
Proof.
  intros Hp. revert n. induction f as [|f IH]; intros n; cbn [promote_retry].
  { by apply replies_act. }
  destruct (_ <=? _).
  - apply replies_bind, replies_reply; [done..|]. intros d b' Hd _ _. hush.
    apply replies_bind, replies_pop, replies_done. exists [d], 1%nat. split; [done|].
    apply (answered_once _ _ _ TIMEOUT); [set_solver|done].
  - hush. destruct (negb _).
    + apply replies_bind. eapply (replies_mono i _ (settled PROMOTE (take HEADER b) c)); [|refuse].
      intros c' b' [] Hs. by apply replies_done.
    + hush. destruct (negb _); [apply IH|]. by apply replies_done.
Qed.

Lemma process_promote_replies p c b :
  JobBuf.ref p = Some i ->
  replies i (process_promote p j) (settled PROMOTE (take HEADER b) c) c b.
Proof.
  intros Hp. unfold process_promote. hush. destruct (negb _); [refuse|]. field. apply tbl_size in Hok.
  field. hush. hush. hush. destruct (_ || _); [refuse|]. destruct (_ =? _); [|refuse].
  apply replies_bind. eapply replies_mono; [|by apply promote_retry_replies].
  intros c' b' [] Hs; [|by apply replies_done]. destruct Hs as [-> ->]. hush.
  apply settled_once; [done..|set_solver].
Qed.

(** ** Leaving, and the whole request *)

Lemma ret_send_replies x (Q : voice -> list Z -> unit -> Prop) c b :
  Q c b tt -> replies i (ret_send x) Q c b.
Proof.
  intros HQ. apply replies_frame; [|by intros []]. intros s w. unfold Channels.ret_send.
  destruct (Channels.rets_ _ !! _); by split.
Qed.

Lemma release_loop_replies f ll idx (Q : voice -> list Z -> unit -> Prop) c b :
  Q c b tt -> replies i (release_loop f ll idx) Q c b.
Proof.
  intros HQ. revert idx. induction f as [|f IH]; intros idx; cbn [release_loop].
  { by apply replies_act. }
  destruct (_ =? _)%nat; [by apply replies_done|].
  destruct (LockList.deref ll idx) as [lock|]; [|by apply replies_act].
  destruct (disassemble_ _) as [tbl k]. apply replies_bind.
  destruct (_ =? _); [apply replies_on_table; intros []|apply replies_done]; apply IH.
Qed.

Lemma commit_get_replies (Q : voice -> list Z -> Result CommitQueue.commit QueueError -> Prop) c b :
  (forall r, Q c b r) -> replies i commit_get Q c b.
Proof.
  apply replies_frame. intros s w. unfold CommitQueue.get, CommitQueue.commit_copy.
  destruct (_ !! _) as [e|]; [|done]. cbn [mbind outcome_bind].
  pose proof (ref_copy_bytes (buffers_ (db_ s)) (CommitQueue.commit_buffer_ e)) as Hb.
  by destruct (ref_copy _ _).
Qed.

Lemma retain_replies r (Q : voice -> list Z -> buf_ref -> Prop) c b :
  (forall x, Q c b x) -> replies i (retain r) Q c b.
Proof. intros HQ. apply replies_on_buffers. intros T _. split; [apply ref_copy_bytes|apply HQ]. Qed.

Lemma copy_expired_replies r (Q : voice -> list Z -> buf_ref -> Prop) c b :
  (forall x, Q c b x) -> replies i (copy_expired r) Q c b.
Proof.
  apply replies_frame. intros s w. destruct (bool_decide _); [|done].
  pose proof (ref_copy_bytes (buffers_ (db_ s)) r) as Hb. by destruct (ref_copy _ _).
Qed.

Lemma load_replies r (Q : voice -> list Z -> StudentTuple.StudentTuple -> Prop) c b :
  (forall x, Q c b x) -> replies i (load_tuple r) Q c b.
Proof. apply replies_frame. intros s w. by destruct r. Qed.

Lemma recall_replies {mem : expiry} e (Q : voice -> list Z -> CommitQueue.commit -> Prop) c b :
  (forall x, Q c b x) -> replies i (recall e) Q c b.
Proof. apply replies_frame. intros s w. by destruct (expired e). Qed.

(** Applying the queue says nothing. *)
Lemma commit_entry_replies e (Q : voice -> list Z -> unit -> Prop) c b :
  Q c b tt -> replies i (commit_entry e) Q c b.
Proof.
  intros HQ. assert (HQ' : forall x, Q c b x) by by intros [].
  assert (Hd : forall r, replies i (drop_ref r) Q c b) by (intros r; by apply replies_drop).
  unfold commit_entry. destruct (CommitQueue.commit_op_ e); try (by apply replies_done);
    destruct (disassemble_ _) as [tbl key].
  - apply replies_bind, copy_expired_replies. intros r. apply replies_bind.
    destruct (_ =? _); [|by apply replies_done].
    apply replies_bind, load_replies. intros u. apply replies_on_table. intros x. apply Hd.
  - apply replies_bind, copy_expired_replies. intros r. apply replies_bind.
    destruct (_ =? _); [|by apply replies_done].
    apply replies_bind, load_replies. intros u. apply replies_on_table. intros x. apply Hd.
  - hush. destruct (_ =? _); [|by apply replies_done]. by apply replies_on_table.
Qed.

Lemma commit_loop_replies {mem : expiry} f (Q : voice -> list Z -> unit -> Prop) c b :
  Q c b tt -> replies i (commit_loop f) Q c b.
Proof.
  intros HQ. induction f as [|f IH]; cbn [commit_loop]; [by apply replies_act|].
  hush. destruct x; [by apply replies_done|]. apply replies_bind, commit_get_replies. intros r. hush.
  apply replies_bind, replies_drop, replies_bind, recall_replies. intros e.
  apply replies_bind, commit_entry_replies. hush. apply IH.
Qed.

Lemma process_commit_replies {mem : expiry} p c b :
  JobBuf.ref p = Some i ->
  replies i (process_commit p j) (settled COMMIT_TXN (take HEADER b) c) c b.
Proof.
  intros Hp. unfold process_commit. hush. destruct (negb _); [refuse|].
  apply replies_bind, commit_loop_replies.
  apply replies_bind, replies_reply_cut; [done|]. intros d b' Hd. apply replies_pop.
  exists [d], 1%nat. split; [done|]. by apply answered_commit.
Qed.

Lemma clear_commit_queue_replies f (Q : voice -> list Z -> unit -> Prop) c b :
  Q c b tt -> replies i (clear_commit_queue f) Q c b.
Proof.
  intros HQ. induction f as [|f IH]; cbn [clear_commit_queue]; [by apply replies_act|].
  hush. destruct x; [by apply replies_done|].
  apply replies_bind, commit_get_replies. intros x. hush. hush.
  apply replies_bind, replies_drop. apply IH.
Qed.

Lemma worker_quit_replies (Q : voice -> list Z -> unit -> Prop) c b :
  Q c b tt -> replies i worker_quit Q c b.
Proof.
  intros HQ. unfold worker_quit, release_all_locks. apply replies_bind. hush.
  apply replies_bind, release_loop_replies. apply replies_on_locks. intros [].
  apply replies_bind, clear_commit_queue_replies. hush. by apply ret_send_replies.
Qed.

(** The reply of [START_TXN] carries the transaction's id. *)
Lemma start_replies {mem : expiry} p c b :
  JobBuf.ref p = Some i ->
  replies i (dispatch START_TXN p j) (settled START_TXN (reply_header START_TXN (v_txn c) b) c) c b.
Proof.
  intros Hp. cbn [dispatch]. apply replies_bind, replies_act. intros s w <- _ _ _.
  split; [reflexivity|]. set (c := voice_of w).
  set (b' := Bytes.write b (JobBuf.offset JobBuf.TXN) (Bytes.le_bytes 4 (txn_id_ w))).
  apply replies_bind, (store_replies _ b').
  { intros T <-. unfold JobBuf.set_txn, JobBuf.set_field. by rewrite Hp. }
  intros Hl. unfold BUFFER_WIDTH in Hl. split.
  { apply Bytes.write_length. rewrite Bytes.length_le_bytes. change (JobBuf.offset _) with 2%nat. lia. }
  intros _ _. apply replies_bind. eapply replies_mono; [|apply settled_reject; [done|reflexivity|]].
  - intros c' b2 [] Hs. by apply replies_done.
  - set_solver.
Qed.

(** A handler, and what [dispatch] does after it. *)
Lemma handler_replies op (h : wprog unit) (k : wprog bool) c b :
  replies i h (settled op (take HEADER b) c) c b ->
  (forall c' b' (Q : voice -> list Z -> bool -> Prop), (forall x, Q c' b' x) -> replies i k Q c' b') ->
  replies i (h ≫= fun _ => k) (settled op (take HEADER b) c) c b.
Proof.
  intros Hh Hk. apply replies_bind. eapply replies_mono; [|exact Hh].
  intros c' b' [] Hs. apply Hk. by intros.
Qed.

Lemma dispatch_replies {mem : expiry} op p c b :
  JobBuf.ref p = Some i ->
  replies i (dispatch op p j) (settled op (reply_header op (v_txn c) b) c) c b.
Proof.
  intros Hp.
  assert (Hk : forall c' b' (Q : voice -> list Z -> bool -> Prop), (forall x, Q c' b' x) ->
    replies i (Done false) Q c' b') by (intros; by apply replies_done).
  destruct op; try done; [by apply start_replies|..]; apply handler_replies; try exact Hk.
  - by apply process_add_replies.
  - by apply process_shared_read_replies.
  - by apply process_exclusive_read_replies.
  - by apply process_yield_replies.
  - by apply process_promote_replies.
  - by apply process_update_replies.
  - by apply process_rm_replies.
  - by apply process_commit_replies.
  - intros c' b' Q HQ. by apply replies_bind, worker_quit_replies, replies_done.
  - refuse.
  - intros c' b' Q HQ. by apply replies_bind, worker_quit_replies, replies_done.
  - refuse.
Qed.
End Handlers.

(** ** Property *)

Lemma roomy_weaken {A V V'} (view : shared -> V) (view' : shared -> V') (room : V -> Prop)
    (room' : V' -> Prop) (sane sane' : Worker -> Prop) env n (p : wprog A) s w :
  (forall s w, room (view s) -> sane w -> room' (view' s) /\ sane' w) ->
  roomy view room sane env n p s w -> roomy view' room' sane' env n p s w.
Proof.
  intros Hi. revert n s w. induction p as [a|B f k IH]; intros n s w; simpl; [done|].
  destruct (env n s w) as [s1 w1]. intros (Hr & Hs & Hk). destruct (Hi _ _ Hr Hs). split_and!; [done..|].
  destruct (f s1 w1) as [[[s2 w2] b]| |]; auto.
Qed.

Lemma roomy_prefix {A B} env n (p : wprog A) (h : A -> wprog B) s w :
  roomy view_of room steady env n (p ≫= h) s w -> roomy view_of room steady env n p s w.
Proof.
  change (p ≫= h) with (bind p h). revert n s w. induction p as [x|C f k IH]; intros n s w; simpl; [done|].
  destruct (env n s w) as [s1 w1]. intros (Hr & Hs & Hk). split_and!; [done..|].
  destruct (f s1 w1) as [[[s2 w2] b]| |]; auto.
Qed.

Lemma roomy_bind {A B V} (view : shared -> V) room sane env n (p : wprog A) (h : A -> wprog B)
    s w n' s' w' a :
  roomy view room sane env n (p ≫= h) s w -> run env n p s w = Ret (n', s', w', a) ->
  roomy view room sane env n' (h a) s' w'.
Proof.
  change (p ≫= h) with (bind p h). revert n s w. induction p as [x|C f k IH]; intros n s w; simpl.
  { by intros H [= <- <- <- <-]. }
  destruct (env n s w) as [s1 w1]. intros (_ & _ & Hr). destruct (f s1 w1) as [[[s2 w2] b]| |]; [|done..].
  by apply IH.
Qed.

(** What the logic proves of a run. *)
Lemma run_replies {A} env bufs n i (p : wprog A) Q s w req :
  friendly voice_of pool_of Owns env bufs -> replies i p Q (voice_of w) req ->
  roomy view_of room steady env n p s w -> Owns (pool_of s) ((i, req) :: bufs n) ->
  match run env n p s w with
  | Ret (n', s', w', a) =>
      exists b', Q (voice_of w') b' a /\ Owns (pool_of s') ((i, b') :: bufs n')
  | _ => True
  end.
Proof.
  intros Hf Hp Hroom HB.
  pose proof (run_ok voice_of pool_of Owns (fun _ => True) steady (fun _ _ => True) True True
    p _ env bufs n s w [(i, req)] ltac:(by split) Hf Hp
    ltac:(by eapply roomy_weaken; [|exact Hroom]) HB) as H.
  destruct (run env n p s w) as [[[[n' s'] w'] a]| |]; [|done..].
  destruct H as (g & (b' & -> & HQ) & HO & _). by exists b'.
Qed.

(** What the message says, whoever reads it and when. *)
Definition op_of (i : nat) (req : list Z) (size : Z) (op_r : Result OpType ParserError) : Prop :=
  forall T, buffer T (Some i) = req -> JobBuf.get_op T (JobBuf.mkJobBuf (Some i) size) = op_r.

Lemma get_op_of T i size :
  op_of i (buffer T (Some i)) size (JobBuf.get_op T (JobBuf.mkJobBuf (Some i) size)).
Proof.
  intros T' Hb. unfold JobBuf.get_op, JobBuf.parse_field. cbn [JobBuf.ref]. by rewrite Hb.
Qed.

Lemma surjective_ref job_r i :
  Channels.job_ref job_r = Some i ->
  Channels.buf_ job_r = JobBuf.mkJobBuf (Some i) (Channels.buf_sz job_r).
Proof. destruct job_r as [[r n] c]. unfold Channels.job_ref. simpl. by intros ->. Qed.

Lemma get_op_cases T p :
  (is_ok (JobBuf.get_op T p) = false /\ value_ (JobBuf.get_op T p) = None) \/
  exists op, JobBuf.get_op T p = Ok op.
Proof.
  unfold JobBuf.get_op. destruct (JobBuf.parse_field _ _ _ _); [|by left]. destruct (_ <=? _); eauto.
Qed.

Section Handle.
Context (i : nat) (job_r : Channels.job) (Hj : Channels.job_ref job_r = Some i).
Context (op_r : Result OpType ParserError).

Lemma opened_replies c b :
  op_of i b (Channels.buf_sz job_r) op_r ->
  replies i (opened job_r) (fun c' b' x => c' = c /\ b' = b /\ x = (Some i, Some i, op_r)) c b.
Proof.
  intros Hop. unfold opened. rewrite Hj.
  apply replies_bind, replies_on_buffers. intros T _. split; [apply ref_copy_bytes|].
  change (ref_copy T (Some i)).2 with (Some i).
  apply replies_bind, replies_on_buffers. intros T1 _. split; [apply ref_copy_bytes|].
  change (ref_copy T1 (Some i)).2 with (Some i).
  apply replies_bind, replies_frame; [by intros|]. intros [].
  apply replies_bind, replies_read. intros T2 Hb. apply replies_done. by rewrite (Hop T2 Hb).
Qed.

Lemma opened_ok c g :
  ok core_of view_of Good room any_worker unchanged False False (opened job_r)
    (fun c' g' _ => c' = c /\ g' = g) c g.
Proof.
  unfold opened. rewrite Hj. apply wok_bind, (wok_retain unchanged _ _), wok_bind, (wok_retain unchanged _ _).
  apply wok_bind, (wok_deref unchanged _ _); [done|]. apply wok_bind, (wok_read_buffers unchanged _ _).
  intros T. by apply wok_done.
Qed.

Lemma closed_replies r r1 r2 quit (Q : voice -> list Z -> bool -> Prop) c b :
  Q c b quit -> replies i (closed r r1 r2 quit) Q c b.
Proof.
  intros HQ. unfold closed.
  apply replies_bind, replies_drop, replies_bind, replies_drop, replies_bind, replies_drop.
  by apply replies_done.
Qed.

Context (Hcase : (is_ok op_r = false /\ value_ op_r = None) \/ exists op, op_r = Ok op).
Let op := default MAX_OP_VALUE (value_ op_r).

Lemma answering_replies {mem : expiry} c b :
  replies i (answering job_r (Some i, Some i, op_r))
    (settled job_r op (reply_header op (v_txn c) b) c) c b.
Proof using Hcase.
  unfold answering. cbn [fst snd].
  set (job := Channels.job_make _ _ _). set (p := JobBuf.mkJobBuf _ _).
  pose proof (dispatch_replies i job eq_refl op p c b eq_refl) as Hd.
  unfold op in *. destruct Hcase as [[-> Hv]|[o Ho]].
  - cbn [negb]. rewrite Hv in *. exact Hd.
  - rewrite Ho in *. rewrite is_ok_Ok. cbn [negb]. apply replies_bind, replies_unwrap.
    by intros x [= <-].
Qed.

Lemma answered_replies {mem : expiry} c b :
  replies i (answered_by job_r (Some i, Some i, op_r))
    (settled job_r op (reply_header op (v_txn c) b) c) c b.
Proof using Hcase.
  unfold answered_by. cbn [fst snd]. apply replies_bind. eapply replies_mono; [|apply answering_replies].
  intros c' b' quit Hs. by apply closed_replies.
Qed.

Lemma answered_ok {mem : expiry} c g :
  value_ op_r <> Some COMMIT_TXN -> linv c g ->
  ok core_of view_of Good room any_worker unchanged False False
    (answered_by job_r (Some i, Some i, op_r)) (turn_post c) c g.
Proof.
  intros Hop Hl. unfold answered_by, answering. cbn [fst snd].
  set (job := Channels.job_make _ _ _). set (p := JobBuf.mkJobBuf _ _).
  apply wok_bind. eapply ok_mono.
  { intros c' g' quit Hq. unfold closed. do 3 apply wok_bind, (wok_drop_ref unchanged _ _).
    apply wok_done. exact Hq. }
  destruct Hcase as [[-> Hv]|[o Ho]]; cbn [negb].
  - apply (dispatch_quiet any_worker p job MAX_OP_VALUE); [done|exact Hl].
  - rewrite Ho in *. rewrite is_ok_Ok. cbn [negb]. apply wok_bind. apply (wok_unwrap unchanged _ _ _ o); [done|].
    apply dispatch_quiet; [naive_solver|exact Hl].
Qed.
End Handle.

(** Once the message has been read. *)
Lemma answered_once_or_twice {mem : expiry} env locks bufs n i job_r op_r s w req g :
  (is_ok op_r = false /\ value_ op_r = None) \/ (exists op, op_r = Ok op) ->
  value_ op_r <> Some COMMIT_TXN ->
  friendly core_of view_of Good env locks -> linv (core_of w) g -> Good (view_of s) (g ++ locks n) ->
  friendly voice_of pool_of Owns env bufs -> Owns (pool_of s) ([(i, req)] ++ bufs n) ->
  roomy view_of room steady env n (answered_by job_r (Some i, Some i, op_r)) s w ->
  let op := default MAX_OP_VALUE (value_ op_r) in
  exists n' s' w' quit ds k,
    run env n (answered_by job_r (Some i, Some i, op_r)) s w = Ret (n', s', w', quit) /\
    sent_ w' = sent_ w ++ ds /\
    Channels.head_ (job_ch_ w') = slot Channels.MaxJobs (Channels.head_ (job_ch_ w)) k /\
    exchange op (Channels.conn_ job_r) (reply_header op (txn_id_ w) req) ds k.
Proof.
  intros Hcase Hop Hf Hl HO Hf2 HB Hroom op.
  pose proof (run_ok core_of view_of Good room any_worker unchanged False False _ _
    env locks n s w g _ Hf (answered_ok i job_r op_r Hcase _ g Hop Hl)
    ltac:(by eapply roomy_weaken; [|exact Hroom]) HO) as H1.
  pose proof (run_replies env bufs n i _ _ s w req Hf2
    (answered_replies i job_r op_r Hcase (voice_of w) req) Hroom HB) as H2.
  destruct (run env n (answered_by job_r (Some i, Some i, op_r)) s w)
    as [[[[n' s'] w'] quit]| |]; [|done..].
  destruct H2 as (b' & (ds & k & Hv & Hex) & _). injection Hv as Hs Hh Ht.
  by exists n', s', w', quit, ds, k.
Qed.

(** C17.  One reply per request.  A worker in a sound state handles a message
    other than a commit.  The other threads may do what keeps to their own locks
    and buffers, and leaves this worker's data and its claims alone; at every
    action no record has 127 shared holders, the next key is not in use and the
    worker's channel is an array of the right size.  Then the handler comes to an
    end and has answered the message: it has sent one datagram, to the sender,
    which repeats the header of the request (with the id of the new transaction
    after [START_TXN]) and carries an acknowledgement the operation knows
    ([BAD_OP] if the message names none), and it has taken one job off its
    channel.  There are two exceptions: a shared read whose lock the list refuses
    is answered [BAD_ACCESS] and then [SUCCESS], and takes two jobs; a change that
    finds the commit queue full is answered [SUCCESS] and then [COMMIT_FULL], the
    latter behind six bytes of the record instead of the header. *)
Theorem one_reply {mem : expiry} env locks bufs n job_r s w i req :
  friendly core_of view_of Good env locks -> sound_among (locks n) s w ->
  friendly voice_of pool_of Owns env bufs -> Owns (pool_of s) ((i, req) :: bufs n) ->
  Channels.job_ref job_r = Some i ->
  let op_r := JobBuf.get_op (pool_of s) (Channels.buf_ job_r) in
  value_ op_r <> Some COMMIT_TXN ->
  roomy view_of room steady env n (handle job_r) s w ->
  let op := default MAX_OP_VALUE (value_ op_r) in
  exists n' s' w' quit ds k, run env n (handle job_r) s w = Ret (n', s', w', quit) /\
    sent_ w' = sent_ w ++ ds /\
    Channels.head_ (job_ch_ w') = slot Channels.MaxJobs (Channels.head_ (job_ch_ w)) k /\
    exchange op (Channels.conn_ job_r) (reply_header op (txn_id_ w) req) ds k.
Proof.
  intros Hf (g & Hl & HO) Hf2 HB Hj op_r Hop Hroom op. rewrite handle_split in Hroom |- *.
  assert (Hsay : op_of i req (Channels.buf_sz job_r) op_r).
  { pose proof HB as [_ [[_ Hb] _]%Forall_cons_1]. cbn [fst snd] in Hb. rewrite <- Hb.
    unfold op_r. rewrite (surjective_ref job_r i Hj). apply get_op_of. }
  pose proof (roomy_prefix env n _ _ s w Hroom) as Hroom1.
  pose proof (run_ok core_of view_of Good room any_worker unchanged False False (opened job_r) _
    env locks n s w g _ Hf (opened_ok i job_r Hj _ _)
    ltac:(by eapply roomy_weaken; [|exact Hroom1]) HO) as H1.
  pose proof (run_replies env bufs n i _ _ s w req Hf2
    (opened_replies i job_r Hj op_r (voice_of w) req Hsay) Hroom1 HB) as H2.
  change (opened job_r ≫= answered_by job_r) with (bind (opened job_r) (answered_by job_r)).
  rewrite run_bind.
  destruct (run env n (opened job_r) s w) as [[[[n1 s1] w1] x]| |] eqn:Hrun; [|done..].
  destruct H1 as (g1 & [Hc1 ->] & HO1 & _). destruct H2 as (b1 & (Hv1 & -> & ->) & HB1).
  apply (roomy_bind view_of room steady env n _ _ s w _ _ _ _ Hroom) in Hrun. rewrite <- Hc1 in Hl.
  destruct (answered_once_or_twice env locks bufs n1 i job_r op_r s1 w1 req g
    (get_op_cases _ _) Hop Hf Hl HO1 Hf2 HB1 Hrun) as (n' & s' & w' & quit & ds & k & Hr & H).
  exists n', s', w', quit, ds, k. split; [exact Hr|]. injection Hv1 as Hs Hh Ht.
  by rewrite Hs, Hh, Ht in H.
Qed.

Definition asked1 : shared * Worker := submit (request_with 2 0 alice) start0.
Definition asking1 : Channels.job := Channels.job_make (Some 0%nat) 46 Channels.conn_default.

Lemma asked1_sound : sound asked1.1 asked1.2.
Proof. apply submit_sound, start0_sound. Qed.

Lemma one_reply_witness :
  exists n' s' w' quit ds k, run idle 0 (handle (mem := Retained) asking1) asked1.1 asked1.2 = Ret (n', s', w', quit) /\
    sent_ w' = ds /\
    exchange SHARED_READ Channels.conn_default
      (take HEADER (buffer (pool_of asked1.1) (Some 0%nat))) ds k.
Proof.
  destruct (sound_some _ _ asked1_sound) as (O & HO).
  destruct (one_reply (mem := Retained) idle (fun _ => O) (fun _ => []) 0 asking1 asked1.1 asked1.2 0%nat
    (buffer (pool_of asked1.1) (Some 0%nat))) as (n' & s' & w' & quit & ds & k & H1 & H2 & _ & H3).
  - apply friendly_idle.
  - exact HO.
  - apply friendly_idle.
  - split; [apply NoDup_singleton|]. constructor; [|constructor]. split; [|reflexivity].
    vm_compute. reflexivity.
  - reflexivity.
  - vm_compute. discriminate.
  - apply (roomyb_roomy view_of room steady roomb
      (fun w => bool_decide (length (Channels.jobs_ (job_ch_ w)) = Channels.MaxJobs) &&
                bool_decide (Channels.head_ (job_ch_ w) < Channels.MaxJobs)%nat &&
                bool_decide (Channels.tail_ (job_ch_ w) < Channels.MaxJobs)%nat)).
    + apply roomb_room.
    + intros w [[H1%bool_decide_eq_true H2%bool_decide_eq_true]%andb_true_iff
        H3%bool_decide_eq_true]%andb_true_iff. by split.
    + vm_compute. reflexivity.
  - exists n', s', w', quit, ds, k. split; [exact H1|]. split; [exact H2|exact H3].
Defined.
