(* ===== verification/Trail.v ===== *)
(** * What a worker does to the records

    The trail of a turn: which changes are queued, and which have been applied
    to the table since the turn began.  Every action of a worker leaves the
    records of the table as they are, or applies the first queued change with
    the bytes its buffer holds at that moment; a turn that carries out a commit
    applies what was queued, in order and once, and every other turn nothing. *)
From S2P Require Import Prelude Params Probe BufTable UniqueKey Ring Prog Worker Every Transaction Requests References Private Replies.
From S2P Require JobBuf StudentTuple StudentTable LockList CommitQueue Channels.

(** ** Changes of the table *)

(** What applying a queued change does, its record being in the pool [T]. *)
Definition applied (T : buf_table) (c : CommitQueue.commit) (t t' : StudentTable.StudentTable) : Prop :=
  match CommitQueue.commit_op_ c with
  | ADD_TUPLE => exists r, StudentTable.insert_ id t (carried T c) = Ret (t', r)
  | UPDATE => exists r, StudentTable.write_ t (carried T c) = Ret (t', r)
  | DELETE => exists r, StudentTable.remove_ t (tuple_key_ (CommitQueue.commit_key_ c)) = Ret (t', r)
  | _ => False
  end.

(** The changes of the student table among those that are queued. *)
Definition effective (c : CommitQueue.commit) : bool :=
  (table_id_ (CommitQueue.commit_key_ c) =? tbl_id_StudentTable) &&
  match CommitQueue.commit_op_ c with ADD_TUPLE | UPDATE | DELETE => true | _ => false end.
Definition due (xs : list CommitQueue.commit) : list CommitQueue.commit := List.filter effective xs.

(** ** Trails *)

Record trail := mkTrail {
  tr_queue : list CommitQueue.commit;         (* the changes that are queued *)
  tr_status : TxnStatus;
  tr_hand : option StudentTuple.StudentTuple; (* the record read for the first of them *)
  tr_log : list CommitQueue.commit            (* the changes applied since the turn began *)
}.

Record trailed (s : shared) (w : Worker) (x : trail) : Prop := {
  ta_wf : queue_wf (commit_queue_ w);
  ta_queue : contents (commit_queue_ w) = tr_queue x;
  ta_status : status_ w = tr_status x;
  ta_hand : forall u, tr_hand x = Some u -> exists c rest, tr_queue x = c :: rest /\ u = carried (pool_of s) c
}.

(** An action leaves the records alone, or applies the first change, which is
    one of the student table. *)
Definition written (s : shared) (x : trail) (s' : shared) (x' : trail) : Prop :=
  (tr_log x' = tr_log x /\ same_records (students_ (db_ s)) (students_ (db_ s'))) \/
  exists c rest, tr_queue x = c :: rest /\ effective c = true /\ tr_log x' = tr_log x ++ [c] /\
    applied (pool_of s) c (students_ (db_ s)) (students_ (db_ s')).

Fixpoint trails {A} (p : wprog A) (Q : trail -> A -> Prop) (x : trail) : Prop :=
  match p with
  | Done a => Q x a
  | Act f k => forall s w, trailed s w x ->
      match f s w with
      | Ret (s', w', b) => exists x', trailed s' w' x' /\ written s x s' x' /\ trails (k b) Q x'
      | _ => True
      end
  end.

(** The start of a turn. *)
Definition fresh_trail (w : Worker) : trail := mkTrail (contents (commit_queue_ w)) (status_ w) None [].

Lemma trailed_fresh s w : queue_wf (commit_queue_ w) -> trailed s w (fresh_trail w).
Proof. by split. Qed.

Section Rules.
Implicit Types (x : trail).

Lemma trails_bind {A B} (p : wprog A) (h : A -> wprog B) (Q : trail -> B -> Prop) x :
  trails p (fun x a => trails (h a) Q x) x -> trails (p ≫= h) Q x.
Proof.
  intros H. change (trails (bind p h) Q x). revert x H. induction p as [a|C f k IH]; intros x H; [done|].
  intros s w Hx. specialize (H s w Hx). destruct (f s w) as [[[s' w'] b]| |]; [|done..].
  destruct H as (x' & H1 & H2 & H3). exists x'. split_and!; [done..|]. by apply IH.
Qed.

Lemma trails_mono {A} (p : wprog A) (Q Q' : trail -> A -> Prop) x :
  (forall x a, Q x a -> Q' x a) -> trails p Q x -> trails p Q' x.
Proof.
  intros HQ. revert x. induction p as [a|C f k IH]; intros x H; simpl in *; [auto|].
  intros s w Hx. specialize (H s w Hx). destruct (f s w) as [[[s' w'] b]| |]; [|done..].
  destruct H as (x' & H1 & H2 & H3). exists x'. split_and!; [done..|]. by apply IH.
Qed.

Lemma trails_done {A} (a : A) (Q : trail -> A -> Prop) x : Q x a -> trails (Done a) Q x.
Proof. done. Qed.

Lemma trails_still {A} (p : wprog A) (Q : trail -> A -> Prop) x :
  tr_hand x = None -> every still p -> (forall a, Q x a) -> trails p Q x.
Proof.
  intros Hx Hp HQ. induction p as [a|C f k IH]; [apply HQ|]. destruct Hp as [Hf Hk].
  intros s w []. specialize (Hf s w). destruct (f s w) as [[[s' w'] b]| |]; [|done..].
  destruct (Hf _ _ _ eq_refl) as (H1 & H2 & H3). exists x. split; [|split; [by left|by apply IH]].
  split; [by rewrite H1|by rewrite H1|by rewrite H2|]. intros u Hu. congruence.
Qed.

(** Afterwards more may be queued. *)
Definition gathered x0 x : Prop :=
  tr_hand x = None /\ tr_log x = tr_log x0 /\ tr_queue x0 `prefix_of` tr_queue x.

Lemma trails_gathers {A} (p : wprog A) (Q : trail -> A -> Prop) x :
  tr_hand x = None -> every gathers p -> (forall x' a, gathered x x' -> Q x' a) -> trails p Q x.
Proof.
  intros Hx Hp HQ. assert (H : forall x', gathered x x' -> trails p Q x').
  { clear Hx. induction p as [a|C f k IH]; intros x' Hx; [by apply HQ|]. destruct Hp as [Hf Hk].
    intros s w []. specialize (Hf s w). destruct (f s w) as [[[s' w'] b]| |]; [|done..].
    destruct (Hf _ _ _ eq_refl) as (H1 & H2). destruct (H2 ta_wf0) as [Hwf Hpre]. rewrite ta_queue0 in Hpre.
    exists (mkTrail (contents (commit_queue_ w')) (status_ w') None (tr_log x')).
    destruct Hx as (Hh & Hl & Hq). split; [by split|]. split; [by left|]. apply IH; [done|].
    split_and!; [done..|]. cbn [tr_queue]. by etrans. }
  apply H. by split_and!.
Qed.
End Rules.

(** ** Commits *)

Section Commits.
Implicit Types (x : trail) (q : list CommitQueue.commit) (l : list CommitQueue.commit).

Definition idle_trail q st l : trail := mkTrail q st None l.

Lemma trails_get_status q st l (Q : trail -> TxnStatus -> Prop) :
  Q (idle_trail q st l) st -> trails get_status Q (idle_trail q st l).
Proof.
  intros HQ s w Hx. exists (idle_trail q st l). split; [done|]. split; [by left|].
  by rewrite (ta_status _ _ _ Hx).
Qed.

Lemma trails_commit_empty q st l (Q : trail -> bool -> Prop) :
  Q (idle_trail q st l) (bool_decide (q = [])) -> trails commit_empty Q (idle_trail q st l).
Proof.
  intros HQ s w Hx. exists (idle_trail q st l). split; [done|]. split; [by left|]. destruct Hx.
  rewrite CommitQueue.commits_empty by done. by rewrite ta_queue0.
Qed.

Lemma trails_commit_get c q st l (Q : trail -> Result CommitQueue.commit QueueError -> Prop) :
  Q (idle_trail (c :: q) st l) (Ok c) -> trails commit_get Q (idle_trail (c :: q) st l).
Proof.
  intros HQ s w []. unfold commit_get. rewrite (CommitQueue.get_front _ _ c q) by done.
  cbn [mbind outcome_bind]. exists (idle_trail (c :: q) st l). split; [by split|]. split; [by left|done].
Qed.

Lemma trails_commit_pop c q st l (Q : trail -> unit -> Prop) :
  Q (idle_trail q st l) tt -> trails commit_pop Q (idle_trail (c :: q) st l).
Proof.
  intros HQ s w []. exists (idle_trail q st l). split; [|split; [by left|done]].
  destruct (pop_spec (buffers_ (db_ s)) _ _ _ ta_wf0 ta_queue0) as [Hq Hr]. by split.
Qed.

Lemma trails_unwrap {B E} (r : Result B E) b q st l (Q : trail -> B -> Prop) :
  value_ r = Some b -> Q (idle_trail q st l) b -> trails (unwrap_ r) Q (idle_trail q st l).
Proof.
  intros Hr HQ s w Hx. unfold unwrap. rewrite Hr. exists (idle_trail q st l). split; [done|]. split; [by left|done].
Qed.

Lemma trails_retain r q st l (Q : trail -> buf_ref -> Prop) :
  Q (idle_trail q st l) r -> trails (retain r) Q (idle_trail q st l).
Proof.
  intros HQ s w []. assert (E : ref_copy (buffers_ (db_ s)) r = ((ref_copy (pool_of s) r).1, r)) by by destruct r.
  rewrite E. exists (idle_trail q st l). split; [by split|]. by split; [left|].
Qed.

(** What does not concern the queue. *)
Lemma trails_pass {A B} (p : wprog A) (h : A -> wprog B) (Q : trail -> B -> Prop) q st l :
  every still p -> (forall a, trails (h a) Q (idle_trail q st l)) -> trails (p ≫= h) Q (idle_trail q st l).
Proof. intros Hp Hh. apply trails_bind. by apply trails_still. Qed.

Lemma trails_copy_expired r q st l (Q : trail -> buf_ref -> Prop) :
  Q (idle_trail q st l) r -> trails (copy_expired r) Q (idle_trail q st l).
Proof.
  intros HQ s w []. unfold copy_expired, act. destruct (bool_decide _); [|done].
  assert (E : ref_copy (buffers_ (db_ s)) r = ((ref_copy (pool_of s) r).1, r)) by by destruct r.
  rewrite E. exists (idle_trail q st l). split; [by split|]. by split; [left|].
Qed.

Lemma trails_recall {mem : expiry} c q st l (Q : trail -> CommitQueue.commit -> Prop) :
  (forall c', expired c = Ret c' -> Q (idle_trail q st l) c') -> trails (recall c) Q (idle_trail q st l).
Proof.
  intros HQ s w Hx. unfold recall, act. destruct (expired c) as [c'| |] eqn:E; [|done..].
  exists (idle_trail q st l). split; [done|]. split; [by left|by apply HQ].
Qed.

(** The record of the first change is read, and then the change is applied. *)
Lemma trails_load r c q st l (Q : trail -> StudentTuple.StudentTuple -> Prop) :
  r = CommitQueue.commit_buffer_ c \/ r = None ->
  (forall u, Q (mkTrail (c :: q) st (Some u) l) u) -> trails (load_tuple r) Q (idle_trail (c :: q) st l).
Proof.
  intros Hr HQ s w []. unfold load_tuple, act. destruct Hr as [-> | ->]; [|done].
  destruct (CommitQueue.commit_buffer_ c) as [i|] eqn:Ec; [|done].
  exists (mkTrail (c :: q) st (Some (carried (pool_of s) c)) l). unfold carried. rewrite Ec.
  split; [|split; [by left|apply HQ]]. split; [done..|]. intros u [= <-]. exists c, q. unfold carried. by rewrite Ec.
Qed.

Lemma trails_apply {E} (f : StudentTuple.StudentTuple -> StudentTable.StudentTable ->
      outcome (StudentTable.StudentTable * E)) u c q st l (Q : trail -> unit -> Prop) :
  effective c = true -> (forall T t t' e, u = carried T c -> f u t = Ret (t', e) -> applied T c t t') ->
  Q (idle_trail (c :: q) st (l ++ [c])) tt ->
  trails (on_table (fun t => '(t', _) ← f u t; Ret (t', tt))) Q (mkTrail (c :: q) st (Some u) l).
Proof.
  intros Hef Hf HQ s w []. unfold on_table. destruct (f u (students_ (db_ s))) as [[t' e]| |] eqn:E1; [|done..].
  cbn [mbind outcome_bind]. exists (idle_trail (c :: q) st (l ++ [c])). split; [by split|]. split; [right|done].
  exists c, q. split_and!; [done..|]. cbn [set_students db_ students_].
  destruct (ta_hand0 u eq_refl) as (c' & q' & [= <- <-] & Hu). by eapply Hf.
Qed.

Lemma trails_remove {E} (f : StudentTable.StudentTable -> outcome (StudentTable.StudentTable * E)) c q st l
    (Q : trail -> unit -> Prop) :
  effective c = true -> (forall T t t' e, f t = Ret (t', e) -> applied T c t t') ->
  Q (idle_trail (c :: q) st (l ++ [c])) tt ->
  trails (on_table (fun t => '(t', _) ← f t; Ret (t', tt))) Q (idle_trail (c :: q) st l).
Proof.
  intros Hef Hf HQ s w []. unfold on_table. destruct (f (students_ (db_ s))) as [[t' e]| |] eqn:E1; [|done..].
  cbn [mbind outcome_bind]. exists (idle_trail (c :: q) st (l ++ [c])). split; [by split|]. split; [right|done].
  exists c, q. split_and!; [done..|]. by eapply Hf.
Qed.

(** One change: it is applied if it is one of the student table. *)
Lemma trails_commit_entry {mem : expiry} c c' q st l :
  expired c = Ret c' ->
  trails (commit_entry c') (fun x _ => x = idle_trail (c :: q) st (l ++ due [c])) (idle_trail (c :: q) st l).
Proof.
  intros Hx. destruct (expired_entry _ _ Hx) as (Hk & Ho & Hb).
  assert (Hr : CommitQueue.commit_buffer_ c' = CommitQueue.commit_buffer_ c \/ CommitQueue.commit_buffer_ c' = None)
    by (destruct Hb as [|[_ ?]]; auto).
  assert (He : forall o, CommitQueue.commit_op_ c = o -> match o with ADD_TUPLE | UPDATE | DELETE => True | _ => False end ->
    (table_id_ (CommitQueue.commit_key_ c) =? tbl_id_StudentTable) = true -> effective c = true).
  { intros o Hoc Hop Ht. unfold effective. rewrite Hoc, Ht. by destruct o. }
  unfold commit_entry, due, disassemble_. rewrite Hk, Ho. simpl List.filter. unfold effective at 1.
  destruct (CommitQueue.commit_op_ c) eqn:Hop; rewrite ?andb_false_r, ?app_nil_r; try reflexivity;
    destruct (_ =? _) eqn:Ht; cbn [andb]; rewrite ?app_nil_r.
  - apply trails_bind, trails_copy_expired, trails_bind, trails_bind, trails_load; [done|]. intros u.
    apply (trails_apply (fun u t => StudentTable.insert_ id t u)); [by apply (He ADD_TUPLE)| |].
    { intros T t t' e -> E. unfold applied. rewrite Hop. by exists e. }
    by apply trails_still; [|apply every_drop|].
  - apply trails_bind, trails_copy_expired, trails_bind, trails_done. by apply trails_still; [|apply every_drop|].
  - apply trails_bind, trails_copy_expired, trails_bind, trails_bind, trails_load; [done|]. intros u.
    apply (trails_apply (fun u t => StudentTable.write_ t u)); [by apply (He UPDATE)| |].
    { intros T t t' e -> E. unfold applied. rewrite Hop. by exists e. }
    by apply trails_still; [|apply every_drop|].
  - apply trails_bind, trails_copy_expired, trails_bind, trails_done. by apply trails_still; [|apply every_drop|].
  - apply trails_pass; [apply every_locks|]. intros _.
    apply (trails_remove (fun t => StudentTable.remove_ t (tuple_key_ (CommitQueue.commit_key_ c)))); [by apply (He DELETE)| |done].
    intros T t t' e E. unfold applied. rewrite Hop. by exists e.
  - apply trails_pass; [apply every_locks|]. by intros _.
Qed.

Lemma trails_commit_loop {mem : expiry} fuel q st l :
  trails (commit_loop fuel) (fun x _ => x = idle_trail [] st (l ++ due q)) (idle_trail q st l).
Proof.
  revert q l. induction fuel as [|f IH]; intros q l; cbn [commit_loop]; [by intros s w _|].
  apply trails_bind, trails_commit_empty. destruct q as [|c q].
  - rewrite bool_decide_true by done. apply trails_done. unfold due. by rewrite app_nil_r.
  - rewrite bool_decide_false by done. apply trails_bind, trails_commit_get, trails_bind.
    apply (trails_unwrap _ c); [done|]. apply trails_pass; [apply every_drop|]. intros _.
    apply trails_bind, trails_recall. intros c' Hc'.
    apply trails_bind. eapply trails_mono; [|by apply trails_commit_entry].
    intros x _ ->. apply trails_bind, trails_commit_pop.
    eapply trails_mono; [|apply IH]. intros x _ ->. unfold due. simpl List.filter.
    destruct (effective c); [by rewrite <- app_assoc|by rewrite app_nil_r].
Qed.

Lemma trails_process_commit {mem : expiry} p j q st l :
  trails (process_commit p j)
    (fun x _ => x = if bool_decide (st = SHRINKING) then idle_trail [] st (l ++ due q) else idle_trail q st l)
    (idle_trail q st l).
Proof.
  unfold process_commit. apply trails_bind, trails_get_status. destruct (decide (st = SHRINKING)) as [->|Hst].
  - rewrite !bool_decide_true by done. cbn [negb]. apply trails_bind.
    eapply trails_mono; [|apply trails_commit_loop]. intros x _ ->. by apply trails_still; [|walk|].
  - rewrite !bool_decide_false by done. cbn [negb]. by apply trails_still; [|walk|].
Qed.

Lemma trails_clear_queue fuel q st l :
  trails (clear_commit_queue fuel) (fun x _ => x = idle_trail [] st l) (idle_trail q st l).
Proof.
  revert q. induction fuel as [|f IH]; intros q; cbn [clear_commit_queue]; [by intros s w _|].
  apply trails_bind, trails_commit_empty. destruct q as [|c q].
  - by rewrite bool_decide_true.
  - rewrite bool_decide_false by done. apply trails_bind, trails_commit_get, trails_bind.
    apply (trails_unwrap _ c); [done|]. apply trails_bind, trails_commit_pop, trails_pass; [apply every_drop|].
    intros _. apply IH.
Qed.

Lemma trails_quit q st l :
  trails worker_quit (fun x _ => x = idle_trail [] st l) (idle_trail q st l).
Proof.
  unfold worker_quit. apply trails_pass; [apply every_release_all|]. intros _. apply trails_bind.
  eapply trails_mono; [|apply trails_clear_queue]. intros x _ ->. by apply trails_still; [|walk|].
Qed.

(** ** A request, a turn *)

(** What an operation applies of what is queued. *)
Definition performed (op : OpType) (st : TxnStatus) q : list CommitQueue.commit :=
  if bool_decide (op = COMMIT_TXN /\ st = SHRINKING) then due q else [].

Lemma performed_other op st q : op <> COMMIT_TXN \/ st <> SHRINKING -> performed op st q = [].
Proof. intros H. unfold performed. rewrite bool_decide_false; [done|]. by intros [-> ->]; destruct H. Qed.

(** What carrying out an operation does: a commit in the shrinking phase
    applies what is queued; whoever leaves, leaves nothing queued. *)
Definition worked (op : OpType) (x x' : trail) : Prop :=
  tr_hand x' = None /\
  tr_log x' = tr_log x ++ performed op (tr_status x) (tr_queue x) /\
  if leaves op then tr_queue x' = [] else tr_queue x `prefix_of` tr_queue x'.

Lemma trails_dispatch {mem : expiry} op p j x :
  tr_hand x = None -> trails (dispatch op p j) (fun x' _ => worked op x x') x.
Proof.
  intros Hx. destruct x as [q st h l]. cbn in Hx. subst h. change (mkTrail q st None l) with (idle_trail q st l).
  destruct (leaves op) eqn:Hop.
  - destruct op; try discriminate; cbn [dispatch]; apply trails_bind.
    + eapply trails_mono; [|apply trails_process_commit]. intros x _ ->. apply trails_bind. unfold worked.
      cbn [tr_status idle_trail tr_queue tr_log].
      destruct (decide (st = SHRINKING)) as [->|Hst].
      * rewrite bool_decide_true by done. eapply trails_mono; [|apply trails_quit]. by intros x _ ->.
      * rewrite bool_decide_false, performed_other by by try right. eapply trails_mono; [|apply trails_quit].
        intros x _ ->. apply trails_done. by rewrite app_nil_r.
    + apply trails_still; [done|walk|]. intros _. apply trails_bind.
      eapply trails_mono; [|apply trails_quit]. intros x _ ->. apply trails_done. unfold worked.
      rewrite performed_other by by left. by rewrite app_nil_r.
  - apply trails_gathers; [done|by apply (every_dispatch p j)|]. intros x' _ (H1 & H2 & H3). unfold worked.
    rewrite Hop, performed_other by by left; intros ->. by rewrite H2, app_nil_r.
Qed.

Lemma worked_nothing op x : tr_hand x = None -> leaves op = false -> worked op x x.
Proof.
  intros Hx Hop. unfold worked. rewrite Hop, performed_other by by left; intros ->.
  by rewrite app_nil_r.
Qed.

Lemma trails_answering {mem : expiry} job r1 r2 op_r x :
  tr_hand x = None -> (is_ok op_r = false /\ value_ op_r = None) \/ (exists op, op_r = Ok op) ->
  trails (answering job (r1, r2, op_r)) (fun x' _ => worked (default MAX_OP_VALUE (value_ op_r)) x x') x.
Proof.
  intros Hx Hcase. unfold answering. cbn [fst snd]. destruct Hcase as [[-> ->]|[op ->]].
  - cbn [negb]. apply trails_still; [done|walk|]. intros _. by apply worked_nothing.
  - rewrite is_ok_Ok. cbn [negb]. apply trails_bind. destruct x as [q st h l]. cbn in Hx. subst h.
    apply (trails_unwrap _ op); [done|]. by apply trails_dispatch.
Qed.
End Commits.

(** Same queue and phase over the same bytes. *)
Lemma trailed_stable s w x s' w' :
  trailed s w x -> commit_queue_ w' = commit_queue_ w -> status_ w' = status_ w ->
  (forall b, Some b ∈ commit_refs w -> buffer (pool_of s') (Some b) = buffer (pool_of s) (Some b)) ->
  trailed s' w' x.
Proof.
  intros [] Hq Hs Hb. split; [by rewrite Hq|by rewrite Hq|by rewrite Hs|].
  intros u Hu. destruct (ta_hand0 u Hu) as (c & rest & Hc & ->). exists c, rest. split; [done|].
  unfold carried. destruct (CommitQueue.commit_buffer_ c) as [b|] eqn:Ec; [|done]. rewrite Hb; [done|].
  rewrite <- Ec. apply queued_ref. rewrite ta_queue0, Hc. left.
Qed.
