(* ===== verification/WorkerTable.v ===== *)
(** * The worker table

    [WorkerContext] and [WorkerTable] ([types/worker_table.h],
    [worker_table.cpp]).  Only the socket thread calls these functions.

    A context carries its job channel, its transaction id, its running flag
    and whether its [std::thread] is joinable; [ret_ch_], [db_] and [fd_] are
    the same for all contexts and are left out.  [finish] is what the worker
    thread still does to its channel between [stop_] and its end.  Starting a
    thread over a joinable one, or joining one that is not, terminates the
    program: both are [Undef]. *)
From S2P Require Import Prelude Params Probe BufTable Ring.
From S2P Require Bytes JobBuf Channels.

(** ** [WorkerContext] *)

Record WorkerContext := mkContext {
  job_ch_ : Channels.job_channel;
  txn_id_ : Z;
  running_ : bool;
  joinable_ : bool
}.

Definition context_default : WorkerContext := mkContext Channels.job_channel_default 0 false false.

(** [WorkerContext(ret_channel*, Database*, txn_id_t, int)] *)
Definition context_make (_txn_id : Z) : WorkerContext :=
  mkContext Channels.job_channel_default _txn_id false false.

(** [operator=]: the channel, the thread and the flag stay. *)
Definition context_assign (this _other : WorkerContext) : WorkerContext :=
  mkContext (job_ch_ this) (txn_id_ _other) (running_ this) (joinable_ this).

(** The copy constructor, and [copy_()], make a context with an empty channel
    and no thread; [running_] is not initialised, [running] stands for what it
    holds.  [copy_from_] is the assignment. *)
Definition context_copy (running : bool) (_other : WorkerContext) : WorkerContext :=
  mkContext Channels.job_channel_default (txn_id_ _other) running false.
Definition copy_from_ (this _other : WorkerContext) : WorkerContext :=
  context_assign this _other.

Definition hash_ (this : WorkerContext) : Z := txn_id_ this.

Definition start_ (this : WorkerContext) : outcome WorkerContext :=
  if joinable_ this then Undef
  else Ret (mkContext (job_ch_ this) (txn_id_ this) true true).

Definition stop_ (this : WorkerContext) : WorkerContext :=
  mkContext (job_ch_ this) (txn_id_ this) false (joinable_ this).

(** [is_running_] leaves the flag as it found it. *)
Definition is_running_ (this : WorkerContext) : bool := running_ this.

(** One round of the loop of [join_]: the job is copied, its parser shares
    the buffer, and both are destroyed at the end of the round. *)
Definition answer_dead (T : buf_table) (sent : list Channels.datagram) (job : Channels.job)
    : buf_table * list Channels.datagram :=
  let '(T1, r1) := ref_copy T (Channels.job_ref job) in
  let '(T2, r2) := ref_copy T1 r1 in
  let parser := JobBuf.mkJobBuf r2 (Channels.buf_sz job) in
  let T3 := JobBuf.set_ack T2 parser DEAD_TXN in
  (T3, sent ++ [Channels.conn_reply (Channels.conn_ job) (buffer T3 r2) 7]).

Definition forget_dead (T : buf_table) (job : Channels.job) : buf_table :=
  (ref_destroy (ref_destroy T (Channels.job_ref job)).1 (Channels.job_ref job)).1.

(** A channel holds at most 16 jobs. *)
Definition JOIN_FUEL : nat := S Channels.MaxJobs.

Definition join_ (finish : buf_table -> Channels.job_channel -> buf_table * Channels.job_channel)
    (T : buf_table) (this : WorkerContext)
    : outcome (buf_table * WorkerContext * list Channels.datagram) :=
  if joinable_ this then
    let '(T1, ch) := finish T (job_ch_ this) in
    '(T2, sent, ch') ← of_loop (drain answer_dead forget_dead JOIN_FUEL T1 [] ch);
    Ret (T2, mkContext ch' (txn_id_ this) (running_ this) false, sent)
  else Undef.

(** [~WorkerContext()] *)
Definition context_destroy
    (finish : buf_table -> Channels.job_channel -> buf_table * Channels.job_channel)
    (T : buf_table) (this : WorkerContext) : outcome (buf_table * list Channels.datagram) :=
  if joinable_ this then
    '(T', _, sent) ← join_ finish T (stop_ this); Ret (T', sent)
  else Ret (T, []).

(** The channel functions a context passes on. *)
Definition send_ (T : buf_table) (this : WorkerContext) (j : Channels.job)
    : buf_table * WorkerContext * QueueError :=
  let '(T', ch, r) := Channels.send T (job_ch_ this) j in
  (T', mkContext ch (txn_id_ this) (running_ this) (joinable_ this), r).
Definition get_ (T : buf_table) (this : WorkerContext) := Channels.get T (job_ch_ this).
Definition pop_ (T : buf_table) (this : WorkerContext) : buf_table * WorkerContext :=
  let '(T', ch) := Channels.pop T (job_ch_ this) in
  (T', mkContext ch (txn_id_ this) (running_ this) (joinable_ this)).

Definition recv_ (env : buf_table * Channels.job_channel -> buf_table * Channels.job_channel)
    (T : buf_table) (this : WorkerContext)
    : buf_table * WorkerContext * Result Channels.job QueueError :=
  let '(T', ch, r) := Channels.recv env T (job_ch_ this) in
  (T', mkContext ch (txn_id_ this) (running_ this) (joinable_ this), r).
Definition context_clear_ (this : WorkerContext) : WorkerContext :=
  mkContext (Channels.clear (job_ch_ this)) (txn_id_ this) (running_ this) (joinable_ this).
Definition notify_not_empty_ (this : WorkerContext) : bool :=
  Channels.notify_not_empty (job_ch_ this).

(** ** [WorkerTable] *)

Record Entry := mkEntry {
  context_ : WorkerContext;
  is_used_ : bool;
  is_deleted_ : bool
}.

Record WorkerTable := mkTable {
  table_ : list Entry;
  entry_count_ : Z
}.

Definition Rows : nat := Z.to_nat MAX_TRANSACTIONS.
Definition table_default : WorkerTable :=
  mkTable (replicate Rows (mkEntry context_default false false)) 0.

Definition size_ (this : WorkerTable) : Z := entry_count_ this.
Definition empty_ (this : WorkerTable) : bool := entry_count_ this =? 0.
Definition full_ (this : WorkerTable) : bool := MAX_TRANSACTIONS <=? entry_count_ this.

(** Access to a slot from outside. *)
Definition data_ (this : WorkerTable) : list Entry := table_ this.
Definition set_used_ (this : WorkerTable) (idx : nat) (val : bool) : WorkerTable :=
  mkTable (alter (fun e => mkEntry (context_ e) val (is_deleted_ e)) idx (table_ this))
    (entry_count_ this).
Definition set_deleted_ (this : WorkerTable) (idx : nat) (val : bool) : WorkerTable :=
  mkTable (alter (fun e => mkEntry (context_ e) (is_used_ e) val) idx (table_ this))
    (entry_count_ this).
Definition get_entry_ (this : WorkerTable) (idx : nat) : option WorkerContext :=
  context_ <$> table_ this !! idx.

Definition home (k : Z) : nat := Z.to_nat (k mod MAX_TRANSACTIONS).
Definition entry_key (e : Entry) : Z := txn_id_ (context_ e).

(** The reference to the inserted context is its slot. *)
Definition insert_ (this : WorkerTable) (_context : WorkerContext)
    : outcome (WorkerTable * Result nat WorkerTableError) :=
  if full_ this then Ret (this, Err WorkerTableError_Full)
  else
    '(idx, e) ← of_loop (while_true Rows (fun idx =>
       match table_ this !! idx with
       | Some e => if negb (is_used_ e) || is_deleted_ e then Some (idx, e) else None
       | None => None
       end) Rows (home (txn_id_ _context)));
    context ← start_ (context_assign (context_ e) _context);
    Ret (mkTable (<[idx := mkEntry context true false]> (table_ this))
           (u64 (entry_count_ this + 1)), Ok idx).

Definition search_ (this : WorkerTable) (_key : Z) : Result nat WorkerTableError :=
  default (Err WorkerTableError_NotFound)
    (do_while Rows (fun idx =>
       match table_ this !! idx with
       | Some e =>
           if negb (is_used_ e) then Some (Err WorkerTableError_NotFound)
           else if (entry_key e =? _key) && negb (is_deleted_ e) then Some (Ok idx) else None
       | None => None
       end) Rows (home _key) (home _key)).

Section Joining.
Context (finish : buf_table -> Channels.job_channel -> buf_table * Channels.job_channel).

Definition remove_ (T : buf_table) (this : WorkerTable) (_key : Z)
    : outcome (buf_table * WorkerTable * list Channels.datagram * WorkerTableError) :=
  '(idx, e) ← of_loop (while_true Rows (fun idx =>
     match table_ this !! idx with
     | Some e => if (entry_key e =? _key) && negb (is_deleted_ e) then Some (idx, e) else None
     | None => None
     end) Rows (home _key));
  '(T', context, sent) ← join_ finish T (stop_ (context_ e));
  Ret (T', mkTable (<[idx := mkEntry context (is_used_ e) true]> (table_ this))
             (u64 (entry_count_ this - 1)), sent, WorkerTableError_None).

(** The two range loops of [clear_]. *)
Definition stop_entry (e : Entry) : Entry :=
  if is_used_ e && negb (is_deleted_ e)
  then mkEntry (stop_ (context_ e)) (is_used_ e) (is_deleted_ e) else e.

Fixpoint join_entries (T : buf_table) (l : list Entry) (count : Z)
    : outcome (buf_table * list Entry * Z * list Channels.datagram) :=
  match l with
  | [] => Ret (T, [], count, [])
  | e :: l' =>
      if is_used_ e && negb (is_deleted_ e) then
        '(T1, context, sent) ← join_ finish T (context_ e);
        '(T2, l2, n, sent') ← join_entries T1 l' (u64 (count - 1));
        Ret (T2, mkEntry context (is_used_ e) true :: l2, n, sent ++ sent')
      else
        '(T2, l2, n, sent') ← join_entries T l' count;
        Ret (T2, e :: l2, n, sent')
  end.

Definition clear_ (T : buf_table) (this : WorkerTable)
    : outcome (buf_table * WorkerTable * list Channels.datagram) :=
  '(T', l, n, sent) ← join_entries T (stop_entry <$> table_ this) (entry_count_ this);
  Ret (T', mkTable l n, sent).

(** [~WorkerTable()]: [clear_], then the contexts are destroyed with the
    array, the last one first. *)
Fixpoint destroy_entries (T : buf_table) (l : list Entry)
    : outcome (buf_table * list Channels.datagram) :=
  match l with
  | [] => Ret (T, [])
  | e :: l' =>
      '(T1, sent) ← context_destroy finish T (context_ e);
      '(T2, sent') ← destroy_entries T1 l';
      Ret (T2, sent ++ sent')
  end.

Definition table_destroy (T : buf_table) (this : WorkerTable)
    : outcome (buf_table * list Channels.datagram) :=
  '(T1, this, sent) ← clear_ T this;
  '(T2, sent') ← destroy_entries T1 (rev (table_ this));
  Ret (T2, sent ++ sent').
End Joining.

(** ** Well-formed tables *)

Definition live_entry (e : Entry) : bool := live is_used_ is_deleted_ e.
Abbreviation worker_chain := (chain is_used_ is_deleted_ entry_key home Rows).
Abbreviation worker_holder := (holder is_used_ is_deleted_ entry_key home Z.eqb Rows).
Abbreviation worker_present := (present is_used_ is_deleted_ entry_key).

(** The thread of a context runs exactly while the entry is live; a free
    slot's channel is empty. *)
Record thread_ok (e : Entry) : Prop := {
  th_queue : queue_wf (job_ch_ (context_ e));
  th_joinable : joinable_ (context_ e) = live_entry e;
  th_free : live_entry e = false -> contents (job_ch_ (context_ e)) = []
}.

Record workers_wf (this : WorkerTable) : Prop := {
  ww_length : length (table_ this) = Rows;
  ww_count : entry_count_ this = cnt live_entry (table_ this);
  ww_chain : worker_chain (table_ this);
  ww_threads : forall i e, table_ this !! i = Some e -> thread_ok e
}.

(** Slots that have never been used carry the id 0. *)
Definition idle_default (this : WorkerTable) : Prop :=
  forall i e, table_ this !! i = Some e -> is_used_ e = false -> entry_key e = 0.

(** The contexts of the running workers. *)
Definition worker_of (e : Entry) : option WorkerContext :=
  if live_entry e then Some (context_ e) else None.
Definition workers (this : WorkerTable) : list WorkerContext := omap worker_of (table_ this).

Lemma worker_home_lt k : (home k < Rows)%nat.
Proof.
  unfold home, Rows. pose proof (Z.mod_pos_bound k MAX_TRANSACTIONS).
  unfold MAX_TRANSACTIONS in *. lia.
Qed.
#[export] Hint Resolve worker_home_lt Z.eqb_eq : core.

Lemma workers_default_wf : workers_wf table_default /\ workers table_default = [].
Proof.
  assert (Hd : forall i e, table_ table_default !! i = Some e ->
    e = mkEntry context_default false false).
  { intros i e Hi. by apply lookup_replicate in Hi as [-> _]. }
  split; [split|].
  - done.
  - simpl entry_count_. rewrite cnt_zero; [done|]. intros i e Hi. by rewrite (Hd i e Hi).
  - apply chain_no_live. intros i e Hi. by rewrite (Hd i e Hi).
  - intros i e Hi. rewrite (Hd i e Hi). split; [apply Channels.job_channel_default_wf|done|done].
  - apply omap_none. intros e [-> _]%elem_of_replicate. done.
Qed.

Lemma count_bounds this : workers_wf this -> 0 <= entry_count_ this <= 64.
Proof.
  intros Hwf. rewrite (ww_count _ Hwf). pose proof (cnt_nonneg live_entry (table_ this)).
  pose proof (cnt_le_length live_entry (table_ this)) as Hle. rewrite (ww_length _ Hwf) in Hle.
  change (Z.of_nat Rows) with 64 in Hle. lia.
Qed.

(** Writing one slot. *)
Lemma workers_wf_write this i e e' n :
  workers_wf this -> table_ this !! i = Some e -> thread_ok e' ->
  worker_chain (<[i := e']> (table_ this)) ->
  n = entry_count_ this - Z.b2z (live_entry e) + Z.b2z (live_entry e') ->
  workers_wf (mkTable (<[i := e']> (table_ this)) n).
Proof.
  intros Hwf Hi Hok Hc ->. split; simpl; [|by rewrite (cnt_insert _ _ _ e), (ww_count _ Hwf)|done|].
  - rewrite length_insert. apply Hwf.
  - intros j e0 [(_ & -> & _)|(_ & Hj)]%list_lookup_insert_Some; [done|].
    by apply (ww_threads _ Hwf j).
Qed.

Lemma workers_length this :
  workers_wf this -> Z.of_nat (length (workers this)) = entry_count_ this.
Proof.
  intros Hwf. rewrite (ww_count _ Hwf). unfold workers. clear.
  induction (table_ this) as [|e l IH]; [done|]. csimpl. rewrite <- IH.
  unfold worker_of. destruct (live_entry e); simpl; lia.
Qed.

(** ** Joining *)

(** The datagram a dead worker's job gets: its first six bytes and
    [DEAD_TXN]. *)
Definition dead_reply (T : buf_table) (j : Channels.job) : Channels.datagram :=
  (Channels.conn_ j, take 6 (buffer T (Channels.job_ref j)) ++ [OpAck_value DEAD_TXN]).

(** Headers survive; whole buffers stay whole. *)
Definition same_headers (T T' : buf_table) : Prop :=
  forall r, take 6 (buffer T' r) = take 6 (buffer T r) /\
    length (buffer T' r) = length (buffer T r).

#[export] Instance same_headers_preorder : PreOrder same_headers.
Proof.
  split; [by intros T r|]. intros T1 T2 T3 H1 H2 r.
  destruct (H1 r) as [<- <-]. apply H2.
Qed.

Lemma same_headers_bytes T T' : same_bytes T T' -> same_headers T T'.
Proof. intros H r. by rewrite H. Qed.

Lemma set_ack_headers T p a :
  JobBuf.valid_ref T (JobBuf.ref p) -> same_headers T (JobBuf.set_ack T p a).
Proof.
  intros Hv r. unfold JobBuf.set_ack.
  destruct (decide (r = JobBuf.ref p)) as [->|Hne].
  2: { unfold JobBuf.set_field. by rewrite JobBuf.buffer_store_ne. }
  rewrite JobBuf.buffer_set_field by done. unfold JobBuf.valid_ref, BUFFER_WIDTH in Hv.
  rewrite Bytes.write_length by (simpl; lia). split; [|done].
  unfold Bytes.write. simpl. rewrite take_app_le by (rewrite length_take; lia).
  by rewrite take_take.
Qed.

Lemma ref_copy_same T r : ref_copy T r = ((ref_copy T r).1, r).
Proof. by destruct r. Qed.

Lemma answer_dead_spec T sent j :
  JobBuf.valid_ref T (Channels.job_ref j) ->
  (answer_dead T sent j).2 = sent ++ [dead_reply T j] /\
  same_headers T (answer_dead T sent j).1.
Proof.
  intros Hv. unfold answer_dead. rewrite (ref_copy_same T).
  set (T1 := (ref_copy T (Channels.job_ref j)).1). rewrite (ref_copy_same T1).
  set (T2 := (ref_copy T1 (Channels.job_ref j)).1).
  assert (Hb : same_bytes T T2) by (etrans; [apply ref_copy_bytes|apply ref_copy_bytes]).
  assert (Hv2 : JobBuf.valid_ref T2 (Channels.job_ref j))
    by (unfold JobBuf.valid_ref in *; by rewrite Hb).
  cbn [fst snd]. split.
  - f_equal. f_equal. unfold dead_reply, Channels.conn_reply, JobBuf.set_ack. f_equal.
    rewrite JobBuf.buffer_set_field by done. unfold JobBuf.valid_ref, BUFFER_WIDTH in Hv2.
    rewrite <- (Hb (Channels.job_ref j)). cbn [JobBuf.ref]. unfold Bytes.write. simpl JobBuf.offset.
    rewrite app_assoc, take_app_length'; [done|]. rewrite length_app, length_take, Nat.min_l by lia. done.
  - etrans; [apply same_headers_bytes, Hb|]. by apply set_ack_headers.
Qed.

Lemma dead_reply_headers T T' j : same_headers T T' -> dead_reply T' j = dead_reply T j.
Proof. intros H. unfold dead_reply. by destruct (H (Channels.job_ref j)) as [-> _]. Qed.

(** The loop of [join_] answers every job that is still queued, in order, and
    leaves the channel empty. *)
Lemma drain_dead T (ch : Channels.job_channel) :
  queue_wf ch -> Forall (fun j => JobBuf.valid_ref T (Channels.job_ref j)) (contents ch) ->
  exists T' (ch' : Channels.job_channel), drain answer_dead forget_dead JOIN_FUEL T [] ch =
      Some (T', dead_reply T <$> contents ch, ch') /\
    queue_wf ch' /\ contents ch' = [] /\ same_headers T T'.
Proof.
  intros Hwf Hv. set (I := fun T' sent (q : Channels.job_channel) =>
    exists before, contents ch = before ++ contents q /\ sent = dead_reply T <$> before /\
      same_headers T T').
  destruct (drain_spec answer_dead forget_dead I) with (fuel := JOIN_FUEL) (T := T)
    (w := @nil Channels.datagram) (q := ch) as (T' & w' & q' & -> & Hq & Hc & before & E & -> & Hh).
  - intros T1 sent q x rest Hq Hc (before & E & -> & Hh). rewrite Hc in E. rewrite E in Hv.
    apply Forall_app in Hv as [_ [Hvx _]%Forall_cons_1].
    assert (Hvx1 : JobBuf.valid_ref T1 (Channels.job_ref x)).
    { unfold JobBuf.valid_ref in *. by destruct (Hh (Channels.job_ref x)) as [_ ->]. }
    destruct (answer_dead_spec T1 (dead_reply T <$> before) x Hvx1) as [H1 H2].
    exists (before ++ [x]).
    destruct (Channels.pop_front (answer_dead T1 (dead_reply T <$> before) x).1 q x rest Hq Hc)
      as (y & _ & _ & Hp).
    destruct (pop_spec (answer_dead T1 (dead_reply T <$> before) x).1 q x rest Hq Hc) as [_ ->].
    simpl queue_pop. rewrite Hp. split_and!.
    + by rewrite E, <- app_assoc.
    + rewrite H1, fmap_app. simpl. by rewrite (dead_reply_headers T T1).
    + etrans; [exact Hh|]. etrans; [exact H2|]. apply same_headers_bytes.
      etrans; [apply ref_destroy_bytes|]. etrans; apply ref_destroy_bytes.
  - done.
  - by exists [].
  - pose proof (ring_items_length Channels.MaxJobs _ _ _ _ Hwf) as Hl.
    pose proof (Channels.jobs_count_small ch Hwf). unfold JOIN_FUEL. simpl contents.
    assert (Channels.MaxJobs = 16%nat) by reflexivity. lia.
  - rewrite Hc, app_nil_r in E. rewrite <- E. by exists T', q'.
Qed.

(** What is assumed of the rest of a worker's life: it leaves a well-formed
    channel, and the jobs in it refer to whole buffers. *)
Definition ends_well (finish : buf_table -> Channels.job_channel -> buf_table * Channels.job_channel)
    (T : buf_table) (ch : Channels.job_channel) : Prop :=
  queue_wf (finish T ch).2 /\
  Forall (fun j => JobBuf.valid_ref (finish T ch).1 (Channels.job_ref j))
    (contents (finish T ch).2).

(** [join_] of a running worker. *)
Lemma join_running finish T c :
  joinable_ c = true -> ends_well finish T (job_ch_ c) ->
  let T1 := (finish T (job_ch_ c)).1 in let left := contents (finish T (job_ch_ c)).2 in
  exists T' ch', join_ finish T c =
      Ret (T', mkContext ch' (txn_id_ c) (running_ c) false, dead_reply T1 <$> left) /\
    queue_wf ch' /\ contents ch' = [] /\ same_headers T1 T'.
Proof.
  intros Hj [Hwf' Hv] T1 left. unfold join_. rewrite Hj. unfold T1, left in *. clear T1 left.
  destruct (finish T (job_ch_ c)) as [T1 ch]. simpl in Hwf', Hv. cbn [fst snd].
  destruct (drain_dead T1 ch Hwf' Hv) as (T' & ch' & -> & ? & ? & ?).
  exists T', ch'. by split_and!.
Qed.

(** ** The loops of the table *)

Lemma worker_search_loop this k :
  search_ this k = default (Err WorkerTableError_NotFound)
    (while_true Rows (seek is_used_ is_deleted_ entry_key Z.eqb (table_ this) k
       (Err WorkerTableError_NotFound) (fun idx _ => Ok idx)) Rows (home k)).
Proof. unfold search_. rewrite do_while_while_true; [done|apply worker_home_lt|done]. Qed.

Lemma worker_insert_loop this c :
  insert_ this c =
    if full_ this then Ret (this, Err WorkerTableError_Full)
    else '(idx, e) ← of_loop (while_true Rows (Probe.claim is_used_ is_deleted_ (table_ this)
           (fun _ => None) pair) Rows (home (txn_id_ c)));
         context ← start_ (context_assign (context_ e) c);
         Ret (mkTable (<[idx := mkEntry context true false]> (table_ this))
                (u64 (entry_count_ this + 1)), Ok idx).
Proof. reflexivity. Qed.

Lemma worker_remove_loop finish T this k :
  remove_ finish T this k =
    '(idx, e) ← of_loop (while_true Rows (grab is_deleted_ entry_key Z.eqb (table_ this) k pair)
       Rows (home k));
    '(T', context, sent) ← join_ finish T (stop_ (context_ e));
    Ret (T', mkTable (<[idx := mkEntry context (is_used_ e) true]> (table_ this))
               (u64 (entry_count_ this - 1)), sent, WorkerTableError_None).
Proof. reflexivity. Qed.

Lemma worker_full this : workers_wf this -> full_ this = (64 <=? entry_count_ this).
Proof. reflexivity. Qed.

(** The id leads to a worker exactly if it is the id of a running one. *)
Lemma worker_present_workers this k :
  worker_present (table_ this) k <-> k ∈ txn_id_ <$> workers this.
Proof.
  rewrite list_elem_of_fmap. unfold workers. setoid_rewrite elem_of_omap. split.
  - intros (i & e & Hi & Hl & <-). exists (context_ e). split; [done|].
    exists i, e. split; [done|]. unfold worker_of. fold (live_entry e) in Hl. by rewrite Hl.
  - intros (c & -> & i & e & Hi & Hw). exists i, e. unfold worker_of in Hw.
    unfold live_entry in Hw. destruct (live _ _ e) eqn:Hl; [|done]. injection Hw as <-. done.
Qed.

Lemma worker_inserted this c :
  workers_wf this ->
  if entry_count_ this =? 64
  then insert_ this c = Ret (this, Err WorkerTableError_Full)
  else exists this' i c', insert_ this c = Ret (this', Ok i) /\ workers_wf this' /\
    context_ <$> table_ this' !! i = Some c' /\ txn_id_ c' = txn_id_ c /\
    running_ c' = true /\ joinable_ c' = true /\ contents (job_ch_ c') = [] /\
    workers this' ≡ₚ c' :: workers this /\ size_ this' = size_ this + 1.
Proof.
  intros Hwf. pose proof (count_bounds this Hwf) as Hb. rewrite worker_insert_loop, worker_full by done.
  destruct (Z.eqb_spec (entry_count_ this) 64) as [->|Hne]; [done|].
  rewrite (proj2 (Z.leb_gt _ _)) by lia.
  destruct (cnt_lt_exists live_entry (table_ this)) as (i0 & e0 & Hi0 & Hl0).
  { rewrite (ww_length _ Hwf), <- (ww_count _ Hwf). change (Z.of_nat Rows) with 64. lia. }
  destruct (claim_ends is_used_ is_deleted_ home Rows worker_home_lt (table_ this)
    (fun _ => None) pair (txn_id_ c) i0 e0) as [[i e] Hr]; [apply Hwf|done|done|].
  rewrite Hr. apply claim_Some_inv in Hr; [|apply worker_home_lt|apply Hwf].
  destruct Hr as [(j & e' & Hj & He & Hl & [= -> <-] & Hpre)|(? & ? & _ & _ & ?)]; [|done].
  set (i := slot Rows (home (txn_id_ c)) j) in *.
  destruct (ww_threads _ Hwf i e He) as [Hq Hjn Hfree]. fold (live_entry e) in Hl. rewrite Hl in Hjn.
  set (c' := mkContext (job_ch_ (context_ e)) (txn_id_ c) true true).
  assert (Hs : start_ (context_assign (context_ e) c) = Ret c').
  { unfold start_, context_assign. simpl. by rewrite Hjn. }
  cbn [of_loop]. rewrite (outcome_bind_ret (i, e)), Hs, (outcome_bind_ret c').
  exists (mkTable (<[i := mkEntry c' true false]> (table_ this)) (u64 (entry_count_ this + 1))), i, c'.
  assert (Hu : u64 (entry_count_ this + 1) = entry_count_ this + 1) by word.
  assert (Hlt : (i < length (table_ this))%nat) by by eapply lookup_lt_Some.
  split_and!; try done; simpl.
  - eapply workers_wf_write; [done|exact He|by split| |rewrite Hl, Hu; simpl; lia].
    apply (chain_claim is_used_ is_deleted_ entry_key home Rows worker_home_lt (table_ this)
      (mkEntry c' true false) j); [apply Hwf|done|done| |apply Hwf].
    intros j' Hj'. destruct (Hpre j' Hj') as (e2 & ? & ? & _). eauto.
  - by rewrite list_lookup_insert_eq.
  - by apply Hfree.
  - unfold workers. simpl. apply (omap_insert_add _ _ _ e); [done|unfold worker_of; by rewrite Hl|done].
Qed.

Lemma worker_found this k :
  workers_wf this ->
  (exists i e, search_ this k = Ok i /\ table_ this !! i = Some e /\
     live_entry e = true /\ context_ e ∈ workers this /\ txn_id_ (context_ e) = k) \/
  (search_ this k = Err WorkerTableError_NotFound /\ k ∉ txn_id_ <$> workers this).
Proof.
  intros Hwf. rewrite worker_search_loop, <- worker_present_workers.
  destruct (decide (k ∈ txn_id_ <$> workers this)) as [Hin|Hno];
    rewrite <- worker_present_workers in *.
  - left. destruct (present_holder is_used_ is_deleted_ entry_key home Z.eqb Z.eqb_eq Rows
      worker_home_lt (table_ this) k) as (i & e & Hh); [apply Hwf|apply Hwf|done|].
    exists i, e. rewrite (seek_holder is_used_ is_deleted_ entry_key home Z.eqb Z.eqb_eq Rows
      worker_home_lt _ _ _ _ i e) by (done || apply Hwf).
    destruct Hh as (Hi & Hl & Hk & _). split_and!; [done|done|done| |done].
    apply elem_of_omap. exists i, e. split; [done|]. unfold worker_of, live_entry. by rewrite Hl.
  - right. split; [|done].
    destruct (while_true _ _ _ _) as [r|] eqn:Hw; [|done].
    by apply (seek_absent is_used_ is_deleted_ entry_key home Z.eqb Z.eqb_eq Rows worker_home_lt)
      in Hw as ->; first [apply (ww_length _ Hwf)|done].
Qed.

Lemma worker_removed finish T this k :
  workers_wf this -> (forall c, c ∈ workers this -> ends_well finish T (job_ch_ c)) ->
  k ∈ txn_id_ <$> workers this ->
  exists c T' this', remove_ finish T this k =
      Ret (T', this', dead_reply (finish T (job_ch_ c)).1 <$> contents (finish T (job_ch_ c)).2,
           WorkerTableError_None) /\
    txn_id_ c = k /\ workers this ≡ₚ c :: workers this' /\ workers_wf this' /\
    size_ this' = size_ this - 1 /\ (idle_default this -> idle_default this').
Proof.
  intros Hwf Hf Hin. rewrite <- worker_present_workers in Hin.
  destruct (present_holder is_used_ is_deleted_ entry_key home Z.eqb Z.eqb_eq Rows
    worker_home_lt (table_ this) k) as (i & e & Hh); [apply Hwf|apply Hwf|done|].
  rewrite worker_remove_loop, (grab_holder is_used_ is_deleted_ entry_key home Z.eqb Z.eqb_eq Rows
    worker_home_lt _ _ _ i e) by (done || apply Hwf).
  destruct Hh as (Hi & Hl & Hk & _). fold (live_entry e) in Hl.
  destruct (ww_threads _ Hwf i e Hi) as [Hq Hjn _]. rewrite Hl in Hjn.
  destruct (join_running finish T (stop_ (context_ e)) Hjn) as (T' & ch' & Hj & Hq' & Hc' & _).
  { apply (Hf (context_ e)), elem_of_omap. exists i, e. split; [done|]. unfold worker_of. by rewrite Hl. }
  cbn [of_loop]. rewrite (outcome_bind_ret (i, e)), Hj. cbn [stop_ job_ch_ txn_id_ running_].
  set (c' := mkContext ch' (txn_id_ (context_ e)) false false).
  exists (context_ e), T', (mkTable (<[i := mkEntry c' (is_used_ e) true]> (table_ this))
    (u64 (entry_count_ this - 1))).
  pose proof (count_bounds this Hwf) as Hb.
  assert (Hpos : 0 < entry_count_ this) by (rewrite (ww_count _ Hwf); by eapply cnt_pos).
  assert (Hu : u64 (entry_count_ this - 1) = entry_count_ this - 1) by word.
  assert (Hdead : live_entry (mkEntry c' (is_used_ e) true) = false).
  { unfold live_entry, live. apply andb_false_r. }
  split_and!; [done|done| | |done|].
  - unfold workers. simpl. apply (omap_insert_remove _ _ _ e _ _ Hi); unfold worker_of.
    + by rewrite Hl.
    + by rewrite Hdead.
  - eapply workers_wf_write; [done|exact Hi| | |rewrite Hl, Hdead, Hu; simpl; lia].
    + split; [done|by rewrite Hdead|done].
    + apply (chain_update is_used_ is_deleted_ entry_key home Rows _ _ e); [done|done| |apply Hwf].
      fold (live_entry (mkEntry c' (is_used_ e) true)). by rewrite Hdead.
  - intros Hid j e' [(_ & <- & _)|(_ & Hj2)]%list_lookup_insert_Some; [|by apply (Hid j)].
    exact (Hid i e Hi).
Qed.

(** [remove_] has no test for having seen every slot. *)
Lemma worker_remove_absent finish T this k :
  workers_wf this -> idle_default this -> k ∉ txn_id_ <$> workers this -> k <> 0 ->
  remove_ finish T this k = Hang.
Proof.
  intros Hwf Hid Hno Hk. rewrite worker_remove_loop.
  destruct (while_true _ _ _ _) as [[i e]|] eqn:Hw; [|done]. exfalso.
  apply while_true_Some in Hw as (j & _ & Hg & _); [|apply worker_home_lt].
  unfold grab, hits in Hg. set (n := slot _ _ _) in Hg.
  destruct (table_ this !! n) as [e'|] eqn:Hi; [|done].
  destruct ((entry_key e' =? k) && negb (is_deleted_ e')) eqn:Hm; [|done].
  apply andb_true_iff in Hm as [Hke%Z.eqb_eq Hd].
  destruct (is_used_ e') eqn:Hu; [|rewrite (Hid n e' Hi Hu) in Hke; congruence].
  apply Hno. apply worker_present_workers. exists n, e'. split; [done|].
  split; [|exact Hke]. unfold live. by rewrite Hu, Hd.
Qed.

(** The second loop of [clear_]. *)
Lemma join_entries_spec finish T l n :
  (forall T ch, queue_wf ch -> ends_well finish T ch) ->
  (forall e, e ∈ l -> thread_ok e) -> cnt live_entry l <= n <= 64 ->
  exists T' l' sent, join_entries finish T l n = Ret (T', l', n - cnt live_entry l, sent) /\
    length l' = length l /\ (forall e, e ∈ l' -> thread_ok e /\ live_entry e = false).
Proof.
  intros Hf. revert T n. induction l as [|e l IH]; intros T n Hok Hn.
  { exists T, [], []. split_and!; [|done|by intros e ?%elem_of_nil]. simpl. by rewrite Z.sub_0_r. }
  destruct (Hok e) as [Hq Hjn Hfree]; [apply elem_of_cons; by left|]. cbn [join_entries cnt] in *.
  pose proof (cnt_nonneg live_entry l) as Hnn.
  change (is_used_ e && negb (is_deleted_ e)) with (live_entry e).
  destruct (live_entry e) eqn:Hl; cbn [Z.b2z] in *.
  - destruct (join_running finish T (context_ e) Hjn (Hf T _ Hq)) as (T1 & ch & -> & Hq1 & Hc1 & _).
    rewrite outcome_bind_ret. assert (u64 (n - 1) = n - 1) as -> by word.
    destruct (IH T1 (n - 1)) as (T2 & l2 & sent & -> & Hlen & Hall);
      [intros; apply Hok, elem_of_cons; by right|lia|].
    rewrite outcome_bind_ret. set (c := mkContext ch _ _ false).
    exists T2, (mkEntry c (is_used_ e) true :: l2). eexists.
    replace (n - (1 + cnt live_entry l)) with (n - 1 - cnt live_entry l) by lia.
    split_and!; [done|simpl; by rewrite Hlen|].
    intros e0 [->|H0]%elem_of_cons; [|by apply Hall].
    assert (live_entry (mkEntry c (is_used_ e) true) = false) as Hd
      by (unfold live_entry, live; apply andb_false_r).
    split; [|done]. split; [done|by rewrite Hd|done].
  - destruct (IH T n) as (T2 & l2 & sent & -> & Hlen & Hall);
      [intros; apply Hok, elem_of_cons; by right|lia|].
    rewrite outcome_bind_ret. exists T2, (e :: l2), sent. rewrite Z.add_0_l.
    split_and!; [done|simpl; by rewrite Hlen|].
    intros e0 [->|H0]%elem_of_cons; [|by apply Hall]. split; [|exact Hl].
    apply Hok, elem_of_cons. by left.
Qed.

Lemma stop_entry_live e : live_entry (stop_entry e) = live_entry e.
Proof. unfold stop_entry. by destruct (is_used_ e && negb (is_deleted_ e)). Qed.

Lemma cleared finish T this :
  workers_wf this -> (forall T ch, queue_wf ch -> ends_well finish T ch) ->
  exists T' this' sent, clear_ finish T this = Ret (T', this', sent) /\
    workers_wf this' /\ workers this' = [] /\ size_ this' = 0.
Proof.
  intros Hwf Hf. unfold clear_.
  assert (Hcnt : cnt live_entry (stop_entry <$> table_ this) = entry_count_ this).
  { rewrite (ww_count _ Hwf). clear. induction (table_ this) as [|e l IH]; [done|].
    csimpl. rewrite stop_entry_live. lia. }
  destruct (join_entries_spec finish T (stop_entry <$> table_ this) (entry_count_ this) Hf)
    as (T' & l & sent & -> & Hlen & Hall).
  - intros e (e0 & -> & He0)%list_elem_of_fmap. apply list_elem_of_lookup in He0 as [i Hi].
    destruct (ww_threads _ Hwf i e0 Hi) as [H1 H2 H3]. rewrite <- stop_entry_live in H2, H3.
    split; unfold stop_entry in *; by destruct (is_used_ e0 && negb (is_deleted_ e0)).
  - pose proof (count_bounds this Hwf). lia.
  - rewrite outcome_bind_ret, Hcnt, Z.sub_diag. exists T', (mkTable l 0), sent.
    assert (Hd : forall i e, l !! i = Some e -> thread_ok e /\ live_entry e = false).
    { intros i e Hi. apply Hall. by eapply list_elem_of_lookup_2. }
    split_and!; [done| | |done].
    + split; simpl; [|by rewrite cnt_zero; [|intros i e Hi; apply (Hd i e Hi)]| |apply Hd].
      * rewrite Hlen, length_fmap. apply Hwf.
      * apply chain_no_live. intros i e Hi. apply (Hd i e Hi).
    + apply omap_none. intros e He. unfold worker_of. by rewrite (proj2 (Hall e He)).
Qed.

(** Destroying a context whose thread has been joined does nothing. *)
Lemma destroy_entries_idle finish T l :
  (forall e, e ∈ l -> joinable_ (context_ e) = false) -> destroy_entries finish T l = Ret (T, []).
Proof.
  induction l as [|e l IH]; intros H; [done|]. cbn [destroy_entries]. unfold context_destroy.
  rewrite (H e) by left. rewrite (outcome_bind_ret (T, [])), IH; [done|].
  intros e' He'. apply H. by right.
Qed.

Lemma no_workers_idle this e :
  workers_wf this -> workers this = [] -> e ∈ table_ this -> joinable_ (context_ e) = false.
Proof.
  intros Hwf Hw He. pose proof He as [i Hi]%list_elem_of_lookup.
  destruct (ww_threads _ Hwf i e Hi) as [_ -> _]. destruct (live_entry e) eqn:Hl; [|done].
  exfalso. assert (Hin : context_ e ∈ workers this); [|rewrite Hw in Hin; by apply not_elem_of_nil in Hin].
  apply elem_of_omap. exists i, e. split; [done|]. unfold worker_of. by rewrite Hl.
Qed.

(** ** Properties *)

(** Starting a worker: a table with 64 running workers answers
    [Full] and is left alone; otherwise the worker gets a slot whose thread
    has ended and whose channel is empty, is started there with the new id,
    and every other worker is untouched.  No thread is started over a running
    one. *)
Theorem worker_insert_spec this c :
  workers_wf this ->
  if entry_count_ this =? 64
  then insert_ this c = Ret (this, Err WorkerTableError_Full)
  else exists this' i c', insert_ this c = Ret (this', Ok i) /\ workers_wf this' /\
    context_ <$> table_ this' !! i = Some c' /\ txn_id_ c' = txn_id_ c /\
    running_ c' = true /\ joinable_ c' = true /\ contents (job_ch_ c') = [] /\
    workers this' ≡ₚ c' :: workers this /\ size_ this' = size_ this + 1.
Proof. exact (@worker_inserted this c). Qed.

(** A job is routed to a worker exactly if its transaction id is
    that of a running one. *)
Theorem worker_search_spec this k :
  workers_wf this ->
  (exists i e, search_ this k = Ok i /\ table_ this !! i = Some e /\
     live_entry e = true /\ context_ e ∈ workers this /\ txn_id_ (context_ e) = k) \/
  (search_ this k = Err WorkerTableError_NotFound /\ k ∉ txn_id_ <$> workers this).
Proof. exact (@worker_found this k). Qed.

(** Removing a worker: for the id of a running worker [remove_]
    stops that worker, waits for its end and answers each job it left in its
    channel, in order, with [DEAD_TXN]; it is then gone from the table, its
    channel is empty, and every other worker is untouched. *)
Theorem worker_remove_spec finish T this k :
  workers_wf this -> (forall c, c ∈ workers this -> ends_well finish T (job_ch_ c)) ->
  k ∈ txn_id_ <$> workers this ->
  exists c T' this', remove_ finish T this k =
      Ret (T', this', dead_reply (finish T (job_ch_ c)).1 <$> contents (finish T (job_ch_ c)).2,
           WorkerTableError_None) /\
    txn_id_ c = k /\ workers this ≡ₚ c :: workers this' /\ workers_wf this' /\
    size_ this' = size_ this - 1.
Proof.
  intros Hwf Hf Hk. destruct (worker_removed finish T this k Hwf Hf Hk)
    as (c & T' & this' & H1 & H2 & H3 & H4 & H5 & _). eauto 8.
Qed.

(** Shutting down: [clear_] comes to an end once every worker does;
    no worker is left, every thread has been joined exactly once, every
    channel is empty, and the table can be used again.  The destructor does
    this too, and destroying the slots afterwards adds nothing: no thread is
    joined a second time or abandoned. *)
Theorem worker_clear_spec finish T this :
  workers_wf this -> (forall T ch, queue_wf ch -> ends_well finish T ch) ->
  exists T' this' sent, clear_ finish T this = Ret (T', this', sent) /\
    workers_wf this' /\ workers this' = [] /\ size_ this' = 0 /\
    table_destroy finish T this = Ret (T', sent).
Proof.
  intros Hwf Hf. destruct (cleared finish T this Hwf Hf) as (T' & this' & sent & E & Hwf' & Hw & Hs).
  exists T', this', sent. split_and!; [done..|]. unfold table_destroy.
  rewrite E, (outcome_bind_ret (T', this', sent)). rewrite destroy_entries_idle.
  - rewrite (outcome_bind_ret (T', [])). by rewrite app_nil_r.
  - intros e He%list_elem_of_In%in_rev%list_elem_of_In. by apply (no_workers_idle this').
Qed.

(** ** Witnesses

    One running worker with id 7, which left one job unanswered. *)

Definition pool7 : buf_table := JobBuf.one_slot [2; 1; 7; 0; 0; 0; 0; 1].
Definition job7 : Channels.job := Channels.job_make (Some 0%nat) 8 Channels.conn_default.
Definition channel7 : Channels.job_channel :=
  (Channels.send pool7 Channels.job_channel_default job7).1.2.
Definition worker7 : WorkerContext := mkContext channel7 7 true true.
Definition entry7 : Entry := mkEntry worker7 true false.
Definition workers7 : WorkerTable := mkTable (<[7%nat := entry7]> (table_ table_default)) 1.

Lemma channel7_wf : queue_wf channel7 /\ contents channel7 = [job7].
Proof.
  destruct (send_spec pool7 Channels.job_channel_default job7 Channels.job_channel_default_wf)
    as (T & q & E & Hwf & Hc).
  unfold channel7. change (Channels.send _ _ _) with
    (queue_send pool7 Channels.job_channel_default job7). by rewrite E.
Qed.

Lemma workers7_wf : workers_wf workers7.
Proof.
  destruct workers_default_wf as [Hwf _].
  apply (workers_wf_write table_default 7 (mkEntry context_default false false) entry7);
    [done|reflexivity| | |reflexivity].
  - split; [apply channel7_wf|reflexivity|discriminate].
  - apply (chain_claim is_used_ is_deleted_ entry_key home Rows worker_home_lt
      (table_ table_default) entry7 0); [reflexivity|vm_compute; lia|reflexivity|lia|apply Hwf].
Qed.

Lemma worker_insert_spec_witness :
  exists this' i c, insert_ workers7 (context_make 8) = Ret (this', Ok i) /\ txn_id_ c = 8 /\
    workers this' ≡ₚ [c; worker7].
Proof.
  pose proof (worker_insert_spec workers7 (context_make 8) workers7_wf) as H.
  assert (E : entry_count_ workers7 =? 64 = false) by reflexivity. rewrite E in H.
  destruct H as (this' & i & c & H1 & _ & _ & H2 & _ & _ & _ & H3 & _).
  exists this', i, c. split; [exact H1|]. split; [exact H2|].
  assert (Ew : workers workers7 = [worker7]) by (vm_compute; reflexivity).
  rewrite Ew in H3. exact H3.
Defined.

Lemma worker_search_spec_witness :
  search_ workers7 7 = Ok 7%nat /\ 7 ∈ txn_id_ <$> workers workers7.
Proof.
  split; [vm_compute; reflexivity|].
  destruct (worker_search_spec workers7 7 workers7_wf) as [(i & e & _ & _ & _ & Hin & Hk)|[E _]].
  - apply list_elem_of_fmap. exists (context_ e). split; [symmetry; exact Hk|exact Hin].
  - discriminate E.
Defined.

Lemma worker_remove_spec_witness :
  exists T' this', remove_ pair pool7 workers7 7 =
      Ret (T', this', [(Channels.conn_default, [2; 1; 7; 0; 0; 0; 12])], WorkerTableError_None) /\
    size_ this' = 0.
Proof.
  assert (Ew : workers workers7 = [worker7]) by (vm_compute; reflexivity).
  destruct (worker_remove_spec pair pool7 workers7 7 workers7_wf)
    as (c & T' & this' & H1 & _ & H3 & _ & H5).
  - intros c Hc. rewrite Ew in Hc. apply list_elem_of_singleton in Hc as ->.
    split; [apply channel7_wf|]. simpl snd. rewrite (proj2 channel7_wf).
    constructor; [|constructor]. apply JobBuf.one_slot_valid. apply Nat.leb_le. reflexivity.
  - rewrite Ew. left.
  - exists T', this'. split; [|exact H5]. rewrite Ew in H3.
    assert (c = worker7) as ->.
    { assert (c ∈ [worker7]) as Hc by (rewrite H3; left).
      by apply list_elem_of_singleton in Hc. }
    rewrite H1. simpl fst. simpl snd. rewrite (proj2 channel7_wf). do 3 f_equal.
Defined.

Lemma worker_clear_spec_witness :
  exists T' this' sent, clear_ (fun T ch => (T, Channels.job_channel_default)) pool7 workers7 =
      Ret (T', this', sent) /\ workers this' = [].
Proof.
  destruct (worker_clear_spec (fun T ch => (T, Channels.job_channel_default)) pool7 workers7
    workers7_wf) as (T' & this' & sent & H1 & _ & H2 & _).
  - intros T ch _. split; [apply Channels.job_channel_default_wf|constructor].
  - exists T', this', sent. split; [exact H1|exact H2].
Defined.
