(* ===== verification/ThreadManager.v ===== *)
(** * The socket thread

    [ThreadManager] ([types/thread_manager.h], [thread_manager.cpp]): one
    turn of its main loop per message.  What the operating system delivers is
    an argument ([received]); what it is handed is kept in [sent_].  [finish]
    is what a worker that is being joined still does, as in [WorkerTable].

    The job constructor takes an rvalue reference and is called with a named
    object; the model gives the job a copy of the reference. *)
From S2P Require Import Prelude Params Probe BufTable Ring.
From S2P Require Bytes JobBuf Channels WorkerTable.

(** ** State *)

Record ThreadManager := mkManager {
  buffers_ : buf_table;
  ret_ch_ : Channels.ret_channel Z;
  workers_ : WorkerTable.WorkerTable;
  running_ : bool;
  next_txn_id : Z;
  sent_ : list Channels.datagram
}.

(** The constructor: nothing runs yet. *)
Definition manager_make (T : buf_table) : ThreadManager :=
  mkManager T (Channels.ret_channel_make 0) WorkerTable.table_default false 0 [].

(** The state in which [start_] enters the loop. *)
Definition manager_start (T : buf_table) : ThreadManager :=
  mkManager T (Channels.ret_channel_make 0) WorkerTable.table_default true 0 [].

Definition set_buffers (this : ThreadManager) (T : buf_table) : ThreadManager :=
  mkManager T (ret_ch_ this) (workers_ this) (running_ this) (next_txn_id this) (sent_ this).
Definition set_ret_ch (this : ThreadManager) (c : Channels.ret_channel Z) : ThreadManager :=
  mkManager (buffers_ this) c (workers_ this) (running_ this) (next_txn_id this) (sent_ this).
Definition set_workers (this : ThreadManager) (t : WorkerTable.WorkerTable) : ThreadManager :=
  mkManager (buffers_ this) (ret_ch_ this) t (running_ this) (next_txn_id this) (sent_ this).
Definition set_running (this : ThreadManager) (b : bool) : ThreadManager :=
  mkManager (buffers_ this) (ret_ch_ this) (workers_ this) b (next_txn_id this) (sent_ this).
Definition set_next (this : ThreadManager) (n : Z) : ThreadManager :=
  mkManager (buffers_ this) (ret_ch_ this) (workers_ this) (running_ this) n (sent_ this).
Definition add_sent (this : ThreadManager) (d : list Channels.datagram) : ThreadManager :=
  mkManager (buffers_ this) (ret_ch_ this) (workers_ this) (running_ this) (next_txn_id this)
    (sent_ this ++ d).

Definition reply (_ack : OpAck) (_parser : JobBuf.job_buf) (_conn : Channels.client_conn)
    (this : ThreadManager) : ThreadManager :=
  let T := JobBuf.set_ack (buffers_ this) _parser _ack in
  add_sent (set_buffers this T)
    [Channels.conn_reply _conn (buffer T (JobBuf.ref _parser)) (JobBuf.get_buffer_size _parser)].

(** [stop_()]; the socket is shut down as well. *)
Definition stop_ (this : ThreadManager) : ThreadManager := set_running this false.

(** The condition of the main loop reads the flag and leaves it set. *)
Definition loop_condition (this : ThreadManager) : ThreadManager * bool :=
  (set_running this true, running_ this).

(** [is_running_()] puts the flag back. *)
Definition is_running_ (this : ThreadManager) : bool := running_ this.

(** ** Opening the socket

    What the operating system answers to each call of [start_] before the
    loop.  [None] is [std::exit(EXIT_FAILURE)]. *)

Record os_answers := mkAnswers {
  socket_answer : Z;
  unlink_errno : Z;
  bind_answer : Z;
  setsockopt_answer : Z
}.

Definition ENOENT : Z := 2.

Definition open_socket (os : os_answers) : option Z :=
  if socket_answer os =? -1 then None
  else if negb (unlink_errno os =? 0) && negb (unlink_errno os =? ENOENT) then None
  else if bind_answer os =? -1 then None
  else if setsockopt_answer os <? 0 then None
  else Some (socket_answer os).

(** Setting the members and the flag. *)
Definition enter_loop (this : ThreadManager) : ThreadManager :=
  mkManager (buffers_ this) (ret_ch_ this) (workers_ this) true 0 (sent_ this).

(** ** Forwarding a message *)

(** [worker.send({recv_buffer, recv_size_u, conn})] to the worker in slot
    [idx]; the temporary job is destroyed afterwards. *)
Definition forward (idx : nat) (recv_buffer : buf_ref) (recv_size_u : Z)
    (conn : Channels.client_conn) (this : ThreadManager) : ThreadManager * QueueError :=
  match WorkerTable.table_ (workers_ this) !! idx with
  | Some e =>
      let '(T1, r) := ref_copy (buffers_ this) recv_buffer in
      let job := Channels.job_make r recv_size_u conn in
      let '(T2, context, send_r) := WorkerTable.send_ T1 (WorkerTable.context_ e) job in
      let T3 := (Channels.job_destroy T2 job).1 in
      (set_workers (set_buffers this T3)
         (WorkerTable.mkTable
            (<[idx := WorkerTable.mkEntry context (WorkerTable.is_used_ e)
                        (WorkerTable.is_deleted_ e)]> (WorkerTable.table_ (workers_ this)))
            (WorkerTable.entry_count_ (workers_ this))), send_r)
  | None => (this, QueueError_None)
  end.

(** [worker.stop()] *)
Definition stop_worker (idx : nat) (this : ThreadManager) : ThreadManager :=
  set_workers this (WorkerTable.mkTable
    (alter (fun e => WorkerTable.mkEntry (WorkerTable.stop_ (WorkerTable.context_ e))
                       (WorkerTable.is_used_ e) (WorkerTable.is_deleted_ e))
       idx (WorkerTable.table_ (workers_ this)))
    (WorkerTable.entry_count_ (workers_ this))).

Inductive received :=
  | Shutdown
  | Failed
  | Message (bytes : list Z) (conn : Channels.client_conn).

Section Serve.
Context (finish : buf_table -> Channels.job_channel -> buf_table * Channels.job_channel).

(** [while (!ret_ch_.empty()) { ... }]; every round pops one entry. *)
Fixpoint reap (fuel : nat) (this : ThreadManager) : outcome ThreadManager :=
  match fuel with
  | O => Hang
  | S f =>
      if Channels.ret_empty (ret_ch_ this) then Ret this
      else
        dead_txn ← unwrap (Channels.ret_get (ret_ch_ this));
        '(T, workers, sent, _) ←
          WorkerTable.remove_ finish (buffers_ this) (workers_ this) dead_txn;
        let this := add_sent (set_workers (set_buffers this T) workers) sent in
        reap f (set_ret_ch this (Channels.ret_pop (ret_ch_ this)))
  end.

Definition start_txn (parser : JobBuf.job_buf) (recv_buffer : buf_ref) (recv_size_u : Z)
    (conn : Channels.client_conn) (this : ThreadManager) : outcome ThreadManager :=
  this ← reap (S (Z.to_nat (Channels.ret_count_ (ret_ch_ this)))) this;
  let new_worker_ct := WorkerTable.context_make (next_txn_id this) in
  '(workers, insert_r) ← WorkerTable.insert_ (workers_ this) new_worker_ct;
  let this := set_workers this workers in
  match value_ insert_r with
  | None => Ret (reply BUSY parser conn this)
  | Some idx =>
      let '(this, _) := forward idx recv_buffer recv_size_u conn this in
      Ret (set_next this (u32 (next_txn_id this + 1)))
  end.

Definition route (op : OpType) (parser : JobBuf.job_buf) (recv_buffer : buf_ref)
    (recv_size_u : Z) (conn : Channels.client_conn) (this : ThreadManager)
    : outcome ThreadManager :=
  let txn_id_r := JobBuf.get_txn (buffers_ this) parser in
  if negb (is_ok txn_id_r) then Ret (reply BAD_TXN parser conn this)
  else
    txn_id ← unwrap txn_id_r;
    match value_ (WorkerTable.search_ (workers_ this) txn_id) with
    | None => Ret (reply BAD_TXN parser conn this)
    | Some idx =>
        let '(this, send_r) := forward idx recv_buffer recv_size_u conn this in
        if negb (bool_decide (send_r = QueueError_None)) then Ret (reply BUSY parser conn this)
        else Ret (if bool_decide (op = ABORT_TXN) then stop_worker idx this else this)
    end.

Definition handle (parser : JobBuf.job_buf) (recv_buffer : buf_ref) (recv_size_u : Z)
    (conn : Channels.client_conn) (this : ThreadManager) : outcome ThreadManager :=
  let op_r := JobBuf.get_op (buffers_ this) parser in
  let op_id_r := JobBuf.get_op_id (buffers_ this) parser in
  if negb (is_ok op_r) || negb (is_ok op_id_r) then Ret (reply BAD_OP parser conn this)
  else
    op ← unwrap op_r;
    match op with
    | START_TXN => start_txn parser recv_buffer recv_size_u conn this
    | MAX_OP_VALUE => Ret this
    | _ => route op parser recv_buffer recv_size_u conn this
    end.

(** The body of the main loop: [false] if it breaks out.  [recv_buffer_r],
    [recv_buffer] and [parser] each hold a reference until its end. *)
Definition body (m : received) (this : ThreadManager) : outcome (ThreadManager * bool) :=
  '(T1, recv_buffer_r) ← request (buffers_ this);
  match value_ recv_buffer_r with
  | None => Ret (set_buffers this T1, true)
  | Some r =>
      let '(T2, recv_buffer) := ref_copy T1 r in
      let leave this := set_buffers this
        (ref_destroy (ref_destroy (buffers_ this) recv_buffer).1 r).1 in
      match m with
      | Shutdown => Ret (leave (set_buffers this T2), false)
      | Failed => Ret (leave (set_buffers this T2), true)
      | Message bytes conn =>
          let T3 := store T2 recv_buffer (Bytes.write (buffer T2 recv_buffer) 0 bytes) in
          let recv_size_u := Z.of_nat (length bytes) in
          let '(T4, pr) := ref_copy T3 recv_buffer in
          let parser := JobBuf.mkJobBuf pr recv_size_u in
          this ← handle parser recv_buffer recv_size_u conn (set_buffers this T4);
          Ret (leave (set_buffers this (ref_destroy (buffers_ this) pr).1), true)
      end
  end.

(** After the loop: the socket is closed, all workers are stopped and
    joined. *)
Definition shut_down (this : ThreadManager) : outcome ThreadManager :=
  '(T, workers, sent) ← WorkerTable.clear_ finish (buffers_ this) (workers_ this);
  Ret (add_sent (set_workers (set_buffers this T) workers) sent).

(** The main loop on a finite sequence of deliveries; the flag of each says
    whether [stop_] was called during that turn.  [false]: the sequence
    ended before the loop did. *)
Fixpoint start_ (ms : list (received * bool)) (this : ThreadManager)
    : outcome (ThreadManager * bool) :=
  let '(this, go) := loop_condition this in
  if go then
    match ms with
    | [] => Ret (this, false)
    | (m, stopped) :: ms' =>
        '(this, on) ← body m this;
        let this := if stopped : bool then stop_ this else this in
        if on : bool then start_ ms' this
        else this ← shut_down this; Ret (this, true)
    end
  else this ← shut_down this; Ret (this, true).

(** [main]: the manager runs in a thread of its own until [stop_] is called,
    which shuts the socket down as well; [ms] is delivered before, [last] in
    the turn during which [stop_] comes.  [None]: the program has exited
    because the socket could not be opened. *)
Definition main (os : os_answers) (T : buf_table) (ms : list received) (last : received)
    : outcome (option (ThreadManager * bool)) :=
  match open_socket os with
  | None => Ret None
  | Some server_fd =>
      r ← start_ (((fun m => (m, false)) <$> ms) ++ [(last, true)]) (enter_loop (manager_make T));
      Ret (Some r)
  end.
End Serve.

(** ** Forwarding *)

Abbreviation ids this := (WorkerTable.txn_id_ <$> WorkerTable.workers (workers_ this)).

Definition with_channel (e : WorkerTable.Entry) (ch : Channels.job_channel) : WorkerTable.Entry :=
  WorkerTable.mkEntry
    (WorkerTable.mkContext ch (WorkerTable.txn_id_ (WorkerTable.context_ e))
       (WorkerTable.running_ (WorkerTable.context_ e))
       (WorkerTable.joinable_ (WorkerTable.context_ e)))
    (WorkerTable.is_used_ e) (WorkerTable.is_deleted_ e).

Definition with_entry (this : ThreadManager) (i : nat) (e : WorkerTable.Entry) : ThreadManager :=
  set_workers this (WorkerTable.mkTable (<[i := e]> (WorkerTable.table_ (workers_ this)))
    (WorkerTable.entry_count_ (workers_ this))).

Lemma job_destroy_bytes T j : same_bytes T (Channels.job_destroy T j).1.
Proof.
  unfold Channels.job_destroy. destruct (ref_destroy T (Channels.job_ref j)) as [T' r] eqn:E.
  simpl. rewrite <- (f_equal fst E : _ = T'). apply ref_destroy_bytes.
Qed.

Lemma forward_spec i e r n conn this :
  WorkerTable.table_ (workers_ this) !! i = Some e ->
  queue_wf (WorkerTable.job_ch_ (WorkerTable.context_ e)) ->
  let ch := WorkerTable.job_ch_ (WorkerTable.context_ e) in
  if (length (contents ch) <? 16)%nat
  then exists T ch', forward i r n conn this =
      (with_entry (set_buffers this T) i (with_channel e ch'), QueueError_None) /\
    queue_wf ch' /\ contents ch' = contents ch ++ [Channels.job_make r n conn]
  else exists T, forward i r n conn this = (set_buffers this T, QueueError_Full) /\
    same_bytes (buffers_ this) T.
Proof.
  intros Hi Hwf ch. unfold forward. rewrite Hi, (WorkerTable.ref_copy_same (buffers_ this) r).
  set (T1 := (ref_copy (buffers_ this) r).1). set (j := Channels.job_make r n conn).
  unfold WorkerTable.send_. fold ch.
  pose proof (send_spec T1 ch j Hwf) as Hs. simpl queue_send in Hs.
  change (capacity Channels.job_channel) with 16%nat in Hs.
  destruct (length (contents ch) <? 16)%nat.
  - destruct Hs as (T2 & ch' & -> & Hwf' & Hc).
    exists (Channels.job_destroy T2 j).1, ch'. by split_and!.
  - rewrite Hs. exists (Channels.job_destroy T1 j).1. split.
    + f_equal. destruct this as [T rc [tb cn] ru nx se].
      unfold set_workers, set_buffers. simpl in *. f_equal. f_equal.
      apply list_insert_id. rewrite Hi. by destruct e as [[] ? ?].
    + etrans; [apply ref_copy_bytes|apply job_destroy_bytes].
Qed.

Lemma live_with_channel e ch : WorkerTable.live_entry (with_channel e ch) = WorkerTable.live_entry e.
Proof. done. Qed.

(** A new channel for a running worker, whose flag may be cleared. *)
Lemma with_channel_wf t i e e' :
  WorkerTable.workers_wf t -> WorkerTable.table_ t !! i = Some e ->
  WorkerTable.live_entry e = true -> WorkerTable.live_entry e' = true ->
  queue_wf (WorkerTable.job_ch_ (WorkerTable.context_ e')) ->
  WorkerTable.joinable_ (WorkerTable.context_ e') = WorkerTable.joinable_ (WorkerTable.context_ e) ->
  WorkerTable.txn_id_ (WorkerTable.context_ e') = WorkerTable.txn_id_ (WorkerTable.context_ e) ->
  WorkerTable.workers_wf (WorkerTable.mkTable (<[i := e']> (WorkerTable.table_ t))
    (WorkerTable.entry_count_ t)).
Proof.
  intros Hwf Hi Hl Hl' Hq Hj Hk. destruct (WorkerTable.ww_threads _ Hwf i e Hi) as [_ Hjn _].
  eapply WorkerTable.workers_wf_write; [done|exact Hi| | |rewrite Hl, Hl'; simpl; lia].
  - split; [done|by rewrite Hj, Hjn, Hl, Hl'|by rewrite Hl'].
  - apply (chain_update WorkerTable.is_used_ WorkerTable.is_deleted_ WorkerTable.entry_key
      WorkerTable.home WorkerTable.Rows _ _ e); [done| |done|apply Hwf].
    intros _. by apply live_used in Hl'.
Qed.

(** ** Reaping *)

Definition rets_wf (c : Channels.ret_channel Z) : Prop :=
  ring_wf Channels.MaxRets (Channels.rets_ c) (Channels.ret_head_ c) (Channels.ret_tail_ c)
    (Channels.ret_count_ c).
Definition dead_ids (c : Channels.ret_channel Z) : list Z :=
  ring_items Channels.MaxRets (Channels.rets_ c) (Channels.ret_head_ c) (Channels.ret_count_ c).

Lemma ret_pop_spec c x l :
  rets_wf c -> dead_ids c = x :: l ->
  Channels.ret_empty c = false /\ Channels.ret_get c = Ok x /\
  rets_wf (Channels.ret_pop c) /\ dead_ids (Channels.ret_pop c) = l.
Proof.
  intros Hwf Hd. pose proof (ring_size _ _ _ _ _ Hwf) as Hb.
  change (Z.of_nat Channels.MaxRets) with 16 in Hb. unfold dead_ids in *.
  assert (Hpos : 0 < Channels.ret_count_ c).
  { destruct (decide (Channels.ret_count_ c = 0)) as [E|]; [|lia].
    by rewrite (proj2 (ring_items_nil _ _ _ _ _ Hwf)) in Hd. }
  destruct (ring_front _ _ _ _ _ Hwf Hpos) as (y & Hy & E). rewrite E in Hd. injection Hd as -> Hl.
  assert (He : Channels.ret_empty c = false) by (unfold Channels.ret_empty; apply Z.eqb_neq; lia).
  assert (Hu : u64 (Channels.ret_count_ c - 1) = Channels.ret_count_ c - 1) by word.
  split_and!.
  - done.
  - unfold Channels.ret_get. by rewrite He, Hy.
  - unfold rets_wf. simpl. rewrite Hu. by apply (ring_pop _ _ _ _ _ x).
  - simpl. by rewrite Hu.
Qed.

(** What is sent for the jobs that removed workers leave in their channels. *)
Definition dead_replies (l : list Channels.datagram) : Prop :=
  Forall (fun d => exists T j, d = WorkerTable.dead_reply T j) l.

Section Rounds.
Context (finish : buf_table -> Channels.job_channel -> buf_table * Channels.job_channel).
Context (Hf : forall T ch, queue_wf ch -> WorkerTable.ends_well finish T ch).

(** One round: the announced worker is removed. *)
Lemma reap_round f this x :
  WorkerTable.workers_wf (workers_ this) -> x ∈ ids this ->
  Channels.ret_empty (ret_ch_ this) = false -> Channels.ret_get (ret_ch_ this) = Ok x ->
  exists c this1, reap finish (S f) this = reap finish f this1 /\
    WorkerTable.txn_id_ c = x /\
    WorkerTable.workers (workers_ this) ≡ₚ c :: WorkerTable.workers (workers_ this1) /\
    WorkerTable.workers_wf (workers_ this1) /\
    ret_ch_ this1 = Channels.ret_pop (ret_ch_ this) /\ next_txn_id this1 = next_txn_id this /\
    (exists l, sent_ this1 = sent_ this ++ l /\ dead_replies l) /\
    (WorkerTable.idle_default (workers_ this) -> WorkerTable.idle_default (workers_ this1)).
Proof.
  intros Hwf Hx He Hg. cbn [reap]. rewrite He, Hg. cbn [unwrap Ok value_].
  rewrite (outcome_bind_ret x).
  destruct (WorkerTable.worker_removed finish (buffers_ this) (workers_ this) x Hwf)
    as (c & T & t & -> & Hk & Hw & Hwf' & _ & Hid); [|done|].
  { intros c Hc. apply Hf. apply elem_of_omap in Hc as (i & e & Hi & Hc).
    unfold WorkerTable.worker_of in Hc. destruct (WorkerTable.live_entry e); [|done].
    injection Hc as <-. by apply (WorkerTable.ww_threads _ Hwf i). }
  rewrite outcome_bind_ret. exists c. eexists. split; [reflexivity|]. split_and!; try done.
  eexists. split; [done|]. unfold dead_replies. rewrite Forall_fmap.
  apply Forall_forall. intros j _. by eexists _, _.
Qed.

(** Every worker whose id is in the return channel is removed. *)
Lemma reap_spec fuel this :
  WorkerTable.workers_wf (workers_ this) -> rets_wf (ret_ch_ this) ->
  dead_ids (ret_ch_ this) ⊆+ ids this -> (length (dead_ids (ret_ch_ this)) < fuel)%nat ->
  exists this' gone, reap finish fuel this = Ret this' /\
    WorkerTable.txn_id_ <$> gone = dead_ids (ret_ch_ this) /\
    WorkerTable.workers (workers_ this) ≡ₚ gone ++ WorkerTable.workers (workers_ this') /\
    WorkerTable.workers_wf (workers_ this') /\ dead_ids (ret_ch_ this') = [] /\
    next_txn_id this' = next_txn_id this /\
    exists l, sent_ this' = sent_ this ++ l /\ dead_replies l.
Proof.
  revert this. induction fuel as [|f IH]; intros this Hwf Hr Hs Hlt; [lia|].
  destruct (dead_ids (ret_ch_ this)) as [|x l] eqn:Hd.
  - exists this, []. assert (Channels.ret_empty (ret_ch_ this) = true) as He.
    { unfold Channels.ret_empty. apply Z.eqb_eq. by apply (ring_items_nil _ _ _ _ _ Hr). }
    cbn [reap]. rewrite He. split_and!; try done. exists [].
    split; [by rewrite app_nil_r|constructor].
  - destruct (ret_pop_spec _ _ _ Hr Hd) as (He & Hg & Hr' & Hd').
    destruct (reap_round f this x Hwf) as (c & this1 & -> & Hk & Hw & Hwf1 & Hc1 & Hn1 & (l1 & Hl1 & Hd1) & _);
      [|done|done|].
    { eapply elem_of_submseteq; [|exact Hs]. left. }
    destruct (IH this1 Hwf1) as (this' & gone & -> & Hg' & Hp & H1 & H2 & H3 & l2 & Hl2 & Hd2).
    + by rewrite Hc1.
    + rewrite Hc1, Hd'. apply (submseteq_app_inv_l _ _ [x]). rewrite Hw in Hs. csimpl in Hs.
      by rewrite Hk in Hs.
    + rewrite Hc1, Hd'. simpl in Hlt. lia.
    + exists this', (c :: gone). split_and!; [done| | |done|done|congruence|].
      * csimpl. by rewrite Hg', Hk, Hc1, Hd'.
      * rewrite Hw. simpl. f_equiv. exact Hp.
      * exists (l1 ++ l2). rewrite Hl2, Hl1, <- app_assoc. split; [done|]. by apply Forall_app.
Qed.

(** An announced id that no worker has: the loop of [remove_] never ends. *)
Lemma reap_unknown l x fuel this :
  WorkerTable.workers_wf (workers_ this) -> WorkerTable.idle_default (workers_ this) ->
  rets_wf (ret_ch_ this) -> dead_ids (ret_ch_ this) = l ++ [x] ->
  l ⊆+ ids this -> x ∉ ids this -> x <> 0 -> reap finish fuel this = Hang.
Proof.
  revert l this. induction fuel as [|f IH]; intros l this Hwf Hid Hr Hd Hs Hx Hnz; [done|].
  destruct l as [|y l].
  - destruct (ret_pop_spec _ _ _ Hr Hd) as (He & Hg & _).
    cbn [reap]. rewrite He, Hg. cbn [unwrap Ok value_]. rewrite (outcome_bind_ret x).
    by rewrite (WorkerTable.worker_remove_absent finish _ _ x).
  - destruct (ret_pop_spec _ _ _ Hr Hd) as (He & Hg & Hr' & Hd').
    destruct (reap_round f this y Hwf) as (c & this1 & -> & Hk & Hw & Hwf1 & Hc1 & _ & _ & Hid1);
      [|done|done|].
    { eapply elem_of_submseteq; [|exact Hs]. left. }
    rewrite Hw in Hs, Hx. csimpl in *. rewrite Hk in Hs.
    apply (IH l); [done|auto|by rewrite Hc1|by rewrite Hc1| | |done].
    + by apply (submseteq_app_inv_l _ _ [y]).
    + intros Hin. apply Hx. by right.
Qed.
End Rounds.

(** ** Announcements *)

(** What workers that end one after the other leave in the return channel. *)
Definition announced (c : Channels.ret_channel Z) (x : Z) : Channels.ret_channel Z :=
  (Channels.ret_send Channels.id_assign buf_table_default c x).1.2.
Definition announce (c : Channels.ret_channel Z) (xs : list Z) : Channels.ret_channel Z :=
  foldl announced c xs.

Lemma announced_eq c x :
  rets_wf c -> announced c x = Channels.mkRetChannel
    (<[Channels.ret_tail_ c := x]> (Channels.rets_ c)) (Channels.ret_head_ c)
    ((Channels.ret_tail_ c + 1) mod Channels.MaxRets) (u64 (Channels.ret_count_ c + 1)).
Proof.
  intros Hwf. unfold announced, Channels.ret_send.
  destruct (lookup_lt_is_Some_2 (Channels.rets_ c) (Channels.ret_tail_ c)) as [r ->]; [|done].
  rewrite (ring_length _ _ _ _ _ Hwf), (ring_tail _ _ _ _ _ Hwf).
  apply Nat.mod_upper_bound. vm_compute. lia.
Qed.

Lemma dead_ids_count c :
  rets_wf c -> Channels.ret_count_ c = Z.of_nat (length (dead_ids c)) /\
    Channels.ret_count_ c <= 16.
Proof.
  intros Hwf. pose proof (ring_size _ _ _ _ _ Hwf) as Hb. unfold dead_ids.
  rewrite (ring_items_length _ _ _ _ _ Hwf).
  change (Z.of_nat Channels.MaxRets) with 16 in Hb. lia.
Qed.

Lemma announced_room c x :
  rets_wf c -> (length (dead_ids c) < 16)%nat ->
  rets_wf (announced c x) /\ dead_ids (announced c x) = dead_ids c ++ [x].
Proof.
  intros Hwf Hl. destruct (dead_ids_count c Hwf) as [Hn _].
  destruct (ring_push Channels.MaxRets _ _ _ _ x Hwf) as [H1 H2].
  { change (Z.of_nat Channels.MaxRets) with 16. lia. }
  rewrite announced_eq by done. unfold rets_wf, dead_ids. simpl.
  assert (u64 (Channels.ret_count_ c + 1) = Channels.ret_count_ c + 1) as -> by word. done.
Qed.

Lemma announce_room xs c :
  rets_wf c -> (length (dead_ids c) + length xs <= 16)%nat ->
  rets_wf (announce c xs) /\ dead_ids (announce c xs) = dead_ids c ++ xs.
Proof.
  revert c; induction xs as [|x xs IH]; intros c Hwf Hl; [by rewrite app_nil_r|].
  simpl in Hl. destruct (announced_room c x Hwf) as [H1 H2]; [lia|].
  destruct (IH (announced c x) H1) as [H3 H4]; [rewrite H2, length_app; simpl; lia|].
  split; [done|]. simpl. by rewrite H4, H2, <- app_assoc.
Qed.

(** The entry behind a full ring goes over the oldest one and is found
    twice: now, and again after the others. *)
Lemma announced_full c x :
  rets_wf c -> length (dead_ids c) = 16%nat ->
  Channels.ret_empty (announced c x) = false /\ Channels.ret_get (announced c x) = Ok x /\
  Channels.ret_pop (announced c x) = announced (Channels.ret_pop c) x.
Proof.
  intros Hwf Hl. destruct (dead_ids_count c Hwf) as [Hn _]. rewrite Hl in Hn.
  change (Z.of_nat 16) with 16 in Hn.
  assert (Ht : Channels.ret_tail_ c = Channels.ret_head_ c).
  { rewrite (ring_tail _ _ _ _ _ Hwf), Hn.
    replace (Channels.ret_head_ c + Z.to_nat 16)%nat
      with (Channels.ret_head_ c + 1 * Channels.MaxRets)%nat by done.
    rewrite Nat.Div0.mod_add. apply Nat.mod_small, Hwf. }
  assert (Hwf' : rets_wf (Channels.ret_pop c)).
  { destruct (dead_ids c) as [|y l] eqn:E; [done|]. by apply (ret_pop_spec c y l). }
  rewrite !announced_eq by done. unfold Channels.ret_empty, Channels.ret_get, Channels.ret_pop.
  cbn [Channels.ret_count_ Channels.rets_ Channels.ret_head_ Channels.ret_tail_].
  rewrite Hn, Ht. split_and!; [done| |done]. simpl.
  rewrite list_lookup_insert_eq; [done|]. rewrite (ring_length _ _ _ _ _ Hwf). apply Hwf.
Qed.

(** ** Properties *)

(** C27.  Routing.  A request other than [START_TXN] goes to the worker
    that runs under its transaction id, at the end of that worker's channel;
    [ABORT_TXN] also clears that worker's flag; nothing is sent, and no other
    worker is touched.  Without such a worker the client is told [BAD_TXN],
    with 16 jobs already waiting [BUSY], and all workers stay as they are. *)
Theorem route_spec op parser r n conn this id :
  WorkerTable.workers_wf (workers_ this) ->
  JobBuf.get_txn (buffers_ this) parser = Ok id ->
  (id ∉ ids this /\ route op parser r n conn this = Ret (reply BAD_TXN parser conn this)) \/
  exists i e, WorkerTable.table_ (workers_ this) !! i = Some e /\
    WorkerTable.context_ e ∈ WorkerTable.workers (workers_ this) /\
    WorkerTable.txn_id_ (WorkerTable.context_ e) = id /\
    let jobs := contents (WorkerTable.job_ch_ (WorkerTable.context_ e)) in
    if (length jobs <? 16)%nat
    then exists this' e', route op parser r n conn this = Ret this' /\
      WorkerTable.table_ (workers_ this') = <[i := e']> (WorkerTable.table_ (workers_ this)) /\
      contents (WorkerTable.job_ch_ (WorkerTable.context_ e')) =
        jobs ++ [Channels.job_make r n conn] /\
      WorkerTable.txn_id_ (WorkerTable.context_ e') = id /\
      WorkerTable.running_ (WorkerTable.context_ e') =
        (negb (bool_decide (op = ABORT_TXN)) && WorkerTable.running_ (WorkerTable.context_ e)) /\
      WorkerTable.workers_wf (workers_ this') /\ sent_ this' = sent_ this
    else exists T, same_bytes (buffers_ this) T /\
      route op parser r n conn this = Ret (reply BUSY parser conn (set_buffers this T)).
Proof.
  intros Hwf Ht. unfold route. rewrite Ht, is_ok_Ok. cbn [negb Ok unwrap value_].
  rewrite (outcome_bind_ret id).
  destruct (WorkerTable.worker_found (workers_ this) id Hwf)
    as [(i & e & -> & Hi & Hl & Hin & Hk)|[-> Hno]]; [right|by left].
  exists i, e. split_and!; [done..|]. cbn [Ok value_].
  destruct (WorkerTable.ww_threads _ Hwf i e Hi) as [Hq Hjn Hfree].
  pose proof (forward_spec i e r n conn this Hi Hq) as Hf. cbv zeta in Hf.
  destruct (_ <? 16)%nat.
  - destruct Hf as (T & ch' & -> & Hq' & Hc). rewrite bool_decide_true by done. cbn [negb].
    assert (Hlt : (i < length (WorkerTable.table_ (workers_ this)))%nat) by by eapply lookup_lt_Some.
    case_bool_decide as Hop.
    + set (stopped := fun e => WorkerTable.mkEntry (WorkerTable.stop_ (WorkerTable.context_ e))
        (WorkerTable.is_used_ e) (WorkerTable.is_deleted_ e)).
      assert (Ha : stop_worker i (with_entry (set_buffers this T) i (with_channel e ch')) =
        with_entry (set_buffers this T) i (stopped (with_channel e ch'))).
      { unfold stop_worker, with_entry, set_workers. simpl. do 2 f_equal.
        rewrite (insert_alter _ _ _ (with_channel e ch')) by by rewrite list_lookup_insert_eq.
        apply list_insert_insert_eq. }
      rewrite Ha. eexists _, (stopped (with_channel e ch')). split; [done|].
      split_and!; [done..| |done]. by apply (with_channel_wf _ _ e).
    + eexists _, (with_channel e ch'). split; [done|]. split_and!; [done..| |done].
      by apply (with_channel_wf _ _ e).
  - destruct Hf as (T & -> & Hb). rewrite bool_decide_false by done. exists T. by split.
Qed.


(** C33.  The server hangs when more than 16 transactions end between two
    [START_TXN] requests.  The seventeenth announcement goes over the first;
    the next [START_TXN] finds its id twice, removes the worker the first time,
    and the second time [WorkerTable::remove] looks for it for ever: no number
    of rounds is enough, and no request is answered any more. *)
Theorem announcements_hang finish fuel parser r n conn this first others last :
  (forall T ch, queue_wf ch -> WorkerTable.ends_well finish T ch) ->
  WorkerTable.workers_wf (workers_ this) -> WorkerTable.idle_default (workers_ this) ->
  rets_wf (ret_ch_ this) -> dead_ids (ret_ch_ this) = [] ->
  length others = 15%nat -> first :: others ++ [last] ⊆+ ids this -> NoDup (ids this) -> last <> 0 ->
  let this := set_ret_ch this (announce (ret_ch_ this) (first :: others ++ [last])) in
  reap finish fuel this = Hang /\ start_txn finish parser r n conn this = Hang.
Proof.
  intros Hf Hwf Hid Hr Hd Hlen Hs Hnd Hnz this'.
  assert (Hall : forall fuel, reap finish fuel this' = Hang).
  2: { split; [done|]. unfold start_txn. by rewrite Hall. }
  clear fuel. intros [|fuel]; [done|].
  destruct (announce_room (first :: others) (ret_ch_ this) Hr) as [Hr1 Hd1].
  { rewrite Hd. simpl. lia. }
  rewrite Hd in Hd1. set (c1 := announce (ret_ch_ this) (first :: others)) in *.
  assert (Hc : ret_ch_ this' = announced c1 last).
  { unfold this', c1, announce. simpl. by rewrite foldl_app. }
  destruct (announced_full c1 last Hr1) as (He & Hg & Hp).
  { rewrite Hd1. simpl. lia. }
  destruct (ret_pop_spec c1 first others Hr1 Hd1) as (_ & _ & Hr2 & Hd2).
  destruct (announced_room (Channels.ret_pop c1) last Hr2) as [Hr3 Hd3]; [rewrite Hd2; lia|].
  rewrite Hd2 in Hd3.
  destruct (reap_round finish Hf fuel this' last Hwf) as (c & this1 & -> & Hk & Hw & Hwf1 & Hc1 & _ & _ & Hid1).
  { eapply elem_of_submseteq; [|exact Hs]. right. apply elem_of_app. right. left. }
  { by rewrite Hc. }
  { by rewrite Hc. }
  rewrite Hc, Hp in Hc1. change (workers_ this') with (workers_ this) in Hw.
  rewrite Hw in Hs, Hnd. csimpl in Hs. csimpl in Hnd. rewrite Hk in Hs, Hnd.
  apply (reap_unknown finish Hf others last); [done|by apply Hid1|by rewrite Hc1|by rewrite Hc1| |by inversion Hnd|done].
  apply (submseteq_app_inv_l _ _ [last]). simpl. rewrite <- Hs.
  apply submseteq_cons. by rewrite Permutation_app_comm.
Qed.

(** C40.  Stopping.  Once [stop_] has been called the main loop ends at its
    next test, without taking another message: every worker has been stopped
    and joined.  The test leaves the flag set, so [is_running_] answers [true]
    again, although the manager has stopped. *)
Theorem stop_ends_loop finish ms this :
  (forall T ch, queue_wf ch -> WorkerTable.ends_well finish T ch) ->
  WorkerTable.workers_wf (workers_ this) ->
  exists this', start_ finish ms (stop_ this) = Ret (this', true) /\
    WorkerTable.workers (workers_ this') = [] /\ WorkerTable.workers_wf (workers_ this') /\
    is_running_ this' = true.
Proof.
  intros Hf Hwf. assert (E : start_ finish ms (stop_ this) =
    this' ← shut_down finish (set_running (stop_ this) true); Ret (this', true)) by by destruct ms.
  rewrite E. unfold shut_down.
  destruct (WorkerTable.cleared finish (buffers_ this) (workers_ this) Hwf Hf)
    as (T & t & sent & Hc & Hwf' & Hw & _).
  cbn [set_running stop_ buffers_ workers_]. rewrite Hc, (outcome_bind_ret (T, t, sent)).
  rewrite outcome_bind_ret. eexists. split; [done|]. by split_and!.
Qed.

(** ** Witnesses *)

Definition manager7 : ThreadManager :=
  mkManager WorkerTable.pool7 (Channels.ret_channel_make 0) WorkerTable.workers7 true 8 [].

Definition leave_none (T : buf_table) (ch : Channels.job_channel)
    : buf_table * Channels.job_channel := (T, Channels.job_channel_default).

Lemma leave_none_ends T ch : queue_wf ch -> WorkerTable.ends_well leave_none T ch.
Proof. intros _. split; [apply Channels.job_channel_default_wf|constructor]. Qed.

Definition parser7 : JobBuf.job_buf := JobBuf.mkJobBuf (Some 0%nat) 8.

Lemma rets_make_wf : rets_wf (Channels.ret_channel_make 0).
Proof. apply ring_empty; vm_compute; lia. Qed.

Lemma route_spec_witness :
  exists this', route ABORT_TXN parser7 (Some 0%nat) 8 Channels.conn_default manager7 = Ret this' /\
    WorkerTable.workers_wf (workers_ this') /\ sent_ this' = [].
Proof.
  destruct (route_spec ABORT_TXN parser7 (Some 0%nat) 8 Channels.conn_default manager7 7
    WorkerTable.workers7_wf) as [[Hno _]|(i & e & Hi & _ & Hk & H)].
  - vm_compute. reflexivity.
  - destruct Hno. vm_compute. left.
  - assert (e = WorkerTable.entry7) as ->.
    { apply list_lookup_insert_Some in Hi as [(_ & <- & _)|[_ Hi]]; [reflexivity|].
      apply lookup_replicate in Hi as [-> _]. discriminate Hk. }
    cbv zeta in H. change (WorkerTable.job_ch_ (WorkerTable.context_ WorkerTable.entry7))
      with WorkerTable.channel7 in H. rewrite (proj2 WorkerTable.channel7_wf) in H.
    destruct H as (this' & e' & H1 & _ & _ & _ & _ & H2 & H3).
    exists this'. split; [exact H1|]. split; [exact H2|exact H3].
Defined.


Lemma stop_ends_loop_witness :
  exists this', start_ leave_none [(Shutdown, false)] (stop_ manager7) = Ret (this', true) /\
    WorkerTable.workers (workers_ this') = [].
Proof.
  destruct (stop_ends_loop leave_none [(Shutdown, false)] manager7 leave_none_ends
    WorkerTable.workers7_wf) as (this' & H1 & H2 & _).
  exists this'. split; [exact H1|exact H2].
Defined.

(** Seventeen running workers, with the ids 1 to 17. *)
Definition add_worker (t : WorkerTable.WorkerTable) (id : Z) : WorkerTable.WorkerTable :=
  match WorkerTable.insert_ t (WorkerTable.context_make id) with Ret (t', _) => t' | _ => t end.
Definition workers17 : WorkerTable.WorkerTable :=
  foldl add_worker WorkerTable.table_default (Z.of_nat <$> seq 1 17).
Definition manager17 : ThreadManager :=
  mkManager buf_table_default (Channels.ret_channel_make 0) workers17 true 18 [].

Lemma add_workers_wf xs t :
  WorkerTable.workers_wf t -> WorkerTable.workers_wf (foldl add_worker t xs).
Proof.
  revert t; induction xs as [|x xs IH]; intros t Hwf; [done|]. apply IH. unfold add_worker.
  pose proof (WorkerTable.worker_inserted t (WorkerTable.context_make x) Hwf) as H.
  destruct (_ =? 64); [by rewrite H|]. by destruct H as (t' & i & c & -> & H & _).
Qed.

Lemma workers17_idle : WorkerTable.idle_default workers17.
Proof.
  assert (H : forallb (fun e => WorkerTable.is_used_ e || (WorkerTable.entry_key e =? 0))
    (WorkerTable.table_ workers17) = true) by (vm_compute; reflexivity).
  intros i e Hi Hu. rewrite forallb_forall in H.
  specialize (H e (proj1 (list_elem_of_In _ _) (list_elem_of_lookup_2 _ _ _ Hi))).
  rewrite Hu in H. by apply Z.eqb_eq in H.
Qed.

Lemma announcements_hang_witness :
  length (ids manager17) = 17%nat /\
  start_txn leave_none parser7 (Some 0%nat) 8 Channels.conn_default
    (set_ret_ch manager17 (announce (ret_ch_ manager17) (1 :: (Z.of_nat <$> seq 2 15) ++ [17])))
    = Hang.
Proof.
  split; [vm_compute; reflexivity|].
  apply (announcements_hang leave_none 18 parser7 (Some 0%nat) 8 Channels.conn_default manager17
    1 (Z.of_nat <$> seq 2 15) 17 leave_none_ends).
  - apply add_workers_wf, WorkerTable.workers_default_wf.
  - apply workers17_idle.
  - apply rets_make_wf.
  - vm_compute. reflexivity.
  - reflexivity.
  - assert (E : ids manager17 = 1 :: (Z.of_nat <$> seq 2 15) ++ [17]) by (vm_compute; reflexivity).
    rewrite E. reflexivity.
  - apply (bool_decide_unpack _). vm_compute. reflexivity.
  - discriminate.
Defined.
