(* ===== verification/Serve.v ===== *)
(** * The socket thread, action by action

    [ThreadManager] treats a turn of the main loop as one function and takes
    what a joined worker still does as an argument.  Here the same code is a
    program of atomic actions ([Prog]) over the state the socket thread and
    the workers share: the database, the return channel, the worker contexts
    with their job channels, and the threads.  Joining waits until the thread
    has ended: until then the action is not enabled. *)
From S2P Require Import Prelude Params Probe BufTable Ring Prog.
From S2P Require Bytes JobBuf CommitQueue Channels Worker WorkerTable ThreadManager.

(** ** Threads and the shared state *)

(** What a thread still has to do: the rest of the turn it is in; the
    references in the slots of its commit queue that [~Worker] has not given
    back; or nothing, its context having been joined. *)
Inductive phase :=
  | Running (p : Worker.wprog bool)
  | Leaving (left : list buf_ref)
  | Joined.

(** [slot_] is the entry of the worker table the thread works for.  The
    channel and the flag of [worker_] are references into that entry: while
    the thread is not joined, the entry is where they are. *)
Record thread := mkThread {
  slot_ : nat;
  worker_ : Worker.Worker;
  phase_ : phase
}.

Record world := mkWorld {
  shared_ : Worker.shared;
  contexts_ : WorkerTable.WorkerTable;
  threads_ : list thread
}.

(** What only the socket thread writes, the flag apart. *)
Record socket := mkSocket {
  flag_ : bool;
  next_txn_id : Z;
  sent_ : list Channels.datagram
}.

Abbreviation mprog := (prog world socket).

Definition pool_of (W : world) : buf_table := Worker.buffers_ (Worker.db_ (shared_ W)).
Definition set_pool (W : world) (T : buf_table) : world :=
  mkWorld (Worker.set_buffers (shared_ W) T) (contexts_ W) (threads_ W).
Definition set_rets (W : world) (c : Channels.ret_channel Z) : world :=
  mkWorld (Worker.mkShared (Worker.db_ (shared_ W)) c) (contexts_ W) (threads_ W).
Definition set_contexts (W : world) (t : WorkerTable.WorkerTable) : world :=
  mkWorld (shared_ W) t (threads_ W).
Definition set_threads (W : world) (ts : list thread) : world :=
  mkWorld (shared_ W) (contexts_ W) ts.
Definition add_sent (m : socket) (d : Channels.datagram) : socket :=
  mkSocket (flag_ m) (next_txn_id m) (sent_ m ++ [d]).

Definition active (t : thread) : bool := match phase_ t with Joined => false | _ => true end.

(** The worker as it sees its context. *)
Definition context_at (W : world) (i : nat) : WorkerTable.WorkerContext :=
  default WorkerTable.context_default (WorkerTable.context_ <$> WorkerTable.table_ (contexts_ W) !! i).
Definition load (W : world) (t : thread) : Worker.Worker :=
  Worker.set_running (Worker.set_job_ch (worker_ t) (WorkerTable.job_ch_ (context_at W (slot_ t))))
    (WorkerTable.running_ (context_at W (slot_ t))).

(** Writing an entry of the worker table. *)
Definition alter_entry (t : WorkerTable.WorkerTable) (i : nat)
    (f : WorkerTable.Entry -> WorkerTable.Entry) : WorkerTable.WorkerTable :=
  WorkerTable.mkTable (alter f i (WorkerTable.table_ t)) (WorkerTable.entry_count_ t).
Definition on_context (f : WorkerTable.WorkerContext -> WorkerTable.WorkerContext)
    (e : WorkerTable.Entry) : WorkerTable.Entry :=
  WorkerTable.mkEntry (f (WorkerTable.context_ e)) (WorkerTable.is_used_ e) (WorkerTable.is_deleted_ e).
Definition with_channel (ch : Channels.job_channel) (c : WorkerTable.WorkerContext)
    : WorkerTable.WorkerContext :=
  WorkerTable.mkContext ch (WorkerTable.txn_id_ c) (WorkerTable.running_ c) (WorkerTable.joinable_ c).

(** ** Actions *)

Definition on_pool {B} (f : buf_table -> outcome (buf_table * B)) : mprog B :=
  act (fun W m => '(T, b) ← f (pool_of W); Ret (set_pool W T, m, b)).
Definition read_pool {B} (f : buf_table -> B) : mprog B := on_pool (fun T => Ret (T, f T)).
Definition retain (r : buf_ref) : mprog buf_ref := on_pool (fun T => Ret (ref_copy T r)).
Definition drop_ref (r : buf_ref) : mprog unit := on_pool (fun T => Ret ((ref_destroy T r).1, tt)).

Definition on_rets {B} (f : Channels.ret_channel Z -> outcome (Channels.ret_channel Z * B))
    : mprog B :=
  act (fun W m => '(c, b) ← f (Worker.ret_ch_ (shared_ W)); Ret (set_rets W c, m, b)).

(** The table of workers, its threads and channels apart. *)
Definition on_contexts {B} (f : WorkerTable.WorkerTable -> outcome (WorkerTable.WorkerTable * B))
    : mprog B :=
  act (fun W m => '(t, b) ← f (contexts_ W); Ret (set_contexts W t, m, b)).

Definition unwrap_ {A E} (r : Result A E) : mprog A :=
  act (fun W m => a ← unwrap r; Ret (W, m, a)).

(** [reply], and the answer to a job whose worker is dead. *)
Definition answer (_ack : OpAck) (_parser : JobBuf.job_buf) (_conn : Channels.client_conn) (_size : Z)
    : mprog unit :=
  act (fun W m =>
    let T := JobBuf.set_ack (pool_of W) _parser _ack in
    Ret (set_pool W T,
         add_sent m (Channels.conn_reply _conn (buffer T (JobBuf.ref _parser)) _size), tt)).
Definition reply (_ack : OpAck) (_parser : JobBuf.job_buf) (_conn : Channels.client_conn)
    : mprog unit := answer _ack _parser _conn (JobBuf.get_buffer_size _parser).

(** The channel functions of the context in slot [idx]. *)
Definition context_send (idx : nat) (j : Channels.job) : mprog QueueError :=
  act (fun W m =>
    let c := context_at W idx in
    let '(T, ch, r) := Channels.send (pool_of W) (WorkerTable.job_ch_ c) j in
    Ret (set_contexts (set_pool W T) (alter_entry (contexts_ W) idx (on_context (with_channel ch))),
         m, r)).
Definition context_get (idx : nat) : mprog (Result Channels.job QueueError) :=
  act (fun W m =>
    let '(T, r) := Channels.get (pool_of W) (WorkerTable.job_ch_ (context_at W idx)) in
    Ret (set_pool W T, m, r)).
Definition context_pop (idx : nat) : mprog unit :=
  act (fun W m =>
    let '(T, ch) := Channels.pop (pool_of W) (WorkerTable.job_ch_ (context_at W idx)) in
    Ret (set_contexts (set_pool W T) (alter_entry (contexts_ W) idx (on_context (with_channel ch))),
         m, tt)).
Definition context_empty (idx : nat) : mprog bool :=
  act (fun W m => Ret (W, m, Channels.empty (WorkerTable.job_ch_ (context_at W idx)))).

(** [stop_()] of the context in slot [idx]. *)
Definition context_stop (idx : nat) : mprog unit :=
  on_contexts (fun t => Ret (alter_entry t idx (on_context WorkerTable.stop_), tt)).

(** [thread_.join()]: terminates the program if there is no thread, waits
    until the thread has ended, and leaves the context without one. *)
Definition thread_of (ts : list thread) (idx : nat) : option (nat * thread) :=
  list_find (fun t => active t && (slot_ t =? idx)%nat = true) ts.

Definition unjoinable (c : WorkerTable.WorkerContext) : WorkerTable.WorkerContext :=
  WorkerTable.mkContext (WorkerTable.job_ch_ c) (WorkerTable.txn_id_ c) (WorkerTable.running_ c) false.

Definition thread_join (idx : nat) : mprog unit :=
  act (fun W m =>
    if WorkerTable.joinable_ (context_at W idx) then
      match thread_of (threads_ W) idx with
      | Some (i, t) =>
          match phase_ t with
          | Leaving [] =>
              Ret (mkWorld (shared_ W) (alter_entry (contexts_ W) idx (on_context unjoinable))
                     (<[i := mkThread (slot_ t) (load W t) Joined]> (threads_ W)), m, tt)
          | _ => Hang
          end
      | None => Undef
      end
    else Undef).

(** ** Joining and removing a worker *)

(** The loop of [join_] once the thread has ended: the copy of the job and the
    parser on the same buffer go away at the end of the round. *)
Fixpoint answer_dead (fuel : nat) (idx : nat) : mprog unit :=
  match fuel with
  | O => diverge
  | S f =>
      e ← context_empty idx;
      if e : bool then Done tt
      else
        job_r ← context_get idx;
        job ← unwrap_ job_r;
        r ← retain (Channels.job_ref job);
        answer DEAD_TXN (JobBuf.mkJobBuf r (Channels.buf_sz job)) (Channels.conn_ job) 7 ≫= fun _ =>
        context_pop idx ≫= fun _ =>
        drop_ref r ≫= fun _ =>
        drop_ref (Channels.job_ref job) ≫= fun _ =>
        answer_dead f idx
  end.

Definition join_ (idx : nat) : mprog unit :=
  thread_join idx ≫= fun _ => answer_dead WorkerTable.JOIN_FUEL idx.

(** The end of [remove] and of a round of [clear]: the entry is a tombstone. *)
Definition bury (idx : nat) : mprog unit :=
  on_contexts (fun t => Ret (WorkerTable.mkTable
    (alter (fun e => WorkerTable.mkEntry (WorkerTable.context_ e) (WorkerTable.is_used_ e) true) idx
       (WorkerTable.table_ t)) (u64 (WorkerTable.entry_count_ t - 1)), tt)).

Definition remove_ (_key : Z) : mprog unit :=
  idx ← on_contexts (fun t =>
    idx ← of_loop (while_true WorkerTable.Rows (fun idx =>
      match WorkerTable.table_ t !! idx with
      | Some e => if (WorkerTable.entry_key e =? _key) && negb (WorkerTable.is_deleted_ e)
                  then Some idx else None
      | None => None
      end) WorkerTable.Rows (WorkerTable.home _key));
    Ret (t, idx));
  context_stop idx ≫= fun _ => join_ idx ≫= fun _ => bury idx.

(** [insert]: the entry is written and the thread started. *)
Definition insert_ (_context : WorkerTable.WorkerContext) : mprog (Result nat WorkerTableError) :=
  act (fun W m =>
    '(t, r) ← WorkerTable.insert_ (contexts_ W) _context;
    let W := set_contexts W t in
    match value_ r with
    | Some idx =>
        let c := context_at W idx in
        Ret (set_threads W (threads_ W ++ [mkThread idx
               (Worker.worker_make (WorkerTable.running_ c) (WorkerTable.job_ch_ c)
                  (WorkerTable.txn_id_ c)) (Running (Done false))]), m, r)
    | None => Ret (W, m, r)
    end).

(** ** One message *)

Definition forward (idx : nat) (recv_buffer : buf_ref) (recv_size_u : Z)
    (conn : Channels.client_conn) : mprog QueueError :=
  r ← retain recv_buffer;
  send_r ← context_send idx (Channels.job_make r recv_size_u conn);
  drop_ref r ≫= fun _ => Done send_r.

Fixpoint reap (fuel : nat) : mprog unit :=
  match fuel with
  | O => diverge
  | S f =>
      e ← on_rets (fun c => Ret (c, Channels.ret_empty c));
      if e : bool then Done tt
      else
        dead_txn_r ← on_rets (fun c => Ret (c, Channels.ret_get c));
        dead_txn ← unwrap_ dead_txn_r;
        remove_ dead_txn ≫= fun _ =>
        on_rets (fun c => Ret (Channels.ret_pop c, tt)) ≫= fun _ => reap f
  end.

(** Workers may announce their end while the loop runs; [fuel] bounds it. *)
Definition start_txn (fuel : nat) (parser : JobBuf.job_buf) (recv_buffer : buf_ref)
    (recv_size_u : Z) (conn : Channels.client_conn) : mprog unit :=
  reap fuel ≫= fun _ =>
  id ← act (fun W m => Ret (W, m, next_txn_id m));
  insert_r ← insert_ (WorkerTable.context_make id);
  match value_ insert_r with
  | None => reply BUSY parser conn
  | Some idx =>
      forward idx recv_buffer recv_size_u conn ≫= fun _ =>
      act (fun W m => Ret (W, mkSocket (flag_ m) (u32 (next_txn_id m + 1)) (sent_ m), tt))
  end.

Definition route (op : OpType) (parser : JobBuf.job_buf) (recv_buffer : buf_ref)
    (recv_size_u : Z) (conn : Channels.client_conn) : mprog unit :=
  txn_id_r ← read_pool (fun T => JobBuf.get_txn T parser);
  if negb (is_ok txn_id_r) then reply BAD_TXN parser conn
  else
    txn_id ← unwrap_ txn_id_r;
    search_r ← on_contexts (fun t => Ret (t, WorkerTable.search_ t txn_id));
    match value_ search_r with
    | None => reply BAD_TXN parser conn
    | Some idx =>
        send_r ← forward idx recv_buffer recv_size_u conn;
        if negb (bool_decide (send_r = QueueError_None)) then reply BUSY parser conn
        else if bool_decide (op = ABORT_TXN) then context_stop idx else Done tt
    end.

Definition handle (fuel : nat) (parser : JobBuf.job_buf) (recv_buffer : buf_ref)
    (recv_size_u : Z) (conn : Channels.client_conn) : mprog unit :=
  op_r ← read_pool (fun T => JobBuf.get_op T parser);
  op_id_r ← read_pool (fun T => JobBuf.get_op_id T parser);
  if negb (is_ok op_r) || negb (is_ok op_id_r) then reply BAD_OP parser conn
  else
    op ← unwrap_ op_r;
    match op with
    | START_TXN => start_txn fuel parser recv_buffer recv_size_u conn
    | MAX_OP_VALUE => Done tt
    | _ => route op parser recv_buffer recv_size_u conn
    end.

(** The body of the main loop: [false] if it breaks out. *)
Definition body (fuel : nat) (m : ThreadManager.received) : mprog bool :=
  recv_buffer_r ← on_pool request;
  match value_ recv_buffer_r with
  | None => Done true
  | Some r =>
      recv_buffer ← retain r;
      go ← match m with
           | ThreadManager.Shutdown => Done false
           | ThreadManager.Failed => Done true
           | ThreadManager.Message bytes conn =>
               on_pool (fun T => Ret (store T recv_buffer (Bytes.write (buffer T recv_buffer) 0 bytes), tt))
                 ≫= fun _ =>
               let recv_size_u := Z.of_nat (length bytes) in
               pr ← retain recv_buffer;
               handle fuel (JobBuf.mkJobBuf pr recv_size_u) recv_buffer recv_size_u conn ≫= fun _ =>
               drop_ref pr ≫= fun _ => Done true
           end;
      drop_ref recv_buffer ≫= fun _ => drop_ref r ≫= fun _ => Done go
  end.

(** ** Shutting down: the two range loops of [clear_] *)

Definition running_at (t : WorkerTable.WorkerTable) (idx : nat) : bool :=
  match WorkerTable.table_ t !! idx with
  | Some e => WorkerTable.is_used_ e && negb (WorkerTable.is_deleted_ e)
  | None => false
  end.

Fixpoint stop_all (n idx : nat) : mprog unit :=
  match n with
  | O => Done tt
  | S n' =>
      u ← on_contexts (fun t => Ret (t, running_at t idx));
      (if u : bool then context_stop idx else Done tt) ≫= fun _ => stop_all n' (idx + 1)
  end.

Fixpoint join_all (n idx : nat) : mprog unit :=
  match n with
  | O => Done tt
  | S n' =>
      u ← on_contexts (fun t => Ret (t, running_at t idx));
      (if u : bool then join_ idx ≫= fun _ => bury idx else Done tt) ≫= fun _ => join_all n' (idx + 1)
  end.

Definition shut_down : mprog unit :=
  stop_all WorkerTable.Rows 0 ≫= fun _ => join_all WorkerTable.Rows 0.

(** The main loop, turn by turn: what follows the turn that has ended. *)
Inductive stage := Next | Break | Over.

Definition turn (fuel : nat) (m : ThreadManager.received) : mprog stage :=
  go ← body fuel m; Done (if go : bool then Next else Break).
Definition closing : mprog stage := shut_down ≫= fun _ => Done Over.
