(* ===== verification/System.v ===== *)
(** * All workers together

    Any number of workers run at once; a step of the system is one atomic
    action of one worker, or something the socket thread does.  The local
    guarantees of [Transaction] compose to invariants of the whole system. *)
From S2P Require Import Prelude Params Probe UniqueKey Ring Prog Locking Worker WorkerLogic.
From S2P Require Import References Transaction.
From S2P Require StudentTuple StudentTable LockList CommitQueue Channels BufTable JobBuf.

(** A worker thread: its state and what is left of the turn it is in. *)
Definition thread : Type := Worker * wprog bool.
Definition config : Type := shared * list thread.

Inductive sys_step : config -> config -> Prop :=
  (** A worker takes an action. *)
  | act_step s ts i w B (f : shared -> Worker -> outcome (shared * Worker * B)) k s' w' b :
      ts !! i = Some (w, Act f k) -> f s w = Ret (s', w', b) ->
      sys_step (s, ts) (s', <[i := (w', k b)]> ts)
  (** A worker that has not quit starts the next turn of its loop; whether it
      will see what a destroyed entry held is open. *)
  | turn_step s ts i w (mem : expiry) :
      ts !! i = Some (w, Done false) ->
      sys_step (s, ts) (s, <[i := (w, iteration)]> ts)
  (** The socket thread queues a job for a worker or clears its flag. *)
  | context_step s ts i w p ch r :
      ts !! i = Some (w, p) ->
      sys_step (s, ts) (s, <[i := (set_running (set_job_ch w ch) r, p)]> ts)
  (** The socket thread works on the buffers and the return channel. *)
  | socket_step s ts T c :
      sys_step (s, ts) (mkShared (db_ (set_buffers s T)) c, ts)
  (** The socket thread starts a worker. *)
  | spawn_step s ts r ch id :
      sys_step (s, ts) (s, ts ++ [(worker_make r ch id, Done false)]).

(** Executions that start without workers and stay within the range of the
    8-bit counters, while every job that is next in a channel has a buffer. *)
Definition bounded (c : config) : Prop :=
  room (view_of c.1) /\ Forall (fun t : thread => front_ready t.1) c.2.
Definition bounded_step (c c' : config) : Prop := bounded c /\ sys_step c c'.

Definition boundedb (c : config) : bool :=
  roomb (view_of c.1) && forallb (fun t : thread => front_readyb t.1) c.2.

Lemma boundedb_bounded c : boundedb c = true -> bounded c.
Proof.
  intros [H1 H2]%andb_true_iff. split; [by apply roomb_room|].
  apply list.Forall_forall. intros t Ht. apply front_readyb_ready.
  rewrite forallb_forall in H2. apply H2. by apply list_elem_of_In.
Qed.

Definition initial (c : config) : Prop :=
  StudentTable.table_wf (view_of c.1) /\ StudentTable.distinct_keys (view_of c.1) /\ c.2 = [].

Definition reachable (c : config) : Prop :=
  exists c0, initial c0 /\ rtc bounded_step c0 c.

(** ** The invariant *)

(** What a worker owns between two turns lets it go on. *)
Definition turn_inv (c : core) (g : list claim) (quit : bool) : Prop :=
  quit = false -> linv c g /\ stocked (c_queue c).

Definition thread_ok (t : thread) (g : list claim) : Prop :=
  exists mem : expiry, cok front_ready True t.2 turn_inv (core_of t.1) g.

Lemma turn_end_inv c0 c g quit : turn_end True c0 c g quit -> turn_inv c g quit.
Proof. intros [[_ H] Hr] ->. split; [apply H|by apply Hr]. Qed.

(** A worker that waits, and one that starts a turn. *)
Lemma waiting_ok w g : thread_ok (w, Done false) g -> linv (core_of w) g /\ stocked (commit_queue_ w).
Proof. intros [mem H]. by apply H. Qed.

Lemma turning_ok {mem : expiry} w g : thread_ok (w, Done false) g -> thread_ok (w, iteration) g.
Proof.
  intros [Hl Hr]%waiting_ok. exists mem.
  pose proof (iteration_cok front_ready True (core_of w) g (fun _ H => H) Hl (fun _ => Hr)) as H.
  revert H. apply cok_mono. intros c g' quit. apply turn_end_inv.
Qed.

Definition sys_inv (c : config) : Prop :=
  exists gs, Forall2 thread_ok c.2 gs /\ Good (view_of c.1) (mjoin gs).

(** The thread at [i], what it owns, and what everybody else owns. *)
Lemma sys_inv_thread s ts i t :
  sys_inv (s, ts) -> ts !! i = Some t ->
  exists g O, thread_ok t g /\ Good (view_of s) (g ++ O) /\
    forall s' t' g', thread_ok t' g' -> Good (view_of s') (g' ++ O) ->
      sys_inv (s', <[i := t']> ts).
Proof.
  intros (gs & Hts & HG) Hi. simpl in *.
  destruct (Forall2_lookup_l _ _ _ _ _ Hts Hi) as (g & Hgi & Hok).
  destruct (mjoin_split gs i g Hgi) as (O & H1 & H2). exists g, O.
  split; [done|]. split; [by rewrite <- H1|]. intros s' t' g' Hok' HG'.
  exists (<[i := g']> gs). split; [by apply Forall2_insert|]. simpl. by rewrite H2.
Qed.

Lemma sys_step_inv c c' : bounded_step c c' -> sys_inv c -> sys_inv c'.
Proof.
  intros [[Hroom Hready] Hs] Hinv. destruct Hs; simpl in Hroom, Hready.
  - destruct (sys_inv_thread _ _ _ _ Hinv H) as (g & O & [mem Hok] & HG & Hup).
    pose proof (Forall_lookup_1 _ _ _ _ Hready H) as Hw.
    specialize (Hok s w eq_refl Hroom Hw (ex_intro _ O HG)). rewrite H0 in Hok.
    destruct Hok as (g' & HG' & Hk). apply (Hup s' _ g'); [by exists mem|by apply HG'].
  - destruct (sys_inv_thread _ _ _ _ Hinv H) as (g & O & Hok & HG & Hup).
    apply (Hup s _ g); [|done]. by apply turning_ok.
  - destruct (sys_inv_thread _ _ _ _ Hinv H) as (g & O & Hok & HG & Hup).
    by apply (Hup s _ g).
  - exact Hinv.
  - destruct Hinv as (gs & Hts & HG). exists (gs ++ [[]]). split.
    + apply Forall2_app; [done|]. constructor; [|constructor]. exists Retained. intros _.
      split; [apply linv_start|]. apply (cs_ready _ commits_default_sized).
    + simpl. simpl in HG. assert (mjoin (gs ++ [[]]) = mjoin gs) as ->; [|done].
      clear. induction gs as [|x gs IH]; [done|]. simpl. by rewrite IH.
Qed.

Lemma reachable_inv c : reachable c -> sys_inv c.
Proof.
  intros (c0 & (Hwf & Hd & Hts) & Hr).
  assert (Hinv : sys_inv c0).
  { exists []. rewrite Hts. split; [constructor|]. split; [done..|constructor|].
    intros r Hr0. split; intros ?; simpl; lia. }
  clear Hwf Hd Hts. induction Hr as [|c0 c1 c2 Hs Hr IH]; [done|].
  apply IH. by eapply sys_step_inv.
Qed.

(** A worker that cannot act carries out a commit: it is blocked, or reads what
    is left of a destroyed entry. *)
Lemma stuck_commits s ts i w B (f : shared -> Worker -> outcome (shared * Worker * B)) k :
  reachable (s, ts) -> bounded (s, ts) -> ts !! i = Some (w, Act f k) ->
  match f s w with
  | Ret _ => True
  | Hang => blocked (view_of s) (lock_list_ w) (Act f k)
  | Undef => exists mem, dangling mem (Act f k)
  end.
Proof.
  intros Hr [Hroom Hready] Hi.
  destruct (sys_inv_thread _ _ _ _ (reachable_inv _ Hr) Hi) as (g & O & [mem Hok] & HG & _).
  pose proof (Forall_lookup_1 _ _ _ _ Hready Hi) as Hw.
  specialize (Hok s w eq_refl Hroom Hw (ex_intro _ O HG)). destruct (f s w); [done|done|eauto].
Qed.

(** ** What follows for workers between two requests *)

(** The worker at [i], if it waits for its next request. *)
Definition idle_at (c : config) (i : nat) : option Worker :=
  match c.2 !! i with Some (w, Done false) => Some w | _ => None end.

Definition held_by (w : Worker) : list (unique_key * LockType) :=
  LockList.held (lock_list_ w).

Lemma idle_thread s ts i w :
  sys_inv (s, ts) -> idle_at (s, ts) i = Some w ->
  ts !! i = Some (w, Done false).
Proof.
  intros _. unfold idle_at. simpl. destruct (ts !! i) as [[w' [[]|]]|]; [done| |done..].
  by intros [= ->].
Qed.

Lemma idle_claims s ts i w :
  sys_inv (s, ts) -> idle_at (s, ts) i = Some w ->
  exists O, Good (view_of s) (claims_of (lock_list_ w) ++ O).
Proof.
  intros Hinv Hi. pose proof (idle_thread _ _ _ _ Hinv Hi) as Hl.
  destruct (sys_inv_thread _ _ _ _ Hinv Hl) as (g & O & Hok & HG & _).
  exists O. by apply (l_own _ _ (proj1 (waiting_ok _ _ Hok))).
Qed.

Lemma idle_two s ts i j w1 w2 :
  sys_inv (s, ts) -> i <> j -> idle_at (s, ts) i = Some w1 -> idle_at (s, ts) j = Some w2 ->
  exists O, Good (view_of s) (claims_of (lock_list_ w1) ++ claims_of (lock_list_ w2) ++ O).
Proof.
  intros Hinv Hij Hi Hj. pose proof (idle_thread _ _ _ _ Hinv Hi) as Hl1.
  pose proof (idle_thread _ _ _ _ Hinv Hj) as Hl2.
  destruct Hinv as (gs & Hts & HG). simpl in *.
  destruct (Forall2_lookup_l _ _ _ _ _ Hts Hl1) as (g1 & Hg1 & Hok1).
  destruct (Forall2_lookup_l _ _ _ _ _ Hts Hl2) as (g2 & Hg2 & Hok2).
  destruct (mjoin_split gs i g1 Hg1) as (O1 & H1 & H2).
  destruct (mjoin_split (<[i := []]> gs) j g2) as (O2 & H3 & _).
  { by rewrite list_lookup_insert_ne. }
  exists O2. rewrite H1 in HG. rewrite H2 in H3. simpl in H3. rewrite H3 in HG.
  pose proof (l_own _ _ (proj1 (waiting_ok _ _ Hok1)) _ _ HG) as HG1.
  rewrite Permutation_app_swap_app in HG1.
  pose proof (l_own _ _ (proj1 (waiting_ok _ _ Hok2)) _ _ HG1) as HG2.
  by rewrite Permutation_app_swap_app in HG2.
Qed.

(** A lock of a worker that waits, among all claims; the record it is on. *)
Lemma idle_lock s ts i w k m :
  reachable (s, ts) -> idle_at (s, ts) i = Some w -> (k, m) ∈ held_by w ->
  exists O rest, Good (view_of s) ((k, m, None) :: rest ++ O) /\
    exists n e, StudentTable.table_holder (StudentTable.table_ (view_of s)) (tuple_key_ k) n e.
Proof.
  intros Hr Hi Hk. destruct (idle_claims s ts i w (reachable_inv _ Hr) Hi) as (O & HG).
  apply claims_of_elem in Hk as [rest E]. rewrite E in HG. simpl in HG. exists O, rest. split; [done|].
  destruct (claim_row _ k m None _ HG) as (n & e & Hh & _). by exists n, e.
Qed.

(** An executable scheduler: the thread at [i] takes its next action, the
    socket thread queues a job or starts a worker.  A worker sees what a
    destroyed entry held. *)
Inductive choice :=
  | Take (i : nat)
  | Context (i : nat) (ch : Channels.job_channel) (r : bool)
  | Spawn (r : bool) (ch : Channels.job_channel) (id : Z).

Definition take (c : config) (i : nat) : option config :=
  match c.2 !! i with
  | Some (w, Act f k) =>
      match f c.1 w with
      | Ret (s', w', b) => Some (s', <[i := (w', k b)]> c.2)
      | _ => None
      end
  | Some (w, Done false) => Some (c.1, <[i := (w, iteration (mem := Retained))]> c.2)
  | _ => None
  end.

Definition choose (c : config) (x : choice) : option config :=
  match x with
  | Take i => take c i
  | Context i ch r =>
      match c.2 !! i with
      | Some (w, p) => Some (c.1, <[i := (set_running (set_job_ch w ch) r, p)]> c.2)
      | None => None
      end
  | Spawn r ch id => Some (c.1, c.2 ++ [(worker_make r ch id, Done false)])
  end.

Fixpoint schedule (c : config) (xs : list choice) : option config :=
  match xs with
  | [] => Some c
  | x :: xs' =>
      if boundedb c then
        match choose c x with Some c' => schedule c' xs' | None => None end
      else None
  end.

Lemma choose_step c x c' : choose c x = Some c' -> sys_step c c'.
Proof.
  destruct c as [s ts], x as [i|i ch r|r ch id]; simpl; unfold take; simpl; intros H.
  - destruct (ts !! i) as [[w p]|] eqn:Hi; [|done]. destruct p as [[]|B f k]; [done|..].
    + injection H as <-. by constructor.
    + destruct (f s w) as [[[s' w'] b]| |] eqn:Hf; [|done|done].
      injection H as <-. by eapply act_step.
  - destruct (ts !! i) as [[w p]|] eqn:Hi; [|done]. injection H as <-. by constructor.
  - injection H as <-. constructor.
Qed.

Lemma schedule_steps xs c c' : schedule c xs = Some c' -> rtc bounded_step c c'.
Proof.
  revert c; induction xs as [|x xs IH]; intros c; simpl; [by intros [= ->]|].
  destruct (boundedb c) eqn:Hr; [|done].
  destruct (choose c x) as [c1|] eqn:Hx; [|done]. intros H.
  eapply rtc_l; [split; [by apply boundedb_bounded|by apply choose_step in Hx]|by apply IH].
Qed.

(** ** Properties *)

(** C1.  Mutual exclusion.  The actions of any number of workers and the socket
    thread interleave in any way, as long as in every state a step starts from no
    record has 127 shared holders, the next key is not in use, and a job that is
    next in a channel has a buffer.  Then two different workers that are between
    requests hold locks on the same record only if both locks are shared. *)
Theorem mutual_exclusion s ts i j w1 w2 k m1 m2 :
  reachable (s, ts) -> i <> j ->
  idle_at (s, ts) i = Some w1 -> idle_at (s, ts) j = Some w2 ->
  (k, m1) ∈ held_by w1 -> (k, m2) ∈ held_by w2 -> m1 = SHARED /\ m2 = SHARED.
Proof.
  intros Hr Hij H1 H2 Hk1 Hk2.
  destruct (idle_two s ts i j w1 w2 (reachable_inv _ Hr) Hij H1 H2) as (O & HG).
  apply claims_of_elem in Hk1 as [r1 E1]. apply claims_of_elem in Hk2 as [r2 E2].
  rewrite E1, E2 in HG. simpl in HG.
  rewrite <- Permutation_middle in HG. by apply claims_exclude in HG.
Qed.

(** C18.  The lock words of the table stand behind every lock list.  In a state
    reached by steps each of which starts with no record at 127 shared holders,
    with the next key not in use, and with a buffer for every job that is next in
    a channel, for each lock a worker between requests holds, the record is in the table
    under that key; its lock word is [-1] for an exclusive lock, and counts
    at least one holder for a shared one. *)
Theorem lock_word_exact s ts i w k m :
  reachable (s, ts) -> idle_at (s, ts) i = Some w -> (k, m) ∈ held_by w ->
  table_id_ k = tbl_id_StudentTable /\
  exists r, r ∈ StudentTable.rows (view_of s) /\ StudentTuple.key_ r.1 = tuple_key_ k /\
    match m with EXCLUSIVE => r.2 = -1 | SHARED => 0 < r.2 <= 127 end.
Proof.
  intros Hr Hi Hk. destruct (idle_lock s ts i w k m Hr Hi Hk) as (O & rest & HG & _).
  destruct (claim_row _ k m None _ HG) as (n & e & Hh & Hke & Hm).
  destruct (StudentTable.holder_rows _ _ _ _ Hh) as [Hin Hkk].
  destruct (StudentTable.holder_live _ _ _ _ Hh) as (He & Hl & _).
  pose proof (StudentTable.wf_lock _ (good_wf _ _ HG) n e He Hl).
  split; [by rewrite Hke|].
  exists (StudentTable.tuple_ e, StudentTable.lock_ e). split_and!; [done..|].
  destruct m; [simpl; lia|done].
Qed.

(** C2.  Consider the states that steps lead to each of which starts within the
    bounds: no record has 127 shared holders, the next key is not in use, and a
    job that is next in a channel has a buffer.  In each of them the student
    table is well-formed: its counters count the records that can be locked,
    probing finds every record, keys are distinct and lock words are in range.
    If such a state is within the bounds itself, no worker's next action is
    undefined behaviour (an unwrapped error, a reference to a record that is
    gone, a null reference to a buffer), with one exception: a commit that reads
    the entry of its queue through a reference to the destroyed copy of it, or
    follows the null reference that this copy holds. *)
Theorem system_safe s ts :
  reachable (s, ts) ->
  StudentTable.table_wf (view_of s) /\ StudentTable.distinct_keys (view_of s) /\
  (bounded (s, ts) -> forall i w B (f : shared -> Worker -> outcome (shared * Worker * B)) k,
     ts !! i = Some (w, Act f k) -> f s w = Undef -> exists mem, mem <> Retained /\ dangling mem (Act f k)).
Proof.
  intros Hr. pose proof (reachable_inv _ Hr) as Hinv.
  pose proof Hinv as (gs & _ & HG). split_and!; [apply HG..|].
  intros Hb i w B f k Hi Hf. pose proof (stuck_commits s ts i w B f k Hr Hb Hi) as H. rewrite Hf in H.
  destruct H as [mem H]. exists mem. split; [by eapply dangling_lost|done].
Qed.

(** ** A run with two readers, for the witnesses

    Two workers read the same record under a shared lock. *)

Definition read_request : list Z := [2; 0; 0; 0; 0; 0; 0; 1] ++ replicate 40 0.
Definition shared0 : shared :=
  mkShared (mkDatabase StudentTable.table1 0 (JobBuf.one_slot read_request))
    (Channels.ret_channel_make 0).
Definition read_job : Channels.job := Channels.job_make (Some 0%nat) 48 Channels.conn_default.
Definition read_channel : Channels.job_channel :=
  (Channels.send (JobBuf.one_slot read_request) Channels.job_channel_default read_job).1.2.

(** A turn takes fewer than 40 actions; scheduling ends when it is over. *)
Fixpoint turn (fuel : nat) (c : config) (i : nat) : option config :=
  match fuel with
  | O => None
  | S f => match idle_at c i with
           | Some _ => Some c
           | None => if boundedb c then take c i ≫= (fun c' => turn f c' i) else None
           end
  end.

Lemma turn_steps fuel c i c' : turn fuel c i = Some c' -> rtc bounded_step c c'.
Proof.
  revert c; induction fuel as [|f IH]; intros c H; [done|]. simpl in H.
  destruct (idle_at c i); [by injection H as ->|].
  destruct (boundedb c) eqn:Hr; [|done].
  destruct (take c i) as [c1|] eqn:Ht; [|done].
  eapply rtc_l; [split; [by apply boundedb_bounded|by apply (choose_step c (Take i))]|by apply IH].
Qed.

Definition one_turn (c : config) (i : nat) : option config :=
  schedule c [Take i] ≫= fun c' => turn 40 c' i.

Lemma one_turn_steps c i c' : one_turn c i = Some c' -> rtc bounded_step c c'.
Proof.
  unfold one_turn. destruct (schedule c [Take i]) as [c1|] eqn:Hs; [|done]. intros Ht.
  etrans; [by eapply schedule_steps|by eapply turn_steps].
Qed.

Definition two_readers : config :=
  default (shared0, [])
    (schedule (shared0, []) [Spawn true read_channel 0; Spawn true read_channel 1] ≫= fun c =>
     one_turn c 0 ≫= fun c => one_turn c 1).

Lemma two_readers_reachable : reachable two_readers.
Proof.
  exists (shared0, []). split.
  - split; [|split; [|done]].
    + apply StudentTable.insert_wf; [apply StudentTable.table_default_wf|vm_compute; reflexivity].
    + apply (bool_decide_unpack _). vm_compute. reflexivity.
  - unfold two_readers.
    destruct (schedule _ _) as [c1|] eqn:H1; [|apply rtc_refl].
    destruct (one_turn c1 0) as [c2|] eqn:H2; simpl; rewrite ?H2; simpl; [|apply rtc_refl].
    destruct (one_turn c2 1) as [c3|] eqn:H3; simpl; [|apply rtc_refl].
    etrans; [by eapply schedule_steps|]. etrans; by eapply one_turn_steps.
Qed.

Definition reader (i : nat) : Worker :=
  default (worker_make false Channels.job_channel_default 0) (idle_at two_readers i).

Lemma mutual_exclusion_witness :
  (record_key 0, SHARED) ∈ held_by (reader 0) /\ (record_key 0, SHARED) ∈ held_by (reader 1) /\
  SHARED = SHARED /\ SHARED = SHARED.
Proof.
  assert (H0 : (record_key 0, SHARED) ∈ held_by (reader 0)) by (vm_compute; left).
  assert (H1 : (record_key 0, SHARED) ∈ held_by (reader 1)) by (vm_compute; left).
  assert (E0 : idle_at (two_readers.1, two_readers.2) 0 = Some (reader 0))
    by (vm_compute; reflexivity).
  assert (E1 : idle_at (two_readers.1, two_readers.2) 1 = Some (reader 1))
    by (vm_compute; reflexivity).
  split; [exact H0|]. split; [exact H1|].
  refine (mutual_exclusion two_readers.1 two_readers.2 0 1 (reader 0) (reader 1)
    (record_key 0) SHARED SHARED _ _ E0 E1 H0 H1); [|discriminate].
  rewrite <- surjective_pairing. exact two_readers_reachable.
Defined.

Lemma lock_word_exact_witness :
  (record_key 0, SHARED) ∈ held_by (reader 1) /\
  exists r, r ∈ StudentTable.rows (view_of two_readers.1) /\ StudentTuple.key_ r.1 = 0 /\
    0 < r.2 <= 127.
Proof.
  assert (H1 : (record_key 0, SHARED) ∈ held_by (reader 1)) by (vm_compute; left).
  assert (E1 : idle_at (two_readers.1, two_readers.2) 1 = Some (reader 1))
    by (vm_compute; reflexivity).
  split; [exact H1|].
  refine (proj2 (lock_word_exact two_readers.1 two_readers.2 1 (reader 1)
    (record_key 0) SHARED _ E1 H1)).
  rewrite <- surjective_pairing. exact two_readers_reachable.
Defined.

Lemma system_safe_witness :
  length two_readers.2 = 2%nat /\ StudentTable.table_wf (view_of two_readers.1).
Proof.
  split; [vm_compute; reflexivity|].
  refine (proj1 (system_safe two_readers.1 two_readers.2 _)).
  rewrite <- surjective_pairing. exact two_readers_reachable.
Defined.
