(* ===== verification/Isolation.v ===== *)
(** * What a commit does to the locks of others

    An [UPDATE] names a record and carries its new contents, but
    [StudentTuple::deserialize] does not set the key and [process_update]
    ([worker.cpp]) does not either, so the commit writes to the record with
    key 0 whatever record was locked, if the entry of its queue can be read
    after its destruction.  A run of two workers shows what that
    does to a transaction that holds the exclusive lock on record 0. *)
From S2P Require Import Prelude Params Probe UniqueKey BufTable Ring Prog Locking Worker.
From S2P Require Import WorkerLogic Transaction Requests System.
From S2P Require Bytes StudentTuple StudentTable LockList CommitQueue Channels JobBuf.

(** ** Running one worker to the end of its turn *)

Definition over (c : config) (i : nat) : bool :=
  match c.2 !! i with Some (_, Done _) => true | _ => false end.

Fixpoint to_end (fuel : nat) (c : config) (i : nat) : option config :=
  match fuel with
  | O => None
  | S f => if over c i then Some c
           else if boundedb c then take c i ≫= (fun c' => to_end f c' i) else None
  end.

Lemma to_end_steps fuel c i c' : to_end fuel c i = Some c' -> rtc bounded_step c c'.
Proof.
  revert c; induction fuel as [|f IH]; intros c H; [done|]. simpl in H.
  destruct (over c i); [by injection H as ->|].
  destruct (boundedb c) eqn:Hr; [|done]. destruct (take c i) as [c1|] eqn:Ht; [|done].
  eapply rtc_l; [split; [by apply boundedb_bounded|by apply (choose_step c (Take i))]|by apply IH].
Qed.

(** The next turns of the workers [ws], one after the other. *)
Fixpoint turns (c : config) (ws : list nat) : option config :=
  match ws with
  | [] => Some c
  | i :: ws' => schedule c [Take i] ≫= fun c1 => to_end 100 c1 i ≫= fun c2 => turns c2 ws'
  end.

Lemma turns_steps c ws c' : turns c ws = Some c' -> rtc bounded_step c c'.
Proof.
  revert c; induction ws as [|i ws IH]; intros c; [by intros [= ->]|]. cbn [turns].
  destruct (schedule c [Take i]) as [c1|] eqn:H1; [|done]. cbn [mbind option_bind].
  destruct (to_end 100 c1 i) as [c2|] eqn:H2; [|done]. cbn [mbind option_bind]. intros H3.
  etrans; [by eapply schedule_steps|]. etrans; [by eapply to_end_steps|by apply IH].
Qed.

Lemma default_turns c ws : rtc bounded_step c (default c (turns c ws)).
Proof. destruct (turns c ws) as [c'|] eqn:H; [by eapply turns_steps|apply rtc_refl]. Qed.

Lemma default_schedule c xs : rtc bounded_step c (default c (schedule c xs)).
Proof. destruct (schedule c xs) as [c'|] eqn:H; [by eapply schedule_steps|apply rtc_refl]. Qed.

(** ** Two workers and two records *)

(** The messages wait in the buffers 0 to 3; each channel holds its jobs. *)
Definition messages : list (list Z) :=
  [request_of 3 0; request_of 3 0; request_with 6 1 alice; request_of 8 0].

Definition message_pool : buf_table :=
  mkBufTable ((fun bs => mkBuf (bs ++ replicate (Z.to_nat BUFFER_WIDTH - length bs) 0) 1) <$> messages)
    4 4.

Definition message_job (i : nat) : Channels.job :=
  Channels.job_make (Some i) (Z.of_nat (length (nth i messages []))) Channels.conn_default.

Definition channel_of (ns : list nat) : Channels.job_channel :=
  foldl (fun ch i => (Channels.send message_pool ch (message_job i)).1.2)
    Channels.job_channel_default ns.

Definition shared2 : shared :=
  mkShared (mkDatabase StudentTable.table2 0 message_pool) (Channels.ret_channel_make 0).

Definition spawned : config :=
  default (shared2, [])
    (schedule (shared2, []) [Spawn true (channel_of [0%nat]) 0;
                             Spawn true (channel_of [1%nat; 2%nat; 3%nat]) 1]).

(** Both workers have read a record under the exclusive lock, and the second
    one has queued an update of its record. *)
Definition both_locked : config := default spawned (turns spawned [0%nat; 1%nat; 1%nat]).

(** The second worker has committed. *)
Definition clashed : config := default both_locked (turns both_locked [1%nat]).

Lemma both_locked_reachable : reachable both_locked.
Proof.
  exists (shared2, []). split.
  - split; [|split; [|done]].
    + apply StudentTable.table2_wf.
    + apply (bool_decide_unpack _). vm_compute. reflexivity.
  - etrans; [apply default_schedule|apply default_turns].
Qed.

Lemma clashed_reachable : rtc bounded_step both_locked clashed.
Proof. apply default_turns. Qed.

Definition record_of (c : config) (k : Z) : option StudentTuple.StudentTuple :=
  fst <$> head (List.filter (fun r => StudentTuple.key_ r.1 =? k) (StudentTable.rows (view_of c.1))).

(** ** The run *)

(** An update breaks isolation, where the entry that a commit reads survives its
    destruction ([Retained], as the scheduler of [System] chooses).  There is an
    execution in which one worker holds the exclusive lock on record 0 and does
    nothing, another worker holds the lock on record 1 only, and the commit of
    the second one's [UPDATE] of record 1 replaces the contents of record 0 and
    leaves record 1 as it was. *)
Theorem update_breaks_isolation :
  reachable both_locked /\ rtc bounded_step both_locked clashed /\
  idle_at clashed 0 = idle_at both_locked 0 /\
  (exists a b, idle_at both_locked 0 = Some a /\ held_by a = [(record_key 0, EXCLUSIVE)] /\
     idle_at both_locked 1 = Some b /\ held_by b = [(record_key 1, EXCLUSIVE)]) /\
  StudentTuple.name_ <$> record_of both_locked 0 = Some (replicate 32 66) /\
  StudentTuple.name_ <$> record_of clashed 0 = Some (replicate 32 65) /\
  record_of clashed 1 = record_of both_locked 1.
Proof.
  split; [exact both_locked_reachable|]. split; [exact clashed_reachable|].
  split; [vm_compute; reflexivity|]. split.
  { eexists _, _. split_and!; vm_compute; reflexivity. }
  split_and!; vm_compute; reflexivity.
Qed.
