(* ===== verification/Liveness.v ===== *)
(** * Waiting readers are served

    A read request tries eight times to get a record; between two tries the
    other transactions run.  If one of them gives up a lock in time, the read
    is granted. *)
From S2P Require Import Prelude Params Probe UniqueKey Ring Prog Locking Worker WorkerLogic.
From S2P Require Import Transaction Requests Reads.
From S2P Require StudentTuple StudentTable LockList CommitQueue Channels BufTable JobBuf.

(** ** One try *)

Lemma good_countable t O : Good t O -> shared_room t -> countable t.
Proof.
  intros HG Hs r Hr. split; [|by apply Hs].
  apply elem_of_omap in Hr as (i & e & Hi & He). unfold StudentTable.row in He.
  destruct (StudentTable.live_entry e) eqn:Hl; [|done]. injection He as <-.
  by destruct (StudentTable.wf_lock _ (good_wf _ _ HG) i e Hi Hl).
Qed.

(** A try times out only if no record admits the mode; otherwise the worker
    has one more claim. *)
Lemma good_acquire m t t' r O :
  Good t O -> shared_room t -> acquire m t = (t', r) ->
  (t' = t /\ r = Err TupleTableError_Timeout /\
   forall x, x ∈ StudentTable.rows t -> ~ available m x.2) \/
  exists i u, r = Ok i /\ StudentTable.search_slot t' i = Some u /\
    forall H, Good t H -> Good t' ((record_key (StudentTuple.key_ u), m, Some i) :: H).
Proof.
  intros HG Hs Ha.
  destruct (acquire_alone m t (good_wf _ _ HG) (good_countable _ _ HG Hs)) as [[E Hno]|Hyes].
  { rewrite E in Ha. injection Ha as <- <-. by left. }
  right. destruct Hyes as (i & u & l & rest & t2 & E & _). destruct m; cbn [acquire] in *.
  - destruct (good_wait_shared t t' r (good_wf _ _ HG) Hs Ha)
      as [[-> ->]|(i' & u' & Hr & Hu & _ & Hk)]; [by rewrite E in Ha|eauto].
  - destruct (good_wait_exclusive t t' r (good_wf _ _ HG) Ha)
      as [[-> ->]|(i' & u' & Hr & Hu & _ & Hk)]; [by rewrite E in Ha|eauto].
Qed.

(** The unfolded loop, for both modes. *)
Lemma retry_eq m f n p j :
  n < MAX_TIMEOUT_RETRY ->
  retry m (S f) n tbl_id_StudentTable p j =
    (r ← is_running;
     if negb r then
       reply ABORTED p 7 j ≫= fun _ => put_status TXN_ABORTED ≫= fun _ => job_pop
     else
       wait_r ← on_table (fun t => Ret (acquire m t));
       if negb (is_ok wait_r) then retry m f (n + 1) tbl_id_StudentTable p j
       else idx ← unwrap_ wait_r; after_acquire m p j idx).
Proof.
  intros Hn. apply Z.leb_gt in Hn. destruct m; cbn [retry shared_retry exclusive_retry];
    by rewrite Hn.
Qed.

(** The lock list takes the new lock: it is not full, and of the records the
    transaction holds only one held in shared mode can be granted again. *)
Definition list_ready (m : LockType) (w : Worker) : Prop :=
  LockList.size_ (lock_list_ w) < 16 /\
  (m = SHARED -> forall k, (k, SHARED) ∉ LockList.held (lock_list_ w)).

Section Served.
Context (m : LockType) (p : JobBuf.job_buf) (j : Channels.job).

Abbreviation wok := (ok core_of view_of Good room any_worker unchanged False False).

Lemma add_lock_granted c g k i t O :
  linv c g -> LockList.size_ (c_locks c) < 16 ->
  (m = SHARED -> forall k, (k, SHARED) ∉ LockList.held (c_locks c)) ->
  Good t (((k, m, Some i) :: g) ++ O) ->
  exists ll', LockList.add_lock (c_locks c) k m = Ret (ll', LockError_None) /\
    locks_ok ll' /\ LockList.held ll' ≡ₚ (k, m) :: LockList.held (c_locks c).
Proof.
  intros Hl Hsz Hsh HG. destruct (l_locks _ _ Hl) as [Hwf Hu].
  destruct (LockList.add_lock_cases (c_locks c) k m Hwf Hsz)
    as [(ll' & E & H1 & H2 & _ & H3)|[_ Hp]].
  - exists ll'. split_and!; [done| |done]. split; [done|]. by eapply keeps_unused_default.
  - exfalso. apply LockList.present_held in Hp as (m' & Hin).
    destruct (claims_of_elem _ _ _ Hin) as [rest Hr].
    simpl in HG. rewrite Permutation_middle in HG. apply (l_own _ _ Hl) in HG.
    rewrite Hr in HG. simpl in HG. rewrite <- Permutation_middle in HG.
    apply claims_exclude in HG as [-> Hm]. by apply (Hsh Hm k).
Qed.

(** What is left after a record was granted: the lock enters the list. *)
Lemma after_acquire_ok c g u i :
  linv c g -> c_status c = GROWING -> LockList.size_ (c_locks c) < 16 ->
  (m = SHARED -> forall k, (k, SHARED) ∉ LockList.held (c_locks c)) ->
  let k := record_key (StudentTuple.key_ u) in
  wok (idx ← unwrap_ (Ok i : Result nat TupleTableError); after_acquire m p j idx)
    (fun c' g' _ => linv c' g' /\ c_status c' = GROWING /\
       LockList.held (c_locks c') ≡ₚ (k, m) :: LockList.held (c_locks c))
    c ((k, m, Some i) :: g).
Proof.
  intros Hl Hs Hsz Hsh k. step. apply (wok_unwrap unchanged _ _ _ i); [reflexivity|].
  unfold after_acquire. step.
  apply read_record_ok. intros u2 Hu2. rewrite Hu2. step.
  apply (wok_locks unchanged _ _). intros t [O HG].
  destruct (add_lock_granted c g k i t O Hl Hsz Hsh HG) as (ll' & E & Hll' & Hh).
  change (record_key (tuple_key_ k)) with k. rewrite E.
  assert (Hq : linv (mkCore ll' (c_queue c) (c_status c)) ((k, m, Some i) :: g)).
  { apply (linv_locks c g ll' Hl Hll' Hs).
    eapply entails_trans; [apply entails_unpin, (l_own _ _ Hl)|].
    apply entails_perm. unfold claims_of. by rewrite Hh. }
  destruct m; cbn [bool_decide negb]; go; by apply send_record_ok.
Qed.

Context (env : nat -> shared -> Worker -> shared * Worker) (others : nat -> list claim).
Context (Hf : friendly core_of view_of Good env others).
Context (Hrun : forall n s w, running_ (env n s w).2 = running_ w).

(** What holds of the worker while it waits. *)
Record waiting (n : nat) (s : shared) (w : Worker) : Prop := {
  w_sound : sound_among (others n) s w;
  w_growing : status_ w = GROWING;
  w_running : running_ w = true;
  w_list : list_ready m w
}.

Lemma waiting_env n s w :
  waiting n s w -> waiting (n + 1) (env n s w).1 (env n s w).2 /\
    core_of (env n s w).2 = core_of w.
Proof.
  intros [(g & Hl & HG) Hst Hr Hli]. destruct (Hf n s w) as [Hc Hg].
  pose proof Hc as [= E1 E2 E3]. split; [|done]. split.
  - exists g. rewrite Hc. split; [done|by apply Hg].
  - congruence.
  - by rewrite Hrun.
  - unfold list_ready. by rewrite E1.
Qed.

Definition served (w : Worker) (o : outcome (nat * shared * Worker * unit)) : Prop :=
  exists n' s' w' k, o = Ret (n', s', w', tt) /\ sound_among (others n') s' w' /\
    status_ w' = GROWING /\
    LockList.held (lock_list_ w') ≡ₚ (record_key k, m) :: LockList.held (lock_list_ w).

(** From the grant on. *)
Lemma granted_served n i u s t' w :
  let rest := idx ← unwrap_ (Ok i : Result nat TupleTableError); after_acquire m p j idx in
  waiting n s w ->
  (forall H, Good (view_of s) H -> Good t' ((record_key (StudentTuple.key_ u), m, Some i) :: H)) ->
  roomy view_of room any_worker env n rest (set_students s t') w ->
  served w (run env n rest (set_students s t') w).
Proof.
  intros rest [(g & Hl & HG) Hst Hr [Hsz Hsh]] Hgrant Hroom.
  set (k := record_key (StudentTuple.key_ u)) in *.
  pose proof (run_ok core_of view_of Good room any_worker unchanged False False _ _
    env others n (set_students s t') w ((k, m, Some i) :: g) _ Hf
    (after_acquire_ok (core_of w) g u i Hl Hst Hsz Hsh) Hroom (Hgrant _ HG)) as H.
  fold rest in H. destruct (run env n rest _ w) as [[[[n' s'] w'] []]| |]; [|done..].
  destruct H as (g' & (Hl' & Hs' & Hh) & HG' & _).
  exists n', s', w', (StudentTuple.key_ u). split_and!; [done| |done|done]. by exists g'.
Qed.

Lemma set_same_students s : set_students s (view_of s) = s.
Proof. by destruct s as [[? ? ?] ?]. Qed.

(** The loop, when the try after [d] time-outs finds a record. *)
Lemma retry_served f cnt d n s w :
  waiting n s w -> 0 <= cnt -> cnt + Z.of_nat d < MAX_TIMEOUT_RETRY -> (d < f)%nat ->
  (forall s w, sound_among (others (n + 2 * d + 1)) s w ->
     exists x, x ∈ StudentTable.rows (view_of (env (n + 2 * d + 1) s w).1) /\ available m x.2) ->
  roomy view_of room any_worker env n (retry m f cnt tbl_id_StudentTable p j) s w ->
  served w (run env n (retry m f cnt tbl_id_StudentTable p j) s w).
Proof.
  revert cnt d n s w. induction f as [|f IH]; intros cnt d n s w Hw H0 Hd Hdf Hav Hroom; [lia|].
  destruct (waiting_env n s w Hw) as [Hw1 Hc1].
  rewrite retry_eq in Hroom |- * by lia. unfold is_running in Hroom |- *.
  rewrite (run_first env n _ _ s _ w _ (surjective_pairing _)).
  apply (roomy_first _ _ _ _ _ _ _ _ (surjective_pairing _)) in Hroom as (_ & _ & Hroom).
  set (s1 := (env n s w).1) in *. set (w1 := (env n s w).2) in *.
  rewrite (w_running _ _ _ Hw1) in Hroom |- *. cbn [negb] in Hroom |- *.
  destruct (waiting_env (n + 1) s1 w1 Hw1) as [Hw2 Hc2]. unfold on_table in Hroom |- *.
  rewrite (run_first env (n + 1) _ _ s1 _ w1 _ (surjective_pairing _)).
  apply (roomy_first _ _ _ _ _ _ _ _ (surjective_pairing _)) in Hroom as ([Hsh _] & _ & Hroom).
  assert (Hheld : forall w2 o, core_of w2 = core_of w1 -> served w2 o -> served w o).
  { intros w2 o E (n' & s' & w' & k & H1 & H2 & H3 & H4). exists n', s', w', k.
    split_and!; [done..|]. rewrite Hc1 in E. injection E as E _ _. by rewrite <- E. }
  set (s2 := (env (n + 1) s1 w1).1) in *. set (w2 := (env (n + 1) s1 w1).2) in *.
  destruct Hw2 as [Hso2 Hg2 Hr2 Hl2] eqn:Ew. pose proof Hso2 as (g2 & _ & HG2).
  destruct (acquire m (students_ (db_ s2))) as [t' r] eqn:Ha.
  rewrite (outcome_bind_ret (t', r)) in Hroom |- *.
  destruct (good_acquire m _ _ _ _ HG2 Hsh Ha) as [(-> & -> & Hno)|(i & u & -> & _ & Hgrant)].
  - rewrite is_ok_Err in Hroom |- * by done. cbn [negb] in Hroom |- *.
    change (students_ (db_ s2)) with (view_of s2) in Hroom |- *. rewrite set_same_students in Hroom |- *.
    destruct d as [|d].
    { exfalso. destruct (Hav s1 w1) as (x & Hx & Hm).
      - replace (n + 2 * 0 + 1)%nat with (n + 1)%nat by lia. apply Hw1.
      - replace (n + 2 * 0 + 1)%nat with (n + 1)%nat in Hx by lia. by apply (Hno x). }
    apply (Hheld w2 _ Hc2). apply (IH (cnt + 1) d); [done|lia|lia|lia| |done].
    replace (n + 1 + 1 + 2 * d + 1)%nat with (n + 2 * S d + 1)%nat by lia. exact Hav.
  - rewrite is_ok_Ok in Hroom |- *. cbn [negb] in Hroom |- *.
    apply (Hheld w2 _ Hc2). by apply (granted_served _ i u).
Qed.
End Served.

(** ** Property *)

(** C31.  A waiting read is served.  A growing transaction in a sound state waits
    for a record; its lock list is not full and, if the read is a shared one,
    holds no shared lock (a record that it has already could be granted again, and
    the list would refuse it).  Other threads run, acquire and release as they
    like, as long as they respect its locks and nobody stops it; at every action
    no record has 127 shared holders and the next key is not in use.  If in the
    try after [d] < 8 time-outs they leave it some record that admits the mode,
    the request comes to an end with one more lock in the transaction's list, and
    the transaction is still growing and in a sound state: it does not starve on
    locks that are given up in time. *)
Theorem waiting_read_served m p j env others d n s w :
  friendly core_of view_of Good env others ->
  (forall n s w, running_ (env n s w).2 = running_ w) ->
  sound_among (others n) s w -> status_ w = GROWING -> running_ w = true -> list_ready m w ->
  (d < 8)%nat ->
  (forall s w, sound_among (others (n + 2 * d + 1)%nat) s w ->
     exists x, x ∈ StudentTable.rows (view_of (env (n + 2 * d + 1)%nat s w).1) /\ available m x.2) ->
  roomy view_of room any_worker env n (retry m RETRY_FUEL 0 tbl_id_StudentTable p j) s w ->
  exists n' s' w' k,
    run env n (retry m RETRY_FUEL 0 tbl_id_StudentTable p j) s w = Ret (n', s', w', tt) /\
    sound_among (others n') s' w' /\ status_ w' = GROWING /\
    LockList.held (lock_list_ w') ≡ₚ (record_key k, m) :: LockList.held (lock_list_ w).
Proof.
  intros Hf Hrun Hso Hg Hr Hl Hd Hav Hroom.
  apply (retry_served m p j env others Hf Hrun RETRY_FUEL 0 d); [by split|lia| | |done|done].
  - unfold MAX_TIMEOUT_RETRY. lia.
  - change RETRY_FUEL with 9%nat. lia.
Qed.

(** ** Witness

    The only record is locked exclusively by another transaction, which
    releases it while the reader waits for the second time. *)

Definition owner_claim : claim := (record_key 0, EXCLUSIVE, None).
Definition owner (n : nat) : list claim := if (n <=? 3)%nat then [owner_claim] else [].

Definition owner_releases (n : nat) (s : shared) (w : Worker) : shared * Worker :=
  if (n =? 3)%nat then
    match StudentTable.release_ (view_of s) 0 with
    | Ret t => (set_students s t, w)
    | _ => (s, w)
    end
  else (s, w).

Definition table1_locked : StudentTable.StudentTable := (acquire EXCLUSIVE StudentTable.table1).1.
Definition locked_out : shared * Worker := (set_students start0.1 table1_locked, start0.2).

Lemma owner_releases_friendly : friendly core_of view_of Good owner_releases owner.
Proof.
  intros n s w. unfold owner_releases, owner. destruct (Nat.eqb_spec n 3) as [->|Hn].
  - destruct (StudentTable.release_ (view_of s) 0) as [t| |] eqn:E.
    1: { split; [done|]. intros g HG. simpl in HG. rewrite app_nil_r.
      rewrite Permutation_app_comm in HG.
      destruct (good_release _ _ _ _ _ HG) as (t' & E' & _ & Hk). simpl in E'.
      rewrite E in E'. injection E' as <-. by apply Hk. }
    all: split; [done|]; intros g HG; simpl in HG; rewrite Permutation_app_comm in HG;
      destruct (good_release _ _ _ _ _ HG) as (t' & E' & _); simpl in E'; congruence.
  - split; [done|]. intros g HG. simpl.
    assert ((n + 1 <=? 3)%nat = (n <=? 3)%nat) as ->; [|done].
    destruct (Nat.leb_spec (n + 1) 3), (Nat.leb_spec n 3); lia.
Qed.

Lemma owner_leaves s w :
  sound_among (owner 3) s w -> exists x,
    x ∈ StudentTable.rows (view_of (owner_releases 3 s w).1) /\ available SHARED x.2.
Proof.
  intros (g & _ & HG). simpl in HG. rewrite Permutation_app_comm in HG. simpl in HG.
  destruct (claim_row _ _ _ _ _ HG) as (i & e & Hh & _ & Hm). simpl in Hh.
  destruct (StudentTable.release_holder _ _ i e (good_wf _ _ HG) Hh) as (t' & rest & E & _ & _ & _ & Hr);
    [lia|].
  unfold owner_releases. simpl. rewrite E. exists (StudentTable.tuple_ e, 0).
  change (view_of (set_students s t', w).1) with t'. rewrite Hr, Hm. split; [left|simpl; lia].
Qed.

Lemma locked_out_sound : sound_among (owner 0) locked_out.1 locked_out.2.
Proof.
  destruct start0_sound as (g & _ & O & HG).
  assert (HG0 : Good StudentTable.table1 []).
  { destruct HG as [H1 H2 _ _]. split; [done..|constructor|].
    intros r Hr. split; intros ?; simpl; lia. }
  exists []. split; [apply linv_start|].
  destruct (good_acquire EXCLUSIVE _ table1_locked (Ok 0%nat) _ HG0)
    as [(_ & [=] & _)|(i & u & [= <-] & Hu & Hk)].
  - intros x Hx. assert (E : StudentTable.rows StudentTable.table1 =
      [(StudentTable.with_key StudentTable.bob 0, 0)]) by (vm_compute; reflexivity).
    rewrite E in Hx. apply list_elem_of_singleton in Hx as ->. simpl. lia.
  - unfold table1_locked. apply injective_projections; [reflexivity|vm_compute; reflexivity].
  - change (view_of locked_out.1) with table1_locked.
    assert (E : StudentTable.search_slot table1_locked 0 =
      Some (StudentTable.with_key StudentTable.bob 0)) by (vm_compute; reflexivity).
    rewrite E in Hu. injection Hu as <-. by apply Hk, Good_unpin in HG0.
Qed.

Lemma waiting_read_served_witness :
  exists n' s' w' k,
    run owner_releases 0 (retry SHARED RETRY_FUEL 0 tbl_id_StudentTable parser_r job_r)
      locked_out.1 locked_out.2 = Ret (n', s', w', tt) /\
    LockList.held (lock_list_ w') ≡ₚ [(record_key k, SHARED)].
Proof.
  destruct (waiting_read_served SHARED parser_r job_r owner_releases owner 1 0 locked_out.1 locked_out.2)
    as (n' & s' & w' & k & H1 & _ & _ & H2).
  - apply owner_releases_friendly.
  - intros n s w. unfold owner_releases. destruct (n =? 3)%nat; [|reflexivity].
    destruct (StudentTable.release_ _ _); reflexivity.
  - apply locked_out_sound.
  - reflexivity.
  - reflexivity.
  - split; [vm_compute; reflexivity|]. intros _ k Hk. vm_compute in Hk. inversion Hk.
  - lia.
  - apply owner_leaves.
  - apply (roomyb_roomy view_of room any_worker roomb (fun _ => true)); [apply roomb_room|done|].
    vm_compute. reflexivity.
  - exists n', s', w', k. split; [exact H1|exact H2].
Defined.
