(* ===== verification/Server.v ===== *)
(** * The whole server

    The socket thread ([Serve]) and the worker threads ([Worker]) as one
    transition system over one shared state: one atomic action of one thread
    at a time.  The logic of [Counted] gives its invariant: the count of every
    buffer is the number of references to it, wherever they are, and what is
    stored keeps its type. *)
From S2P Require Import Prelude Params Probe BufTable Ring Prog Counted Typing References Serve.
From S2P Require Bytes JobBuf CommitQueue Channels Worker WorkerTable ThreadManager.

(** ** Steps *)

Record server := mkServer {
  world_ : world;
  socket_ : socket;
  prog_ : mprog stage
}.

(** A worker's action, in its context. *)
Definition store_back (W : world) (i : nat) (t : thread) (s : Worker.shared) (w : Worker.Worker)
    (ph : phase) : world :=
  mkWorld s
    (alter_entry (contexts_ W) (slot_ t) (on_context (fun c =>
       WorkerTable.mkContext (Worker.job_ch_ w) (WorkerTable.txn_id_ c) (Worker.running_ w)
         (WorkerTable.joinable_ c))))
    (<[i := mkThread (slot_ t) w ph]> (threads_ W)).

Definition set_phase (W : world) (i : nat) (t : thread) (ph : phase) : world :=
  set_threads W (<[i := mkThread (slot_ t) (worker_ t) ph]> (threads_ W)).

(** The members of [~Worker] that hold references, the last first. *)
Definition worker_left (w : Worker.Worker) : list buf_ref := rev (commit_refs w).

(** What the socket hands over fits a buffer. *)
Definition delivered (m : ThreadManager.received) : Prop :=
  match m with
  | ThreadManager.Message bytes _ => Z.of_nat (length bytes) <= BUFFER_WIDTH /\ Forall is_byte bytes
  | _ => True
  end.

Inductive server_step : server -> server -> Prop :=
  (** The socket thread: an action, a new turn, the end of the loop. *)
  | socket_act W m B (f : world -> socket -> outcome (world * socket * B)) k W' m' b :
      f W m = Ret (W', m', b) ->
      server_step (mkServer W m (Act f k)) (mkServer W' m' (k b))
  | socket_turn W m fuel r :
      flag_ m = true -> delivered r ->
      server_step (mkServer W m (Done Next)) (mkServer W m (turn fuel r))
  | socket_break W m : server_step (mkServer W m (Done Break)) (mkServer W m closing)
  | socket_stopped W m :
      flag_ m = false ->
      server_step (mkServer W m (Done Next))
        (mkServer W (mkSocket true (next_txn_id m) (sent_ m)) closing)
  (** [stop_()], called by another thread. *)
  | server_stop W m p :
      server_step (mkServer W m p) (mkServer W (mkSocket false (next_txn_id m) (sent_ m)) p)
  (** A worker: an action, a new turn (what a destroyed entry still holds is
      open in each), the destructor. *)
  | worker_act W m p i t B (f : Worker.shared -> Worker.Worker -> outcome (Worker.shared * Worker.Worker * B))
      k s w b :
      threads_ W !! i = Some t -> phase_ t = Running (Act f k) ->
      f (shared_ W) (load W t) = Ret (s, w, b) ->
      server_step (mkServer W m p) (mkServer (store_back W i t s w (Running (k b))) m p)
  | worker_turn W m p i t (mem : Worker.expiry) :
      threads_ W !! i = Some t -> phase_ t = Running (Done false) ->
      server_step (mkServer W m p) (mkServer (set_phase W i t (Running Worker.iteration)) m p)
  | worker_end W m p i t :
      threads_ W !! i = Some t -> phase_ t = Running (Done true) ->
      server_step (mkServer W m p) (mkServer (set_phase W i t (Leaving (worker_left (worker_ t)))) m p)
  | worker_leave W m p i t r rest :
      threads_ W !! i = Some t -> phase_ t = Leaving (r :: rest) ->
      server_step (mkServer W m p)
        (mkServer (set_phase (set_pool W (ref_destroy (pool_of W) r).1) i t (Leaving rest)) m p).

(** Before the first message: no worker, an empty pool and an empty table. *)
Definition world_start : world :=
  mkWorld (Worker.mkShared (Worker.mkDatabase StudentTable.table_default 0 buf_table_default)
             (Channels.ret_channel_make 0)) WorkerTable.table_default [].
Definition server_start : server := mkServer world_start (mkSocket true 0 []) (Done Next).

Definition server_reachable (v : server) : Prop := rtc server_step server_start v.

(** ** Where the references are *)

Definition channel_refs (t : WorkerTable.WorkerTable) : list buf_ref :=
  mjoin ((fun e => slot_refs (WorkerTable.job_ch_ (WorkerTable.context_ e))) <$> WorkerTable.table_ t).

(** In the commit queue of a thread, or what is left of it. *)
Definition thread_refs (t : thread) : list buf_ref :=
  match phase_ t with
  | Running _ => commit_refs (worker_ t)
  | Leaving rest => rest
  | Joined => []
  end.

Definition object_refs (W : world) : list buf_ref :=
  channel_refs (contexts_ W) ++ mjoin (thread_refs <$> threads_ W).
Definition own_refs (W : world) (m : socket) : list buf_ref := object_refs W.

(** ** Shape *)

Definition active_slots (ts : list thread) : list nat :=
  omap (fun t => if active t then Some (slot_ t) else None) ts.

Definition thread_shape (t : thread) : Prop :=
  match phase_ t with
  | Running _ => commits_sized (Worker.commit_queue_ (worker_ t))
  | Leaving rest => (length rest <= CommitQueue.N)%nat
  | Joined => True
  end.

(** Every thread that is not joined is the thread of one context. *)
Record world_shape (W : world) (m : socket) : Prop := {
  sh_typed : typed (shared_ W);
  sh_rows : length (WorkerTable.table_ (contexts_ W)) = WorkerTable.Rows;
  sh_channels : Forall (fun e => sized (WorkerTable.job_ch_ (WorkerTable.context_ e)))
    (WorkerTable.table_ (contexts_ W));
  sh_threads : Forall thread_shape (threads_ W);
  sh_slots : NoDup (active_slots (threads_ W));
  sh_joinable : forall i, i ∈ active_slots (threads_ W) ->
    (i < WorkerTable.Rows)%nat /\ WorkerTable.joinable_ (context_at W i) = true
}.

(** What the socket thread may do to the workers: the records stay, and a
    thread is started or joined. *)
Definition bare (w : Worker.Worker) : Worker.Worker :=
  Worker.set_running (Worker.set_job_ch w Channels.job_channel_default) false.
Definition same_thread (t t' : thread) : Prop :=
  t' = t \/ slot_ t' = slot_ t /\ bare (worker_ t') = bare (worker_ t) /\
    phase_ t = Leaving [] /\ phase_ t' = Joined.

Record socket_change (W W' : world) : Prop := {
  ch_table : Worker.students_ (Worker.db_ (shared_ W')) = Worker.students_ (Worker.db_ (shared_ W));
  ch_tick : Worker.tickstamp_ (Worker.db_ (shared_ W')) = Worker.tickstamp_ (Worker.db_ (shared_ W));
  ch_threads : Forall2 same_thread (threads_ W) (threads_ W') \/
    exists i r ch id, threads_ W' =
      threads_ W ++ [mkThread i (Worker.worker_make r ch id) (Running (Done false))]
}.

Abbreviation mcounted := (counted pool_of own_refs world_shape socket_change).
Abbreviation mafter := (after pool_of own_refs world_shape socket_change).
Abbreviation mcounts := (counts pool_of own_refs).

#[export] Instance same_thread_refl : Reflexive same_thread.
Proof. intros t. by left. Qed.
#[export] Instance socket_change_refl : Reflexive socket_change.
Proof. intros W. split; [done..|]. left. reflexivity. Qed.

(** ** Shape lemmas *)

Abbreviation chan e := (WorkerTable.job_ch_ (WorkerTable.context_ e)).

Lemma channel_split t idx e :
  WorkerTable.table_ t !! idx = Some e -> exists O,
    channel_refs t ≡ₚ slot_refs (chan e) ++ O /\
    forall f n, channel_refs (WorkerTable.mkTable (alter f idx (WorkerTable.table_ t)) n) ≡ₚ
      slot_refs (chan (f e)) ++ O.
Proof.
  intros He. destruct (mjoin_split ((fun e => slot_refs (chan e)) <$> WorkerTable.table_ t) idx
    (slot_refs (chan e))) as (O & H1 & H2); [by rewrite list_lookup_fmap, He|].
  exists O. split; [done|]. intros f n. unfold channel_refs. cbn [WorkerTable.table_].
  rewrite (insert_alter _ _ idx e) by done. by rewrite list_fmap_insert.
Qed.

Lemma channel_refs_keep t idx f n :
  (forall e, WorkerTable.table_ t !! idx = Some e -> slot_refs (chan (f e)) = slot_refs (chan e)) ->
  channel_refs (WorkerTable.mkTable (alter f idx (WorkerTable.table_ t)) n) = channel_refs t.
Proof.
  intros Hf. unfold channel_refs. cbn [WorkerTable.table_]. f_equal. apply list_eq. intros i.
  rewrite !list_lookup_fmap. destruct (decide (i = idx)) as [->|Hne].
  - rewrite list_lookup_alter_eq. destruct (WorkerTable.table_ t !! idx) as [e|] eqn:He; simpl; [|done].
    f_equal. by apply Hf.
  - by rewrite list_lookup_alter_ne.
Qed.

Lemma context_at_lookup W i e :
  WorkerTable.table_ (contexts_ W) !! i = Some e -> context_at W i = WorkerTable.context_ e.
Proof. intros He. unfold context_at. by rewrite He. Qed.

Lemma context_alter W s ts idx f i n :
  (forall e, WorkerTable.joinable_ (WorkerTable.context_ (f e)) =
     WorkerTable.joinable_ (WorkerTable.context_ e)) ->
  WorkerTable.joinable_ (context_at (mkWorld s (WorkerTable.mkTable
    (alter f idx (WorkerTable.table_ (contexts_ W))) n) ts) i) =
  WorkerTable.joinable_ (context_at W i).
Proof.
  intros Hf. unfold context_at. cbn [contexts_ WorkerTable.table_].
  destruct (decide (i = idx)) as [->|Hne].
  - rewrite list_lookup_alter_eq. by destruct (WorkerTable.table_ (contexts_ W) !! idx) as [e|]; simpl.
  - by rewrite list_lookup_alter_ne.
Qed.

(** Writing an entry keeps the shape. *)
Lemma shape_entry W m m' s idx f n :
  world_shape W m -> typed s ->
  (forall e, WorkerTable.table_ (contexts_ W) !! idx = Some e -> sized (chan e) -> sized (chan (f e))) ->
  (forall e, WorkerTable.joinable_ (WorkerTable.context_ (f e)) =
     WorkerTable.joinable_ (WorkerTable.context_ e)) ->
  world_shape (mkWorld s (WorkerTable.mkTable (alter f idx (WorkerTable.table_ (contexts_ W))) n)
    (threads_ W)) m'.
Proof.
  intros [Ht Hr Hc Hth Hn Hj] Hs Hf Hjf. split; cbn [shared_ contexts_ threads_ WorkerTable.table_]; try done.
  - by rewrite list.length_alter.
  - apply Forall_alter; [done|]. intros e He. by apply Hf.
  - intros i Hi. rewrite context_alter by done. by apply Hj.
Qed.

Lemma world_shape_pool W m m' s c :
  world_shape W m -> typed s -> c = contexts_ W -> world_shape (mkWorld s c (threads_ W)) m'.
Proof. intros [Ht Hr Hc Hth Hn Hj] Hs ->. by split. Qed.

Lemma typed_set_pool W m T : world_shape W m -> pool_typed T -> typed (shared_ (set_pool W T)).
Proof. intros [[_ Ht] _ _ _ _ _] HT. by split. Qed.

(** ** How many references there are *)

Lemma active_bound W m : world_shape W m -> (length (active_slots (threads_ W)) <= WorkerTable.Rows)%nat.
Proof.
  intros Hs. transitivity (length (seq 0 WorkerTable.Rows)); [|by rewrite length_seq].
  apply submseteq_length, NoDup_submseteq.
  - apply (sh_slots _ _ Hs).
  - intros i Hi. apply elem_of_seq. pose proof (sh_joinable _ _ Hs i Hi) as [H _]. lia.
Qed.

(** At most [k] for each thread that is not joined. *)
Lemma per_thread {A} (P : thread -> list A -> Prop) k ts gs :
  (forall t g, P t g -> (length g <= if active t then k else 0)%nat) ->
  Forall2 P ts gs -> (length (mjoin gs) <= k * length (active_slots ts))%nat.
Proof.
  intros HP. induction 1 as [|t g ts gs Hg _ IH]; [simpl; lia|]. specialize (HP t g Hg).
  unfold active_slots in *. csimpl. rewrite length_app. destruct (active t); simpl; lia.
Qed.

Lemma thread_refs_bound W m :
  world_shape W m -> (length (mjoin (thread_refs <$> threads_ W)) <= 1024)%nat.
Proof.
  intros Hs. pose proof (active_bound W m Hs) as Ha.
  pose proof (per_thread (fun t g => g = thread_refs t /\ thread_shape t) 16 (threads_ W)
    (thread_refs <$> threads_ W)) as H.
  change WorkerTable.Rows with 64%nat in Ha. transitivity (16 * length (active_slots (threads_ W)))%nat; [|lia].
  apply H.
  - intros t g [-> Ht]. unfold thread_refs, thread_shape, active, commit_refs in *.
    destruct (phase_ t); simpl; [|done|lia]. rewrite length_fmap, (cs_length _ Ht). done.
  - apply Forall2_fmap_r, Forall_Forall2_diag. apply list.Forall_forall. intros t Ht. split; [done|].
    by apply (proj1 (list.Forall_forall _ _) (sh_threads _ _ Hs)).
Qed.

Lemma channel_refs_bound W m : world_shape W m -> (length (channel_refs (contexts_ W)) <= 1024)%nat.
Proof.
  intros Hs. pose proof (sh_rows _ _ Hs) as Hr. pose proof (sh_channels _ _ Hs) as Hc.
  transitivity (16 * length (WorkerTable.table_ (contexts_ W)))%nat;
    [|rewrite Hr; change WorkerTable.Rows with 64%nat; lia].
  clear Hr. unfold channel_refs. induction Hc as [|e l He Hl IH]; [simpl; lia|].
  assert (H : length (slot_refs (chan e)) = 16%nat) by (simpl; by rewrite length_fmap, (sz_jobs _ He)).
  rewrite fmap_cons, mjoin_cons, length_app. cbn [length]. lia.
Qed.

Lemma world_own_small : small own_refs world_shape.
Proof.
  intros W m Hs. unfold own_refs, object_refs. rewrite length_app.
  pose proof (thread_refs_bound W m Hs). pose proof (channel_refs_bound W m Hs).
  unfold OBJECTS. lia.
Qed.

(** ** The actions of the socket thread *)

(** Nothing but the pool and the return channel changes. *)
Lemma change_pool W s :
  Worker.students_ (Worker.db_ s) = Worker.students_ (Worker.db_ (shared_ W)) ->
  Worker.tickstamp_ (Worker.db_ s) = Worker.tickstamp_ (Worker.db_ (shared_ W)) ->
  forall c, socket_change W (mkWorld s c (threads_ W)).
Proof. intros H1 H2 c. split; [done..|]. left. simpl. reflexivity. Qed.

Section SocketRules.
Context {B : Type}.
Implicit Types (Q : list buf_ref -> B -> Prop) (g : list buf_ref).

Lemma mc_pool (f : buf_table -> outcome (buf_table * B)) Q g :
  (forall T, pool_typed T ->
    match f T with
    | Ret (T', b) => pool_typed T' /\ (forall refs, pool_wf T refs -> pool_wf T' refs) /\ Q g b
    | _ => True
    end) -> mcounted (on_pool f) Q g.
Proof.
  intros Hf W m Hs Hg _. specialize (Hf (pool_of W) (proj1 (sh_typed _ _ Hs))).
  destruct (f (pool_of W)) as [[T b]| |]; [|done..]. destruct Hf as (HT & Hp & HQ). simpl.
  exists g. split; [|done]. apply after_same; [|by apply change_pool|done..].
  apply (world_shape_pool W m); [done| |done]. by eapply typed_set_pool.
Qed.

Lemma mc_read (f : buf_table -> B) Q g : (forall b, Q g b) -> mcounted (read_pool f) Q g.
Proof. intros HQ. by apply mc_pool. Qed.

Lemma mc_rets f Q g : (forall b, Q g b) -> mcounted (on_rets f) Q g.
Proof.
  intros HQ W m Hs Hg _. destruct (f _) as [[c b]| |]; [|done..]. simpl. exists g. split; [|done].
  apply after_same; [|by apply change_pool|done..].
  by apply (world_shape_pool W m); [done|apply (sh_typed _ _ Hs)|].
Qed.

Lemma mc_unwrap {E} (r : Result B E) Q g :
  (forall a, value_ r = Some a -> Q g a) -> mcounted (unwrap_ r) Q g.
Proof.
  intros HQ W m Hs Hg _. unfold unwrap. destruct (value_ r) as [a|] eqn:E1; [|done]. simpl.
  exists g. split; [|by apply HQ]. by apply after_same.
Qed.

(** A look at the table of workers. *)
Lemma mc_look (f : WorkerTable.WorkerTable -> outcome (WorkerTable.WorkerTable * B)) Q g :
  (forall t t' b, length (WorkerTable.table_ t) = WorkerTable.Rows -> f t = Ret (t', b) ->
     t' = t /\ Q g b) -> mcounted (on_contexts f) Q g.
Proof.
  intros Hf W m Hs Hg _. destruct (f (contexts_ W)) as [[t b]| |] eqn:E; [|done..]. simpl.
  destruct (Hf _ _ _ (sh_rows _ _ Hs) E) as [-> HQ]. exists g. split; [|done].
  apply after_same; [|by apply change_pool|done..].
  by apply (world_shape_pool W m); [done|apply (sh_typed _ _ Hs)|].
Qed.
End SocketRules.

Section SocketMoves.
Implicit Types (g : list buf_ref).

Lemma mc_done {A} (a : A) (Q : list buf_ref -> A -> Prop) g : Q g a -> mcounted (Done a) Q g.
Proof. done. Qed.

Lemma mc_answer a p c n (Q : _ -> _ -> Prop) g : Q g tt -> mcounted (answer a p c n) Q g.
Proof.
  intros HQ W m Hs Hg _. exists g. split; [|done].
  apply after_same; [|by apply change_pool|done..|intros refs; apply store_wf].
  apply (world_shape_pool W m); [done| |done]. eapply typed_set_pool; [done|].
  apply set_field_typed; [apply (sh_typed _ _ Hs)|lia].
Qed.

Lemma mc_next_id (Q : _ -> _ -> Prop) g :
  (forall n, Q g n) -> mcounted (act (fun W m => Ret (W, m, next_txn_id m))) Q g.
Proof. intros HQ W m Hs Hg _. exists g. split; [|apply HQ]. by apply after_same. Qed.

Lemma mc_put_id (Q : _ -> _ -> Prop) g :
  Q g tt -> mcounted (act (fun W m =>
    Ret (W, mkSocket (flag_ m) (u32 (next_txn_id m + 1)) (sent_ m), tt))) Q g.
Proof.
  intros HQ W m Hs Hg _. exists g. split; [|done]. apply after_same; [|done..].
  destruct W as [s c ts]. by apply (world_shape_pool (mkWorld s c ts) m); [done|apply (sh_typed _ _ Hs)|].
Qed.

Lemma mc_empty idx (Q : _ -> _ -> Prop) g : (forall b, Q g b) -> mcounted (context_empty idx) Q g.
Proof. intros HQ W m Hs Hg _. exists g. split; [|apply HQ]. by apply after_same. Qed.

Lemma mc_retain r (Q : _ -> _ -> Prop) g :
  (length g < LOCALS)%nat -> r = None \/ r ∈ g -> Q (r :: g) r -> mcounted (retain r) Q g.
Proof.
  intros Hlt Hr HQ W m Hs _ _.
  assert (E : ref_copy (pool_of W) r = ((ref_copy (pool_of W) r).1, r)) by by destruct r.
  unfold retain, on_pool. cbn [act counted]. rewrite E. simpl. exists (r :: g). split; [|done].
  apply after_retain; [apply world_own_small|done| |by apply change_pool|done..| |done].
  - apply (world_shape_pool W m); [done| |done]. eapply typed_set_pool; [done|].
    apply ref_copy_typed, (sh_typed _ _ Hs).
  - destruct Hr; [by left|right]. apply elem_of_app. by right.
Qed.

Lemma mc_drop r (Q : _ -> _ -> Prop) g : Q g tt -> mcounted (drop_ref r) Q (r :: g).
Proof.
  intros HQ W m Hs Hg _. exists g. split; [|done]. apply after_drop; [|by apply change_pool|done..].
  apply (world_shape_pool W m); [done| |done]. eapply typed_set_pool; [done|].
  apply ref_destroy_typed, (sh_typed _ _ Hs).
Qed.

Lemma mc_request (Q : _ -> _ -> Prop) g :
  (length g < LOCALS)%nat -> (forall i, Q (Some i :: g) (Ok (Some i))) ->
  Q g (Err BufferError_Full) -> mcounted (on_pool request) Q g.
Proof.
  intros Hlt HQ HE W m Hs Hg (R & Hf & HR).
  assert (Hc : forall R, fits R -> mcounts W m g R ->
    (size_ (pool_of W) = 64 /\ request (pool_of W) = Ret (pool_of W, Err BufferError_Full)) \/
    ((size_ (pool_of W) < 64) /\ exists T' i, request (pool_of W) = Ret (T', Ok (Some i)) /\
      (i < ROWS)%nat /\ cnt (points_to i) (own_refs W m ++ g ++ R) = 0 /\
      pool_wf T' (Some i :: own_refs W m ++ g ++ R))).
  { intros R0 Hf0 HR0. apply request_cases; [done|].
    pose proof (small_counts _ _ W m g R0 world_own_small Hs Hg Hf0). lia. }
  pose proof (sh_typed _ _ Hs) as [HT _].
  destruct (Hc R Hf HR) as [[_ E]|(_ & T & i & E & _ & _ & _)].
  - unfold on_pool. cbn [act counted]. rewrite E. simpl. exists g. split; [|done].
    apply after_same; [|by apply change_pool|done..].
    apply (world_shape_pool W m); [done| |done]. by eapply typed_set_pool.
  - unfold on_pool. cbn [act counted]. rewrite E. simpl. exists (Some i :: g).
    split; [|done]. split; [|by apply change_pool|simpl; lia|].
    + apply (world_shape_pool W m); [done| |done]. eapply typed_set_pool; [done|]. by eapply request_typed.
    + intros R0 Hf0 HR0. destruct (Hc R0 Hf0 HR0) as [[_ E0]|(_ & T0 & i0 & E0 & _ & _ & Hw)];
        rewrite E in E0; [done|]. simplify_eq. unfold counts. simpl.
      by rewrite <- Permutation_middle.
Qed.
End SocketMoves.

(** ** Entries of the worker table *)

Section Entries.
Implicit Types (g : list buf_ref).

(** An entry changes, its channel and its thread do not. *)
Lemma mc_entry idx f n (Q : _ -> _ -> Prop) g :
  (forall e, chan (f e) = chan e) ->
  (forall e, WorkerTable.joinable_ (WorkerTable.context_ (f e)) =
     WorkerTable.joinable_ (WorkerTable.context_ e)) -> Q g tt ->
  mcounted (on_contexts (fun t => Ret (WorkerTable.mkTable (alter f idx (WorkerTable.table_ t)) (n t), tt)))
    Q g.
Proof.
  intros Hc Hj HQ W m Hs Hg _. exists g. split; [|done].
  apply after_same; [|by apply change_pool| |done|done].
  - apply (shape_entry W m); [done|apply (sh_typed _ _ Hs)| |done]. intros e _. by rewrite Hc.
  - unfold own_refs, object_refs. simpl. f_equal. apply channel_refs_keep. intros e _. by rewrite Hc.
Qed.

Lemma mc_stop idx (Q : _ -> _ -> Prop) g : Q g tt -> mcounted (context_stop idx) Q g.
Proof. apply (mc_entry idx (on_context WorkerTable.stop_) WorkerTable.entry_count_); by intros []. Qed.

Lemma mc_bury idx (Q : _ -> _ -> Prop) g : Q g tt -> mcounted (bury idx) Q g.
Proof. apply (mc_entry idx _ (fun t => u64 (WorkerTable.entry_count_ t - 1))); by intros []. Qed.

(** The references of one channel, and all the others. *)
Lemma own_split W m idx e :
  WorkerTable.table_ (contexts_ W) !! idx = Some e -> exists O,
    own_refs W m ≡ₚ slot_refs (chan e) ++ O /\
    forall s ch m', own_refs (mkWorld s (alter_entry (contexts_ W) idx (on_context (with_channel ch)))
      (threads_ W)) m' ≡ₚ slot_refs ch ++ O.
Proof.
  intros He. destruct (channel_split (contexts_ W) idx e He) as (O & H1 & H2).
  exists (O ++ mjoin (thread_refs <$> threads_ W)). unfold own_refs, object_refs. split.
  - by rewrite H1, <- app_assoc.
  - intros s ch m'. cbn [contexts_ threads_]. unfold alter_entry. rewrite H2.
    by rewrite <- app_assoc.
Qed.

(** A new channel in an entry. *)
Lemma channel_after W m idx e T ch g g' :
  world_shape W m -> WorkerTable.table_ (contexts_ W) !! idx = Some e ->
  pool_typed T -> sized ch -> (length g' <= LOCALS)%nat ->
  (forall R, Z.of_nat (length (slot_refs (chan e) ++ g ++ R)) < 65000 ->
     pool_wf (pool_of W) (slot_refs (chan e) ++ g ++ R) -> pool_wf T (slot_refs ch ++ g' ++ R)) ->
  (length g <= LOCALS)%nat ->
  mafter W m g (set_contexts (set_pool W T) (alter_entry (contexts_ W) idx (on_context (with_channel ch))))
    m g'.
Proof.
  intros Hs He HT Hch Hg' Hp Hg. split; [| |done|].
  - apply (shape_entry W m); [done| |done|by intros []]. by eapply typed_set_pool.
  - by apply (change_pool W (shared_ (set_pool W T))).
  - intros R Hf HR. pose proof (small_counts _ _ W m g R world_own_small Hs Hg Hf) as Hlen.
    destruct (own_split W m idx e He) as (O & H1 & H2). unfold counts in *.
    change (set_contexts (set_pool W T) ?c) with (mkWorld (shared_ (set_pool W T)) c (threads_ W)).
    rewrite H2. rewrite H1 in HR, Hlen. rewrite <- app_assoc in *.
    rewrite (Permutation_app_swap_app O) in *. by apply Hp.
Qed.

Lemma mc_send idx j (Q : _ -> _ -> Prop) g :
  (idx < WorkerTable.Rows)%nat -> Channels.job_ref j ∈ g -> (forall r, Q g r) ->
  mcounted (context_send idx j) Q g.
Proof.
  intros Hidx Hj HQ W m Hs Hg _. pose proof (sh_typed _ _ Hs) as [HT _].
  destruct (lookup_lt_is_Some_2 (WorkerTable.table_ (contexts_ W)) idx) as [e He];
    [by rewrite (sh_rows _ _ Hs)|].
  rewrite (context_at_lookup W idx e He).
  assert (Hsz : sized (chan e)) by exact (Forall_lookup_1 _ _ _ _ (sh_channels _ _ Hs) He).
  unfold Channels.send. destruct (Channels.full _).
  { exists g. split; [|apply HQ]. by apply (channel_after W m idx e). }
  destruct (lookup_lt_is_Some_2 (Channels.jobs_ (chan e)) (Channels.tail_ (chan e))) as [c Hc];
    [rewrite (sz_jobs _ Hsz); apply Hsz|].
  rewrite Hc. unfold Channels.job_assign.
  destruct (ref_assign (pool_of W) (Channels.job_ref c) (Channels.job_ref j)) as [T r] eqn:Ea.
  assert (r = Channels.job_ref j) as -> by (unfold ref_assign in Ea; congruence).
  exists g. split; [|apply HQ]. apply (channel_after W m idx e); [done|done| | |done| |done].
  - pose proof (ref_assign_typed (pool_of W) (Channels.job_ref c) (Channels.job_ref j) HT) as H.
    by rewrite Ea in H.
  - destruct Hsz as [H1 H2 H3]. split; simpl; [by rewrite length_insert|done|].
    apply Nat.mod_upper_bound. vm_compute. lia.
  - intros R Hlen Hp. apply elem_of_Permutation in Hj as [g0 Hg0]. rewrite Hg0 in *.
    rewrite <- !app_comm_cons, <- !Permutation_middle in *.
    eapply (assign_slot_wf Channels.job_ref _ _ _ _
      (Channels.mkJob (JobBuf.mkJobBuf (Channels.job_ref j) (Channels.buf_sz j)) (Channels.conn_ j))) in Hp;
      [exact Hp|exact Hc|done|exact Ea|simpl in *; lia].
Qed.

Lemma mc_get idx (Q : _ -> _ -> Prop) g :
  (length g < LOCALS)%nat -> (forall j, Q (Channels.job_ref j :: g) (Ok j)) ->
  (forall e, Q g (Err e)) -> mcounted (context_get idx) Q g.
Proof.
  intros Hlt HQ HE W m Hs Hg _. unfold Channels.get.
  assert (Hskip : forall e, exists g', mafter W m g (set_pool W (pool_of W)) m g' /\ Q g' (Err e)).
  { intros e. exists g. split; [|apply HE]. apply after_same; [|by apply change_pool|done..].
    apply (world_shape_pool W m); [done| |done]. eapply typed_set_pool; [done|apply (sh_typed _ _ Hs)]. }
  destruct (negb _) eqn:He; [|apply Hskip]. unfold Channels.front_copy.
  destruct (Channels.jobs_ _ !! _) as [j|] eqn:Hj; [|apply Hskip]. unfold Channels.job_copy.
  assert (E : ref_copy (pool_of W) (Channels.job_ref j) =
    ((ref_copy (pool_of W) (Channels.job_ref j)).1, Channels.job_ref j)) by by destruct (Channels.job_ref j).
  rewrite E. exists (Channels.job_ref j :: g). split; [|specialize (HQ j); by destruct j as [[] ?]].
  apply after_retain; [apply world_own_small|done| |by apply change_pool|done..| |done].
  - apply (world_shape_pool W m); [done| |done]. eapply typed_set_pool; [done|].
    apply ref_copy_typed, (sh_typed _ _ Hs).
  - right. apply elem_of_app. left. unfold context_at in *.
    destruct (WorkerTable.table_ (contexts_ W) !! idx) as [e|] eqn:Hi; [|done].
    destruct (own_split W m idx e Hi) as (O & -> & _). apply elem_of_app. left.
    apply list_elem_of_fmap. exists j. split; [done|]. by eapply list_elem_of_lookup_2.
Qed.

Lemma mc_pop idx (Q : _ -> _ -> Prop) g :
  (idx < WorkerTable.Rows)%nat -> Q g tt -> mcounted (context_pop idx) Q g.
Proof.
  intros Hidx HQ W m Hs Hg _. pose proof (sh_typed _ _ Hs) as [HT _].
  destruct (lookup_lt_is_Some_2 (WorkerTable.table_ (contexts_ W)) idx) as [e He];
    [by rewrite (sh_rows _ _ Hs)|].
  rewrite (context_at_lookup W idx e He).
  assert (Hsz : sized (chan e)) by exact (Forall_lookup_1 _ _ _ _ (sh_channels _ _ Hs) He).
  unfold Channels.pop.
  destruct (lookup_lt_is_Some_2 (Channels.jobs_ (chan e)) (Channels.head_ (chan e))) as [j Hj];
    [rewrite (sz_jobs _ Hsz); apply Hsz|].
  rewrite Hj. unfold Channels.job_destroy.
  assert (E : ref_destroy (pool_of W) (Channels.job_ref j) =
    ((ref_destroy (pool_of W) (Channels.job_ref j)).1, None)) by by destruct (Channels.job_ref j).
  rewrite E. exists g. split; [|done]. apply (channel_after W m idx e); [done|done| | |done| |done].
  - by apply ref_destroy_typed.
  - destruct Hsz as [H1 H2 H3]. split; simpl; [by rewrite length_insert| |done].
    apply Nat.mod_upper_bound. vm_compute. lia.
  - intros R _ Hp. by apply (destroy_slot_wf Channels.job_ref).
Qed.
End Entries.

(** ** Starting and joining threads *)

(** An active thread gets another phase and stays active. *)
Lemma slots_keep (ts : list thread) i t w ph :
  ts !! i = Some t -> active t = true -> ph <> Joined ->
  active_slots (<[i := mkThread (slot_ t) w ph]> ts) = active_slots ts.
Proof.
  intros Hi Ha Hp. apply (omap_insert_same _ _ _ t); [done|]. rewrite Ha.
  unfold active. simpl. by destruct ph.
Qed.

Lemma slots_join (ts : list thread) i t w :
  ts !! i = Some t -> active t = true ->
  active_slots ts ≡ₚ slot_ t :: active_slots (<[i := mkThread (slot_ t) w Joined]> ts).
Proof. intros Hi Ha. apply (omap_insert_remove _ _ _ t); [done|by rewrite Ha|done]. Qed.

Lemma refs_keep (ts : list thread) i t t' :
  ts !! i = Some t -> thread_refs t' = thread_refs t ->
  thread_refs <$> <[i := t']> ts = thread_refs <$> ts.
Proof.
  intros Hi Hr. rewrite list_fmap_insert. apply list_insert_id.
  rewrite list_lookup_fmap, Hi. simpl. by rewrite Hr.
Qed.

Lemma refs_split (ts : list thread) i t :
  ts !! i = Some t -> exists O, mjoin (thread_refs <$> ts) ≡ₚ thread_refs t ++ O /\
    forall t', mjoin (thread_refs <$> <[i := t']> ts) ≡ₚ thread_refs t' ++ O.
Proof.
  intros Hi. destruct (mjoin_split (thread_refs <$> ts) i (thread_refs t)) as (O & H1 & H2);
    [by rewrite list_lookup_fmap, Hi|].
  exists O. split; [done|]. intros t'. by rewrite list_fmap_insert.
Qed.

Lemma bare_load W t : bare (load W t) = bare (worker_ t).
Proof. done. Qed.

Lemma joined_shape W m idx i t :
  world_shape W m -> threads_ W !! i = Some t -> phase_ t = Leaving [] -> slot_ t = idx ->
  world_shape (mkWorld (shared_ W) (alter_entry (contexts_ W) idx (on_context unjoinable))
    (<[i := mkThread (slot_ t) (load W t) Joined]> (threads_ W))) m.
Proof.
  intros Hs Hi Hp <-.
  assert (Ha : active t = true) by (unfold active; by rewrite Hp).
  pose proof (slots_join _ i t (load W t) Hi Ha) as Hsl. pose proof (sh_slots _ _ Hs) as Hnd.
  rewrite Hsl in Hnd. apply list.NoDup_cons in Hnd as [Hn Hnd]. destruct Hs as [Ht Hr Hc Hth _ Hj].
  split; cbn [shared_ contexts_ threads_].
  - done.
  - unfold alter_entry. cbn [WorkerTable.table_]. by rewrite list.length_alter.
  - apply Forall_alter; [done|]. by intros [].
  - by apply Forall_insert.
  - done.
  - intros j Hjn. assert (Hne : j <> slot_ t) by (intros ->; done).
    destruct (Hj j) as [H1 H2]; [rewrite Hsl; by right|]. split; [done|]. rewrite <- H2.
    unfold context_at. cbn [contexts_]. unfold alter_entry. cbn [WorkerTable.table_].
    by rewrite list_lookup_alter_ne.
Qed.

Lemma mc_thread_join idx (Q : _ -> _ -> Prop) g : Q g tt -> mcounted (thread_join idx) Q g.
Proof.
  intros HQ W m Hs Hg _. destruct (WorkerTable.joinable_ _) eqn:Hjn; [|done].
  destruct (thread_of (threads_ W) idx) as [[i t]|] eqn:Ht; [|done].
  destruct (phase_ t) as [p|[|r rest]|] eqn:Hp; try done.
  apply list_find_Some in Ht as (Hi & [Ha Hsl%Nat.eqb_eq]%andb_true_iff & _).
  exists g. split; [|done]. apply after_same; [by apply joined_shape| | |done|done].
  - split; [done..|]. left. cbn [threads_]. rewrite <- (list_insert_id _ _ _ Hi) at 1.
    apply Forall2_insert; [reflexivity|]. by right.
  - unfold own_refs, object_refs. cbn [contexts_ threads_]. f_equal.
    + apply channel_refs_keep. by intros [].
    + f_equal. apply (refs_keep _ _ t); [done|]. unfold thread_refs. by rewrite Hp.
Qed.

(** Null references do not count. *)
Lemma nulls_wf T n refs :
  Z.of_nat (n + length refs) < 65535 -> pool_wf T refs -> pool_wf T (replicate n None ++ refs).
Proof.
  induction n as [|n IH]; intros Hlen Hw; [done|]. simpl. apply null_wf.
  - rewrite length_app, length_replicate. lia.
  - apply IH; [lia|done].
Qed.

(** What [insert_] of the worker table does. *)
Lemma insert_cases t ct t' r :
  WorkerTable.insert_ t ct = Ret (t', r) ->
  (t' = t /\ value_ r = None) \/
  exists idx e u, WorkerTable.table_ t !! idx = Some e /\ value_ r = Some idx /\
    WorkerTable.joinable_ (WorkerTable.context_ e) = false /\
    t' = WorkerTable.mkTable (alter (fun _ => WorkerTable.mkEntry (WorkerTable.mkContext (chan e)
      (WorkerTable.txn_id_ ct) true true) true false) idx (WorkerTable.table_ t)) u.
Proof.
  unfold WorkerTable.insert_. destruct (WorkerTable.full_ t); [intros [= <- <-]; by left|].
  intros H. apply outcome_bind_Ret_inv in H as ([idx e] & Hw & H).
  destruct (while_true _ _ _ _) as [[idx0 e0]|] eqn:E; [|done]. injection Hw as -> ->.
  apply while_true_Some in E as (j & _ & E & _); [|apply WorkerTable.worker_home_lt].
  destruct (WorkerTable.table_ t !! _) as [e0|] eqn:He; [|done].
  destruct (_ || _); [|done]. injection E as Hidx ->. rewrite Hidx in He.
  apply outcome_bind_Ret_inv in H as (c & Hc & [= <- <-]). unfold WorkerTable.start_ in Hc.
  destruct (WorkerTable.joinable_ _) eqn:Hj; [done|]. injection Hc as <-. right.
  exists idx, e, (u64 (WorkerTable.entry_count_ t + 1)). split_and!; [done..|].
  f_equal. by rewrite (insert_alter _ _ _ e).
Qed.

Lemma inserted_shape W m idx e ct u n t' :
  world_shape W m -> WorkerTable.table_ (contexts_ W) !! idx = Some e ->
  WorkerTable.joinable_ (WorkerTable.context_ e) = false ->
  t' = WorkerTable.mkTable (alter (fun _ => WorkerTable.mkEntry (WorkerTable.mkContext (chan e)
      (WorkerTable.txn_id_ ct) true true) true false) idx (WorkerTable.table_ (contexts_ W))) n ->
  slot_ u = idx -> active u = true -> thread_shape u ->
  world_shape (mkWorld (shared_ W) t' (threads_ W ++ [u])) m.
Proof.
  intros [Ht Hr Hc Hth Hn Hj] He Hjn -> Hu Ha Hsh.
  assert (Hsl : active_slots (threads_ W ++ [u]) = active_slots (threads_ W) ++ [idx]).
  { unfold active_slots. rewrite omap_app. simpl. by rewrite Ha, Hu. }
  split; cbn [shared_ contexts_ threads_ WorkerTable.table_].
  - done.
  - by rewrite list.length_alter.
  - apply Forall_alter; [done|]. intros e' He' _. rewrite He in He'. injection He' as <-.
    exact (Forall_lookup_1 _ _ _ _ Hc He).
  - apply Forall_app. split; [done|]. by constructor.
  - rewrite Hsl. apply list.NoDup_app. split_and!; [done| |apply NoDup_singleton].
    intros i Hi ->%list_elem_of_singleton. destruct (Hj idx Hi) as [_ H].
    rewrite (context_at_lookup W idx e He) in H. by rewrite Hjn in H.
  - intros i Hi. rewrite Hsl in Hi. unfold context_at. cbn [contexts_ WorkerTable.table_].
    destruct (decide (i = idx)) as [->|Hne].
    + split; [rewrite <- Hr; by eapply lookup_lt_Some|]. by rewrite list_lookup_alter_eq, He.
    + rewrite list_lookup_alter_ne by done. apply Hj.
      apply elem_of_app in Hi as [Hi|Hi]; [done|]. by apply list_elem_of_singleton in Hi.
Qed.

(** The commit queue of a new worker holds no references. *)
Lemma mc_insert ct (Q : _ -> _ -> Prop) g :
  (forall r, (forall idx, value_ r = Some idx -> (idx < WorkerTable.Rows)%nat) -> Q g r) ->
  mcounted (insert_ ct) Q g.
Proof.
  intros HQ W m Hs Hg _. destruct (WorkerTable.insert_ _ _) as [[t r]| |] eqn:E; [|done..].
  cbn [mbind outcome_bind].
  destruct (insert_cases _ _ _ _ E) as [[-> Hv]|(idx & e & u & He & Hv & Hj & ->)].
  - rewrite Hv. exists g. split; [|apply HQ; by rewrite Hv].
    apply after_same; [|by apply change_pool|done..].
    by apply (world_shape_pool W m); [done|apply (sh_typed _ _ Hs)|].
  - rewrite Hv. exists g. split.
    2: { apply HQ. rewrite Hv. intros ? [= <-]. rewrite <- (sh_rows _ _ Hs). by eapply lookup_lt_Some. }
    set (c := context_at _ idx). split; [| |done|].
    + eapply (inserted_shape W m idx e ct); [done|exact He|exact Hj|reflexivity|done..|].
      apply commits_default_sized.
    + split; [done..|]. right. by eexists _, _, _, _.
    + intros R Hf HR. pose proof (small_counts _ _ W m g R world_own_small Hs Hg Hf) as Hlen.
      unfold counts, own_refs, object_refs in *. cbn [contexts_ threads_ set_threads set_contexts].
      rewrite fmap_app, join_app, channel_refs_keep by (intros ? He'; rewrite He in He'; by injection He' as <-).
      change (mjoin (thread_refs <$> [_])) with (replicate 16 (@None nat)).
      apply (nulls_wf _ 16) in HR; [|lia]. rewrite <- !app_assoc in *.
      by rewrite (Permutation_app_swap_app (replicate 16 None) (channel_refs (contexts_ W))),
        (Permutation_app_swap_app (replicate 16 None) (mjoin (thread_refs <$> threads_ W))) in HR.
Qed.

(** ** The main loop of the socket thread *)

Ltac socket_step :=
  lazymatch goal with
  | |- counted _ _ _ _ (_ ≫= _) _ _ => apply counted_bind
  | |- counted _ _ _ _ (Done _) _ _ => apply mc_done
  | |- counted _ _ _ _ (reply _ _ _) _ _ => apply mc_answer
  | |- counted _ _ _ _ (answer _ _ _ _) _ _ => apply mc_answer
  | |- counted _ _ _ _ (drop_ref _) _ _ => apply mc_drop
  | |- counted _ _ _ _ (context_empty _) _ _ => apply mc_empty; intros ?
  | |- counted _ _ _ _ (context_stop _) _ _ => apply mc_stop
  | |- counted _ _ _ _ (bury _) _ _ => apply mc_bury
  | |- counted _ _ _ _ (thread_join _) _ _ => apply mc_thread_join
  | |- counted _ _ _ _ (on_rets _) _ _ => apply mc_rets; intros ?
  | |- counted _ _ _ _ (read_pool _) _ _ => apply mc_read; intros ?
  | |- counted _ _ _ _ (unwrap_ _) _ _ => apply mc_unwrap; intros ? ?
  | |- counted _ _ _ _ (if ?b then _ else _) _ _ => destruct b
  | |- counted _ _ _ _ diverge _ _ => done
  end.
Ltac socket_steps := cbv beta; repeat (socket_step; cbv beta).

Section SocketLoop.
Implicit Types (g : list buf_ref).

Lemma mc_answer_dead fuel idx (Q : _ -> _ -> Prop) g :
  (idx < WorkerTable.Rows)%nat -> (S (length g) < LOCALS)%nat -> Q g tt ->
  mcounted (answer_dead fuel idx) Q g.
Proof.
  intros Hidx Hlt HQ. induction fuel as [|f IH]; [done|]. cbn [answer_dead]. socket_steps; [done|].
  apply mc_get; [lia| |].
  - intros j. apply counted_bind, mc_unwrap. intros ? [= <-].
    apply counted_bind, mc_retain; [simpl; lia|right; left|]. socket_steps.
    apply mc_pop; [done|]. by socket_steps.
  - intros e. by apply counted_bind, mc_unwrap.
Qed.

Lemma mc_join idx (Q : _ -> _ -> Prop) g :
  (idx < WorkerTable.Rows)%nat -> (S (length g) < LOCALS)%nat -> Q g tt -> mcounted (join_ idx) Q g.
Proof. intros Hidx Hlt HQ. unfold join_. socket_steps. by apply mc_answer_dead. Qed.

Lemma mc_remove k (Q : _ -> _ -> Prop) g :
  (S (length g) < LOCALS)%nat -> Q g tt -> mcounted (remove_ k) Q g.
Proof.
  intros Hlt HQ. unfold remove_. socket_steps. apply mc_look. intros t t' idx Hl E.
  apply outcome_bind_Ret_inv in E as (idx0 & E & [= <- <-]). split; [done|].
  destruct (while_true _ _ _ _) as [i|] eqn:Ew; [|done]. injection E as ->.
  apply while_true_Some in Ew as (j & _ & Ew & _); [|apply WorkerTable.worker_home_lt].
  destruct (_ !! _) as [e|] eqn:He; [|done]. destruct (_ && _); [|done]. injection Ew as Ew.
  rewrite Ew in He. apply lookup_lt_Some in He. rewrite Hl in He.
  socket_steps. apply mc_join; [done..|]. by socket_steps.
Qed.

Lemma mc_reap fuel (Q : _ -> _ -> Prop) g :
  (S (length g) < LOCALS)%nat -> Q g tt -> mcounted (reap fuel) Q g.
Proof.
  intros Hlt HQ. induction fuel as [|f IH]; [done|]. cbn [reap]. socket_steps; [done|].
  apply mc_remove; [done|]. by socket_steps.
Qed.

Lemma mc_forward idx r n c (Q : _ -> _ -> Prop) g :
  (idx < WorkerTable.Rows)%nat -> (S (length g) < LOCALS)%nat -> r ∈ g -> (forall e, Q g e) ->
  mcounted (forward idx r n c) Q g.
Proof.
  intros Hidx Hlt Hr HQ. unfold forward. apply counted_bind, mc_retain; [lia|by right|].
  apply counted_bind, mc_send; [done|left|]. intros e. by socket_steps.
Qed.

Lemma mc_start_txn fuel p r n c (Q : _ -> _ -> Prop) g :
  (S (length g) < LOCALS)%nat -> r ∈ g -> Q g tt -> mcounted (start_txn fuel p r n c) Q g.
Proof.
  intros Hlt Hr HQ. unfold start_txn. apply counted_bind, mc_reap; [done|].
  apply counted_bind, mc_next_id. intros id. apply counted_bind, mc_insert. intros ir Hidx.
  destruct (value_ ir) as [idx|]; [|by socket_steps].
  apply counted_bind, mc_forward; [by apply Hidx|done..|]. intros e. by apply mc_put_id.
Qed.

Lemma mc_route op p r n c (Q : _ -> _ -> Prop) g :
  (S (length g) < LOCALS)%nat -> r ∈ g -> Q g tt -> mcounted (route op p r n c) Q g.
Proof.
  intros Hlt Hr HQ. unfold route. socket_steps; [done|]. apply mc_look.
  intros t t' sr Hl [= <- <-]. split; [done|].
  destruct (value_ (WorkerTable.search_ t _)) as [idx|] eqn:Es; [|by socket_steps].
  apply counted_bind, mc_forward; [|done..|].
  - unfold WorkerTable.search_ in Es. rewrite do_while_while_true in Es; [|apply WorkerTable.worker_home_lt|done].
    destruct (while_true _ _ _ _) as [x|] eqn:E; [|done].
    apply while_true_Some in E as (j & _ & E & _); [|apply WorkerTable.worker_home_lt].
    simpl in Es. destruct (_ !! _) as [e|] eqn:He; [|done].
    destruct (negb _); [by simplify_eq/=|]. destruct (_ && _); [|done]. simplify_eq/=. apply slot_lt. vm_compute. lia.
  - intros e. by socket_steps.
Qed.

Lemma mc_handle fuel p r n c (Q : _ -> _ -> Prop) g :
  (S (length g) < LOCALS)%nat -> r ∈ g -> Q g tt -> mcounted (handle fuel p r n c) Q g.
Proof.
  intros Hlt Hr HQ. unfold handle. socket_steps; [done|].
  match goal with |- counted _ _ _ _ (match ?op with _ => _ end) _ _ => destruct op end;
    try (by apply mc_route); [by apply mc_start_txn|by socket_steps].
Qed.

Lemma mc_receive r bytes (Q : _ -> _ -> Prop) g :
  Z.of_nat (length bytes) <= BUFFER_WIDTH -> Forall is_byte bytes -> Q g tt ->
  mcounted (on_pool (fun T => Ret (store T r (Bytes.write (buffer T r) 0 bytes), tt))) Q g.
Proof.
  intros Hl Hb HQ. apply mc_pool. intros T HT. split_and!; [|intros refs; apply store_wf|done].
  apply (store_with T r (fun b => Bytes.write b 0 bytes)); [done|]. intros b Hw. by apply write_whole.
Qed.

Lemma mc_turn fuel m (Q : _ -> _ -> Prop) g :
  delivered m -> (6 + length g < LOCALS)%nat -> (forall st, Q g st) -> mcounted (turn fuel m) Q g.
Proof.
  intros Hm Hlt HQ. unfold turn, body. socket_steps.
  apply mc_request; [lia| |]; [intros i; cbn [value_ Ok]|cbn [value_ Err]; by socket_steps].
  apply counted_bind, mc_retain; [simpl; lia|right; left|]. socket_steps.
  destruct m as [| |bytes c]; [by socket_steps..|]. destruct Hm as [Hl Hb].
  apply counted_bind, mc_receive; [done..|].
  apply counted_bind, mc_retain; [simpl; lia|right; left|].
  apply counted_bind, mc_handle; [simpl; lia|right; left|]. by socket_steps.
Qed.

Lemma mc_stop_all n idx (Q : _ -> _ -> Prop) g : Q g tt -> mcounted (stop_all n idx) Q g.
Proof.
  intros HQ. revert idx. induction n as [|n IH]; intros idx; [done|]. cbn [stop_all].
  apply counted_bind, mc_look. intros t t' u _ [= <- <-]. split; [done|]. socket_steps; apply IH.
Qed.

Lemma mc_join_all n idx (Q : _ -> _ -> Prop) g :
  (n + idx <= WorkerTable.Rows)%nat -> (S (length g) < LOCALS)%nat -> Q g tt ->
  mcounted (join_all n idx) Q g.
Proof.
  intros Hn Hlt HQ. revert idx Hn. induction n as [|n IH]; intros idx Hn; [done|]. cbn [join_all].
  apply counted_bind, mc_look. intros t t' u _ [= <- <-]. split; [done|].
  socket_steps; [|apply IH; lia]. apply mc_join; [lia|done|]. socket_steps. apply IH. lia.
Qed.

Lemma mc_closing (Q : _ -> _ -> Prop) g :
  (S (length g) < LOCALS)%nat -> (forall st, Q g st) -> mcounted closing Q g.
Proof.
  intros Hlt HQ. unfold closing, shut_down. socket_steps. apply mc_stop_all. socket_steps.
  apply mc_join_all; [lia|done|]. by socket_steps.
Qed.
End SocketLoop.

(** ** The invariant *)

(** Between two turns a thread has no local references. *)
Definition at_rest {A} (g : list buf_ref) (_ : A) : Prop := g = [].

Definition thread_counted (t : thread) (g : list buf_ref) : Prop :=
  match phase_ t with
  | Running p => (length g <= LOCALS)%nat /\ wcounted p at_rest g
  | _ => g = []
  end.

Record server_inv (v : server) (gm : list buf_ref) (gs : list (list buf_ref)) : Prop := {
  in_shape : world_shape (world_ v) (socket_ v);
  in_locals : (length gm <= LOCALS)%nat;
  in_socket : mcounted (prog_ v) at_rest gm;
  in_threads : Forall2 thread_counted (threads_ (world_ v)) gs;
  in_pool : mcounts (world_ v) (socket_ v) gm (mjoin gs)
}.

Lemma locals_fit W m gs :
  world_shape W m -> Forall2 thread_counted (threads_ W) gs -> (length (mjoin gs) <= 512)%nat.
Proof.
  intros Hs Hf. pose proof (active_bound W m Hs) as Ha. change WorkerTable.Rows with 64%nat in Ha.
  assert (H : (length (mjoin gs) <= 8 * length (active_slots (threads_ W)))%nat); [|lia].
  apply (per_thread thread_counted); [|done]. intros t g. unfold thread_counted, active.
  destruct (phase_ t); [by intros [? _]|intros ->; simpl; lia..].
Qed.

Lemma start_shape : world_shape world_start (mkSocket true 0 []).
Proof.
  split.
  - split; [apply pool_typed_default|apply table_typed_default].
  - done.
  - apply Forall_replicate, channel_default_sized.
  - constructor.
  - constructor.
  - intros i Hi. by apply elem_of_nil in Hi.
Qed.

Lemma inv_start : server_inv server_start [] [].
Proof.
  split; [apply start_shape|simpl; lia|done|constructor|]. unfold counts, own_refs, object_refs.
  change (channel_refs (contexts_ (world_ server_start))) with (replicate 1024 (@None nat)).
  rewrite <- app_assoc. apply nulls_wf; [simpl; lia|]. apply pool_wf_default.
Qed.

(** Threads as the socket thread leaves them. *)
Lemma threads_after ts ts' gs :
  Forall2 same_thread ts ts' -> Forall2 thread_counted ts gs -> Forall2 thread_counted ts' gs.
Proof.
  intros Hs. revert gs. induction Hs as [|t t' ts ts' Hst _ IH]; intros gs Ht;
    [done|]. inversion Ht as [|? g ? gs' Hg Hgs]; subst. constructor; [|by apply IH].
  destruct Hst as [->|(_ & _ & Hp & Hp')]; [done|]. unfold thread_counted in *. rewrite Hp'. by rewrite Hp in Hg.
Qed.

Lemma mjoin_nil_end {A} (gs : list (list A)) : mjoin (gs ++ [[]]) = mjoin gs.
Proof. rewrite join_app. apply app_nil_r. Qed.

(** The socket thread acts. *)
Lemma socket_acts W m B (f : world -> socket -> outcome (world * socket * B)) k W' m' b gm gs :
  server_inv (mkServer W m (Act f k)) gm gs -> f W m = Ret (W', m', b) ->
  exists gm', mafter W m gm W' m' gm' /\ mcounted (k b) at_rest gm' /\ mcounts W' m' gm' (mjoin gs).
Proof.
  intros [Hs Hl Hc Ht Hp] E. cbn [world_ socket_ prog_] in *.
  assert (Hf : fits (mjoin gs)).
  { pose proof (locals_fit W m gs Hs Ht). unfold fits. lia. }
  cbn [counted] in Hc. specialize (Hc W m Hs Hl (ex_intro _ _ (conj Hf Hp))). rewrite E in Hc.
  destruct Hc as (gm' & Ha & Hk). exists gm'. split; [done|]. split; [done|]. by apply Ha.
Qed.

Lemma inv_socket W m B (f : world -> socket -> outcome (world * socket * B)) k W' m' b gm gs :
  server_inv (mkServer W m (Act f k)) gm gs -> f W m = Ret (W', m', b) ->
  exists gm' gs', server_inv (mkServer W' m' (k b)) gm' gs'.
Proof.
  intros Hv E. destruct (socket_acts _ _ _ _ _ _ _ _ _ _ Hv E) as (gm' & [Hs' Hch Hl' _] & Hk & Hcnt).
  destruct Hv as [Hs Hl Hc Ht Hp]. cbn [world_] in *. exists gm'.
  destruct (ch_threads _ _ Hch) as [Hsame|(i & r & ch & id & Hnew)].
  - exists gs. split; [done..| |done]. by eapply threads_after.
  - exists (gs ++ [[]]). split; [done..| |by rewrite mjoin_nil_end].
    cbn [world_]. rewrite Hnew. apply Forall2_app; [done|]. constructor; [|constructor].
    split; [simpl; lia|done].
Qed.

(** One thread among all. *)
Lemma inv_thread v gm gs i t :
  server_inv v gm gs -> threads_ (world_ v) !! i = Some t ->
  exists g, gs !! i = Some g /\ thread_counted t g.
Proof.
  intros Hv Hi. destruct (Forall2_lookup_l _ _ _ _ _ (in_threads _ _ _ Hv) Hi) as (g & Hg & H).
  by exists g.
Qed.

Lemma active_slot W i t :
  threads_ W !! i = Some t -> active t = true -> slot_ t ∈ active_slots (threads_ W).
Proof. intros Hi Ha. apply elem_of_omap. exists i, t. by rewrite Ha. Qed.

(** A thread goes on to another phase without touching its context. *)
Lemma phase_shape W m i t s ph :
  world_shape W m -> threads_ W !! i = Some t -> active t = true -> typed s -> ph <> Joined ->
  thread_shape (mkThread (slot_ t) (worker_ t) ph) ->
  world_shape (mkWorld s (contexts_ W) (<[i := mkThread (slot_ t) (worker_ t) ph]> (threads_ W))) m.
Proof.
  intros [Ht Hr Hc Hth Hn Hj] Hi Ha Hs Hp Hsh.
  assert (Hsl := slots_keep (threads_ W) i t (worker_ t) ph Hi Ha Hp).
  split; cbn [shared_ contexts_ threads_]; try done.
  - by apply Forall_insert.
  - by rewrite Hsl.
  - intros j Hjn. rewrite Hsl in Hjn. by apply Hj.
Qed.

Lemma phase_counts W m i t ph g R :
  threads_ W !! i = Some t -> thread_refs (mkThread (slot_ t) (worker_ t) ph) ≡ₚ thread_refs t ->
  mcounts W m g R -> mcounts (set_phase W i t ph) m g R.
Proof.
  intros Hi Hr Hp. unfold counts, own_refs, object_refs in *. cbn [contexts_ threads_ set_phase set_threads].
  destruct (refs_split (threads_ W) i t Hi) as (O & H1 & H2). by rewrite H2, Hr, <- H1.
Qed.

Lemma inv_phase W m p i t ph gm gs :
  server_inv (mkServer W m p) gm gs -> threads_ W !! i = Some t -> active t = true ->
  gs !! i = Some [] -> ph <> Joined -> thread_shape (mkThread (slot_ t) (worker_ t) ph) ->
  thread_counted (mkThread (slot_ t) (worker_ t) ph) [] ->
  thread_refs (mkThread (slot_ t) (worker_ t) ph) ≡ₚ thread_refs t ->
  server_inv (mkServer (set_phase W i t ph) m p) gm gs.
Proof.
  intros [Hs Hl Hc Ht Hp] Hi Ha Hgs Hph Hsh Hg Hr. cbn [world_ socket_ prog_] in *.
  split; cbn [world_ socket_ prog_]; [|done|done| |].
  - apply phase_shape; [done|done|done|apply (sh_typed _ _ Hs)|done|done].
  - rewrite <- (list_insert_id gs i []) by done. by apply Forall2_insert.
  - by apply phase_counts.
Qed.

Lemma leave_counts W m i t r rest g R :
  threads_ W !! i = Some t -> phase_ t = Leaving (r :: rest) -> mcounts W m g R ->
  mcounts (set_phase (set_pool W (ref_destroy (pool_of W) r).1) i t (Leaving rest)) m g R.
Proof.
  intros Hi Hph Hp.
  unfold counts, own_refs, object_refs in *. cbn [contexts_ threads_ set_phase set_threads set_pool].
  destruct (refs_split (threads_ W) i t Hi) as (O & H1 & H2). rewrite H2. rewrite H1 in Hp.
  unfold thread_refs in *. rewrite Hph in Hp. cbn [phase_] in *.
  rewrite <- app_assoc, (Permutation_app_swap_app (channel_refs _)) in Hp.
  rewrite <- app_assoc, (Permutation_app_swap_app (channel_refs _)).
  rewrite <- !app_assoc, <- app_comm_cons in Hp. rewrite <- !app_assoc.
  apply drop_wf in Hp. by destruct r.
Qed.

(** A worker gives up one of the references it leaves behind. *)
Lemma inv_leave W m p i t r rest gm gs :
  server_inv (mkServer W m p) gm gs -> threads_ W !! i = Some t -> phase_ t = Leaving (r :: rest) ->
  server_inv (mkServer (set_phase (set_pool W (ref_destroy (pool_of W) r).1) i t (Leaving rest)) m p)
    gm gs.
Proof.
  intros Hv Hi Hph. destruct (inv_thread _ _ _ _ _ Hv Hi) as (g & Hgs & Hg).
  unfold thread_counted in Hg. rewrite Hph in Hg. subst g.
  destruct Hv as [Hs Hl Hc Ht Hp]. cbn [world_ socket_ prog_] in *.
  assert (Ha : active t = true) by (unfold active; by rewrite Hph).
  pose proof (Forall_lookup_1 _ _ _ _ (sh_threads _ _ Hs) Hi) as Hsh. unfold thread_shape in Hsh.
  rewrite Hph in Hsh. simpl in Hsh.
  split; cbn [world_ socket_ prog_]; [|done|done| |].
  - apply (phase_shape W m i t (shared_ (set_pool W (ref_destroy (pool_of W) r).1)));
      [done|done|done| |done|unfold thread_shape; simpl; lia].
    eapply typed_set_pool; [done|]. apply ref_destroy_typed, (sh_typed _ _ Hs).
  - rewrite <- (list_insert_id gs i []) by done. by apply Forall2_insert.
  - by apply leave_counts.
Qed.

(** ** A worker acts *)

Lemma loaded_shape W m i t p :
  world_shape W m -> threads_ W !! i = Some t -> phase_ t = Running p ->
  exists e, WorkerTable.table_ (contexts_ W) !! slot_ t = Some e /\
    context_at W (slot_ t) = WorkerTable.context_ e /\ worker_shape (shared_ W) (load W t).
Proof.
  intros Hs Hi Hph. destruct (sh_joinable _ _ Hs (slot_ t)) as [Hlt _].
  { apply (active_slot W i); [done|]. unfold active. by rewrite Hph. }
  destruct (lookup_lt_is_Some_2 (WorkerTable.table_ (contexts_ W)) (slot_ t)) as [e He];
    [by rewrite (sh_rows _ _ Hs)|].
  exists e. pose proof (context_at_lookup W _ _ He) as Hc. split_and!; [done..|].
  pose proof (Forall_lookup_1 _ _ _ _ (sh_threads _ _ Hs) Hi) as Hsh. unfold thread_shape in Hsh.
  rewrite Hph in Hsh. split; [apply (sh_typed _ _ Hs)| |exact Hsh].
  unfold load. simpl. rewrite Hc. exact (Forall_lookup_1 _ _ _ _ (sh_channels _ _ Hs) He).
Qed.

(** The references of the world, seen from the worker's side. *)
Lemma world_split W i t p e :
  threads_ W !! i = Some t -> phase_ t = Running p ->
  WorkerTable.table_ (contexts_ W) !! slot_ t = Some e ->
  context_at W (slot_ t) = WorkerTable.context_ e -> exists O,
    (forall m, own_refs W m ≡ₚ References.own_refs (shared_ W) (load W t) ++ O) /\
    forall s w q m, own_refs (store_back W i t s w (Running q)) m ≡ₚ References.own_refs s w ++ O.
Proof.
  intros Hi Hph He Hc. destruct (channel_split _ _ _ He) as (O1 & A1 & A2).
  destruct (refs_split _ _ _ Hi) as (O2 & B1 & B2). exists (O1 ++ O2).
  assert (Hmix : forall a b : list buf_ref, (a ++ O1) ++ b ++ O2 ≡ₚ (a ++ b) ++ O1 ++ O2).
  { intros a b. rewrite <- !app_assoc. f_equiv. by rewrite Permutation_app_swap_app. }
  split.
  - intros m. unfold own_refs, object_refs, References.own_refs. rewrite A1, B1, Hmix.
    unfold thread_refs, load. rewrite Hph, Hc. done.
  - intros s w q m. unfold own_refs, object_refs, References.own_refs, store_back.
    cbn [contexts_ threads_]. unfold alter_entry. by rewrite A2, B2, Hmix.
Qed.

Lemma stored_shape W m i t s w p q :
  world_shape W m -> threads_ W !! i = Some t -> phase_ t = Running p -> worker_shape s w ->
  world_shape (store_back W i t s w (Running q)) m.
Proof.
  intros Hs Hi Hph [Ht Hj Hc].
  assert (Ha : active t = true) by (unfold active; by rewrite Hph).
  assert (Hsl := slots_keep (threads_ W) i t w (Running q) Hi Ha ltac:(done)).
  destruct (shape_entry W m m s (slot_ t) (on_context (fun c =>
       WorkerTable.mkContext (Worker.job_ch_ w) (WorkerTable.txn_id_ c) (Worker.running_ w)
         (WorkerTable.joinable_ c))) (WorkerTable.entry_count_ (contexts_ W)) Hs Ht
    (fun e _ _ => Hj) (fun e => eq_refl)) as [H1 H2 H3 H4 H5 H6].
  split; cbn [store_back shared_ contexts_ threads_] in *; [done|done|done| | |].
  - by apply Forall_insert.
  - by rewrite Hsl.
  - intros j Hjn. rewrite Hsl in Hjn. by apply H6.
Qed.

(** What a worker's action sees of the counts, and what becomes of them. *)
Lemma worker_frame W m i t p gm gs g :
  world_shape W m -> threads_ W !! i = Some t -> phase_ t = Running p -> gs !! i = Some g ->
  (length gm <= LOCALS)%nat -> (length (mjoin gs) <= 512)%nat -> mcounts W m gm (mjoin gs) ->
  exists R, fits R /\ wcounts (shared_ W) (load W t) g R /\
    forall s w q g', wcounts s w g' R ->
      mcounts (store_back W i t s w (Running q)) m gm (mjoin (<[i := g']> gs)).
Proof.
  intros Hs Hi Hph Hgs Hl Hj Hp. destruct (loaded_shape W m i t _ Hs Hi Hph) as (e & He & Hce & Hw).
  destruct (world_split W i t _ e Hi Hph He Hce) as (O & H1 & H2).
  destruct (mjoin_split gs i g Hgs) as (G & G1 & G2).
  assert (Hmix : forall o g0, (o ++ O) ++ gm ++ g0 ++ G ≡ₚ o ++ g0 ++ O ++ gm ++ G).
  { intros o g0. rewrite <- app_assoc. f_equiv. rewrite (Permutation_app_swap_app gm).
    by rewrite Permutation_app_swap_app. }
  exists (O ++ gm ++ G). split_and!.
  - pose proof (world_own_small W m Hs) as Hsm. rewrite (H1 m), length_app in Hsm.
    rewrite G1, length_app in Hj.
    unfold fits, OBJECTS, LOCALS in *. rewrite !length_app. lia.
  - unfold counts in *. by rewrite (H1 m), G1, Hmix in Hp.
  - intros s w q g' Hc. unfold counts. by rewrite (H2 s w q m), G2, Hmix.
Qed.

Lemma inv_worker W m p i t B
    (f : Worker.shared -> Worker.Worker -> outcome (Worker.shared * Worker.Worker * B)) k s w b gm gs :
  server_inv (mkServer W m p) gm gs -> threads_ W !! i = Some t -> phase_ t = Running (Act f k) ->
  f (shared_ W) (load W t) = Ret (s, w, b) ->
  exists gs', server_inv (mkServer (store_back W i t s w (Running (k b))) m p) gm gs'.
Proof.
  intros Hv Hi Hph E. destruct (inv_thread _ _ _ _ _ Hv Hi) as (g & Hgs & Hg).
  unfold thread_counted in Hg. rewrite Hph in Hg. destruct Hg as [Hgl Hg].
  destruct Hv as [Hs Hl Hc Ht Hp]. cbn [world_ socket_ prog_] in *.
  destruct (loaded_shape W m i t _ Hs Hi Hph) as (e & He & Hce & Hw).
  destruct (worker_frame W m i t _ gm gs g Hs Hi Hph Hgs Hl (locals_fit W m gs Hs Ht) Hp)
    as (R & Hf & HR & Hback).
  cbn [counted] in Hg. specialize (Hg _ _ Hw Hgl (ex_intro _ _ (conj Hf HR))). rewrite E in Hg.
  destruct Hg as (g' & [Hs' _ Hl' Hcnt] & Hk). exists (<[i := g']> gs).
  split; cbn [world_ socket_ prog_]; [by eapply stored_shape|done|done| |].
  - apply Forall2_insert; [done|]. by split.
  - by apply Hback, Hcnt.
Qed.

Lemma server_step_inv v v' gm gs :
  server_step v v' -> server_inv v gm gs -> exists gm' gs', server_inv v' gm' gs'.
Proof.
  intros Hst Hv. destruct Hst as [W m B f k W' m' b E|W m fuel r Hfl Hr|W m|W m Hfl|W m p
    |W m p i t B f k s w b Hi Hph E|W m p i t mem Hi Hph|W m p i t Hi Hph|W m p i t r rest Hi Hph].
  - by eapply inv_socket.
  - destruct Hv as [Hs Hl Hc Ht Hp]. cbn [prog_ counted] in Hc. unfold at_rest in Hc. subst gm.
    exists [], gs. split; [done..| |done|done]. apply mc_turn; [done|unfold LOCALS; simpl; lia|done].
  - destruct Hv as [Hs Hl Hc Ht Hp]. cbn [prog_ counted] in Hc. unfold at_rest in Hc. subst gm.
    exists [], gs. split; [done..| |done|done]. apply mc_closing; [unfold LOCALS; simpl; lia|done].
  - destruct Hv as [Hs Hl Hc Ht Hp]. cbn [prog_ counted] in Hc. unfold at_rest in Hc. subst gm.
    exists [], gs. split; [by destruct Hs|done| |done|done]. apply mc_closing; [unfold LOCALS; simpl; lia|done].
  - destruct Hv as [Hs Hl Hc Ht Hp]. exists gm, gs. split; [by destruct Hs|done..].
  - exists gm. by eapply inv_worker.
  - exists gm, gs. destruct (inv_thread _ _ _ _ _ Hv Hi) as (g & Hgs & Hg).
    unfold thread_counted in Hg. rewrite Hph in Hg. destruct Hg as [_ Hg].
    cbn [counted] in Hg. unfold at_rest in Hg. subst g.
    pose proof (Forall_lookup_1 _ _ _ _ (sh_threads _ _ (in_shape _ _ _ Hv)) Hi) as Hsh.
    apply inv_phase; try done.
    + unfold active. by rewrite Hph.
    + unfold thread_shape in *. by rewrite Hph in Hsh.
    + split; [simpl; lia|]. apply counted_iteration; [unfold LOCALS; simpl; lia|done].
    + unfold thread_refs. by rewrite Hph.
  - exists gm, gs. destruct (inv_thread _ _ _ _ _ Hv Hi) as (g & Hgs & Hg).
    unfold thread_counted in Hg. rewrite Hph in Hg. destruct Hg as [_ Hg].
    cbn [counted] in Hg. unfold at_rest in Hg. subst g.
    pose proof (Forall_lookup_1 _ _ _ _ (sh_threads _ _ (in_shape _ _ _ Hv)) Hi) as Hsh.
    unfold thread_shape in Hsh. rewrite Hph in Hsh.
    apply inv_phase; try done.
    + unfold active. by rewrite Hph.
    + unfold thread_shape, worker_left, commit_refs. simpl.
      by rewrite length_rev, length_fmap, (cs_length _ Hsh).
    + unfold thread_refs. rewrite Hph. simpl. unfold worker_left. by rewrite <- Permutation_rev.
  - exists gm, gs. by apply inv_leave.
Qed.

Lemma server_reachable_inv v : server_reachable v -> exists gm gs, server_inv v gm gs.
Proof.
  intros Hr. unfold server_reachable in Hr. assert (H : exists gm gs, server_inv server_start gm gs).
  { exists [], []. apply inv_start. }
  induction Hr as [|v v1 v2 Hst _ IH]; [done|]. apply IH. destruct H as (gm & gs & Hv).
  by eapply server_step_inv.
Qed.

(** ** Properties *)

(** No thread is in the middle of a turn. *)
Definition quiet (v : server) : Prop :=
  (exists st, prog_ v = Done st) /\
  forall i t p, threads_ (world_ v) !! i = Some t -> phase_ t = Running p -> exists q, p = Done q.

(** C8.  Nothing leaks and nothing is freed early.  In every state the
    server reaches, however its threads interleave, the count of each buffer
    is the number of references to it: those in the slots of the job channels,
    in the commit queues of the workers and of those that are being
    destroyed, and in the local variables of the threads, of which each thread
    has at most eight, and none between two turns; the size of the pool is the
    number of buffers that have a reference. *)
Theorem server_counts_exact v :
  server_reachable v -> exists locals,
    (forall i e, buffers_ (pool_of (world_ v)) !! i = Some e ->
       ref_count_ e = cnt (points_to i) (object_refs (world_ v) ++ locals)) /\
    size_ (pool_of (world_ v)) = cnt in_use (buffers_ (pool_of (world_ v))) /\
    (length locals <= 8 + 8 * length (active_slots (threads_ (world_ v))))%nat /\
    (quiet v -> locals = []).
Proof.
  intros Hr. destruct (server_reachable_inv v Hr) as (gm & gs & [Hs Hl Hc Ht Hp]).
  exists (gm ++ mjoin gs). unfold counts, own_refs in Hp.
  split; [apply (pool_count _ _ Hp)|]. split; [apply Hp|]. split.
  - assert (H : (length (mjoin gs) <= 8 * length (active_slots (threads_ (world_ v))))%nat).
    { apply (per_thread thread_counted); [|done]. intros t g. unfold thread_counted, active.
      destruct (phase_ t); [by intros [? _]|intros ->; simpl; lia..]. }
    unfold LOCALS in Hl. rewrite length_app. lia.
  - intros [[st Hst] Hq]. rewrite Hst in Hc. cbn [counted] in Hc. unfold at_rest in Hc. subst gm.
    simpl. apply mjoin_all_nil. intros g Hg. apply list_elem_of_lookup in Hg as (i & Hg).
    destruct (Forall2_lookup_r _ _ _ _ _ Ht Hg) as (t & Hi & Htc). unfold thread_counted in Htc.
    destruct (phase_ t) as [p| |] eqn:Hph; [|done..]. destruct (Hq _ _ _ Hi Hph) as [q ->].
    by destruct Htc as [_ ?].
Qed.

(** C10.  Memory keeps its types.  In every state the server reaches the
    pool has 64 buffers of 32768 bytes, the student table ten records whose
    members are in the range of their types and a one-byte next key, and every
    job channel 16 slots with both indices inside. *)
Theorem server_typed v :
  server_reachable v ->
  length (buffers_ (pool_of (world_ v))) = ROWS /\ pool_typed (pool_of (world_ v)) /\
  table_typed (Worker.students_ (Worker.db_ (shared_ (world_ v)))) /\
  Forall (fun e => sized (chan e)) (WorkerTable.table_ (contexts_ (world_ v))).
Proof.
  intros Hr. destruct (server_reachable_inv v Hr) as (gm & gs & [Hs Hl Hc Ht Hp]).
  split; [apply (pool_length _ _ Hp)|]. destruct Hs as [[HT Htb] _ Hch _ _ _]. by split_and!.
Qed.

(** ** An execution, for the witnesses

    A scheduler that can be run: who acts next. *)

Inductive choice :=
  | SocketAct
  | SocketTurn (fuel : nat) (m : ThreadManager.received)
  | WorkerAct (i : nat)
  | WorkerTurn (i : nat).

Definition server_choose (v : server) (c : choice) : option server :=
  let '(mkServer W m p) := v in
  match c with
  | SocketAct =>
      match p with
      | Act f k => match f W m with Ret (W', m', b) => Some (mkServer W' m' (k b)) | _ => None end
      | Done _ => None
      end
  | SocketTurn fuel r =>
      match p with
      | Done Next => if flag_ m then Some (mkServer W m (turn fuel r)) else None
      | _ => None
      end
  | WorkerAct i =>
      match threads_ W !! i with
      | Some t =>
          match phase_ t with
          | Running (Act f k) =>
              match f (shared_ W) (load W t) with
              | Ret (s, w, b) => Some (mkServer (store_back W i t s w (Running (k b))) m p)
              | _ => None
              end
          | _ => None
          end
      | None => None
      end
  | WorkerTurn i =>
      match threads_ W !! i with
      | Some t =>
          match phase_ t with
          | Running (Done false) =>
              Some (mkServer (set_phase W i t (Running (Worker.iteration (mem := Worker.Retained)))) m p)
          | _ => None
          end
      | None => None
      end
  end.

Definition choice_ok (c : choice) : Prop :=
  match c with SocketTurn _ m => delivered m | _ => True end.

Lemma server_choose_step v c v' : server_choose v c = Some v' -> choice_ok c -> server_step v v'.
Proof.
  intros E Hok. revert E. destruct v as [W m p], c as [|fuel r|i|i]; simpl; intros E.
  - destruct p as [|B f k]; [done|]. destruct (f W m) as [[[W' m'] b]| |] eqn:Ef; [|done..].
    injection E as <-. by constructor.
  - destruct p as [[]|]; [|done..]. destruct (flag_ m) eqn:Hf; [|done]. injection E as <-. by constructor.
  - destruct (threads_ W !! i) as [t|] eqn:Hi; [|done].
    destruct (phase_ t) as [[|B f k]| |] eqn:Hph; [done| |done..].
    destruct (f (shared_ W) (load W t)) as [[[s w] b]| |] eqn:Ef; [|done..]. injection E as <-.
    by eapply worker_act.
  - destruct (threads_ W !! i) as [t|] eqn:Hi; [|done].
    destruct (phase_ t) as [[[]|]| |] eqn:Hph; [done| |done..]. injection E as <-.
    by eapply worker_turn.
Qed.

(** The socket thread alone until its turn is over; a worker likewise. *)
Fixpoint socket_run (fuel : nat) (v : server) : server :=
  match fuel with
  | O => v
  | S f => match server_choose v SocketAct with Some v' => socket_run f v' | None => v end
  end.
Fixpoint worker_run (fuel : nat) (i : nat) (v : server) : server :=
  match fuel with
  | O => v
  | S f => match server_choose v (WorkerAct i) with Some v' => worker_run f i v' | None => v end
  end.

Definition serve_message (m : ThreadManager.received) (v : server) : server :=
  match server_choose v (SocketTurn 20 m) with Some v' => socket_run 200 v' | None => v end.
Definition serve_job (i : nat) (v : server) : server :=
  match server_choose v (WorkerTurn i) with Some v' => worker_run 200 i v' | None => v end.

Lemma socket_run_steps fuel v : rtc server_step v (socket_run fuel v).
Proof.
  revert v; induction fuel as [|f IH]; intros v; [constructor|]. cbn [socket_run].
  destruct (server_choose v SocketAct) as [v'|] eqn:E; [|constructor].
  eapply rtc_l; [by apply (server_choose_step _ _ _ E)|apply IH].
Qed.

Lemma worker_run_steps fuel i v : rtc server_step v (worker_run fuel i v).
Proof.
  revert v; induction fuel as [|f IH]; intros v; [constructor|]. cbn [worker_run].
  destruct (server_choose v (WorkerAct i)) as [v'|] eqn:E; [|constructor].
  eapply rtc_l; [by apply (server_choose_step _ _ _ E)|apply IH].
Qed.

Lemma serve_message_steps m v : delivered m -> rtc server_step v (serve_message m v).
Proof.
  intros Hm. unfold serve_message. destruct (server_choose v _) as [v'|] eqn:E; [|constructor].
  eapply rtc_l; [by apply (server_choose_step _ _ _ E)|apply socket_run_steps].
Qed.

Lemma serve_job_steps i v : rtc server_step v (serve_job i v).
Proof.
  unfold serve_job. destruct (server_choose v _) as [v'|] eqn:E; [|constructor].
  eapply rtc_l; [by apply (server_choose_step _ _ _ E)|apply worker_run_steps].
Qed.

(** A client starts a transaction and adds a record, which stays queued; its
    worker has answered both messages. *)
Definition start_message : ThreadManager.received :=
  ThreadManager.Message (0 :: replicate 8 0) Channels.conn_default.
Definition add_message : ThreadManager.received :=
  ThreadManager.Message ([1; 0; 0; 0; 0; 0; 0; 1; 0] ++ replicate 40 7) Channels.conn_default.
Definition server_added : server :=
  serve_job 0 (serve_message add_message (serve_job 0 (serve_message start_message server_start))).

Lemma server_added_reachable : server_reachable server_added.
Proof.
  assert (H : delivered start_message /\ delivered add_message).
  { split; (split; [vm_compute; discriminate|]); apply (bool_decide_unpack _); vm_compute; reflexivity. }
  destruct H as [H1 H2]. unfold server_reachable, server_added.
  etrans; [apply (serve_message_steps _ _ H1)|]. etrans; [apply serve_job_steps|].
  etrans; [apply (serve_message_steps _ _ H2)|]. apply serve_job_steps.
Qed.

Definition thread_idle (t : thread) : bool :=
  match phase_ t with Running (Act _ _) => false | _ => true end.

Lemma idle_quiet v :
  (exists st, prog_ v = Done st) -> forallb thread_idle (threads_ (world_ v)) = true -> quiet v.
Proof.
  intros Hst Hi. split; [done|]. intros i t p Ht Hp. rewrite forallb_forall in Hi.
  specialize (Hi t (proj1 (list_elem_of_In _ _) (list_elem_of_lookup_2 _ _ _ Ht))).
  unfold thread_idle in Hi. rewrite Hp in Hi. destruct p; [eauto|done].
Qed.

(** The record is queued: its buffer is the one that is still in use. *)
Lemma server_counts_exact_witness :
  server_reachable server_added /\ size_ (pool_of (world_ server_added)) = 1 /\
  forall i e, buffers_ (pool_of (world_ server_added)) !! i = Some e ->
    ref_count_ e = cnt (points_to i) (object_refs (world_ server_added)).
Proof.
  split; [apply server_added_reachable|]. split; [vm_compute; reflexivity|]. intros i e He.
  destruct (server_counts_exact server_added server_added_reachable) as (locals & H1 & _ & _ & H4).
  rewrite H4 in H1; [by rewrite (H1 i e He), app_nil_r|].
  apply idle_quiet; [exists Next|]; vm_compute; reflexivity.
Defined.

Lemma server_typed_witness :
  server_reachable server_added /\ pool_typed (pool_of (world_ server_added)) /\
  table_typed (Worker.students_ (Worker.db_ (shared_ (world_ server_added)))).
Proof.
  split; [apply server_added_reachable|].
  destruct (server_typed server_added server_added_reachable) as (_ & H1 & H2 & _).
  split; [exact H1|exact H2].
Defined.
