(* ===== verification/Agreement.v ===== *)
(** * The two models of the socket thread agree

    [ThreadManager] gives a turn of the main loop as a function, [Serve] as a
    program of atomic actions.  Run while no worker is active, the program
    does what the function says; so each result of the function is that of an
    execution of [Server], and what is proved of the function (routing, new
    transactions, stopping) holds there. *)
From S2P Require Import Prelude Params Probe BufTable Ring Prog Serve Server.
From S2P Require Bytes JobBuf Channels Worker WorkerTable ThreadManager StudentTable.

(** Everything the function sees, and the rest of the world. *)
Section Agreement.
Context (students : StudentTable.StudentTable) (tick : Z).
Implicit Types (M : ThreadManager.ThreadManager) (ts : list thread).

Definition world_of M ts : world :=
  mkWorld (Worker.mkShared (Worker.mkDatabase students tick (ThreadManager.buffers_ M))
             (ThreadManager.ret_ch_ M)) (ThreadManager.workers_ M) ts.
Definition socket_of M : socket :=
  mkSocket (ThreadManager.running_ M) (ThreadManager.next_txn_id M) (ThreadManager.sent_ M).

(** [p], run alone, takes the manager from [M] to [M'], and the threads from
    [ts] to [ts']. *)
Definition serves {A} (p : mprog A) M ts M' ts' (a : A) : Prop :=
  returns p (world_of M ts) (socket_of M) (world_of M' ts') (socket_of M') a.

Lemma serves_bind {A B} (p : mprog A) (h : A -> mprog B) M ts M1 ts1 a M2 ts2 b :
  serves p M ts M1 ts1 a -> serves (h a) M1 ts1 M2 ts2 b -> serves (p ≫= h) M ts M2 ts2 b.
Proof. apply returns_bind. Qed.

Lemma serves_done {A} (a : A) M ts : serves (Done a) M ts M ts a.
Proof. apply returns_done. Qed.

Lemma serves_pool {B} (f : buf_table -> outcome (buf_table * B)) M ts T b :
  f (ThreadManager.buffers_ M) = Ret (T, b) ->
  serves (on_pool f) M ts (ThreadManager.set_buffers M T) ts b.
Proof. intros Hf. apply returns_act. cbn. by rewrite Hf. Qed.

Lemma serves_read {B} (f : buf_table -> B) M ts :
  serves (read_pool f) M ts M ts (f (ThreadManager.buffers_ M)).
Proof. destruct M. by apply (serves_pool (fun T => Ret (T, f T))). Qed.

Lemma serves_retain r M ts :
  serves (retain r) M ts (ThreadManager.set_buffers M (ref_copy (ThreadManager.buffers_ M) r).1) ts r.
Proof. apply serves_pool. by destruct r. Qed.

Lemma serves_drop r M ts :
  serves (drop_ref r) M ts (ThreadManager.set_buffers M (ref_destroy (ThreadManager.buffers_ M) r).1) ts tt.
Proof. by apply serves_pool. Qed.

Lemma serves_rets {B} (f : Channels.ret_channel Z -> outcome (Channels.ret_channel Z * B)) M ts c b :
  f (ThreadManager.ret_ch_ M) = Ret (c, b) ->
  serves (on_rets f) M ts (ThreadManager.set_ret_ch M c) ts b.
Proof. intros Hf. apply returns_act. cbn. by rewrite Hf. Qed.

Lemma serves_contexts {B} (f : WorkerTable.WorkerTable -> outcome (WorkerTable.WorkerTable * B)) M ts t b :
  f (ThreadManager.workers_ M) = Ret (t, b) ->
  serves (on_contexts f) M ts (ThreadManager.set_workers M t) ts b.
Proof. intros Hf. apply returns_act. cbn. by rewrite Hf. Qed.

Lemma serves_unwrap {A E} (r : Result A E) a M ts : unwrap r = Ret a -> serves (unwrap_ r) M ts M ts a.
Proof. intros Hr. apply returns_act. cbn. by rewrite Hr. Qed.

Lemma serves_reply a p conn M ts :
  serves (reply a p conn) M ts (ThreadManager.reply a p conn M) ts tt.
Proof. by apply returns_act. Qed.

(** ** Forwarding *)

Lemma context_of M ts idx e :
  WorkerTable.table_ (ThreadManager.workers_ M) !! idx = Some e ->
  context_at (world_of M ts) idx = WorkerTable.context_ e.
Proof. intros He. unfold context_at. cbn. by rewrite He. Qed.

Lemma alter_entry_at t idx e f :
  WorkerTable.table_ t !! idx = Some e ->
  alter_entry t idx (on_context f) = WorkerTable.mkTable
    (<[idx := WorkerTable.mkEntry (f (WorkerTable.context_ e)) (WorkerTable.is_used_ e)
                (WorkerTable.is_deleted_ e)]> (WorkerTable.table_ t)) (WorkerTable.entry_count_ t).
Proof. intros He. unfold alter_entry. by rewrite (insert_alter _ _ _ _ He). Qed.

Lemma serves_forward idx r n conn M ts e M' x :
  WorkerTable.table_ (ThreadManager.workers_ M) !! idx = Some e ->
  ThreadManager.forward idx r n conn M = (M', x) -> serves (forward idx r n conn) M ts M' ts x.
Proof.
  intros He. unfold ThreadManager.forward. rewrite He, (WorkerTable.ref_copy_same _ r).
  unfold WorkerTable.send_. destruct (Channels.send _ _ _) as [[T2 ch] y] eqn:Hs. intros [= <- <-].
  unfold forward. eapply serves_bind; [apply serves_retain|].
  set (M1 := ThreadManager.set_buffers M (ref_copy (ThreadManager.buffers_ M) r).1) in *.
  set (t := alter_entry (ThreadManager.workers_ M) idx (on_context (with_channel ch))).
  apply (serves_bind _ _ _ _ (ThreadManager.set_workers (ThreadManager.set_buffers M1 T2) t) ts y).
  - apply returns_act. cbv beta zeta. rewrite (context_of M1 ts idx e) by done.
    change (pool_of (world_of M1 ts)) with (ref_copy (ThreadManager.buffers_ M) r).1. by rewrite Hs.
  - eapply serves_bind; [apply serves_drop|].
    assert (Ht : t = WorkerTable.mkTable (<[idx := WorkerTable.mkEntry
       (WorkerTable.mkContext ch (WorkerTable.txn_id_ (WorkerTable.context_ e))
          (WorkerTable.running_ (WorkerTable.context_ e)) (WorkerTable.joinable_ (WorkerTable.context_ e)))
       (WorkerTable.is_used_ e) (WorkerTable.is_deleted_ e)]> (WorkerTable.table_ (ThreadManager.workers_ M)))
       (WorkerTable.entry_count_ (ThreadManager.workers_ M)))
      by (unfold t; by rewrite (alter_entry_at _ _ e)).
    rewrite <- Ht. unfold Channels.job_destroy, Channels.job_ref. cbn [JobBuf.ref Channels.buf_ Channels.job_make].
    destruct (ref_destroy T2 r) as [T3 r3] eqn:Hd. cbn [fst]. 
    assert (E : ThreadManager.set_buffers (ThreadManager.set_workers (ThreadManager.set_buffers M1 T2) t)
       (ref_destroy (ThreadManager.buffers_ (ThreadManager.set_workers (ThreadManager.set_buffers M1 T2) t)) r).1
       = ThreadManager.set_workers (ThreadManager.set_buffers M T3) t) by (cbn; by rewrite Hd).
    rewrite E. apply serves_done.
Qed.

Lemma serves_stop idx M ts :
  serves (context_stop idx) M ts (ThreadManager.stop_worker idx M) ts tt.
Proof. apply (serves_contexts (fun t => Ret (alter_entry t idx _, tt))). done. Qed.

(** ** Joining *)

(** The manager while the jobs of the worker in slot [idx] are answered. *)
Section Join.
Context (idx : nat) (e : WorkerTable.Entry) (M : ThreadManager.ThreadManager) (ts : list thread).
Context (Hidx : (idx < length (WorkerTable.table_ (ThreadManager.workers_ M)))%nat).

Definition joining (T : buf_table) (ch : Channels.job_channel) (sent : list Channels.datagram)
    : ThreadManager.ThreadManager :=
  ThreadManager.mkManager T (ThreadManager.ret_ch_ M)
    (WorkerTable.mkTable
       (<[idx := WorkerTable.mkEntry (with_channel ch (WorkerTable.context_ e)) (WorkerTable.is_used_ e)
                   (WorkerTable.is_deleted_ e)]> (WorkerTable.table_ (ThreadManager.workers_ M)))
       (WorkerTable.entry_count_ (ThreadManager.workers_ M)))
    (ThreadManager.running_ M) (ThreadManager.next_txn_id M) (ThreadManager.sent_ M ++ sent).

Lemma joining_at T ch sent :
  context_at (world_of (joining T ch sent) ts) idx = with_channel ch (WorkerTable.context_ e).
Proof. unfold context_at. cbn. by rewrite list_lookup_insert_eq. Qed.

Lemma serves_joining {B} (f : world -> socket -> outcome (world * socket * B)) T ch sent T' ch' sent' b :
  f (world_of (joining T ch sent) ts) (socket_of (joining T ch sent)) =
    Ret (world_of (joining T' ch' sent') ts, socket_of (joining T' ch' sent'), b) ->
  serves (act f) (joining T ch sent) ts (joining T' ch' sent') ts b.
Proof. apply returns_act. Qed.

Lemma joining_channel T T' ch ch' sent :
  set_contexts (set_pool (world_of (joining T ch sent) ts) T')
    (alter_entry (contexts_ (world_of (joining T ch sent) ts)) idx (on_context (with_channel ch'))) =
  world_of (joining T' ch' sent) ts.
Proof.
  unfold alter_entry, set_contexts, set_pool, world_of. cbn. do 2 f_equal.
  rewrite (insert_alter _ _ _ _ (list_lookup_insert_eq _ _ _ Hidx)), list_insert_insert_eq. done.
Qed.

(** One round. *)
Lemma answer_round T ch sent j :
  Channels.empty ch = false -> Channels.jobs_ ch !! Channels.head_ ch = Some j ->
  let '(T1, sent1) := WorkerTable.answer_dead T sent j in
  let '(T2, ch2) := Channels.pop T1 ch in
  forall f M' ts', serves (answer_dead f idx) (joining (WorkerTable.forget_dead T2 j) ch2 sent1) ts M' ts' tt ->
    serves (answer_dead (S f) idx) (joining T ch sent) ts M' ts' tt.
Proof.
  intros He Hj. unfold WorkerTable.answer_dead. set (r := Channels.job_ref j).
  rewrite (WorkerTable.ref_copy_same T r). set (T1 := (ref_copy T r).1).
  rewrite (WorkerTable.ref_copy_same T1 r). set (T2 := (ref_copy T1 r).1).
  set (p := JobBuf.mkJobBuf r (Channels.buf_sz j)). set (T3 := JobBuf.set_ack T2 p DEAD_TXN).
  destruct (Channels.pop T3 ch) as [T4 ch2] eqn:Hpop. intros f M' ts' Hrest. cbn [answer_dead].
  set (d := Channels.conn_reply (Channels.conn_ j) (buffer T3 r) 7) in *.
  apply (serves_bind _ _ _ _ (joining T ch sent) ts false).
  { apply serves_joining. rewrite joining_at. cbn. by rewrite He. }
  apply (serves_bind _ _ _ _ (joining T1 ch sent) ts (Ok j)).
  { apply serves_joining. cbv beta. rewrite joining_at. cbn [WorkerTable.job_ch_ with_channel].
    unfold Channels.get, Channels.front_copy. rewrite He, Hj. cbn [negb]. unfold Channels.job_copy.
    change (pool_of (world_of (joining T ch sent) ts)) with T. fold r.
    rewrite (WorkerTable.ref_copy_same T r). fold T1. by destruct j as [[? ?] ?]. }
  eapply serves_bind; [by apply serves_unwrap|].
  apply (serves_bind _ _ _ _ (joining T2 ch sent) ts r).
  { exact (serves_retain r (joining T1 ch sent) ts). }
  apply (serves_bind _ _ _ _ (joining T3 ch (sent ++ [d])) ts tt).
  { apply serves_joining. unfold joining, socket_of, add_sent, world_of. cbn. by rewrite <- app_assoc. }
  apply (serves_bind _ _ _ _ (joining T4 ch2 (sent ++ [d])) ts tt).
  { apply serves_joining. cbv beta. rewrite joining_at. cbn [WorkerTable.job_ch_ with_channel].
    change (pool_of (world_of (joining T3 ch (sent ++ [d])) ts)) with T3. rewrite Hpop.
    by rewrite joining_channel. }
  apply (serves_bind _ _ _ _ (joining (ref_destroy T4 r).1 ch2 (sent ++ [d])) ts tt).
  { exact (serves_drop r (joining T4 ch2 (sent ++ [d])) ts). }
  apply (serves_bind _ _ _ _ (joining (WorkerTable.forget_dead T4 j) ch2 (sent ++ [d])) ts tt).
  { exact (serves_drop r (joining (ref_destroy T4 r).1 ch2 (sent ++ [d])) ts). }
  exact Hrest.
Qed.

Lemma drain_serves fuel T ch sent T' sent' ch' :
  drain WorkerTable.answer_dead WorkerTable.forget_dead fuel T sent ch = Some (T', sent', ch') ->
  serves (answer_dead fuel idx) (joining T ch sent) ts (joining T' ch' sent') ts tt.
Proof.
  revert T ch sent. induction fuel as [|f IH]; intros T ch sent; cbn [drain]; [done|].
  simpl queue_empty. destruct (Channels.empty ch) eqn:He.
  - intros [= <- <- <-]. cbn [answer_dead].
    apply (serves_bind _ _ _ _ (joining T ch sent) ts true); [|apply serves_done].
    apply serves_joining. rewrite joining_at. cbn. by rewrite He.
  - simpl queue_front. rewrite He. destruct (Channels.jobs_ ch !! Channels.head_ ch) as [j|] eqn:Hj; [|done].
    cbn [mbind option_bind]. pose proof (answer_round T ch sent j He Hj) as Hround.
    destruct (WorkerTable.answer_dead T sent j) as [T1 sent1]. simpl queue_pop.
    destruct (Channels.pop T1 ch) as [T2 ch2]. intros Hd. apply Hround, IH, Hd.
Qed.
End Join.

(** The thread of the worker in slot [idx] has ended. *)
Definition ended ts (idx : nat) : Prop :=
  exists i t, thread_of ts idx = Some (i, t) /\ phase_ t = Leaving [].

Lemma ended_others ts i t idx idx' w :
  thread_of ts idx = Some (i, t) -> idx' <> idx -> ended ts idx' ->
  ended (<[i := mkThread (slot_ t) w Joined]> ts) idx'.
Proof.
  intros [Hi [[_ Hs%Nat.eqb_eq]%andb_true_iff _]]%list_find_Some Hne (k & u & Hk & Hu).
  exists k, u. split; [|done]. apply list_find_Some in Hk as (Hk & HP & Hmin). apply list_find_Some.
  assert (Hki : k <> i).
  { intros ->. rewrite Hi in Hk. injection Hk as ->. apply andb_true_iff in HP as [_ HP%Nat.eqb_eq]. lia. }
  split; [by rewrite list_lookup_insert_ne|]. split; [done|]. intros j z Hj Hlt.
  destruct (decide (j = i)) as [->|Hji].
  - rewrite list_lookup_insert_eq in Hj by by eapply lookup_lt_Some. by injection Hj as <-.
  - rewrite list_lookup_insert_ne in Hj by done. by eapply Hmin.
Qed.

(** Nothing is left to be done by a worker that has ended. *)
Definition no_finish (T : buf_table) (ch : Channels.job_channel) := (T, ch).

Definition put_entry M idx e : ThreadManager.ThreadManager :=
  ThreadManager.set_workers M (WorkerTable.mkTable
    (<[idx := e]> (WorkerTable.table_ (ThreadManager.workers_ M)))
    (WorkerTable.entry_count_ (ThreadManager.workers_ M))).

Lemma serves_join idx e M ts T c sent :
  WorkerTable.table_ (ThreadManager.workers_ M) !! idx = Some e -> ended ts idx ->
  WorkerTable.join_ no_finish (ThreadManager.buffers_ M) (WorkerTable.context_ e) = Ret (T, c, sent) ->
  exists ts', serves (join_ idx) M ts (ThreadManager.add_sent (put_entry (ThreadManager.set_buffers M T) idx
      (WorkerTable.mkEntry c (WorkerTable.is_used_ e) (WorkerTable.is_deleted_ e))) sent) ts' tt /\
    forall idx', idx' <> idx -> ended ts idx' -> ended ts' idx'.
Proof.
  intros He (i & t & Ht & Hph). unfold WorkerTable.join_.
  destruct (WorkerTable.joinable_ (WorkerTable.context_ e)) eqn:Hj; [|done].
  cbn [no_finish]. set (ch := WorkerTable.job_ch_ (WorkerTable.context_ e)).
  destruct (drain _ _ _ _ _ _) as [[[T2 sent2] ch2]|] eqn:Hd; [|done]. intros [= <- <- <-].
  set (ts' := <[i := mkThread (slot_ t) (load (world_of M ts) t) Joined]> ts).
  set (e' := WorkerTable.mkEntry (unjoinable (WorkerTable.context_ e)) (WorkerTable.is_used_ e)
    (WorkerTable.is_deleted_ e)).
  assert (Hlt : (idx < length (WorkerTable.table_ (ThreadManager.workers_ M)))%nat)
    by by eapply lookup_lt_Some.
  exists ts'. split; [|intros idx' Hne; by eapply ended_others].
  unfold join_. apply (serves_bind _ _ _ _ (joining idx e' M (ThreadManager.buffers_ M) ch []) ts' tt).
  - apply returns_act. rewrite (context_of M ts idx e He), Hj.
    change (threads_ (world_of M ts)) with ts. rewrite Ht, Hph. unfold ts'.
    rewrite (alter_entry_at _ _ e) by done. unfold world_of, socket_of, joining. cbn.
    rewrite app_nil_r. by destruct M.
  - exact (drain_serves idx e' M ts' Hlt _ _ _ _ _ _ _ Hd).
Qed.

(** ** Removing dead workers *)

Lemma while_true_fst {R1 R2} (f : nat -> option (R1 * R2)) (g : nat -> option R1) n fuel h :
  (forall k, g k = fst <$> f k) -> while_true n g fuel h = fst <$> while_true n f fuel h.
Proof.
  intros Hfg. revert h. induction fuel as [|m IH]; intros h; simpl; [done|]. rewrite Hfg.
  destruct (f h) as [[]|]; simpl; [done|apply IH].
Qed.

(** The workers that have announced their end have ended. *)
Definition ended_among M ts (ids : list Z) : Prop :=
  forall idx e, WorkerTable.table_ (ThreadManager.workers_ M) !! idx = Some e ->
    WorkerTable.entry_key e ∈ ids -> WorkerTable.is_deleted_ e = false -> ended ts idx.

Lemma serves_remove k M ts T t sent x ids :
  ended_among M ts (k :: ids) ->
  WorkerTable.remove_ no_finish (ThreadManager.buffers_ M) (ThreadManager.workers_ M) k = Ret (T, t, sent, x) ->
  let M' := ThreadManager.add_sent (ThreadManager.set_workers (ThreadManager.set_buffers M T) t) sent in
  exists ts', serves (remove_ k) M ts M' ts' tt /\ ended_among M' ts' ids.
Proof.
  intros Hend. unfold WorkerTable.remove_.
  set (f := fun idx => _ : option (nat * WorkerTable.Entry)).
  destruct (while_true WorkerTable.Rows f WorkerTable.Rows (WorkerTable.home k)) as [[idx e]|] eqn:Hw; [|done].
  cbn [of_loop]. destruct (proj1 (while_true_Some _ _ _ _ _ (WorkerTable.worker_home_lt k)) Hw)
    as (j & _ & Hf & _). unfold f in Hf.
  destruct (WorkerTable.table_ _ !! _) as [e1|] eqn:He; [|done].
  destruct ((_ =? _) && _) eqn:Hk; [|done]. injection Hf as Hidx ->. rewrite Hidx in He.
  apply andb_true_iff in Hk as [Hk%Z.eqb_eq Hdel%negb_true_iff].
  rewrite (outcome_bind_ret (idx, e)).
  destruct (WorkerTable.join_ _ _ _) as [[[T2 c] sent2]| |] eqn:Hjoin; [|done..].
  rewrite (outcome_bind_ret (T2, c, sent2)). intros [= <- <- <- <-].
  set (e1 := WorkerTable.mkEntry (WorkerTable.stop_ (WorkerTable.context_ e)) (WorkerTable.is_used_ e)
    (WorkerTable.is_deleted_ e)).
  assert (Hlt : (idx < length (WorkerTable.table_ (ThreadManager.workers_ M)))%nat)
    by by eapply lookup_lt_Some.
  assert (HM1 : ThreadManager.stop_worker idx M = put_entry M idx e1).
  { unfold ThreadManager.stop_worker, put_entry. by rewrite (insert_alter _ _ _ _ He). }
  destruct (serves_join idx e1 (put_entry M idx e1) ts T2 c sent2) as (ts' & Hs & Hothers).
  { cbn. by apply list_lookup_insert_eq. }
  { apply (Hend idx e); [done|rewrite Hk; left|done]. }
  { exact Hjoin. }
  exists ts'. split.
  - unfold remove_. apply (serves_bind _ _ _ _ M ts idx).
    { apply returns_act. cbv beta. change (contexts_ (world_of M ts)) with (ThreadManager.workers_ M).
      rewrite (while_true_fst f), Hw; [by destruct M|]. intros k0. unfold f.
      destruct (_ !! k0) as [e0|]; [|done]. by destruct (_ && _). }
    eapply serves_bind; [apply serves_stop|]. rewrite HM1. eapply serves_bind; [exact Hs|].
    unfold bury. apply returns_act. cbn. rewrite !list_insert_insert_eq.
    rewrite (insert_alter _ _ _ _ (list_lookup_insert_eq _ _ _ Hlt)), list_insert_insert_eq.
    cbn. by destruct M.
  - intros i' e' Hi' Hin Hdel'. cbn in Hi'.
    destruct (decide (i' = idx)) as [->|Hne].
    { rewrite list_lookup_insert_eq in Hi' by done. by injection Hi' as <-. }
    rewrite list_lookup_insert_ne in Hi' by done. apply Hothers; [done|].
    eapply Hend; [done|by right|done].
Qed.

Lemma serves_reap fuel fuel' M ts M' :
  (fuel <= fuel')%nat -> ThreadManager.rets_wf (ThreadManager.ret_ch_ M) ->
  ended_among M ts (ThreadManager.dead_ids (ThreadManager.ret_ch_ M)) ->
  ThreadManager.reap no_finish fuel M = Ret M' -> exists ts', serves (reap fuel') M ts M' ts' tt.
Proof.
  revert fuel' M ts. induction fuel as [|f IH]; intros fuel' M ts Hle Hwf Hend; [done|].
  destruct fuel' as [|f']; [lia|]. cbn [ThreadManager.reap reap].
  destruct (Channels.ret_empty (ThreadManager.ret_ch_ M)) eqn:He.
  { intros [= <-]. exists ts. apply (serves_bind _ _ _ _ M ts true); [|apply serves_done].
    apply returns_act. cbn. rewrite He. by destruct M. }
  destruct (ThreadManager.dead_ids (ThreadManager.ret_ch_ M)) as [|x l] eqn:Hd.
  { destruct (ThreadManager.dead_ids_count _ Hwf) as [Hn _]. rewrite Hd in Hn.
    unfold Channels.ret_empty in He. by rewrite Hn in He. }
  destruct (ThreadManager.ret_pop_spec _ x l Hwf Hd) as (_ & Hg & Hwf' & Hd').
  rewrite Hg, (outcome_bind_ret x).
  destruct (WorkerTable.remove_ _ _ _ _) as [[[[T t] sent] y]| |] eqn:Hrm; [|done..].
  rewrite (outcome_bind_ret (T, t, sent, y)). intros Hreap.
  destruct (serves_remove x M ts T t sent y l Hend Hrm) as (ts1 & Hs & Hend1).
  edestruct (IH f' (ThreadManager.set_ret_ch _ (Channels.ret_pop (ThreadManager.ret_ch_ M))) ts1
    ltac:(lia) Hwf' ltac:(rewrite <- Hd' in Hend1; exact Hend1) Hreap) as (ts' & Hrest).
  exists ts'. apply (serves_bind _ _ _ _ M ts false).
  { apply returns_act. cbn. rewrite He. by destruct M. }
  apply (serves_bind _ _ _ _ M ts (Ok x)).
  { apply returns_act. cbn. rewrite Hg. by destruct M. }
  eapply serves_bind; [by apply serves_unwrap|]. eapply serves_bind; [exact Hs|].
  eapply serves_bind; [by apply serves_rets|]. exact Hrest.
Qed.

(** ** One message *)

Lemma serves_insert c M ts t r :
  WorkerTable.insert_ (ThreadManager.workers_ M) c = Ret (t, r) ->
  exists ts', serves (insert_ c) M ts (ThreadManager.set_workers M t) ts' r.
Proof.
  intros Hi. destruct (value_ r) as [idx|] eqn:Hr; eexists; apply returns_act; cbv beta;
    change (contexts_ (world_of M ts)) with (ThreadManager.workers_ M); rewrite Hi;
    rewrite (outcome_bind_ret (t, r)), Hr; reflexivity.
Qed.

Lemma inserted_slot w c t r idx :
  WorkerTable.insert_ w c = Ret (t, r) -> value_ r = Some idx ->
  exists e, WorkerTable.table_ t !! idx = Some e.
Proof.
  unfold WorkerTable.insert_. destruct (WorkerTable.full_ w); [by intros [= <- <-]|].
  destruct (while_true _ _ _ _) as [[i e]|] eqn:Hw; [|done]. cbn [of_loop].
  rewrite (outcome_bind_ret (i, e)). destruct (WorkerTable.start_ _) as [c'| |]; [|done..].
  rewrite (outcome_bind_ret c'). intros [= <- <-] [= <-].
  apply while_true_Some in Hw as (j & _ & Hf & _); [|apply WorkerTable.worker_home_lt].
  destruct (_ !! _) as [e1|] eqn:He; [|done]. destruct (_ || _); [|done]. injection Hf as <- _.
  eexists. apply list_lookup_insert_eq. by eapply lookup_lt_Some.
Qed.

Lemma searched_slot w k idx :
  value_ (WorkerTable.search_ w k) = Some idx -> exists e, WorkerTable.table_ w !! idx = Some e.
Proof.
  rewrite WorkerTable.worker_search_loop.
  destruct (while_true _ _ _ _) as [r|] eqn:Hw; [|done]. cbn [default from_option]. intros Hr.
  apply while_true_Some in Hw as (j & _ & Hf & _); [|apply WorkerTable.worker_home_lt].
  unfold seek in Hf. destruct (WorkerTable.table_ w !! _) as [e|] eqn:He; [|done].
  destruct (negb _); [by injection Hf as <-|]. destruct (hits _ _ _ _ _); [|done]. injection Hf as <-.
  injection Hr as <-. by exists e.
Qed.

Section Message.
Context (fuel : nat) (parser : JobBuf.job_buf) (recv_buffer : buf_ref) (n : Z).
Context (conn : Channels.client_conn).

Lemma serves_start_txn M ts M' :
  (Z.to_nat (Channels.ret_count_ (ThreadManager.ret_ch_ M)) < fuel)%nat ->
  ThreadManager.rets_wf (ThreadManager.ret_ch_ M) ->
  ended_among M ts (ThreadManager.dead_ids (ThreadManager.ret_ch_ M)) ->
  ThreadManager.start_txn no_finish parser recv_buffer n conn M = Ret M' ->
  exists ts', serves (start_txn fuel parser recv_buffer n conn) M ts M' ts' tt.
Proof.
  intros Hfuel Hwf Hend. unfold ThreadManager.start_txn.
  destruct (ThreadManager.reap _ _ _) as [M1| |] eqn:Hr; [|done..]. rewrite (outcome_bind_ret M1).
  destruct (serves_reap (S (Z.to_nat (Channels.ret_count_ (ThreadManager.ret_ch_ M))))
    fuel M ts M1 ltac:(lia) Hwf Hend Hr) as (ts1 & Hs1).
  destruct (WorkerTable.insert_ _ _) as [[t r]| |] eqn:Hi; [|done..]. rewrite (outcome_bind_ret (t, r)).
  destruct (serves_insert _ M1 ts1 t r Hi) as (ts2 & Hs2). intros Hm. exists ts2.
  unfold start_txn. eapply serves_bind; [exact Hs1|].
  apply (serves_bind _ _ _ _ M1 ts1 (ThreadManager.next_txn_id M1)); [by apply returns_act|].
  eapply serves_bind; [exact Hs2|]. destruct (value_ r) as [idx|] eqn:Hv.
  - destruct (inserted_slot _ _ _ _ _ Hi Hv) as (e & He).
    destruct (ThreadManager.forward _ _ _ _ _) as [M2 x] eqn:Hf. injection Hm as <-.
    eapply serves_bind; [by eapply (serves_forward idx)|]. by apply returns_act.
  - injection Hm as <-. apply serves_reply.
Qed.

Lemma serves_route op M ts M' :
  ThreadManager.route op parser recv_buffer n conn M = Ret M' ->
  serves (route op parser recv_buffer n conn) M ts M' ts tt.
Proof.
  unfold ThreadManager.route, route. intros Hm. eapply serves_bind; [apply serves_read|].
  destruct (negb (is_ok (JobBuf.get_txn _ parser))).
  { injection Hm as <-. apply serves_reply. }
  destruct (unwrap (JobBuf.get_txn _ _)) as [id| |] eqn:Hu; [|done..].
  rewrite (outcome_bind_ret id) in Hm. eapply serves_bind; [by apply serves_unwrap|].
  apply (serves_bind _ _ _ _ M ts (WorkerTable.search_ (ThreadManager.workers_ M) id)).
  { apply returns_act. by destruct M. }
  destruct (value_ _) as [idx|] eqn:Hv; [|injection Hm as <-; apply serves_reply].
  destruct (searched_slot _ _ _ Hv) as (e & He).
  destruct (ThreadManager.forward _ _ _ _ _) as [M2 x] eqn:Hf.
  eapply serves_bind; [by eapply serves_forward|].
  destruct (negb _); [injection Hm as <-; apply serves_reply|]. injection Hm as <-.
  destruct (bool_decide _); [apply serves_stop|apply serves_done].
Qed.

Lemma serves_handle M ts M' :
  (Z.to_nat (Channels.ret_count_ (ThreadManager.ret_ch_ M)) < fuel)%nat ->
  ThreadManager.rets_wf (ThreadManager.ret_ch_ M) ->
  ended_among M ts (ThreadManager.dead_ids (ThreadManager.ret_ch_ M)) ->
  ThreadManager.handle no_finish parser recv_buffer n conn M = Ret M' ->
  exists ts', serves (handle fuel parser recv_buffer n conn) M ts M' ts' tt.
Proof.
  intros Hfuel Hwf Hend. unfold ThreadManager.handle, handle. intros Hm.
  enough (exists ts', serves (
    if negb (is_ok (JobBuf.get_op (ThreadManager.buffers_ M) parser)) ||
       negb (is_ok (JobBuf.get_op_id (ThreadManager.buffers_ M) parser))
    then reply BAD_OP parser conn
    else op ← unwrap_ (JobBuf.get_op (ThreadManager.buffers_ M) parser);
         match op with
         | START_TXN => start_txn fuel parser recv_buffer n conn
         | MAX_OP_VALUE => Done tt
         | _ => route op parser recv_buffer n conn
         end) M ts M' ts' tt) as (ts' & Hs).
  { exists ts'. eapply serves_bind; [apply serves_read|]. eapply serves_bind; [apply serves_read|]. exact Hs. }
  destruct (_ || _).
  { injection Hm as <-. exists ts. apply serves_reply. }
  destruct (unwrap (JobBuf.get_op _ _)) as [op| |] eqn:Hu; [|done..].
  rewrite (outcome_bind_ret op) in Hm. 
  destruct op; try (destruct (serves_start_txn M ts M' Hfuel Hwf Hend Hm) as (ts' & Hs); exists ts');
    try (exists ts); (eapply serves_bind; [by apply serves_unwrap|]); try done; try by apply serves_route.
  injection Hm as <-. apply serves_done.
Qed.
End Message.

(** The threads may change. *)
Definition does {A} (p : mprog A) M ts M' (a : A) : Prop := exists ts', serves p M ts M' ts' a.

Lemma does_bind {A B} (p : mprog A) (h : A -> mprog B) M ts M1 ts1 a M2 b :
  serves p M ts M1 ts1 a -> does (h a) M1 ts1 M2 b -> does (p ≫= h) M ts M2 b.
Proof. intros Hp (ts' & Hh). exists ts'. by eapply serves_bind. Qed.

Lemma does_done {A} (a : A) M ts : does (Done a) M ts M a.
Proof. exists ts. apply serves_done. Qed.

(** The end of the body: the two references to the buffer go away. *)
Lemma does_leave M ts b (go : bool) :
  does (drop_ref b ≫= fun _ => drop_ref b ≫= fun _ => Done go) M ts
    (ThreadManager.set_buffers M
       (ref_destroy (ref_destroy (ThreadManager.buffers_ M) b).1 b).1) go.
Proof.
  eapply does_bind; [apply serves_drop|]. eapply does_bind; [apply serves_drop|]. apply does_done.
Qed.

Lemma serves_body fuel r M ts M' go :
  (Z.to_nat (Channels.ret_count_ (ThreadManager.ret_ch_ M)) < fuel)%nat ->
  ThreadManager.rets_wf (ThreadManager.ret_ch_ M) ->
  ended_among M ts (ThreadManager.dead_ids (ThreadManager.ret_ch_ M)) ->
  ThreadManager.body no_finish r M = Ret (M', go) -> does (body fuel r) M ts M' go.
Proof.
  intros Hfuel Hwf Hend. unfold ThreadManager.body, body.
  destruct (request (ThreadManager.buffers_ M)) as [[T1 q]| |] eqn:Hq; [|done..].
  rewrite (outcome_bind_ret (T1, q)). intros Hm.
  eapply does_bind; [by apply serves_pool|]. cbv beta.
  destruct (value_ q) as [b|]; [|injection Hm as <- <-; apply does_done].
  rewrite (WorkerTable.ref_copy_same T1 b) in Hm. set (T2 := (ref_copy T1 b).1) in *.
  set (M1 := ThreadManager.set_buffers M T2) in *.
  apply (does_bind _ _ _ _ M1 ts b); [apply serves_retain|].
  destruct r as [| |bytes conn].
  - injection Hm as <- <-. eapply does_bind; [apply serves_done|]. apply does_leave.
  - injection Hm as <- <-. eapply does_bind; [apply serves_done|]. apply does_leave.
  - set (T3 := store T2 b (Bytes.write (buffer T2 b) 0 bytes)) in *.
    rewrite (WorkerTable.ref_copy_same T3 b) in Hm. set (T4 := (ref_copy T3 b).1) in *.
    set (M4 := ThreadManager.set_buffers M T4) in *. set (n := Z.of_nat (length bytes)) in *.
    destruct (ThreadManager.handle _ _ _ _ _ _) as [M5| |] eqn:Hh; [|done..].
    rewrite (outcome_bind_ret M5) in Hm. injection Hm as <- <-.
    destruct (serves_handle fuel (JobBuf.mkJobBuf b n) b n conn M4 ts M5 Hfuel Hwf Hend Hh) as (ts5 & Hs5).
    apply (does_bind _ _ _ _ (ThreadManager.set_buffers M5
      (ref_destroy (ThreadManager.buffers_ M5) b).1) ts5 true); [|apply does_leave].
    apply (serves_bind _ _ _ _ (ThreadManager.set_buffers M T3) ts tt).
    { by apply (serves_pool _ M1 ts T3 tt). }
    apply (serves_bind _ _ _ _ M4 ts b).
    { apply (serves_retain b (ThreadManager.set_buffers M T3)). }
    eapply serves_bind; [exact Hs5|]. eapply serves_bind; [apply serves_drop|]. apply serves_done.
Qed.

(** ** Shutting down *)

Definition with_table M (l : list WorkerTable.Entry) (count : Z) : ThreadManager.ThreadManager :=
  ThreadManager.set_workers M (WorkerTable.mkTable l count).

Definition runs (e : WorkerTable.Entry) : bool :=
  WorkerTable.is_used_ e && negb (WorkerTable.is_deleted_ e).

Lemma serves_running M pre e l n ts :
  serves (on_contexts (fun t => Ret (t, running_at t (length pre)))) (with_table M (pre ++ e :: l) n) ts
    (with_table M (pre ++ e :: l) n) ts (runs e).
Proof. apply returns_act. cbn. unfold running_at. cbn. by rewrite list_lookup_middle. Qed.

Lemma alter_middle {A} (f : A -> A) pre x (l : list A) :
  alter f (length pre) (pre ++ x :: l) = pre ++ f x :: l.
Proof. induction pre as [|y pre IH]; [done|]. simpl. f_equal. apply IH. Qed.

Lemma insert_middle {A} pre x y (l : list A) : <[length pre := y]> (pre ++ x :: l) = pre ++ y :: l.
Proof. induction pre as [|z pre IH]; [done|]. simpl. f_equal. apply IH. Qed.

Lemma serves_stop_all M pre l n ts :
  serves (stop_all (length l) (length pre)) (with_table M (pre ++ l) n) ts
    (with_table M (pre ++ (WorkerTable.stop_entry <$> l)) n) ts tt.
Proof.
  revert pre. induction l as [|e l IH]; intros pre; cbn [length stop_all]; [apply serves_done|].
  eapply serves_bind; [apply serves_running|].
  apply (serves_bind _ _ _ _ (with_table M (pre ++ WorkerTable.stop_entry e :: l) n) ts tt).
  - unfold runs, WorkerTable.stop_entry. destruct (_ && _); [|apply serves_done].
    apply (serves_contexts (fun t => Ret (alter_entry t (length pre) (on_context WorkerTable.stop_), tt))
      (with_table M (pre ++ e :: l) n) ts
      (WorkerTable.mkTable (pre ++ on_context WorkerTable.stop_ e :: l) n) tt).
    unfold alter_entry. cbn [ThreadManager.workers_ with_table ThreadManager.set_workers WorkerTable.table_
      WorkerTable.entry_count_]. by rewrite alter_middle.
  - specialize (IH (pre ++ [WorkerTable.stop_entry e])).
    rewrite length_app, <- !app_assoc in IH. exact IH.
Qed.

Definition ended_from ts (l : list WorkerTable.Entry) (k : nat) : Prop :=
  forall i e, l !! i = Some e -> runs e = true -> ended ts (k + i)%nat.

Lemma serves_bury M pre e l n ts :
  serves (bury (length pre)) (with_table M (pre ++ e :: l) n) ts
    (with_table M (pre ++ WorkerTable.mkEntry (WorkerTable.context_ e) (WorkerTable.is_used_ e) true :: l)
       (u64 (n - 1))) ts tt.
Proof.
  unfold bury. apply (serves_contexts _ (with_table M (pre ++ e :: l) n) ts
    (WorkerTable.mkTable (pre ++ WorkerTable.mkEntry (WorkerTable.context_ e) (WorkerTable.is_used_ e) true
       :: l) (u64 (n - 1))) tt).
  cbn [ThreadManager.workers_ with_table ThreadManager.set_workers WorkerTable.table_
      WorkerTable.entry_count_]. by rewrite alter_middle.
Qed.

Lemma does_join_all M pre l n ts T l' n' sent :
  ended_from ts l (length pre) ->
  WorkerTable.join_entries no_finish (ThreadManager.buffers_ M) l n = Ret (T, l', n', sent) ->
  does (join_all (length l) (length pre)) (with_table M (pre ++ l) n) ts
    (ThreadManager.add_sent (with_table (ThreadManager.set_buffers M T) (pre ++ l') n') sent) tt.
Proof.
  revert M pre n ts T l' n' sent. induction l as [|e l IH]; intros M pre n ts T l' n' sent Hend;
    cbn [WorkerTable.join_entries length join_all].
  { intros [= <- <- <- <-]. destruct M. unfold with_table, ThreadManager.add_sent. cbn. rewrite !app_nil_r.
    apply does_done. }
  assert (Hend' : forall ts', (forall k, k <> length pre -> ended ts k -> ended ts' k) ->
    ended_from ts' l (length pre + 1)).
  { intros ts' Hts i e' Hi Hr. apply Hts; [lia|]. specialize (Hend (S i) e' Hi Hr).
    by replace (length pre + 1 + i)%nat with (length pre + S i)%nat by lia. }
  change (WorkerTable.is_used_ e && negb (WorkerTable.is_deleted_ e)) with (runs e).
  destruct (runs e) eqn:Hr; intros Hj.
  - destruct (WorkerTable.join_ _ _ _) as [[[T1 c] sent1]| |] eqn:Hjoin; [|done..].
    rewrite (outcome_bind_ret (T1, c, sent1)) in Hj.
    destruct (WorkerTable.join_entries _ _ _ _) as [[[[T2 l2] n2] sent2]| |] eqn:Hrest; [|done..].
    rewrite (outcome_bind_ret (T2, l2, n2, sent2)) in Hj. injection Hj as <- <- <- <-.
    destruct (serves_join (length pre) e (with_table M (pre ++ e :: l) n) ts T1 c sent1) as (ts1 & Hs & Ho).
    { by apply list_lookup_middle. }
    { specialize (Hend 0%nat e eq_refl Hr). by rewrite Nat.add_0_r in Hend. }
    { exact Hjoin. }
    set (e2 := WorkerTable.mkEntry c (WorkerTable.is_used_ e) (WorkerTable.is_deleted_ e)) in *.
    set (e3 := WorkerTable.mkEntry c (WorkerTable.is_used_ e) true) in *.
    set (M1 := ThreadManager.add_sent (ThreadManager.set_buffers M T1) sent1).
    change (ThreadManager.add_sent _ sent1) with
      (with_table M1 (<[length pre := e2]> (pre ++ e :: l)) n) in Hs. rewrite insert_middle in Hs.
    specialize (IH M1 (pre ++ [e3]) (u64 (n - 1)) ts1 T2 l2 n2 sent2).
    rewrite length_app, <- !app_assoc in IH. specialize (IH (Hend' ts1 Ho) Hrest) as (ts2 & Hs2).
    exists ts2. eapply serves_bind; [apply serves_running|]. rewrite Hr.
    eapply serves_bind; [eapply serves_bind; [exact Hs|apply serves_bury]|].
    unfold ThreadManager.add_sent, M1 in Hs2. cbn in Hs2. rewrite <- app_assoc in Hs2. exact Hs2.
  - destruct (WorkerTable.join_entries _ _ _ _) as [[[[T2 l2] n2] sent2]| |] eqn:Hrest; [|done..].
    rewrite (outcome_bind_ret (T2, l2, n2, sent2)) in Hj. injection Hj as <- <- <- <-.
    specialize (IH M (pre ++ [e]) n ts T2 l2 n2 sent2). rewrite length_app, <- !app_assoc in IH.
    specialize (IH (Hend' ts (fun _ _ H => H)) Hrest) as (ts2 & Hs2).
    exists ts2. eapply serves_bind; [apply serves_running|]. rewrite Hr.
    eapply serves_bind; [apply serves_done|]. exact Hs2.
Qed.

Lemma serves_shut_down M ts M' :
  length (WorkerTable.table_ (ThreadManager.workers_ M)) = WorkerTable.Rows ->
  ended_from ts (WorkerTable.table_ (ThreadManager.workers_ M)) 0 ->
  ThreadManager.shut_down no_finish M = Ret M' -> does shut_down M ts M' tt.
Proof.
  intros Hlen Hend. unfold ThreadManager.shut_down, WorkerTable.clear_.
  destruct (WorkerTable.join_entries _ _ _ _) as [[[[T l] n] sent]| |] eqn:Hj; [|done..].
  rewrite (outcome_bind_ret (T, l, n, sent)).
  rewrite (outcome_bind_ret (T, WorkerTable.mkTable l n, sent)). intros [= <-].
  set (tb := WorkerTable.table_ (ThreadManager.workers_ M)) in *.
  set (n0 := WorkerTable.entry_count_ (ThreadManager.workers_ M)) in *.
  assert (HM : M = with_table M ([] ++ tb) n0).
  { unfold tb, n0. by destruct M as [? ? [] ? ? ?]. }
  unfold shut_down. eapply does_bind.
  - rewrite HM at 1. rewrite <- Hlen. exact (serves_stop_all M [] tb n0 ts).
  - replace WorkerTable.Rows with (length (WorkerTable.stop_entry <$> tb)) by by rewrite length_fmap.
    apply (does_join_all M [] _ n0 ts T l n sent); [|exact Hj].
    intros i e Hi Hr. apply list_lookup_fmap_Some in Hi as (e0 & -> & Hi). apply (Hend i e0 Hi).
    unfold WorkerTable.stop_entry in Hr. unfold runs in *.
    destruct (WorkerTable.is_used_ e0 && negb (WorkerTable.is_deleted_ e0)) eqn:E; [done|].
    by rewrite E in Hr.
Qed.
End Agreement.

(** ** Property *)

(** A run of the socket thread alone is an execution of the server. *)
Lemma returns_steps {A} (p : mprog A) (h : A -> mprog stage) W m W' m' a :
  returns p W m W' m' a -> rtc server_step (mkServer W m (p ≫= h)) (mkServer W' m' (h a)).
Proof.
  intros Hr. destruct (Hr 0%nat) as (n' & E). clear Hr. revert E. generalize 0%nat as n. revert W m.
  induction p as [x|B f k IH]; intros W m n E; simpl in E.
  { injection E as <- <- <- <-. constructor. }
  unfold idle in E. destruct (f W m) as [[[W1 m1] b]| |] eqn:Hf; [|done..].
  eapply rtc_l; [by apply (socket_act W m B f (fun b => bind (k b) h))|]. by eapply IH.
Qed.

(** C29.  The two models of the socket thread agree.  Whatever a turn of
    the main loop computes as a function of the manager's state, for any
    message, the server can do by steps of its socket thread, the workers
    that have announced their end having ended: it gets to the same pool,
    worker table, channels, counters and replies, and goes on or leaves the
    loop as the function says.  The same holds of the shut down after the
    loop, once all workers have ended. *)
Theorem turn_agrees students tick M ts :
  let at_state M ts p := mkServer (world_of students tick M ts) (socket_of M) p in
  (forall fuel r M' go, ThreadManager.running_ M = true -> delivered r ->
     (Z.to_nat (Channels.ret_count_ (ThreadManager.ret_ch_ M)) < fuel)%nat ->
     ThreadManager.rets_wf (ThreadManager.ret_ch_ M) ->
     ended_among M ts (ThreadManager.dead_ids (ThreadManager.ret_ch_ M)) ->
     ThreadManager.body no_finish r M = Ret (M', go) ->
     exists ts', rtc server_step (at_state M ts (Done Next))
       (at_state M' ts' (Done (if go then Next else Break)))) /\
  (forall M', length (WorkerTable.table_ (ThreadManager.workers_ M)) = WorkerTable.Rows ->
     ended_from ts (WorkerTable.table_ (ThreadManager.workers_ M)) 0 ->
     ThreadManager.shut_down no_finish M = Ret M' ->
     exists ts', rtc server_step (at_state M ts (Done Break)) (at_state M' ts' (Done Over))).
Proof.
  intros at_state. split.
  - intros fuel r M' go Hrun Hd Hfuel Hwf Hend Hb.
    destruct (serves_body students tick fuel r M ts M' go Hfuel Hwf Hend Hb) as (ts' & Hs). exists ts'.
    eapply rtc_l; [by apply (socket_turn _ _ fuel r)|].
    exact (returns_steps _ (fun go : bool => Done (if go then Next else Break)) _ _ _ _ _ Hs).
  - intros M' Hlen He Hm.
    destruct (serves_shut_down students tick M ts M' Hlen He Hm) as (ts' & Hs). exists ts'.
    eapply rtc_l; [apply socket_break|].
    exact (returns_steps _ (fun _ : unit => Done Over) _ _ _ _ _ Hs).
Qed.

(** ** Witness: [START_TXN] with one worker to remove *)

(** Worker 7 left one job, in buffer 0. *)
Definition pool_one : buf_table :=
  match request buf_table_default with
  | Ret (T, _) => store T (Some 0%nat) (Bytes.write (buffer T (Some 0%nat)) 0 [2; 1; 7; 0; 0; 0; 0; 1])
  | _ => buf_table_default
  end.
Definition manager_dead : ThreadManager.ThreadManager :=
  ThreadManager.mkManager pool_one (ThreadManager.announced (Channels.ret_channel_make 0) 7)
    WorkerTable.workers7 true 8 [].
Definition thread_dead : thread :=
  mkThread 7 (Worker.worker_make true Channels.job_channel_default 7) (Leaving []).
Definition start_request : ThreadManager.received :=
  ThreadManager.Message (replicate 9 0) Channels.conn_default.
Definition manager_next : ThreadManager.ThreadManager :=
  match ThreadManager.body no_finish start_request manager_dead with
  | Ret (M, _) => M
  | _ => manager_dead
  end.

Lemma turn_agrees_witness :
  exists ts', rtc server_step
    (mkServer (world_of StudentTable.table_default 0 manager_dead [thread_dead])
       (socket_of manager_dead) (Done Next))
    (mkServer (world_of StudentTable.table_default 0 manager_next ts')
       (socket_of manager_next) (Done Next)) /\
    length (ThreadManager.sent_ manager_next) = 1%nat /\
    WorkerTable.txn_id_ <$> WorkerTable.workers (ThreadManager.workers_ manager_next) = [8].
Proof.
  destruct (turn_agrees StudentTable.table_default 0 manager_dead [thread_dead]) as [H _].
  destruct (H 2%nat start_request manager_next true) as (ts' & Hr).
  - vm_compute. reflexivity.
  - split; [vm_compute; discriminate|]. apply (bool_decide_unpack _). vm_compute. reflexivity.
  - vm_compute. lia.
  - apply ThreadManager.announced_room; [apply ThreadManager.rets_make_wf|vm_compute; lia].
  - intros idx e He Hin Hdel. exists 0%nat, thread_dead. split; [|reflexivity].
    assert (Hk : idx = 7%nat); [|rewrite Hk; reflexivity].
    assert (Hall : Forall (fun p : nat * WorkerTable.Entry => WorkerTable.entry_key p.2 = 7 -> p.1 = 7%nat)
      (imap pair (WorkerTable.table_ (ThreadManager.workers_ manager_dead)))).
    { apply (bool_decide_unpack _). vm_compute. reflexivity. }
    apply (Forall_lookup_1 _ _ idx (idx, e)) in Hall; [apply Hall|by rewrite list_lookup_imap, He].
    apply elem_of_cons in Hin as [Hk|Hin]; [exact Hk|by inversion Hin].
  - unfold manager_next. destruct (ThreadManager.body no_finish start_request manager_dead) as [[M go]| |] eqn:E.
    + f_equal. f_equal. transitivity (match ThreadManager.body no_finish start_request manager_dead with
        Ret (_, b) => b | _ => false end); [by rewrite E|vm_compute; reflexivity].
    + exfalso. assert (Hx : match ThreadManager.body no_finish start_request manager_dead with
        Hang => false | _ => true end = true) by (vm_compute; reflexivity). by rewrite E in Hx.
    + exfalso. assert (Hx : match ThreadManager.body no_finish start_request manager_dead with
        Undef => false | _ => true end = true) by (vm_compute; reflexivity). by rewrite E in Hx.
  - exists ts'. split; [exact Hr|]. split; vm_compute; reflexivity.
Defined.
