(* ===== verification/Refinement.v ===== *)
(** * The server refines the system of workers

    [System] lets the socket thread do anything to the pool, the return
    channel, the job channels and the flags, and start workers.  The server
    of [Server] runs the code of the socket thread.  Every execution of the
    server is one of the system, so what [System] proves holds of the
    server. *)
From S2P Require Import Prelude Params Probe BufTable UniqueKey Ring Prog Counted Typing.
From S2P Require Import WorkerLogic References Serve Server.
From S2P Require StudentTable StudentTuple LockList CommitQueue Channels Worker WorkerTable System.

(** A thread as [System] sees it; one that is being destroyed, or has been
    joined, has quit. *)
Definition sys_thread (W : world) (t : thread) : System.thread :=
  match phase_ t with
  | Running p => (load W t, p)
  | Leaving _ => (load W t, Done true)
  | Joined => (worker_ t, Done true)
  end.

Definition sys_of (W : world) : System.config := (shared_ W, sys_thread W <$> threads_ W).

(** Executions within the bounds of [System]: the range of the 8-bit counters,
    and a buffer for every job that is next in a channel. *)
Definition bounded (v : server) : Prop := System.bounded (sys_of (world_ v)).
Definition bounded_step (v v' : server) : Prop := bounded v /\ server_step v v'.

(** ** What the socket thread does to a worker *)

Lemma bare_eq (w w' : Worker.Worker) :
  bare w' = bare w ->
  w' = Worker.set_running (Worker.set_job_ch w (Worker.job_ch_ w')) (Worker.running_ w').
Proof. destruct w, w'. unfold bare. simpl. by intros [= -> -> -> -> -> ->]. Qed.

(** Two views of a thread that differ in channel and flag only. *)
Definition sys_same (t t' : System.thread) : Prop := t'.2 = t.2 /\ bare t'.1 = bare t.1.

Lemma sys_same_thread W W' t t' : same_thread t t' -> sys_same (sys_thread W t) (sys_thread W' t').
Proof.
  unfold sys_same, sys_thread. intros [->|(_ & Hw & -> & ->)]; [|by split]. by destruct (phase_ t).
Qed.

(** The threads are brought up to date one by one. *)
Lemma contexts_step s pre post ts ts' :
  room (view_of s) -> Forall (fun t : System.thread => front_ready t.1) (pre ++ ts ++ post) ->
  Forall (fun t : System.thread => front_ready t.1) ts' -> Forall2 sys_same ts ts' ->
  rtc System.bounded_step (s, pre ++ ts ++ post) (s, pre ++ ts' ++ post).
Proof.
  intros Hr Hf Hf' Hs. revert pre Hf Hf'. induction Hs as [|t t' ts ts' [Hp Hb] Hs IH]; intros pre Hf Hf';
    [constructor|]. apply Forall_cons_1 in Hf' as [Ht' Hf'].
  apply (rtc_l _ _ (s, pre ++ t' :: ts ++ post)).
  - split; [by split|].
    assert (E : pre ++ t' :: ts ++ post = <[length pre := t']> (pre ++ t :: ts ++ post)).
    { rewrite insert_app_r_alt by done. by rewrite Nat.sub_diag. }
    rewrite E. clear E. destruct t as [w p], t' as [w' p']. simpl in Hp, Hb. subst p'.
    rewrite (bare_eq w w' Hb). apply System.context_step with (w := w).
    by apply list_lookup_middle.
  - rewrite (cons_middle t' pre (ts ++ post)).
    change (pre ++ (t' :: ts') ++ post) with (pre ++ t' :: (ts' ++ post)).
    rewrite (cons_middle t' pre (ts' ++ post)). rewrite !(app_assoc pre). apply IH; [|done].
    rewrite <- app_assoc. apply Forall_app in Hf as [H1 H2]. apply Forall_app. split; [done|].
    apply Forall_cons_1 in H2 as [_ H2]. by constructor.
Qed.

(** The pool and the return channel. *)
Lemma shared_eq s s' :
  Worker.students_ (Worker.db_ s') = Worker.students_ (Worker.db_ s) ->
  Worker.tickstamp_ (Worker.db_ s') = Worker.tickstamp_ (Worker.db_ s) ->
  s' = Worker.mkShared (Worker.db_ (Worker.set_buffers s (Worker.buffers_ (Worker.db_ s'))))
         (Worker.ret_ch_ s').
Proof. destruct s as [[]], s' as [[]]. simpl. by intros -> ->. Qed.

(** An action of the socket thread is a few steps of the system. *)
Lemma socket_sys W W' :
  socket_change W W' -> System.bounded (sys_of W) -> System.bounded (sys_of W') ->
  rtc System.bounded_step (sys_of W) (sys_of W').
Proof.
  intros [Ht Hk Hts] [Hr Hf] [Hr' Hf']. simpl in *.
  apply (rtc_l _ _ (shared_ W', sys_thread W <$> threads_ W)).
  { split; [by split|]. unfold sys_of. rewrite (shared_eq (shared_ W) (shared_ W') Ht Hk).
    constructor. }
  destruct Hts as [Hsame|(i & r & ch & id & Hnew)].
  - pose proof (contexts_step (shared_ W') [] [] (sys_thread W <$> threads_ W)
      (sys_thread W' <$> threads_ W') Hr') as H.
    rewrite !app_nil_r in H. apply H; [done..|].
    apply Forall2_fmap. eapply Forall2_impl; [|exact Hsame]. intros t t'. apply sys_same_thread.
  - unfold sys_of. rewrite Hnew, fmap_app in *. apply Forall_app in Hf' as [Hf' _].
    pose proof (contexts_step (shared_ W') [] [] (sys_thread W <$> threads_ W)
      (sys_thread W' <$> threads_ W) Hr') as H.
    rewrite !app_nil_r in H. etrans; [apply H; [done..|]|].
    + apply Forall2_fmap. apply Forall_Forall2_diag, list.Forall_forall. intros t _.
      apply sys_same_thread. reflexivity.
    + apply rtc_once. split; [by split|]. apply System.spawn_step.
Qed.

(** ** What a worker does *)

(** Two threads that are not joined work for different contexts. *)
Lemma active_slots_distinct W m i j t u :
  world_shape W m -> threads_ W !! i = Some t -> threads_ W !! j = Some u ->
  active t = true -> active u = true -> slot_ t = slot_ u -> i = j.
Proof.
  intros Hs Hi Hj Ha Hb Hsl. destruct (decide (i = j)) as [|Hne]; [done|exfalso].
  pose proof (sh_slots _ _ Hs) as Hn.
  rewrite (slots_join _ i t (worker_ t) Hi Ha) in Hn. apply list.NoDup_cons in Hn as [Hn _].
  apply Hn. rewrite Hsl. apply elem_of_omap. exists j, u.
  rewrite list_lookup_insert_ne by done. by rewrite Hb.
Qed.

Lemma load_other W t s w ph i u :
  slot_ u <> slot_ t -> load (store_back W i t s w ph) u = load W u.
Proof.
  intros Hne. unfold load, context_at, store_back. cbn [contexts_]. unfold alter_entry.
  cbn [WorkerTable.table_]. by rewrite list_lookup_alter_ne.
Qed.

Lemma load_stored W t s w ph i e :
  WorkerTable.table_ (contexts_ W) !! slot_ t = Some e ->
  load (store_back W i t s w ph) (mkThread (slot_ t) w ph) = w.
Proof.
  intros He. unfold load, context_at, store_back. cbn [contexts_ slot_ worker_]. unfold alter_entry.
  cbn [WorkerTable.table_]. rewrite list_lookup_alter_eq, He. by destruct w.
Qed.

Lemma stored_sys W m i t s w p q :
  world_shape W m -> threads_ W !! i = Some t -> phase_ t = Running p ->
  sys_of (store_back W i t s w (Running q)) = (s, <[i := (w, q)]> (sys_thread W <$> threads_ W)).
Proof.
  intros Hs Hi Hph. assert (Ha : active t = true) by (unfold active; by rewrite Hph).
  destruct (loaded_shape W m i t p Hs Hi Hph) as (e & He & _ & _).
  unfold sys_of. f_equal. apply list_eq. intros j. rewrite list_lookup_fmap. cbn [store_back threads_].
  assert (Hlt : (i < length (threads_ W))%nat) by by eapply lookup_lt_Some.
  destruct (decide (i = j)) as [<-|Hne].
  - rewrite list_lookup_insert_eq by done. rewrite list_lookup_insert_eq by by rewrite length_fmap.
    simpl. f_equal. unfold sys_thread. cbn [phase_]. f_equal. by eapply load_stored.
  - rewrite !list_lookup_insert_ne by done. rewrite list_lookup_fmap.
    destruct (threads_ W !! j) as [u|] eqn:Hj; [|done]. simpl. f_equal. unfold sys_thread.
    destruct (active u) eqn:Hu; [|by unfold active in Hu; destruct (phase_ u)].
    assert (Hsl : slot_ u <> slot_ t).
    { intros Hsl. apply Hne. by eapply (active_slots_distinct W m i j t u). }
    fold (store_back W i t s w (Running q)). rewrite load_other by done. done.
Qed.

Lemma phase_sys W m i t ph p :
  world_shape W m -> threads_ W !! i = Some t -> phase_ t = Running p ->
  sys_of (set_phase W i t ph) =
    (shared_ W, <[i := sys_thread W (mkThread (slot_ t) (worker_ t) ph)]> (sys_thread W <$> threads_ W)).
Proof. intros Hs Hi Hph. unfold sys_of. cbn [set_phase set_threads threads_]. by rewrite list_fmap_insert. Qed.

(** One step of the server. *)
Lemma server_step_sys v v' gm gs :
  server_inv v gm gs -> server_step v v' -> bounded v -> bounded v' ->
  rtc System.bounded_step (sys_of (world_ v)) (sys_of (world_ v')).
Proof.
  intros Hv Hst Hb Hb'. pose proof (in_shape _ _ _ Hv) as Hs.
  destruct Hst as [W m B f k W' m' b E|W m fuel r Hfl Hr|W m|W m Hfl|W m p
    |W m p i t B f k s w b Hi Hph E|W m p i t mem Hi Hph|W m p i t Hi Hph|W m p i t r rest Hi Hph];
    cbn [world_ socket_] in *; try (by constructor).
  - apply socket_sys; [|exact Hb|exact Hb'].
    by destruct (socket_acts _ _ _ _ _ _ _ _ _ _ Hv E) as (gm' & [_ Hch _ _] & _).
  - apply rtc_once. split; [exact Hb|]. rewrite (stored_sys W m i t s w _ (k b) Hs Hi Hph).
    eapply System.act_step; [|exact E]. rewrite list_lookup_fmap, Hi. simpl. unfold sys_thread.
    by rewrite Hph.
  - apply rtc_once. split; [exact Hb|]. rewrite (phase_sys W m i t _ _ Hs Hi Hph). unfold sys_thread.
    cbn [phase_]. apply System.turn_step. rewrite list_lookup_fmap, Hi. simpl. by rewrite Hph.
  - rewrite (phase_sys W m i t _ _ Hs Hi Hph). unfold sys_of. rewrite list_insert_id; [constructor|].
    rewrite list_lookup_fmap, Hi. simpl. unfold sys_thread. by rewrite Hph.
  - apply rtc_once. split; [exact Hb|].
    assert (E : sys_of (set_phase (set_pool W (ref_destroy (pool_of W) r).1) i t (Leaving rest)) =
      (Worker.mkShared (Worker.db_ (Worker.set_buffers (shared_ W) (ref_destroy (pool_of W) r).1))
         (Worker.ret_ch_ (shared_ W)), sys_thread W <$> threads_ W)).
    { unfold sys_of. f_equal. cbn [set_phase set_threads threads_ set_pool].
      rewrite list_fmap_insert. apply list_insert_id. rewrite list_lookup_fmap, Hi. simpl.
      unfold sys_thread. by rewrite Hph. }
    rewrite E. apply System.socket_step.
Qed.

Lemma bounded_start v : rtc bounded_step server_start v -> server_reachable v.
Proof.
  intros Hr. unfold server_reachable. induction Hr as [|v0 v1 v2 [_ Hst] _ IH]; [constructor|].
  by eapply rtc_l.
Qed.

(** From a state with the invariant, step by step. *)
Lemma server_sys v0 v :
  rtc bounded_step v0 v -> (exists gm gs, server_inv v0 gm gs) -> bounded v ->
  rtc System.bounded_step (sys_of (world_ v0)) (sys_of (world_ v)).
Proof.
  intros Hr. induction Hr as [v|v v1 v2 [Hb0 Hst] Hr IH]; [constructor|]. intros (gm & gs & Hv) Hb.
  assert (Hb1 : bounded v1) by (destruct Hr as [|? ? ? [H _] _]; done).
  etrans; [by eapply server_step_sys|]. apply IH; [|done]. by eapply server_step_inv.
Qed.

Lemma server_sys_reachable v :
  rtc bounded_step server_start v -> bounded v -> System.reachable (sys_of (world_ v)).
Proof.
  intros Hr Hb. exists (sys_of world_start). split.
  { split_and!; [apply StudentTable.table_default_wf|apply NoDup_nil_2|done]. }
  apply (server_sys server_start v Hr); [|done]. exists [], []. apply inv_start.
Qed.

(** ** Property *)

(** C9.  The server implements the system of workers.  Every state the server
    reaches, the socket thread's code interleaved with the workers' action by
    action, is a state of [System], in which the socket thread may do anything to
    buffers, channels and flags.  The runs considered stay within the bounds of
    [System] in every state, the last one included: no record has 127 shared
    holders, the next key is not in use, and a job that is next in a channel has a
    buffer.  What [System] proves of all interleavings within the bounds (mutual
    exclusion, exact lock words, where a worker's undefined behaviour can be)
    then holds of the server. *)
Theorem server_refines_system v :
  rtc bounded_step server_start v -> bounded v -> System.reachable (sys_of (world_ v)).
Proof. apply server_sys_reachable. Qed.

(** ** Witness *)

Definition boundedb (v : server) : bool := System.boundedb (sys_of (world_ v)).

(** Choices that cannot be taken are skipped. *)
Fixpoint schedule (cs : list choice) (v : server) : option server :=
  match cs with
  | [] => if boundedb v then Some v else None
  | c :: cs' =>
      if boundedb v then schedule cs' (default v (server_choose v c)) else None
  end.

Lemma server_schedule_steps cs v v' :
  Forall choice_ok cs -> schedule cs v = Some v' -> rtc bounded_step v v' /\ bounded v'.
Proof.
  intros Hok. revert v. induction Hok as [|c cs Hc _ IH]; intros v E; simpl in E;
    destruct (boundedb v) eqn:Hb; [|done| |done].
  - injection E as <-. split; [constructor|by apply System.boundedb_bounded].
  - destruct (IH _ E) as [H1 H2]. split; [|done].
    destruct (server_choose v c) as [v1|] eqn:Ec; simpl in H1; [|done].
    eapply rtc_l; [|exact H1]. split; [by apply System.boundedb_bounded|by eapply server_choose_step].
Qed.

(** The transaction of [server_added]. *)
Definition added_choices : list choice :=
  SocketTurn 20 start_message :: replicate 40 SocketAct ++
  WorkerTurn 0 :: replicate 40 (WorkerAct 0) ++
  SocketTurn 20 add_message :: replicate 40 SocketAct ++
  WorkerTurn 0 :: replicate 40 (WorkerAct 0).

Definition server_added2 : server := default server_start (schedule added_choices server_start).

Lemma added_ok : Forall choice_ok added_choices.
Proof.
  unfold added_choices. repeat (apply Forall_cons_2 || apply Forall_app_2 || apply Forall_replicate);
    try done; (split; [vm_compute; discriminate|]); apply (bool_decide_unpack _); vm_compute; reflexivity.
Qed.

Lemma added_steps : rtc bounded_step server_start server_added2 /\ bounded server_added2.
Proof.
  apply (server_schedule_steps added_choices); [apply added_ok|]. unfold server_added2.
  assert (H : match schedule added_choices server_start with Some _ => true | None => false end = true)
    by (vm_compute; reflexivity).
  by destruct (schedule added_choices server_start).
Qed.

Lemma server_refines_system_witness :
  rtc bounded_step server_start server_added2 /\
  length (threads_ (world_ server_added2)) = 1%nat /\ size_ (pool_of (world_ server_added2)) = 1 /\
  System.reachable (sys_of (world_ server_added2)).
Proof.
  split; [apply added_steps|]. split; [vm_compute; reflexivity|].
  split; [vm_compute; reflexivity|].
  apply (server_refines_system server_added2 (proj1 added_steps) (proj2 added_steps)).
Defined.
