(* ===== verification/Handover.v ===== *)
(** * What the socket thread does to the buffers

    The logic of [Private] at the socket thread.  It writes a buffer while it
    alone refers to it, before it hands it over to a worker, or when it answers
    a job of a worker that has ended. *)
From S2P Require Import Prelude Params Probe BufTable Ring Prog Counted Typing References Private.
From S2P Require Import Serve Server Refinement.
From S2P Require Bytes JobBuf StudentTuple StudentTable CommitQueue Channels Worker WorkerTable ThreadManager.


(** ** The stages of the socket thread *)

(** The buffer it alone refers to; the context whose thread has ended; and the
    buffer of a job in that context's channel. *)
Record hold := mkHold {
  fresh : option nat;
  closed : option nat;
  dead : option nat
}.

Definition calm : hold := mkHold None None None.

Definition chans (W : world) : list Channels.job_channel :=
  (fun e => chan e) <$> WorkerTable.table_ (contexts_ W).

(** All references to [i] are in [g]. *)
Definition sole (T : buf_table) (g : list buf_ref) (i : nat) : Prop :=
  Some i ∈ g /\ forall e, buffers_ T !! i = Some e -> ref_count_ e = cnt (points_to i) g.

Record held (W : world) (m : socket) (g : list buf_ref) (x : hold) : Prop := {
  hd_fresh : forall i, fresh x = Some i -> sole (pool_of W) g i;
  hd_closed : forall idx, closed x = Some idx -> idx ∉ active_slots (threads_ W);
  hd_dead : forall i, dead x = Some i -> exists idx c, closed x = Some idx /\
    chans W !! idx = Some c /\ Some i ∈ slot_refs c
}.

(** What it may do to the channels: put its own buffer into one, or take a job
    off one whose thread has ended. *)
Inductive chan_change (x : hold) (l l' : list Channels.job_channel) : Prop :=
  | chan_same : l' = l -> chan_change x l l'
  | chan_popped T idx c :
      closed x = Some idx -> l !! idx = Some c -> l' = <[idx := (Channels.pop T c).2]> l ->
      chan_change x l l'
  | chan_sent idx c c' i n j :
      fresh x = Some i -> l !! idx = Some c -> l' = <[idx := c']> l ->
      Channels.job_ref j = Some i -> Channels.jobs_ c' = <[n := j]> (Channels.jobs_ c) ->
      Channels.head_ c' = Channels.head_ c -> chan_change x l l'.

Record served (W : world) (m : socket) (g : list buf_ref) (x : hold)
    (W' : world) (m' : socket) (g' : list buf_ref) (x' : hold) : Prop := {
  sv_bytes : forall b, fresh x = Some b \/ dead x = Some b \/
    buffer (pool_of W') (Some b) = buffer (pool_of W) (Some b);
  sv_chans : chan_change x (chans W) (chans W')
}.

Abbreviation mprivate := (private pool_of own_refs world_shape socket_change held served).

(** ** What keeps the stage *)

Lemma absent_cnt (refs : list buf_ref) i : Some i ∉ refs -> cnt (points_to i) refs = 0.
Proof.
  intros Hn. apply cnt_zero. intros n r Hr. unfold points_to. apply bool_decide_eq_false. intros ->. by apply list_elem_of_lookup_2 in Hr.
Qed.

Lemma present_cnt (refs : list buf_ref) i : Some i ∈ refs -> 0 < cnt (points_to i) refs.
Proof.
  intros Hi. apply elem_of_Permutation in Hi as [l ->]. pose proof (cnt_nonneg (points_to i) l).
  simpl. unfold points_to at 1. rewrite bool_decide_true by done. simpl. lia.
Qed.

Lemma sole_absent T own g R i :
  pool_wf T (own ++ g ++ R) -> sole T g i -> (Some i ∉ own) /\ (Some i ∉ R).
Proof.
  intros Hw [Hi Hs]. pose proof (pool_refs _ _ Hw) as Hr. rewrite list.Forall_forall in Hr.
  assert (Hin : Some i ∈ own ++ g ++ R) by (apply elem_of_app; right; apply elem_of_app; by left).
  pose proof (Hr _ Hin i eq_refl) as Hlt. rewrite <- (pool_length _ _ Hw) in Hlt.
  destruct (lookup_lt_is_Some_2 _ _ Hlt) as [e He].
  pose proof (pool_count _ _ Hw i e He) as Hc. rewrite (Hs e He), !cnt_app in Hc.
  pose proof (cnt_nonneg (points_to i) own). pose proof (cnt_nonneg (points_to i) R).
  split; intros Hx%present_cnt; lia.
Qed.

Lemma absent_sole T own g R i :
  pool_wf T (own ++ g ++ R) -> Some i ∈ g -> Some i ∉ own -> Some i ∉ R -> sole T g i.
Proof.
  intros Hw Hi H1 H2. split; [done|]. intros e He. rewrite (pool_count _ _ Hw i e He), !cnt_app.
  rewrite (absent_cnt own i H1), (absent_cnt R i H2). lia.
Qed.

(** What the socket thread alone refers to stays so until it gives it away. *)
Lemma sole_after W m g W' m' g' i :
  (exists R, fits R /\ mcounts W m g R) -> mafter W m g W' m' g' -> sole (pool_of W) g i -> Some i ∈ g' ->
  (Some i ∈ own_refs W' m' -> Some i ∈ own_refs W m) -> sole (pool_of W') g' i.
Proof.
  intros (R & Hf & HR) Ha Hs Hi Ho. destruct (sole_absent _ _ _ _ _ HR Hs) as [H1 H2].
  eapply absent_sole; [by apply (after_counts _ _ _ _ _ _ _ _ _ _ Ha R Hf HR)|done| |done]. tauto.
Qed.

(** Less may be known afterwards. *)
Record below (y x : hold) : Prop := {
  bl_fresh : fresh y = None \/ fresh y = fresh x;
  bl_closed : closed y = None \/ closed y = closed x;
  bl_dead : dead y = None \/ dead y = dead x /\ closed y = closed x
}.

#[export] Instance below_refl : Reflexive below.
Proof. intros x. split; auto. Qed.

Lemma chan_refs_chans t : channel_refs t = mjoin (slot_refs <$> ((fun e => chan e) <$> WorkerTable.table_ t)).
Proof. unfold channel_refs. by rewrite <- list_fmap_compose. Qed.

Lemma own_chans W m W' m' :
  chans W' = chans W -> thread_refs <$> threads_ W' = thread_refs <$> threads_ W ->
  own_refs W' m' = own_refs W m.
Proof.
  unfold own_refs, object_refs, chans. intros Hc Ht. by rewrite !chan_refs_chans, Hc, Ht.
Qed.

Section SocketRules.
Implicit Types (g : list buf_ref) (x y : hold).

(** An action after which the channels, the threads at work and the bytes are
    as before. *)
Lemma mp_frame {B} (f : world -> socket -> outcome (world * socket * B)) (Q : _ -> _ -> B -> Prop) g x y :
  mcounted (act f) (fun g' b => (forall i, fresh y = Some i -> Some i ∈ g -> Some i ∈ g') /\ Q g' y b) g ->
  below y x ->
  (forall W m W' m' b, world_shape W m -> f W m = Ret (W', m', b) ->
     chans W' = chans W /\ thread_refs <$> threads_ W' = thread_refs <$> threads_ W /\
     active_slots (threads_ W') = active_slots (threads_ W) /\
     same_bytes (pool_of W) (pool_of W')) ->
  mprivate (act f) Q g x.
Proof.
  intros Hc [Hb1 Hb2 Hb3] Hf. eapply private_act; [exact Hc|].
  intros W m W' m' b g' Hs HR Ht E [Hy HQ] Ha. exists y.
  destruct (Hf _ _ _ _ _ Hs E) as (H1 & H2 & H3 & H4). destruct Ht. split; [|split; [split|done]].
  - split.
    + intros i Hi. destruct Hb1 as [Hb1|Hb1]; rewrite Hb1 in Hi; [done|].
      pose proof (hd_fresh0 i Hi) as Hsole.
      eapply sole_after; [done|exact Ha|exact Hsole|apply Hy; [by rewrite Hb1|apply Hsole]|].
      by rewrite (own_chans W m W' m').
    + intros idx Hi. rewrite H3. apply hd_closed0. destruct Hb2 as [Hb2|Hb2]; by rewrite Hb2 in Hi.
    + intros i Hi. destruct Hb3 as [Hb3|[Hb3 Hb4]]; rewrite Hb3 in Hi; [done|].
      destruct (hd_dead0 i Hi) as (idx & c & Hx & Hc1 & Hin). exists idx, c. by rewrite Hb4, H1.
  - intros b0. right. right. apply H4.
  - by apply chan_same.
Qed.

(** One that keeps the local references, too. *)
Lemma mp_keep {B} (f : world -> socket -> outcome (world * socket * B)) (Q : _ -> _ -> B -> Prop) g x :
  mcounted (act f) (fun g' b => g' = g /\ Q g x b) g ->
  (forall W m W' m' b, world_shape W m -> f W m = Ret (W', m', b) ->
     chans W' = chans W /\ threads_ W' = threads_ W /\ same_bytes (pool_of W) (pool_of W')) ->
  mprivate (act f) Q g x.
Proof.
  intros Hc Hf. apply (mp_frame _ _ _ x x); [|reflexivity|].
  - eapply counted_mono; [|exact Hc]. intros g' b [-> HQ]. by split.
  - intros W m W' m' b Hs E. destruct (Hf _ _ _ _ _ Hs E) as (H1 & H2 & H3). by rewrite H2.
Qed.

Lemma mp_bind {A B} (p : mprog A) (h : A -> mprog B) Q g x :
  mprivate p (fun g x a => mprivate (h a) Q g x) g x -> mprivate (p ≫= h) Q g x.
Proof. apply private_bind. Qed.

Context {B : Type}.
Implicit Types (Q : list buf_ref -> hold -> B -> Prop).

Lemma mp_read (f : buf_table -> B) Q g x :
  (forall b, Q g x b) -> mprivate (read_pool f) Q g x.
Proof.
  intros HQ. apply mp_keep; [by apply mc_read|]. intros W m W' m' b _ [= <- <- <-]. by split_and!.
Qed.

Lemma mp_rets f Q g x :
  (forall b, Q g x b) -> mprivate (on_rets f) Q g x.
Proof.
  intros HQ. apply mp_keep; [by apply mc_rets|]. intros W m W' m' b _ E.
  apply outcome_bind_Ret_inv in E as ([c b1] & _ & [= <- <- <-]). by split_and!.
Qed.

Lemma mp_unwrap {E} (r : Result B E) Q g x :
  (forall a, value_ r = Some a -> Q g x a) ->
  mprivate (unwrap_ r) Q g x.
Proof.
  intros HQ. apply mp_keep; [apply mc_unwrap; intros a Ha; split; [done|by apply HQ]|].
  intros W m W' m' b _ E1. apply outcome_bind_Ret_inv in E1 as (a & _ & [= <- <- <-]). by split_and!.
Qed.

Lemma mp_look (f : WorkerTable.WorkerTable -> outcome (WorkerTable.WorkerTable * B)) Q g x :
  (forall t t' b, length (WorkerTable.table_ t) = WorkerTable.Rows -> f t = Ret (t', b) ->
     t' = t /\ Q g x b) -> mprivate (on_contexts f) Q g x.
Proof.
  intros Hf. apply mp_keep.
  - apply mc_look. intros t t' b Hl E. destruct (Hf t t' b Hl E). by split_and!.
  - intros W m W' m' b Hs E. apply outcome_bind_Ret_inv in E as ([t b1] & E & [= <- <- <-]).
    destruct (Hf _ _ _ (sh_rows _ _ Hs) E) as [-> _]. by split_and!.
Qed.
End SocketRules.

Section SocketMoves.
Implicit Types (g : list buf_ref) (x y : hold).

Lemma mp_next_id (Q : _ -> _ -> _ -> Prop) g x :
  (forall n, Q g x n) -> mprivate (act (fun W m => Ret (W, m, next_txn_id m))) Q g x.
Proof.
  intros HQ. apply mp_keep; [by apply mc_next_id|]. intros W m W' m' b _ [= <- <- <-]. by split_and!.
Qed.

Lemma mp_put_id (Q : _ -> _ -> _ -> Prop) g x :
  Q g x tt -> mprivate (act (fun W m =>
    Ret (W, mkSocket (flag_ m) (u32 (next_txn_id m + 1)) (sent_ m), tt))) Q g x.
Proof.
  intros HQ. apply mp_keep; [by apply mc_put_id|]. intros W m W' m' b _ [= <- <- <-]. by split_and!.
Qed.

Lemma mp_empty idx (Q : _ -> _ -> _ -> Prop) g x : (forall b, Q g x b) -> mprivate (context_empty idx) Q g x.
Proof.
  intros HQ. apply mp_keep; [by apply mc_empty|]. intros W m W' m' b _ [= <- <- <-]. by split_and!.
Qed.

(** Writing an entry without its channel. *)
Lemma chans_alter t idx f n :
  (forall e, chan (f e) = chan e) ->
  (fun e => chan e) <$> WorkerTable.table_ (WorkerTable.mkTable (alter f idx (WorkerTable.table_ t)) n) =
  (fun e => chan e) <$> WorkerTable.table_ t.
Proof.
  intros Hf. cbn [WorkerTable.table_]. apply list_eq. intros i. rewrite !list_lookup_fmap.
  destruct (decide (i = idx)) as [->|Hne].
  - rewrite list_lookup_alter_eq. destruct (_ !! idx) as [e|]; simpl; [by rewrite Hf|done].
  - by rewrite list_lookup_alter_ne.
Qed.

Lemma mp_entry idx f n (Q : _ -> _ -> _ -> Prop) g x y :
  (forall e, chan (f e) = chan e) ->
  (forall e, WorkerTable.joinable_ (WorkerTable.context_ (f e)) =
     WorkerTable.joinable_ (WorkerTable.context_ e)) -> below y x -> Q g y tt ->
  mprivate (on_contexts (fun t => Ret (WorkerTable.mkTable (alter f idx (WorkerTable.table_ t)) (n t), tt)))
    Q g x.
Proof.
  intros Hc Hj Hb HQ. apply (mp_frame _ _ _ x y); [|done|].
  - by apply mc_entry.
  - intros W m W' m' b _ [= <- <- <-]. split_and!; [|done..]. by apply chans_alter.
Qed.

Lemma mp_stop idx (Q : _ -> _ -> _ -> Prop) g x : Q g x tt -> mprivate (context_stop idx) Q g x.
Proof.
  apply (mp_entry idx (on_context WorkerTable.stop_) WorkerTable.entry_count_ Q g x x);
    [by intros []|by intros []|reflexivity].
Qed.

(** The context is done with. *)
Definition reopened (x : hold) : hold := mkHold (fresh x) None None.

Lemma mp_bury idx (Q : _ -> _ -> _ -> Prop) g x : Q g (reopened x) tt -> mprivate (bury idx) Q g x.
Proof.
  intros HQ. apply (mp_entry idx (fun e => WorkerTable.mkEntry (WorkerTable.context_ e)
    (WorkerTable.is_used_ e) true) (fun t => u64 (WorkerTable.entry_count_ t - 1)) Q g x (reopened x));
    [by intros []|by intros []| |done]. split; auto.
Qed.

Lemma mp_retain r (Q : _ -> _ -> _ -> Prop) g x :
  (length g < LOCALS)%nat -> r = None \/ r ∈ g -> Q (r :: g) x r -> mprivate (retain r) Q g x.
Proof.
  intros Hlt Hr HQ. apply (mp_frame _ _ _ x x); [|reflexivity|].
  - apply mc_retain; [done..|]. split; [|done]. intros i _ Hi. by right.
  - intros W m W' m' b _ E. apply outcome_bind_Ret_inv in E as ([T b1] & E & [= <- <- <-]).
    assert (E1 : ref_copy (pool_of W) r = (T, b1)) by congruence.
    split_and!; [done..|]. pose proof (ref_copy_bytes (pool_of W) r) as Hb. by rewrite E1 in Hb.
Qed.

Lemma mp_drop r (Q : _ -> _ -> _ -> Prop) g x y :
  below y x -> (forall i, fresh y = Some i -> Some i ∈ g) -> Q g y tt -> mprivate (drop_ref r) Q (r :: g) x.
Proof.
  intros Hb Hi HQ. apply (mp_frame _ _ _ x y); [|done|].
  - apply mc_drop. split; [|done]. intros i Hy _. by apply Hi.
  - intros W m W' m' b _ [= <- <- <-]. split_and!; [done..|]. apply ref_destroy_bytes.
Qed.

(** A buffer that nobody refers to. *)
Lemma mp_request (Q : _ -> _ -> _ -> Prop) :
  (forall i, Q [Some i] (mkHold (Some i) None None) (Ok (Some i))) ->
  Q [] calm (Err BufferError_Full) -> mprivate (on_pool request) Q [] calm.
Proof.
  intros HQ HE. eapply private_act.
  - apply (mc_request (fun g' b => (exists i, g' = [Some i] /\ b = Ok (Some i)) \/
      g' = [] /\ b = Err BufferError_Full)); [unfold LOCALS; simpl; lia| |by right].
    intros i. left. by exists i.
  - intros W m W' m' b g' Hs (R & Hf & HR) Ht E Hcase Ha. destruct Ht.
    apply outcome_bind_Ret_inv in E as ([T b1] & E & [= <- <- <-]).
    assert (Hb : same_bytes (pool_of W) T).
    { unfold request in E. destruct (_ <=? _); [by injection E as <- _|].
      destruct (while_true _ _ _ _) as [k|]; [|done]. injection E as <- _. apply set_count_bytes. }
    assert (Hsv : forall g' x', served W m [] calm (set_pool W T) m g' x').
    { intros g0 x0. split; [|by apply chan_same]. intros b0. right. right. apply Hb. }
    destruct Hcase as [(i & -> & ->)|[-> ->]].
    + exists (mkHold (Some i) None None). split; [|split; [apply Hsv|apply HQ]]. split; [|done|done].
      intros k [= <-]. pose proof (after_counts _ _ _ _ _ _ _ _ _ _ Ha R Hf HR) as HR'.
      assert (Hcnt : cnt (points_to i) (own_refs W m ++ [] ++ R) = 0).
      { pose proof (small_counts _ _ W m [] R world_own_small Hs ltac:(simpl; lia) Hf) as Hlen.
        destruct (request_cases (pool_of W) (own_refs W m ++ [] ++ R) HR) as [[_ E0]|(_ & T0 & i0 & E0 & _ & Hz & _)];
          [lia|by rewrite E0 in E|]. rewrite E0 in E. injection E as -> ->. exact Hz. }
      rewrite !cnt_app in Hcnt. pose proof (cnt_nonneg (points_to i) (own_refs W m)).
      pose proof (cnt_nonneg (points_to i) R). simpl in Hcnt.
      apply (absent_sole _ (own_refs W m) _ R); [exact HR'|left| |]; intros Hx%present_cnt; lia.
    + exists calm. split; [by split|]. split; [apply Hsv|done].
Qed.

(** Writing a buffer that is its own, or that of a job nobody else will see. *)
Lemma mp_write {B} (f : world -> socket -> outcome (world * socket * B)) (Q : _ -> _ -> B -> Prop) g x :
  mcounted (act f) (fun g' b => g' = g /\ Q g x b) g ->
  (forall W m W' m' b, f W m = Ret (W', m', b) -> contexts_ W' = contexts_ W /\ threads_ W' = threads_ W /\
     forall b, fresh x = Some b \/ dead x = Some b \/ buffer (pool_of W') (Some b) = buffer (pool_of W) (Some b)) ->
  mprivate (act f) Q g x.
Proof.
  intros Hc Hf. eapply private_act; [exact Hc|].
  intros W m W' m' b g' Hs HR Ht E [-> HQ] Ha. exists x.
  destruct (Hf _ _ _ _ _ E) as (H1 & H2 & H3). destruct Ht.
  assert (Hch : chans W' = chans W) by (unfold chans; by rewrite H1).
  split; [|split; [split; [done|by apply chan_same]|done]]. split.
  - intros i Hi. eapply sole_after; [done|exact Ha|by apply hd_fresh0|by apply (hd_fresh0 i)|].
    rewrite (own_chans W m W' m'); [done..|by rewrite H2].
  - intros idx Hi. rewrite H2. by apply hd_closed0.
  - intros i Hi. rewrite Hch. by apply hd_dead0.
Qed.

Lemma mp_answer a p c n i (Q : _ -> _ -> _ -> Prop) g x :
  JobBuf.ref p = i -> i = None \/ fresh x = i \/ dead x = i -> Q g x tt -> mprivate (answer a p c n) Q g x.
Proof.
  intros Hp Hi HQ. apply mp_write; [by apply mc_answer|]. intros W m W' m' b [= <- <- <-].
  split_and!; [done..|]. intros k. unfold JobBuf.set_ack, JobBuf.set_field. rewrite Hp.
  destruct (decide (i = Some k)) as [->|Hne].
  - destruct Hi as [Hi|[Hi|Hi]]; [done|by left|by right; left].
  - right. right. exact (JobBuf.buffer_store_ne (pool_of W) i (Some k) _ Hne).
Qed.

Lemma mp_receive i bytes (Q : _ -> _ -> _ -> Prop) g x :
  Z.of_nat (length bytes) <= BUFFER_WIDTH -> Forall is_byte bytes -> fresh x = Some i -> Q g x tt ->
  mprivate (on_pool (fun T => Ret (store T (Some i) (Bytes.write (buffer T (Some i)) 0 bytes), tt))) Q g x.
Proof.
  intros Hl Hb Hx HQ. apply mp_write; [by apply mc_receive|]. intros W m W' m' b [= <- <- <-].
  split_and!; [done..|]. intros k. destruct (decide (k = i)) as [->|Hne]; [by left|].
  right. right. apply (JobBuf.buffer_store_ne (pool_of W) (Some i) (Some k)). congruence.
Qed.
End SocketMoves.

(** ** The channels *)

Section Entries.
Implicit Types (g : list buf_ref) (x y : hold).

Lemma chan_lookup W idx e :
  WorkerTable.table_ (contexts_ W) !! idx = Some e -> chans W !! idx = Some (chan e).
Proof. intros He. unfold chans. by rewrite list_lookup_fmap, He. Qed.

(** A new channel in an entry. *)
Lemma chans_with W s idx e ch :
  WorkerTable.table_ (contexts_ W) !! idx = Some e ->
  chans (mkWorld s (alter_entry (contexts_ W) idx (on_context (with_channel ch))) (threads_ W)) =
    <[idx := ch]> (chans W).
Proof.
  intros He. unfold chans, alter_entry. cbn [contexts_ WorkerTable.table_].
  rewrite (insert_alter _ _ _ e) by done. by rewrite list_fmap_insert.
Qed.

(** The references of the world when one channel changes. *)
Lemma own_chans_insert W m W' m' idx c c' b :
  chans W !! idx = Some c -> chans W' = <[idx := c']> (chans W) -> threads_ W' = threads_ W ->
  Some b ∈ own_refs W' m' -> Some b ∈ slot_refs c' \/ Some b ∈ own_refs W m.
Proof.
  intros Hc Hw Ht. unfold own_refs, object_refs. rewrite !chan_refs_chans, !elem_of_app.
  change ((fun e => chan e) <$> WorkerTable.table_ (contexts_ W')) with (chans W').
  change ((fun e => chan e) <$> WorkerTable.table_ (contexts_ W)) with (chans W).
  rewrite Hw, Ht. intros [Hb|Hb]; [|by right; right].
  apply list_elem_of_join in Hb as (l & Hl & Hb). apply list_elem_of_fmap in Hb as (c0 & -> & Hb).
  apply list_elem_of_lookup in Hb as [n Hn]. apply list_lookup_insert_Some in Hn as [(_ & <- & _)|[_ Hn]];
    [by left|right; left].
  apply list_elem_of_join. exists (slot_refs c0). split; [done|]. apply list_elem_of_fmap. exists c0.
  split; [done|]. by eapply list_elem_of_lookup_2.
Qed.

Lemma own_chans_elem W m idx c b : chans W !! idx = Some c -> Some b ∈ slot_refs c -> Some b ∈ own_refs W m.
Proof.
  intros Hc Hb. unfold own_refs, object_refs. rewrite chan_refs_chans. apply elem_of_app. left.
  apply list_elem_of_join. exists (slot_refs c). split; [done|]. apply list_elem_of_fmap. exists c.
  split; [done|]. by eapply list_elem_of_lookup_2.
Qed.

(** Giving the buffer away: the channel has it, unless it is full. *)
Definition given (x : hold) : hold := mkHold None (closed x) (dead x).

Lemma ref_assign_ref T a b : (ref_assign T a b).2 = b.
Proof. done. Qed.

Lemma send_cases T ch j :
  (Channels.send T ch j = (T, ch, QueueError_Full)) \/
  (Channels.tail_ ch >= length (Channels.jobs_ ch))%nat \/
  exists T' ch' j', Channels.send T ch j = (T', ch', QueueError_None) /\ same_bytes T T' /\
    Channels.job_ref j' = Channels.job_ref j /\
    Channels.jobs_ ch' = <[Channels.tail_ ch := j']> (Channels.jobs_ ch) /\
    Channels.head_ ch' = Channels.head_ ch.
Proof.
  unfold Channels.send. destruct (Channels.full ch); [by left|right].
  destruct (Channels.jobs_ ch !! Channels.tail_ ch) as [j0|] eqn:Hj; [right|left; by apply lookup_ge_None].
  unfold Channels.job_assign.
  pose proof (ref_assign_bytes T (Channels.job_ref j0) (Channels.job_ref j)) as Hb.
  destruct (ref_assign _ _ _) as [T' r] eqn:Ea. assert (r = Channels.job_ref j) as -> by (unfold ref_assign in Ea; congruence).
  eexists T', _, (Channels.mkJob (JobBuf.mkJobBuf (Channels.job_ref j) (Channels.buf_sz j)) (Channels.conn_ j)).
  split; [reflexivity|]. by split_and!.
Qed.

Lemma mp_send idx j i (Q : _ -> _ -> _ -> Prop) g x :
  (idx < WorkerTable.Rows)%nat -> Channels.job_ref j = Some i -> Some i ∈ g -> fresh x = Some i ->
  dead x = None -> Q g x QueueError_Full -> Q g (given x) QueueError_None -> mprivate (context_send idx j) Q g x.
Proof.
  intros Hidx Hj Hi Hx Hdx HF HN. eapply private_act.
  - apply (mc_send idx j (fun g' b => g' = g)); [done|by rewrite Hj|done].
  - intros W m W' m' e g' Hs HR Ht E -> Ha. pose proof Ht as [Hfr Hcl Hd].
    destruct (lookup_lt_is_Some_2 (WorkerTable.table_ (contexts_ W)) idx) as [en He];
      [by rewrite (sh_rows _ _ Hs)|].
    pose proof (chan_lookup W idx en He) as Hc. cbv zeta in E. rewrite (context_at_lookup W idx en He) in E.
    assert (Hsz : sized (chan en)) by exact (Forall_lookup_1 _ _ _ _ (sh_channels _ _ Hs) He).
    destruct (send_cases (pool_of W) (chan en) j) as [Es|[Hge|(T & ch & j' & Es & Hb & Hj' & Hjs & Hh)]];
      [|destruct Hsz; lia|]; rewrite Es in E; injection E as <- <- <-.
    + assert (Hch : chans (set_contexts (set_pool W (pool_of W)) (alter_entry (contexts_ W) idx
        (on_context (with_channel (chan en))))) = chans W).
      { unfold set_contexts. etrans; [by apply (chans_with W _ idx en)|]. by apply list_insert_id. }
      exists x. split; [|split; [split|done]].
      * split; [|done|by intros k Hk; rewrite Hdx in Hk].
        intros k Hk. eapply sole_after; [done|exact Ha|by apply Hfr|by apply (Hfr k)|].
        by rewrite (own_chans W m).
      * intros b. right. by right.
      * by apply chan_same.
    + assert (Hch : chans (set_contexts (set_pool W T) (alter_entry (contexts_ W) idx
        (on_context (with_channel ch)))) = <[idx := ch]> (chans W)) by by apply (chans_with W _ idx en).
      exists (given x). split; [|split; [split|done]].
      * split; [done|done|]. intros k Hk. cbn in Hk. by rewrite Hdx in Hk.
      * intros b. right. right. apply Hb.
      * eapply (chan_sent _ _ _ idx (chan en) ch i); [done|done|exact Hch|by rewrite Hj'|exact Hjs|exact Hh].
Qed.

(** A copy of the front job of a context whose thread has ended. *)
Lemma mp_get idx (Q : _ -> _ -> _ -> Prop) g f :
  (length g < LOCALS)%nat ->
  (forall j, Q (Channels.job_ref j :: g) (mkHold f (Some idx) (Channels.job_ref j)) (Ok j)) ->
  (forall e, Q g (mkHold f (Some idx) None) (Err e)) ->
  mprivate (context_get idx) Q g (mkHold f (Some idx) None).
Proof.
  intros Hlt HQ HE. eapply private_act.
  - apply (mc_get idx (fun g' b => (exists j, g' = Channels.job_ref j :: g /\ b = Ok j) \/
      g' = g /\ exists e, b = Err e)); [done| |].
    + intros j. left. by exists j.
    + intros e. right. split; [done|]. by exists e.
  - intros W m W' m' b g' Hs HR Ht E Hcase Ha. pose proof Ht as [Hfr Hcl _].
    unfold Channels.get in E.
    destruct (negb _) eqn:Hne; [|injection E as <- <- <-; destruct Hcase as [(j & _ & ?)|[-> [e Hb]]]; [done|]].
    2: { exists (mkHold f (Some idx) None). split; [|split; [split; [by right; right|by apply chan_same]|by rewrite Hb]].
         split; [|done|done]. intros k Hk. eapply sole_after; [done|exact Ha|by apply Hfr|by apply (Hfr k)|done]. }
    destruct (Channels.front_copy _ _) as [T r] eqn:Ef. injection E as <- <- <-.
    apply front_copy_cases in Ef as [[-> Hr]|(j & Hj & -> & ->)].
    + destruct Hcase as [(j & _ & ->)|[-> [e ->]]]; [done|].
      exists (mkHold f (Some idx) None). split; [|split; [split; [by right; right|by apply chan_same]|done]].
      split; [|done|done]. intros k Hk. eapply sole_after; [done|exact Ha|by apply Hfr|by apply (Hfr k)|done].
    + destruct Hcase as [(j' & -> & [= <-])|[-> [e ?]]]; [|done].
      exists (mkHold f (Some idx) (Channels.job_ref j)). split; [|split; [split|done]].
      * split; [|done|].
        -- intros k Hk. eapply sole_after; [done|exact Ha|by apply Hfr|right; by apply (Hfr k)|done].
        -- intros k Hk. exists idx, (WorkerTable.job_ch_ (context_at W idx)). split; [done|].
           unfold context_at in *. destruct (WorkerTable.table_ (contexts_ W) !! idx) as [en|] eqn:He; [|done].
           split; [by apply chan_lookup|]. apply list_elem_of_fmap. exists j. split; [done|].
           by eapply list_elem_of_lookup_2.
      * intros b. right. right. apply ref_copy_bytes.
      * by apply chan_same.
Qed.

Lemma mp_pop idx (Q : _ -> _ -> _ -> Prop) g f d :
  (idx < WorkerTable.Rows)%nat -> Q g (mkHold f (Some idx) None) tt ->
  mprivate (context_pop idx) Q g (mkHold f (Some idx) d).
Proof.
  intros Hidx HQ. eapply private_act.
  - apply (mc_pop idx (fun g' b => g' = g)); done.
  - intros W m W' m' b g' Hs HR Ht E -> Ha. pose proof Ht as [Hfr Hcl _].
    destruct (lookup_lt_is_Some_2 (WorkerTable.table_ (contexts_ W)) idx) as [en He];
      [by rewrite (sh_rows _ _ Hs)|].
    pose proof (chan_lookup W idx en He) as Hc. cbv zeta in E. rewrite (context_at_lookup W idx en He) in E.
    pose proof (pop_bytes (pool_of W) (chan en)) as Hb.
    destruct (Channels.pop (pool_of W) (chan en)) as [T ch] eqn:Ep. injection E as <- <- <-.
    assert (Hch : chans (set_contexts (set_pool W T) (alter_entry (contexts_ W) idx
        (on_context (with_channel ch)))) = <[idx := ch]> (chans W)) by by apply (chans_with W _ idx en).
    exists (mkHold f (Some idx) None). split; [|split; [split|done]].
    + split; [|done|done]. intros k Hk.
      eapply sole_after; [done|exact Ha|by apply Hfr|by apply (Hfr k)|].
      intros Hin. apply (own_chans_insert W m _ _ idx (chan en) ch k Hc Hch eq_refl) in Hin as [Hin|Hin]; [|done].
      apply (own_chans_elem W m idx (chan en)); [done|].
      pose proof (popped_refs (pool_of W) (chan en) k) as Hp. rewrite Ep in Hp. by apply Hp.
    + intros b0. right. right. apply Hb.
    + eapply (chan_popped _ _ _ (pool_of W) idx (chan en)); [done|done|]. rewrite Ep. exact Hch.
Qed.

(** The thread has ended: the context is closed. *)
Lemma mp_thread_join idx (Q : _ -> _ -> _ -> Prop) g f :
  Q g (mkHold f (Some idx) None) tt -> mprivate (thread_join idx) Q g (mkHold f None None).
Proof.
  intros HQ. eapply private_act.
  - apply (mc_thread_join idx (fun g' b => g' = g)). done.
  - intros W m W' m' b g' Hs HR Ht E -> Ha. pose proof Ht as [Hfr _ _].
    destruct (WorkerTable.joinable_ _) eqn:Hjn; [|done].
    destruct (thread_of (threads_ W) idx) as [[i t]|] eqn:Hth; [|done].
    destruct (phase_ t) as [p|[|r rest]|] eqn:Hp; try done. injection E as <- <- <-.
    apply list_find_Some in Hth as (Hi & [Hact Hsl%Nat.eqb_eq]%andb_true_iff & _).
    set (W' := mkWorld _ _ _).
    assert (Hch : chans W' = chans W).
    { unfold chans. apply (chans_alter (contexts_ W) idx (on_context unjoinable)). by intros []. }
    assert (Hrefs : thread_refs <$> threads_ W' = thread_refs <$> threads_ W).
    { apply (refs_keep _ _ t); [done|]. unfold thread_refs. by rewrite Hp. }
    exists (mkHold f (Some idx) None). split; [|split; [split; [by right; right|by apply chan_same]|done]].
    split; [| |done].
    + intros k Hk. eapply sole_after; [done|exact Ha|by apply Hfr|by apply (Hfr k)|].
      by rewrite (own_chans W m W' m).
    + intros k [= <-]. pose proof (slots_join _ i t (load W t) Hi Hact) as Hperm.
      pose proof (sh_slots _ _ Hs) as Hnd. rewrite Hperm in Hnd. apply list.NoDup_cons in Hnd as [Hn _].
      by rewrite <- Hsl.
Qed.

(** A new worker takes over an entry, with the channel as it is. *)
Lemma mp_insert ct (Q : _ -> _ -> _ -> Prop) g f :
  (forall r, (forall idx, value_ r = Some idx -> (idx < WorkerTable.Rows)%nat) -> Q g (mkHold f None None) r) ->
  mprivate (insert_ ct) Q g (mkHold f None None).
Proof.
  intros HQ. eapply private_act.
  - apply (mc_insert ct (fun g' r => g' = g /\ (forall idx, value_ r = Some idx -> (idx < WorkerTable.Rows)%nat))).
    by intros r.
  - intros W m W' m' r g' Hs HR Ht E [-> Hr] Ha. pose proof Ht as [Hfr _ _].
    destruct (WorkerTable.insert_ _ _) as [[t r0]| |] eqn:Ei; [|done..]. cbn [mbind outcome_bind] in E.
    assert (Hcase : r0 = r /\ m' = m /\ pool_of W' = pool_of W /\ chans W' = chans W /\
      forall b, Some b ∈ own_refs W' m' -> Some b ∈ own_refs W m).
    { destruct (insert_cases _ _ _ _ Ei) as [[-> Hv]|(idx & e & u & He & Hv & Hj & ->)]; rewrite Hv in E;
        injection E as <- <- <-; split_and!; try done.
      - unfold chans. cbn [contexts_ set_contexts set_threads WorkerTable.table_].
        rewrite (insert_alter _ _ _ e) by done. rewrite list_fmap_insert.
        apply list_insert_id. by rewrite list_lookup_fmap, He.
      - intros b. unfold own_refs, object_refs. cbn [contexts_ threads_ set_threads set_contexts].
        rewrite channel_refs_keep by (intros ? He'; rewrite He in He'; by injection He' as <-).
        rewrite fmap_app, join_app, !elem_of_app. intros [?|[?|Hb]]; [by left|by right|].
        change (mjoin (thread_refs <$> [_])) with (replicate 16 (@None nat)) in Hb.
        by apply elem_of_replicate in Hb as [? _]. }
    destruct Hcase as (-> & -> & Hp & Hch & Hsub). exists (mkHold f None None).
    split; [|split; [split; [by right; right; rewrite Hp|by apply chan_same]|by apply HQ]].
    split; [|done|done]. intros k Hk.
    eapply sole_after; [done|exact Ha|by apply Hfr|by apply (Hfr k)|apply Hsub].
Qed.
End Entries.

(** ** The main loop of the socket thread *)

Ltac mp_step :=
  lazymatch goal with
  | |- private _ _ _ _ _ _ (_ ≫= _) _ _ _ => apply private_bind
  | |- private _ _ _ _ _ _ (Done _) _ _ _ => apply private_done
  | |- private _ _ _ _ _ _ (context_empty _) _ _ _ => apply mp_empty; intros ?
  | |- private _ _ _ _ _ _ (context_stop _) _ _ _ => apply mp_stop
  | |- private _ _ _ _ _ _ (bury _) _ _ _ => apply mp_bury; unfold reopened; cbn [fresh]
  | |- private _ _ _ _ _ _ (thread_join _) _ _ _ => apply mp_thread_join
  | |- private _ _ _ _ _ _ (on_rets _) _ _ _ => apply mp_rets; intros ?
  | |- private _ _ _ _ _ _ (read_pool _) _ _ _ => apply mp_read; intros ?
  | |- private _ _ _ _ _ _ (unwrap_ _) _ _ _ => apply mp_unwrap; intros ? ?
  | |- private _ _ _ _ _ _ (if ?b then _ else _) _ _ _ => destruct b
  | |- private _ _ _ _ _ _ diverge _ _ _ => done
  end.
Ltac mp_steps := cbv beta; repeat (mp_step; cbv beta).

Section SocketLoop.
Context (f : option nat) (g : list buf_ref) (Hf : forall i, f = Some i -> Some i ∈ g).
Context (Hlt : (S (length g) < LOCALS)%nat).

Lemma mp_drop_same r (Q : _ -> _ -> _ -> Prop) l c d :
  (forall i, f = Some i -> Some i ∈ l) -> Q l (mkHold f c d) tt ->
  mprivate (drop_ref r) Q (r :: l) (mkHold f c d).
Proof. intros Hl HQ. by apply (mp_drop _ _ _ _ (mkHold f c d)). Qed.

Lemma mp_answer_dead fuel idx (Q : _ -> _ -> _ -> Prop) :
  (idx < WorkerTable.Rows)%nat -> Q g (mkHold f (Some idx) None) tt ->
  mprivate (answer_dead fuel idx) Q g (mkHold f (Some idx) None).
Proof.
  intros Hidx HQ. induction fuel as [|n IH]; [done|]. cbn [answer_dead]. mp_steps; [done|].
  apply mp_get; [lia| |].
  - intros j. apply private_bind, mp_unwrap. intros ? [= <-].
    apply private_bind, mp_retain; [simpl; lia|right; left|]. mp_steps.
    apply (mp_answer _ _ _ _ (Channels.job_ref j)); [done|right; by right|].
    mp_steps. apply mp_pop; [done|]. mp_steps.
    apply mp_drop_same; [intros i Hi; right; by apply Hf|]. mp_steps. apply mp_drop_same; [done|exact IH].
  - intros e. by apply private_bind, mp_unwrap.
Qed.

Lemma mp_join idx (Q : _ -> _ -> _ -> Prop) :
  (idx < WorkerTable.Rows)%nat -> Q g (mkHold f (Some idx) None) tt ->
  mprivate (join_ idx) Q g (mkHold f None None).
Proof. intros Hidx HQ. unfold join_. mp_steps. by apply mp_answer_dead. Qed.

Lemma mp_remove k (Q : _ -> _ -> _ -> Prop) :
  Q g (mkHold f None None) tt -> mprivate (remove_ k) Q g (mkHold f None None).
Proof.
  intros HQ. unfold remove_. mp_steps. apply mp_look. intros t t' idx Hl E.
  apply outcome_bind_Ret_inv in E as (idx0 & E & [= <- <-]). split; [done|].
  destruct (while_true _ _ _ _) as [i|] eqn:Ew; [|done]. injection E as ->.
  apply while_true_Some in Ew as (j & _ & Ew & _); [|apply WorkerTable.worker_home_lt].
  destruct (_ !! _) as [e|] eqn:He; [|done]. destruct (_ && _); [|done]. injection Ew as Ew.
  rewrite Ew in He. apply lookup_lt_Some in He. rewrite Hl in He.
  mp_steps. apply mp_join; [done|]. by mp_steps.
Qed.

Lemma mp_reap fuel (Q : _ -> _ -> _ -> Prop) :
  Q g (mkHold f None None) tt -> mprivate (reap fuel) Q g (mkHold f None None).
Proof.
  intros HQ. induction fuel as [|n IH]; [done|]. cbn [reap]. mp_steps; [done|].
  apply mp_remove. by mp_steps.
Qed.

Lemma mp_stop_all n idx (Q : _ -> _ -> _ -> Prop) x : Q g x tt -> mprivate (stop_all n idx) Q g x.
Proof.
  intros HQ. revert idx. induction n as [|n IH]; intros idx; [done|]. cbn [stop_all].
  apply private_bind, mp_look. intros t t' u _ [= <- <-]. split; [done|]. mp_steps; apply IH.
Qed.

Lemma mp_join_all n idx (Q : _ -> _ -> _ -> Prop) :
  (n + idx <= WorkerTable.Rows)%nat -> Q g (mkHold f None None) tt ->
  mprivate (join_all n idx) Q g (mkHold f None None).
Proof.
  intros Hn HQ. revert idx Hn. induction n as [|n IH]; intros idx Hn; [done|]. cbn [join_all].
  apply private_bind, mp_look. intros t t' u _ [= <- <-]. split; [done|].
  mp_steps; [|apply IH; lia]. apply mp_join; [lia|]. mp_steps. apply IH. lia.
Qed.
End SocketLoop.

(** A message in buffer [i]: given away, or still its own. *)
Section Message.
Context (i : nat) (g : list buf_ref) (Hi : Some i ∈ g) (Hlt : (S (length g) < LOCALS)%nat).

Abbreviation own_i := (mkHold (Some i) None None).

Lemma holds_i : forall k, Some i = Some k -> Some k ∈ g.
Proof. by intros k [= <-]. Qed.

Lemma mp_forward idx n c (Q : _ -> _ -> _ -> Prop) :
  (idx < WorkerTable.Rows)%nat -> Q g own_i QueueError_Full -> Q g calm QueueError_None ->
  mprivate (forward idx (Some i) n c) Q g own_i.
Proof.
  intros Hidx HF HN. unfold forward. apply private_bind, mp_retain; [lia|by right|].
  apply private_bind, (mp_send idx _ i); [done|done|left|done|done| |]; mp_steps.
  - apply mp_drop_same; [apply holds_i|]. by mp_steps.
  - apply (mp_drop_same None); [done|]. by mp_steps.
Qed.

Lemma mp_reply a n c (Q : _ -> _ -> _ -> Prop) :
  Q g own_i tt -> mprivate (reply a (JobBuf.mkJobBuf (Some i) n) c) Q g own_i.
Proof. intros HQ. apply (mp_answer _ _ _ _ (Some i)); [done|by right; left|done]. Qed.

Context (Q : list buf_ref -> hold -> unit -> Prop) (HQ : Q g own_i tt) (HQ' : Q g calm tt).

Lemma mp_start_txn fuel n k c :
  mprivate (start_txn fuel (JobBuf.mkJobBuf (Some i) n) (Some i) k c) Q g own_i.
Proof using All.
  unfold start_txn. apply private_bind, mp_reap; [apply holds_i|done|].
  apply private_bind, mp_next_id. intros id. apply private_bind, mp_insert. intros ir Hidx.
  destruct (value_ ir) as [idx|]; [|by apply mp_reply].
  apply private_bind, mp_forward; [by apply Hidx|..]; by apply mp_put_id.
Qed.

Lemma mp_route op n k c :
  mprivate (route op (JobBuf.mkJobBuf (Some i) n) (Some i) k c) Q g own_i.
Proof using All.
  unfold route. mp_steps; [by apply mp_reply|]. apply mp_look.
  intros t t' sr Hl [= <- <-]. split; [done|].
  destruct (value_ (WorkerTable.search_ t _)) as [idx|] eqn:Es; [|by apply mp_reply].
  apply private_bind, mp_forward.
  - unfold WorkerTable.search_ in Es. rewrite do_while_while_true in Es; [|apply WorkerTable.worker_home_lt|done].
    destruct (while_true _ _ _ _) as [x|] eqn:E; [|done].
    apply while_true_Some in E as (j & _ & E & _); [|apply WorkerTable.worker_home_lt].
    simpl in Es. destruct (_ !! _) as [e|] eqn:He; [|done].
    destruct (negb _); [by simplify_eq/=|]. destruct (_ && _); [|done]. simplify_eq/=. apply slot_lt. vm_compute. lia.
  - by apply mp_reply.
  - rewrite bool_decide_true by done. cbn [negb]. by mp_steps.
Qed.

Lemma mp_handle fuel n k c :
  mprivate (handle fuel (JobBuf.mkJobBuf (Some i) n) (Some i) k c) Q g own_i.
Proof using All.
  unfold handle. mp_steps; [by apply mp_reply|].
  match goal with |- private _ _ _ _ _ _ (match ?op with _ => _ end) _ _ _ => destruct op end;
    try apply mp_route; [apply mp_start_txn|by mp_steps].
Qed.
End Message.

Lemma mp_turn fuel m (Q : _ -> _ -> _ -> Prop) :
  delivered m -> (forall st, Q [] calm st) -> mprivate (turn fuel m) Q [] calm.
Proof.
  intros Hm HQ. unfold turn, body. mp_steps.
  apply mp_request; [intros i; cbn [value_ Ok]|cbn [value_ Err]; by mp_steps].
  apply private_bind, mp_retain; [unfold LOCALS; simpl; lia|right; left|]. mp_steps.
  assert (Hend : forall x b, mprivate (drop_ref (Some i) ≫= fun _ => drop_ref (Some i) ≫= fun _ => Done b)
    (fun g x (go : bool) => mprivate (Done (if go then Next else Break)) Q g x) [Some i; Some i] x).
  { intros x b. apply private_bind, (mp_drop _ _ _ _ calm); [by split; auto|done|].
    apply private_bind, (mp_drop _ _ _ _ calm); [done..|]. by mp_steps. }
  destruct m as [| |bytes c]; [by mp_steps; apply Hend..|]. destruct Hm as [Hl Hb].
  apply private_bind, mp_receive; [done..|].
  apply private_bind, mp_retain; [unfold LOCALS; simpl; lia|right; left|]. mp_steps.
  apply mp_handle; [left|unfold LOCALS; simpl; lia|..].
  - mp_steps. apply (mp_drop _ _ _ _ calm); [by split; auto|done|]. mp_steps. apply Hend.
  - mp_steps. apply (mp_drop _ _ _ _ calm); [done..|]. mp_steps. apply Hend.
Qed.

Lemma mp_closing (Q : _ -> _ -> _ -> Prop) : (forall st, Q [] calm st) -> mprivate closing Q [] calm.
Proof.
  intros HQ. unfold closing, shut_down. mp_steps. apply mp_stop_all. mp_steps.
  apply (mp_join_all None []); [done|unfold LOCALS; simpl; lia|lia|]. by mp_steps.
Qed.

