(* ===== verification/Telling.v ===== *)
(** * What a turn of a worker says

    [Private] follows the buffers of a worker, [Replies] what it says to its
    client, [Trail] what it does to the records; here all three follow the same
    turn, in the same states.  A note next to the stage remembers what the turn
    has come across, and what has been said and applied since it started: a turn
    finds the order to stop, or an empty channel, and stays silent, or it takes
    a job and answers it. *)
From S2P Require Import Prelude Params Probe BufTable UniqueKey Ring Prog Counted Typing Worker.
From S2P Require Import WorkerLogic References Requests Private Replies Every Trail.
From S2P Require JobBuf StudentTable LockList CommitQueue Channels.

(** ** Notes *)

(** What a turn has come across: nothing yet; the order to stop; an empty
    channel; a job and its message. *)
Inductive seen :=
  | Unseen
  | Stopped
  | NoJob
  | Took (j : Channels.job) (req : list Z).

Record note := mkNote {
  n_start : voice;                  (* before the turn *)
  n_voice : voice;                  (* now *)
  n_claims : list (nat * list Z);   (* the buffer of the request, and its bytes *)
  n_seen : seen;
  n_first : trail;                  (* before the turn *)
  n_trail : trail                   (* now *)
}.

(** At the start of a turn. *)
Definition fresh_note (w : Worker) : note := 
  mkNote (voice_of w) (voice_of w) [] Unseen (fresh_trail w) (fresh_trail w).

Record told (s : shared) (w : Worker) (g : list buf_ref) (n : note) : Prop := {
  to_voice : voice_of w = n_voice n;
  to_owns : Owns (pool_of s) (n_claims n);
  to_held : forall k, k ∈ (n_claims n).*1 -> Some k ∈ g;
  to_trail : trailed s w (n_trail n)
}.

Definition observed (s : shared) (w : Worker) (z : seen) : Prop :=
  match z with
  | Unseen => False
  | Stopped => running_ w = false
  | NoJob => Channels.empty (job_ch_ w) = true
  | Took j req => Channels.empty (job_ch_ w) = false /\
      Channels.jobs_ (job_ch_ w) !! Channels.head_ (job_ch_ w) = Some j /\
      buffer (pool_of s) (Channels.job_ref j) = req
  end.

(** A turn comes across one thing, when it is there, before it says anything;
    it writes what is queued. *)
Definition learns (s : shared) (w : Worker) (n : note) (s' : shared) (n' : note) : Prop :=
  n_start n' = n_start n /\ n_first n' = n_first n /\ written s (n_trail n) s' (n_trail n') /\
  (n_seen n' = n_seen n \/ n_seen n = Unseen /\ n_voice n = n_start n /\ observed s w (n_seen n')).

Definition tidy_told (s : shared) (w : Worker) (g : list buf_ref) (y : stage * note) : Prop :=
  tidy s w g y.1 /\ told s w g y.2.
Definition moves_told (s : shared) (w : Worker) (g : list buf_ref) (y : stage * note)
    (s' : shared) (w' : Worker) (g' : list buf_ref) (y' : stage * note) : Prop :=
  moves s w g y.1 s' w' g' y'.1 /\ learns s w y.2 s' y'.2.

Abbreviation wtells := (private pool_of own_refs worker_shape any_change tidy_told moves_told).

Lemma owns_nil T : Owns T [].
Proof. split; [apply NoDup_nil_2|constructor]. Qed.

Lemma told_fresh s w g : queue_wf (commit_queue_ w) -> told s w g (fresh_note w).
Proof.
  intros Hq. split; [done|apply owns_nil|by intros k Hk%elem_of_nil|by apply trailed_fresh].
Qed.

(** ** Putting the two logics together *)

Lemma owns_valid T g k : Owns T g -> k ∈ g.*1 -> JobBuf.valid_ref T (Some k).
Proof.
  intros [_ Hg] Hk. apply list_elem_of_fmap in Hk as (c & -> & Hc).
  by apply (proj1 (list.Forall_forall _ _) Hg).
Qed.

(** Whoever keeps the buffers of others intact claims none of them. *)
Lemma claims_stay T T' i gc gc' :
  pool_typed T -> length (BufTable.buffers_ T') = length (BufTable.buffers_ T) ->
  (forall O, Owns T (gc ++ O) -> Owns T' (gc' ++ O)) -> Owns T gc -> (forall k, k ∈ gc.*1 -> k = i) ->
  forall k, k ∈ gc'.*1 -> k = i.
Proof.
  intros HT Hlen Hf Ho Hi k Hk. destruct (decide (k = i)) as [|Hne]; [done|exfalso].
  assert (Hv' : JobBuf.valid_ref T' (Some k)).
  { apply (owns_valid T' gc'); [|done]. specialize (Hf []). rewrite !app_nil_r in Hf. by apply Hf. }
  assert (Hv : JobBuf.valid_ref T (Some k)).
  { destruct (JobBuf.valid_ref_Some _ _ Hv') as (k' & e & [= <-] & He). apply lookup_lt_Some in He.
    rewrite Hlen in He. by destruct (buffer_whole T k HT He). }
  assert (H : Owns T (gc ++ [(k, buffer T (Some k))])).
  { destruct Ho as [Hd Hg]. split.
    - rewrite fmap_app. apply list.NoDup_app. split; [done|]. split; [|apply NoDup_singleton].
      intros k' Hk' ->%list_elem_of_singleton. by apply Hne, Hi.
    - apply Forall_app. split; [done|]. by repeat constructor. }
  apply Hf in H as [Hd _]. rewrite fmap_app in Hd. apply list.NoDup_app in Hd as (_ & Hno & _).
  apply (Hno k Hk). left.
Qed.

Lemma counts_pool s w g s' w' g' :
  (exists R, fits R /\ wcounts s w g R) -> wafter s w g s' w' g' ->
  length (BufTable.buffers_ (pool_of s')) = length (BufTable.buffers_ (pool_of s)).
Proof.
  intros (R & Hf & HR) [_ _ _ Hc]. specialize (Hc R Hf HR).
  by rewrite (pool_length _ _ HR), (pool_length _ _ Hc).
Qed.

Section Tells.
Context {A : Type}.
Implicit Types (p : wprog A) (g : list buf_ref) (x : stage) (n : note).

(** What a request is answered with, and that nobody else is concerned. *)
Lemma tells_reply i p Qp Qr (Qt : trail -> A -> Prop) g x st c gc z r0 r :
  wkeeps (elem_of (Some i)) p Qp g x ->
  ok voice_of pool_of Owns (fun _ => True) steady (fun _ _ => True) True True p Qr c gc ->
  trails p Qt r -> (forall k, k ∈ gc.*1 -> k = i) -> Some i ∈ g ->
  wtells p (fun g y a => Qp g y.1 a /\ exists c' gc' r', y.2 = mkNote st c' gc' z r0 r' /\ Qr c' gc' a /\ Qt r' a)
    g (x, mkNote st c gc z r0 r).
Proof.
  revert g x c gc r. induction p as [a|B f k IH]; intros g x c gc r Hp Hr Hw Hi Hg.
  { split; [done|]. by exists c, gc, r. }
  intros s w Hs Hl HR [Ht [Hc Ho Hh Htr]]. cbn [fst snd n_voice n_claims n_trail] in Ht, Hc, Ho, Hh, Htr.
  specialize (Hw s w Htr).
  specialize (Hp s w Hs Hl HR (conj Ht Hg)).
  assert (HO : exists O, Owns (pool_of s) (gc ++ O)) by (exists []; by rewrite app_nil_r).
  specialize (Hr s w Hc I (ws_jobs _ _ Hs) HO).
  destruct (f s w) as [[[s' w'] b]| |]; [|done..].
  destruct Hp as (g' & x' & Ha & [Ht' Hg'] & Hm & Hk). destruct Hr as (_ & gc' & Hf & Hkr).
  destruct Hw as (r' & Htr' & Hwr & Hkw).
  assert (Ho' : Owns (pool_of s') gc').
  { specialize (Hf []). rewrite !app_nil_r in Hf. by apply Hf. }
  assert (Hi' : forall k, k ∈ gc'.*1 -> k = i).
  { eapply claims_stay; [apply (ws_typed _ _ Hs)|by eapply counts_pool|exact Hf|exact Ho|exact Hi]. }
  exists g', (x', mkNote st (voice_of w') gc' z r0 r').
  split; [exact Ha|]. split; [|split].
  - split; [done|]. split; [done..| |done]. intros k' Hk'. by rewrite (Hi' k' Hk').
  - split; [done|]. split_and!; [done..|by left].
  - by apply IH.
Qed.

(** Programs that say nothing. *)
Fixpoint hushed p : Prop :=
  match p with
  | Done _ => True
  | Act f k => (forall s w s' w' b, f s w = Ret (s', w', b) -> voice_of w' = voice_of w) /\
      forall b, hushed (k b)
  end.

Lemma tells_hushed p Qp (Qt : trail -> A -> Prop) g x st c z r0 r :
  wprivate p Qp g x -> hushed p -> trails p Qt r ->
  wtells p (fun g y a => Qp g y.1 a /\ exists r', y.2 = mkNote st c [] z r0 r' /\ Qt r' a)
    g (x, mkNote st c [] z r0 r).
Proof.
  revert g x r. induction p as [a|B f k IH]; intros g x r Hp Hh Hw; [split; [done|by exists r]|].
  destruct Hh as [Hh Hk].
  intros s w Hs Hl HR [Ht [Hc Ho _ Htr]]. cbn [fst snd n_voice n_trail] in *. specialize (Hp s w Hs Hl HR Ht).
  specialize (Hw s w Htr).
  specialize (Hh s w). destruct (f s w) as [[[s' w'] b]| |]; [|done..].
  destruct Hp as (g' & x' & Ha & Ht' & Hm & Hq). destruct Hw as (r' & Htr' & Hwr & Hkw).
  exists g', (x', mkNote st c [] z r0 r').
  split; [exact Ha|]. split; [|split].
  - split; [done|]. split; [by rewrite (Hh _ _ _ eq_refl)|apply owns_nil|by intros k' Hk'%elem_of_nil|done].
  - split; [done|]. split_and!; [done..|by left].
  - by apply IH.
Qed.

(** What it returns, in whatever states it runs. *)
Fixpoint ends p (P : A -> Prop) : Prop :=
  match p with
  | Done a => P a
  | Act f k => forall s w s' w' b, f s w = Ret (s', w', b) -> ends (k b) P
  end.

Lemma tells_ends p (P : A -> Prop) (Q : list buf_ref -> stage * note -> A -> Prop) g y :
  ends p P -> wtells p Q g y -> wtells p (fun g y a => Q g y a /\ P a) g y.
Proof.
  revert g y. induction p as [a|B f k IH]; intros g y He H; [done|].
  intros s w Hs Hl HR Ht. specialize (H s w Hs Hl HR Ht).
  specialize (He s w). destruct (f s w) as [[[s' w'] b]| |]; [|done..].
  destruct H as (g' & y' & Ha & Ht' & Hm & Hk). exists g', y'. split_and!; [done..|].
  apply IH; [by eapply He|done].
Qed.
End Tells.

(** One action, and what it adds to the note. *)
Lemma tells_act {B} (f : shared -> Worker -> outcome (shared * Worker * B)) Qp
    (Q : list buf_ref -> stage * note -> B -> Prop) g x n :
  wprivate (act f) Qp g x ->
  (forall s w s' w' b g' x', worker_shape s w -> worker_shape s' w' ->
     (exists R, fits R /\ wcounts s' w' g' R) -> told s w g n ->
     f s w = Ret (s', w', b) -> Qp g' x' b ->
     exists n', told s' w' g' n' /\ learns s w n s' n' /\ Q g' (x', n') b) ->
  wtells (act f) Q g (x, n).
Proof.
  intros Hp Hx s w Hs Hl HR [Ht Hto]. specialize (Hp s w Hs Hl HR Ht). specialize (Hx s w).
  destruct (f s w) as [[[s' w'] b]| |]; [|done..].
  destruct Hp as (g' & x' & Ha & Ht' & Hm & HQ).
  destruct HR as (R & HfR & HcR).
  destruct (Hx s' w' b g' x') as (n' & H1 & H2 & H3); [done|apply Ha|by exists R; split; [|apply Ha]|done..|].
  exists g', (x', n'). split; [exact Ha|]. split; [by split|]. by split.
Qed.

(** The claims may be given up. *)
Lemma tells_forget {A B} (f : shared -> Worker -> outcome (shared * Worker * B)) (k : B -> wprog A)
    Q g x st c gc z r0 r :
  wtells (act f ≫= k) Q g (x, mkNote st c [] z r0 r) -> wtells (act f ≫= k) Q g (x, mkNote st c gc z r0 r).
Proof.
  intros H s w Hs Hl HR [Ht [Hc Ho _ Htr]]. apply (H s w Hs Hl HR). split; [done|].
  split; [done|apply owns_nil|by intros k' Hk'%elem_of_nil|done].
Qed.

(** ** What is said by whom *)

Section Quiet.
Context {A B : Type}.

Lemma hushed_bind (p : wprog B) (h : B -> wprog A) : hushed p -> (forall b, hushed (h b)) -> hushed (p ≫= h).
Proof.
  intros Hp Hh. change (hushed (bind p h)). induction p as [b|D f k IH]; [apply Hh|].
  destruct Hp as [Hf Hk]. split; [exact Hf|]. intros d. by apply IH.
Qed.

Lemma hushed_act (f : shared -> Worker -> outcome (shared * Worker * B)) :
  (forall s w s' w' b, f s w = Ret (s', w', b) -> voice_of w' = voice_of w) -> hushed (act f).
Proof. done. Qed.

Lemma ends_bind (p : wprog B) (h : B -> wprog A) P : (forall b, ends (h b) P) -> ends (p ≫= h) P.
Proof.
  intros Hh. change (ends (bind p h) P). induction p as [b|D f k IH]; [apply Hh|].
  intros s w s' w' d _. apply IH.
Qed.
End Quiet.

Lemma hushed_drop r : hushed (drop_ref r).
Proof. apply hushed_act. by intros s w s' w' b [= _ <- _]. Qed.

Lemma hushed_on_locks {B} (f : LockList.lock_list -> outcome (LockList.lock_list * B)) : hushed (on_locks f).
Proof.
  apply hushed_act. intros s w s' w' b E. by apply outcome_bind_Ret_inv in E as ([l x] & _ & [= _ <- _]).
Qed.

Lemma hushed_on_table {B} (f : StudentTable.StudentTable -> outcome (StudentTable.StudentTable * B)) :
  hushed (on_table f).
Proof.
  apply hushed_act. intros s w s' w' b E. by apply outcome_bind_Ret_inv in E as ([l x] & _ & [= _ <- _]).
Qed.

Lemma hushed_commit_get : hushed commit_get.
Proof.
  apply hushed_act. intros s w s' w' b E. unfold CommitQueue.get in E.
  destruct (_ !! _) as [c|]; [|done]. cbn [mbind outcome_bind] in E.
  destruct (CommitQueue.commit_copy _ _) as [T x]. by injection E as <- <- <-.
Qed.

Lemma hushed_unwrap {B E} (r : Result B E) : hushed (unwrap_ r).
Proof.
  apply hushed_act. intros s w s' w' b E1. by apply outcome_bind_Ret_inv in E1 as (a & _ & [= _ <- _]).
Qed.

Lemma hushed_release_loop fuel ll idx : hushed (release_loop fuel ll idx).
Proof.
  revert idx. induction fuel as [|f IH]; intros idx; cbn [release_loop]; [by apply hushed_act|].
  destruct (_ =? _)%nat; [done|]. destruct (LockList.deref ll idx); [|by apply hushed_act].
  destruct (disassemble_ _) as [tbl key]. apply hushed_bind; [|intros _; apply IH].
  destruct (_ =? _); [apply hushed_on_table|done].
Qed.

Lemma hushed_clear_queue fuel : hushed (clear_commit_queue fuel).
Proof.
  induction fuel as [|f IH]; cbn [clear_commit_queue]; [by apply hushed_act|].
  apply hushed_bind; [apply hushed_act; by intros s w s' w' b [= _ <- _]|]. intros [|]; [done|].
  apply hushed_bind; [apply hushed_commit_get|]. intros c. apply hushed_bind; [apply hushed_unwrap|]. intros x.
  apply hushed_bind; [apply hushed_act; by intros s w s' w' b [= _ <- _]|]. intros _.
  apply hushed_bind; [apply hushed_drop|]. intros _. exact IH.
Qed.

Lemma hushed_quit : hushed worker_quit.
Proof.
  unfold worker_quit, release_all_locks. apply hushed_bind.
  - apply hushed_bind; [apply hushed_on_locks|]. intros ll.
    apply hushed_bind; [apply hushed_release_loop|]. intros _. apply hushed_on_locks.
  - intros _. apply hushed_bind; [apply hushed_clear_queue|]. intros _.
    apply hushed_bind; [apply hushed_act; by intros s w s' w' b [= _ <- _]|]. intros id.
    apply hushed_act. intros s w s' w' b. by destruct (Channels.ret_send _ _ _ _) as [[T c] x]; intros [= _ <- _].
Qed.

Lemma hushed_closed r r1 r2 quit : hushed (closed r r1 r2 quit).
Proof.
  unfold closed. apply hushed_bind; [apply hushed_drop|]. intros _. apply hushed_bind; [apply hushed_drop|].
  intros _. apply hushed_bind; [apply hushed_drop|]. by intros _.
Qed.

Lemma dispatch_ends {mem : expiry} op p j : ends (dispatch op p j) (fun quit => quit = leaves op).
Proof. destruct op; cbn [dispatch]; repeat (apply ends_bind; intros ?); done. Qed.

Lemma answering_ends {mem : expiry} j r1 r2 op_r :
  (is_ok op_r = false /\ value_ op_r = None) \/ (exists op, op_r = Ok op) ->
  ends (answering j (r1, r2, op_r)) (fun quit => quit = leaves (default MAX_OP_VALUE (value_ op_r))).
Proof.
  unfold answering. cbn [fst snd]. intros [[-> ->]|[op ->]].
  - apply ends_bind. by intros _.
  - rewrite is_ok_Ok. intros s w s' w' b [= <- <- <-]. apply dispatch_ends.
Qed.

(** ** A turn *)

(** What a turn that came across [z] has said, from [c] to [c'], and what it has
    applied, from [r] to [r']. *)
Definition outcome_of (c c' : voice) (r r' : trail) (z : seen) (quit : bool) : Prop :=
  match z with
  | Unseen => False
  | Stopped => quit = true /\ v_sent c' = v_sent c /\ v_head c' = v_head c /\
      tr_log r' = tr_log r /\ tr_queue r' = []
  | NoJob => quit = false /\ v_sent c' = v_sent c /\ v_head c' = v_head c /\ r' = r
  | Took j req => exists i op_r ds k, Channels.job_ref j = Some i /\ op_of i req (Channels.buf_sz j) op_r /\
      let op := default MAX_OP_VALUE (value_ op_r) in
      quit = leaves op /\ v_sent c' = v_sent c ++ ds /\
      v_head c' = slot Channels.MaxJobs (v_head c) k /\
      exchange op (Channels.conn_ j) (reply_header op (v_txn c) req) ds k /\ worked op r r'
  end.

Definition heard (g : list buf_ref) (y : stage * note) (quit : bool) : Prop :=
  (g = [] /\ y.1 = Idle) /\ outcome_of (n_start y.2) (n_voice y.2) (n_first y.2) (n_trail y.2) (n_seen y.2) quit.

(** Before a job has been taken. *)
Definition unspoken (c : voice) (timeout : Z) : voice := mkVoice (v_sent c) (v_head c) (v_txn c) timeout.

Lemma unspoken_self c : unspoken c (v_timeout c) = c.
Proof. by destruct c. Qed.

(** Access to the worker's own data. *)
Lemma tells_own {B} (f : Worker -> outcome (Worker * B)) h g x n n' (Q : _ -> _ -> _ -> Prop) :
  (forall s w, h s w = ('(w', b) ← f w; Ret (s, w', b))) ->
  (forall w w' b, f w = Ret (w', b) ->
     job_ch_ w' = job_ch_ w /\ commit_queue_ w' = commit_queue_ w /\ status_ w' = status_ w) ->
  n_claims n' = n_claims n -> n_start n' = n_start n -> n_seen n' = n_seen n ->
  n_first n' = n_first n -> n_trail n' = n_trail n ->
  (forall w w' b, voice_of w = n_voice n -> f w = Ret (w', b) -> voice_of w' = n_voice n' /\ Q g (x, n') b) ->
  wtells (act h) Q g (x, n).
Proof.
  intros Hh Hf Hc Hst Hz Hf0 Hf1 HQ. apply (tells_act _ (fun g' x' _ => g' = g /\ x' = x)).
  { apply (private_weaken (fun _ => True)); [done|]. eapply private_local; [exact Hh| |done].
    intros w w' b E. by destruct (Hf _ _ _ E) as (? & ? & _). }
  intros s w s' w' b g' x' _ _ _ [Hv Ho Hk Htr] E [-> ->]. rewrite Hh in E.
  apply outcome_bind_Ret_inv in E as ([w1 b1] & E & [= <- <- <-]).
  destruct (HQ w w1 b1 Hv E) as [H1 H2]. destruct (Hf _ _ _ E) as (_ & Hq & Hs).
  exists n'. split; [|split; [|exact H2]].
  - split; [done|by rewrite Hc|by rewrite Hc|]. rewrite Hf1. by eapply trailed_stable.
  - split; [done|]. split; [done|]. rewrite Hf1. split; [by left|by left].
Qed.

Section OwnData.
Context (g : list buf_ref) (x : stage) (st c : voice) (gc : list (nat * list Z)) (z : seen) (r0 r : trail).

Lemma tells_put_timeout k (Q : _ -> _ -> _ -> Prop) :
  Q g (x, mkNote st (unspoken c k) gc z r0 r) tt -> wtells (put_timeout_cnt k) Q g (x, mkNote st c gc z r0 r).
Proof.
  intros HQ. apply (tells_own (fun w => Ret (set_timeout_cnt w k, tt)) _ _ _ _ (mkNote st (unspoken c k) gc z r0 r));
    [done|by intros ? ? ? [= <- _]|done..|].
  intros w w' [] Hv [= <-]. split; [|exact HQ].
  change (unspoken (voice_of w) k = unspoken c k). by rewrite Hv.
Qed.

Lemma tells_get_timeout (Q : _ -> _ -> _ -> Prop) :
  Q g (x, mkNote st c gc z r0 r) (v_timeout c) -> wtells get_timeout_cnt Q g (x, mkNote st c gc z r0 r).
Proof.
  intros HQ. apply (tells_own (fun w => Ret (w, timeout_cnt_ w)) _ _ _ _ (mkNote st c gc z r0 r)); [done|by intros ? ? ? [= <- _]|done..|].
  intros w w' t Hv [= <- <-]. split; [done|]. cbn in Hv. by rewrite <- Hv in HQ |- *.
Qed.

Lemma tells_unwrap {B E} (x0 : Result B E) (Q : _ -> _ -> _ -> Prop) :
  (forall a, value_ x0 = Some a -> Q g (x, mkNote st c gc z r0 r) a) -> wtells (unwrap_ x0) Q g (x, mkNote st c gc z r0 r).
Proof.
  intros HQ. apply (tells_own (fun w => a ← unwrap x0; Ret (w, a)) _ _ _ _ (mkNote st c gc z r0 r)).
  - intros s w. by destruct (unwrap x0).
  - intros w w' b E1. by apply outcome_bind_Ret_inv in E1 as (a & _ & [= <- _]).
  - done.
  - done.
  - done.
  - done.
  - done.
  - intros w w' b Hv E1. apply outcome_bind_Ret_inv in E1 as (a & Ha & [= <- <-]).
    split; [done|]. apply HQ. unfold unwrap in Ha. destruct (value_ x0); [by injection Ha as ->|done].
Qed.
End OwnData.

(** The order to stop is noted when it is found. *)
Lemma tells_is_running g x c gc r (Q : _ -> _ -> _ -> Prop) :
  (forall b, Q g (x, mkNote c c gc (if b : bool then Unseen else Stopped) r r) b) ->
  wtells is_running Q g (x, mkNote c c gc Unseen r r).
Proof.
  intros HQ. apply (tells_act _ (fun g' x' _ => g' = g /\ x' = x)).
  { apply (private_weaken (fun _ => True)); [done|]. by apply private_is_running. }
  intros s w s' w' b g' x' _ _ _ [Hv Ho Hk Htr] [= <- <- <-] [-> ->].
  exists (mkNote c c gc (if running_ w then Unseen else Stopped) r r). split; [by split|]. split; [|apply HQ].
  split; [done|]. split; [done|]. split; [by left|]. destruct (running_ w) eqn:Hr; [by left|right]. by split.
Qed.

Lemma tells_recv c tr (Q : list buf_ref -> stage * note -> Result Channels.job QueueError -> Prop) :
  (forall j i req op_r, Channels.job_ref j = Some i -> op_of i req (Channels.buf_sz j) op_r ->
     (is_ok op_r = false /\ value_ op_r = None) \/ (exists op, op_r = Ok op) ->
     Q [Some i] (Reading i, mkNote c c [(i, req)] (Took j req) tr tr) (Ok j)) ->
  (forall j req, Channels.job_ref j = None -> Q [None] (Idle, mkNote c c [] (Took j req) tr tr) (Ok j)) ->
  (forall r, is_ok r = false -> Q [] (Idle, mkNote c c [] NoJob tr tr) r) ->
  wtells job_recv Q [] (Idle, mkNote c c [] Unseen tr tr).
Proof.
  intros HQ HN HE.
  apply (tells_act _ (fun g x r => (exists j, g = [Channels.job_ref j] /\ x = arrived (Channels.job_ref j) /\ r = Ok j) \/
    g = [] /\ x = Idle /\ is_ok r = false)).
  { apply (private_weaken (fun _ => True)); [done|]. apply private_job_recv.
    - intros j. left. by exists j.
    - intros r Hr. by right. }
  intros s w s' w' b g' x' Hs Hs' HR [Hv Ho _ Htr] E Hcase. unfold job_recv in E.
  destruct (Channels.recv id _ _) as [[T ch] r] eqn:Er. injection E as <- <- <-.
  destruct (recv_cases _ _ _ _ _ (ws_jobs _ _ Hs) Er) as (-> & Hr). pose proof (recv_bytes _ _ _ _ _ Er) as Hb.
  assert (Htr' : trailed (set_buffers s T) w tr).
  { eapply trailed_stable; [exact Htr|done|done|]. intros b _. apply Hb. }
  assert (Hw : written s tr (set_buffers s T) tr) by by left.
  assert (Hsame : set_job_ch w (job_ch_ w) = w) by by destruct w. rewrite Hsame in *. clear Hsame.
  destruct Hr as [(Hr & He & _)|(He & j & Hj & -> & _)].
  - destruct Hcase as [(j & _ & _ & ->)|(-> & -> & _)]; [done|].
    exists (mkNote c c [] NoJob tr tr). split; [|split; [|by apply HE]].
    + split; [done|apply owns_nil|by intros k Hk%elem_of_nil|done].
    + split; [done|]. split; [done|]. split; [done|]. by right.
  - destruct Hcase as [(j' & -> & -> & [= <-])|(_ & _ & Hf)]; [|done].
    set (req := buffer (pool_of s) (Channels.job_ref j)).
    assert (Hl : forall s' gc, written s tr s' tr ->
      learns s w (mkNote c c [] Unseen tr tr) s' (mkNote c c gc (Took j req) tr tr)).
    { intros s' gc Hws. split; [done|]. split; [done|]. split; [done|]. by right. }
    destruct (Channels.job_ref j) as [i|] eqn:Hi; cbn [arrived].
    + exists (mkNote c c [(i, req)] (Took j req) tr tr). split; [|split; [by apply Hl|]].
      * split; [done| |by intros k ->%list_elem_of_singleton; left|done].
        split; [apply NoDup_singleton|]. constructor; [|constructor]. cbn [fst snd n_claims]. split.
        -- by destruct (local_whole _ w [Some i] i (ws_typed _ _ Hs') HR) as [Hwh _]; [left|].
        -- apply Hb.
      * eapply HQ; [done|unfold req; apply get_op_of|apply get_op_cases].
    + exists (mkNote c c [] (Took j req) tr tr). split; [|split; [by apply Hl|by apply HN]].
      split; [done|apply owns_nil|by intros k Hk%elem_of_nil|done].
Qed.

(** The job is answered. *)
Lemma tells_handle {mem : expiry} j i req op_r st r :
  tr_hand r = None -> Channels.job_ref j = Some i -> op_of i req (Channels.buf_sz j) op_r ->
  (is_ok op_r = false /\ value_ op_r = None) \/ (exists op, op_r = Ok op) ->
  wtells (handle j) heard [Some i] (Reading i, mkNote st (unspoken st 0) [(i, req)] (Took j req) r r).
Proof.
  intros Hr Hi Hop Hcase. rewrite handle_split. apply private_bind. eapply private_mono; cycle 1.
  { eapply (tells_reply i (opened j) (fun g x y => g = [Some i; Some i; Some i] /\ x = Reading i) _ (fun r' _ => r' = r)).
    - apply (private_opened j i Hi). by intros.
    - by apply (opened_replies i j Hi op_r).
    - apply trails_still; [done|unfold opened; walk|done].
    - by intros k ->%list_elem_of_singleton.
    - left. }
  intros g y x [[-> Hx] (c' & gc' & r1 & Hn & (b & -> & -> & -> & ->) & ->)].
  destruct y as [x n]. cbn [fst snd] in Hx, Hn. subst x n.
  unfold answered_by. cbn [fst snd]. rewrite Hi. apply private_bind. eapply private_mono; cycle 1.
  { apply tells_ends; [by apply answering_ends|].
    apply (tells_reply i _ (fun g x _ => g = [Some i; Some i; Some i] /\ ready x)).
    - apply private_answering; [left|by intros].
    - by apply answering_replies.
    - by apply trails_answering.
    - by intros k ->%list_elem_of_singleton.
    - left. }
  intros g y quit [[[-> Hx] (c' & gc' & r1 & Hn & (b' & -> & ds & k & -> & Hex) & Hwk)] Hq].
  destruct y as [x n]. cbn [fst snd] in Hx, Hn. subst n. unfold closed.
  apply tells_forget. eapply private_mono; cycle 1.
  { apply tells_hushed; [|apply (hushed_closed (Some i) (Some i) (Some i) quit)|].
    - apply (private_weaken (fun _ => True)); [done|].
      apply (private_closed _ _ _ _ x (fun g x a => (g = [] /\ x = Idle) /\ a = quit)); [done..|]. by split.
    - apply (trails_still _ (fun r' _ => r' = r1)); [apply Hwk|walk; apply (every_drop (Some i))|done]. }
  intros g y a [[Hgx ->] (r2 & Hn & ->)]. split; [exact Hgx|]. rewrite Hn. cbn.
  exists i, op_r, ds, k. by split_and!.
Qed.

(** A message without a buffer is the end of the worker. *)
Lemma tells_retain_null g st c z r0 r (Q : _ -> _ -> _ -> Prop) :
  tr_hand r = None -> (length g < LOCALS)%nat -> Q (None :: g) (Idle, mkNote st c [] z r0 r) None ->
  wtells (retain None) Q g (Idle, mkNote st c [] z r0 r).
Proof.
  intros Hr Hl HQ. eapply private_mono; cycle 1.
  { apply tells_hushed; [|by apply hushed_act; intros ? ? ? ? ? [= _ <- _]|].
    - apply (private_weaken (fun _ => True)); [done|].
      apply (private_retain _ (fun g' x r => g' = None :: g /\ x = Idle /\ r = None)); [done|by left|done].
    - apply (trails_still _ (fun r' _ => r' = r)); [done|apply every_retain|done]. }
  intros g' [x n] x0 [(-> & Hx & ->) (r' & Hn & ->)]. cbn [fst snd] in Hx, Hn. by subst x n.
Qed.

Lemma tells_handle_null {mem : expiry} j st c z r0 r (Q : _ -> _ -> _ -> Prop) :
  tr_hand r = None -> Channels.job_ref j = None -> wtells (handle j) Q [None] (Idle, mkNote st c [] z r0 r).
Proof.
  intros Hr Hj. rewrite handle_split. unfold opened. rewrite Hj.
  apply private_bind. do 2 (apply private_bind, tells_retain_null; [done|unfold LOCALS; simpl; lia|]).
  apply private_bind. by intros s w _ _ _ _.
Qed.

Lemma tells_iteration {mem : expiry} c r :
  tr_hand r = None -> wtells iteration heard [] (Idle, mkNote c c [] Unseen r r).
Proof.
  intros Hr. assert (Er : r = idle_trail (tr_queue r) (tr_status r) (tr_log r)).
  { destruct r. cbn in Hr. by subst. }
  unfold iteration. apply private_bind, tells_is_running. intros [|]; cbn [negb].
  2: { apply private_bind. eapply private_mono; cycle 1.
    { apply tells_hushed; [|apply hushed_quit|].
      - apply (private_weaken (fun _ => True)); [done|].
        apply (private_quit (fun g x _ => g = [] /\ x = Idle)); [unfold LOCALS; simpl; lia|done..].
      - rewrite Er at 1. apply (trails_quit (tr_queue r) (tr_status r) (tr_log r)). }
    intros g y [] [Hgx (r' & Hn & ->)]. apply private_done. split; [exact Hgx|]. by rewrite Hn. }
  apply private_bind, tells_recv.
  - intros j i req op_r Hi Hop Hcase. rewrite is_ok_Ok. cbn [negb].
    apply private_bind, tells_put_timeout, private_bind, tells_get_timeout, private_bind, tells_unwrap.
    intros j' [= <-]. by eapply tells_handle.
  - intros j req Hj. rewrite is_ok_Ok. cbn [negb].
    apply private_bind, tells_put_timeout, private_bind, tells_get_timeout, private_bind, tells_unwrap.
    intros j' [= <-]. by apply tells_handle_null.
  - intros x ->. cbn [negb].
    apply private_bind, tells_get_timeout, private_bind, tells_put_timeout, private_done. by split.
Qed.

(** ** What others may do meanwhile *)

Abbreviation mark := (stage * note)%type.

(** Between two turns, before the first. *)
Definition rest_note (w : Worker) : note :=
  mkNote (voice_of w) (voice_of w) [] NoJob (fresh_trail w) (fresh_trail w).

Lemma told_rest s w g : queue_wf (commit_queue_ w) -> told s w g (rest_note w).
Proof. intros Hq. split; [done|apply owns_nil|by intros k Hk%elem_of_nil|by apply trailed_fresh]. Qed.

Lemma told_stable s w g n s' w' :
  told s w g n -> voice_of w' = voice_of w -> commit_queue_ w' = commit_queue_ w -> status_ w' = status_ w ->
  (forall b, Some b ∈ commit_refs w ++ g -> buffer (pool_of s') (Some b) = buffer (pool_of s) (Some b)) -> told s' w' g n.
Proof.
  intros [Hv [Hd Ho] Hk Htr] Hw Hq Hs Hb. split; [by rewrite Hw| |done|].
  2: { eapply trailed_stable; [exact Htr|done..|]. intros b Hbc. apply Hb, elem_of_app. by left. }
  split; [done|].
  apply list.Forall_forall. intros c Hc. pose proof (proj1 (list.Forall_forall _ _) Ho c Hc) as [H1 H2].
  assert (E : buffer (pool_of s') (Some c.1) = buffer (pool_of s) (Some c.1)).
  { apply Hb, elem_of_app. right. apply Hk, list_elem_of_fmap. by exists c. }
  unfold JobBuf.valid_ref in *. by rewrite E.
Qed.

Lemma tidy_told_stable s w g (y : mark) s' w' :
  tidy_told s w g y -> commit_queue_ w' = commit_queue_ w -> status_ w' = status_ w -> joined_by (own_refs s w ++ g) (job_ch_ w) (job_ch_ w') ->
  sent_ w' = sent_ w -> txn_id_ w' = txn_id_ w -> timeout_cnt_ w' = timeout_cnt_ w ->
  (forall b, Some b ∈ own_refs s w ++ g -> buffer (pool_of s') (Some b) = buffer (pool_of s) (Some b)) ->
  tidy_told s' w' g y.
Proof.
  intros [Ht Hto] Hc Hs Hj H1 H2 H3 Hb. split; [by eapply tidy_stable|].
  eapply told_stable; [exact Hto| |done|done|].
  - unfold voice_of. rewrite H1, H2, H3. by destruct Hj as [->|(? & ? & ? & _ & _ & _ & ->)].
  - intros b [Hg|Hg]%elem_of_app; apply Hb, elem_of_app; [left|by right].
    unfold own_refs. apply elem_of_app. by right.
Qed.

Lemma tidy_told_same s w g (y : mark) s' :
  same_bytes (pool_of s) (pool_of s') -> tidy_told s w g y -> tidy_told s' w g y.
Proof.
  intros Hb [Ht Hto]. split; [by eapply tidy_same|]. eapply told_stable; [done..|]. intros b _. apply Hb.
Qed.
