(* ===== verification/Ownership.v ===== *)
(** * Every buffer has one owner

    [Private] (the workers) and [Handover] (the socket thread) together.  In
    every state of the server each buffer that a context or its worker refers
    to belongs to that context, whose thread alone may write it; what is
    queued for a commit is not written any more. *)
From S2P Require Import Prelude Params Probe BufTable Ring Prog Counted Typing References Requests Private Every Trail Telling.
From S2P Require Import Serve Server Refinement Handover.
From S2P Require Bytes JobBuf StudentTuple StudentTable CommitQueue Channels Worker WorkerTable ThreadManager Replies.

(** ** The invariant of the server *)

Definition thread_private (t : thread) (gx : list buf_ref * mark) : Prop :=
  match phase_ t with
  | Running p => (length gx.1 <= LOCALS)%nat /\
      wtells p heard gx.1 gx.2
  | _ => gx.1 = [] /\ gx.2.1 = Idle
  end.

(** [owner] says to which context a buffer belongs. *)
Record private_inv (v : server) (gm : list buf_ref) (xm : hold) (gs : list (list buf_ref * mark))
    (owner : nat -> nat) : Prop := {
  pi_shape : world_shape (world_ v) (socket_ v);
  pi_locals : (length gm <= LOCALS)%nat;
  pi_socket : mprivate (prog_ v) (fun g x _ => g = [] /\ x = calm) gm xm;
  pi_threads : Forall2 thread_private (threads_ (world_ v)) gs;
  pi_pool : mcounts (world_ v) (socket_ v) gm (mjoin (fst <$> gs));
  pi_held : held (world_ v) (socket_ v) gm xm;
  pi_tidy : forall i t g x p, threads_ (world_ v) !! i = Some t -> gs !! i = Some (g, x) ->
    phase_ t = Running p -> tidy_told (shared_ (world_ v)) (load (world_ v) t) g x;
  pi_unshared : Forall unshared (chans (world_ v));
  pi_chans : forall idx c b, chans (world_ v) !! idx = Some c -> Some b ∈ slot_refs c -> owner b = idx;
  pi_refs : forall i t g x b, threads_ (world_ v) !! i = Some t -> gs !! i = Some (g, x) ->
    Some b ∈ thread_refs t ++ g -> owner b = slot_ t
}.

Lemma private_start : private_inv server_start [] calm [] (fun _ => 0%nat).
Proof.
  split.
  - apply start_shape.
  - simpl. lia.
  - done.
  - constructor.
  - apply (in_pool _ _ _ inv_start).
  - by split.
  - by intros i t g x p H.
  - apply Forall_fmap, Forall_replicate. intros n1 n2 j1 j2 b H1 _ Hb _.
    by apply (lookup_replicate 16) in H1 as [-> _].
  - intros idx c b Hc Hb. apply list_lookup_fmap_Some_1 in Hc as (e & -> & He).
    apply lookup_replicate in He as [-> _]. by apply (elem_of_replicate 16) in Hb as [? _].
  - by intros i t g x b H.
Qed.

Lemma private_fit W m gs :
  world_shape W m -> Forall2 thread_private (threads_ W) gs -> (length (mjoin (fst <$> gs)) <= 512)%nat.
Proof.
  intros Hs Hf. pose proof (active_bound W m Hs) as Ha. change WorkerTable.Rows with 64%nat in Ha.
  assert (H : (length (mjoin (fst <$> gs)) <= 8 * length (active_slots (threads_ W)))%nat); [|lia].
  apply (per_thread (fun t g => (length g <= if active t then 8 else 0)%nat)); [done|].
  apply Forall2_fmap_r. eapply Forall2_impl; [|exact Hf]. intros t gx. unfold thread_private, active.
  destruct gx as [g y]. cbn [fst snd]. destruct (phase_ t); [by intros [? _]|intros [-> _]; simpl; lia..].
Qed.

(** One thread among all. *)
Lemma private_thread v gm xm gs owner i t :
  private_inv v gm xm gs owner -> threads_ (world_ v) !! i = Some t ->
  exists g x, gs !! i = Some (g, x) /\ thread_private t (g, x).
Proof.
  intros Hv Hi. destruct (Forall2_lookup_l _ _ _ _ _ (pi_threads _ _ _ _ _ Hv) Hi) as ([g x] & Hg & H).
  by exists g, x.
Qed.

(** The references of a worker are owned by its context. *)
Lemma owned_refs W m gs owner gm xm p i t g x q b :
  private_inv (mkServer W m p) gm xm gs owner -> threads_ W !! i = Some t -> gs !! i = Some (g, x) ->
  phase_ t = Running q -> Some b ∈ References.own_refs (shared_ W) (load W t) ++ g -> owner b = slot_ t.
Proof.
  intros Hv Hi Hg Hph Hb. destruct (loaded_shape W m i t q (pi_shape _ _ _ _ _ Hv) Hi Hph) as (e & He & Hce & _).
  unfold References.own_refs, load in Hb. cbn [Worker.job_ch_ Worker.set_running Worker.set_job_ch] in Hb.
  rewrite Hce, <- app_assoc in Hb. apply elem_of_app in Hb as [Hb|Hb].
  - eapply (pi_chans _ _ _ _ _ Hv); [by apply chan_lookup|done].
  - eapply (pi_refs _ _ _ _ _ Hv); [done..|]. unfold thread_refs. by rewrite Hph.
Qed.

(** A buffer the socket thread alone refers to is no worker's. *)
Lemma fresh_absent W m p gm xm gs owner k :
  private_inv (mkServer W m p) gm xm gs owner -> fresh xm = Some k ->
  (Some k ∉ own_refs W m) /\ (Some k ∉ mjoin (fst <$> gs)).
Proof.
  intros Hv Hk. eapply sole_absent; [exact (pi_pool _ _ _ _ _ Hv)|].
  by apply (hd_fresh _ _ _ _ (pi_held _ _ _ _ _ Hv)).
Qed.

Lemma worker_own W m i t g x gs b q e :
  threads_ W !! i = Some t -> gs !! i = Some (g, x) -> phase_ t = Running q ->
  WorkerTable.table_ (contexts_ W) !! slot_ t = Some e -> context_at W (slot_ t) = WorkerTable.context_ e ->
  Some b ∈ References.own_refs (shared_ W) (load W t) ++ g ->
  Some b ∈ own_refs W m \/ Some b ∈ mjoin (fst <$> (gs : list (list buf_ref * mark))).
Proof.
  intros Hi Hg Hph He Hce Hb. apply elem_of_app in Hb as [Hb|Hb]; [left|right].
  - destruct (world_split W i t q e Hi Hph He Hce) as (O & H1 & _). rewrite (H1 m). apply elem_of_app. by left.
  - apply list_elem_of_join. exists g. split; [done|]. apply list_elem_of_fmap. exists (g, x).
    split; [done|]. by eapply list_elem_of_lookup_2.
Qed.

(** ** The socket thread acts *)

Section SocketStep.
Context (W : world) (m : socket) (p : mprog stage) (gm : list buf_ref) (xm : hold).
Context (gs : list (list buf_ref * mark)) (owner : nat -> nat).
Context (Hv : private_inv (mkServer W m p) gm xm gs owner).

(** A running worker: its context is open, its references are not the socket
    thread's. *)
Lemma running_slot i t q : threads_ W !! i = Some t -> phase_ t = Running q -> slot_ t ∈ active_slots (threads_ W).
Proof. intros Hi Hph. apply (active_slot W i); [done|]. unfold active. by rewrite Hph. Qed.

Lemma not_fresh i t g x q b :
  threads_ W !! i = Some t -> gs !! i = Some (g, x) -> phase_ t = Running q ->
  Some b ∈ References.own_refs (shared_ W) (load W t) ++ g -> fresh xm <> Some b.
Proof using Hv.
  intros Hi Hg Hph Hb Hx. destruct (fresh_absent _ _ _ _ _ _ _ _ Hv Hx) as [H1 H2].
  destruct (loaded_shape W m i t q (pi_shape _ _ _ _ _ Hv) Hi Hph) as (e & He & Hce & _).
  by destruct (worker_own W m i t g x gs b q e Hi Hg Hph He Hce Hb).
Qed.

Lemma not_dead i t g x q b :
  threads_ W !! i = Some t -> gs !! i = Some (g, x) -> phase_ t = Running q ->
  Some b ∈ References.own_refs (shared_ W) (load W t) ++ g -> dead xm <> Some b.
Proof using Hv.
  intros Hi Hg Hph Hb Hx. destruct (pi_held _ _ _ _ _ Hv) as [_ Hcl Hd].
  destruct (Hd b Hx) as (idx & c & Hc & Hch & Hin). apply (Hcl idx Hc).
  rewrite <- (pi_chans _ _ _ _ _ Hv idx c b Hch Hin), (owned_refs _ _ _ _ _ _ _ _ _ _ _ _ _ Hv Hi Hg Hph Hb).
  by apply (running_slot i t q).
Qed.

(** It writes no buffer of a running worker. *)
Lemma socket_spares W' m' gm' xm' i t g x q b :
  served W m gm xm W' m' gm' xm' -> threads_ W !! i = Some t -> gs !! i = Some (g, x) ->
  phase_ t = Running q -> Some b ∈ References.own_refs (shared_ W) (load W t) ++ g ->
  buffer (pool_of W') (Some b) = buffer (pool_of W) (Some b).
Proof using Hv.
  intros Hsv Hi Hg Hph Hb. destruct (sv_bytes _ _ _ _ _ _ _ _ Hsv b) as [Hx|[Hx|?]]; [..|done].
  - by destruct (not_fresh _ _ _ _ _ _ Hi Hg Hph Hb).
  - by destruct (not_dead _ _ _ _ _ _ Hi Hg Hph Hb).
Qed.

(** Who owns what afterwards. *)
Lemma chans_owned l' :
  chan_change xm (chans W) l' -> exists owner',
    Forall unshared l' /\
    (forall idx c b, l' !! idx = Some c -> Some b ∈ slot_refs c -> owner' b = idx) /\
    (forall i t g x b, threads_ W !! i = Some t -> gs !! i = Some (g, x) ->
       Some b ∈ thread_refs t ++ g -> owner' b = slot_ t).
Proof using Hv.
  pose proof (pi_unshared _ _ _ _ _ Hv) as Hun. pose proof (pi_chans _ _ _ _ _ Hv) as Hch.
  pose proof (pi_refs _ _ _ _ _ Hv) as Hre. cbn [world_] in *.
  intros [->|T idx c _ Hc ->|idx c c' i n j Hf Hc -> Hj Hjs _].
  - by exists owner.
  - exists owner. split_and!; [| |done].
    + apply Forall_insert; [done|]. apply popped_unshared. exact (Forall_lookup_1 _ _ _ _ Hun Hc).
    + intros k c1 b [(-> & <- & _)|[_ Hk]]%list_lookup_insert_Some Hb; [|by eapply Hch].
      apply popped_refs in Hb as [Hb _]. by eapply Hch.
  - destruct (fresh_absent _ _ _ _ _ _ _ _ Hv Hf) as [H1 H2].
    exists (fun b => if decide (b = i) then idx else owner b).
    assert (Hni : forall k c1 b, chans W !! k = Some c1 -> Some b ∈ slot_refs c1 -> b <> i).
    { intros k c1 b Hk Hb ->. by apply H1, (own_chans_elem W m k c1). }
    split_and!.
    + apply Forall_insert; [done|]. eapply joined_unshared; [|exact Hj|exact Hjs|].
      * intros Hin. by apply (Hni idx c i Hc Hin).
      * exact (Forall_lookup_1 _ _ _ _ Hun Hc).
    + intros k c1 b [(-> & <- & _)|[_ Hk]]%list_lookup_insert_Some Hb.
      * destruct (decide (b = i)) as [|Hne]; [done|]. apply list_elem_of_fmap in Hb as (jk & Hjk & Hb).
        apply list_elem_of_lookup in Hb as [h Hh]. rewrite Hjs in Hh.
        destruct (joined_slot _ _ _ _ _ _ _ Hj Hh (eq_sym Hjk)) as [[_ ?]|Hh']; [done|].
        eapply Hch; [exact Hc|]. apply list_elem_of_fmap. exists jk. split; [done|].
        by eapply list_elem_of_lookup_2.
      * rewrite decide_False by by eapply Hni. by eapply Hch.
    + intros k t g x b Hk Hg Hb. rewrite decide_False; [by eapply Hre|]. intros ->.
      apply elem_of_app in Hb as [Hb|Hb].
      * apply H1. unfold own_refs, object_refs. apply elem_of_app. right. apply list_elem_of_join.
        exists (thread_refs t). split; [done|]. apply list_elem_of_fmap. exists t. split; [done|].
        by eapply list_elem_of_lookup_2.
      * apply H2, list_elem_of_join. exists g. split; [done|]. apply list_elem_of_fmap. exists (g, x).
        split; [done|]. by eapply list_elem_of_lookup_2.
Qed.

(** A job may have joined the channel of a running worker. *)
Lemma chans_joined l' i t g x q :
  chan_change xm (chans W) l' -> threads_ W !! i = Some t -> gs !! i = Some (g, x) -> phase_ t = Running q ->
  exists c', l' !! slot_ t = Some c' /\
    joined_by (References.own_refs (shared_ W) (load W t) ++ g) (Worker.job_ch_ (load W t)) c'.
Proof using Hv.
  intros Hc Hi Hg Hph.
  destruct (loaded_shape W m i t q (pi_shape _ _ _ _ _ Hv) Hi Hph) as (e & He & Hce & _).
  assert (Hl : Worker.job_ch_ (load W t) = chan e) by (unfold load; cbn; by rewrite Hce).
  pose proof (chan_lookup W _ e He) as Hch. rewrite Hl.
  destruct Hc as [->|T idx c Hcl Hc ->|idx c c' k n j Hf Hc -> Hj Hjs Hh].
  - exists (chan e). split; [done|]. by left.
  - exists (chan e). split; [|by left]. rewrite list_lookup_insert_ne; [done|]. intros ->.
    apply (hd_closed _ _ _ _ (pi_held _ _ _ _ _ Hv) _ Hcl). by apply (running_slot i t q).
  - destruct (decide (idx = slot_ t)) as [->|Hne].
    + rewrite Hch in Hc. injection Hc as <-. exists c'. split.
      * apply list_lookup_insert_eq. by apply lookup_lt_Some in Hch.
      * right. exists k, n, j. split; [|by split_and!]. intros Hb.
        by destruct (not_fresh _ _ _ _ _ _ Hi Hg Hph Hb).
    + exists (chan e). split; [by rewrite list_lookup_insert_ne|by left].
Qed.
End SocketStep.

Lemma chan_at W idx c : chans W !! idx = Some c -> WorkerTable.job_ch_ (context_at W idx) = c.
Proof.
  unfold chans, context_at. rewrite list_lookup_fmap. by destruct (_ !! idx); [intros [= <-]|].
Qed.

(** A thread the socket thread has not joined is as it was. *)
Lemma same_running t t' q : same_thread t t' -> phase_ t' = Running q -> t' = t.
Proof. intros [?|(_ & _ & _ & Hp)] Hph; [done|congruence]. Qed.

Lemma same_slot t t' : same_thread t t' -> slot_ t' = slot_ t.
Proof. by intros [->|[? _]]. Qed.

Lemma same_refs t t' : same_thread t t' -> thread_refs t' = thread_refs t.
Proof. unfold thread_refs. by intros [->|(_ & _ & -> & ->)]. Qed.

Lemma threads_kept ts ts' gs :
  Forall2 same_thread ts ts' -> Forall2 thread_private ts gs -> Forall2 thread_private ts' gs.
Proof.
  intros Hs. revert gs. induction Hs as [|t t' ts ts' Hst _ IH]; intros gs Ht; [done|].
  inversion Ht as [|? g ? gs' Hg Hgs]; subst. constructor; [|by apply IH].
  destruct Hst as [->|(_ & _ & Hp & Hp')]; [done|]. unfold thread_private in *. rewrite Hp'. by rewrite Hp in Hg.
Qed.

(** A worker that has just been started. *)
Definition newcomer (i : nat) (r : bool) (ch : Channels.job_channel) (id : Z) : thread :=
  mkThread i (Worker.worker_make r ch id) (Running (Done false)).

Lemma newcomer_refs i r ch id b : Some b ∉ thread_refs (newcomer i r ch id).
Proof. intros Hb. by apply (elem_of_replicate 16) in Hb as [? _]. Qed.

Lemma newcomer_tidy W m n i r ch id :
  world_shape W m -> threads_ W !! n = Some (newcomer i r ch id) -> Forall unshared (chans W) ->
  tidy_told (shared_ W) (load W (newcomer i r ch id)) []
    (Idle, rest_note (load W (newcomer i r ch id))).
Proof.
  intros Hs Hn Hun. destruct (loaded_shape W m n _ _ Hs Hn eq_refl) as (e & He & Hce & _).
  assert (Hno : forall k, Some k ∉ commit_refs (load W (newcomer i r ch id))) by exact (newcomer_refs i r ch id).
  split; [|apply told_rest, CommitQueue.commit_queue_default_wf]. split; try done.
  - unfold load. cbn [Worker.job_ch_ Worker.set_running Worker.set_job_ch]. rewrite Hce.
    exact (Forall_lookup_1 _ _ _ _ Hun (chan_lookup W _ e He)).
  - intros k Hk. by destruct (Hno k).
  - intros k _ Hk. by destruct (Hno k).
Qed.

Lemma newcomer_lookup {A} (ts : list thread) (gs : list A) u (y : A) n t x :
  length ts = length gs -> (ts ++ [u]) !! n = Some t -> (gs ++ [y]) !! n = Some x ->
  (ts !! n = Some t /\ gs !! n = Some x) \/ (t = u /\ x = y).
Proof.
  intros Hlen [Hn|[Hge Hn]]%lookup_app_Some Hg.
  - left. split; [done|]. apply lookup_lt_Some in Hn. rewrite lookup_app_l in Hg by lia. done.
  - right. rewrite lookup_app_r in Hg by lia. rewrite <- Hlen in Hg.
    apply list_lookup_singleton_Some in Hn as [Hz <-]. rewrite Hz in Hg. by injection Hg as <-.
Qed.

(** The table of [W'] is that of [W], but for lock words, or it is the result of
    applying the first change in the commit queue of the worker that acts. *)
Definition committed_step (W W' : world) : Prop :=
  same_records (Worker.students_ (Worker.db_ (shared_ W))) (Worker.students_ (Worker.db_ (shared_ W'))) \/
  exists i t q c rest, threads_ W !! i = Some t /\ phase_ t = Running q /\
    threads_ W' !! i <> Some t /\
    contents (Worker.commit_queue_ (worker_ t)) = c :: rest /\ effective c = true /\
    applied (pool_of W) c (Worker.students_ (Worker.db_ (shared_ W))) (Worker.students_ (Worker.db_ (shared_ W'))).

(** What a step leaves alone: the buffers of a worker that takes no part in it;
    what is queued; and the records whose key is not 0.  What it may change in the
    table. *)
Record spares (W W' : world) : Prop := {
  sp_other : forall i t q b, threads_ W !! i = Some t -> phase_ t = Running q -> threads_ W' !! i = Some t ->
    Some b ∈ References.own_refs (shared_ W) (load W t) ->
    buffer (pool_of W') (Some b) = buffer (pool_of W) (Some b);
  sp_queued : forall i t q b, threads_ W !! i = Some t -> phase_ t = Running q ->
    Some b ∈ commit_refs (worker_ t) -> buffer (pool_of W') (Some b) = buffer (pool_of W) (Some b);
  sp_records : records_kept (Worker.students_ (Worker.db_ (shared_ W))) (Worker.students_ (Worker.db_ (shared_ W')));
  sp_changes : committed_step W W'
}.

(** What happens to a running worker: nothing; it acts, and may learn something;
    it starts a turn; or it ends. *)
Inductive followed (W W' : world) (gs' : list (list buf_ref * mark)) (i : nat) (t : thread)
    (g : list buf_ref) (y : mark) : Prop :=
  | it_waits : threads_ W' !! i = Some t -> gs' !! i = Some (g, y) -> followed W W' gs' i t g y
  | it_acts p q t' g' y' :
      phase_ t = Running p -> goes_on p q -> threads_ W' !! i = Some t' -> phase_ t' = Running q ->
      gs' !! i = Some (g', y') -> learns (shared_ W) (load W t) y.2 (shared_ W') y'.2 -> followed W W' gs' i t g y
  | it_starts t' (mem : Worker.expiry) :
      phase_ t = Running (Done false) -> threads_ W' !! i = Some t' -> phase_ t' = Running Worker.iteration ->
      gs' !! i = Some ([], (Idle, fresh_note (load W t))) -> followed W W' gs' i t g y
  | it_ends t' :
      phase_ t = Running (Done true) -> threads_ W' !! i = Some t' -> (forall q, phase_ t' <> Running q) ->
      followed W W' gs' i t g y.

Definition follows (W W' : world) (gs gs' : list (list buf_ref * mark)) : Prop :=
  forall i t g y q, threads_ W !! i = Some t -> gs !! i = Some (g, y) -> phase_ t = Running q ->
    followed W W' gs' i t g y.

(** Same threads. *)
Lemma follows_same W W' gs : threads_ W' = threads_ W -> follows W W' gs gs.
Proof. intros Ht i t g y q Hi Hg _. apply it_waits; [by rewrite Ht|done]. Qed.

(** All but one. *)
Lemma follows_at W W' gs i t' e t :
  threads_ W !! i = Some t -> threads_ W' = <[i := t']> (threads_ W) ->
  (forall g y q, gs !! i = Some (g, y) -> phase_ t = Running q -> followed W W' (<[i := e]> gs) i t g y) ->
  follows W W' gs (<[i := e]> gs).
Proof.
  intros Hi Ht Hf j u g y q Hj Hg Hph. destruct (decide (j = i)) as [->|Hne].
  - rewrite Hi in Hj. injection Hj as <-. by eapply Hf.
  - apply it_waits; [rewrite Ht|]; by rewrite list_lookup_insert_ne.
Qed.

(** Same bytes, same records. *)
Lemma spares_same W W' :
  same_bytes (pool_of W) (pool_of W') ->
  Worker.students_ (Worker.db_ (shared_ W')) = Worker.students_ (Worker.db_ (shared_ W)) -> spares W W'.
Proof. intros Hb Ht. split; [intros; apply Hb..| |left]; rewrite Ht; reflexivity. Qed.

Lemma commit_own s w b : Some b ∈ commit_refs w -> Some b ∈ References.own_refs s w.
Proof. intros Hb. unfold References.own_refs. apply elem_of_app. by right. Qed.

(** The workers there were before. *)
Lemma socket_tidy W m p gm xm gs owner W' m' gm' xm' i t t' g x q :
  private_inv (mkServer W m p) gm xm gs owner -> served W m gm xm W' m' gm' xm' ->
  threads_ W !! i = Some t -> same_thread t t' -> gs !! i = Some (g, x) -> phase_ t' = Running q ->
  tidy_told (shared_ W') (load W' t') g x.
Proof.
  intros Hv Hsv Hi Hst Hg Hph. pose proof (same_running _ _ _ Hst Hph) as ->.
  destruct (chans_joined _ _ _ _ _ _ _ Hv _ _ _ _ _ _ (sv_chans _ _ _ _ _ _ _ _ Hsv) Hi Hg Hph)
    as (c' & Hc' & Hj).
  eapply tidy_told_stable; [by eapply (pi_tidy _ _ _ _ _ Hv)|reflexivity|reflexivity| |reflexivity..|].
  - unfold load at 3. cbn [Worker.job_ch_ Worker.set_running Worker.set_job_ch].
    rewrite (chan_at W' _ c' Hc'). exact Hj.
  - intros j Hj'. by eapply socket_spares.
Qed.

Lemma socket_spared W m p gm xm gs owner W' m' gm' xm' :
  private_inv (mkServer W m p) gm xm gs owner -> served W m gm xm W' m' gm' xm' -> socket_change W W' ->
  spares W W'.
Proof.
  intros Hv Hsv Hch. split.
  - intros i t q j Hi Hph _ Hj. destruct (private_thread _ _ _ _ _ _ _ Hv Hi) as (g & x & Hg & _).
    eapply socket_spares; [exact Hv|exact Hsv|exact Hi|exact Hg|exact Hph|]. apply elem_of_app. by left.
  - intros i t q j Hi Hph Hj. destruct (private_thread _ _ _ _ _ _ _ Hv Hi) as (g & x & Hg & _).
    eapply socket_spares; [exact Hv|exact Hsv|exact Hi|exact Hg|exact Hph|].
    apply elem_of_app. left. by apply commit_own.
  - rewrite (ch_table _ _ Hch). reflexivity.
  - left. rewrite (ch_table _ _ Hch). reflexivity.
Qed.

Lemma follows_joined W W' gs : Forall2 same_thread (threads_ W) (threads_ W') -> follows W W' gs gs.
Proof.
  intros Hs i t g y q Hi Hg Hph. destruct (Forall2_lookup_l _ _ _ _ _ Hs Hi) as (t' & Hi' & Hst).
  apply it_waits; [|done]. destruct Hst as [->|(_ & _ & Hl & _)]; [done|congruence].
Qed.

Lemma follows_newcomer W W' gs u e : threads_ W' = threads_ W ++ [u] -> follows W W' gs (gs ++ [e]).
Proof.
  intros Ht i t g y q Hi Hg _. apply it_waits; [rewrite Ht|]; apply lookup_app_l_Some; done.
Qed.

Lemma private_socket W m B (f : world -> socket -> outcome (world * socket * B)) k W' m' b gm xm gs owner :
  private_inv (mkServer W m (Act f k)) gm xm gs owner -> f W m = Ret (W', m', b) ->
  spares W W' /\ exists gm' xm' gs' owner', private_inv (mkServer W' m' (k b)) gm' xm' gs' owner' /\
    follows W W' gs gs'.
Proof.
  intros Hv E. pose proof Hv as [Hs Hl Hc Ht Hp Hh Htd _ _ _]. cbn [world_ socket_ prog_] in *.
  assert (Hf : fits (mjoin (fst <$> gs))).
  { pose proof (private_fit W m gs Hs Ht). unfold fits. lia. }
  cbn [private] in Hc. specialize (Hc W m Hs Hl (ex_intro _ _ (conj Hf Hp)) Hh). rewrite E in Hc.
  destruct Hc as (gm' & xm' & [Hs' Hch Hl' Hcnt] & Hh' & Hsv & Hk). specialize (Hcnt _ Hf Hp).
  split; [by eapply socket_spared|].
  destruct (chans_owned _ _ _ _ _ _ _ Hv _ (sv_chans _ _ _ _ _ _ _ _ Hsv)) as (owner' & Hun & Hoc & Hor).
  destruct (ch_threads _ _ Hch) as [Hsame|(i & r & ch & id & Hnew)].
  - exists gm', xm', gs, owner'. split; [|by apply follows_joined].
    split; cbn [world_ socket_ prog_]; try done.
    + by eapply threads_kept.
    + intros i t' g x q Hi' Hg Hph. destruct (Forall2_lookup_r _ _ _ _ _ Hsame Hi') as (t & Hi & Hst).
      by eapply socket_tidy.
    + intros i t' g x j Hi' Hg Hj. destruct (Forall2_lookup_r _ _ _ _ _ Hsame Hi') as (t & Hi & Hst).
      rewrite (same_refs _ _ Hst) in Hj. rewrite (same_slot _ _ Hst). by eapply Hor.
  - fold (newcomer i r ch id) in Hnew. pose proof (Forall2_length Ht) as Hlen.
    exists gm', xm', (gs ++ [([], (Idle, rest_note (load W' (newcomer i r ch id))))]), owner'.
    split; [|by eapply follows_newcomer]. split; cbn [world_ socket_ prog_]; try done.
    + rewrite Hnew. apply Forall2_app; [done|]. constructor; [|constructor]. split; [simpl; lia|by split].
    + rewrite fmap_app. cbn [fmap list_fmap fst]. by rewrite mjoin_nil_end.
    + intros n t0 g x q Hn Hg Hph. pose proof Hn as Hn0. rewrite Hnew in Hn0.
      destruct (newcomer_lookup _ _ _ _ _ _ _ Hlen Hn0 Hg) as [[Hn' Hg']|[-> [= -> ->]]].
      * eapply socket_tidy; [exact Hv|exact Hsv|exact Hn'|reflexivity|exact Hg'|exact Hph].
      * by eapply newcomer_tidy.
    + intros n t0 g x j Hn Hg Hj. rewrite Hnew in Hn.
      destruct (newcomer_lookup _ _ _ _ _ _ _ Hlen Hn Hg) as [[Hn' Hg']|[-> [= -> ->]]]; [by eapply Hor|].
      rewrite app_nil_r in Hj. by apply newcomer_refs in Hj.
Qed.

(** ** A worker acts *)

Lemma chans_stored W t s w ph i e :
  WorkerTable.table_ (contexts_ W) !! slot_ t = Some e ->
  chans (store_back W i t s w ph) = <[slot_ t := Worker.job_ch_ w]> (chans W).
Proof.
  intros He. unfold chans, store_back, alter_entry. cbn [contexts_ WorkerTable.table_].
  rewrite (insert_alter _ _ _ e) by done. by rewrite list_fmap_insert.
Qed.

Lemma in_locals (gs : list (list buf_ref * mark)) i g x b :
  gs !! i = Some (g, x) -> Some b ∈ g -> Some b ∈ mjoin (fst <$> gs).
Proof.
  intros Hg Hb. apply list_elem_of_join. exists g. split; [done|]. apply list_elem_of_fmap.
  exists (g, x). split; [done|]. by eapply list_elem_of_lookup_2.
Qed.

Section WorkerStep.
Context (W : world) (m : socket) (p : mprog stage) (gm : list buf_ref) (xm : hold).
Context (gs : list (list buf_ref * mark)) (owner : nat -> nat).
Context (Hv : private_inv (mkServer W m p) gm xm gs owner).
Context (i : nat) (t : thread) (q : Worker.wprog bool) (g : list buf_ref) (x : mark).
Context (Hi : threads_ W !! i = Some t) (Hph : phase_ t = Running q) (Hg : gs !! i = Some (g, x)).
Context (s : Worker.shared) (w : Worker.Worker) (q' : Worker.wprog bool).
Context (g' : list buf_ref) (x' : mark).
Context (Hmv : moves_told (shared_ W) (load W t) g x s w g' x') (Htd : tidy_told s w g' x').

Abbreviation W' := (store_back W i t s w (Running q')).

(** It writes no buffer of another worker. *)
Lemma worker_spares j u h y q1 b :
  j <> i -> threads_ W !! j = Some u -> gs !! j = Some (h, y) -> phase_ u = Running q1 ->
  Some b ∈ References.own_refs (shared_ W) (load W u) ++ h ->
  buffer (pool_of W') (Some b) = buffer (pool_of W) (Some b).
Proof using Hv Hi Hph Hg Hmv.
  intros Hne Hj Hh Hpu Hb. destruct (mv_bytes _ _ _ _ _ _ _ _ (proj1 Hmv) b) as [Hw|?]; [exfalso|done].
  pose proof (pi_tidy _ _ _ _ _ Hv i t g x q Hi Hg Hph) as Ht.
  apply (td_writable _ _ _ _ (proj1 Ht)) in Hw as [_ Hw]. apply Hne.
  apply (active_slots_distinct W m j i u t (pi_shape _ _ _ _ _ Hv) Hj Hi);
    [unfold active; by rewrite Hpu|unfold active; by rewrite Hph|].
  rewrite <- (owned_refs _ _ _ _ _ _ _ _ _ _ _ _ _ Hv Hj Hh Hpu Hb).
  eapply owned_refs; [exact Hv|done..|]. apply elem_of_app. by right.
Qed.

(** Its references are among those it had. *)
Lemma worker_refs b : Some b ∈ References.own_refs s w ++ g' -> owner b = slot_ t.
Proof using Hv Hi Hph Hg Hmv.
  intros Hb. apply (mv_refs _ _ _ _ _ _ _ _ (proj1 Hmv)) in Hb. by eapply owned_refs.
Qed.

Lemma stored_lookup j u h y :
  threads_ W' !! j = Some u -> <[i := (g', x')]> gs !! j = Some (h, y) ->
  (j = i /\ u = mkThread (slot_ t) w (Running q') /\ h = g' /\ y = x') \/
  (j <> i /\ threads_ W !! j = Some u /\ gs !! j = Some (h, y)).
Proof using.
  cbn [store_back threads_]. intros [(<- & <- & _)|[Hne Hj]]%list_lookup_insert_Some Hy.
  - left. apply list_lookup_insert_Some in Hy as [(_ & [= <- <-] & _)|[? _]]; done.
  - right. apply list_lookup_insert_Some in Hy as [(? & _)|[_ Hy]]; by split_and!.
Qed.

Lemma worker_changed : goes_on q q' -> threads_ W' !! i <> Some t.
Proof using Hi Hph.
  intros Hq Ht. cbn [store_back threads_] in Ht.
  rewrite list_lookup_insert_eq in Ht by by eapply lookup_lt_Some. injection Ht as Ht.
  rewrite <- Ht in Hph. cbn [phase_] in Hph. injection Hph as Hqq. apply (goes_on_ne q). congruence.
Qed.

Lemma worker_spared : goes_on q q' -> spares W W'.
Proof using Hv Hi Hph Hg Hmv.
  intros Hq. split; [| |apply (proj1 Hmv)|].
  - intros j u q1 c Hj Hpu Hj' Hc. destruct (decide (j = i)) as [->|Hne].
    + rewrite Hi in Hj. injection Hj as <-. by destruct (worker_changed Hq).
    + destruct (private_thread _ _ _ _ _ _ _ Hv Hj) as (h & y & Hh & _).
      eapply worker_spares; [done..|]. apply elem_of_app. by left.
  - intros j u q1 c Hj Hpu Hc. destruct (decide (j = i)) as [->|Hne].
    + rewrite Hi in Hj. injection Hj as <-. destruct (mv_bytes _ _ _ _ _ _ _ _ (proj1 Hmv) c) as [Hw|?]; [|done].
      pose proof (pi_tidy _ _ _ _ _ Hv i t g x q Hi Hg Hph) as Ht.
      by apply (td_writable _ _ _ _ (proj1 Ht)) in Hw as [Hw _].
    + destruct (private_thread _ _ _ _ _ _ _ Hv Hj) as (h & y & Hh & _).
      eapply worker_spares; [done..|]. apply elem_of_app. left. by apply commit_own.
  - destruct (proj2 Hmv) as (_ & _ & [[_ Hsame]|(c & rest & Hc & He & _ & Hap)] & _); [by left|right].
    pose proof (pi_tidy _ _ _ _ _ Hv i t g x q Hi Hg Hph) as [_ Hto].
    exists i, t, q, c, rest. split_and!; [done..|by apply worker_changed| |exact He|exact Hap].
    rewrite <- Hc. exact (ta_queue _ _ _ (to_trail _ _ _ _ Hto)).
Qed.

Lemma worker_held :
  mcounts W' m gm (mjoin (fst <$> <[i := (g', x')]> gs)) ->
  held W' m gm xm.
Proof using Hv Hi Hph Hg Hmv.
  intros Hc'. pose proof (pi_shape _ _ _ _ _ Hv) as Hs. cbn [world_ socket_] in Hs.
  destruct (loaded_shape W m i t q Hs Hi Hph) as (e & He & Hce & _).
  destruct (world_split W i t q e Hi Hph He Hce) as (O & H1 & H2).
  destruct (pi_held _ _ _ _ _ Hv) as [Hfr Hcl Hd]. cbn [world_ socket_] in Hfr, Hcl, Hd. split.
  - intros k Hk. destruct (fresh_absent _ _ _ _ _ _ _ _ Hv Hk) as [N1 N2].
    assert (Hold : forall o, Some k ∈ o -> o = References.own_refs (shared_ W) (load W t) ++ g -> False).
    { intros o Ho ->. apply elem_of_app in Ho as [Ho|Ho].
      - apply N1. rewrite (H1 m). apply elem_of_app. by left.
      - apply N2. by eapply in_locals. }
    eapply absent_sole; [exact Hc'|apply (Hfr k Hk)| |].
    + rewrite (H2 s w q' m). intros [Hw|Ho]%elem_of_app.
      * eapply Hold; [|reflexivity]. apply (mv_refs _ _ _ _ _ _ _ _ (proj1 Hmv)). apply elem_of_app. by left.
      * apply N1. rewrite (H1 m). apply elem_of_app. by right.
    + intros Hin. apply list_elem_of_join in Hin as (l & Hl & Hin). apply list_elem_of_fmap in Hin as ([h y] & -> & Hin).
      apply list_elem_of_lookup in Hin as [j Hj]. cbn [fst] in Hl.
      apply list_lookup_insert_Some in Hj as [(_ & [= <- <-] & _)|[_ Hj]].
      * eapply Hold; [|reflexivity]. apply (mv_refs _ _ _ _ _ _ _ _ (proj1 Hmv)). apply elem_of_app. by right.
      * apply N2. by eapply in_locals.
  - intros idx Hx. cbn [store_back threads_]. rewrite (slots_keep _ i t); [by apply Hcl|done| |done].
    unfold active. by rewrite Hph.
  - intros k Hk. destruct (Hd k Hk) as (idx & c & Hx & Hc & Hin). exists idx, c. split_and!; [done| |done].
    rewrite (chans_stored _ _ _ _ _ _ e He), list_lookup_insert_ne; [done|]. intros <-.
    apply (Hcl _ Hx). by apply (running_slot W i t q).
Qed.

Lemma private_stored :
  mcounts W' m gm (mjoin (fst <$> <[i := (g', x')]> gs)) -> world_shape W' m -> (length g' <= LOCALS)%nat ->
  wtells q' heard g' x' ->
  private_inv (mkServer W' m p) gm xm (<[i := (g', x')]> gs) owner.
Proof using Hv Hi Hph Hg Hmv Htd.
  intros Hc' Hs' Hl' Hk. pose proof Hv as [Hs Hl Hc Ht Hp Hh Htds Hun Hch Hre]. cbn [world_ socket_ prog_] in *.
  destruct (loaded_shape W m i t q Hs Hi Hph) as (e & He & Hce & _).
  split; cbn [world_ socket_ prog_]; try done.
  - apply Forall2_insert; [done|]. by split.
  - by eapply worker_held.
  - intros j u h y q1 Hj Hy Hpu. destruct (stored_lookup _ _ _ _ Hj Hy) as [(-> & -> & -> & ->)|(Hne & Hj' & Hy')].
    + by rewrite (load_stored W t s w _ i e He).
    + rewrite load_other.
      * eapply tidy_told_stable; [by eapply Htds|done|done|by left|done..|]. intros b Hb. by eapply worker_spares.
      * intros Hsl. apply Hne. apply (active_slots_distinct W m j i u t Hs Hj' Hi); [..|done];
          unfold active; [by rewrite Hpu|by rewrite Hph].
  - rewrite (chans_stored _ _ _ _ _ _ e He). apply Forall_insert; [done|]. apply (proj1 Htd).
  - intros idx c b Hlk Hb. rewrite (chans_stored _ _ _ _ _ _ e He) in Hlk.
    apply list_lookup_insert_Some in Hlk as [(<- & <- & _)|[_ Hlk]]; [|by eapply Hch].
    apply worker_refs. unfold References.own_refs. apply elem_of_app. left.
    apply elem_of_app. by left.
  - intros j u h y b Hj Hy Hb. destruct (stored_lookup _ _ _ _ Hj Hy) as [(-> & -> & -> & ->)|(Hne & Hj' & Hy')].
    + cbn [slot_]. apply worker_refs. unfold References.own_refs. rewrite <- app_assoc. apply elem_of_app. by right.
    + by eapply Hre.
Qed.
End WorkerStep.

Lemma private_worker W m p i t B
    (f : Worker.shared -> Worker.Worker -> outcome (Worker.shared * Worker.Worker * B)) k s w b gm xm gs owner :
  private_inv (mkServer W m p) gm xm gs owner -> threads_ W !! i = Some t -> phase_ t = Running (Act f k) ->
  f (shared_ W) (load W t) = Ret (s, w, b) ->
  spares W (store_back W i t s w (Running (k b))) /\ exists gm' xm' gs' owner',
    private_inv (mkServer (store_back W i t s w (Running (k b))) m p) gm' xm' gs' owner' /\
    follows W (store_back W i t s w (Running (k b))) gs gs'.
Proof.
  intros Hv Hi Hph E. destruct (private_thread _ _ _ _ _ _ _ Hv Hi) as (g & x & Hg & Htp).
  unfold thread_private in Htp. rewrite Hph in Htp. destruct Htp as [Hgl Htp].
  pose proof Hv as [Hs Hl Hc Ht Hp Hh Htds _ _ _]. cbn [world_ socket_ prog_ fst snd] in *.
  destruct (loaded_shape W m i t _ Hs Hi Hph) as (e & He & Hce & Hw).
  assert (Hg1 : (fst <$> gs) !! i = Some g) by (by rewrite list_lookup_fmap, Hg).
  destruct (worker_frame W m i t _ gm (fst <$> gs) g Hs Hi Hph Hg1 Hl (private_fit W m gs Hs Ht) Hp)
    as (R & Hf & HR & Hback).
  cbn [private] in Htp. specialize (Htp _ _ Hw Hgl (ex_intro _ _ (conj Hf HR)) (Htds _ _ _ _ _ Hi Hg Hph)).
  rewrite E in Htp. destruct Htp as (g' & x' & [Hs' _ Hl' Hcnt] & Htd & Hmv & Hk).
  split; [eapply worker_spared; [done..|by exists B, f, k, b]|]. exists gm, xm, (<[i := (g', x')]> gs), owner. split.
  - eapply private_stored; try done.
    + rewrite list_fmap_insert. cbn [fst]. by apply Hback, Hcnt.
    + by eapply stored_shape.
  - eapply follows_at; [exact Hi|done|]. intros g0 y0 q Hg0 _. rewrite Hg in Hg0. injection Hg0 as <- <-.
    apply (it_acts _ _ _ _ _ _ _ (Act f k) (k b) (mkThread (slot_ t) w (Running (k b))) g' x');
      [exact Hph|by exists B, f, k, b| |done| |exact (proj2 Hmv)];
      apply list_lookup_insert_eq; by eapply lookup_lt_Some.
Qed.

(** ** A thread goes on to its next phase *)

Section PhaseStep.
Context (W : world) (m : socket) (p : mprog stage) (gm : list buf_ref) (xm : hold).
Context (gs : list (list buf_ref * mark)) (owner : nat -> nat).
Context (Hv : private_inv (mkServer W m p) gm xm gs owner).
Context (i : nat) (t : thread) (ph : phase) (W' : world).
Context (Hi : threads_ W !! i = Some t) (Ha : active t = true).
Context (n n' : note) (Hg : gs !! i = Some ([], (Idle, n))).
Context (Htold : forall q, ph = Running q -> told (shared_ W') (load W t) [] n').
Context (Hph : ph <> Joined) (Hrun : forall q, ph = Running q -> exists q0, phase_ t = Running q0).
Context (Hct : contexts_ W' = contexts_ W).
Context (Hts : threads_ W' = <[i := mkThread (slot_ t) (worker_ t) ph]> (threads_ W)).
Context (Hby : same_bytes (pool_of W) (pool_of W')).
Context (Hrf : forall b, Some b ∈ thread_refs (mkThread (slot_ t) (worker_ t) ph) -> Some b ∈ thread_refs t).

Lemma phase_chans : chans W' = chans W.
Proof using Hct. unfold chans. by rewrite Hct. Qed.

Lemma phase_load u : load W' u = load W u.
Proof using Hct. unfold load, context_at. by rewrite Hct. Qed.

Lemma phase_thread j u :
  threads_ W' !! j = Some u -> exists u0, threads_ W !! j = Some u0 /\ slot_ u = slot_ u0 /\ worker_ u = worker_ u0 /\
    (forall q, phase_ u = Running q -> exists q0, phase_ u0 = Running q0) /\
    (forall b, Some b ∈ thread_refs u -> Some b ∈ thread_refs u0).
Proof using Hi Hrun Hts Hrf.
  rewrite Hts. intros [(<- & <- & _)|[_ Hj]]%list_lookup_insert_Some; [exists t; by split_and!|].
  exists u. split_and!; [done..| |done]. intros q Hq. by exists q.
Qed.

Lemma phase_own b : Some b ∈ own_refs W' m -> Some b ∈ own_refs W m.
Proof using Hi Hrun Hts Hrf Hct.
  unfold own_refs, object_refs. rewrite Hct, !elem_of_app. intros [?|Hb]; [by left|right].
  apply list_elem_of_join in Hb as (l & Hl & Hb). apply list_elem_of_fmap in Hb as (u & -> & Hu).
  apply list_elem_of_lookup in Hu as [j Hj]. destruct (phase_thread j u Hj) as (u0 & Hj0 & _ & _ & _ & Hb).
  apply list_elem_of_join. exists (thread_refs u0). split; [by apply Hb|]. apply list_elem_of_fmap.
  exists u0. split; [done|]. by eapply list_elem_of_lookup_2.
Qed.

Lemma phase_slots : active_slots (threads_ W') = active_slots (threads_ W).
Proof using Hi Ha Hts Hph. rewrite Hts. by apply slots_keep. Qed.

Abbreviation marked := (<[i := ([], (Idle, n'))]> gs).

Lemma marked_locals : fst <$> marked = fst <$> gs.
Proof using Hg.
  rewrite list_fmap_insert. apply list_insert_id. by rewrite list_lookup_fmap, Hg.
Qed.

Lemma marked_lookup j g y : marked !! j = Some (g, y) -> exists y0, gs !! j = Some (g, y0) /\ y0.1 = y.1 /\
  ((j = i /\ y.2 = n') \/ (j <> i /\ y0 = y)).
Proof using Hg.
  intros [(<- & [= <- <-] & _)|[Hne Hj]]%list_lookup_insert_Some.
  - exists (Idle, n). split_and!; [done..|by left].
  - exists y. split_and!; [done..|by right].
Qed.

Lemma private_phase :
  world_shape W' m -> mcounts W' m gm (mjoin (fst <$> gs)) ->
  thread_private (mkThread (slot_ t) (worker_ t) ph) ([], (Idle, n')) ->
  private_inv (mkServer W' m p) gm xm marked owner.
Proof using All.
  intros Hs' Hc' Htp. rewrite <- marked_locals in Hc'. pose proof Hv as [Hs Hl Hc Ht Hp [Hfr Hcl Hd] Htds Hun Hch Hre].
  cbn [world_ socket_ prog_] in *. split; cbn [world_ socket_ prog_]; try done.
  - rewrite Hts. by apply Forall2_insert.
  - split.
    + intros k Hk. destruct (fresh_absent _ _ _ _ _ _ _ _ Hv Hk) as [N1 N2].
      rewrite <- marked_locals in N2.
      eapply absent_sole; [exact Hc'|apply (Hfr k Hk)| |exact N2]. by intros Hin%phase_own.
    + intros idx Hx. rewrite phase_slots. by apply Hcl.
    + intros k Hk. rewrite phase_chans. by apply Hd.
  - intros j u g x q Hj Hgx Hpu. destruct (phase_thread j u Hj) as (u0 & Hj0 & Hsl & Hw & Hr & _).
    destruct (Hr q Hpu) as [q0 Hq0]. rewrite phase_load.
    assert (load W u = load W u0) as -> by (unfold load; by rewrite Hsl, Hw).
    destruct (marked_lookup j g x Hgx) as (y0 & Hg0 & Hst & [[-> Hn]|[_ ->]]).
    + rewrite Hi in Hj0. injection Hj0 as <-. pose proof (Htds _ _ _ _ _ Hi Hg0 Hq0) as Htd.
      destruct (tidy_told_same _ _ _ _ _ Hby Htd) as [Ht1 _].
      assert (Hg1 : g = []) by congruence. subst g. split; [by rewrite <- Hst|]. rewrite Hn. apply (Htold q).
      rewrite Hts, list_lookup_insert_eq in Hj by by eapply lookup_lt_Some. by injection Hj as <-.
    + apply (tidy_told_same _ _ _ _ _ Hby). by eapply Htds.
  - by rewrite phase_chans.
  - rewrite phase_chans. exact Hch.
  - intros j u g x b Hj Hgx Hb. destruct (phase_thread j u Hj) as (u0 & Hj0 & Hsl & _ & _ & Hr).
    destruct (marked_lookup j g x Hgx) as (y0 & Hg0 & _ & _).
    rewrite Hsl. eapply Hre; [exact Hj0|exact Hg0|]. apply elem_of_app in Hb as [Hb|Hb]; apply elem_of_app.
    + left. by apply Hr.
    + by right.
Qed.
End PhaseStep.

(** The socket thread goes on to another program, or its flag changes. *)
Lemma private_prog W m p m' p' gm xm gs owner :
  private_inv (mkServer W m p) gm xm gs owner -> mprivate p' (fun g x _ => g = [] /\ x = calm) gm xm ->
  private_inv (mkServer W m' p') gm xm gs owner.
Proof. intros [Hs Hl Hc Ht Hp Hh Htd Hun Hch Hre] Hp'. split; try done; [by destruct Hs|by destruct Hh]. Qed.

Lemma private_rest W m st m' p' gm xm gs owner :
  private_inv (mkServer W m (Done st)) gm xm gs owner ->
  mprivate p' (fun g x _ => g = [] /\ x = calm) [] calm -> private_inv (mkServer W m' p') gm xm gs owner.
Proof.
  intros Hv Hp. pose proof (pi_socket _ _ _ _ _ Hv) as Hc. cbn [prog_ private] in Hc.
  destruct Hc as [-> ->]. by eapply private_prog.
Qed.

(** Between two turns a worker has no local references. *)
Lemma resting_thread v gm xm gs owner i t b :
  private_inv v gm xm gs owner -> threads_ (world_ v) !! i = Some t ->
  phase_ t = Running (Done b) \/ (exists l, phase_ t = Leaving l) ->
  (exists n, gs !! i = Some ([], (Idle, n))) /\ active t = true /\ thread_shape t.
Proof.
  intros Hv Hi Hph. destruct (private_thread _ _ _ _ _ _ _ Hv Hi) as (g & [x n] & Hg & Htp).
  pose proof (Forall_lookup_1 _ _ _ _ (sh_threads _ _ (pi_shape _ _ _ _ _ Hv)) Hi) as Hsh.
  assert (H : g = [] /\ x = Idle).
  { unfold thread_private in Htp. destruct Hph as [Hph|[l Hph]]; rewrite Hph in Htp; [|done].
    by destruct Htp as [_ [H _]]. }
  destruct H as [-> ->]. split; [by exists n|]. split; [|done].
  unfold active. by destruct Hph as [->|[l ->]].
Qed.

(** Its phase alone changes. *)
Lemma follows_phase W W' gs i t ph n' :
  threads_ W !! i = Some t -> threads_ W' = <[i := mkThread (slot_ t) (worker_ t) ph]> (threads_ W) ->
  (exists n, gs !! i = Some ([], (Idle, n))) ->
  ((exists mem : Worker.expiry, ph = Running Worker.iteration) /\ phase_ t = Running (Done false) /\
     n' = fresh_note (load W t)) \/
  (forall q, ph <> Running q) /\ (phase_ t = Running (Done true) \/ forall q, phase_ t <> Running q) ->
  follows W W' gs (<[i := ([], (Idle, n'))]> gs).
Proof.
  intros Hi Ht [n Hn] Hcase. eapply follows_at; [exact Hi|exact Ht|]. intros g y q Hg Hph.
  assert (Hlt : (i < length gs)%nat) by by eapply lookup_lt_Some.
  destruct Hcase as [([mem ->] & Hd & ->)|[Hq [Hd|Hd]]].
  - eapply it_starts; [done|rewrite Ht; apply list_lookup_insert_eq; by eapply lookup_lt_Some|done|].
    by apply list_lookup_insert_eq.
  - apply (it_ends _ _ _ _ _ _ _ (mkThread (slot_ t) (worker_ t) ph)); [done| |exact Hq]. rewrite Ht. apply list_lookup_insert_eq. by eapply lookup_lt_Some.
  - by destruct (Hd q).
Qed.

Lemma private_turn {mem : Worker.expiry} W m p i t gm xm gs owner :
  private_inv (mkServer W m p) gm xm gs owner -> threads_ W !! i = Some t -> phase_ t = Running (Done false) ->
  exists gs', private_inv (mkServer (set_phase W i t (Running Worker.iteration)) m p) gm xm gs' owner /\
    follows W (set_phase W i t (Running Worker.iteration)) gs gs'.
Proof.
  intros Hv Hi Hph.
  destruct (resting_thread _ _ _ _ _ _ _ false Hv Hi (or_introl Hph)) as (Hg & Ha & Hsh).
  pose proof (pi_shape _ _ _ _ _ Hv) as Hs. cbn [world_ socket_] in Hs. unfold thread_shape in Hsh. rewrite Hph in Hsh.
  eexists. split; [|eapply (follows_phase _ _ _ i t _ (fresh_note (load W t))); [done|done|done|by left; split; [exists mem|]]].
  destruct Hg as [n Hg].
  eapply (private_phase W m p gm xm gs owner Hv i t (Running Worker.iteration)); try done.
  - intros q _. apply told_fresh. destruct (pi_tidy _ _ _ _ _ Hv i t _ _ _ Hi Hg Hph) as [_ Hto].
    exact (ta_wf _ _ _ (to_trail _ _ _ _ Hto)).
  - by eauto.
  - intros b. unfold thread_refs. by rewrite Hph.
  - by apply phase_shape; [..|apply Hs| |].
  - apply phase_counts; [done| |apply Hv]. unfold thread_refs. by rewrite Hph.
  - split; [simpl; lia|]. by apply tells_iteration.
Qed.

Lemma private_end W m p i t gm xm gs owner :
  private_inv (mkServer W m p) gm xm gs owner -> threads_ W !! i = Some t -> phase_ t = Running (Done true) ->
  exists gs', private_inv (mkServer (set_phase W i t (Leaving (worker_left (worker_ t)))) m p) gm xm gs' owner /\
    follows W (set_phase W i t (Leaving (worker_left (worker_ t)))) gs gs'.
Proof.
  intros Hv Hi Hph. destruct (resting_thread _ _ _ _ _ _ _ true Hv Hi (or_introl Hph)) as (Hg & Ha & Hsh).
  pose proof (pi_shape _ _ _ _ _ Hv) as Hs. cbn [world_ socket_] in Hs. unfold thread_shape in Hsh. rewrite Hph in Hsh.
  assert (Hr : thread_refs (mkThread (slot_ t) (worker_ t) (Leaving (worker_left (worker_ t)))) ≡ₚ thread_refs t).
  { unfold thread_refs. rewrite Hph. cbn [phase_]. unfold worker_left. by rewrite <- Permutation_rev. }
  eexists. split; [|eapply (follows_phase _ _ _ i t _ (rest_note (load W t))); [done|done|done|by right; split; [|left]]].
  destruct Hg as [n Hg].
  eapply (private_phase W m p gm xm gs owner Hv i t (Leaving (worker_left (worker_ t)))); try done.
  - intros b. by rewrite Hr.
  - apply phase_shape; [done..|apply Hs|done|]. unfold thread_shape, worker_left, commit_refs. simpl.
    by rewrite length_rev, length_fmap, (cs_length _ Hsh).
  - by apply phase_counts; [..|apply Hv].
Qed.

Lemma private_leave W m p i t r rest gm xm gs owner :
  private_inv (mkServer W m p) gm xm gs owner -> threads_ W !! i = Some t -> phase_ t = Leaving (r :: rest) ->
  exists gs', private_inv
    (mkServer (set_phase (set_pool W (ref_destroy (pool_of W) r).1) i t (Leaving rest)) m p) gm xm gs' owner /\
    follows W (set_phase (set_pool W (ref_destroy (pool_of W) r).1) i t (Leaving rest)) gs gs'.
Proof.
  intros Hv Hi Hph. destruct (resting_thread _ _ _ _ _ _ _ true Hv Hi) as (Hg & Ha & Hsh); [right; by eexists|].
  pose proof (pi_shape _ _ _ _ _ Hv) as Hs. cbn [world_ socket_] in Hs. unfold thread_shape in Hsh. rewrite Hph in Hsh.
  eexists. split; [|eapply (follows_phase _ _ _ i t _ (rest_note (load W t))); [done|done|done|]].
  2: { right. split; [done|]. right. by rewrite Hph. }
  destruct Hg as [n Hg].
  eapply (private_phase W m p gm xm gs owner Hv i t (Leaving rest)); try done.
  - apply ref_destroy_bytes.
  - intros b Hb. unfold thread_refs. rewrite Hph. by right.
  - apply (phase_shape W m i t (shared_ (set_pool W (ref_destroy (pool_of W) r).1)));
      [done|done|done| |done|unfold thread_shape; simpl in *; lia].
    eapply typed_set_pool; [done|]. apply ref_destroy_typed, (sh_typed _ _ Hs).
  - by apply leave_counts; [..|apply Hv].
Qed.

Lemma private_step v v' gm xm gs owner :
  server_step v v' -> private_inv v gm xm gs owner ->
  spares (world_ v) (world_ v') /\ exists gm' xm' gs' owner', private_inv v' gm' xm' gs' owner' /\
    follows (world_ v) (world_ v') gs gs'.
Proof.
  intros Hst Hv. destruct Hst; cbn [world_].
  - by eapply private_socket.
  - split; [by apply spares_same|]. eexists _, _, _, _. split; [|by apply follows_same].
    eapply private_rest; [exact Hv|by apply mp_turn].
  - split; [by apply spares_same|]. eexists _, _, _, _. split; [|by apply follows_same].
    eapply private_rest; [exact Hv|by apply mp_closing].
  - split; [by apply spares_same|]. eexists _, _, _, _. split; [|by apply follows_same].
    eapply private_rest; [exact Hv|by apply mp_closing].
  - split; [by apply spares_same|]. eexists _, _, _, _. split; [|by apply follows_same].
    eapply private_prog; [exact Hv|apply Hv].
  - by eapply private_worker.
  - split; [by apply spares_same|]. eexists _, _. destruct (private_turn _ _ _ _ _ _ _ _ _ Hv H H0) as (gs' & ?). by eexists _, _.
  - split; [by apply spares_same|]. eexists _, _. destruct (private_end _ _ _ _ _ _ _ _ _ Hv H H0) as (gs' & ?). by eexists _, _.
  - split; [apply spares_same; [apply ref_destroy_bytes|done]|]. eexists _, _.
    destruct (private_leave _ _ _ _ _ _ _ _ _ _ _ Hv H H0) as (gs' & ?). by eexists _, _.
Qed.

Lemma server_private v : server_reachable v -> exists gm xm gs owner, private_inv v gm xm gs owner.
Proof.
  intros Hr. unfold server_reachable in Hr.
  assert (H : exists gm xm gs owner, private_inv server_start gm xm gs owner).
  { exists [], calm, [], (fun _ => 0%nat). apply private_start. }
  induction Hr as [|v v1 v2 Hst _ IH]; [done|]. apply IH. destruct H as (gm & xm & gs & owner & Hv).
  destruct (private_step _ _ _ _ _ _ Hst Hv) as (_ & gm' & xm' & gs' & owner' & Hv' & _).
  by exists gm', xm', gs', owner'.
Qed.

Lemma server_spares v v' : server_reachable v -> server_step v v' -> spares (world_ v) (world_ v').
Proof.
  intros Hr Hst. destruct (server_private v Hr) as (gm & xm & gs & owner & Hv).
  by destruct (private_step _ _ _ _ _ _ Hst Hv).
Qed.

(** [b] is in the channel of the worker at [i], or in its commit queue. *)
Definition in_channel (v : server) (i b : nat) : Prop :=
  exists t p, threads_ (world_ v) !! i = Some t /\ phase_ t = Running p /\
    Some b ∈ slot_refs (Worker.job_ch_ (load (world_ v) t)).
Definition in_queue (v : server) (i b : nat) : Prop :=
  exists t p, threads_ (world_ v) !! i = Some t /\ phase_ t = Running p /\ Some b ∈ commit_refs (worker_ t).

(** Each buffer in a channel, or in the commit queue of a worker, is assigned to
    its context. *)
Definition assigned (W : world) (owner : nat -> nat) : Prop :=
  (forall idx c b, chans W !! idx = Some c -> Some b ∈ slot_refs c -> owner b = idx) /\
  (forall i t b, threads_ W !! i = Some t -> Some b ∈ thread_refs t -> owner b = slot_ t).

Definition table_of (v : server) : StudentTable.StudentTable :=
  Worker.students_ (Worker.db_ (shared_ (world_ v))).
Definition bytes_of (v : server) (b : nat) : list Z := buffer (pool_of (world_ v)) (Some b).

(** ** Properties *)

(** C12.  Every buffer has one owner.  In every state the server reaches there is
    an assignment of buffers to contexts such that a buffer in the channel of a
    context, or in the commit queue of its worker (also while that worker is
    being destroyed), is assigned to that context, and no buffer is in two slots
    of a channel; and a step writes no buffer of a worker that takes no part in
    it: what is in the channel and in the commit queue of a running worker is
    written by that worker only. *)
Theorem buffers_private v :
  server_reachable v ->
  (exists owner : nat -> nat, assigned (world_ v) owner) /\
  Forall unshared (chans (world_ v)) /\
  (forall v' i b, server_step v v' -> threads_ (world_ v') !! i = threads_ (world_ v) !! i ->
     in_channel v i b \/ in_queue v i b -> bytes_of v' b = bytes_of v b).
Proof.
  intros Hr. destruct (server_private v Hr) as (gm & xm & gs & owner & Hv). split; [|split].
  - exists owner. split; [apply (pi_chans _ _ _ _ _ Hv)|]. intros i t b Hi Hb.
    destruct (private_thread _ _ _ _ _ _ _ Hv Hi) as (g & x & Hg & _).
    eapply (pi_refs _ _ _ _ _ Hv); [exact Hi|exact Hg|]. apply elem_of_app. by left.
  - apply (pi_unshared _ _ _ _ _ Hv).
  - intros v' i b Hst Hsame Hb. pose proof (server_spares _ _ Hr Hst) as Hsp.
    destruct Hb as [(t & p & Hi & Hph & Hb)|(t & p & Hi & Hph & Hb)]; rewrite Hi in Hsame;
      (eapply (sp_other _ _ Hsp); [exact Hi|exact Hph|exact Hsame|]); unfold References.own_refs;
      apply elem_of_app; tauto.
Qed.

(** C13.  What is queued is not lost and has no key.  In every state the server
    reaches, a buffer in the commit queue of a running worker holds a record
    with key 0, and no step of any thread, its own worker's included, writes
    it. *)
Theorem queued_intact v i b :
  server_reachable v -> in_queue v i b ->
  StudentTuple.key_ (StudentTuple.of_object_bytes (bytes_of v b)) = 0 /\
  forall v', server_step v v' -> bytes_of v' b = bytes_of v b.
Proof.
  intros Hr (t & p & Hi & Hph & Hb). destruct (server_private v Hr) as (gm & xm & gs & owner & Hv).
  destruct (private_thread _ _ _ _ _ _ _ Hv Hi) as (g & x & Hg & _). split.
  - apply (td_keyless _ _ _ _ (proj1 (pi_tidy _ _ _ _ _ Hv i t g x p Hi Hg Hph))). exact Hb.
  - intros v' Hst. by eapply (sp_queued _ _ (server_spares _ _ Hr Hst)).
Qed.

(** C14.  Only commits change records.  A step of the server, whoever takes it,
    leaves every slot of the student table as it was but for its lock word, and
    the next key too; or it is a step of a worker that applies the change at the
    front of its own commit queue: the table is then the result of [insert_],
    [write_] or [remove_] for this change, with the record its buffer holds. *)
Theorem changes_committed v v' :
  server_reachable v -> server_step v v' ->
  same_records (table_of v) (table_of v') \/
  exists i t q c rest, threads_ (world_ v) !! i = Some t /\ phase_ t = Running q /\
    threads_ (world_ v') !! i <> Some t /\
    contents (Worker.commit_queue_ (worker_ t)) = c :: rest /\ effective c = true /\
    applied (pool_of (world_ v)) c (table_of v) (table_of v').
Proof. intros Hr Hst. exact (sp_changes _ _ (server_spares _ _ Hr Hst)). Qed.

(** ** Witnesses

    The record of [server_added2] is queued in buffer 1 when the socket thread
    receives the next message, into buffer 2. *)

Definition receive_choices : list choice := [SocketTurn 20 add_message; SocketAct; SocketAct].
Definition server_receiving : server := default server_added2 (schedule receive_choices server_added2).
Definition server_received : server := default server_receiving (server_choose server_receiving SocketAct).

Lemma receive_ok : Forall choice_ok receive_choices.
Proof.
  constructor; [|by repeat constructor]. split; [vm_compute; discriminate|].
  apply (bool_decide_unpack _). vm_compute. reflexivity.
Qed.

Lemma receiving_reachable : server_reachable server_receiving.
Proof.
  apply bounded_start. etrans; [apply added_steps|].
  apply (server_schedule_steps receive_choices); [apply receive_ok|]. unfold server_receiving.
  assert (H : match schedule receive_choices server_added2 with Some _ => true | None => false end = true)
    by (vm_compute; reflexivity).
  by destruct (schedule receive_choices server_added2).
Qed.

Lemma receive_step : server_step server_receiving server_received.
Proof.
  apply (server_choose_step _ SocketAct); [|done]. unfold server_received.
  assert (H : match server_choose server_receiving SocketAct with Some _ => true | None => false end = true)
    by (vm_compute; reflexivity).
  by destruct (server_choose server_receiving SocketAct).
Qed.

(** The worker waits, and has queued buffer 1. *)
Lemma receiving_queue : in_queue server_receiving 0 1 /\
  threads_ (world_ server_received) !! 0%nat = threads_ (world_ server_receiving) !! 0%nat.
Proof.
  split; [|vm_compute; reflexivity].
  assert (Hq : match threads_ (world_ server_receiving) !! 0%nat with
    | Some t => match phase_ t with Running (Done false) => bool_decide (Some 1%nat ∈ commit_refs (worker_ t)) | _ => false end
    | None => false end = true) by (vm_compute; reflexivity).
  unfold in_queue. revert Hq. generalize (threads_ (world_ server_receiving) !! 0%nat). intros [t|] Hq; [|done].
  destruct (phase_ t) as [[[]|]| |] eqn:Hph; try done. exists t, (Done false).
  by apply bool_decide_eq_true in Hq.
Qed.

Lemma buffers_private_witness :
  head (bytes_of server_receiving 2) = Some 0 /\ head (bytes_of server_received 2) = Some 1 /\
  bytes_of server_received 1 = bytes_of server_receiving 1.
Proof.
  split; [vm_compute; reflexivity|]. split; [vm_compute; reflexivity|].
  destruct receiving_queue as [Hq Hs].
  destruct (buffers_private server_receiving receiving_reachable) as (_ & _ & H).
  exact (H server_received 0%nat 1%nat receive_step Hs (or_intror Hq)).
Defined.

Lemma queued_intact_witness :
  StudentTuple.key_ (StudentTuple.of_object_bytes (bytes_of server_receiving 1)) = 0 /\
  bytes_of server_received 1 = bytes_of server_receiving 1.
Proof.
  destruct (queued_intact server_receiving 0 1 receiving_reachable (proj1 receiving_queue)) as [H1 H2].
  split; [exact H1|]. apply H2, receive_step.
Defined.

(** The transaction of [server_added2] commits; its worker is about to insert the
    record. *)
Definition commit_message : ThreadManager.received :=
  ThreadManager.Message [8; 0; 0; 0; 0; 0; 0; 1; 0] Channels.conn_default.
Definition commit_choices : list choice := SocketTurn 20 commit_message :: replicate 40 SocketAct.
Definition insert_choices : list choice := commit_choices ++ WorkerTurn 0 :: replicate 18 (WorkerAct 0).
Definition server_inserting : server := default server_added2 (schedule insert_choices server_added2).
Definition server_inserted : server := default server_inserting (server_choose server_inserting (WorkerAct 0)).

Lemma commit_message_ok : delivered commit_message.
Proof. split; [vm_compute; discriminate|]. apply (bool_decide_unpack _). vm_compute. reflexivity. Qed.

Lemma inserting_steps : rtc bounded_step server_start server_inserting /\ bounded server_inserting.
Proof.
  destruct (server_schedule_steps insert_choices server_added2 server_inserting) as [H1 H2].
  - apply Forall_app. split; [|constructor; [done|by apply Forall_replicate]].
    constructor; [apply commit_message_ok|by apply Forall_replicate].
  - unfold server_inserting.
    assert (H : match schedule insert_choices server_added2 with Some _ => true | None => false end = true)
      by (vm_compute; reflexivity).
    by destruct (schedule insert_choices server_added2).
  - split; [|exact H2]. etrans; [apply added_steps|exact H1].
Qed.

Lemma inserting_reachable : server_reachable server_inserting.
Proof. apply bounded_start, inserting_steps. Qed.

Lemma inserting_step : server_step server_inserting server_inserted.
Proof.
  apply (server_choose_step _ (WorkerAct 0)); [|done]. unfold server_inserted.
  assert (H : match server_choose server_inserting (WorkerAct 0) with Some _ => true | None => false end = true)
    by (vm_compute; reflexivity).
  by destruct (server_choose server_inserting (WorkerAct 0)).
Qed.

Lemma changes_committed_witness :
  StudentTable.next_key_ (table_of server_inserting) = 0 /\
  StudentTable.next_key_ (table_of server_inserted) = 1 /\
  exists c, effective c = true /\
    applied (pool_of (world_ server_inserting)) c (table_of server_inserting) (table_of server_inserted).
Proof.
  assert (H0 : StudentTable.next_key_ (table_of server_inserting) = 0) by (vm_compute; reflexivity).
  assert (H1 : StudentTable.next_key_ (table_of server_inserted) = 1) by (vm_compute; reflexivity).
  split; [exact H0|]. split; [exact H1|].
  destruct (changes_committed server_inserting server_inserted inserting_reachable inserting_step)
    as [[_ Hn]|(i & t & q & c & rest & _ & _ & _ & _ & He & Ha)].
  - rewrite H0, H1 in Hn. discriminate Hn.
  - exists c. split; [exact He|exact Ha].
Defined.
