(* ===== verification/Answers.v ===== *)
(** * Every request is answered

    [Replies] considers one worker among threads that keep to their own locks
    and buffers.  [Ownership] shows that the threads of the server do; so, in
    every execution of the server, a worker answers the message it has taken,
    as it was when it was taken, to the client that sent it, once.  By [Length]
    and [System] it gets there, unless a commit is stuck or undefined. *)
From S2P Require Import Prelude Params Probe BufTable Ring Prog Counted Length References Transaction Requests Private.
From S2P Require Import Replies Every Trail Telling Serve Server Refinement Ownership.
From S2P Require Bytes JobBuf StudentTuple CommitQueue Channels Worker WorkerTable ThreadManager System.

(** ** Turns *)

(** The [i]-th worker, with its channel and flag. *)
Definition worker_in (v : server) (i : nat) : option Worker.Worker :=
  load (world_ v) <$> threads_ (world_ v) !! i.

(** It is in the middle of a turn; between two turns. *)
Definition in_turn (v : server) (i : nat) : Prop :=
  exists t B (f : Worker.shared -> Worker.Worker -> outcome (Worker.shared * Worker.Worker * B)) k,
    threads_ (world_ v) !! i = Some t /\ phase_ t = Running (Act f k).
Definition at_rest (v : server) (i : nat) (quit : bool) : Prop :=
  exists t, threads_ (world_ v) !! i = Some t /\ phase_ t = Running (Done quit).

(** All threads take part; the [i]-th worker is in its turn before each step. *)
Definition during (i : nat) (v v' : server) : Prop := in_turn v i /\ server_step v v'.

(** From the start of a turn of the [i]-th worker to its end. *)
Record turn_of (i : nat) (v v1 v' : server) (quit : bool) : Prop := {
  tn_rest : at_rest v i false;
  tn_start : server_step v v1;
  tn_turn : rtc (during i) v1 v';
  tn_begun : in_turn v1 i;
  tn_end : at_rest v' i quit
}.

(** While the [i]-th worker is in its turn, another thread takes a step; it
    acts itself. *)
Definition waits (i : nat) (v v' : server) : Prop :=
  during i v v' /\ threads_ (world_ v') !! i = threads_ (world_ v) !! i.
Definition acts (i : nat) (v v' : server) : Prop :=
  during i v v' /\ threads_ (world_ v') !! i <> threads_ (world_ v) !! i.

(** From [v0] on the worker has applied the changes [l], in this order; its other
    actions have changed no record. *)
Inductive writes (i : nat) (v0 : server) : server -> list CommitQueue.commit -> Prop :=
  | wr_start : writes i v0 v0 []
  | wr_waits v v' l : writes i v0 v l -> waits i v v' -> writes i v0 v' l
  | wr_acts v v' l : writes i v0 v l -> acts i v v' -> same_records (table_of v) (table_of v') ->
      writes i v0 v' l
  | wr_applies v v' l c : writes i v0 v l -> acts i v v' ->
      applied (pool_of (world_ v)) c (table_of v) (table_of v') -> writes i v0 v' (l ++ [c]).

(** ** Following a turn *)

Lemma during_steps i v v' : rtc (during i) v v' -> rtc server_step v v'.
Proof. induction 1 as [|v v1 v2 [_ Hst] _ IH]; [constructor|by eapply rtc_l]. Qed.

(** When [va] was reached, the worker came across [z], and had not said
    anything since [c]. *)
Definition came_across (i : nat) (c : voice) (z : seen) (va : server) : Prop :=
  exists wa, worker_in va i = Some wa /\ voice_of wa = c /\ observed (shared_ (world_ va)) wa z.

(** What is known of the [i]-th worker in [v], in a turn from [v1] that started
    with [c] and [r]. *)
Definition midway (i : nat) (c : voice) (r : trail) (v1 v : server) : Prop :=
  exists gm xm gs owner t g y, private_inv v gm xm gs owner /\
    threads_ (world_ v) !! i = Some t /\ gs !! i = Some (g, y) /\ n_start y.2 = c /\
    n_first y.2 = r /\ writes i v1 v (tr_log (n_trail y.2)) /\
    (n_seen y.2 = Unseen \/ exists va, rtc server_step v1 va /\ rtc server_step va v /\
       came_across i c (n_seen y.2) va).

(** Between two states of a thread. *)
Lemma turn_marked v v1 i gm xm gs owner :
  private_inv v gm xm gs owner -> server_step v v1 -> at_rest v i false -> in_turn v1 i ->
  exists w, worker_in v i = Some w /\ midway i (voice_of w) (fresh_trail w) v1 v1.
Proof.
  intros Hv Hst (t & Hi & Hph) (t1 & B & f & k & Hi1 & Hph1).
  destruct (private_step _ _ _ _ _ _ Hst Hv) as (_ & gm' & xm' & gs' & owner' & Hv' & Hf).
  destruct (private_thread _ _ _ _ _ _ _ Hv Hi) as (g & y & Hg & _).
  exists (load (world_ v) t). split; [unfold worker_in; by rewrite Hi|].
  destruct (Hf i t g y _ Hi Hg Hph) as [Hi'|? ? ? ? ? Hph' Hgo|? ? _ _ _ Hg'|t' Hph'].
  - exfalso. rewrite Hi' in Hi1. injection Hi1 as <-. congruence.
  - exfalso. destruct Hgo as (? & ? & ? & ? & -> & _). congruence.
  - exists gm', xm', gs', owner', t1, [], (Idle, fresh_note (load (world_ v) t)).
    split_and!; [done..|constructor|by left].
  - congruence.
Qed.

Lemma midway_step i c r v1 v v' :
  server_reachable v1 -> rtc server_step v1 v -> midway i c r v1 v -> during i v v' -> midway i c r v1 v'.
Proof.
  intros Hr Hr1 (gm & xm & gs & owner & t & g & y & Hv & Hi & Hg & Hc & Hfi & Hwr & Hseen) Hd.
  pose proof Hd as [(t0 & B & f & k & Hi0 & Hph) Hst].
  rewrite Hi in Hi0. injection Hi0 as <-.
  destruct (private_step _ _ _ _ _ _ Hst Hv) as (_ & gm' & xm' & gs' & owner' & Hv' & Hf).
  assert (Hold : forall z, z = Unseen \/ (exists va, rtc server_step v1 va /\ rtc server_step va v /\ came_across i c z va) ->
    z = Unseen \/ exists va, rtc server_step v1 va /\ rtc server_step va v' /\ came_across i c z va).
  { intros z [Hz|(va & H1 & H2 & H3)]; [by left|right]. exists va. split_and!; [done| |done].
    by eapply rtc_r. }
  destruct (Hf i t g y _ Hi Hg Hph) as [Hi' Hg'|p q t' g' y' Hp Hgo Hi' Hq Hg' (Hs & Hs1 & Hw & Hz)|? ? Hph'|t' Hph'];
    [| |congruence..].
  - exists gm', xm', gs', owner', t, g, y. split_and!; [done..| |by apply Hold].
    eapply wr_waits; [exact Hwr|]. split; [done|congruence].
  - exists gm', xm', gs', owner', t', g', y'. split_and!; [done..|by rewrite Hs|by rewrite Hs1| |].
    + assert (Ha : acts i v v').
      { split; [done|]. rewrite Hi, Hi'. intros [= ->]. apply (goes_on_ne p). congruence. }
      destruct Hw as [[-> Hsame]|(x & rest & _ & _ & -> & Hap)]; [by eapply wr_acts|by eapply wr_applies].
    + destruct Hz as [->|(Hu & Hsame & Ho)]; [by apply Hold|]. right. exists v.
      split_and!; [done|by apply rtc_once|]. exists (load (world_ v) t). unfold worker_in. rewrite Hi.
      split_and!; [done| |done]. destruct (pi_tidy _ _ _ _ _ Hv i t g y _ Hi Hg Hph) as [_ [Hvo _ _ _]].
      by rewrite Hvo, Hsame.
Qed.

Lemma midway_run i c r v1 v' :
  server_reachable v1 -> midway i c r v1 v1 -> rtc (during i) v1 v' -> midway i c r v1 v'.
Proof.
  intros Hr Hm Hd.
  assert (H : forall v, rtc (during i) v v' -> rtc server_step v1 v -> midway i c r v1 v -> midway i c r v1 v').
  { clear Hm Hd. intros v Hd. induction Hd as [v|v v2 v3 Hst _ IH]; intros H1 H2; [done|].
    apply IH; [eapply rtc_r; [exact H1|apply Hst]|by eapply midway_step]. }
  by apply (H v1); [|constructor|].
Qed.

(** At the end of the turn. *)
Lemma midway_end i c r v1 v' quit :
  midway i c r v1 v' -> at_rest v' i quit -> exists w' va z r', worker_in v' i = Some w' /\
    rtc server_step v1 va /\ rtc server_step va v' /\ came_across i c z va /\
    outcome_of c (voice_of w') r r' z quit /\ writes i v1 v' (tr_log r') /\
    tr_queue r' = contents (Worker.commit_queue_ w').
Proof.
  intros (gm & xm & gs & owner & t & g & y & Hv & Hi & Hg & Hc & Hfi & Hwr & Hseen) (t' & Hi' & Hph).
  rewrite Hi in Hi'. injection Hi' as <-.
  destruct (private_thread _ _ _ _ _ _ _ Hv Hi) as (g0 & y0 & Hg0 & Htp).
  rewrite Hg in Hg0. injection Hg0 as <- <-.
  unfold thread_private in Htp. rewrite Hph in Htp. destruct Htp as [_ [_ Ho]]. cbn [snd] in Ho.
  destruct (pi_tidy _ _ _ _ _ Hv i t g y _ Hi Hg Hph) as [_ [Hvo _ _ Htr]]. rewrite Hc, Hfi, <- Hvo in Ho.
  destruct Hseen as [Hu|(va & H1 & H2 & H3)]; [by rewrite Hu in Ho|].
  exists (load (world_ v') t), va, (n_seen y.2), (n_trail y.2). unfold worker_in. rewrite Hi.
  split_and!; try done. symmetry. exact (ta_queue _ _ _ Htr).
Qed.

(** ** Every turn ends *)

(** Any number of steps of other threads, and one action of the worker. *)
Definition round (i : nat) (v v' : server) : Prop := exists u, rtc (waits i) v u /\ acts i u v'.

(** It carries out a commit, and its next action does not return: it waits for
    room, or looks for what is not there; or it is undefined: it reads what is left
    of the destroyed entry. *)
Definition stalled (v : server) (i : nat) : Prop :=
  exists t B (f : Worker.shared -> Worker.Worker -> outcome (Worker.shared * Worker.Worker * B)) k,
    threads_ (world_ v) !! i = Some t /\ phase_ t = Running (Act f k) /\
    match f (shared_ (world_ v)) (load (world_ v) t) with
    | Ret _ => False
    | Hang => blocked (table_of v) (Worker.lock_list_ (worker_ t)) (Act f k)
    | Undef => exists mem, mem <> Worker.Retained /\ dangling mem (Act f k)
    end.

(** What [acts] means: the worker goes on with its program. *)
Lemma acts_goes_on i v v' t p :
  server_reachable v -> acts i v v' -> threads_ (world_ v) !! i = Some t -> phase_ t = Running p ->
  exists t' q, threads_ (world_ v') !! i = Some t' /\ phase_ t' = Running q /\ goes_on p q.
Proof.
  intros Hr [[(t0 & B & f & k & Hi0 & Hph0) Hst] Hne] Hi Hph.
  rewrite Hi in Hi0. injection Hi0 as <-.
  destruct (server_private v Hr) as (gm & xm & gs & owner & Hv).
  destruct (private_thread _ _ _ _ _ _ _ Hv Hi) as (g & y & Hg & _).
  destruct (private_step _ _ _ _ _ _ Hst Hv) as (_ & gm' & xm' & gs' & owner' & _ & Hf).
  destruct (Hf i t g y _ Hi Hg Hph) as [Hi' _|p' q t' g' y' Hp Hgo Hi' Hq _ _|? ? Hp _ _ _|t' Hp]; [congruence| |congruence..].
  exists t', q. split_and!; [done..|]. congruence.
Qed.

Lemma waits_keep i v u :
  server_reachable v -> rtc (waits i) v u ->
  server_reachable u /\ threads_ (world_ u) !! i = threads_ (world_ v) !! i.
Proof.
  intros Hr. induction 1 as [|v v1 u [[_ Hst] Ht] _ IH]; [done|]. rewrite <- Ht. apply IH.
  by eapply rtc_r.
Qed.

(** Every round is an action of what is left of the turn. *)
Lemma rounds_within i n m v v' t p :
  server_reachable v -> threads_ (world_ v) !! i = Some t -> phase_ t = Running p -> within m p ->
  nsteps (round i) n v v' -> (n <= m)%nat.
Proof.
  intros Hr Hi Hph Hm Hn. revert m t p Hr Hi Hph Hm.
  induction Hn as [v|n v v2 v3 (u & Hw & Ha) _ IH]; intros m t p Hr Hi Hph Hm; [lia|].
  destruct (waits_keep i v u Hr Hw) as [Hru Hiu]. rewrite Hi in Hiu.
  destruct (acts_goes_on i u v2 t p Hru Ha Hiu Hph) as (t' & q & Hi' & Hq & Hgo).
  destruct Hgo as (B & f & k & b & -> & ->). destruct m as [|m]; [done|].
  assert (n <= m)%nat; [|lia]. apply (IH m t' (k b)); [eapply rtc_r; [exact Hru|apply Ha]|done|done|apply Hm].
Qed.

(** How a turn starts. *)
Lemma turn_begins i v v1 :
  server_reachable v -> at_rest v i false -> server_step v v1 -> in_turn v1 i ->
  exists t (mem : Worker.expiry), threads_ (world_ v1) !! i = Some t /\ phase_ t = Running Worker.iteration.
Proof.
  intros Hr (t & Hi & Hph) Hst (t1 & B & f & k & Hi1 & Hph1).
  destruct (server_private v Hr) as (gm & xm & gs & owner & Hv).
  destruct (private_step _ _ _ _ _ _ Hst Hv) as (_ & gm' & xm' & gs' & owner' & _ & Hf).
  destruct (private_thread _ _ _ _ _ _ _ Hv Hi) as (g & y & Hg & _).
  destruct (Hf i t g y _ Hi Hg Hph) as [Hi'|? ? ? ? ? Hph' Hgo|t' mem _ Hi' Hph' _|t' Hph'].
  - exfalso. rewrite Hi' in Hi1. injection Hi1 as <-. congruence.
  - exfalso. destruct Hgo as (? & ? & ? & ? & -> & _). congruence.
  - by exists t', mem.
  - congruence.
Qed.

(** A worker in its turn acts, or is stuck in a commit. *)
Lemma turn_goes_on i v :
  rtc bounded_step server_start v -> bounded v -> in_turn v i -> (exists v', acts i v v') \/ stalled v i.
Proof.
  intros Hr Hb Hin. pose proof Hin as (t & B & f & k & Hi & Hph).
  assert (Hsys : (sys_of (world_ v)).2 !! i = Some (load (world_ v) t, Act f k)).
  { unfold sys_of. cbn [snd]. rewrite list_lookup_fmap, Hi. cbn. unfold sys_thread. by rewrite Hph. }
  pose proof (System.stuck_commits _ _ i _ B f k (server_sys_reachable v Hr Hb) Hb Hsys) as H.
  destruct (f (shared_ (world_ v)) (load (world_ v) t)) as [[[s w] b]| |] eqn:Ef.
  - left. destruct v as [W m p]. cbn [world_] in *.
    exists (mkServer (store_back W i t s w (Running (k b))) m p). split.
    + split; [done|]. by eapply worker_act.
    + cbn [world_ store_back threads_]. rewrite list_lookup_insert_eq by by eapply lookup_lt_Some.
      rewrite Hi. intros [= E]. rewrite <- E in Hph. cbn [phase_] in Hph. injection Hph as E'.
      apply (goes_on_ne (Act f k)). by exists B, f, k, b.
  - right. exists t, B, f, k. split_and!; [done..|]. rewrite Ef. exact H.
  - right. exists t, B, f, k. split_and!; [done..|]. rewrite Ef. destruct H as [mem H].
    exists mem. split; [by eapply dangling_lost|done].
Qed.

(** ** Properties *)

Definition silent (w w' : Worker.Worker) : Prop :=
  Worker.sent_ w' = Worker.sent_ w /\
  Channels.head_ (Worker.job_ch_ w') = Channels.head_ (Worker.job_ch_ w).

(** The operation that the message of a job names. *)
Definition operation (v : server) (j : Channels.job) : OpType :=
  default MAX_OP_VALUE (value_ (JobBuf.get_op (pool_of (world_ v)) (Channels.buf_ j))).

(** From [w] to [w'], what the message of [j] asks for in [v] has been answered. *)
Definition answered (v : server) (j : Channels.job) (w w' : Worker.Worker) : Prop :=
  let op := operation v j in
  exists ds k, Worker.sent_ w' = Worker.sent_ w ++ ds /\
    Channels.head_ (Worker.job_ch_ w') = slot Channels.MaxJobs (Channels.head_ (Worker.job_ch_ w)) k /\
    exchange op (Channels.conn_ j)
      (reply_header op (Worker.txn_id_ w) (buffer (pool_of (world_ v)) (Channels.job_ref j))) ds k.

Lemma outcome_answered va j w w' r r' quit :
  outcome_of (voice_of w) (voice_of w') r r' (Took j (buffer (pool_of (world_ va)) (Channels.job_ref j))) quit ->
  quit = leaves (operation va j) /\ answered va j w w' /\ worked (operation va j) r r'.
Proof.
  intros (i & op_r & ds & k & Hi & Hop & Hq & Hs & Hh & Hex & Hw).
  assert (E : op_r = JobBuf.get_op (pool_of (world_ va)) (Channels.buf_ j)).
  { rewrite (surjective_ref j i Hi). symmetry. apply Hop. by rewrite Hi. }
  unfold answered, operation. rewrite <- E. split; [done|]. split; [|done]. by exists ds, k.
Qed.

(** What a turn does that came across [z]: to the end of it. *)
Lemma turn_outcome i v v1 v' quit :
  server_reachable v -> turn_of i v v1 v' quit ->
  exists w w' va wa z r', worker_in v i = Some w /\ worker_in v' i = Some w' /\
    rtc server_step v1 va /\ rtc server_step va v' /\ worker_in va i = Some wa /\ silent w wa /\
    observed (shared_ (world_ va)) wa z /\ outcome_of (voice_of w) (voice_of w') (fresh_trail w) r' z quit /\
    writes i v1 v' (tr_log r') /\ tr_queue r' = contents (Worker.commit_queue_ w').
Proof.
  intros Hr [Hrest Hst Hturn Hbeg Hend]. destruct (server_private v Hr) as (gm & xm & gs & owner & Hv).
  destruct (turn_marked v v1 i gm xm gs owner Hv Hst Hrest Hbeg) as (w & Hw & Hm).
  assert (Hr1 : server_reachable v1) by (eapply rtc_r; [exact Hr|exact Hst]).
  apply (midway_run i _ _ v1 v' Hr1) in Hm; [|done].
  destruct (midway_end i _ _ v1 v' quit Hm Hend)
    as (w' & va & z & r' & Hw' & H1 & H2 & (wa & Hwa & Hvo & Ho) & Hout & Hwr & Hq).
  exists w, w', va, wa, z, r'. split_and!; try done; by injection Hvo.
Qed.

(** C3.  The server answers every request.  Let all threads of the server take
    their steps in any order while one worker goes through a turn of its loop.
    At some moment of the turn, before it has said anything, the worker either
    was told to stop, and then it quits without a word; or had an empty channel,
    and the turn ends without a word; or it had a job at the head of its channel:
    then at the end of the turn it has answered that job, in the way [exchange]
    says, to the client the job came from, in the header of the message as it
    was at that moment (with the id of the transaction after [START_TXN]), and
    has taken it off the channel; and it quits if the message is a commit or an
    abort. *)
Theorem turn_answers i v v1 v' quit :
  server_reachable v -> turn_of i v v1 v' quit ->
  exists w w' va wa,
    worker_in v i = Some w /\ worker_in v' i = Some w' /\
    rtc server_step v1 va /\ rtc server_step va v' /\ worker_in va i = Some wa /\ silent w wa /\
    ((Worker.running_ wa = false /\ quit = true /\ silent w w') \/
     (Channels.empty (Worker.job_ch_ wa) = true /\ quit = false /\ silent w w') \/
     exists j, Channels.empty (Worker.job_ch_ wa) = false /\
       Channels.jobs_ (Worker.job_ch_ wa) !! Channels.head_ (Worker.job_ch_ wa) = Some j /\
       quit = leaves (operation va j) /\ answered va j w w').
Proof.
  intros Hr Ht. destruct (turn_outcome i v v1 v' quit Hr Ht)
    as (w & w' & va & wa & z & r' & Hw & Hw' & H1 & H2 & Hwa & Hsil & Ho & Hout & _).
  exists w, w', va, wa. do 6 (split; [done|]). destruct z as [| | |j req]; [done|..].
  - left. by destruct Hout as (Hq & Hs & Hh & _).
  - right. left. by destruct Hout as (Hq & Hs & Hh & _).
  - right. right. destruct Ho as (He & Hj & <-). exists j.
    destruct (outcome_answered va j w w' _ _ quit Hout) as (Hq & Ha & _). by split_and!.
Qed.

(** C5.  The records are changed by commits only, and each commit applies what
    was queued, in order and once.  Let all threads of the server take their
    steps in any order while one worker goes through a turn of its loop, and let
    [l] be the changes that its actions apply to the table in this turn, one
    after the other, each with the bytes that its buffer holds at that moment.
    If the worker finds an order to stop or an empty channel, [l] is empty.
    If it takes a message, [l] is empty too, unless the message is a
    commit and the transaction is in its shrinking phase: then [l] is what was in
    the commit queue when the turn began.  After a commit, an abort or the order
    to stop nothing is queued any more; after any other turn what was queued still
    is, followed by what the turn has queued. *)
Theorem turn_commits i v v1 v' quit :
  server_reachable v -> turn_of i v v1 v' quit ->
  exists w w' va wa l,
    worker_in v i = Some w /\ worker_in v' i = Some w' /\
    rtc server_step v1 va /\ rtc server_step va v' /\ worker_in va i = Some wa /\ writes i v1 v' l /\
    let before := contents (Worker.commit_queue_ w) in
    let after := contents (Worker.commit_queue_ w') in
    ((Worker.running_ wa = false /\ quit = true /\ silent w w' /\ l = [] /\ after = []) \/
     (Channels.empty (Worker.job_ch_ wa) = true /\ quit = false /\ silent w w' /\ l = [] /\ after = before) \/
     exists j, Channels.empty (Worker.job_ch_ wa) = false /\
       Channels.jobs_ (Worker.job_ch_ wa) !! Channels.head_ (Worker.job_ch_ wa) = Some j /\
       quit = leaves (operation va j) /\ l = performed (operation va j) (Worker.status_ w) before /\
       if leaves (operation va j) then after = [] else before `prefix_of` after).
Proof.
  intros Hr Ht. destruct (turn_outcome i v v1 v' quit Hr Ht)
    as (w & w' & va & wa & z & r' & Hw & Hw' & H1 & H2 & Hwa & _ & Ho & Hout & Hwr & Hq).
  exists w, w', va, wa, (tr_log r'). do 6 (split; [done|]). cbv zeta. rewrite <- Hq.
  destruct z as [| | |j req]; [done|..].
  - left. by destruct Hout as (? & ? & ? & ? & ?).
  - right. left. by destruct Hout as (? & ? & ? & ->).
  - right. right. destruct Ho as (He & Hj & <-). exists j.
    destruct (outcome_answered va j w w' _ _ quit Hout) as (Hqu & _ & (_ & Hl & Hn)). by split_and!.
Qed.

(** C4.  Every turn of a worker is over after at most [TURN_ACTIONS] = 295 actions
    of the worker, however the steps of all other threads are interleaved: if the
    worker starts a turn and then takes [n] actions in it, [n] is at most 295.  And
    it gets there: if the steps that have led to a state within its turn stay
    within the bounds of [System] (no record at 127 shared holders, the next key not in
    use, a buffer for every job that is next in a channel), its next action can be taken,
    unless it is carrying out a commit in which that action does not return (an
    insertion into a full table; a search for a record that is in no slot, or for a lock
    that its list does not hold) or is undefined (it reads the entry of the queue
    through the reference to its destroyed copy, or follows the null reference that
    this copy holds). *)
Theorem turns_end i v v1 n v' :
  server_reachable v -> at_rest v i false -> server_step v v1 -> in_turn v1 i ->
  nsteps (round i) n v1 v' ->
  (n <= TURN_ACTIONS)%nat /\
  (rtc bounded_step server_start v' -> bounded v' -> in_turn v' i -> (exists v2, acts i v' v2) \/ stalled v' i).
Proof.
  intros Hr Hrest Hst Hin Hn. split; [|intros Hb1 Hb; by apply turn_goes_on].
  destruct (turn_begins i v v1 Hr Hrest Hst Hin) as (t & mem & Hi & Hph).
  eapply (rounds_within i n TURN_ACTIONS v1 v' t Worker.iteration); [|done|done|apply within_iteration|done].
  eapply rtc_r; [exact Hr|exact Hst].
Qed.

(** ** Witnesses

    The first turn of the worker of [server_added2], which answers [START_TXN]
    while the socket thread receives the next message. *)

Definition in_turnb (v : server) (i : nat) : bool :=
  match threads_ (world_ v) !! i with
  | Some t => match phase_ t with Running (Act _ _) => true | _ => false end
  | None => false
  end.

Fixpoint go_through (i : nat) (cs : list choice) (v : server) : option server :=
  match cs with
  | [] => Some v
  | c :: cs' => if in_turnb v i then v' ← server_choose v c; go_through i cs' v' else None
  end.

Lemma in_turnb_true v i : in_turnb v i = true -> in_turn v i.
Proof.
  unfold in_turnb, in_turn. destruct (threads_ (world_ v) !! i) as [t|]; [|done].
  destruct (phase_ t) as [[a|B f k]| |] eqn:Hph; try done. intros _. by exists t, B, f, k.
Qed.

Lemma go_through_during i cs v v' :
  Forall choice_ok cs -> go_through i cs v = Some v' -> rtc (during i) v v'.
Proof.
  intros Hok. revert v. induction Hok as [|c cs Hc _ IH]; intros v E; simpl in E; [injection E as ->; constructor|].
  destruct (in_turnb v i) eqn:Hb; [|done]. destruct (server_choose v c) as [v1|] eqn:Ec; [|done].
  eapply rtc_l; [|by apply IH]. split; [by apply in_turnb_true|by eapply server_choose_step].
Qed.

Definition asked_choices : list choice := SocketTurn 20 start_message :: replicate 40 SocketAct.
Definition turn_choices : list choice :=
  replicate 5 (WorkerAct 0) ++ SocketTurn 20 add_message :: replicate 3 SocketAct ++ replicate 12 (WorkerAct 0).
Definition server_asked : server := default server_start (schedule asked_choices server_start).
Definition server_turning : server := default server_asked (server_choose server_asked (WorkerTurn 0)).
Definition server_answered : server := default server_turning (go_through 0 turn_choices server_turning).

Lemma asked_steps : rtc bounded_step server_start server_asked /\ bounded server_asked.
Proof.
  apply (server_schedule_steps asked_choices).
  - constructor; [|by apply Forall_replicate]. split; [vm_compute; discriminate|].
    apply (bool_decide_unpack _). vm_compute. reflexivity.
  - unfold server_asked.
    assert (H : match schedule asked_choices server_start with Some _ => true | None => false end = true)
      by (vm_compute; reflexivity).
    by destruct (schedule asked_choices server_start).
Qed.

Lemma turning_step : server_step server_asked server_turning.
Proof.
  apply (server_choose_step _ (WorkerTurn 0)); [|done]. unfold server_turning.
  assert (H : match server_choose server_asked (WorkerTurn 0) with Some _ => true | None => false end = true)
    by (vm_compute; reflexivity).
  by destruct (server_choose server_asked (WorkerTurn 0)).
Qed.

Lemma answered_steps : rtc (during 0) server_turning server_answered.
Proof.
  apply (go_through_during 0 turn_choices).
  - apply Forall_app. split; [by apply Forall_replicate|]. constructor; [|by repeat constructor].
    split; [vm_compute; discriminate|]. apply (bool_decide_unpack _). vm_compute. reflexivity.
  - unfold server_answered.
    assert (H : match go_through 0 turn_choices server_turning with Some _ => true | None => false end = true)
      by (vm_compute; reflexivity).
    by destruct (go_through 0 turn_choices server_turning).
Qed.

Definition at_restb (v : server) (i : nat) (quit : bool) : bool :=
  match threads_ (world_ v) !! i with
  | Some t => match phase_ t with Running (Done q) => Bool.eqb q quit | _ => false end
  | None => false
  end.

Lemma at_restb_true v i quit : at_restb v i quit = true -> at_rest v i quit.
Proof.
  unfold at_restb, at_rest. destruct (threads_ (world_ v) !! i) as [t|]; [|done].
  destruct (phase_ t) as [[a|]| |] eqn:Hph; try done. intros ->%Bool.eqb_prop. by exists t.
Qed.

Lemma answered_turn : turn_of 0 server_asked server_turning server_answered false.
Proof.
  split.
  - apply at_restb_true. vm_compute. reflexivity.
  - apply turning_step.
  - apply answered_steps.
  - apply in_turnb_true. vm_compute. reflexivity.
  - apply at_restb_true. vm_compute. reflexivity.
Qed.

Definition datagrams (v : server) (i : nat) : option nat :=
  (fun w => length (Worker.sent_ w)) <$> worker_in v i.

Lemma datagrams_at v i n w : datagrams v i = Some n -> worker_in v i = Some w -> length (Worker.sent_ w) = n.
Proof. unfold datagrams. by intros H Hw; rewrite Hw in H; injection H. Qed.

Lemma turn_answers_witness :
  datagrams server_asked 0 = Some 0%nat /\ datagrams server_answered 0 = Some 1%nat /\
  exists w w' va j, worker_in server_asked 0 = Some w /\ worker_in server_answered 0 = Some w' /\
    leaves (operation va j) = false /\ answered va j w w'.
Proof.
  assert (H0 : datagrams server_asked 0 = Some 0%nat) by (vm_compute; reflexivity).
  assert (H1 : datagrams server_answered 0 = Some 1%nat) by (vm_compute; reflexivity).
  split; [exact H0|]. split; [exact H1|].
  destruct (turn_answers 0 server_asked server_turning server_answered false
    (bounded_start _ (proj1 asked_steps)) answered_turn)
    as (w & w' & va & wa & Hw & Hw' & _ & _ & _ & _ & Hcase).
  destruct Hcase as [(_ & Hq & _)|[(_ & _ & [Hs _])|(j & _ & _ & Hq & Ha)]]; [discriminate Hq| |].
  - pose proof (datagrams_at _ _ _ _ H0 Hw) as E0. pose proof (datagrams_at _ _ _ _ H1 Hw') as E1.
    rewrite Hs in E1. congruence.
  - exists w, w', va, j. split; [exact Hw|]. split; [exact Hw'|]. split; [by symmetry|exact Ha].
Defined.

(** A stuck worker cannot be scheduled. *)
Lemma stalled_choose v i : stalled v i -> server_choose v (WorkerAct i) = None.
Proof.
  destruct v as [W m p]. intros (t & B & f & k & Hi & Hph & Hh). cbn [world_] in *.
  cbn [server_choose]. rewrite Hi, Hph. by destruct (f (shared_ W) (load W t)).
Qed.

Lemma turns_end_witness :
  server_step server_asked server_turning /\ exists v', acts 0 server_turning v'.
Proof.
  split; [exact turning_step|].
  assert (Hgo : match server_choose server_turning (WorkerAct 0) with Some _ => true | None => false end = true)
    by (vm_compute; reflexivity).
  destruct (turns_end 0 server_asked server_turning 0 server_turning) as [_ Hacc].
  - exact (bounded_start _ (proj1 asked_steps)).
  - apply at_restb_true. vm_compute. reflexivity.
  - exact turning_step.
  - apply in_turnb_true. vm_compute. reflexivity.
  - constructor.
  - destruct Hacc as [Ha|Hs]; [| | |exact Ha|].
    + eapply rtc_r; [exact (proj1 asked_steps)|]. split; [exact (proj2 asked_steps)|exact turning_step].
    + apply System.boundedb_bounded. vm_compute. reflexivity.
    + apply in_turnb_true. vm_compute. reflexivity.
    + exfalso. rewrite (stalled_choose _ _ Hs) in Hgo. discriminate Hgo.
Defined.

(** The transaction of [server_added2] commits the record it has queued, while the
    socket thread receives another message. *)
Definition committing_turn : list choice :=
  replicate 16 (WorkerAct 0) ++ SocketTurn 20 start_message :: replicate 3 SocketAct ++ replicate 16 (WorkerAct 0).
Definition server_asked2 : server := default server_added2 (schedule commit_choices server_added2).
Definition server_turning2 : server := default server_asked2 (server_choose server_asked2 (WorkerTurn 0)).
Definition server_committed : server := default server_turning2 (go_through 0 committing_turn server_turning2).

Lemma asked2_reachable : server_reachable server_asked2.
Proof.
  apply bounded_start. etrans; [apply added_steps|]. apply (server_schedule_steps commit_choices).
  - constructor; [apply commit_message_ok|by apply Forall_replicate].
  - unfold server_asked2.
    assert (H : match schedule commit_choices server_added2 with Some _ => true | None => false end = true)
      by (vm_compute; reflexivity).
    by destruct (schedule commit_choices server_added2).
Qed.

Lemma committed_turn : turn_of 0 server_asked2 server_turning2 server_committed true.
Proof.
  split.
  - apply at_restb_true. vm_compute. reflexivity.
  - apply (server_choose_step _ (WorkerTurn 0)); [|done]. unfold server_turning2.
    assert (H : match server_choose server_asked2 (WorkerTurn 0) with Some _ => true | None => false end = true)
      by (vm_compute; reflexivity).
    by destruct (server_choose server_asked2 (WorkerTurn 0)).
  - apply (go_through_during 0 committing_turn).
    + apply Forall_app. split; [by apply Forall_replicate|]. constructor; [|by repeat constructor].
      split; [vm_compute; discriminate|]. apply (bool_decide_unpack _). vm_compute. reflexivity.
    + unfold server_committed.
      assert (H : match go_through 0 committing_turn server_turning2 with Some _ => true | None => false end = true)
        by (vm_compute; reflexivity).
      by destruct (go_through 0 committing_turn server_turning2).
  - apply in_turnb_true. vm_compute. reflexivity.
  - apply at_restb_true. vm_compute. reflexivity.
Qed.

(** What a worker has queued. *)
Definition queue_in (v : server) (i : nat) : option (list OpType) :=
  (fun w => CommitQueue.commit_op_ <$> contents (Worker.commit_queue_ w)) <$> worker_in v i.

Lemma turn_commits_witness :
  queue_in server_asked2 0 = Some [ADD_TUPLE] /\ queue_in server_committed 0 = Some [] /\
  StudentTable.next_key_ (table_of server_committed) = 1 /\
  exists w va j l, worker_in server_asked2 0 = Some w /\ writes 0 server_turning2 server_committed l /\
    leaves (operation va j) = true /\
    l = performed (operation va j) (Worker.status_ w) (contents (Worker.commit_queue_ w)).
Proof.
  split; [vm_compute; reflexivity|]. split; [vm_compute; reflexivity|]. split; [vm_compute; reflexivity|].
  assert (H0 : datagrams server_asked2 0 = Some 2%nat) by (vm_compute; reflexivity).
  assert (H1 : datagrams server_committed 0 = Some 3%nat) by (vm_compute; reflexivity).
  destruct (turn_commits 0 server_asked2 server_turning2 server_committed true asked2_reachable committed_turn)
    as (w & w' & va & wa & l & Hw & Hw' & _ & _ & _ & Hl & Hcase).
  destruct Hcase as [(_ & _ & [Hs _] & _)|[(_ & Hq & _)|(j & _ & _ & Hq & El & _)]]; [|discriminate Hq|].
  - pose proof (datagrams_at _ _ _ _ H0 Hw) as E0. pose proof (datagrams_at _ _ _ _ H1 Hw') as E1.
    rewrite Hs in E1. congruence.
  - exists w, va, j, l. split; [exact Hw|]. split; [exact Hl|]. split; [by symmetry|exact El].
Defined.
