(* ===== verification/Stability.v ===== *)
(** * What a lock is good for

    A transaction reads a record under a lock and reads it again later: between
    the two, other transactions may run, commit and end.  [Isolation] shows that
    a commit of an update may overwrite a locked record whose key is 0.  Every
    other locked record is stable: it is in the table, with the same contents,
    whatever the other threads of the server do. *)
From S2P Require Import Prelude Params Probe BufTable UniqueKey Ring Prog Counted Locking WorkerLogic.
From S2P Require Import References Private Serve Server Refinement Ownership.
From S2P Require StudentTuple StudentTable LockList Channels Worker WorkerTable ThreadManager System Isolation.

(** A step of a thread other than the [i]-th worker, within the range of the
    8-bit counters. *)
Record elsewhere (i : nat) (v v' : server) : Prop := {
  ew_step : bounded_step v v';
  ew_thread : threads_ (world_ v') !! i = threads_ (world_ v) !! i
}.

(** The record with a key. *)
Definition record_in (v : server) (k : Z) : option StudentTuple.StudentTuple :=
  Isolation.record_of (sys_of (world_ v)) k.

(** The worker waits for its next request and holds the lock. *)
Definition locked_by (v : server) (i : nat) (k : unique_key) (m : LockType) : Prop :=
  exists t, threads_ (world_ v) !! i = Some t /\ phase_ t = Running (Done false) /\
    (k, m) ∈ System.held_by (worker_ t).

(** The record is in this slot; it is deleted, and no other slot is touched. *)
Definition in_slot (v : server) (n : nat) (u : StudentTuple.StudentTuple) : Prop :=
  exists e, StudentTable.table_ (table_of v) !! n = Some e /\ StudentTable.live_entry e = true /\
    StudentTable.tuple_ e = u.
Definition deletes (n : nat) (u : StudentTuple.StudentTuple) (v v' : server) : Prop :=
  (exists e, StudentTable.table_ (table_of v') !! n = Some e /\ StudentTable.is_deleted_ e = true /\
     StudentTable.tuple_ e = u) /\
  forall n', n' <> n -> StudentTable.table_ (table_of v') !! n' = StudentTable.table_ (table_of v) !! n'.

(** ** Records and rows *)

Lemma first_with_key (l : list (StudentTuple.StudentTuple * Z)) r :
  NoDup ((fun r => StudentTuple.key_ r.1) <$> l) -> r ∈ l ->
  fst <$> head (List.filter (fun r' => StudentTuple.key_ r'.1 =? StudentTuple.key_ r.1) l) = Some r.1.
Proof.
  induction l as [|r0 l IH]; intros Hn Hr; [by apply elem_of_nil in Hr|].
  apply list.NoDup_cons in Hn as [Hn0 Hn]. simpl. apply elem_of_cons in Hr as [->|Hr].
  - by rewrite Z.eqb_refl.
  - destruct (Z.eqb_spec (StudentTuple.key_ r0.1) (StudentTuple.key_ r.1)) as [E|_]; [|by apply IH].
    destruct Hn0. rewrite E. apply list_elem_of_fmap. by exists r.
Qed.

Lemma live_row (t : StudentTable.StudentTable) n e :
  StudentTable.table_ t !! n = Some e -> StudentTable.live_entry e = true ->
  (StudentTable.tuple_ e, StudentTable.lock_ e) ∈ StudentTable.rows t.
Proof. intros Hn Hl. apply elem_of_omap. exists n, e. unfold StudentTable.row. by rewrite Hl. Qed.

Lemma record_live v n e :
  StudentTable.distinct_keys (table_of v) -> StudentTable.table_ (table_of v) !! n = Some e ->
  StudentTable.live_entry e = true -> record_in v (StudentTable.entry_key e) = Some (StudentTable.tuple_ e).
Proof.
  intros Hd Hn Hl. apply (first_with_key _ (StudentTable.tuple_ e, StudentTable.lock_ e)); [exact Hd|].
  by eapply live_row.
Qed.

(** Two live entries have different keys. *)
Lemma live_unique (t : StudentTable.StudentTable) n n' e e' :
  StudentTable.distinct_keys t -> StudentTable.table_ t !! n = Some e -> StudentTable.table_ t !! n' = Some e' ->
  StudentTable.live_entry e = true -> StudentTable.live_entry e' = true ->
  StudentTable.entry_key e' = StudentTable.entry_key e -> n' = n.
Proof.
  intros Hd Hn Hn' Hl Hl' Hk. destruct (decide (n' = n)) as [|Hne]; [done|exfalso].
  set (hole := StudentTable.mkEntry (StudentTable.tuple_ e) 0 false false).
  assert (Hp : StudentTable.rows t ≡ₚ (StudentTable.tuple_ e, StudentTable.lock_ e) ::
    omap StudentTable.row (<[n := hole]> (StudentTable.table_ t))).
  { apply (omap_insert_remove _ _ _ e); [done| |done]. unfold StudentTable.row. by rewrite Hl. }
  unfold StudentTable.distinct_keys, StudentTable.keys in Hd. rewrite Hp in Hd.
  apply list.NoDup_cons in Hd as [Hno _]. apply Hno. apply list_elem_of_fmap.
  exists (StudentTable.tuple_ e', StudentTable.lock_ e'). split; [by symmetry|].
  apply elem_of_omap. exists n', e'. rewrite list_lookup_insert_ne by done. split; [done|].
  unfold StudentTable.row. by rewrite Hl'.
Qed.

(** ** One step *)

(** The record of a lock, in a state the server reaches. *)
Lemma locked_live v i k m :
  rtc bounded_step server_start v -> bounded v -> locked_by v i k m ->
  StudentTable.distinct_keys (table_of v) /\
  exists n e, StudentTable.table_ (table_of v) !! n = Some e /\ StudentTable.live_entry e = true /\
    StudentTable.entry_key e = tuple_key_ k.
Proof.
  intros Hr Hb (t & Hi & Hph & Hk). pose proof (server_sys_reachable v Hr Hb) as Hsys.
  assert (Hid : System.idle_at (sys_of (world_ v)) i = Some (load (world_ v) t)).
  { unfold System.idle_at, sys_of. cbn [snd]. rewrite list_lookup_fmap, Hi. cbn [fmap option_fmap option_map].
    unfold sys_thread. by rewrite Hph. }
  destruct (System.idle_lock _ _ i _ k m Hsys Hid Hk) as (O & rest & HG & n & e & Hh).
  split; [apply HG|]. exists n, e. by apply StudentTable.holder_live in Hh.
Qed.

Lemma locked_elsewhere v v' i k m : elsewhere i v v' -> locked_by v i k m -> locked_by v' i k m.
Proof. intros [_ Ht] (t & Hi & H). exists t. by rewrite Ht. Qed.

(** A kept record stays in the table if a record with its key does. *)
Lemma kept_live (t t' : StudentTable.StudentTable) n e n' e' :
  records_kept t t' -> StudentTable.distinct_keys t ->
  StudentTable.table_ t !! n = Some e -> StudentTable.live_entry e = true -> StudentTable.entry_key e <> 0 ->
  StudentTable.table_ t' !! n' = Some e' -> StudentTable.live_entry e' = true ->
  StudentTable.entry_key e' = StudentTable.entry_key e ->
  exists e1, StudentTable.table_ t' !! n = Some e1 /\ StudentTable.live_entry e1 = true /\
    StudentTable.tuple_ e1 = StudentTable.tuple_ e.
Proof.
  intros Hk Hd Hn Hl Hk0 Hn' Hl' Hke. destruct (Hk n e Hn Hl Hk0) as (e1 & He1 & Htu & Hu & Hdel).
  exists e1. split; [done|]. split; [|done].
  destruct (StudentTable.is_deleted_ e1) eqn:Hd1; unfold StudentTable.live_entry, live; rewrite Hu, Hd1; [|done].
  exfalso. destruct (decide (n' = n)) as [->|Hne].
  - rewrite Hn' in He1. injection He1 as <-. apply live_flags in Hl' as [_ Hf]. congruence.
  - rewrite (Hdel eq_refl n' Hne) in Hn'. apply Hne. by eapply (live_unique t).
Qed.

Lemma locked_step v v' i k m :
  rtc bounded_step server_start v -> elsewhere i v v' -> bounded v' -> locked_by v i k m ->
  tuple_key_ k <> 0 -> record_in v' (tuple_key_ k) = record_in v (tuple_key_ k).
Proof.
  intros Hr Hst Hb' Hl Hk0. destruct (ew_step _ _ _ Hst) as [Hb Hsv].
  destruct (locked_live v i k m Hr Hb Hl) as (Hd & n & e & Hn & Hle & Hke).
  destruct (locked_live v' i k m) as (Hd' & n' & e' & Hn' & Hle' & Hke');
    [eapply rtc_r; [exact Hr|by split]|done|by eapply locked_elsewhere|].
  pose proof (sp_records _ _ (server_spares v v' (bounded_start v Hr) Hsv)) as Hkept.
  destruct (kept_live (table_of v) (table_of v') n e n' e') as (e1 & He1 & Hl1 & Htu); try done; try congruence.
  rewrite <- Hke at 2. assert (Hk1 : StudentTable.entry_key e1 = tuple_key_ k).
  { unfold StudentTable.entry_key in *. by rewrite Htu. }
  rewrite <- Hk1, (record_live v n e Hd Hn Hle), (record_live v' n e1 Hd' He1 Hl1). by rewrite Htu.
Qed.

Lemma in_slot_step v v' n u :
  server_reachable v -> server_step v v' -> StudentTuple.key_ u <> 0 -> in_slot v n u ->
  in_slot v' n u \/ deletes n u v v'.
Proof.
  intros Hr Hst Hu (e & Hn & Hl & <-).
  destruct (sp_records _ _ (server_spares v v' Hr Hst) n e Hn Hl Hu) as (e' & He' & Ht & Hus & Hd).
  destruct (StudentTable.is_deleted_ e') eqn:Hdel.
  - right. split; [by exists e'|by apply Hd].
  - left. exists e'. split_and!; [done| |done]. unfold StudentTable.live_entry, live. by rewrite Hus, Hdel.
Qed.

(** ** Properties *)

(** C24.  A stored record is never changed unless its key is 0.  However many
    steps the threads take, commits of updates included, a record of the table
    whose key is not 0 is still in its slot with the same contents, unless one of
    the steps has deleted it; this step changes nothing else in the table. *)
Theorem records_immutable v v' n u :
  server_reachable v -> rtc server_step v v' -> StudentTuple.key_ u <> 0 -> in_slot v n u ->
  in_slot v' n u \/
  exists v1 v2, rtc server_step v v1 /\ in_slot v1 n u /\ server_step v1 v2 /\ deletes n u v1 v2 /\
    rtc server_step v2 v'.
Proof.
  intros Hr Hst Hu Hn. induction Hst as [v|v v1 v' Hs Hst IH]; [by left|].
  destruct (in_slot_step v v1 n u Hr Hs Hu Hn) as [Hn1|Hd]; [|right; by exists v, v1].
  destruct (IH (rtc_r _ _ _ Hr Hs) Hn1) as [?|(v2 & v3 & H1 & H)]; [by left|right].
  exists v2, v3. split; [by eapply rtc_l|exact H].
Qed.

(** C11.  Repeatable reads.  While a worker waits for its next request and holds
    a lock, shared or exclusive, on a record whose key is not 0, the record is
    in the table and keeps its contents, whichever steps the socket thread and
    the other workers take, commits of updates, additions and deletions
    included, as long as the bounds hold: in every state from the start of the
    program to the end, that of the last step included, no record has the key
    that the next addition gives (keys come round again after 256 additions), no
    record has 127 shared holders, and a job that is next in a channel has a
    buffer. *)
Theorem repeatable_reads v v' i k m :
  rtc bounded_step server_start v -> rtc (elsewhere i) v v' -> bounded v' ->
  locked_by v i k m -> tuple_key_ k <> 0 ->
  is_Some (record_in v (tuple_key_ k)) /\
  record_in v' (tuple_key_ k) = record_in v (tuple_key_ k).
Proof.
  intros Hr Hs Hb' Hl Hk. split.
  - assert (Hb : bounded v) by by destruct Hs as [|? ? ? [[? _] _] _].
    destruct (locked_live v i k m Hr Hb Hl) as (Hd & n & e & Hn & Hle & Hke).
    rewrite <- Hke, (record_live v n e Hd Hn Hle). by eexists.
  - induction Hs as [v|v v1 v2 Hst Hs IH]; [done|].
    assert (Hb1 : bounded v1) by by destruct Hs as [|? ? ? [[? _] _] _].
    rewrite IH; [by eapply locked_step|by eapply rtc_r, Hst|done|by eapply locked_elsewhere].
Qed.

(** ** Witness *)

Definition by_worker (i : nat) (c : choice) : bool :=
  match c with WorkerAct j | WorkerTurn j => (j =? i)%nat | _ => false end.

(** A choice that is not the worker's leaves its thread as it is. *)
Lemma choose_elsewhere v v' c i t p :
  server_reachable v -> server_choose v c = Some v' -> by_worker i c = false ->
  threads_ (world_ v) !! i = Some t -> phase_ t = Running p -> threads_ (world_ v') !! i = Some t.
Proof.
  intros Hr E Hc Hi Hph. destruct (server_reachable_inv v Hr) as (gm & gs & Hv).
  destruct v as [W m q], c as [|fuel r|j|j]; simpl in E, Hi, Hc.
  - destruct q as [|B f k]; [done|]. destruct (f W m) as [[[W' m'] b]| |] eqn:Ef; [|done..].
    injection E as <-. destruct (socket_acts _ _ _ _ _ _ _ _ _ _ Hv Ef) as (_ & [_ Hch _ _] & _).
    destruct (ch_threads _ _ Hch) as [Hsame|(i0 & r & ch & id & Hnew)].
    + destruct (Forall2_lookup_l _ _ _ _ _ Hsame Hi) as (t' & Hi' & [->|(_ & _ & Hp & _)]); [done|congruence].
    + cbn [world_]. rewrite Hnew. by apply lookup_app_l_Some.
  - destruct q as [[]|]; [|done..]. destruct (flag_ m); [|done]. by injection E as <-.
  - apply Nat.eqb_neq in Hc. destruct (threads_ W !! j) as [u|]; [|done].
    destruct (phase_ u) as [[|B f k]| |]; [done| |done..].
    destruct (f (shared_ W) (load W u)) as [[[s w] b]| |]; [|done..]. injection E as <-.
    cbn [world_ store_back threads_]. by rewrite list_lookup_insert_ne.
  - apply Nat.eqb_neq in Hc. destruct (threads_ W !! j) as [u|]; [|done].
    destruct (phase_ u) as [[[]|]| |]; [done| |done..]. injection E as <-.
    cbn [world_ set_phase set_threads threads_]. by rewrite list_lookup_insert_ne.
Qed.

Lemma schedule_elsewhere i t p cs v v' :
  server_reachable v -> Forall choice_ok cs -> forallb (fun c => negb (by_worker i c)) cs = true ->
  schedule cs v = Some v' -> threads_ (world_ v) !! i = Some t -> phase_ t = Running p ->
  rtc (elsewhere i) v v' /\ bounded v'.
Proof.
  intros Hr Hok Hby. revert v Hr. induction Hok as [|c cs Hc _ IH]; intros v Hr E Hi Hph; simpl in E;
    destruct (boundedb v) eqn:Hb; [|done| |done].
  - injection E as <-. split; [constructor|by apply System.boundedb_bounded].
  - simpl in Hby. apply andb_true_iff in Hby as [Hcj Hby]. apply negb_true_iff in Hcj.
    destruct (server_choose v c) as [v1|] eqn:Ec; simpl in E; [|by apply IH].
    pose proof (choose_elsewhere _ _ _ _ _ _ Hr Ec Hcj Hi Hph) as Hi1.
    pose proof (server_choose_step _ _ _ Ec Hc) as Hst.
    destruct (IH Hby v1) as [H1 H2]; [by eapply rtc_r|done..|]. split; [|done].
    eapply rtc_l; [|exact H1]. split; [|congruence]. split; [by apply System.boundedb_bounded|done].
Qed.

(** A message of a transaction, and its way to the worker and back. *)
Definition message (op txn key fill : Z) : ThreadManager.received :=
  ThreadManager.Message ([op; 0; txn; 0; 0; 0; 0; 1; key] ++ replicate 40 fill) Channels.conn_default.
Definition request_turn (op txn key fill : Z) : list choice :=
  SocketTurn 70 (message op txn key fill) :: replicate 60 SocketAct ++
  WorkerTurn (Z.to_nat txn) :: replicate 60 (WorkerAct (Z.to_nat txn)).

(** Three transactions start; the first one adds three records and commits; the
    second one takes the exclusive locks on records 0 and 1. *)
Definition locked_choices : list choice :=
  request_turn 0 0 0 0 ++ request_turn 0 1 0 0 ++ request_turn 0 2 0 0 ++
  request_turn 1 0 0 7 ++ request_turn 1 0 0 7 ++ request_turn 1 0 0 7 ++ request_turn 8 0 0 0 ++
  request_turn 3 1 0 0 ++ request_turn 3 1 0 0.

(** The third one locks record 2, updates it, and commits. *)
Definition update_choices : list choice :=
  request_turn 3 2 0 0 ++ request_turn 6 2 2 9 ++ request_turn 8 2 0 0.

Definition server_locked : server := default server_start (schedule locked_choices server_start).
Definition server_updated : server := default server_locked (schedule update_choices server_locked).

Lemma message_ok op txn key fill :
  is_byte op -> is_byte txn -> is_byte key -> is_byte fill -> delivered (message op txn key fill).
Proof.
  intros H1 H2 H3 H4. split; [by rewrite length_app, length_replicate|]. apply Forall_app. split; [|by apply Forall_replicate].
  repeat (constructor; [done|]); constructor.
Qed.

Lemma request_turn_ok op txn key fill :
  is_byte op -> is_byte txn -> is_byte key -> is_byte fill ->
  Forall choice_ok (request_turn op txn key fill).
Proof.
  intros. constructor; [by apply message_ok|]. apply Forall_app. split; [by apply Forall_replicate|].
  constructor; [done|]. by apply Forall_replicate.
Qed.

Ltac choices_ok := repeat first [apply Forall_app_2 | apply request_turn_ok]; (split; [lia|reflexivity]).

Lemma locked_ok : Forall choice_ok locked_choices.
Proof. unfold locked_choices. choices_ok. Qed.
Lemma update_ok : Forall choice_ok update_choices.
Proof. unfold update_choices. choices_ok. Qed.

Lemma locked_steps : rtc bounded_step server_start server_locked /\ bounded server_locked.
Proof.
  apply (server_schedule_steps locked_choices); [apply locked_ok|]. unfold server_locked.
  assert (H : match schedule locked_choices server_start with Some _ => true | None => false end = true)
    by (vm_compute; reflexivity).
  by destruct (schedule locked_choices server_start).
Qed.

(** What the second worker holds. *)
Definition locker : list (unique_key * LockType) :=
  match threads_ (world_ server_locked) !! 1%nat with
  | Some t => match phase_ t with Running (Done false) => System.held_by (worker_ t) | _ => [] end
  | None => []
  end.

Lemma locker_locks k m : (k, m) ∈ locker -> locked_by server_locked 1 k m.
Proof.
  unfold locker, locked_by. destruct (threads_ (world_ server_locked) !! 1%nat) as [t|]; [|by intros ?%elem_of_nil].
  destruct (phase_ t) as [[[]|]| |] eqn:Hph; try (by intros ?%elem_of_nil). intros Hk. by exists t.
Qed.

Lemma update_steps : rtc (elsewhere 1) server_locked server_updated /\ bounded server_updated.
Proof.
  destruct (locker_locks (record_key 1) EXCLUSIVE) as (t & Hi & Hph & _).
  { apply (bool_decide_unpack _). vm_compute. reflexivity. }
  apply (schedule_elsewhere 1 t (Done false) update_choices);
    [apply bounded_start, locked_steps|apply update_ok|vm_compute; reflexivity| |done|done].
  unfold server_updated.
  assert (H : match schedule update_choices server_locked with Some _ => true | None => false end = true)
    by (vm_compute; reflexivity).
  by destruct (schedule update_choices server_locked).
Qed.

Definition slot_of (v : server) (n : nat) : StudentTuple.StudentTuple :=
  StudentTable.tuple_ (default StudentTable.entry_default (StudentTable.table_ (table_of v) !! n)).

Lemma locked_slot : in_slot server_locked 1 (slot_of server_locked 1).
Proof.
  assert (H : match StudentTable.table_ (table_of server_locked) !! 1%nat with
    | Some e => StudentTable.live_entry e | None => false end = true) by (vm_compute; reflexivity).
  unfold in_slot, slot_of. destruct (StudentTable.table_ (table_of server_locked) !! 1%nat) as [e|]; [|discriminate H].
  by exists e.
Qed.

Lemma records_immutable_witness :
  StudentTuple.age_ <$> record_in server_locked 0 = Some 7 /\
  StudentTuple.age_ <$> record_in server_updated 0 = Some 9 /\
  StudentTuple.key_ (slot_of server_locked 1) = 1 /\
  (in_slot server_updated 1 (slot_of server_locked 1) \/
   exists v1 v2, in_slot v1 1 (slot_of server_locked 1) /\ deletes 1 (slot_of server_locked 1) v1 v2).
Proof.
  split; [vm_compute; reflexivity|]. split; [vm_compute; reflexivity|].
  assert (Hk : StudentTuple.key_ (slot_of server_locked 1) = 1) by (vm_compute; reflexivity).
  split; [exact Hk|].
  destruct (records_immutable server_locked server_updated 1 (slot_of server_locked 1))
    as [H|(v1 & v2 & _ & H1 & _ & H2 & _)].
  - apply bounded_start, locked_steps.
  - eapply rtc_subrel; [|apply (proj1 update_steps)]. intros v v' Hst. apply (ew_step _ _ _ Hst).
  - rewrite Hk. discriminate.
  - exact locked_slot.
  - left. exact H.
  - right. exists v1, v2. split; [exact H1|exact H2].
Defined.

(** The commit of the third transaction overwrites record 0, which the second
    one has locked (the update was for record 2); record 1 is as it was. *)
Lemma repeatable_reads_witness :
  StudentTuple.age_ <$> record_in server_locked 0 = Some 7 /\
  StudentTuple.age_ <$> record_in server_updated 0 = Some 9 /\
  is_Some (record_in server_locked 1) /\ record_in server_updated 1 = record_in server_locked 1.
Proof.
  split; [vm_compute; reflexivity|]. split; [vm_compute; reflexivity|].
  apply (repeatable_reads server_locked server_updated 1 (record_key 1) EXCLUSIVE).
  - apply locked_steps.
  - apply update_steps.
  - apply update_steps.
  - apply locker_locks. apply (bool_decide_unpack _). vm_compute. reflexivity.
  - vm_compute. discriminate.
Defined.
