(* ===== verification/Store.v ===== *)
(** * The records as an abstract store

    What a client can observe of the database: a bag of records and the next
    key.  An added record gets the next key, an update replaces the record that
    has the key it carries, a deletion takes the record with its key out.  The
    student table of the server implements this store: every step of every
    thread leaves it alone or applies the change at the front of the commit
    queue of the worker that acts. *)
From S2P Require Import Prelude Params Probe BufTable UniqueKey Ring Prog Counted Locking WorkerLogic.
From S2P Require Import References Requests Private Every Trail Serve Server Refinement Ownership.
From S2P Require StudentTuple StudentTable LockList CommitQueue Channels Worker WorkerTable ThreadManager System.

Record store := mkStore {
  st_records : list StudentTuple.StudentTuple;
  st_next : Z
}.

Definition st_keys (a : store) : list Z := StudentTuple.key_ <$> st_records a.

(** What a queued change asks for, its record being in the pool [T]. *)
Inductive change :=
  | Adds (u : StudentTuple.StudentTuple)
  | Updates (u : StudentTuple.StudentTuple)
  | Deletes (k : Z).

Definition change_of (T : buf_table) (c : CommitQueue.commit) : option change :=
  match CommitQueue.commit_op_ c with
  | ADD_TUPLE => Some (Adds (carried T c))
  | UPDATE => Some (Updates (carried T c))
  | DELETE => Some (Deletes (tuple_key_ (CommitQueue.commit_key_ c)))
  | _ => None
  end.

(** The store cannot take every change: there may be no room, the next key may
    be in use, the record not there. *)
Definition effect (x : change) (a : store) : option store :=
  match x with
  | Adds u =>
      if bool_decide ((length (st_records a) < StudentTable.Rows)%nat /\ st_next a ∉ st_keys a)
      then Some (mkStore (StudentTable.with_key u (st_next a) :: st_records a) (u8 (st_next a + 1)))
      else None
  | Updates u =>
      Some (mkStore ((fun r => if StudentTuple.key_ r =? StudentTuple.key_ u then u else r) <$> st_records a)
              (st_next a))
  | Deletes k =>
      if bool_decide (k ∈ st_keys a)
      then Some (mkStore (filter (fun r => StudentTuple.key_ r <> k) (st_records a)) (st_next a))
      else None
  end.

(** The table shows the store, up to order. *)
Record shows_store (t : StudentTable.StudentTable) (a : store) : Prop := {
  ss_records : records t ≡ₚ st_records a;
  ss_next : StudentTable.next_key_ t = st_next a
}.

(** ** The table functions on the records *)

Section Records.
Implicit Types t : StudentTable.StudentTable.

Lemma records_keys t : StudentTuple.key_ <$> records t = StudentTable.keys t.
Proof. unfold records, StudentTable.keys. by rewrite <- list_fmap_compose. Qed.

Lemma shows_store_keys t a : shows_store t a -> StudentTable.keys t ≡ₚ st_keys a.
Proof. intros Hs. rewrite <- records_keys. unfold st_keys. by rewrite (ss_records _ _ Hs). Qed.

Definition live_record (r : StudentTuple.StudentTuple * bool * bool) : option StudentTuple.StudentTuple :=
  if r.1.2 && negb r.2 then Some r.1.1 else None.

Lemma records_slots t : records t = omap live_record (slot_record <$> StudentTable.table_ t).
Proof.
  unfold records, StudentTable.rows. induction (StudentTable.table_ t) as [|e l IH]; [done|]. csimpl.
  rewrite <- IH. unfold StudentTable.row at 1, live_record, StudentTable.live_entry, live. simpl.
  by destruct (_ && _).
Qed.

Lemma same_records_shows t t' a : same_records t t' -> shows_store t a -> shows_store t' a.
Proof.
  intros [Hr Hn] [H1 H2]. split; [|by rewrite Hn]. by rewrite records_slots, Hr, <- records_slots.
Qed.

(** A slot that holds no record. *)
Lemma rows_dead t t' i e f :
  StudentTable.table_ t' = StudentTable.update_slot t i f -> StudentTable.table_ t !! i = Some e ->
  StudentTable.live_entry e = false -> StudentTable.live_entry (f e) = false ->
  StudentTable.rows t' = StudentTable.rows t /\
  cnt StudentTable.live_entry (StudentTable.table_ t') = cnt StudentTable.live_entry (StudentTable.table_ t).
Proof.
  unfold StudentTable.rows, StudentTable.update_slot. intros -> Hi He Hf.
  revert i Hi. induction (StudentTable.table_ t) as [|x l IH]; intros [|i] Hi; [done..| |].
  - injection Hi as ->. csimpl. unfold StudentTable.row. rewrite He, Hf. by split.
  - csimpl. destruct (IH i Hi) as [H1 H2]. split; [by rewrite H1|by rewrite H2].
Qed.

Lemma not_present t k : k ∉ StudentTable.keys t -> forall i e, StudentTable.table_ t !! i = Some e ->
  StudentTable.entry_key e = k -> StudentTable.live_entry e = false.
Proof.
  intros Hk i e Hi He. destruct (StudentTable.live_entry e) eqn:Hl; [|done]. exfalso. apply Hk.
  apply list_elem_of_fmap. exists (StudentTable.tuple_ e, StudentTable.lock_ e). split; [done|].
  apply elem_of_omap. exists i, e. unfold StudentTable.row. by rewrite Hl.
Qed.

Lemma key_row t k : k ∈ StudentTable.keys t -> exists r, r ∈ StudentTable.rows t /\ StudentTuple.key_ r.1 = k.
Proof. intros (r & -> & Hr)%list_elem_of_fmap. by exists r. Qed.

Lemma locate_absent t k i :
  StudentTable.locate t k = Ret i -> k ∉ StudentTable.keys t ->
  exists e, StudentTable.table_ t !! i = Some e /\ StudentTable.live_entry e = false /\
    StudentTable.is_used_ e = false.
Proof.
  intros Hl Hk. destruct (locate_hit _ _ _ Hl) as (e & Hi & [He%Z.eqb_eq Hd%negb_true_iff]%andb_true_iff).
  exists e. pose proof (not_present t k Hk i e Hi He) as Hlive. split_and!; [done..|].
  unfold StudentTable.live_entry, live in Hlive. by rewrite Hd, andb_true_r in Hlive.
Qed.

(** ** One change, on the table and on the store *)

Lemma update_absent (rs : list StudentTuple.StudentTuple) u :
  StudentTuple.key_ u ∉ (StudentTuple.key_ <$> rs) ->
  (fun r => if StudentTuple.key_ r =? StudentTuple.key_ u then u else r) <$> rs = rs.
Proof.
  intros Hk. rewrite <- (list_fmap_id rs) at 2. apply list_fmap_ext. intros i r Hr.
  destruct (Z.eqb_spec (StudentTuple.key_ r) (StudentTuple.key_ u)) as [E|]; [|done].
  exfalso. apply Hk, list_elem_of_fmap. exists r. split; [done|]. by eapply list_elem_of_lookup_2.
Qed.

Lemma update_present (rs rest : list StudentTuple.StudentTuple) r u :
  rs ≡ₚ r :: rest -> NoDup (StudentTuple.key_ <$> rs) -> StudentTuple.key_ r = StudentTuple.key_ u ->
  (fun r => if StudentTuple.key_ r =? StudentTuple.key_ u then u else r) <$> rs ≡ₚ u :: rest.
Proof.
  intros Hp Hd Hk. rewrite Hp in Hd |- *. csimpl in *. rewrite Hk in Hd |- *.
  apply list.NoDup_cons in Hd as [Hd _]. by rewrite Z.eqb_refl, update_absent.
Qed.

Lemma records_perm t x rest : StudentTable.rows t ≡ₚ x :: rest -> records t ≡ₚ x.1 :: (fst <$> rest).
Proof. intros H. unfold records. by rewrite H. Qed.

Lemma records_length t : StudentTable.table_wf t -> Z.of_nat (length (records t)) = StudentTable.entry_count_ t.
Proof. intros Hwf. unfold records. rewrite length_fmap. by apply StudentTable.rows_length. Qed.

Context (t t' : StudentTable.StudentTable) (a : store).
Context (Hwf : StudentTable.table_wf t) (Hd : StudentTable.distinct_keys t) (Hs : shows_store t a).
Context (Hwf' : StudentTable.table_wf t') (Hd' : StudentTable.distinct_keys t').

Lemma store_room : (length (st_records a) < StudentTable.Rows)%nat <-> StudentTable.full_ t = false.
Proof.
  rewrite <- (ss_records _ _ Hs).
  unfold StudentTable.full_. rewrite Z.eqb_neq.
  pose proof (StudentTable.counters_bounds t Hwf) as (Hn & _ & _).
  pose proof (records_length t Hwf). change StudentTable.Rows with 10%nat in *. lia.
Qed.

Lemma insert_store u r :
  StudentTable.insert_ id t u = Ret (t', r) ->
  (length (st_records a) < StudentTable.Rows)%nat /\ (st_next a ∉ st_keys a) /\
  shows_store t' (mkStore (StudentTable.with_key u (st_next a) :: st_records a) (u8 (st_next a + 1))).
Proof.
  intros E. rewrite store_room, <- (shows_store_keys _ _ Hs), <- (ss_next _ _ Hs).
  destruct (StudentTable.full_ t) eqn:Hf; [rewrite StudentTable.insert_wait, Hf in E; unfold id in E; by rewrite Hf in E|].
  destruct (StudentTable.insert_free t id u Hwf Hf) as (t1 & i & E1 & _ & _ & _ & Hr & Hn).
  rewrite E in E1. injection E1 as <- _. split_and!; [done| |split; [|done]].
  - unfold StudentTable.distinct_keys, StudentTable.keys in Hd'. rewrite Hr in Hd'. csimpl in Hd'.
    by apply list.NoDup_cons in Hd' as [? _].
  - rewrite (records_perm _ _ _ Hr). simpl. by rewrite <- (ss_records _ _ Hs).
Qed.

Lemma write_store u r :
  StudentTable.write_ t u = Ret (t', r) ->
  shows_store t' (mkStore ((fun r => if StudentTuple.key_ r =? StudentTuple.key_ u then u else r)
                             <$> st_records a) (st_next a)).
Proof.
  intros E. split; [|simpl; rewrite <- (ss_next _ _ Hs); by eapply StudentTable.write_next].
  simpl. rewrite <- (ss_records _ _ Hs).
  destruct (decide (StudentTuple.key_ u ∈ StudentTable.keys t)) as [Hin|Hno].
  - destruct (key_row _ _ Hin) as (x & Hx & Hk).
    destruct (StudentTable.row_holder t x Hwf Hd Hx) as (i & e & Hh & ->). rewrite Hk in Hh. simpl in Hk.
    destruct (StudentTable.write_holder t u i e Hwf Hh) as (t1 & rest & E1 & _ & H1 & H2).
    rewrite E in E1. injection E1 as <- _. rewrite (records_perm _ _ _ H2). symmetry.
    apply update_present with (r := StudentTable.tuple_ e); [by apply records_perm in H1| |done].
    by rewrite records_keys.
  - rewrite update_absent by by rewrite records_keys.
    revert E. unfold StudentTable.write_. intros (i & Hl & E)%outcome_bind_Ret_inv. injection E as <- _.
    destruct (locate_absent _ _ _ Hl Hno) as (e & Hi & Hlive & Hu). unfold records.
    match goal with |- _ <$> StudentTable.rows ?x ≡ₚ _ =>
      by rewrite (proj1 (rows_dead t x i e _ eq_refl Hi Hlive Hlive)) end.
Qed.

Lemma remove_store k r :
  StudentTable.remove_ t k = Ret (t', r) ->
  k ∈ st_keys a /\
  shows_store t' (mkStore (filter (fun r => StudentTuple.key_ r <> k) (st_records a)) (st_next a)).
Proof.
  intros E. rewrite <- (shows_store_keys _ _ Hs).
  destruct (decide (k ∈ StudentTable.keys t)) as [Hin|Hno].
  - split; [done|]. split; [|simpl; rewrite <- (ss_next _ _ Hs); by eapply StudentTable.remove_next].
    destruct (key_row _ _ Hin) as (x & Hx & Hk).
    destruct (StudentTable.row_holder t x Hwf Hd Hx) as (i & e & Hh & ->). rewrite Hk in Hh.
    destruct (StudentTable.remove_holder t k i e Hwf Hh) as (t1 & E1 & _ & H1 & _).
    rewrite E in E1. injection E1 as <- _. simpl. rewrite <- (ss_records _ _ Hs). symmetry.
    apply (filter_split _ _ (StudentTable.tuple_ e)); [by apply records_perm in H1|naive_solver|].
    intros y Hy Hky. pose proof Hd as Hd2. unfold StudentTable.distinct_keys in Hd2.
    rewrite <- records_keys, (records_perm _ _ _ H1) in Hd2. csimpl in Hd2.
    apply list.NoDup_cons in Hd2 as [Hd2 _]. apply Hd2, list_elem_of_fmap. exists y.
    split; [simpl in Hk; congruence|done].
  - exfalso. revert E. unfold StudentTable.remove_. intros (i & Hl & E)%outcome_bind_Ret_inv.
    injection E as <- _.
    destruct (locate_absent _ _ _ Hl Hno) as (e & Hi & Hlive & Hu).
    pose proof (StudentTable.wf_count _ Hwf') as Hc. simpl in Hc.
    match type of Hwf' with StudentTable.table_wf ?x =>
      pose proof (proj2 (rows_dead t x i e _ eq_refl Hi Hlive ltac:(by unfold StudentTable.live_entry, live; rewrite andb_false_r))) as Hc2 end.
    simpl in Hc2. rewrite Hc2, <- (StudentTable.wf_count _ Hwf) in Hc.
    pose proof (StudentTable.counters_bounds t Hwf) as (Hn & _ & _).
    destruct (decide (StudentTable.entry_count_ t = 0)) as [E0|]; [rewrite E0 in Hc; discriminate Hc|].
    replace (u64 (StudentTable.entry_count_ t - 1)) with (StudentTable.entry_count_ t - 1) in Hc by word. lia.
Qed.

Lemma applied_shows T c :
  applied T c t t' -> exists x a', change_of T c = Some x /\ effect x a = Some a' /\ shows_store t' a'.
Proof.
  unfold applied, change_of. destruct (CommitQueue.commit_op_ c); try done; intros [r E];
    eexists _, _; (split; [done|]); unfold effect.
  - destruct (insert_store _ _ E) as (? & ? & ?). rewrite bool_decide_true by done. by split.
  - split; [done|]. by eapply write_store.
  - destruct (remove_store _ _ E) as (? & ?). rewrite bool_decide_true by done. by split.
Qed.
End Records.

(** ** The server *)

Inductive store_step (a a' : store) : Prop :=
  | store_changes x : effect x a = Some a' -> store_step a a'.

Definition store_empty : store := mkStore [] 0.

(** One step: a worker applies the first change of its commit queue to the
    table; nothing happens to the store, or this change is applied to it. *)
Definition changing (v v' : server) (i : nat) (x : change) : Prop :=
  exists t q c rest, threads_ (world_ v) !! i = Some t /\ phase_ t = Running q /\
    threads_ (world_ v') !! i <> Some t /\
    contents (Worker.commit_queue_ (worker_ t)) = c :: rest /\ effective c = true /\
    change_of (pool_of (world_ v)) c = Some x /\
    applied (pool_of (world_ v)) c (table_of v) (table_of v').

Definition store_follows (v v' : server) (a a' : store) : Prop :=
  a' = a \/ exists i x, changing v v' i x /\ effect x a = Some a'.

Lemma server_table v : rtc bounded_step server_start v -> bounded v ->
  StudentTable.table_wf (table_of v) /\ StudentTable.distinct_keys (table_of v).
Proof.
  intros Hr Hb. destruct (System.reachable_inv _ (server_sys_reachable v Hr Hb)) as (gs & _ & HG).
  split; [apply (good_wf _ _ HG)|apply (good_distinct _ _ HG)].
Qed.

Lemma server_step_changes v v' :
  server_reachable v -> server_step v v' ->
  same_records (table_of v) (table_of v') \/ exists i x, changing v v' i x.
Proof.
  intros Hr Hst. destruct (sp_changes _ _ (server_spares _ _ Hr Hst))
    as [Hsame|(i & t & q & c & rest & Hi & Hph & Hne & Hc & He & Ha)]; [by left|right].
  assert (exists x, change_of (pool_of (world_ v)) c = Some x) as [x Hx].
  { unfold applied in Ha. unfold change_of. destruct (CommitQueue.commit_op_ c); try done; eauto. }
  exists i, x, t, q, c, rest. by split_and!.
Qed.

Lemma changing_store v v' i x a :
  rtc bounded_step server_start v -> bounded_step v v' -> bounded v' -> shows_store (table_of v) a ->
  changing v v' i x -> exists a', effect x a = Some a' /\ shows_store (table_of v') a'.
Proof.
  intros Hr Hst Hb' Hs (t & q & c & rest & _ & _ & _ & _ & _ & Hx & Ha).
  destruct (server_table v Hr (proj1 Hst)) as [Hwf Hd].
  destruct (server_table v') as [Hwf' Hd']; [by eapply rtc_r|done|].
  destruct (applied_shows _ _ a Hwf Hd Hs Hwf' Hd' _ _ Ha) as (x' & a' & Ec & E & Hs').
  exists a'. split; [congruence|done].
Qed.

Lemma server_step_store v v' a :
  rtc bounded_step server_start v -> bounded_step v v' -> bounded v' ->
  shows_store (table_of v) a -> exists a', shows_store (table_of v') a' /\ store_follows v v' a a'.
Proof.
  intros Hr Hst Hb' Hs.
  destruct (server_step_changes v v' (bounded_start _ Hr) (proj2 Hst)) as [Hsame|(i & x & Hx)].
  - exists a. split; [by eapply same_records_shows|by left].
  - destruct (changing_store v v' i x a Hr Hst Hb' Hs Hx) as (a' & E & Hs'). exists a'.
    split; [done|right]. by exists i, x.
Qed.

Lemma follows_store_step v v' a a' : store_follows v v' a a' -> rtc store_step a a'.
Proof.
  intros [->|(i & x & _ & E)]; [done|]. by eapply rtc_once, store_changes.
Qed.

(** C6.  The server implements the store.  As long as the bounds hold (no record has
    the next key, no record has 127 shared holders, and a job that is next in a
    channel has a buffer), the table shows
    a store that the empty one has become by changes; and whatever store it
    shows, a step of the server either leaves it or is the step of a worker that
    applies the first change of its commit queue: an added record gets the next
    key, for which there is room and which no record has, an update replaces the
    record with the key it carries and no other, a deletion takes out the record
    with its key, and that record is there. *)
Theorem server_refines_store v :
  rtc bounded_step server_start v -> bounded v ->
  (exists a, rtc store_step store_empty a /\ shows_store (table_of v) a) /\
  forall v' a, server_step v v' -> bounded v' -> shows_store (table_of v) a ->
    exists a', shows_store (table_of v') a' /\ store_follows v v' a a'.
Proof.
  intros Hr Hb. split; [|intros v' a Hst; by apply server_step_store].
  revert v Hr Hb. refine (rtc_ind_r _ _ _ _); [|intros v v' Hr [Hb Hst] IH Hb'].
  - by exists store_empty.
  - destruct (IH Hb) as (a & Ha & Hs).
    destruct (server_step_store v v' a Hr (conj Hb Hst) Hb' Hs) as (a' & Hs' & Hf). exists a'.
    split; [|done]. etrans; [exact Ha|by eapply follows_store_step].
Qed.

(** ** Witness

    The worker of [server_inserting] adds the record it has queued. *)

Lemma server_refines_store_witness :
  bounded server_inserted /\ exists r i x, shows_store (table_of server_inserting) store_empty /\
    changing server_inserting server_inserted i x /\ effect x store_empty = Some (mkStore [r] 1) /\
    shows_store (table_of server_inserted) (mkStore [r] 1).
Proof.
  assert (Hb : bounded server_inserted) by (apply System.boundedb_bounded; vm_compute; reflexivity).
  destruct inserting_steps as [Hr Hbi]. split; [exact Hb|].
  assert (Hs : shows_store (table_of server_inserting) store_empty).
  { assert (H : records (table_of server_inserting) = []) by (vm_compute; reflexivity).
    split; [rewrite H; reflexivity|vm_compute; reflexivity]. }
  assert (Hn : StudentTable.next_key_ (table_of server_inserted) = 1) by (vm_compute; reflexivity).
  assert (Hl : length (records (table_of server_inserted)) = 1%nat) by (vm_compute; reflexivity).
  destruct (proj2 (server_refines_store server_inserting Hr Hbi) server_inserted store_empty inserting_step Hb Hs)
    as ([rs n] & [Hs1 Hs2] & [E|(i & x & Hc & E)]).
  - injection E as -> ->. rewrite Hn in Hs2. discriminate Hs2.
  - cbn [st_records st_next] in Hs1, Hs2. rewrite Hn in Hs2. subst n.
    rewrite (Permutation_length Hs1) in Hl. destruct rs as [|r [|]]; try discriminate Hl. exists r, i, x. split; [exact Hs|]. split; [exact Hc|].
    split; [exact E|]. split; [exact Hs1|exact Hn].
Defined.
