(* ===== verification/Serial.v ===== *)
(** * Commits at the same time

    Two workers that commit take turns at the table, one change each.  Additions
    and deletions give the same store in every order, so also one commit after
    the other, but for which of the new keys each added record gets. *)
From S2P Require Import Prelude Params Probe BufTable UniqueKey Ring Prog Counted Locking.
From S2P Require Import Private Every Trail Serve Server Refinement Ownership Stability Store.
From S2P Require StudentTuple StudentTable CommitQueue Channels Worker ThreadManager System.

(** ** Orders of changes *)

Fixpoint effects (l : list change) (a : store) : option store :=
  match l with [] => Some a | x :: l => a' ← effect x a; effects l a' end.

Definition added (l : list change) : list StudentTuple.StudentTuple :=
  omap (fun x => match x with Adds u => Some u | _ => None end) l.
Definition deleted (l : list change) : list Z :=
  omap (fun x => match x with Deletes k => Some k | _ => None end) l.

(** The next [m] keys, and records that get them. *)
Fixpoint new_keys (n : Z) (m : nat) : list Z :=
  match m with O => [] | S m => n :: new_keys (u8 (n + 1)) m end.
Definition numbered (n : Z) (us : list StudentTuple.StudentTuple) : list StudentTuple.StudentTuple :=
  zip_with StudentTable.with_key us (new_keys n (length us)).

(** Additions and deletions that a store can take: of different records it has,
    and with room and keys for all additions. *)
Definition is_update (x : change) : bool := match x with Updates _ => true | _ => false end.
Definition mild (a : store) (l : list change) : Prop :=
  Forall (fun x => is_update x = false) l /\ NoDup (deleted l) /\
  Forall (fun k => k ∈ st_keys a) (deleted l) /\
  (length (st_records a) + length (added l) <= StudentTable.Rows)%nat /\
  Forall (fun k => k ∉ st_keys a) (new_keys (st_next a) (length (added l))).

(** The store without some records and with others, which get the next keys. *)
Definition result (a : store) (ks : list Z) (us : list StudentTuple.StudentTuple) : store :=
  mkStore (filter (fun r => StudentTuple.key_ r ∉ ks) (st_records a) ++ numbered (st_next a) us)
    (u8 (st_next a + Z.of_nat (length us))).

Definition same_store (a b : store) : Prop := st_records a ≡ₚ st_records b /\ st_next a = st_next b.

#[export] Instance same_store_equiv : Equivalence same_store.
Proof.
  split; [by intros a|intros a b [H1 H2]; by split|].
  intros a b c [H1 H2] [H3 H4]. split; [by rewrite H1|congruence].
Qed.

Lemma u8_byte z : is_byte (u8 z).
Proof. unfold is_byte, u8. apply Z.mod_pos_bound. lia. Qed.

Lemma new_keys_range m : forall n k, is_byte n -> k ∈ new_keys n m ->
  exists j, 0 <= j < Z.of_nat m /\ k = u8 (n + j).
Proof.
  induction m as [|m IH]; intros n k Hn Hk; [by apply elem_of_nil in Hk|].
  simpl in Hk. apply elem_of_cons in Hk as [->|Hk].
  - exists 0. split; [lia|]. rewrite Z.add_0_r, u8_small; [done|exact Hn].
  - destruct (IH _ _ (u8_byte _) Hk) as (j & Hj & ->). exists (j + 1). split; [lia|].
    unfold u8. rewrite Zplus_mod_idemp_l. f_equal. lia.
Qed.

Lemma new_keys_fresh n m : is_byte n -> (m < 256)%nat -> n ∉ new_keys (u8 (n + 1)) m.
Proof.
  intros Hn Hm Hk. destruct (new_keys_range m _ _ (u8_byte (n + 1)) Hk) as (j & Hj & E).
  revert E. unfold u8, is_byte in *. rewrite Zplus_mod_idemp_l. intros E. Z.to_euclidean_division_equations. lia.
Qed.

(** ** Every order gives the same store *)

Section Orders.
Implicit Types (a : store) (l : list change).

Lemma without_keys k k' rs n :
  k' ∈ st_keys (mkStore (filter (fun r => StudentTuple.key_ r <> k) rs) n) <->
  k' ∈ StudentTuple.key_ <$> rs /\ k' <> k.
Proof.
  unfold st_keys. simpl. rewrite !list_elem_of_fmap. setoid_rewrite list_elem_of_filter.
  split; [intros (r & -> & Hk & Hr); split; [by exists r|done]|].
  intros ((r & -> & Hr) & Hk). by exists r.
Qed.

(** One change of a mild sequence. *)
Lemma mild_step x l a : is_byte (st_next a) -> mild a (x :: l) ->
  exists a1, effect x a = Some a1 /\ is_byte (st_next a1) /\ mild a1 l /\
    same_store (result a1 (deleted l) (added l)) (result a (deleted (x :: l)) (added (x :: l))).
Proof.
  intros Hb (Hu & Hnd & Hin & Hroom & Hnew). apply Forall_cons_1 in Hu as [Hx Hu].
  destruct x as [u|u|k]; [|discriminate Hx|]; csimpl in *.
  - apply Forall_cons_1 in Hnew as [Hfresh Hnew]. rewrite bool_decide_true by (split; [lia|done]).
    eexists. split; [done|]. split; [apply u8_byte|]. split.
    + split_and!; [done|done| |simpl; lia|].
      * eapply Forall_impl; [|exact Hin]. intros k Hk. by apply elem_of_cons; right.
      * apply list.Forall_forall. intros k Hk [->|Hk2]%elem_of_cons.
        -- revert Hk. apply new_keys_fresh; [done|]. change StudentTable.Rows with 10%nat in Hroom. lia.
        -- by apply (proj1 (list.Forall_forall _ _) Hnew k).
    + assert (Hne : st_next a ∉ deleted l).
      { intros Hd. apply Hfresh. by apply (proj1 (list.Forall_forall _ _) Hin). }
      split; simpl; [|unfold u8; rewrite Zplus_mod_idemp_l; f_equal; lia].
      rewrite filter_cons_True by done. unfold numbered. csimpl. by rewrite Permutation_middle.
  - apply Forall_cons_1 in Hin as [Hk Hin]. apply list.NoDup_cons in Hnd as [Hno Hnd].
    rewrite bool_decide_true by done. eexists. split; [done|]. split; [done|]. split.
    + split_and!; [done|done| | |].
      * apply list.Forall_forall. intros k' Hk'. apply without_keys. split; [|by intros ->].
        by apply (proj1 (list.Forall_forall _ _) Hin).
      * simpl. pose proof (list.length_filter (fun r => StudentTuple.key_ r <> k) (st_records a)). lia.
      * eapply Forall_impl; [|exact Hnew]. intros k' Hk' Hk2. by apply without_keys in Hk2 as [? _].
    + split; [|done]. simpl. rewrite list_filter_filter. f_equiv.
      erewrite list_filter_iff; [reflexivity|]. intros r. rewrite not_elem_of_cons. tauto.
Qed.

Lemma mild_effects l : forall a, is_byte (st_next a) -> mild a l ->
  exists a', effects l a = Some a' /\ same_store a' (result a (deleted l) (added l)).
Proof.
  induction l as [|x l IH]; intros a Hb Hm.
  - exists a. split; [done|]. split; simpl.
    + rewrite app_nil_r. induction (st_records a) as [|r rs IH]; [done|].
      rewrite filter_cons_True by apply not_elem_of_nil. by f_equiv.
    + by rewrite Z.add_0_r, u8_small.
  - destruct (mild_step x l a Hb Hm) as (a1 & E & Hb1 & Hm1 & Hs). destruct (IH a1 Hb1 Hm1) as (a' & E' & Hs').
    exists a'. simpl. rewrite E. split; [exact E'|]. by rewrite Hs'.
Qed.

Lemma added_perm l l' : l ≡ₚ l' -> added l ≡ₚ added l'.
Proof. intros H. unfold added. by rewrite H. Qed.
Lemma deleted_perm l l' : l ≡ₚ l' -> deleted l ≡ₚ deleted l'.
Proof. intros H. unfold deleted. by rewrite H. Qed.

Lemma mild_perm a l l' : l ≡ₚ l' -> mild a l -> mild a l'.
Proof.
  intros Hp (Hu & Hnd & Hin & Hr & Hk). pose proof (deleted_perm _ _ Hp) as Hd.
  pose proof (Permutation_length (added_perm _ _ Hp)) as Hl. rewrite Hl in Hr, Hk.
  split_and!; [by rewrite <- Hp|by rewrite <- Hd|by rewrite <- Hd|done|done].
Qed.

Lemma result_perm a l l' us : l ≡ₚ l' -> result a (deleted l) us = result a (deleted l') us.
Proof.
  intros Hp. unfold result. do 2 f_equal. apply list_filter_iff. intros r. by rewrite (deleted_perm _ _ Hp).
Qed.
End Orders.

(** ** What a run of the server does *)

(** The changes of a run, with the workers that applied them. *)
Inductive history : server -> server -> list (nat * change) -> Prop :=
  | history_end v : history v v []
  | history_other v v1 v' l :
      bounded_step v v1 -> same_records (table_of v) (table_of v1) -> history v1 v' l -> history v v' l
  | history_change v v1 v' i x l :
      bounded_step v v1 -> changing v v1 i x -> history v1 v' l -> history v v' ((i, x) :: l).

Lemma history_exists v v' : server_reachable v -> rtc bounded_step v v' -> exists l, history v v' l.
Proof.
  intros Hr Hs. induction Hs as [v|v v1 v' Hst _ IH]; [exists []; constructor|].
  destruct (IH (rtc_r _ _ _ Hr (proj2 Hst))) as [l Hl].
  destruct (server_step_changes v v1 Hr (proj2 Hst)) as [Hsame|(i & x & Hx)].
  - exists l. by eapply history_other.
  - exists ((i, x) :: l). by eapply history_change.
Qed.

Lemma history_bounded v v' l : history v v' l -> bounded v' -> bounded v.
Proof. by intros [] Hb; [|destruct H..]. Qed.

Lemma history_effects v v' l : history v v' l -> forall a,
  rtc bounded_step server_start v -> bounded v' -> shows_store (table_of v) a ->
  exists a', effects l.*2 a = Some a' /\ shows_store (table_of v') a'.
Proof.
  induction 1 as [v|v v1 v' l Hst Hsame Hl IH|v v1 v' i x l Hst Hx Hl IH]; intros a Hr Hb' Hs.
  - by exists a.
  - apply IH; [by eapply rtc_r|done|by eapply same_records_shows].
  - destruct (changing_store v v1 i x a Hr Hst (history_bounded _ _ _ Hl Hb') Hs Hx) as (a1 & E & Hs1).
    destruct (IH a1) as (a' & E' & Hs'); [by eapply rtc_r|done|done|].
    exists a'. split; [|done]. simpl. by rewrite E.
Qed.

(** ** Property *)

(** C7.  Commits that run at the same time.  Every run of the server within the
    bounds (in each of its states no record has the next key or 127 shared
    holders, and a job that is next in a channel has a buffer) is a sequence of changes, each applied by the worker whose commit
    queue it is in front of, and the table at the end shows the store that these
    changes make of the first one.  When they are additions and deletions, of
    different records the first store has and with room and keys for all
    additions, any other order of the same changes, such as one commit after the
    other, can be carried out too.  All orders delete the same records, keep the
    others and give the added ones the same keys, in the order in which they are
    added. *)
Theorem commits_in_any_order v v' a :
  rtc bounded_step server_start v -> rtc bounded_step v v' -> bounded v' -> shows_store (table_of v) a ->
  (exists l, history v v' l) /\
  forall l, history v v' l ->
    exists a', effects l.*2 a = Some a' /\ shows_store (table_of v') a' /\
      (mild a l.*2 -> forall l', l' ≡ₚ l.*2 ->
         exists a'', effects l' a = Some a'' /\ added l' ≡ₚ added l.*2 /\
           same_store a'' (result a (deleted l.*2) (added l'))).
Proof.
  intros Hr Hst Hb' Hs. split; [by apply history_exists; [apply bounded_start|]|]. intros l Hl.
  destruct (history_effects v v' l Hl a Hr Hb' Hs) as (a' & E & Hs'). exists a'. split; [done|]. split; [done|].
  intros Hm l' Hp. assert (Hb : is_byte (st_next a)).
  { rewrite <- (ss_next _ _ Hs). apply StudentTable.wf_next_key, server_table; [done|].
    by eapply history_bounded. }
  destruct (mild_effects l' a Hb (mild_perm a _ _ (symmetry Hp) Hm)) as (a'' & E' & Hs'').
  exists a''. split; [done|]. split; [by apply added_perm|]. by rewrite (result_perm a _ _ _ (symmetry Hp)).
Qed.

(** ** Witness

    The changes of an execution, computed. *)

#[export] Instance student_eq_dec : EqDecision StudentTuple.StudentTuple.
Proof. solve_decision. Defined.

Definition same_recordsb (t t' : StudentTable.StudentTable) : bool :=
  bool_decide (slot_record <$> StudentTable.table_ t' = slot_record <$> StudentTable.table_ t) &&
  (StudentTable.next_key_ t' =? StudentTable.next_key_ t).

Lemma same_recordsb_true t t' : same_recordsb t t' = true <-> same_records t t'.
Proof. unfold same_recordsb. by rewrite andb_true_iff, bool_decide_eq_true, Z.eqb_eq. Qed.

Definition front_change (v : server) (i : nat) : list (nat * change) :=
  match threads_ (world_ v) !! i with
  | Some t =>
      match contents (Worker.commit_queue_ (worker_ t)) with
      | c :: _ => match change_of (pool_of (world_ v)) c with Some x => [(i, x)] | None => [] end
      | [] => []
      end
  | None => []
  end.

Definition label (v v1 : server) (c : choice) : list (nat * change) :=
  if same_recordsb (table_of v) (table_of v1) then []
  else match c with WorkerAct i | WorkerTurn i => front_change v i | _ => [] end.

Fixpoint labelled (cs : list choice) (v : server) : option (server * list (nat * change)) :=
  match cs with
  | [] => if boundedb v then Some (v, []) else None
  | c :: cs' =>
      if boundedb v then
        match server_choose v c with
        | Some v1 =>
            match labelled cs' v1 with Some (v', l) => Some (v', label v v1 c ++ l) | None => None end
        | None => labelled cs' v
        end
      else None
  end.

Lemma label_history v v1 v' c l :
  server_reachable v -> boundedb v = true -> choice_ok c -> server_choose v c = Some v1 ->
  history v1 v' l -> history v v' (label v v1 c ++ l).
Proof.
  intros Hr Hb Hok Ec Hl. pose proof (server_choose_step _ _ _ Ec Hok) as Hst.
  assert (Hbs : bounded_step v v1) by (split; [by apply System.boundedb_bounded|done]).
  unfold label. destruct (same_recordsb _ _) eqn:Hs.
  - apply same_recordsb_true in Hs. by eapply history_other.
  - destruct (server_step_changes v v1 Hr Hst) as [Hsame|(i & x & Hx)].
    + apply same_recordsb_true in Hsame. congruence.
    + enough (match c with WorkerAct i | WorkerTurn i => front_change v i | _ => [] end = [(i, x)]) as ->
        by by eapply history_change.
      destruct Hx as (t & q & c0 & rest & Hi & Hph & Hne & Hc & _ & Hx & _).
      destruct (by_worker i c) eqn:Hby.
      * unfold by_worker in Hby. destruct c as [| |j|j]; try done; apply Nat.eqb_eq in Hby as ->;
          unfold front_change; by rewrite Hi, Hc, Hx.
      * destruct Hne. by eapply choose_elsewhere.
Qed.

Lemma labelled_history cs v' l : Forall choice_ok cs -> forall v,
  server_reachable v -> labelled cs v = Some (v', l) -> rtc bounded_step v v' /\ history v v' l.
Proof.
  intros Hok. revert l. induction Hok as [|c cs Hc _ IH]; intros l v Hr E; simpl in E;
    destruct (boundedb v) eqn:Hb; [|done| |done].
  - injection E as <- <-. split; constructor.
  - destruct (server_choose v c) as [v1|] eqn:Ec; [|by apply IH].
    destruct (labelled cs v1) as [[v2 l1]|] eqn:El; [|done]. injection E as -> <-.
    pose proof (server_choose_step _ _ _ Ec Hc) as Hst.
    destruct (IH l1 v1) as [H1 H2]; [by eapply rtc_r|done|]. split.
    + eapply rtc_l; [|exact H1]. split; [by apply System.boundedb_bounded|done].
    + by apply label_history.
Qed.

(** Of the transactions of [server_locked] the second one deletes records 0 and
    1, the third one adds two records; both commit, and their workers act in
    turn. *)
Definition queued_choices : list choice :=
  request_turn 7 1 0 0 ++ request_turn 7 1 1 0 ++ request_turn 1 2 0 5 ++ request_turn 1 2 0 6 ++
  SocketTurn 70 (message 8 1 0 0) :: replicate 60 SocketAct ++
  SocketTurn 70 (message 8 2 0 0) :: replicate 60 SocketAct ++ [WorkerTurn 1; WorkerTurn 2].
Definition commit_turns : list choice := mjoin (replicate 60 [WorkerAct 1; WorkerAct 2]).

Definition server_both : server := default server_locked (schedule queued_choices server_locked).
Definition server_done : server := default server_both (fst <$> labelled commit_turns server_both).
Definition both_history : list (nat * change) := default [] (snd <$> labelled commit_turns server_both).
Definition both_store : store :=
  mkStore (records (table_of server_both)) (StudentTable.next_key_ (table_of server_both)).

(** The changes of the second transaction, then those of the third. *)
Definition one_by_one : list (nat * change) :=
  filter (fun p => p.1 = 1%nat) both_history ++ filter (fun p => p.1 <> 1%nat) both_history.

Lemma shows_self t : shows_store t (mkStore (records t) (StudentTable.next_key_ t)).
Proof. by split. Qed.

Lemma queued_ok : Forall choice_ok queued_choices.
Proof.
  unfold queued_choices.
  repeat first [apply Forall_app_2 | apply request_turn_ok | apply Forall_cons_2 | apply Forall_replicate];
    try done; try (split; [lia|reflexivity]); (by apply message_ok) || constructor.
Qed.

Lemma both_steps : rtc bounded_step server_start server_both.
Proof.
  etrans; [apply locked_steps|]. apply (server_schedule_steps queued_choices); [apply queued_ok|].
  unfold server_both.
  assert (H : match schedule queued_choices server_locked with Some _ => true | None => false end = true)
    by (vm_compute; reflexivity).
  by destruct (schedule queued_choices server_locked).
Qed.

Lemma turns_ok : Forall choice_ok commit_turns.
Proof. apply Forall_join, Forall_replicate. by repeat constructor. Qed.

Lemma both_labelled : rtc bounded_step server_both server_done /\ history server_both server_done both_history.
Proof.
  apply (labelled_history _ _ _ turns_ok _ (bounded_start _ both_steps)). unfold server_done, both_history.
  assert (H : match labelled commit_turns server_both with Some _ => true | None => false end = true)
    by (vm_compute; reflexivity).
  by destruct (labelled commit_turns server_both) as [[]|].
Qed.

Lemma commits_in_any_order_witness :
  both_history.*1 = [1; 2; 1; 2]%nat /\ one_by_one.*1 = [1; 1; 2; 2]%nat /\
  exists a', effects one_by_one.*2 both_store = Some a' /\
    same_store a' (result both_store [0; 1] (added both_history.*2)).
Proof.
  split; [vm_compute; reflexivity|]. split; [vm_compute; reflexivity|].
  assert (Hd : deleted both_history.*2 = [0; 1]) by (vm_compute; reflexivity).
  assert (Ha : added one_by_one.*2 = added both_history.*2) by (vm_compute; reflexivity).
  destruct (commits_in_any_order server_both server_done both_store) as [_ H].
  - apply both_steps.
  - apply both_labelled.
  - apply System.boundedb_bounded. vm_compute. reflexivity.
  - exact (shows_self _).
  - destruct (H both_history (proj2 both_labelled)) as (a1 & _ & _ & Hm).
    destruct (Hm ltac:(apply (bool_decide_unpack _); vm_compute; reflexivity) one_by_one.*2) as (a' & E & _ & Hs).
    + unfold one_by_one. apply fmap_Permutation, filter_app_complement.
    + exists a'. rewrite Hd, Ha in Hs. split; [exact E|exact Hs].
Defined.
